(* ===== verification/_CoqProject ===== *)
-Q . S2P
Prelude.v
Seen.v
SeenConc.v
Stream.v
EagerWire.v
Batch.v
Ordered.v
OrderedSpec.v
OrderedRun.v
OrderedConc.v
ReceiveConc.v
Overlay.v
OverlaySpec.v
Repair.v
Engine.v
EngineSpec.v
EngineRun.v
EngineSound.v
Netaddr.v
EngineLoop.v
Transport.v
Listener.v
Cluster.v
Spread.v
Json.v
Objstore.v
Bootstrap.v
Tls.v
Natutil.v
Holepunch.v
Relay.v
Membership.v
Mesh.v
S3nat.v
Discovery.v
Traverse.v
