(* ===== verification/Prelude.v ===== *)
(** * gossip-mesh: a verification of the gossip engine and what it runs on

    gossip-mesh (under src/, in Go) broadcasts messages in a cluster.  Every
    message has a 16-bit topic and a 64-bit sequence number.  A node pushes a
    message at once to its eager peers and batches it for its lazy peers; a
    receiver filters duplicates, puts the messages of a topic in order, and
    pulls a message it misses from a peer's cache.

    ** The parts and the files that model them

    - [Prelude] (this file): results for Go's (value, error) pairs, unsigned and
      signed 64-bit arithmetic with its wrap-around, bytes and big-endian numbers,
      the tactics and hint databases the other files use.
    - [Seen], [SeenConc] (src/engine/seen.go): [SeenTracker], the duplicate
      filter, one high-water mark per topic.  [Seen] has each method as one
      operation; [SeenConc] has the compare-and-swap loop of [ShouldProcess] as
      interleaved loads, swaps and set updates.
    - [Stream]: the parts of package io the code uses: readers, [ReadFull],
      [ReadAll], writes that fail after a prefix.
    - [EagerWire] (src/engine/engine.go, src/engine/eager_stream.go): the eager
      message, the persistent stream to a peer and the loop that reads it.
    - [Batch] (src/engine/batch.go): [LazyBuffer] and the lazy batch format.  The
      zstd codec is the class [Zstd]; [ZstdSpec] is its documented law, that
      decoding restores what was encoded.
    - [Ordered], [OrderedSpec], [OrderedRun] (src/engine/ordered.go):
      [OrderedApplier].  [Ordered] has the methods; [OrderedSpec] an abstract
      specification (deliver the longest received prefix) and the proof that
      [Receive] implements it; [OrderedRun] runs in which arrivals, expiring gap
      timers, repairs and resets interleave.
    - [OrderedConc], [ReceiveConc] (src/engine/ordered.go, with seen.go and the
      handlers of engine.go): the same applier access by access, with any number
      of calls and timers in progress on a topic; then the goroutines of arriving
      messages, local entries and gap timers with their repairs inside the filter
      and the applier.
    - [Overlay], [OverlaySpec] (src/overlay/overlay.go): the split of the known
      peers into eager and lazy ones by round-trip time.  [sort.Slice] is the
      class [SortSlice] with its law [SortSliceSpec] (a sorted permutation).
    - [Repair] (src/engine/repair.go): the cache, the repair request and its
      answer, and the callback of the gap timer, which is proved to be one of
      the callbacks [OrderedRun] is about.
    - [Engine], [EngineSpec], [EngineRun] (src/engine/engine.go): the engine that
      composes all of these.  [Engine] has the handlers, [EngineSpec] what each
      does to every part of the state and the paths from one engine to another,
      [EngineRun] runs of handlers, timers and the consumer.
    - [EngineSound]: any property of entries that everything an engine keeps has
      is kept by every action whose inputs have it; [Cluster] uses it with the
      property that an entry was enqueued somewhere.
    - [Netaddr]: the parts of package net the code uses: host and port strings,
      [ParseIP], comparison of addresses.
    - [EngineLoop] (src/engine/engine.go): the goroutine of [Run], its context and
      its end, next to everything else an engine does; the text summaries of the
      engine and the overlay.
    - [Transport], [Listener] (src/transport): the handler registries, the
      dispatch of datagrams and streams by their type byte, and the connection
      pool, whose [getOrDial] is a state machine with one step per access to the
      shared map; then the start of the transport, its accept loop and the loops
      that serve a connection.
    - [Cluster]: many nodes with their engines and dispatch tables and the
      parcels between them, over a network that repeats, reorders, loses and
      cuts off; nodes join and crash.
    - [Spread]: fair runs of a settled cluster, and what reaches whom in them.
    - [Json]: encoding/json as the class [JSON] with the round-trip law
      [JSONSpec].
    - [Objstore] (src/objstore): the Go interface as the class [ObjectStore],
      what its users rely on as [ObjectStoreSpec], and [MemoryObjectStore],
      which is proved to meet it.  The specification is that of a store whose
      calls fail only for a precondition or an absent key.
    - [Bootstrap], [Tls] (src/bootstrap): the registry of nodes, the shared
      certificate authority and the TLS setup, for every store that meets
      [ObjectStoreSpec].  [getOrCreateCA] is a state machine with one step per
      call to the store; tlsutil is the class [TLSUtil] with [TLSUtilSpec].
    - [Natutil] (src/natutil): the NAT decision, and the reflection protocol with
      its handlers and result channels.
    - [Holepunch] (src/holepunch): the signals in the store, and the attempt as a
      state machine with one step per access to the store.
    - [Relay] (src/relay): the request, the server up to the bridge, the bridge
      as a step relation of two copying goroutines, and the net.Conn over a
      stream, which is the class [QuicStream].
    - [Membership] (src/membership): the peer table with its callbacks, metadata,
      pings, start and stop; [UpdateMeta] as interleaved loads and swaps.  The
      Vivaldi library is the class [Vivaldi], the order in which a map is ranged
      over the class [MapOrder] with [MapOrderSpec].
    - [Mesh] (src/mesh): [Join] with the membership events that come meanwhile,
      [Leave], the callback that feeds the overlay, runs of a whole node, and of
      a node with the calls of Engine.Run on it (of which Join starts none).
    - [S3nat] (src/s3nat): registration, discovery and its three ways to connect,
      the poll loop and the leave hook.
    - [Discovery] (src/mesh with src/s3nat): the Go interface DiscoveryExtension as
      a class, Join and Leave with an extension, [S3nat] as an instance, and runs
      of a node with its extension and its store.
    - [Traverse]: what a round of discovery does to the pool and the membership,
      with the punched connections that the attempts of all nodes end in.

    The engine sees the transport through the outcomes of its sends and the
    dispatch of what arrives ([engine_calls] in [Listener]); the membership
    feeds the overlay through the callback [on_callback] in [Mesh] and the
    registry through [on_callbacks] in [S3nat], both at once in [Discovery]; registry, CA and signals share
    one object store through its interface.  The access-by-access models are tied
    to the operations by [undisturbed_is_atomic] (the applier),
    [ShouldProcess_linearizable] (the filter), [AddConnection_moves] and
    [Shutdown_moves] (the pool).

    ** State, effects and bounds

    An operation takes its state and returns the new one.  What the code does to
    the outside is returned as data: deliveries and started timers ([effect]),
    messages handed to the transport ([sent]), bytes on a stream.  What the
    outside decides is an argument: the outcome of every send and write, the
    key a range statement yields first, the answers of the asked peers.  A
    sleeping goroutine is an element of the state.

    Words are [Z] with explicit wrap-around where the code can reach it (sequence
    numbers, counts and lengths on the wire, durations).  The Go [int] fields of
    the configurations and the int64 counters are unbounded.

    Fuel: [drain_loop] takes the number of buffered entries, of which every
    iteration removes one; [receive_loop] takes one more than the bytes left, of
    which every iteration takes four or more ([receive_loop_fuel]: more fuel does
    not change the result).  The compare-and-swap loop has no fuel: it is a step
    relation, and [ShouldProcess_terminates] bounds its runs.  [run_ca] takes the
    number of store calls to run; the Go function has no bound, and
    [ca_cert_without_key_blocks] shows that no number of them is always enough,
    [ca_alone_returns] that a few are when no other node interferes.
    [getOrDial] runs six steps, the most an undisturbed call takes
    ([getOrDial_spec]: it has returned by then).  Loops over what a library
    returns ([acceptLoop], [pollLoop], [until_error]) are structural on the list
    of returned values.

    The clusters of [Cluster] carry entries whose message is below 4 GiB and
    batches that compress to less, since lengths on the wire have 32 bits.

    ** What the theorems show

    - Order: [receive_refines_prefix_spec], [window_delivered_in_order],
      [delivery_in_order], [pending_bounded], [gap_timers_drain],
      [delivered_arrived_timers_unique]; for the engine and its consumer
      [engine_refines_applier_run], [consumer_in_order].
    - Concurrency inside a node: [interleaved_receives_safe],
      [undisturbed_is_atomic], [concurrent_handlers_accounted].
    - Duplicates: [ShouldProcess_linearizable], [ShouldProcess_terminates],
      [ShouldProcess_running_max], [accepted_at_most_once],
      [redundant_copy_ignored].
    - Wire formats: [eager_message_roundtrip], [eager_stream_no_corruption],
      [framed_batch_roundtrip], [deserialize_sound], [repair_roundtrip].
    - Dissemination from end to end: [fresh_entry_disseminated],
      [eager_path_delivers], [lazy_path_delivers], [flush_exact], [gap_repaired],
      [lazy_buffer_exactly_wanted].
    - Bounds: [repair_cache_history], [engine_bounded], [delivery_accounting],
      [reclassify_budgets], [eager_count_exact].
    - Region coverage: [every_cluster_has_eager_peer], [clusters_partition].
    - Clusters: [gossip_integrity] (nothing is delivered that nobody enqueued),
      [enqueued_reaches_everyone] (what is enqueued reaches whom eager links lead
      to).
    - The loop of an engine: [loop_runs_once], [enqueue_needs_the_loop].
    - Transport: [engine_messages_dispatched], [pool_no_leak],
      [open_failure_redials], [accept_loop_serves], [transport_all_or_nothing].
    - Storage and bootstrap: [if_match_detects_change], [registry_exact],
      [ca_agreement], [ca_alone_returns], [cluster_mutual_tls].
    - NAT traversal: [detect_nat_decides], [reflection_roundtrip],
      [punch_dials_signalled], [read_signals_exact], [signals_cleaned],
      [relay_request_roundtrip], [bridge_relays_until_closed],
      [adopted_connections_served].
    - Membership: [membership_views_agree], [change_callback_current],
      [metadata_roundtrip], [ping_refreshes_coordinate],
      [update_meta_linearizable], [start_all_or_nothing].
    - Whole nodes: [gossip_targets_alive], [join_releases],
      [generated_id_sound], [discovery_tries_strangers],
      [registry_follows_membership], [node_and_registration].
    - Where the code does not do what it means to: [secondary_gap_stranded],
      [large_gap_reorders], [sender_gets_entry_back],
      [reordered_entry_counted_dup], [two_regions_no_eager],
      [ca_cert_without_key_blocks], [ca_key_without_cert_mismatch],
      [live_connection_dropped], [detect_nat_unparsed_is_relay],
      [second_request_starves_first], [write_signal_unread],
      [slash_ids_collide], [late_peer_never_connects],
      [relay_long_id_misdirected], [relay_never_bridges],
      [relay_half_close_cuts_reply], [oversized_metadata_hides_node],
      [stop_leave_failure_leaks], [early_joins_unnoticed],
      [enqueued_stays_queued], [unset_metadata_unroutable], [never_escalates],
      [punching_dials_bind_address], [suspected_node_forgotten],
      [concurrent_receives_lose_entries].

    ** What is not modelled

    Goroutines interleave between single accesses to shared memory in
    [ShouldProcess], the applier with its timers, [getOrDial], [getOrCreateCA],
    [AttemptHolePunch], [UpdateMeta] and the relay's copiers.  Elsewhere a
    handler of the engine is one step: the repair cache, the lazy buffers, the
    stream writers and the overlay are under locks in the code, but a handler
    takes several of them one after the other.  [enqueued_reaches_everyone] is
    about entries that fit in a datagram.  Log output is left out, as are
    accessors that only return a field, sockets, and the libraries for QUIC, TLS,
    zstd, JSON, Vivaldi and memberlist.  The broadcast of changed metadata is
    memberlist's.  The summary of the overlay is right for round-trip times below
    2^53 ns, up to which the code's floating-point division is exact enough.

    ** Plan

    Next: eventual delivery over lazy links and by repair; the locks of the
    engine's handlers one by one. *)

From Corelib Require Export Init.Byte.
From Stdlib Require Export ZArith Lia.
From Stdlib Require Import Strings.Byte.
From stdpp Require Export base tactics option list list_numbers numbers gmap fin_maps strings sorting.

#[global] Open Scope Z_scope.

(** ** Results: Go's [(value, error)] pairs *)

Inductive result (E A : Type) : Type :=
| Ok (a : A)
| Err (e : E).
Arguments Ok {E A} a.
Arguments Err {E A} e.

#[export] Instance result_ret {E} : MRet (result E) := fun A a => Ok a.

#[export] Instance result_bind {E} : MBind (result E) :=
  fun A B f r => match r with Ok a => f a | Err e => Err e end.

#[export] Instance result_fmap {E} : FMap (result E) :=
  fun A B f r => match r with Ok a => Ok (f a) | Err e => Err e end.

(** The error value of a call that did not succeed, as [err != nil] tests it. *)
Definition is_ok {E A} (r : result E A) : bool :=
  match r with Ok _ => true | Err _ => false end.

Lemma bind_ok {E A B} (r : result E A) (f : A → result E B) b :
  r ≫= f = Ok b ↔ ∃ a, r = Ok a ∧ f a = Ok b.
Proof.
  destruct r as [a|e]; cbn; [|naive_solver].
  split; [eauto|]. by intros (a' & [= ->] & ?).
Qed.

(** ** Machine integers: Go's unsigned types as [Z] with wrap-around *)

Declare Scope word_scope.
Delimit Scope word_scope with word.

Definition wrap (w : Z) (z : Z) : Z := z mod 2 ^ w.

Abbreviation u8 := (wrap 8).
Abbreviation u16 := (wrap 16).
Abbreviation u32 := (wrap 32).
Abbreviation u64 := (wrap 64).

Notation "x +64 y" := (u64 (x + y)) (at level 50, left associativity) : word_scope.
Notation "x -64 y" := (u64 (x - y)) (at level 50, left associativity) : word_scope.

(** Signed 64-bit wrap-around ([int64], [time.Duration]). *)
Definition i64 (z : Z) : Z := (z + 2 ^ 63) mod 2 ^ 64 - 2 ^ 63.

Definition MaxUint64 : Z := 2 ^ 64 - 1.

Definition in_word (w z : Z) : Prop := 0 ≤ z < 2 ^ w.

#[export] Instance in_word_dec w z : Decision (in_word w z).
Proof. unfold in_word. apply _. Defined.

Lemma wrap_in_word w z : 0 ≤ w → in_word w (wrap w z).
Proof. intros Hw. apply Z.mod_pos_bound. lia. Qed.

Lemma wrap_id w z : in_word w z → wrap w z = z.
Proof. apply Z.mod_small. Qed.

Lemma i64_id z : - 2 ^ 63 ≤ z < 2 ^ 63 → i64 z = z.
Proof. intros H. unfold i64. rewrite Z.mod_small; lia. Qed.

Create HintDb word discriminated.
#[export] Hint Resolve wrap_in_word : word.

(** Unfolds the word-width side conditions and closes them linearly. *)
Ltac word_lia :=
  unfold in_word, MaxUint64 in *; lia.

(** Rewrites every [wrap] of an in-range argument away. *)
Ltac word_simpl :=
  repeat match goal with
  | |- context [wrap ?w ?z] => rewrite (wrap_id w z) by word_lia
  | H : context [wrap ?w ?z] |- _ => rewrite (wrap_id w z) in H by word_lia
  end.

(** ** Bytes *)

Abbreviation bytes := (list byte).

#[export] Instance byte_eq_decision : EqDecision byte := Byte.byte_eq_dec.

#[export] Instance byte_inhabited : Inhabited byte := populate x00.

Definition byte_to_Z (b : byte) : Z := Z.of_N (Byte.to_N b).

(** [byte(z)]: the conversion keeps the low eight bits. *)
Definition byte_of_Z (z : Z) : byte := default x00 (Byte.of_N (Z.to_N (u8 z))).

Lemma byte_to_Z_range b : in_word 8 (byte_to_Z b).
Proof.
  unfold in_word, byte_to_Z. pose proof (Byte.to_N_bounded b).
  split; [lia|]. change (2 ^ 8) with 256. lia.
Qed.

Lemma byte_to_of_Z z : byte_to_Z (byte_of_Z z) = u8 z.
Proof.
  unfold byte_to_Z, byte_of_Z. pose proof (wrap_in_word 8 z ltac:(lia)) as Hz.
  destruct (Byte.of_N (Z.to_N (u8 z))) as [b|] eqn:E; simpl.
  - apply Byte.to_of_N in E. rewrite E. unfold in_word in Hz. lia.
  - apply Byte.of_N_None_iff in E. unfold in_word in Hz. change (2 ^ 8) with 256 in Hz. lia.
Qed.

Lemma byte_to_Z_inj b1 b2 : byte_to_Z b1 = byte_to_Z b2 → b1 = b2.
Proof.
  unfold byte_to_Z. intros H%N2Z.inj.
  pose proof (Byte.of_to_N b1) as E1. pose proof (Byte.of_to_N b2) as E2.
  rewrite H in E1. congruence.
Qed.

Lemma byte_of_to_Z b : byte_of_Z (byte_to_Z b) = b.
Proof.
  apply byte_to_Z_inj. rewrite byte_to_of_Z. apply wrap_id, byte_to_Z_range.
Qed.

#[export] Instance byte_countable : Countable byte.
Proof. apply (inj_countable' byte_to_Z byte_of_Z). apply byte_of_to_Z. Defined.

(** ** Big-endian integers ([encoding/binary]'s [BigEndian]) *)

(** [PutUint16], [PutUint32] and [PutUint64]: [n] bytes, most significant first. *)
Fixpoint be_put (n : nat) (z : Z) : bytes :=
  match n with
  | O => []
  | S m => byte_of_Z (Z.shiftr z (8 * Z.of_nat m)) :: be_put m z
  end.

(** [Uint16], [Uint32] and [Uint64] of a slice that holds exactly those bytes. *)
Fixpoint be_get (l : bytes) : Z :=
  match l with
  | [] => 0
  | b :: l' => Z.lor (Z.shiftl (byte_to_Z b) (8 * Z.of_nat (length l'))) (be_get l')
  end.

Lemma length_be_put n z : length (be_put n z) = n.
Proof. induction n; simpl; congruence. Qed.

Lemma lor_shiftl_add a b k :
  0 ≤ k → 0 ≤ b < 2 ^ k → Z.lor (Z.shiftl a k) b = a * 2 ^ k + b.
Proof.
  intros Hk Hb. rewrite <- Z.shiftl_mul_pow2 by lia.
  assert (Z.land (Z.shiftl a k) b = 0) as Hdisj.
  { apply Z.bits_inj'. intros i Hi. rewrite Z.land_spec, Z.bits_0, Z.shiftl_spec by lia.
    destruct (decide (i < k)); [by rewrite Z.testbit_neg_r by lia|].
    replace (Z.testbit b i) with false; [apply andb_false_r|].
    symmetry. rewrite <- (Z.mod_small b (2 ^ k)) by lia. apply Z.mod_pow2_bits_high. lia. }
  rewrite Z.add_nocarry_lxor by done. symmetry. by apply Z.lxor_lor.
Qed.

Lemma be_get_bound l : 0 ≤ be_get l < 2 ^ (8 * Z.of_nat (length l)).
Proof.
  induction l as [|b l IH]; [done|].
  cbn [be_get length]. rewrite lor_shiftl_add by lia.
  pose proof (byte_to_Z_range b) as Hb. unfold in_word in Hb.
  replace (8 * Z.of_nat (S (length l))) with (8 + 8 * Z.of_nat (length l)) by lia.
  rewrite Z.pow_add_r by lia. nia.
Qed.

Lemma be_get_cons b l :
  be_get (b :: l) = byte_to_Z b * 2 ^ (8 * Z.of_nat (length l)) + be_get l.
Proof. cbn [be_get]. apply lor_shiftl_add; [lia|apply be_get_bound]. Qed.

Lemma be_get_put n z : be_get (be_put n z) = z mod 2 ^ (8 * Z.of_nat n).
Proof.
  induction n as [|n IH]; [symmetry; apply Z.mod_1_r|].
  cbn [be_put]. rewrite be_get_cons, length_be_put, IH, byte_to_of_Z.
  rewrite Z.shiftr_div_pow2 by lia. unfold wrap.
  replace (8 * Z.of_nat (S n)) with (8 * Z.of_nat n + 8) by lia.
  rewrite Z.pow_add_r by lia.
  rewrite Z.rem_mul_r by lia. lia.
Qed.

Lemma be_put_get l : be_put (length l) (be_get l) = l.
Proof.
  assert (Hind : ∀ k a, be_put (length k) (a * 2 ^ (8 * Z.of_nat (length k)) + be_get k) = k).
  { induction k as [|b k IH]; intros a; [done|].
    cbn [be_put length]. rewrite be_get_cons. pose proof (be_get_bound k).
    set (m := 8 * Z.of_nat (length k)) in *.
    replace (8 * Z.of_nat (S (length k))) with (8 + m) by lia.
    rewrite Z.pow_add_r by lia.
    replace (a * (2 ^ 8 * 2 ^ m) + (byte_to_Z b * 2 ^ m + be_get k))
      with ((a * 2 ^ 8 + byte_to_Z b) * 2 ^ m + be_get k) by ring.
    f_equal; [|apply IH].
    rewrite Z.shiftr_div_pow2, Z.div_add_l, (Z.div_small (be_get k)), Z.add_0_r by lia.
    apply byte_to_Z_inj. rewrite byte_to_of_Z. unfold wrap.
    rewrite Z.add_comm, Z_mod_plus_full. apply Z.mod_small, byte_to_Z_range. }
  specialize (Hind l 0). by rewrite Z.mul_0_l, Z.add_0_l in Hind.
Qed.

Lemma be_get_put_id n z : in_word (8 * Z.of_nat n) z → be_get (be_put n z) = z.
Proof. intros H. rewrite be_get_put. by apply Z.mod_small. Qed.

#[global] Arguments be_put : simpl never.
#[global] Arguments be_get : simpl never.

Create HintDb wire discriminated.
Create Rewrite HintDb wire.
#[export] Hint Rewrite length_be_put : wire.
