(* ===== verification/Seen.v ===== *)
(** * Duplicate suppression: [SeenTracker] (src/engine/seen.go)

    One high-water mark per topic, and the set of topics whose mark was ever
    raised above zero.  The 65536-entry array of atomics is a finite map whose
    missing entries read as zero.  This file models each method as one atomic
    operation; [SeenConc] models the compare-and-swap loop of [ShouldProcess]
    under interleaving and proves that it implements the operation below. *)

From S2P Require Import Prelude.

(** Number of slots: the 16-bit topic space. *)
Definition maxSlots : Z := 65536.

Record TopicSeq := mkTopicSeq { ts_topic : Z; ts_seq : Z }.

#[export] Instance TopicSeq_eq_dec : EqDecision TopicSeq.
Proof. solve_decision. Defined.

#[export] Instance TopicSeq_countable : Countable TopicSeq.
Proof.
  apply (inj_countable' (fun k => (ts_topic k, ts_seq k)) (fun p => mkTopicSeq p.1 p.2)).
  by intros [].
Defined.

Record SeenTracker := mkSeen {
  slotSeqs : gmap Z Z;
  activeSlots : gset Z;
}.

(** The zero value [&SeenTracker{}]. *)
Definition emptySeen : SeenTracker := mkSeen ∅ ∅.

(** [s.slotSeqs[topic].Load()], exported as [CurrentSeq]. *)
Definition CurrentSeq (s : SeenTracker) (topic : Z) : Z := default 0 (slotSeqs s !! topic).

(** [s.slotSeqs[topic].Store(seq)]. *)
Definition storeSeq (s : SeenTracker) (topic seq : Z) : SeenTracker :=
  mkSeen (<[topic := seq]> (slotSeqs s)) (activeSlots s).

Definition markActive (s : SeenTracker) (topic : Z) : SeenTracker :=
  if decide (topic ∈ activeSlots s) then s
  else mkSeen (slotSeqs s) ({[topic]} ∪ activeSlots s).

Definition ShouldProcess (s : SeenTracker) (topic seq : Z) : bool * SeenTracker :=
  let old := CurrentSeq s topic in
  if seq <=? old then (false, s)
  else
    let s1 := storeSeq s topic seq in
    (true, if old =? 0 then markActive s1 topic else s1).

Definition SetTopicSeq (s : SeenTracker) (topic seq : Z) : SeenTracker :=
  let s1 := storeSeq s topic seq in
  if 0 <? seq then markActive s1 topic else s1.

(** Go iterates the set in an unspecified order; [elements] fixes one, and
    nothing below depends on which. *)
Definition HighWaterMarks (s : SeenTracker) : list TopicSeq :=
  omap (fun topic =>
          let seq := CurrentSeq s topic in
          if 0 <? seq then Some (mkTopicSeq topic seq) else None)
       (elements (activeSlots s)).

(** A sequence of calls, with the answers in order. *)
Fixpoint ShouldProcess_all (s : SeenTracker) (calls : list TopicSeq) : list bool * SeenTracker :=
  match calls with
  | [] => ([], s)
  | c :: calls' =>
      let '(b, s1) := ShouldProcess s (ts_topic c) (ts_seq c) in
      let '(bs, s2) := ShouldProcess_all s1 calls' in
      (b :: bs, s2)
  end.

(** ** Lookup lemmas *)

Create HintDb seen discriminated.
Create Rewrite HintDb seen.

Lemma CurrentSeq_storeSeq s t q t' :
  CurrentSeq (storeSeq s t q) t' = if decide (t = t') then q else CurrentSeq s t'.
Proof. unfold CurrentSeq, storeSeq; simpl. rewrite lookup_insert. by case_decide. Qed.

Lemma CurrentSeq_markActive s t t' : CurrentSeq (markActive s t) t' = CurrentSeq s t'.
Proof. unfold markActive. by case_decide. Qed.

Lemma activeSlots_markActive s t : activeSlots (markActive s t) = {[t]} ∪ activeSlots s.
Proof. unfold markActive. case_decide; simpl; set_solver. Qed.

Lemma CurrentSeq_empty t : CurrentSeq emptySeen t = 0.
Proof. reflexivity. Qed.

#[export] Hint Rewrite CurrentSeq_storeSeq CurrentSeq_markActive activeSlots_markActive
  CurrentSeq_empty : seen.

Lemma CurrentSeq_ShouldProcess s t q t' :
  CurrentSeq (ShouldProcess s t q).2 t' =
    if decide (t = t') then Z.max (CurrentSeq s t) q else CurrentSeq s t'.
Proof.
  unfold ShouldProcess. destruct (Z.leb_spec q (CurrentSeq s t)); simpl.
  - case_decide; subst; lia.
  - destruct (_ =? 0); autorewrite with seen; case_decide; subst; lia.
Qed.

Lemma ShouldProcess_answer s t q :
  (ShouldProcess s t q).1 = bool_decide (CurrentSeq s t < q).
Proof.
  unfold ShouldProcess. destruct (Z.leb_spec q (CurrentSeq s t)); simpl;
    symmetry; [apply bool_decide_eq_false|apply bool_decide_eq_true]; lia.
Qed.

(** ** Well-formedness: marks are words, and a raised mark is active *)

Record seen_ok (s : SeenTracker) : Prop := {
  seen_range : ∀ t, in_word 64 (CurrentSeq s t);
  seen_active : ∀ t, 0 < CurrentSeq s t → t ∈ activeSlots s;
}.

Lemma emptySeen_ok : seen_ok emptySeen.
Proof. split; intros t; rewrite CurrentSeq_empty; [done|lia]. Qed.

Lemma ShouldProcess_ok s t q :
  in_word 64 q → seen_ok s → seen_ok (ShouldProcess s t q).2.
Proof.
  intros Hq [Hr Ha]. split; intros t'.
  - rewrite CurrentSeq_ShouldProcess. pose proof (Hr t). pose proof (Hr t').
    case_decide; word_lia.
  - unfold ShouldProcess. pose proof (Hr t).
    destruct (Z.leb_spec q (CurrentSeq s t)); simpl; [apply Ha|].
    destruct (Z.eqb_spec (CurrentSeq s t) 0); autorewrite with seen; intros Hpos.
    + case_decide; [set_solver|]. apply Ha in Hpos. set_solver.
    + case_decide; [subst; apply Ha; word_lia|]. by apply Ha.
Qed.

Lemma SetTopicSeq_ok s t q : in_word 64 q → seen_ok s → seen_ok (SetTopicSeq s t q).
Proof.
  intros Hq [Hr Ha]. unfold SetTopicSeq.
  assert (∀ t', CurrentSeq (if 0 <? q then markActive (storeSeq s t q) t else storeSeq s t q) t' =
                if decide (t = t') then q else CurrentSeq s t') as Hc.
  { intros t'. destruct (0 <? q); by autorewrite with seen. }
  split; intros t'; rewrite Hc; case_decide; subst; auto.
  - intros Hpos. rewrite (proj2 (Z.ltb_lt 0 q) Hpos). autorewrite with seen. set_solver.
  - intros Hpos%Ha. destruct (0 <? q); autorewrite with seen; simpl; set_solver.
Qed.

#[export] Hint Resolve emptySeen_ok ShouldProcess_ok SetTopicSeq_ok : seen.

(** ** What a sequence of calls answers *)

(** The greatest sequence number of [topic] among [calls], at least [h]. *)
Definition high (topic h : Z) (calls : list TopicSeq) : Z :=
  foldl (fun a c => if decide (ts_topic c = topic) then Z.max a (ts_seq c) else a) h calls.

Lemma high_app t h l1 l2 : high t h (l1 ++ l2) = high t (high t h l1) l2.
Proof. apply foldl_app. Qed.

Lemma high_ge t h l : h ≤ high t h l.
Proof.
  revert h. induction l as [|c l IH]; intros h; simpl; [lia|].
  case_decide; (etrans; [|apply IH]); lia.
Qed.

Lemma high_ge_elem t h l c : c ∈ l → ts_topic c = t → ts_seq c ≤ high t h l.
Proof.
  intros Hin Ht. revert h Hin. induction l as [|c' l IH]; intros h; [by intros ?%elem_of_nil|].
  intros [->|Hin]%elem_of_cons; simpl; [|by apply IH].
  rewrite decide_True by done. etrans; [|apply high_ge]. lia.
Qed.

Lemma high_lt t h l q :
  h < q → (∀ c, c ∈ l → ts_topic c = t → ts_seq c < q) → high t h l < q.
Proof.
  revert h. induction l as [|c l IH]; intros h Hh Hall; simpl; [done|].
  apply IH; [|set_solver]. case_decide as Ht; [|done].
  specialize (Hall c ltac:(set_solver) Ht). lia.
Qed.

Lemma CurrentSeq_all s calls t :
  CurrentSeq (ShouldProcess_all s calls).2 t = high t (CurrentSeq s t) calls.
Proof.
  revert s. induction calls as [|c calls IH]; intros s; simpl; [done|].
  pose proof (CurrentSeq_ShouldProcess s (ts_topic c) (ts_seq c) t) as Hc.
  destruct (ShouldProcess s _ _) as [b s1]. specialize (IH s1).
  destruct (ShouldProcess_all s1 calls) as [bs s2]. simpl in *.
  rewrite IH, Hc. f_equal. case_decide; by subst.
Qed.

Lemma length_ShouldProcess_all s calls :
  length (ShouldProcess_all s calls).1 = length calls.
Proof.
  revert s. induction calls as [|c calls IH]; intros s; simpl; [done|].
  destruct (ShouldProcess s _ _) as [b s1]. specialize (IH s1).
  destruct (ShouldProcess_all s1 calls). simpl in *. lia.
Qed.

Lemma ShouldProcess_all_app s l1 l2 :
  ShouldProcess_all s (l1 ++ l2) =
    let '(b1, s1) := ShouldProcess_all s l1 in
    let '(b2, s2) := ShouldProcess_all s1 l2 in (b1 ++ b2, s2).
Proof.
  revert s. induction l1 as [|c l1 IH]; intros s; simpl.
  - by destruct (ShouldProcess_all s l2).
  - destruct (ShouldProcess s _ _) as [b s1]. rewrite IH.
    destruct (ShouldProcess_all s1 l1) as [b1 s2].
    by destruct (ShouldProcess_all s2 l2).
Qed.

Lemma ShouldProcess_all_answer s l1 c l2 :
  (ShouldProcess_all s (l1 ++ c :: l2)).1 !! length l1 =
    Some (bool_decide (high (ts_topic c) (CurrentSeq s (ts_topic c)) l1 < ts_seq c)).
Proof.
  rewrite ShouldProcess_all_app. pose proof (length_ShouldProcess_all s l1) as Hlen.
  pose proof (CurrentSeq_all s l1 (ts_topic c)) as Hh.
  destruct (ShouldProcess_all s l1) as [b1 s1]. simpl in *.
  pose proof (ShouldProcess_answer s1 (ts_topic c) (ts_seq c)) as Hb.
  destruct (ShouldProcess s1 _ _) as [b s2]. simpl in *.
  destruct (ShouldProcess_all s2 l2) as [b2 s3]. simpl.
  rewrite lookup_app_r, Hlen, Nat.sub_diag by lia. simpl. by rewrite Hb, Hh.
Qed.

(** ** Theorems *)

(** In any sequence of calls the [i]-th call answers true exactly when its
    sequence number exceeds the topic's starting mark and every sequence number
    already presented for that topic: the answer is that of a running maximum. *)
Theorem ShouldProcess_running_max (s : SeenTracker) (calls : list TopicSeq) (i : nat) (c : TopicSeq) :
  calls !! i = Some c →
  (ShouldProcess_all s calls).1 !! i = Some true ↔
    CurrentSeq s (ts_topic c) < ts_seq c ∧
    ∀ j c', (j < i)%nat → calls !! j = Some c' → ts_topic c' = ts_topic c → ts_seq c' < ts_seq c.
Proof.
  intros Hi. pose proof (lookup_lt_Some _ _ _ Hi) as Hlt.
  pose proof (ShouldProcess_all_answer s (take i calls) c (drop (S i) calls)) as Hans.
  rewrite take_drop_middle, length_take_le in Hans by (done || lia). rewrite Hans. clear Hans.
  set (h := CurrentSeq s (ts_topic c)). split.
  - intros [= H%bool_decide_eq_true]. split; [pose proof (high_ge (ts_topic c) h (take i calls)); lia|].
    intros j c' Hj Hc' Ht. eapply Z.le_lt_trans; [|exact H].
    apply high_ge_elem; [|done]. apply list_elem_of_lookup. exists j.
    by rewrite lookup_take_lt by lia.
  - intros [Hh Hall]. f_equal. apply bool_decide_eq_true.
    assert (∀ c', c' ∈ take i calls → ts_topic c' = ts_topic c → ts_seq c' < ts_seq c) as Hall'.
    { intros c' (j & Hj)%list_elem_of_lookup Ht.
      apply lookup_take_Some in Hj as [Hj ?]. eauto. }
    by apply high_lt.
Qed.

Lemma ShouldProcess_running_max_witness :
  (ShouldProcess_all emptySeen [mkTopicSeq 7 2; mkTopicSeq 7 1]).1 !! 0%nat = Some true ↔
    CurrentSeq emptySeen 7 < 2 ∧
    ∀ j c', (j < 0)%nat → [mkTopicSeq 7 2; mkTopicSeq 7 1] !! j = Some c' → ts_topic c' = 7 → ts_seq c' < 2.
Proof.
  exact (ShouldProcess_running_max emptySeen [mkTopicSeq 7 2; mkTopicSeq 7 1] 0 (mkTopicSeq 7 2) eq_refl).
Defined.

(** The marks piggybacked on lazy batches are exactly the non-zero
    high-water marks, each topic once, in every well-formed tracker. *)
Theorem HighWaterMarks_exact (s : SeenTracker) :
  seen_ok s →
  NoDup (ts_topic <$> HighWaterMarks s) ∧
  ∀ t q, mkTopicSeq t q ∈ HighWaterMarks s ↔ CurrentSeq s t = q ∧ 0 < q.
Proof.
  intros [_ Ha]. unfold HighWaterMarks. split.
  - pose proof (NoDup_elements (activeSlots s)) as Hnd.
    induction Hnd as [|t ts Hnin Hnd IH]; csimpl; [constructor|].
    destruct (0 <? CurrentSeq s t); csimpl; [|done]. constructor; [|done].
    intros ([t' q'] & ? & (t'' & Ht'' & Hin)%list_elem_of_omap)%list_elem_of_fmap.
    simpl in *. subst t'. destruct (0 <? _); simplify_eq. contradiction.
  - intros t q. rewrite list_elem_of_omap. split.
    + intros (t' & Hin & Hq). destruct (Z.ltb_spec 0 (CurrentSeq s t')); by simplify_eq.
    + intros [<- Hpos]. exists t. split; [by apply elem_of_elements, Ha|].
      by rewrite (proj2 (Z.ltb_lt _ _) Hpos).
Qed.

Lemma HighWaterMarks_exact_witness :
  let s := (ShouldProcess emptySeen 3 9).2 in
  NoDup (ts_topic <$> HighWaterMarks s) ∧
  ∀ t q, mkTopicSeq t q ∈ HighWaterMarks s ↔ CurrentSeq s t = q ∧ 0 < q.
Proof.
  apply HighWaterMarks_exact. apply ShouldProcess_ok; [by vm_compute|apply emptySeen_ok].
Defined.
