(* ===== verification/SeenConc.v ===== *)
(** * The compare-and-swap loop of [ShouldProcess] under interleaving
      (src/engine/seen.go)

    Transport goroutines call [ShouldProcess] concurrently.  Here every atomic
    access of the loop (the load, the compare-and-swap, the two critical
    sections of [markActive]) is one step of a thread, and a run is any
    interleaving of the threads' steps.  A ghost log records each call at the
    access that decides its answer.  The theorems show that every interleaving
    answers as the atomic [Seen.ShouldProcess] does in the log's order, that
    every interleaving terminates, and that a finished run leaves every raised
    topic active. *)

From S2P Require Import Prelude Seen.

(** Where a call is in the loop; [PDone] carries the returned value. *)
Inductive pc :=
| PLoad
| PCas (old : Z)
| PMarkCheck
| PMarkInsert
| PDone (b : bool).

Record thread := mkThread { th_call : TopicSeq; th_pc : pc }.

Record conc := mkConc {
  cShared : SeenTracker;
  cThreads : list thread;
  cLog : list (TopicSeq * bool);
}.

Definition startCalls (s : SeenTracker) (calls : list TopicSeq) : conc :=
  mkConc s ((fun c => mkThread c PLoad) <$> calls) [].

(** One atomic access by one thread: the new shared state, the new program
    counter, and the answer if this access decides it. *)
Definition thread_step (s : SeenTracker) (th : thread) : option (SeenTracker * pc * option bool) :=
  let topic := ts_topic (th_call th) in
  let seq := ts_seq (th_call th) in
  match th_pc th with
  | PLoad =>
      let old := CurrentSeq s topic in
      if seq <=? old then Some (s, PDone false, Some false) else Some (s, PCas old, None)
  | PCas old =>
      if CurrentSeq s topic =? old
      then Some (storeSeq s topic seq, if old =? 0 then PMarkCheck else PDone true, Some true)
      else Some (s, PLoad, None)
  | PMarkCheck =>
      if decide (topic ∈ activeSlots s) then Some (s, PDone true, None)
      else Some (s, PMarkInsert, None)
  | PMarkInsert => Some (mkSeen (slotSeqs s) ({[topic]} ∪ activeSlots s), PDone true, None)
  | PDone _ => None
  end.

Inductive step : conc → conc → Prop :=
| step_thread s ths log i th s' p ans :
    ths !! i = Some th →
    thread_step s th = Some (s', p, ans) →
    step (mkConc s ths log)
         (mkConc s' (<[i := mkThread (th_call th) p]> ths)
                 (log ++ match ans with Some b => [(th_call th, b)] | None => [] end)).

(** A schedule names the thread that takes each step. *)
Fixpoint run_sched (sched : list nat) (c : conc) : option conc :=
  match sched with
  | [] => Some c
  | i :: sched' =>
      th ← cThreads c !! i;
      '(s', p, ans) ← thread_step (cShared c) th;
      run_sched sched'
        (mkConc s' (<[i := mkThread (th_call th) p]> (cThreads c))
                (cLog c ++ match ans with Some b => [(th_call th, b)] | None => [] end))
  end.

Lemma run_sched_nsteps sched c c' :
  run_sched sched c = Some c' → nsteps step (length sched) c c'.
Proof.
  revert c. induction sched as [|i sched IH]; intros [s ths log] Hrun; cbn -[thread_step] in *.
  - simplify_eq. constructor.
  - destruct (ths !! i) as [th|] eqn:Hi; cbn -[thread_step] in *; [|done].
    destruct (thread_step s th) as [[[s' p] ans]|] eqn:Hst; cbn -[thread_step] in *; [|done].
    econstructor; [|by apply IH]. by econstructor.
Qed.

(** ** Linearization *)

(** The call has passed its deciding access, with this answer. *)
Definition decided (p : pc) : option bool :=
  match p with
  | PLoad | PCas _ => None
  | PMarkCheck | PMarkInsert => Some true
  | PDone b => Some b
  end.

Definition decided_of (th : thread) : option (TopicSeq * bool) :=
  b ← decided (th_pc th); Some (th_call th, b).

(** The log replays on the atomic tracker from [s0] with the same answers and
    the same marks, and it holds each decided call once. *)
Record linearized (s0 : SeenTracker) (c : conc) : Prop := {
  lin_answers : (ShouldProcess_all s0 (fst <$> cLog c)).1 = snd <$> cLog c;
  lin_marks : ∀ t, CurrentSeq (ShouldProcess_all s0 (fst <$> cLog c)).2 t = CurrentSeq (cShared c) t;
  lin_calls : cLog c ≡ₚ omap decided_of (cThreads c);
  lin_old : ∀ i th old, cThreads c !! i = Some th → th_pc th = PCas old → old < ts_seq (th_call th);
}.

Lemma replay_snoc s l c :
  ShouldProcess_all s (l ++ [c]) =
    let '(bs, s1) := ShouldProcess_all s l in
    let '(b, s2) := ShouldProcess s1 (ts_topic c) (ts_seq c) in (bs ++ [b], s2).
Proof.
  rewrite ShouldProcess_all_app. destruct (ShouldProcess_all s l) as [bs s1]. simpl.
  by destruct (ShouldProcess s1 _ _).
Qed.

Lemma startCalls_linearized s calls : linearized s (startCalls s calls).
Proof.
  split; simpl; [done|done| |].
  - induction calls; simpl; done.
  - intros i th old (c & -> & _)%list_lookup_fmap_Some. done.
Qed.

Lemma omap_insert_Permutation {A B} (f : A → option B) (l : list A) i x y :
  l !! i = Some x → f x = None →
  omap f (<[i := y]> l) ≡ₚ omap f l ++ match f y with Some b => [b] | None => [] end.
Proof.
  intros Hi Hx. rewrite <- (take_drop_middle l i x Hi) at 2.
  rewrite insert_take_drop by (by eapply lookup_lt_Some).
  rewrite !omap_app; csimpl. rewrite Hx. destruct (f y) as [b|]; simpl; [|by rewrite app_nil_r].
  rewrite <- app_assoc. f_equiv. apply Permutation_cons_append.
Qed.

Lemma omap_insert_same {A B} (f : A → option B) (l : list A) i x y :
  l !! i = Some x → f y = f x → omap f (<[i := y]> l) = omap f l.
Proof.
  intros Hi Hx. rewrite <- (take_drop_middle l i x Hi) at 2.
  rewrite insert_take_drop by (by eapply lookup_lt_Some).
  rewrite !omap_app; csimpl. by rewrite Hx.
Qed.

(** What a step does to the answer a thread will be logged with. *)
Lemma thread_step_decided s th s' p ans :
  thread_step s th = Some (s', p, ans) →
  match ans with
  | Some b => decided (th_pc th) = None ∧ decided p = Some b
  | None => decided p = decided (th_pc th)
  end.
Proof.
  unfold thread_step. destruct (th_pc th); intros; repeat case_match; by simplify_eq.
Qed.

(** What a step does to the marks: a deciding step is the atomic operation. *)
Lemma thread_step_marks s th s' p ans :
  (∀ old, th_pc th = PCas old → old < ts_seq (th_call th)) →
  thread_step s th = Some (s', p, ans) →
  match ans with
  | Some b => ∀ s1, (∀ t, CurrentSeq s1 t = CurrentSeq s t) →
      (ShouldProcess s1 (ts_topic (th_call th)) (ts_seq (th_call th))).1 = b ∧
      ∀ t, CurrentSeq (ShouldProcess s1 (ts_topic (th_call th)) (ts_seq (th_call th))).2 t = CurrentSeq s' t
  | None => ∀ t, CurrentSeq s' t = CurrentSeq s t
  end.
Proof.
  intros Hold Hst. destruct ans as [b|].
  - intros s1 Hs1. rewrite ShouldProcess_answer.
    setoid_rewrite CurrentSeq_ShouldProcess. rewrite Hs1.
    unfold thread_step in Hst. destruct (th_pc th) as [|old| | |]; try case_match; simplify_eq.
    + rewrite bool_decide_eq_false_2 by (apply Z.leb_le in H; lia).
      split; [done|]. intros t. rewrite Hs1. apply Z.leb_le in H. case_decide; subst; lia.
    + apply Z.eqb_eq in H. specialize (Hold _ eq_refl). rewrite bool_decide_eq_true_2 by lia.
      split; [done|]. intros t. rewrite Hs1. autorewrite with seen. case_decide; subst; lia.
  - unfold thread_step in Hst. destruct (th_pc th); intros t; repeat case_match; by simplify_eq.
Qed.

Lemma thread_step_old s th s' p ans :
  thread_step s th = Some (s', p, ans) → ∀ old, p = PCas old → old < ts_seq (th_call th).
Proof.
  unfold thread_step. intros Hst old ->.
  destruct (th_pc th); repeat case_match; simplify_eq. apply Z.leb_gt in H. lia.
Qed.

Lemma step_linearized s0 c c' : linearized s0 c → step c c' → linearized s0 c'.
Proof.
  intros [Ha Hm Hc Ho] Hstep. destruct Hstep as [s ths log i th s' p ans Hi Hst]. simpl in *.
  pose proof (thread_step_decided _ _ _ _ _ Hst) as Hdec.
  pose proof (thread_step_marks _ _ _ _ _ (fun old => Ho i th old Hi) Hst) as Hmarks.
  assert (∀ j th' old, <[i:=mkThread (th_call th) p]> ths !! j = Some th' →
            th_pc th' = PCas old → old < ts_seq (th_call th')) as Hold.
  { intros j th' old [(<- & <- & _)|[_ ?]]%list_lookup_insert_Some Hp; [|by eapply Ho].
    simpl in *. by eapply thread_step_old. }
  destruct ans as [b|].
  - destruct Hdec as [Hd1 Hd2].
    split; simpl; rewrite ?fmap_app; csimpl; rewrite ?replay_snoc.
    + destruct (ShouldProcess_all s0 _) as [bs s1]; simpl in *.
      destruct (Hmarks s1 Hm) as [<- _]. destruct (ShouldProcess _ _ _); simpl. by rewrite Ha.
    + intros t. destruct (ShouldProcess_all s0 _) as [bs s1]; simpl in *.
      destruct (Hmarks s1 Hm) as [_ <-]. by destruct (ShouldProcess _ _ _).
    + rewrite (omap_insert_Permutation _ _ _ _ _ Hi) by (by unfold decided_of; rewrite Hd1).
      unfold decided_of at 2; simpl. rewrite Hd2. simpl. by f_equiv.
    + done.
  - rewrite app_nil_r. split; simpl; [done| | |done].
    + intros t. by rewrite Hm, Hmarks.
    + rewrite (omap_insert_same _ _ _ _ _ Hi); [done|]. unfold decided_of; simpl. by rewrite Hdec.
Qed.

Lemma run_linearized s calls c : rtc step (startCalls s calls) c → linearized s c.
Proof.
  intros Hrun. eapply (rtc_ind_r (fun c => linearized s c)); [| |exact Hrun].
  - apply startCalls_linearized.
  - eauto using step_linearized.
Qed.

(** ** Termination: a step always lowers a measure *)

Definition undecided (th : thread) : bool :=
  match th_pc th with PLoad | PCas _ => true | _ => false end.

(** Steps a thread still needs if no other thread interferes. *)
Definition todo (s : SeenTracker) (th : thread) : nat :=
  match th_pc th with
  | PLoad => 2
  | PCas old => if CurrentSeq s (ts_topic (th_call th)) =? old then 1 else 3
  | PMarkCheck => 2
  | PMarkInsert => 1
  | PDone _ => 0
  end.

Definition weight (s : SeenTracker) (n : nat) (th : thread) : nat :=
  (if undecided th then 2 * n + 3 else 0) + todo s th.

Definition measure (c : conc) : nat :=
  sum_list_with (weight (cShared c) (length (cThreads c))) (cThreads c).

Lemma sum_list_with_take_drop {A} (f : A → nat) (l : list A) i x :
  l !! i = Some x →
  sum_list_with f l = (sum_list_with f (take i l) + f x + sum_list_with f (drop (S i) l))%nat.
Proof.
  intros Hi. rewrite <- (take_drop_middle l i x Hi) at 1.
  rewrite sum_list_with_app; simpl. lia.
Qed.

Lemma sum_list_with_bound {A} (f g : A → nat) k (l : list A) :
  (∀ x, f x ≤ g x + k)%nat → (sum_list_with f l ≤ sum_list_with g l + k * length l)%nat.
Proof. intros Hfg. induction l as [|x l IH]; simpl; [lia|]. specialize (Hfg x). nia. Qed.

(** Interference costs any other thread at most two further steps. *)
Lemma weight_interference s s' n th : (weight s' n th ≤ weight s n th + 2)%nat.
Proof. unfold weight, todo. destruct (th_pc th); repeat case_match; lia. Qed.

(** A thread's own step lowers its weight: by more than the interference it
    causes when it changes a mark, by at least one otherwise. *)
Lemma thread_step_weight s th s' p ans n :
  thread_step s th = Some (s', p, ans) →
  (weight s' n (mkThread (th_call th) p) + 1 ≤ weight s n th)%nat ∧
  ((weight s' n (mkThread (th_call th) p) + 2 * n + 1 ≤ weight s n th)%nat ∨
   ∀ t, CurrentSeq s' t = CurrentSeq s t).
Proof.
  unfold thread_step, weight, todo, undecided. intros Hst.
  destruct (th_pc th) as [|old| | |] eqn:Hpc; repeat case_match; simplify_eq; simpl;
    rewrite ?Z.eqb_refl; repeat case_match; simplify_eq; split; try lia; try (right; done); try (left; lia).
  simpl in *; simplify_eq. by rewrite Z.eqb_refl in *.
Qed.

Lemma weight_ext s s' n th :
  (∀ t, CurrentSeq s' t = CurrentSeq s t) → weight s' n th = weight s n th.
Proof. intros Hext. unfold weight, todo. by destruct (th_pc th); rewrite ?Hext. Qed.

Lemma step_measure c c' : step c c' → (measure c' < measure c)%nat.
Proof.
  intros [s ths log i th s' p ans Hi Hst]. unfold measure; simpl. rewrite length_insert.
  set (n := length ths). pose proof (lookup_lt_Some _ _ _ Hi) as Hlt.
  rewrite (sum_list_with_take_drop _ (<[i:=_]> ths) i (mkThread (th_call th) p))
    by (by apply list_lookup_insert_eq).
  rewrite take_insert_ge, drop_insert_lt by lia.
  rewrite (sum_list_with_take_drop _ ths i th Hi).
  destruct (thread_step_weight _ _ _ _ _ n Hst) as [H1 [H2|Hext]].
  - pose proof (sum_list_with_bound _ _ _ (take i ths) (weight_interference s s' n)) as Hb1.
    pose proof (sum_list_with_bound _ _ _ (drop (S i) ths) (weight_interference s s' n)) as Hb2.
    rewrite length_take in Hb1. rewrite length_drop in Hb2. fold n in Hb1, Hb2, Hlt. lia.
  - assert (∀ l, sum_list_with (weight s' n) l = sum_list_with (weight s n) l) as ->.
    { intros l. induction l; simpl; [done|]. by rewrite (weight_ext s s') , IHl. }
    assert (∀ l, sum_list_with (weight s' n) l = sum_list_with (weight s n) l) as ->.
    { intros l. induction l; simpl; [done|]. by rewrite (weight_ext s s') , IHl. }
    lia.
Qed.

Lemma measure_startCalls s calls :
  measure (startCalls s calls) = (length calls * (2 * length calls + 5))%nat.
Proof.
  assert (∀ n l, sum_list_with (weight s n) ((fun c => mkThread c PLoad) <$> l) =
                 (length l * (2 * n + 5))%nat) as Hsum.
  { intros n l. induction l as [|x l IH]; [done|].
    cbn [fmap list_fmap sum_list_with length]. rewrite IH. unfold weight; cbn [undecided th_pc todo]. lia. }
  unfold measure, startCalls. cbn [cShared cThreads]. rewrite length_fmap. apply Hsum.
Qed.

(** ** Active slots at quiescence *)

Definition marking (t : Z) (th : thread) : Prop :=
  ts_topic (th_call th) = t ∧ (th_pc th = PMarkCheck ∨ th_pc th = PMarkInsert).

(** Every raised topic is active or has a thread on its way to mark it. *)
Record marked_or_marking (c : conc) : Prop := {
  mm_nonneg : ∀ t, 0 ≤ CurrentSeq (cShared c) t;
  mm_marked : ∀ t, 0 < CurrentSeq (cShared c) t →
    t ∈ activeSlots (cShared c) ∨ ∃ i th, cThreads c !! i = Some th ∧ marking t th;
}.

(** The marks a step leaves alone, and the one it raises. *)
Lemma thread_step_shared s th s' p ans :
  (∀ old, th_pc th = PCas old → old < ts_seq (th_call th)) →
  thread_step s th = Some (s', p, ans) →
  activeSlots s ⊆ activeSlots s' ∧
  ∀ t, CurrentSeq s t ≤ CurrentSeq s' t ∧
    (CurrentSeq s t < CurrentSeq s' t → t = ts_topic (th_call th) ∧
       (CurrentSeq s t = 0 → marking t (mkThread (th_call th) p))).
Proof.
  unfold thread_step, marking. intros Hold Hst.
  destruct (th_pc th) as [|old| | |]; repeat case_match; simplify_eq; simpl.
  all: split; [set_solver|]. all: intros t; autorewrite with seen.
  all: try (split; [reflexivity|unfold CurrentSeq; simpl; lia]).
  all: specialize (Hold _ eq_refl); repeat case_decide; subst; try (split; [reflexivity|lia]).
  all: rewrite ?Z.eqb_eq, ?Z.eqb_neq in *; split; [lia|].
  all: intros _; split; [done|]. all: intros; first [by auto|lia].
Qed.

(** A thread that was marking a topic still is, or the topic is now active. *)
Lemma thread_step_marking s th s' p ans t :
  thread_step s th = Some (s', p, ans) → marking t th →
  t ∈ activeSlots s' ∨ marking t (mkThread (th_call th) p).
Proof.
  unfold thread_step, marking. intros Hst [<- [Hpc|Hpc]]; rewrite Hpc in Hst;
    repeat case_match; simplify_eq; simpl; auto. left. set_solver.
Qed.

Lemma step_marking c c' :
  (∀ i th old, cThreads c !! i = Some th → th_pc th = PCas old → old < ts_seq (th_call th)) →
  step c c' → marked_or_marking c → marked_or_marking c'.
Proof.
  intros Hold Hstep [Hnn Hmk]. destruct Hstep as [s ths log i th s' p ans Hi Hst]. simpl in *.
  destruct (thread_step_shared _ _ _ _ _ (fun old => Hold i th old Hi) Hst) as [Hact Hup].
  pose proof (lookup_lt_Some _ _ _ Hi) as Hlt.
  split; simpl; [intros t; destruct (Hup t); specialize (Hnn t); lia|].
  intros t Hpos. destruct (Hup t) as [_ Hraise].
  destruct (decide (CurrentSeq s t = 0)) as [Hz|Hz].
  { destruct Hraise as [-> Hm]; [lia|]. right. eexists i, _. split; [|by apply Hm].
    by apply list_lookup_insert_eq. }
  destruct (Hmk t) as [Ha|(j & th' & Hj & Hm)]; [specialize (Hnn t); lia| |].
  { left. by apply Hact. }
  destruct (decide (i = j)) as [<-|Hne].
  - simplify_eq. destruct (thread_step_marking _ _ _ _ _ _ Hst Hm) as [?|?]; [by left|].
    right. eexists i, _. split; [by apply list_lookup_insert_eq|done].
  - right. exists j, th'. by rewrite list_lookup_insert_ne.
Qed.

Lemma run_marking s calls c :
  seen_ok s → rtc step (startCalls s calls) c → marked_or_marking c.
Proof.
  intros [Hr Ha] Hrun.
  cut (linearized s c ∧ marked_or_marking c); [tauto|].
  eapply (rtc_ind_r (fun c => linearized s c ∧ marked_or_marking c)); [| |exact Hrun].
  - split; [apply startCalls_linearized|].
    split; simpl; [intros t; apply Hr|]. intros t ?%Ha. by left.
  - intros c1 c2 _ Hst [Hlin Hm]. split; [by eapply step_linearized|].
    eapply step_marking; [apply Hlin|done|done].
Qed.

Definition finished (c : conc) : Prop := ∀ i th, cThreads c !! i = Some th → ∃ b, th_pc th = PDone b.

Lemma stuck_finished c : nf step c → finished c.
Proof.
  destruct c as [s ths log]. intros Hnf i th Hi. simpl in Hi.
  destruct (thread_step s th) as [[[s' p] ans]|] eqn:Hst.
  - destruct Hnf. eexists. by econstructor.
  - unfold thread_step in Hst. destruct (th_pc th); repeat case_match; by eauto.
Qed.

(** ** Theorems *)

(** C9: linearizability of the CAS loop. In every reachable state of every
    interleaving of [calls], the calls decided so far were answered exactly as
    the atomic [ShouldProcess] answers them one after the other in the order of
    their deciding accesses, and the marks are the ones that sequential run leaves. *)
Theorem ShouldProcess_linearizable (s : SeenTracker) (calls : list TopicSeq) (c : conc) :
  rtc step (startCalls s calls) c →
  cLog c ≡ₚ omap decided_of (cThreads c) ∧
  (ShouldProcess_all s (fst <$> cLog c)).1 = snd <$> cLog c ∧
  ∀ t, CurrentSeq (cShared c) t = CurrentSeq (ShouldProcess_all s (fst <$> cLog c)).2 t.
Proof. intros [Ha Hm Hc _]%run_linearized. split_and!; auto. Qed.

(** Two goroutines present the same entry; both load before either swaps, so
    the second swap fails, reloads and answers false. *)
Definition contended : option conc :=
  run_sched [0; 1; 0; 1; 0; 1; 0]%nat (startCalls emptySeen [mkTopicSeq 1 5; mkTopicSeq 1 5]).

Lemma ShouldProcess_linearizable_witness :
  match contended with
  | Some c =>
      snd <$> cLog c = [true; false] ∧
      (ShouldProcess_all emptySeen (fst <$> cLog c)).1 = snd <$> cLog c
  | None => False
  end.
Proof.
  destruct contended as [c|] eqn:E; [|by vm_compute in E].
  destruct (ShouldProcess_linearizable emptySeen [mkTopicSeq 1 5; mkTopicSeq 1 5] c) as (_ & H & _).
  - eapply rtc_nsteps_2, (run_sched_nsteps _ _ _ E).
  - split; [|exact H]. vm_compute in E. by injection E as <-.
Defined.

(** C31: every interleaving terminates (the loop is lock-free), within
    [n * (2 n + 5)] steps for [n] concurrent calls, and a run that can make no
    further step has returned from every call with every raised topic active. *)
Theorem ShouldProcess_terminates (s : SeenTracker) (calls : list TopicSeq) (c : conc) (k : nat) :
  seen_ok s →
  nsteps step k (startCalls s calls) c →
  (k ≤ length calls * (2 * length calls + 5))%nat ∧
  (nf step c → finished c ∧ ∀ t, 0 < CurrentSeq (cShared c) t → t ∈ activeSlots (cShared c)).
Proof.
  intros Hok Hsteps. split.
  - pose proof (measure_startCalls s calls) as Hstart.
    enough (k + measure c ≤ measure (startCalls s calls))%nat by lia.
    clear Hstart Hok. induction Hsteps as [|k x y z Hxy Hyz IH]; [lia|].
    apply step_measure in Hxy. lia.
  - intros Hfin%stuck_finished. split; [done|]. intros t Hpos.
    destruct (run_marking s calls c Hok (rtc_nsteps_2 _ _ _ Hsteps)) as [_ Hm].
    destruct (Hm t Hpos) as [?|(i & th & Hi & _ & Hpc)]; [done|].
    destruct (Hfin i th Hi) as [b Hb]. rewrite Hb in Hpc. by destruct Hpc.
Qed.

Lemma ShouldProcess_terminates_witness :
  match contended with
  | Some c => (7 ≤ 2 * (2 * 2 + 5))%nat ∧ (nf step c → finished c)
  | None => False
  end.
Proof.
  destruct contended as [c|] eqn:E; [|by vm_compute in E].
  destruct (ShouldProcess_terminates emptySeen [mkTopicSeq 1 5; mkTopicSeq 1 5] c 7) as [Hk Hf].
  - exact emptySeen_ok.
  - exact (run_sched_nsteps _ _ _ E).
  - split; [exact Hk|]. intros Hnf. apply (Hf Hnf).
Defined.
