(* ===== verification/Stream.v ===== *)
(** * Byte streams: [io.Reader], [io.Writer] and their helpers

    A receive stream is the bytes it will still yield and the error that ends
    it.  [ReadFull] and [ReadAll] are those of package [io].  A write either
    accepts the whole buffer or fails after accepting a prefix of it. *)

From S2P Require Import Prelude.

Inductive io_error :=
| EOF
| ErrUnexpectedEOF
| ErrStream (code : Z).

#[export] Instance io_error_eq_dec : EqDecision io_error.
Proof. solve_decision. Defined.

(** What is left to read, and how the stream ends. *)
Record reader := mkReader { rd_data : bytes; rd_end : io_error }.

Definition ReadFull (r : reader) (n : nat) : result io_error (bytes * reader) :=
  if decide (n ≤ length (rd_data r))%nat
  then Ok (take n (rd_data r), mkReader (drop n (rd_data r)) (rd_end r))
  else if decide (rd_data r ≠ [] ∧ rd_end r = EOF) then Err ErrUnexpectedEOF
  else Err (rd_end r).

Definition ReadAll (r : reader) : result io_error bytes :=
  if decide (rd_end r = EOF) then Ok (rd_data r) else Err (rd_end r).

Lemma ReadFull_app (p q : bytes) e n :
  length p = n → ReadFull (mkReader (p ++ q) e) n = Ok (p, mkReader q e).
Proof.
  intros <-. unfold ReadFull; simpl. rewrite decide_True by (rewrite length_app; lia).
  by rewrite take_app_length, drop_app_length.
Qed.

Lemma ReadFull_short r n : (length (rd_data r) < n)%nat → ∃ e, ReadFull r n = Err e.
Proof.
  intros Hlt. unfold ReadFull. rewrite decide_False by lia. case_decide; eauto.
Qed.

Lemma ReadFull_ok r n d r' :
  ReadFull r n = Ok (d, r') → rd_data r = d ++ rd_data r' ∧ length d = n ∧ rd_end r' = rd_end r.
Proof.
  unfold ReadFull. repeat case_decide; intros; simplify_eq; simpl.
  rewrite take_drop, length_take. split_and!; [done|lia|done].
Qed.

(** The outcome of one [Write] call: all accepted, or an error after [k] bytes. *)
Inductive write_outcome := WOk | WFail (k : nat).

Definition written (o : write_outcome) (buf : bytes) : bytes :=
  match o with WOk => buf | WFail k => take k buf end.

Definition write_ok (o : write_outcome) : bool :=
  match o with WOk => true | WFail _ => false end.
