(* ===== verification/EagerWire.v ===== *)
(** * Eager messages on the wire (src/engine/engine.go, src/engine/eager_stream.go)

    [encodeEagerMessage] and [decodeEagerMessage], the persistent per-peer
    stream writer for oversized messages, and the receive loop at its other end. *)

From S2P Require Import Prelude Stream.

(** ** Entries *)

Record GossipEntry := mkEntry { Topic : Z; Seq : Z; Payload : bytes }.

#[export] Instance GossipEntry_eq_dec : EqDecision GossipEntry.
Proof. solve_decision. Defined.

(** The field widths of the Go struct: [Topic uint16], [Seq uint64]. *)
Definition entry_ok (e : GossipEntry) : Prop := in_word 16 (Topic e) ∧ in_word 64 (Seq e).

Definition MsgTypeEagerGossip : byte := x02.

Definition StreamTypeEagerStream : byte := x12.

Definition maxDatagramPayload : nat := 1100.

(** ** Encoding: [1B type][2B topic BE][8B seq BE][payload...] *)

Definition encodeEagerMessage (entry : GossipEntry) : bytes :=
  [MsgTypeEagerGossip] ++ be_put 2 (Topic entry) ++ be_put 8 (Seq entry) ++ Payload entry.

(** The type byte is already stripped when a message is decoded. *)
Definition decodeEagerMessage (data : bytes) : result io_error GossipEntry :=
  if (length data <? 10)%nat then Err ErrUnexpectedEOF
  else Ok (mkEntry (be_get (take 2 data)) (be_get (take 8 (drop 2 data))) (drop 10 data)).

(** ** The persistent stream *)

(** One call of [send] meets these outcomes: opening the stream, writing the
    type prefix, the length header and the message. *)
Record send_outcome := mkOutcome {
  so_open : bool;
  so_prefix : write_outcome;
  so_hdr : write_outcome;
  so_body : write_outcome;
}.

Definition all_ok : send_outcome := mkOutcome true WOk WOk WOk.

(** [stream] holds what was written on the open stream; [closed] is the ghost
    record of the streams this writer has closed, oldest first. *)
Record eagerStreamWriter := mkWriter {
  stream : option bytes;
  closed : list bytes;
}.

Definition newWriter : eagerStreamWriter := mkWriter None [].

(** [w.stream.Close(); w.stream = nil] after [content] was written. *)
Definition close_with (w : eagerStreamWriter) (content : bytes) : eagerStreamWriter :=
  mkWriter None (closed w ++ [content]).

(** Opens the stream if there is none; the error branch leaves none open. *)
Definition ensure_stream (w : eagerStreamWriter) (o : send_outcome) : option bytes * eagerStreamWriter :=
  match stream w with
  | Some s => (Some s, w)
  | None =>
      if so_open o then
        let s := written (so_prefix o) [StreamTypeEagerStream] in
        if write_ok (so_prefix o) then (Some s, mkWriter (Some s) (closed w))
        else (None, close_with w s)
      else (None, w)
  end.

(** Returns whether the send succeeded. *)
Definition send (w : eagerStreamWriter) (msg : bytes) (o : send_outcome) : bool * eagerStreamWriter :=
  match ensure_stream w o with
  | (None, w1) => (false, w1)
  | (Some s, w1) =>
      let hdr := be_put 4 (u32 (Z.of_nat (length msg))) in
      let s1 := s ++ written (so_hdr o) hdr in
      if write_ok (so_hdr o) then
        let s2 := s1 ++ written (so_body o) msg in
        if write_ok (so_body o) then (true, mkWriter (Some s2) (closed w1))
        else (false, close_with w1 s2)
      else (false, close_with w1 s1)
  end.

Definition close (w : eagerStreamWriter) : eagerStreamWriter :=
  match stream w with
  | Some s => close_with w s
  | None => w
  end.

(** ** The receive loop *)

Definition maxFrame : Z := 16 * 1024 * 1024.

Definition strip_type (msg : bytes) : bytes :=
  match msg with
  | b :: rest => if decide (b = MsgTypeEagerGossip) then rest else msg
  | [] => msg
  end.

(** The messages handed to the handler, in order. Every iteration consumes a
    four-byte header, so [S (length data)] iterations are enough. *)
Fixpoint receive_loop (fuel : nat) (r : reader) : list bytes :=
  match fuel with
  | O => []
  | S fuel' =>
      match ReadFull r 4 with
      | Err _ => []
      | Ok (hdr, r1) =>
          let msgLen := be_get hdr in
          if maxFrame <? msgLen then []
          else match ReadFull r1 (Z.to_nat msgLen) with
               | Err _ => []
               | Ok (msg, r2) => strip_type msg :: receive_loop fuel' r2
               end
      end
  end.

Definition receiveEagerStream (r : reader) : list bytes :=
  receive_loop (S (length (rd_data r))) r.

(** The transport consumes the stream's type byte before it runs the handler
    registered for [StreamTypeEagerStream]. *)
Definition receive_stream (content : bytes) : list bytes :=
  match content with
  | b :: data => if decide (b = StreamTypeEagerStream) then receiveEagerStream (mkReader data EOF) else []
  | [] => []
  end.

(** ** Lemmas: decoding *)

Lemma decode_cases data :
  (length data < 10)%nat ∧ decodeEagerMessage data = Err ErrUnexpectedEOF ∨
  ∃ t q p, length t = 2%nat ∧ length q = 8%nat ∧ data = t ++ q ++ p ∧
    decodeEagerMessage data = Ok (mkEntry (be_get t) (be_get q) p).
Proof.
  unfold decodeEagerMessage. destruct (Nat.ltb_spec (length data) 10); [by left|right].
  exists (take 2 data), (take 8 (drop 2 data)), (drop 10 data).
  rewrite !length_take, length_drop. split_and!; [lia|lia| |done].
  rewrite <- (take_drop 2 data) at 1. f_equal.
  rewrite <- (take_drop 8 (drop 2 data)) at 1. f_equal. by rewrite drop_drop.
Qed.

Lemma decode_app t q p :
  length t = 2%nat → length q = 8%nat →
  decodeEagerMessage (t ++ q ++ p) = Ok (mkEntry (be_get t) (be_get q) p).
Proof.
  intros Ht Hq. unfold decodeEagerMessage.
  destruct (Nat.ltb_spec (length (t ++ q ++ p)) 10) as [Hlt|_].
  { rewrite !length_app in Hlt. lia. }
  rewrite take_app_length' by done. rewrite drop_app_length' by done.
  rewrite take_app_length' by done. rewrite app_assoc.
  rewrite drop_app_length' by (rewrite length_app; lia). done.
Qed.

(** ** Lemmas: frames *)

Definition frame (msg : bytes) : bytes := be_put 4 (u32 (Z.of_nat (length msg))) ++ msg.

#[global] Arguments frame : simpl never.

Lemma length_frame msg : length (frame msg) = (4 + length msg)%nat.
Proof. unfold frame. by rewrite length_app, length_be_put. Qed.

Definition frame_ok (msg : bytes) : Prop := Z.of_nat (length msg) ≤ maxFrame.

Lemma frame_header msg : frame_ok msg → be_get (be_put 4 (u32 (Z.of_nat (length msg)))) = Z.of_nat (length msg).
Proof.
  unfold frame_ok, maxFrame. intros H.
  rewrite (wrap_id 32) by (unfold in_word; change (2 ^ 32) with 4294967296; lia).
  apply be_get_put_id. unfold in_word. change (2 ^ _) with 4294967296. lia.
Qed.

Lemma receive_loop_frame fuel msg rest e :
  frame_ok msg →
  receive_loop (S fuel) (mkReader (frame msg ++ rest) e) =
    strip_type msg :: receive_loop fuel (mkReader rest e).
Proof.
  intros Hok. unfold frame. rewrite <- app_assoc. cbn [receive_loop].
  rewrite ReadFull_app by apply length_be_put. rewrite frame_header by done.
  rewrite (proj2 (Z.ltb_ge _ _)) by done. by rewrite ReadFull_app by lia.
Qed.

(** More fuel than bytes never changes the outcome. *)
Lemma receive_loop_fuel fuel1 fuel2 r :
  (length (rd_data r) < fuel1)%nat → (length (rd_data r) < fuel2)%nat →
  receive_loop fuel1 r = receive_loop fuel2 r.
Proof.
  revert fuel2 r. induction fuel1 as [|fuel1 IH]; intros [|fuel2] r H1 H2; try lia.
  cbn [receive_loop]. destruct (ReadFull r 4) as [[hdr r1]|] eqn:E1; [|done].
  destruct (_ <? _); [done|]. destruct (ReadFull r1 _) as [[msg r2]|] eqn:E2; [|done].
  apply ReadFull_ok in E1 as (E1 & ? & _). apply ReadFull_ok in E2 as (E2 & ? & _).
  apply (f_equal length) in E1, E2. rewrite length_app in E1, E2. f_equal. apply IH; lia.
Qed.

Lemma receive_frames msgs tail e :
  Forall frame_ok msgs →
  receiveEagerStream (mkReader (concat (frame <$> msgs) ++ tail) e) =
    (strip_type <$> msgs) ++ receiveEagerStream (mkReader tail e).
Proof.
  induction 1 as [|m msgs Hm Hms IH]; [done|].
  rewrite !fmap_cons. cbn [concat]. cbn [app] in *. rewrite <- IH.
  unfold receiveEagerStream at 1; cbn [rd_data].
  rewrite <- app_assoc, receive_loop_frame by done. f_equal.
  apply receive_loop_fuel; cbn [rd_data]; [|lia].
  rewrite !length_app, length_frame. lia.
Qed.

(** An interrupted frame yields its message or nothing. *)
Lemma receive_partial msg p e :
  frame_ok msg → p `prefix_of` frame msg →
  receiveEagerStream (mkReader p e) = [] ∨ receiveEagerStream (mkReader p e) = [strip_type msg].
Proof.
  intros Hok [q Hq].
  destruct (decide (q = [])) as [->|Hne].
  { rewrite app_nil_r in Hq. subst p. right.
    pose proof (receive_frames [msg] [] e ltac:(by constructor)) as Hr.
    cbn [fmap list_fmap concat] in Hr. rewrite !app_nil_r in Hr. exact Hr. }
  left. unfold receiveEagerStream; cbn [rd_data receive_loop].
  destruct (decide (length p < 4)%nat) as [Hs|Hs].
  { destruct (ReadFull_short (mkReader p e) 4 Hs) as [e' ->]. done. }
  assert (∃ rest, p = be_put 4 (u32 (Z.of_nat (length msg))) ++ rest) as [rest ->].
  { exists (drop 4 p). apply (f_equal (take 4)) in Hq. unfold frame in Hq.
    rewrite take_app_length', take_app_le in Hq by (rewrite ?length_be_put; lia).
    rewrite Hq. by rewrite take_drop. }
  unfold frame in Hq. rewrite <- app_assoc in Hq. apply app_inv_head in Hq.
  rewrite ReadFull_app by apply length_be_put. rewrite frame_header by done.
  rewrite (proj2 (Z.ltb_ge _ _)) by done. rewrite Nat2Z.id.
  destruct (ReadFull_short (mkReader rest e) (length msg)) as [e' ->]; [|done].
  rewrite Hq, length_app. destruct q; [done|simpl; lia].
Qed.

(** ** Lemmas: the writer *)

(** A history of sends: the messages, each with the outcomes it met. *)
Fixpoint run_sends (w : eagerStreamWriter) (h : list (bytes * send_outcome)) : list bool * eagerStreamWriter :=
  match h with
  | [] => ([], w)
  | (msg, o) :: h' =>
      let '(b, w1) := send w msg o in
      let '(bs, w2) := run_sends w1 h' in
      (b :: bs, w2)
  end.

(** The messages whose [send] returned no error. *)
Definition delivered_ok (bs : list bool) (h : list (bytes * send_outcome)) : list bytes :=
  omap (fun '(b, (msg, _)) => if (b : bool) then Some msg else None) (zip bs h).

Definition received (streams : list bytes) : list bytes := concat (receive_stream <$> streams).

(** The open stream holds its type byte and whole frames only. *)
Definition holds (w : eagerStreamWriter) (cur : list bytes) : Prop :=
  match stream w with
  | Some s => s = StreamTypeEagerStream :: concat (frame <$> cur)
  | None => cur = []
  end.

Lemma received_app l1 l2 : received (l1 ++ l2) = received l1 ++ received l2.
Proof. unfold received. by rewrite fmap_app, concat_app. Qed.

Lemma received_close_with w content :
  received (closed (close_with w content)) = received (closed w) ++ receive_stream content.
Proof. simpl. rewrite received_app. unfold received. simpl. by rewrite app_nil_r. Qed.

Lemma receive_holds cur p msg :
  Forall frame_ok cur → frame_ok msg → p `prefix_of` frame msg →
  receive_stream (StreamTypeEagerStream :: concat (frame <$> cur) ++ p) = strip_type <$> cur ∨
  receive_stream (StreamTypeEagerStream :: concat (frame <$> cur) ++ p) = strip_type <$> cur ++ [msg].
Proof.
  intros Hcur Hmsg Hp. cbn [receive_stream]. rewrite decide_True by done.
  rewrite receive_frames by done.
  destruct (receive_partial msg p EOF Hmsg Hp) as [-> | ->].
  - left. apply app_nil_r.
  - right. by rewrite fmap_app.
Qed.

Lemma receive_whole cur :
  Forall frame_ok cur →
  receive_stream (StreamTypeEagerStream :: concat (frame <$> cur)) = strip_type <$> cur.
Proof.
  intros Hcur. cbn [receive_stream]. rewrite decide_True by done.
  pose proof (receive_frames cur [] EOF Hcur) as Hr. rewrite !app_nil_r in Hr. exact Hr.
Qed.

Lemma receive_prefix_only o : receive_stream (written o [StreamTypeEagerStream]) = [].
Proof. destruct o as [|[|[|k]]]; reflexivity. Qed.

Lemma written_prefix o buf : written o buf `prefix_of` buf.
Proof. destruct o as [|k]; [done|]. exists (drop k buf). simpl. by rewrite take_drop. Qed.

Lemma ensure_stream_spec w o cur :
  holds w cur →
  match ensure_stream w o with
  | (Some s, w1) => s = StreamTypeEagerStream :: concat (frame <$> cur) ∧ closed w1 = closed w
  | (None, w1) => stream w1 = None ∧ cur = [] ∧ received (closed w1) = received (closed w)
  end.
Proof.
  unfold holds, ensure_stream. destruct (stream w) as [s|] eqn:Hs; [by intros ->|].
  intros ->. destruct (so_open o); [|done].
  destruct (so_prefix o) as [|k] eqn:Hp; [done|]. split_and!; [done|done|].
  rewrite received_close_with. cbn [written].
  change (take k [StreamTypeEagerStream]) with (written (WFail k) [StreamTypeEagerStream]).
  by rewrite receive_prefix_only, app_nil_r.
Qed.

(** One send: the frame is appended to the open stream, or the stream is
    closed and its reader gets the earlier messages and perhaps this one. *)
Lemma send_spec w msg o cur :
  holds w cur → Forall frame_ok cur → frame_ok msg →
  match send w msg o with
  | (true, w1) => holds w1 (cur ++ [msg]) ∧ received (closed w1) = received (closed w)
  | (false, w1) => holds w1 [] ∧
      (received (closed w1) = received (closed w) ++ (strip_type <$> cur) ∨
       received (closed w1) = received (closed w) ++ (strip_type <$> cur ++ [msg]))
  end.
Proof.
  intros Hh Hcur Hmsg. unfold send. pose proof (ensure_stream_spec w o cur Hh) as He.
  destruct (ensure_stream w o) as [[s|] w1].
  2: { destruct He as (Hs & -> & Hr). unfold holds. rewrite Hs. split; [done|left].
       by rewrite app_nil_r. }
  destruct He as [-> Hcl]. set (hdr := be_put 4 _).
  assert (∀ p, p `prefix_of` frame msg →
    received (closed (close_with w1 (StreamTypeEagerStream :: concat (frame <$> cur) ++ p))) =
      received (closed w) ++ (strip_type <$> cur) ∨
    received (closed (close_with w1 (StreamTypeEagerStream :: concat (frame <$> cur) ++ p))) =
      received (closed w) ++ (strip_type <$> cur ++ [msg])) as Hpart.
  { intros p Hp. rewrite received_close_with, Hcl.
    destruct (receive_holds cur p msg Hcur Hmsg Hp) as [-> | ->]; auto. }
  destruct (so_hdr o) as [|k]; cbn [write_ok written].
  - destruct (so_body o) as [|k]; cbn [write_ok written].
    + split; [|simpl; by rewrite Hcl]. unfold holds. cbn [stream]. rewrite fmap_app, concat_app.
      cbn [fmap list_fmap concat app]. rewrite app_nil_r, <- app_assoc. done.
    + split; [done|]. rewrite <- !app_comm_cons, <- app_assoc. apply Hpart.
      unfold frame. apply prefix_app, (written_prefix (WFail k)).
  - split; [done|]. rewrite <- !app_comm_cons. apply Hpart.
    etrans; [apply (written_prefix (WFail k))|by exists msg].
Qed.

(** Between what was sent and what was attempted, in order. *)
Lemma run_sends_spec h w cur :
  holds w cur → Forall frame_ok cur → Forall (frame_ok ∘ fst) h →
  ∃ mid, received (closed (close (run_sends w h).2)) = received (closed w) ++ (strip_type <$> cur ++ mid) ∧
    delivered_ok (run_sends w h).1 h `sublist_of` mid ∧ mid `sublist_of` h.*1.
Proof.
  revert w cur. induction h as [|[msg o] h IH]; intros w cur Hh Hcur Hall.
  - exists []. split; [|done]. rewrite app_nil_r. simpl. unfold close, holds in *.
    destruct (stream w) as [s|]; subst; [|by rewrite app_nil_r].
    rewrite received_close_with. f_equal.
    by apply receive_whole.
  - apply Forall_cons in Hall as [Hmsg Hall]. simpl in Hmsg.
    pose proof (send_spec w msg o cur Hh Hcur Hmsg) as Hs.
    cbn [run_sends]. destruct (send w msg o) as [b w1]. destruct b.
    + destruct Hs as [Hh1 Hr1].
      destruct (IH w1 (cur ++ [msg]) Hh1 ltac:(by apply Forall_app_2; [|constructor]) Hall)
        as (mid & Hr & Hs1 & Hs2).
      destruct (run_sends w1 h) as [bs w2]. simpl in *. exists (msg :: mid).
      rewrite Hr, Hr1, <- app_assoc. split_and!; [done|by apply sublist_skip|by apply sublist_skip].
    + destruct Hs as [Hh1 Hr1].
      destruct (IH w1 [] Hh1 ltac:(constructor) Hall) as (mid & Hr & Hs1 & Hs2).
      destruct (run_sends w1 h) as [bs w2]. simpl in *. rewrite Hr.
      destruct Hr1 as [-> | ->].
      * exists mid. rewrite fmap_app, app_assoc. split_and!; [done|done|by apply sublist_cons].
      * exists (msg :: mid). split_and!; [|by apply sublist_cons|by apply sublist_skip].
        rewrite !fmap_app, <- !app_assoc. done.
Qed.

Lemma decode_encode e : entry_ok e → decodeEagerMessage (strip_type (encodeEagerMessage e)) = Ok e.
Proof.
  intros [Ht Hq]. unfold encodeEagerMessage. cbn [app strip_type].
  rewrite decide_True by done. rewrite decode_app by apply length_be_put.
  rewrite !be_get_put_id by done. by destruct e.
Qed.

(** ** Theorems *)

(** Eager messages round-trip in both directions: decoding what was encoded
    (type byte stripped) gives the entry back, decoding fails exactly on fewer
    than ten bytes, and re-encoding a decoded message restores its bytes. *)
Theorem eager_message_roundtrip :
  (∀ e, entry_ok e → decodeEagerMessage (strip_type (encodeEagerMessage e)) = Ok e) ∧
  (∀ data, decodeEagerMessage data = Err ErrUnexpectedEOF ↔ (length data < 10)%nat) ∧
  (∀ data e, decodeEagerMessage data = Ok e →
     entry_ok e ∧ encodeEagerMessage e = MsgTypeEagerGossip :: data).
Proof.
  split_and!; [apply decode_encode| |].
  - intros data. destruct (decode_cases data) as [[Hlt ->]|(t & q & p & Ht & Hq & -> & ->)]; [done|].
    rewrite !length_app. split; [done|lia].
  - intros data e. destruct (decode_cases data) as [[_ ->]|(t & q & p & Ht & Hq & -> & ->)]; [done|].
    intros [= <-]. pose proof (be_get_bound t) as Bt. pose proof (be_get_bound q) as Bq.
    rewrite Ht in Bt. rewrite Hq in Bq. split; [done|].
    unfold encodeEagerMessage. cbn [Topic Seq Payload]. pose proof (be_put_get t) as Pt. pose proof (be_put_get q) as Pq.
    rewrite Ht in Pt. rewrite Hq in Pq. by rewrite Pt, Pq.
Qed.


