(* ===== verification/Batch.v ===== *)
(** * Lazy batches (src/engine/batch.go)

    The per-peer accumulator [LazyBuffer] and the wire format of [LazyBatch]:
    counts, entries and high-water marks in big-endian, compressed with zstd
    and framed with a length.  The zstd codec is a third-party package: its two
    functions are the class [Zstd], and [ZstdSpec] states the documented fact
    that decompressing a compressed buffer restores it. *)

From S2P Require Import Prelude Seen Stream EagerWire.

(** ** Data *)

Record LazyBatch := mkBatch {
  Entries : list GossipEntry;
  SenderHighWaterMarks : list TopicSeq;
}.

Inductive batch_error :=
| ErrZstd
| ErrBatchTooShort
| ErrTruncatedEntry (i : nat)
| ErrTruncatedPayload (i : nat)
| ErrTruncatedHWMHeader
| ErrTruncatedHWM (i : nat)
| ErrTooLarge (size : Z)
| ErrIO (e : io_error).

Class Zstd := {
  EncodeAll : bytes → bytes;
  DecodeAll : bytes → option bytes;
}.

Class ZstdSpec (Z : Zstd) : Prop :=
  DecodeAll_EncodeAll : ∀ b, DecodeAll (EncodeAll b) = Some b.

(** ** [LazyBuffer] *)

Record LazyBuffer := mkBuffer {
  lb_entries : list GossipEntry;
  peerSeqs : gmap Z Z;
}.

Definition NewLazyBuffer : LazyBuffer := mkBuffer [] ∅.

(** [b.peerSeqs[topic]]: a missing key reads as zero. *)
Definition peerSeq (b : LazyBuffer) (topic : Z) : Z := default 0 (peerSeqs b !! topic).

Definition Add (b : LazyBuffer) (entry : GossipEntry) : LazyBuffer :=
  if peerSeq b (Topic entry) <? Seq entry
  then mkBuffer (lb_entries b ++ [entry]) (peerSeqs b)
  else b.

Definition Flush (b : LazyBuffer) : list GossipEntry * LazyBuffer :=
  (lb_entries b, mkBuffer [] (peerSeqs b)).

Definition Len (b : LazyBuffer) : nat := length (lb_entries b).

Definition updatePeerSeq (b : LazyBuffer) (m : TopicSeq) : LazyBuffer :=
  if peerSeq b (ts_topic m) <? ts_seq m
  then mkBuffer (lb_entries b) (<[ts_topic m := ts_seq m]> (peerSeqs b))
  else b.

Definition UpdatePeerSeqs (b : LazyBuffer) (marks : list TopicSeq) : LazyBuffer :=
  foldl updatePeerSeq b marks.

(** ** Encoding *)

Definition put_entry (e : GossipEntry) : bytes :=
  be_put 2 (Topic e) ++ be_put 8 (Seq e) ++
  be_put 4 (u32 (Z.of_nat (length (Payload e)))) ++ Payload e.

Definition put_mark (m : TopicSeq) : bytes := be_put 2 (ts_topic m) ++ be_put 8 (ts_seq m).

(** The buffer handed to the compressor; the counts are converted to [uint16]. *)
Definition serialize (batch : LazyBatch) : bytes :=
  be_put 2 (u16 (Z.of_nat (length (Entries batch)))) ++
  concat (put_entry <$> Entries batch) ++
  be_put 2 (u16 (Z.of_nat (length (SenderHighWaterMarks batch)))) ++
  concat (put_mark <$> SenderHighWaterMarks batch).

(** ** Decoding *)

(** [data[off:off+n]]. *)
Definition slice (data : bytes) (off n : nat) : bytes := take n (drop off data).

Fixpoint get_entries (data : bytes) (off i n : nat) : result batch_error (list GossipEntry * nat) :=
  match n with
  | O => Ok ([], off)
  | S n' =>
      if (length data <? off + 14)%nat then Err (ErrTruncatedEntry i)
      else
        let topic := be_get (slice data off 2) in
        let seq := be_get (slice data (off + 2) 8) in
        let plen := Z.to_nat (be_get (slice data (off + 10) 4)) in
        let off1 := (off + 14)%nat in
        if (length data <? off1 + plen)%nat then Err (ErrTruncatedPayload i)
        else
          let payload := slice data off1 plen in
          '(es, off') ← get_entries data (off1 + plen) (S i) n';
          Ok (mkEntry topic seq payload :: es, off')
  end.

Fixpoint get_marks (data : bytes) (off i n : nat) : result batch_error (list TopicSeq) :=
  match n with
  | O => Ok []
  | S n' =>
      if (length data <? off + 10)%nat then Err (ErrTruncatedHWM i)
      else
        ms ← get_marks data (off + 10) (S i) n';
        Ok (mkTopicSeq (be_get (slice data off 2)) (be_get (slice data (off + 2) 8)) :: ms)
  end.

Definition deserialize (data : bytes) : result batch_error LazyBatch :=
  if (length data <? 2)%nat then Err ErrBatchTooShort
  else
    let entryCount := Z.to_nat (be_get (slice data 0 2)) in
    '(es, off) ← get_entries data 2 0 entryCount;
    if (length data <? off + 2)%nat then Err ErrTruncatedHWMHeader
    else
      let hwmCount := Z.to_nat (be_get (slice data off 2)) in
      ms ← get_marks data (off + 2) 0 hwmCount;
      Ok (mkBatch es ms).

Section Codec.
Context `{Zstd}.

Definition EncodeLazyBatch (batch : LazyBatch) : bytes := EncodeAll (serialize batch).

Definition DecodeLazyBatch (compressed : bytes) : result batch_error LazyBatch :=
  match DecodeAll compressed with
  | None => Err ErrZstd
  | Some data => deserialize data
  end.

(** The bytes [WriteLazyBatch] puts on a stream that accepts them. *)
Definition WriteLazyBatch (batch : LazyBatch) : bytes :=
  let compressed := EncodeLazyBatch batch in
  be_put 4 (u32 (Z.of_nat (length compressed))) ++ compressed.

Definition ReadLazyBatch (r : reader) : result batch_error (LazyBatch * reader) :=
  match ReadFull r 4 with
  | Err e => Err (ErrIO e)
  | Ok (lenBuf, r1) =>
      let size := be_get lenBuf in
      if 16 * 1024 * 1024 <? size then Err (ErrTooLarge size)
      else match ReadFull r1 (Z.to_nat size) with
           | Err e => Err (ErrIO e)
           | Ok (compressed, r2) =>
               batch ← DecodeLazyBatch compressed;
               Ok (batch, r2)
           end
  end.

End Codec.

(** ** Lemmas: slices *)

Lemma slice_app (a b c : bytes) off n :
  length a = off → length b = n → slice (a ++ b ++ c) off n = b.
Proof. intros <- <-. unfold slice. by rewrite drop_app_length, take_app_length. Qed.

(** Splitting the unread part of [data] after a length guard has passed. *)
Lemma slice_split (data : bytes) off n :
  (off + n ≤ length data)%nat →
  drop off data = slice data off n ++ drop (off + n) data ∧ length (slice data off n) = n.
Proof.
  intros Hle. unfold slice. rewrite length_take, length_drop. split; [|lia].
  rewrite <- (take_drop n (drop off data)) at 1. by rewrite drop_drop.
Qed.

(** ** Lemmas: well-formed batches *)

Definition mark_ok (m : TopicSeq) : Prop := in_word 16 (ts_topic m) ∧ in_word 64 (ts_seq m).

(** Field widths, and payload lengths that fit the 32-bit length field. *)
Definition wire_entry_ok (e : GossipEntry) : Prop :=
  entry_ok e ∧ in_word 32 (Z.of_nat (length (Payload e))).

Lemma length_put_mark m : length (put_mark m) = 10%nat.
Proof. unfold put_mark. by rewrite length_app, !length_be_put. Qed.

Lemma length_put_entry e : length (put_entry e) = (14 + length (Payload e))%nat.
Proof. unfold put_entry. rewrite !length_app, !length_be_put. lia. Qed.

Lemma get_entries_put es pre post i :
  Forall wire_entry_ok es →
  get_entries (pre ++ concat (put_entry <$> es) ++ post) (length pre) i (length es) =
    Ok (es, (length pre + length (concat (put_entry <$> es)))%nat).
Proof.
  intros Hes. revert pre i. induction Hes as [|e es [[Ht Hq] Hp] Hes IH]; intros pre i.
  { cbn. by rewrite Nat.add_0_r. }
  rewrite fmap_cons. cbn [concat length get_entries]. rewrite <- app_assoc.
  destruct (Nat.ltb_spec (length (pre ++ put_entry e ++ concat (put_entry <$> es) ++ post)) (length pre + 14)) as [Hlt|_].
  { rewrite !length_app, length_put_entry in Hlt. lia. }
  set (rest := concat (put_entry <$> es) ++ post).
  assert (slice (pre ++ put_entry e ++ rest) (length pre) 2 = be_put 2 (Topic e)) as ->.
  { unfold put_entry. rewrite <- !app_assoc. by apply slice_app; [|apply length_be_put]. }
  assert (slice (pre ++ put_entry e ++ rest) (length pre + 2) 8 = be_put 8 (Seq e)) as ->.
  { unfold put_entry. rewrite <- !app_assoc, (app_assoc pre).
    apply slice_app; rewrite ?length_app, ?length_be_put; lia. }
  assert (slice (pre ++ put_entry e ++ rest) (length pre + 10) 4 =
          be_put 4 (u32 (Z.of_nat (length (Payload e))))) as ->.
  { unfold put_entry. rewrite <- !app_assoc, (app_assoc pre), (app_assoc (pre ++ _)).
    apply slice_app; rewrite ?length_app, ?length_be_put; lia. }
  rewrite (wrap_id 32), !be_get_put_id, Nat2Z.id by done.
  destruct (Nat.ltb_spec (length (pre ++ put_entry e ++ rest)) (length pre + 14 + length (Payload e))) as [Hlt|_].
  { rewrite !length_app, length_put_entry in Hlt. lia. }
  assert (slice (pre ++ put_entry e ++ rest) (length pre + 14) (length (Payload e)) = Payload e) as ->.
  { unfold put_entry. rewrite <- !app_assoc, (app_assoc pre), (app_assoc (pre ++ _)), (app_assoc ((pre ++ _) ++ _)).
    apply slice_app; rewrite ?length_app, ?length_be_put; lia. }
  specialize (IH (pre ++ put_entry e) (S i)).
  rewrite length_app, length_put_entry, <- app_assoc in IH. fold rest in IH.
  replace (length pre + 14 + length (Payload e))%nat with (length pre + (14 + length (Payload e)))%nat by lia.
  rewrite IH. cbn. rewrite length_app, length_put_entry. destruct e. f_equal. f_equal. lia.
Qed.

Lemma get_marks_put ms pre post i :
  Forall mark_ok ms →
  get_marks (pre ++ concat (put_mark <$> ms) ++ post) (length pre) i (length ms) = Ok ms.
Proof.
  intros Hms. revert pre i. induction Hms as [|m ms [Ht Hq] Hms IH]; intros pre i; [done|].
  rewrite fmap_cons. cbn [concat length get_marks]. rewrite <- app_assoc.
  destruct (Nat.ltb_spec (length (pre ++ put_mark m ++ concat (put_mark <$> ms) ++ post)) (length pre + 10)) as [Hlt|_].
  { rewrite !length_app, length_put_mark in Hlt. lia. }
  specialize (IH (pre ++ put_mark m) (S i)).
  rewrite length_app, length_put_mark, <- app_assoc in IH. rewrite IH. cbn.
  assert (slice (pre ++ put_mark m ++ concat (put_mark <$> ms) ++ post) (length pre) 2 = be_put 2 (ts_topic m)) as ->.
  { unfold put_mark at 1. rewrite <- !app_assoc. by apply slice_app; [|apply length_be_put]. }
  assert (slice (pre ++ put_mark m ++ concat (put_mark <$> ms) ++ post) (length pre + 2) 8 = be_put 8 (ts_seq m)) as ->.
  { unfold put_mark at 1. rewrite <- !app_assoc, (app_assoc pre).
    apply slice_app; rewrite ?length_app, ?length_be_put; lia. }
  rewrite !be_get_put_id by done. by destruct m.
Qed.

(** A count as its [uint16] conversion reads back. *)
Definition count16 (n : nat) : nat := Z.to_nat (u16 (Z.of_nat n)).

Lemma be_get_count n : Z.to_nat (be_get (be_put 2 (u16 (Z.of_nat n)))) = count16 n.
Proof. unfold count16. by rewrite be_get_put_id by (apply wrap_in_word; lia). Qed.

Lemma count16_le n : (count16 n ≤ n)%nat.
Proof. unfold count16, wrap. pose proof (Z.mod_le (Z.of_nat n) (2 ^ 16)). lia. Qed.

Lemma count16_id n : in_word 16 (Z.of_nat n) → count16 n = n.
Proof. intros H. unfold count16. rewrite wrap_id by done. lia. Qed.

Lemma deserialize_serialize es ms :
  Forall wire_entry_ok es → Forall mark_ok ms → in_word 16 (Z.of_nat (length es)) →
  deserialize (serialize (mkBatch es ms)) = Ok (mkBatch es (take (count16 (length ms)) ms)).
Proof.
  intros Hes Hms Hlen. unfold deserialize, serialize. cbn [Entries SenderHighWaterMarks].
  set (h1 := be_put 2 (u16 (Z.of_nat (length es)))). set (h2 := be_put 2 (u16 (Z.of_nat (length ms)))).
  assert (length h1 = 2%nat ∧ length h2 = 2%nat) as [Hh1 Hh2] by (split; apply length_be_put).
  set (body := concat (put_entry <$> es)). set (n := count16 (length ms)).
  destruct (Nat.ltb_spec (length (h1 ++ body ++ h2 ++ concat (put_mark <$> ms))) 2) as [Hlt|_].
  { rewrite length_app in Hlt. lia. }
  assert (slice (h1 ++ body ++ h2 ++ concat (put_mark <$> ms)) 0 2 = h1) as ->.
  { by apply (slice_app []). }
  assert (Z.to_nat (be_get h1) = length es) as ->.
  { unfold h1. by rewrite be_get_count, count16_id. }
  pose proof (get_entries_put es h1 (h2 ++ concat (put_mark <$> ms)) 0 Hes) as Hge.
  rewrite Hh1 in Hge. fold body in Hge. rewrite Hge. cbn [mbind result_bind].
  destruct (Nat.ltb_spec (length (h1 ++ body ++ h2 ++ concat (put_mark <$> ms))) (2 + length body + 2)) as [Hlt|_].
  { rewrite !length_app in Hlt. lia. }
  assert (slice (h1 ++ body ++ h2 ++ concat (put_mark <$> ms)) (2 + length body) 2 = h2) as ->.
  { rewrite app_assoc. apply slice_app; [rewrite length_app; lia|done]. }
  assert (Z.to_nat (be_get h2) = n) as -> by apply be_get_count.
  assert ((length (take n ms)) = n) as Hn.
  { rewrite length_take. apply Nat.min_l, count16_le. }
  pose proof (get_marks_put (take n ms) (h1 ++ body ++ h2) (concat (put_mark <$> drop n ms)) 0
                (Forall_take _ _ _ Hms)) as Hgm.
  rewrite <- concat_app, <- fmap_app, take_drop, Hn, !length_app, Hh1, Hh2, <- !app_assoc in Hgm.
  replace (2 + length body + 2)%nat with (2 + (length body + 2))%nat by lia.
  rewrite Hgm. done.
Qed.

(** ** Lemmas: what a successful decode says about its input *)

Lemma slice_word data off n :
  (off + n ≤ length data)%nat → in_word (8 * Z.of_nat n) (be_get (slice data off n)).
Proof.
  intros Hle. destruct (slice_split data off n Hle) as [_ Hlen].
  pose proof (be_get_bound (slice data off n)) as Hb. by rewrite Hlen in Hb.
Qed.

Lemma be_put_slice data off n :
  (off + n ≤ length data)%nat → be_put n (be_get (slice data off n)) = slice data off n.
Proof.
  intros Hle. destruct (slice_split data off n Hle) as [_ Hlen].
  rewrite <- Hlen at 1. apply be_put_get.
Qed.

Lemma get_entries_inv data off i n es off' :
  get_entries data off i n = Ok (es, off') →
  Forall wire_entry_ok es ∧ length es = n ∧
  drop off data = concat (put_entry <$> es) ++ drop off' data.
Proof.
  revert off i es. induction n as [|n IH]; intros off i es; cbn [get_entries].
  { intros [= <- <-]. done. }
  destruct (Nat.ltb_spec (length data) (off + 14)) as [|H14]; [done|].
  set (plen := Z.to_nat _). destruct (Nat.ltb_spec (length data) (off + 14 + plen)) as [|Hp]; [done|].
  intros ([es' o] & Hge & [= <- <-])%bind_ok. apply IH in Hge as (Hok & Hlen & Hd).
  destruct (slice_split data off 2) as [D1 L1]; [lia|].
  destruct (slice_split data (off + 2) 8) as [D2 L2]; [lia|].
  destruct (slice_split data (off + 10) 4) as [D3 L3]; [lia|].
  destruct (slice_split data (off + 14) plen) as [D4 L4]; [lia|].
  pose proof (slice_word data off 2 ltac:(lia)) as W1.
  pose proof (slice_word data (off + 2) 8 ltac:(lia)) as W2.
  pose proof (slice_word data (off + 10) 4 ltac:(lia)) as W3.
  assert (Z.of_nat plen = be_get (slice data (off + 10) 4)) as Hpl by (unfold plen; word_lia).
  split_and!.
  - constructor; [|done]. split; [done|]. cbn [Payload]. rewrite L4, Hpl. exact W3.
  - simpl. congruence.
  - rewrite fmap_cons. cbn [concat]. unfold put_entry at 1. cbn [Topic Seq Payload].
    rewrite L4, Hpl, (wrap_id 32) by exact W3. rewrite !be_put_slice by lia.
    rewrite <- !app_assoc, <- Hd, <- D4.
    replace (off + 14)%nat with (off + 10 + 4)%nat by lia. rewrite <- D3.
    replace (off + 10)%nat with (off + 2 + 8)%nat by lia. by rewrite <- D2.
Qed.

Lemma get_marks_inv data off i n ms :
  get_marks data off i n = Ok ms →
  Forall mark_ok ms ∧ length ms = n ∧ concat (put_mark <$> ms) `prefix_of` drop off data.
Proof.
  revert off i ms. induction n as [|n IH]; intros off i ms; cbn [get_marks].
  { intros [= <-]. split_and!; [done..|]. by eexists. }
  destruct (Nat.ltb_spec (length data) (off + 10)) as [|H10]; [done|].
  intros (ms' & (Hok & Hlen & Hpre)%IH & [= <-])%bind_ok.
  destruct (slice_split data off 2) as [D1 L1]; [lia|].
  destruct (slice_split data (off + 2) 8) as [D2 L2]; [lia|].
  split_and!; [|simpl; congruence|].
  - constructor; [|done]. split; [apply (slice_word data off 2)|apply (slice_word data (off + 2) 8)]; lia.
  - rewrite fmap_cons. cbn [concat]. unfold put_mark at 1. cbn [ts_topic ts_seq].
    rewrite !be_put_slice, <- app_assoc, D1, D2 by lia.
    do 2 apply prefix_app. by replace (off + 2 + 8)%nat with (off + 10)%nat by lia.
Qed.

Lemma count_put (n : nat) l :
  length l = 2%nat → n = Z.to_nat (be_get l) → be_put 2 (u16 (Z.of_nat n)) = l.
Proof.
  intros Hl ->. pose proof (be_get_bound l) as Hb. rewrite Hl in Hb.
  rewrite Z2Nat.id, (wrap_id 16) by (unfold in_word; lia). rewrite <- Hl. apply be_put_get.
Qed.

(** ** Lemmas: the accumulator *)

Lemma peerSeq_update b m t :
  peerSeq (updatePeerSeq b m) t =
    if decide (ts_topic m = t) then Z.max (peerSeq b t) (ts_seq m) else peerSeq b t.
Proof.
  unfold updatePeerSeq, peerSeq. destruct (Z.ltb_spec (default 0 (peerSeqs b !! ts_topic m)) (ts_seq m)) as [Hlt|Hge];
    simpl; [rewrite lookup_insert|]; repeat case_decide; subst; simpl; lia.
Qed.

Lemma UpdatePeerSeqs_spec b marks :
  lb_entries (UpdatePeerSeqs b marks) = lb_entries b ∧
  ∀ t, peerSeq (UpdatePeerSeqs b marks) t = high t (peerSeq b t) marks.
Proof.
  revert b. induction marks as [|m marks IH]; intros b; [done|].
  destruct (IH (updatePeerSeq b m)) as [He Hp]. split.
  - etrans; [exact He|]. unfold updatePeerSeq. by case_match.
  - intros t. etrans; [apply Hp|]. cbn [high foldl]. f_equal. rewrite peerSeq_update.
    repeat case_decide; done.
Qed.

(** The operations the engine performs on a peer's buffer. *)
Inductive buffer_op := OpAdd (e : GossipEntry) | OpUpdate (marks : list TopicSeq) | OpFlush.

(** Flushed batches, oldest first, and the buffer left. *)
Fixpoint run_buffer (b : LazyBuffer) (ops : list buffer_op) : list (list GossipEntry) * LazyBuffer :=
  match ops with
  | [] => ([], b)
  | OpAdd e :: ops' => run_buffer (Add b e) ops'
  | OpUpdate marks :: ops' => run_buffer (UpdatePeerSeqs b marks) ops'
  | OpFlush :: ops' =>
      let '(es, b1) := Flush b in
      let '(out, b2) := run_buffer b1 ops' in
      (es :: out, b2)
  end.

(** Specification: the added entries the peer is not known to have, where
    [marks] are the marks the peer has reported so far. *)
Fixpoint wanted (marks : list TopicSeq) (ops : list buffer_op) : list GossipEntry :=
  match ops with
  | [] => []
  | OpAdd e :: ops' =>
      if bool_decide (high (Topic e) 0 marks < Seq e) then e :: wanted marks ops' else wanted marks ops'
  | OpUpdate ms :: ops' => wanted (marks ++ ms) ops'
  | OpFlush :: ops' => wanted marks ops'
  end.

Lemma run_buffer_wanted ops b marks :
  (∀ t, peerSeq b t = high t 0 marks) →
  let '(out, b') := run_buffer b ops in
  concat out ++ lb_entries b' = lb_entries b ++ wanted marks ops.
Proof.
  revert b marks. induction ops as [|[e|ms|] ops IH]; intros b marks Hb; cbn [run_buffer wanted].
  - by rewrite app_nil_r.
  - unfold Add. rewrite Hb.
    destruct (Z.ltb_spec (high (Topic e) 0 marks) (Seq e)) as [Hlt|Hge].
    + rewrite bool_decide_eq_true_2 by lia.
      specialize (IH (mkBuffer (lb_entries b ++ [e]) (peerSeqs b)) marks Hb).
      destruct (run_buffer _ ops). rewrite IH; simpl. by rewrite <- app_assoc.
    + rewrite bool_decide_eq_false_2 by lia. by apply IH.
  - destruct (UpdatePeerSeqs_spec b ms) as [He Hp].
    specialize (IH (UpdatePeerSeqs b ms) (marks ++ ms)). destruct (run_buffer _ ops). rewrite IH, He; [done|].
    intros t. by rewrite Hp, high_app, Hb.
  - cbn [Flush]. specialize (IH (mkBuffer [] (peerSeqs b)) marks Hb).
    destruct (run_buffer _ ops). cbn [concat]. rewrite <- app_assoc, IH. done.
Qed.

(** ** Theorems *)

Section CodecTheorems.
Context `{HZ : Zstd} `{HS : !ZstdSpec HZ}.

(** Reading back a framed batch. *)
Lemma ReadLazyBatch_framed (es : list GossipEntry) (ms : list TopicSeq) (rest : bytes) (e : io_error) :
  Forall wire_entry_ok es → Forall mark_ok ms → in_word 16 (Z.of_nat (length es)) → in_word 16 (Z.of_nat (length ms)) →
  in_word 32 (Z.of_nat (length (EncodeLazyBatch (mkBatch es ms)))) →
  ReadLazyBatch (mkReader (WriteLazyBatch (mkBatch es ms) ++ rest) e) =
    if decide (Z.of_nat (length (EncodeLazyBatch (mkBatch es ms))) ≤ 16 * 1024 * 1024)
    then Ok (mkBatch es ms, mkReader rest e)
    else Err (ErrTooLarge (Z.of_nat (length (EncodeLazyBatch (mkBatch es ms))))).
Proof.
  intros Hes Hms Hle Hlm Hw. unfold ReadLazyBatch, WriteLazyBatch.
  set (c := EncodeLazyBatch (mkBatch es ms)) in *.
  rewrite <- app_assoc, ReadFull_app by apply length_be_put.
  rewrite (wrap_id 32), be_get_put_id by done.
  case_decide as Hlim.
  - rewrite (proj2 (Z.ltb_ge _ _)) by done. rewrite ReadFull_app by lia.
    unfold c, DecodeLazyBatch, EncodeLazyBatch. rewrite DecodeAll_EncodeAll.
    rewrite deserialize_serialize, count16_id by done. by rewrite firstn_all.
  - by rewrite (proj2 (Z.ltb_lt _ _)) by lia.
Qed.

(** Decoding an encoded batch of at most 65535 well-formed entries gives the
    same entries back, and the marks up to their count modulo 65536: the wire
    format carries at most 65535 marks, fewer than the 65536 topics there are. *)
Theorem lazy_batch_roundtrip (es : list GossipEntry) (ms : list TopicSeq) :
  Forall wire_entry_ok es → Forall mark_ok ms → in_word 16 (Z.of_nat (length es)) →
  DecodeLazyBatch (EncodeLazyBatch (mkBatch es ms)) =
    Ok (mkBatch es (take (count16 (length ms)) ms)).
Proof.
  intros Hes Hms Hlen. unfold DecodeLazyBatch, EncodeLazyBatch.
  rewrite DecodeAll_EncodeAll. by apply deserialize_serialize.
Qed.


End CodecTheorems.

(** Identity compression, a codec that satisfies [ZstdSpec]. *)
Definition stored_zstd : Zstd := {| EncodeAll := id; DecodeAll := Some |}.

#[export] Instance stored_zstd_spec : ZstdSpec stored_zstd.
Proof. done. Qed.

Definition sample_batch : LazyBatch :=
  mkBatch [mkEntry 1 7 [x61; x62]; mkEntry 65535 9 []] [mkTopicSeq 1 7].

Lemma lazy_batch_roundtrip_witness :
  DecodeLazyBatch (H := stored_zstd) (EncodeLazyBatch (H := stored_zstd) sample_batch) = Ok sample_batch.
Proof.
  etrans; [apply (lazy_batch_roundtrip (HZ := stored_zstd) (Entries sample_batch) (SenderHighWaterMarks sample_batch))|reflexivity].
  - repeat constructor; by vm_compute.
  - repeat constructor; by vm_compute.
  - by vm_compute.
Defined.


(** Decoding is faithful to its input. Whatever bytes the decompressor
    yields, a batch that decodes is well formed and its own encoding is a prefix
    of those bytes: no entry or mark is invented, and only trailing bytes are ignored. *)
Theorem deserialize_sound (data : bytes) (b : LazyBatch) :
  deserialize data = Ok b →
  Forall wire_entry_ok (Entries b) ∧ Forall mark_ok (SenderHighWaterMarks b) ∧
  serialize b `prefix_of` data.
Proof.
  unfold deserialize. destruct (Nat.ltb_spec (length data) 2) as [|H2]; [done|].
  intros ([es off] & (Hes & Hles & Hde)%get_entries_inv & Hrest)%bind_ok. revert Hrest.
  destruct (Nat.ltb_spec (length data) (off + 2)) as [|Ho]; [done|].
  intros (ms & (Hms & Hlms & Hpre)%get_marks_inv & [= <-])%bind_ok.
  cbn [Entries SenderHighWaterMarks]. split_and!; [done..|].
  destruct (slice_split data 0 2) as [D1 L1]; [lia|].
  destruct (slice_split data off 2) as [D2 L2]; [lia|].
  unfold serialize. cbn [Entries SenderHighWaterMarks].
  rewrite (count_put _ _ L1 Hles), (count_put _ _ L2 Hlms).
  trans (slice data 0 2 ++ drop (0 + 2) data); [|rewrite <- D1; done].
  apply prefix_app. cbn [Nat.add]. rewrite Hde. apply prefix_app.
  rewrite D2. by apply prefix_app.
Qed.

Lemma deserialize_sound_witness :
  Forall wire_entry_ok (Entries sample_batch) ∧ Forall mark_ok (SenderHighWaterMarks sample_batch) ∧
  serialize sample_batch `prefix_of` serialize sample_batch ++ [x00; x01].
Proof.
  apply deserialize_sound. vm_compute. reflexivity.
Defined.

(** C40: Over any sequence of operations on a new buffer, the flushed batches in
    order, followed by what is still buffered, are exactly the added entries whose
    sequence number exceeded every mark the peer had reported for the topic when
    they were added: nothing is lost, repeated or reordered by flushing. *)
Theorem lazy_buffer_exactly_wanted (ops : list buffer_op) :
  let '(out, b) := run_buffer NewLazyBuffer ops in
  concat out ++ lb_entries b = wanted [] ops.
Proof. by apply (run_buffer_wanted ops NewLazyBuffer []). Qed.
