(* ===== verification/Ordered.v ===== *)
(** * In-order delivery: [OrderedApplier] (src/engine/ordered.go)

    Per topic: the next expected sequence number, the buffered later entries
    and the flag that a gap timer is running.  The source keeps three arrays
    indexed by topic; every operation reads and writes the one index it is
    given, so the model groups the three cells of a topic in a [Slot].

    Calls to [deliver] and the [go o.gapTimer(...)] statements are returned as
    effects, in the order the code performs them.  Each method is one atomic
    operation here; [OrderedRun] composes methods and timers into runs. *)

From S2P Require Import Prelude.

(** ** State *)

Record Slot := mkSlot {
  nextSeq : Z;
  pending : gmap Z bytes;
  timerFlag : Z;  (** 1 = timer active, 0 = idle *)
}.

Definition emptySlot : Slot := mkSlot 0 ∅ 0.

Record OrderedApplier := mkApplier {
  slots : gmap Z Slot;
  maxGapBuffer : Z;
  gapTimeout : Z;  (** nanoseconds *)
}.

Definition NewOrderedApplier : OrderedApplier := mkApplier ∅ 64 (500 * 1000000).

Inductive effect :=
| Deliver (topic seq : Z) (payload : bytes)
| GoGapTimer (topic expectedAtStart : Z).

#[export] Instance effect_eq_dec : EqDecision effect.
Proof. solve_decision. Defined.

Definition slot (o : OrderedApplier) (topic : Z) : Slot := default emptySlot (slots o !! topic).

Definition with_slot (o : OrderedApplier) (topic : Z) (s : Slot) : OrderedApplier :=
  mkApplier (<[topic := s]> (slots o)) (maxGapBuffer o) (gapTimeout o).

(** Runs a slot operation on the slot of [topic]. *)
Definition on_slot (o : OrderedApplier) (topic : Z) (f : Slot → Slot * list effect) :
    OrderedApplier * list effect :=
  let '(s, es) := f (slot o topic) in (with_slot o topic s, es).

(** ** Operations on a slot *)

(** [if o.gapTimers[topic].CompareAndSwap(0, 1) { go o.gapTimer(topic, expected) }] *)
Definition start_timer (topic expected : Z) (s : Slot) : Slot * list effect :=
  if timerFlag s =? 0
  then (mkSlot (nextSeq s) (pending s) 1, [GoGapTimer topic expected])
  else (s, []).

(** The delivery loop of [drainPending]. Every iteration removes a buffered
    entry, so as many iterations as there are entries are enough. *)
Fixpoint drain_loop (fuel : nat) (topic : Z) (s : Slot) : Slot * list effect :=
  match fuel with
  | O => (s, [])
  | S fuel' =>
      let next := nextSeq s in
      match pending s !! next with
      | None => (s, [])
      | Some val =>
          let '(s', es) :=
            drain_loop fuel' topic (mkSlot (next +64 1)%word (delete next (pending s)) (timerFlag s)) in
          (s', Deliver topic next val :: es)
      end
  end.

Definition drain_slot (topic : Z) (s : Slot) : Slot * list effect :=
  let '(s1, es) := drain_loop (size (pending s)) topic s in
  if decide (pending s1 = ∅) then (s1, es)
  else
    let '(s2, es2) := start_timer topic (nextSeq s1) s1 in
    (s2, es ++ es2).

Definition receive_slot (maxGap topic seq : Z) (payload : bytes) (s : Slot) : Slot * list effect :=
  let expected := nextSeq s in
  if seq <? expected then (s, [])
  else if expected <? seq then
    let count := (seq -64 expected)%word in
    if count <=? u64 maxGap then
      start_timer topic expected (mkSlot expected (<[seq := payload]> (pending s)) (timerFlag s))
    else
      let '(s2, es) := drain_slot topic (mkSlot (seq +64 1)%word (pending s) (timerFlag s)) in
      (s2, Deliver topic seq payload :: es)
  else
    let '(s2, es) := drain_slot topic (mkSlot (expected +64 1)%word (pending s) (timerFlag s)) in
    (s2, Deliver topic seq payload :: es).

(** The [Range] scan of [skipGap]. *)
Definition min_pending (p : gmap Z bytes) : Z :=
  foldr (fun kv m => if kv.1 <? m then kv.1 else m) MaxUint64 (map_to_list p).

Definition skip_slot (topic : Z) (s : Slot) : Slot * list effect :=
  let minPending := min_pending (pending s) in
  if minPending =? MaxUint64 then (s, [])
  else drain_slot topic (mkSlot minPending (pending s) (timerFlag s)).

(** ** Methods *)

Definition Receive (o : OrderedApplier) (topic seq : Z) (payload : bytes) : OrderedApplier * list effect :=
  on_slot o topic (receive_slot (maxGapBuffer o) topic seq payload).

Definition drainPending (o : OrderedApplier) (topic : Z) : OrderedApplier * list effect :=
  on_slot o topic (drain_slot topic).

Definition skipGap (o : OrderedApplier) (topic : Z) : OrderedApplier * list effect :=
  on_slot o topic (skip_slot topic).

(** The callback may call back into the applier: it takes and returns it, with
    the effects of its calls and whether the gap was filled. *)
Definition gap_callback : Type := OrderedApplier → Z → Z → bool * OrderedApplier * list effect.

(** [gapTimer] after its sleep. *)
Definition gapTimer (onGap : option gap_callback) (o : OrderedApplier) (topic expectedAtStart : Z) :
    OrderedApplier * list effect :=
  let s := slot o topic in
  let o1 := with_slot o topic (mkSlot (nextSeq s) (pending s) 0) in
  let current := nextSeq s in
  if current =? expectedAtStart then
    match onGap with
    | None => skipGap o1 topic
    | Some f =>
        let '(filled, o2, es) := f o1 topic current in
        if (filled : bool) then (o2, es)
        else let '(o3, es') := skipGap o2 topic in (o3, es ++ es')
    end
  else (o1, []).

Definition SetNextSeq (o : OrderedApplier) (topic seq : Z) : OrderedApplier :=
  with_slot o topic (mkSlot seq ∅ (timerFlag (slot o topic))).

Definition NextSeq (o : OrderedApplier) (topic : Z) : Z := nextSeq (slot o topic).

(** ** Lemmas: effects *)

Definition deliveries (es : list effect) : list (Z * Z * bytes) :=
  omap (fun e => match e with Deliver t q p => Some (t, q, p) | GoGapTimer _ _ => None end) es.

Definition timers_of (es : list effect) : list (Z * Z) :=
  omap (fun e => match e with GoGapTimer t x => Some (t, x) | Deliver _ _ _ => None end) es.

Lemma deliveries_app es1 es2 : deliveries (es1 ++ es2) = deliveries es1 ++ deliveries es2.
Proof. apply omap_app. Qed.

Lemma timers_of_app es1 es2 : timers_of (es1 ++ es2) = timers_of es1 ++ timers_of es2.
Proof. apply omap_app. Qed.

(** Deliveries of consecutive sequence numbers from [next] on. *)
Definition run_of (topic next : Z) (ps : list bytes) : list (Z * Z * bytes) :=
  imap (fun i p => (topic, next + Z.of_nat i, p)) ps.

Lemma run_of_cons topic next p ps :
  run_of topic next (p :: ps) = (topic, next, p) :: run_of topic (next + 1) ps.
Proof.
  unfold run_of. rewrite imap_cons, Z.add_0_r. f_equal. apply imap_ext. intros i x _. cbn [compose].
  by replace (next + Z.of_nat (S i)) with (next + 1 + Z.of_nat i) by lia.
Qed.

Lemma run_of_app topic next ps1 ps2 :
  run_of topic next (ps1 ++ ps2) = run_of topic next ps1 ++ run_of topic (next + Z.of_nat (length ps1)) ps2.
Proof.
  revert next. induction ps1 as [|p ps1 IH]; intros next; cbn [app length].
  - by rewrite Z.add_0_r.
  - rewrite !run_of_cons, IH. cbn [app].
    by replace (next + Z.of_nat (S (length ps1))) with (next + 1 + Z.of_nat (length ps1)) by lia.
Qed.

Lemma elem_of_run_of topic next ps t q p :
  (t, q, p) ∈ run_of topic next ps ↔ t = topic ∧ next ≤ q ∧ ps !! Z.to_nat (q - next) = Some p.
Proof.
  unfold run_of. rewrite list_elem_of_lookup. setoid_rewrite list_lookup_imap_Some. split.
  - intros (i & p' & Hi & [= -> -> ->]). split_and!; [done|lia|].
    by replace (Z.to_nat (next + Z.of_nat i - next)) with i by lia.
  - intros (-> & Hq & Hp). exists (Z.to_nat (q - next)), p. split; [done|].
    by replace (next + Z.of_nat (Z.to_nat (q - next))) with q by lia.
Qed.

(** ** Lemmas: the timer flag *)

Lemma start_timer_spec topic x s :
  (start_timer topic x s).1 = mkSlot (nextSeq s) (pending s) (if timerFlag s =? 0 then 1 else timerFlag s) ∧
  deliveries (start_timer topic x s).2 = [] ∧
  timers_of (start_timer topic x s).2 = if timerFlag s =? 0 then [(topic, x)] else [].
Proof. unfold start_timer. destruct s as [n p f]; simpl. by destruct (f =? 0). Qed.

(** ** Lemmas: draining *)

(** Buffered keys are words below the largest one, so [nextSeq] cannot wrap. *)
Definition keys_ok (p : gmap Z bytes) : Prop := ∀ k x, p !! k = Some x → 0 ≤ k < MaxUint64.

Lemma keys_ok_delete p k : keys_ok p → keys_ok (delete k p).
Proof. intros Hp k' x [_ ?]%lookup_delete_Some. eauto. Qed.

Lemma keys_ok_insert p k x : 0 ≤ k < MaxUint64 → keys_ok p → keys_ok (<[k := x]> p).
Proof. intros Hk Hp k' x' [[<- _]|[_ ?]]%lookup_insert_Some; eauto. Qed.

Lemma keys_ok_empty : keys_ok ∅.
Proof. intros k x. by rewrite lookup_empty. Qed.

Create HintDb ordered discriminated.
#[export] Hint Resolve keys_ok_delete keys_ok_insert keys_ok_empty : ordered.

(** What a drain from [s] to [s'] delivered: a maximal run of buffered entries. *)
Record drained (topic : Z) (s s' : Slot) (ps : list bytes) : Prop := {
  dr_next : nextSeq s' = nextSeq s + Z.of_nat (length ps);
  dr_taken : ∀ i p, ps !! i = Some p → pending s !! (nextSeq s + Z.of_nat i) = Some p;
  dr_left : ∀ k, pending s' !! k =
    if decide (nextSeq s ≤ k < nextSeq s') then None else pending s !! k;
  dr_stop : pending s' !! nextSeq s' = None;
}.

Lemma drain_loop_spec fuel topic s :
  (size (pending s) ≤ fuel)%nat → keys_ok (pending s) →
  ∃ ps, drained topic s (drain_loop fuel topic s).1 ps ∧
    timerFlag (drain_loop fuel topic s).1 = timerFlag s ∧
    deliveries (drain_loop fuel topic s).2 = run_of topic (nextSeq s) ps ∧
    timers_of (drain_loop fuel topic s).2 = [].
Proof.
  revert s. induction fuel as [|fuel IH]; intros s Hsize Hk.
  - assert (pending s = ∅) as Hemp by (apply map_size_empty_inv; lia).
    exists []. cbn. split_and!; [|done..]. split; cbn; [lia|done| |by rewrite Hemp].
    intros k. rewrite decide_False by lia. done.
  - cbn [drain_loop]. destruct (pending s !! nextSeq s) as [val|] eqn:Hv.
    + pose proof (Hk _ _ Hv) as Hrange.
      assert ((nextSeq s +64 1)%word = nextSeq s + 1) as -> by (apply wrap_id; word_lia).
      destruct (IH (mkSlot (nextSeq s + 1) (delete (nextSeq s) (pending s)) (timerFlag s)))
        as (ps & [Hn Ht Hl Hs] & Hf & Hd & Htm); cbn [nextSeq pending timerFlag] in *.
      { rewrite map_size_delete_Some by eauto. lia. }
      { auto with ordered. }
      destruct (drain_loop fuel topic _) as [s' es]; cbn [fst snd] in *.
      exists (val :: ps). rewrite run_of_cons, <- Hd. split_and!; [|done..].
      split; cbn [length]; [lia| | |done].
      * intros [|i] p Hp; cbn in Hp; [by simplify_eq; rewrite Z.add_0_r|].
        apply Ht in Hp. apply lookup_delete_Some in Hp as [_ Hp]. rewrite <- Hp. f_equal. lia.
      * intros k. rewrite Hl. destruct (decide (k = nextSeq s)) as [->|Hne].
        -- rewrite (decide_True (P := nextSeq s ≤ nextSeq s < _)) by lia.
           case_decide; [done|]. apply lookup_delete_eq.
        -- rewrite lookup_delete_ne by done. repeat case_decide; (done || lia).
    + exists []. cbn. split_and!; [|done..]. split; cbn; [lia|done| |done].
      intros k. rewrite decide_False by lia. done.
Qed.

Lemma drain_slot_spec topic s :
  keys_ok (pending s) →
  ∃ ps, drained topic s (drain_slot topic s).1 ps ∧
    deliveries (drain_slot topic s).2 = run_of topic (nextSeq s) ps ∧
    timerFlag (drain_slot topic s).1 =
      (if bool_decide (pending (drain_slot topic s).1 = ∅) then timerFlag s
       else if timerFlag s =? 0 then 1 else timerFlag s) ∧
    timers_of (drain_slot topic s).2 =
      (if bool_decide (pending (drain_slot topic s).1 = ∅) then []
       else if timerFlag s =? 0 then [(topic, nextSeq (drain_slot topic s).1)] else []).
Proof.
  intros Hk. unfold drain_slot.
  destruct (drain_loop_spec (size (pending s)) topic s) as (ps & Hdr & Hf & Hd & Ht); [lia|done|].
  destruct (drain_loop _ topic s) as [s1 es]; cbn [fst snd] in *. exists ps.
  destruct (decide (pending s1 = ∅)) as [Hemp|Hne]; cbn [fst snd].
  - rewrite bool_decide_eq_true_2 by done. done.
  - destruct (start_timer_spec topic (nextSeq s1) s1) as (E1 & E2 & E3).
    destruct (start_timer _ _ _) as [s2 es2]; cbn [fst snd] in *. subst s2.
    cbn [pending nextSeq timerFlag]. rewrite bool_decide_eq_false_2 by done.
    rewrite deliveries_app, timers_of_app, Hd, Ht, E2, E3, app_nil_r, Hf.
    split_and!; [|done..]. destruct Hdr. by split.
Qed.

(** ** Lemmas: the lowest buffered entry *)

Lemma min_pending_spec p :
  keys_ok p →
  (p = ∅ ∧ min_pending p = MaxUint64) ∨
  (is_Some (p !! min_pending p) ∧ ∀ k, is_Some (p !! k) → min_pending p ≤ k).
Proof.
  intros Hk. destruct (decide (p = ∅)) as [->|Hne]; [left; unfold min_pending; by rewrite map_to_list_empty|right].
  assert (∀ l, (∀ kv, kv ∈ l → p !! kv.1 = Some kv.2) →
    let m := foldr (fun kv m => if (kv : Z * bytes).1 <? m then kv.1 else m) MaxUint64 l in
    (l = [] ∧ m = MaxUint64 ∨ is_Some (p !! m)) ∧ ∀ kv, kv ∈ l → m ≤ kv.1) as Hfold.
  { induction l as [|[k x] l IH]; intros Hl; cbn; [split; [by left|by intros ? ?%elem_of_nil]|].
    destruct IH as [H1 H2]; [set_solver|].
    pose proof (Hl (k, x) ltac:(set_solver)) as Hkx. cbn in Hkx. pose proof (Hk _ _ Hkx).
    destruct (Z.ltb_spec k (foldr (fun kv m => if (kv : Z * bytes).1 <? m then kv.1 else m) MaxUint64 l)) as [Hlt|Hge].
    - split; [right; eauto|]. intros kv [->|Hin]%elem_of_cons; [done|]. specialize (H2 kv Hin). lia.
    - split; [right; destruct H1 as [[-> H1]|H1]; [cbn in *; lia|done]|].
      intros kv [->|Hin]%elem_of_cons; [done|]. by apply H2. }
  destruct (Hfold (map_to_list p)) as [H1 H2].
  { intros [k x]. apply elem_of_map_to_list. }
  split.
  - destruct H1 as [[H1 _]|H1]; [|done]. by apply map_to_list_empty_iff in H1.
  - intros k [x Hx]. apply (H2 (k, x)). by apply elem_of_map_to_list.
Qed.
