(* ===== verification/OrderedSpec.v ===== *)
(** * [Receive] implements a reorder buffer (src/engine/ordered.go)

    The abstract specification: of a set of sequence numbers received from a
    starting point on, exactly the longest gap-free prefix is delivered, in
    order, and the rest is buffered.  The refinement theorem shows that
    [Receive] maintains it for every arrival order, with duplicates and stale
    entries, as long as arrivals stay within [maxGapBuffer] of the start. *)

From S2P Require Import Prelude Ordered.

(** ** The invariant of a slot whose gaps were all small enough to buffer *)

Record slot_ok (M : Z) (s : Slot) : Prop := {
  so_next : 0 ≤ nextSeq s ≤ MaxUint64;
  so_pending : ∀ k x, pending s !! k = Some x → nextSeq s < k ≤ nextSeq s + M ∧ k < MaxUint64;
  so_flag : timerFlag s = 0 ∨ timerFlag s = 1;
}.

Lemma slot_ok_keys M s : slot_ok M s → keys_ok (pending s).
Proof. intros [Hn Hp _] k x Hk. apply Hp in Hk. lia. Qed.

#[export] Hint Resolve slot_ok_keys : ordered.

Lemma slot_ok_empty M n f : 0 ≤ n ≤ MaxUint64 → f = 0 ∨ f = 1 → slot_ok M (mkSlot n ∅ f).
Proof. intros Hn Hf. split; cbn; [done| |done]. intros k x. by rewrite lookup_empty. Qed.

(** A gap bound that fits the code's conversion to [uint64]. *)
Definition gap_ok (M : Z) : Prop := 0 < M < 2 ^ 63.

(** Draining keeps the invariant, from a slot whose own next entry may be buffered. *)
Lemma drained_ok M topic s s' ps :
  0 ≤ nextSeq s ≤ MaxUint64 →
  (∀ k x, pending s !! k = Some x → nextSeq s ≤ k ≤ nextSeq s + M ∧ k < MaxUint64) →
  timerFlag s' = 0 ∨ timerFlag s' = 1 →
  drained topic s s' ps → slot_ok M s'.
Proof.
  intros Hn Hp Hf [Hnx Htk Hl Hst]. split; [|intros k x Hk|done].
  - destruct (decide (ps = [])) as [->|Hne]; [cbn in *; lia|].
    destruct (lookup_lt_is_Some_2 ps (length ps - 1)) as [p Hlast]; [destruct ps; cbn; [done|lia]|].
    apply Htk in Hlast. apply Hp in Hlast. assert (length ps ≠ 0)%nat by (by destruct ps). lia.
  - assert (k ≠ nextSeq s') by (intros ->; congruence).
    rewrite Hl in Hk. case_decide; [done|]. apply Hp in Hk. lia.
Qed.

(** The three outcomes of [Receive] when the gap is small enough to buffer. *)
Inductive receive_outcome (M topic q : Z) (p : bytes) (s : Slot) : Slot → list effect → Prop :=
| recv_stale : q < nextSeq s → receive_outcome M topic q p s s []
| recv_buffered s' es : nextSeq s < q →
    s' = mkSlot (nextSeq s) (<[q := p]> (pending s)) 1 →
    deliveries es = [] →
    timers_of es = (if timerFlag s =? 0 then [(topic, nextSeq s)] else []) →
    receive_outcome M topic q p s s' es
| recv_inorder s' es ps : q = nextSeq s →
    drained topic (mkSlot (q + 1) (pending s) (timerFlag s)) s' ps →
    deliveries es = run_of topic q (p :: ps) →
    timerFlag s' = (if bool_decide (pending s' = ∅) then timerFlag s else 1) →
    timers_of es = (if bool_decide (pending s' = ∅) then []
                    else if timerFlag s =? 0 then [(topic, nextSeq s')] else []) →
    receive_outcome M topic q p s s' es.

Lemma receive_slot_outcome M topic q p s :
  gap_ok M → slot_ok M s → 0 ≤ q < MaxUint64 → q ≤ nextSeq s + M →
  receive_outcome M topic q p s (receive_slot M topic q p s).1 (receive_slot M topic q p s).2.
Proof.
  intros HM Hok Hq Hgap. pose proof (so_flag _ _ Hok) as Hf. pose proof (so_next _ _ Hok).
  assert ((if timerFlag s =? 0 then 1 else timerFlag s) = 1) as Hflag by (destruct Hf as [-> | ->]; done).
  unfold gap_ok in HM. unfold receive_slot.
  destruct (Z.ltb_spec q (nextSeq s)) as [Hlt|Hge]; [by apply recv_stale|].
  destruct (Z.ltb_spec (nextSeq s) q) as [Hlt|Hge'].
  - assert ((q -64 nextSeq s)%word = q - nextSeq s) as -> by (apply wrap_id; word_lia).
    rewrite (wrap_id 64 M) by word_lia. rewrite (proj2 (Z.leb_le _ _)) by lia.
    destruct (start_timer_spec topic (nextSeq s) (mkSlot (nextSeq s) (<[q:=p]> (pending s)) (timerFlag s)))
      as (E1 & E2 & E3).
    destruct (start_timer _ _ _) as [s' es]; cbn [fst snd nextSeq pending timerFlag] in *.
    rewrite Hflag in E1. by eapply recv_buffered.
  - assert (q = nextSeq s) as -> by lia.
    assert ((nextSeq s +64 1)%word = nextSeq s + 1) as -> by (apply wrap_id; word_lia).
    destruct (drain_slot_spec topic (mkSlot (nextSeq s + 1) (pending s) (timerFlag s)))
      as (ps & Hdr & Hd & Hfl & Ht); [exact (slot_ok_keys _ _ Hok)|].
    destruct (drain_slot topic (mkSlot (nextSeq s + 1) (pending s) (timerFlag s))) as [s2 es]; cbn [fst snd nextSeq pending timerFlag] in *.
    eapply (recv_inorder _ _ _ _ _ _ _ ps); [done|done| | |done].
    + by rewrite run_of_cons, <- Hd.
    + rewrite Hfl. by rewrite Hflag.
Qed.

Lemma receive_slot_ok M topic q p s :
  gap_ok M → slot_ok M s → 0 ≤ q < MaxUint64 → q ≤ nextSeq s + M →
  slot_ok M (receive_slot M topic q p s).1.
Proof.
  intros HM Hok Hq Hgap. destruct (receive_slot_outcome M topic q p s HM Hok Hq Hgap)
    as [?|s' es Hlt -> _ _|s' es ps -> Hdr _ Hfl _]; [done| |].
  - destruct Hok as [Hn Hp Hf]. split; cbn; [done| |by right].
    intros k x [[<- _]|[_ Hk]]%lookup_insert_Some; [lia|]. by apply Hp in Hk.
  - eapply (drained_ok M); [| | |exact Hdr]; cbn [nextSeq pending].
    + lia.
    + intros k x Hk. apply (so_pending _ _ Hok) in Hk. unfold gap_ok in HM. lia.
    + rewrite Hfl. pose proof (so_flag _ _ Hok). destruct (bool_decide _); [done|by right].
Qed.

#[export] Hint Resolve slot_ok_empty receive_slot_ok : ordered.

(** ** The specification *)

(** [n .. n+c-1] were all received and [n+c] was not. *)
Definition longest_prefix (n : Z) (l : list Z) (c : nat) : Prop :=
  (∀ i, (i < c)%nat → n + Z.of_nat i ∈ l) ∧ n + Z.of_nat c ∉ l.

(** What was delivered, the next expected number and the buffer are determined
    by the set of received numbers alone. *)
Record spec_holds (topic n : Z) (P : Z → bytes) (l : list Z) (s : Slot) (D : list (Z * Z * bytes)) (c : nat) : Prop := {
  sp_prefix : longest_prefix n l c;
  sp_next : nextSeq s = n + Z.of_nat c;
  sp_delivered : D = run_of topic n ((fun i => P (n + Z.of_nat i)) <$> seq 0 c);
  sp_buffered : ∀ k x, pending s !! k = Some x ↔ k ∈ l ∧ nextSeq s < k ∧ x = P k;
}.

Lemma spec_start topic n P f : spec_holds topic n P [] (mkSlot n ∅ f) [] 0.
Proof.
  split; cbn; [split; [lia|apply not_elem_of_nil]|lia|done|].
  intros k x. rewrite lookup_empty, elem_of_nil. naive_solver.
Qed.

Lemma longest_prefix_old n l c q :
  longest_prefix n l c → q < n + Z.of_nat c ∨ n + Z.of_nat c < q → longest_prefix n (l ++ [q]) c.
Proof.
  intros [H1 H2] Hq. split; [intros i Hi; apply elem_of_app; left; auto|].
  rewrite elem_of_app, list_elem_of_singleton. intros [?|?]; [done|lia].
Qed.

Lemma run_payloads_ext topic n (P : Z → bytes) c ps :
  (∀ i p, ps !! i = Some p → p = P (n + Z.of_nat c + Z.of_nat i)) →
  run_of topic n ((fun i => P (n + Z.of_nat i)) <$> seq 0 c) ++ run_of topic (n + Z.of_nat c) ps =
  run_of topic n ((fun i => P (n + Z.of_nat i)) <$> seq 0 (c + length ps)).
Proof.
  intros Hps. rewrite seq_app, fmap_app, run_of_app, length_fmap, length_seq. f_equal. f_equal.
  apply list_eq. intros i. rewrite list_lookup_fmap. cbn [Nat.add].
  destruct (ps !! i) as [p|] eqn:Hi.
  - rewrite lookup_seq_lt by (by eapply lookup_lt_Some). cbn. apply Hps in Hi. subst p. do 2 f_equal. lia.
  - rewrite lookup_seq_ge by (by apply lookup_ge_None). done.
Qed.

(** One [Receive] preserves the specification. *)
Lemma spec_receive M topic n P l s D c q :
  gap_ok M → slot_ok M s → 0 ≤ q < MaxUint64 → q ≤ nextSeq s + M →
  spec_holds topic n P l s D c →
  ∃ c', spec_holds topic n P (l ++ [q]) (receive_slot M topic q (P q) s).1
          (D ++ deliveries (receive_slot M topic q (P q) s).2) c'.
Proof.
  intros HM Hok Hq Hgap [Hpre Hnx HD Hbuf].
  destruct (receive_slot_outcome M topic q (P q) s HM Hok Hq Hgap)
    as [Hlt|s' es Hlt -> -> _|s' es ps Heq [Dn Dt Dl Ds] -> _ _].
  - exists c. rewrite app_nil_r. split; [apply longest_prefix_old; [done|lia]|done|done|].
    intros k x. rewrite Hbuf, elem_of_app, list_elem_of_singleton. intuition lia.
  - exists c. rewrite app_nil_r. split; cbn [nextSeq pending]; [apply longest_prefix_old; [done|lia]|done|done|].
    intros k x. rewrite lookup_insert_Some, Hbuf, elem_of_app, list_elem_of_singleton.
    destruct (decide (q = k)) as [<-|]; naive_solver.
  - cbn [nextSeq pending] in *. subst q.
    assert (∀ i p, (P (nextSeq s) :: ps) !! i = Some p → p = P (n + Z.of_nat c + Z.of_nat i)) as Hps.
    { intros [|i] p; cbn; intros Hi; [simplify_eq; f_equal; lia|].
      apply Dt, Hbuf in Hi as (_ & _ & ->). f_equal. lia. }
    exists (c + length (P (nextSeq s) :: ps))%nat. split; [split| | |].
    + intros i Hi. rewrite elem_of_app, list_elem_of_singleton.
      destruct (decide (i < c)%nat); [left; by apply Hpre|].
      destruct (decide (i = c)) as [->|]; [right; lia|]. left. cbn in Hi.
      destruct (lookup_lt_is_Some_2 ps (i - c - 1)) as [p Hp]; [lia|].
      apply Dt, Hbuf in Hp as [Hin _].
      by replace (n + Z.of_nat i) with (nextSeq s + 1 + Z.of_nat (i - c - 1)) by lia.
    + rewrite elem_of_app, list_elem_of_singleton. cbn. intros [Hin|?]; [|lia].
      rewrite Dl, decide_False in Ds by lia. rewrite Dn in Ds.
      assert (pending s !! (nextSeq s + 1 + Z.of_nat (length ps)) = Some (P (nextSeq s + 1 + Z.of_nat (length ps)))) as Hsome.
      { apply Hbuf. split_and!; [|lia|done].
        by replace (nextSeq s + 1 + Z.of_nat (length ps)) with (n + Z.of_nat (c + S (length ps))) by lia. }
      congruence.
    + rewrite Dn. cbn. lia.
    + rewrite HD, Hnx in *. by rewrite <- Hnx, Hnx, run_payloads_ext.
    + intros k x. rewrite elem_of_app, list_elem_of_singleton. split.
      * intros Hk. assert (k ≠ nextSeq s') by (intros ->; congruence).
        rewrite Dl in Hk. case_decide; [done|]. apply Hbuf in Hk as (? & ? & ->).
        split_and!; [by left|lia|done].
      * intros ([Hin|Hin] & Hlt & ->); [|lia]. rewrite Dl, decide_False by lia.
        apply Hbuf. split_and!; [done|lia|done].
Qed.

(** ** Lifting to the applier *)

Lemma with_slot_twice o t s1 s2 : with_slot (with_slot o t s1) t s2 = with_slot o t s2.
Proof. unfold with_slot; cbn. by rewrite insert_insert_eq. Qed.

Lemma slot_with_slot o t s t' :
  slot (with_slot o t s) t' = if decide (t = t') then s else slot o t'.
Proof. unfold slot, with_slot; cbn. rewrite lookup_insert. by case_decide. Qed.

Lemma on_slot_spec o t f :
  slot (on_slot o t f).1 t = (f (slot o t)).1 ∧
  (on_slot o t f).2 = (f (slot o t)).2 ∧
  maxGapBuffer (on_slot o t f).1 = maxGapBuffer o ∧
  ∀ t', t' ≠ t → slot (on_slot o t f).1 t' = slot o t'.
Proof.
  unfold on_slot. destruct (f (slot o t)) as [s es]. cbn [fst snd]. rewrite slot_with_slot, decide_True by done.
  split_and!; try done. intros t' Hne. rewrite slot_with_slot, decide_False by done. done.
Qed.

(** A sequence of arrivals on one topic. *)
Fixpoint Receive_all (o : OrderedApplier) (topic : Z) (l : list (Z * bytes)) : OrderedApplier * list effect :=
  match l with
  | [] => (o, [])
  | (q, p) :: l' =>
      let '(o1, es1) := Receive o topic q p in
      let '(o2, es2) := Receive_all o1 topic l' in
      (o2, es1 ++ es2)
  end.

Lemma Receive_all_spec topic n P l o l0 D c :
  gap_ok (maxGapBuffer o) → slot_ok (maxGapBuffer o) (slot o topic) →
  n + maxGapBuffer o < MaxUint64 →
  Forall (fun q => 0 ≤ q ≤ n + maxGapBuffer o) l →
  spec_holds topic n P l0 (slot o topic) D c →
  ∃ c', spec_holds topic n P (l0 ++ l)
          (slot (Receive_all o topic ((fun q => (q, P q)) <$> l)).1 topic)
          (D ++ deliveries (Receive_all o topic ((fun q => (q, P q)) <$> l)).2) c'.
Proof.
  intros HM. revert o l0 D c HM. induction l as [|q l IH]; intros o l0 D c HM Hok Hn Hall Hsp.
  { exists c. cbn. by rewrite !app_nil_r. }
  apply Forall_cons in Hall as [Hq Hall].
  pose proof (sp_next _ _ _ _ _ _ _ Hsp) as Hnx.
  destruct (spec_receive (maxGapBuffer o) topic n P l0 (slot o topic) D c q HM Hok) as [c1 Hsp1];
    [lia|lia|done|].
  pose proof (receive_slot_ok (maxGapBuffer o) topic q (P q) (slot o topic) HM Hok ltac:(lia) ltac:(lia)) as Hok1.
  destruct (on_slot_spec o topic (receive_slot (maxGapBuffer o) topic q (P q))) as (Hs & He & Hg & _).
  rewrite fmap_cons. cbn [Receive_all]. change (on_slot _ _ _) with (Receive o topic q (P q)) in *.
  destruct (Receive o topic q (P q)) as [o1 es1]; cbn [fst snd] in *.
  rewrite <- Hs, <- He in Hsp1. rewrite <- Hs in Hok1.
  destruct (IH o1 (l0 ++ [q]) (D ++ deliveries es1) c1) as [c' Hc']; [by rewrite Hg..|done|].
  exists c'. destruct (Receive_all o1 topic _) as [o2 es2]; cbn [fst snd] in *.
  by rewrite deliveries_app, app_assoc, <- (app_assoc l0) in *.
Qed.

Lemma NewStart_ok o topic n :
  0 ≤ n ≤ MaxUint64 → (timerFlag (slot o topic) = 0 ∨ timerFlag (slot o topic) = 1) →
  slot_ok (maxGapBuffer o) (slot (SetNextSeq o topic n) topic) ∧
  ∀ P, spec_holds topic n P [] (slot (SetNextSeq o topic n) topic) [] 0.
Proof.
  intros Hn Hf. unfold SetNextSeq. rewrite slot_with_slot, decide_True by done.
  split; [by apply slot_ok_empty|]. intros P. apply spec_start.
Qed.

(** ** Theorems *)

Section Window.
Context (o : OrderedApplier) (topic n : Z) (P : Z → bytes) (l : list Z).
Hypothesis Hgap : gap_ok (maxGapBuffer o).
Hypothesis Hflag : timerFlag (slot o topic) = 0 ∨ timerFlag (slot o topic) = 1.
Hypothesis Hn : 0 ≤ n ∧ n + maxGapBuffer o < MaxUint64.
Hypothesis Hl : Forall (fun q => 0 ≤ q ≤ n + maxGapBuffer o) l.

Let final := Receive_all (SetNextSeq o topic n) topic ((fun q => (q, P q)) <$> l).

Lemma window_spec : ∃ c, spec_holds topic n P l (slot final.1 topic) (deliveries final.2) c.
Proof using Hgap Hflag Hn Hl.
  unfold gap_ok in Hgap. destruct (NewStart_ok o topic n ltac:(lia) Hflag) as [Hok Hsp].
  destruct (Receive_all_spec topic n P l (SetNextSeq o topic n) [] [] 0) as [c Hc];
    [done|done|cbn; lia|done|done|]. by exists c.
Qed.

(** C7: refinement of the reorder-buffer specification. After any arrivals
    within the gap bound of the starting number, in any order and with any
    repetition, what was delivered is the longest gap-free prefix of the received
    numbers, in order and with their payloads; the next expected number is the
    first missing one; and the buffer holds exactly the received later entries. *)
Theorem receive_refines_prefix_spec :
  ∃ c, longest_prefix n l c ∧
    deliveries final.2 = run_of topic n ((fun i => P (n + Z.of_nat i)) <$> seq 0 c) ∧
    NextSeq final.1 topic = n + Z.of_nat c ∧
    ∀ k x, pending (slot final.1 topic) !! k = Some x ↔ k ∈ l ∧ n + Z.of_nat c < k ∧ x = P k.
Proof using Hgap Hflag Hn Hl.
  destruct window_spec as [c [Hp Hnx HD Hb]]. exists c.
  unfold NextSeq. rewrite <- Hnx. auto.
Qed.

(** A complete window of [m] entries, each arriving at least once and in
    any order, is delivered entirely, in order, each entry once, and nothing
    stays buffered. *)
Theorem window_delivered_in_order (m : nat) :
  (∀ q, q ∈ l ↔ n ≤ q < n + Z.of_nat m) →
  deliveries final.2 = run_of topic n ((fun i => P (n + Z.of_nat i)) <$> seq 0 m) ∧
  NextSeq final.1 topic = n + Z.of_nat m ∧
  pending (slot final.1 topic) = ∅.
Proof using Hgap Hflag Hn Hl.
  intros Hcover. destruct window_spec as [c [[Hp1 Hp2] Hnx HD Hb]].
  assert (c = m) as ->.
  { rewrite Hcover in Hp2. destruct (decide (c = 0)%nat); [lia|].
    specialize (Hp1 (c - 1)%nat ltac:(lia)). apply Hcover in Hp1. lia. }
  split_and!; [done|done|]. apply map_empty. intros k. apply eq_None_not_Some. intros [x Hx].
  apply Hb in Hx as (Hin & Hlt & _). apply Hcover in Hin. lia.
Qed.

End Window.

(** Entries 5..8 arriving as 7, 5, 5, 8, 6. *)
Definition sample_payload (q : Z) : bytes := [byte_of_Z q].

Lemma receive_refines_prefix_spec_witness :
  let final := Receive_all (SetNextSeq NewOrderedApplier 1 5) 1
                 ((fun q => (q, sample_payload q)) <$> [7; 5; 5; 8]) in
  ∃ c, longest_prefix 5 [7; 5; 5; 8] c ∧
    deliveries final.2 = run_of 1 5 ((fun i => sample_payload (5 + Z.of_nat i)) <$> seq 0 c) ∧
    NextSeq final.1 1 = 5 + Z.of_nat c ∧
    ∀ k x, pending (slot final.1 1) !! k = Some x ↔ k ∈ [7; 5; 5; 8] ∧ 5 + Z.of_nat c < k ∧ x = sample_payload k.
Proof.
  apply (receive_refines_prefix_spec NewOrderedApplier 1 5 sample_payload [7; 5; 5; 8]).
  - by vm_compute.
  - by left.
  - by vm_compute.
  - repeat constructor; by vm_compute.
Defined.

Lemma window_delivered_in_order_witness :
  let final := Receive_all (SetNextSeq NewOrderedApplier 1 5) 1
                 ((fun q => (q, sample_payload q)) <$> [7; 5; 5; 8; 6]) in
  deliveries final.2 = run_of 1 5 ((fun i => sample_payload (5 + Z.of_nat i)) <$> seq 0 4) ∧
  NextSeq final.1 1 = 9 ∧ pending (slot final.1 1) = ∅.
Proof.
  apply (window_delivered_in_order NewOrderedApplier 1 5 sample_payload [7; 5; 5; 8; 6]).
  - by vm_compute.
  - by left.
  - by vm_compute.
  - repeat constructor; by vm_compute.
  - intros q. rewrite !elem_of_cons, elem_of_nil. lia.
Defined.
