(* ===== verification/OrderedRun.v ===== *)
(** * Runs of the ordered applier with its gap timers (src/engine/ordered.go)

    A run interleaves [Receive], [SetNextSeq] and expiring gap timers.  The
    sleeping [gapTimer] goroutines are part of the state; an expiring timer
    meets the outcome of the repair callback: nothing found, or the payload of
    the missing entry, which the callback feeds back through [Receive]. *)

From S2P Require Import Prelude Ordered OrderedSpec.

(** ** Runs *)

Record run_state := mkRun {
  r_applier : OrderedApplier;
  r_timers : list (Z * Z);             (** sleeping goroutines: topic, expectedAtStart *)
  r_log : list (Z * Z * bytes);        (** deliveries so far *)
  r_arrived : list (Z * Z * bytes);    (** ghost: everything passed to [Receive] *)
}.

Definition startRun (o : OrderedApplier) : run_state := mkRun o [] [] [].

(** The repair callback that found nothing, or found the missing payload. *)
Definition repair_callback (found : option bytes) : gap_callback :=
  fun o topic seq =>
    match found with
    | None => (false, o, [])
    | Some p => let '(o', es) := Receive o topic seq p in (true, o', es)
    end.

Inductive action :=
| ActReceive (topic seq : Z) (payload : bytes)
| ActTimer (i : nat) (found : option bytes)
| ActSetNext (topic seq : Z).

Definition commit (st : run_state) (timers : list (Z * Z)) (arrived : list (Z * Z * bytes))
    (r : OrderedApplier * list effect) : run_state :=
  mkRun r.1 (timers ++ timers_of r.2) (r_log st ++ deliveries r.2) (r_arrived st ++ arrived).

Definition do_action (st : run_state) (a : action) : option run_state :=
  match a with
  | ActReceive t q p =>
      Some (commit st (r_timers st) [(t, q, p)] (Receive (r_applier st) t q p))
  | ActTimer i found =>
      '(t, x) ← r_timers st !! i;
      Some (commit st (delete i (r_timers st))
              (match found with
               | Some p => if NextSeq (r_applier st) t =? x then [(t, x, p)] else []
               | None => []
               end)
              (gapTimer (Some (repair_callback found)) (r_applier st) t x))
  | ActSetNext t q => Some (commit st (r_timers st) [] (SetNextSeq (r_applier st) t q, []))
  end.

Fixpoint do_actions (st : run_state) (acts : list action) : option run_state :=
  match acts with
  | [] => Some st
  | a :: acts' => st' ← do_action st a; do_actions st' acts'
  end.

(** The runs in which every gap was small enough to buffer, sequence numbers
    stay below the largest word, and the expected number is only reset forward. *)
Definition small_gap (st : run_state) (a : action) : Prop :=
  match a with
  | ActReceive t q _ =>
      0 ≤ q < MaxUint64 ∧ q ≤ NextSeq (r_applier st) t + maxGapBuffer (r_applier st)
  | ActTimer i (Some _) =>
      match r_timers st !! i with
      | Some (t, _) => NextSeq (r_applier st) t < MaxUint64
      | None => True
      end
  | ActTimer _ None => True
  | ActSetNext t q => NextSeq (r_applier st) t ≤ q ≤ MaxUint64
  end.

Inductive step : run_state → run_state → Prop :=
| step_action st a st' : do_action st a = Some st' → step st st'.

Inductive small_step : run_state → run_state → Prop :=
| small_step_action st a st' : small_gap st a → do_action st a = Some st' → small_step st st'.

(** ** Timers: one sleeping goroutine per raised flag, in every run *)

Record timers_ok (st : run_state) : Prop := {
  tm_nodup : NoDup (r_timers st).*1;
  tm_flag : ∀ t, timerFlag (slot (r_applier st) t) = if decide (t ∈ (r_timers st).*1) then 1 else 0;
}.

(** An operation may raise an idle flag, with the goroutine that goes with it. *)
Definition raises (t : Z) (s s' : Slot) (es : list effect) : Prop :=
  (timerFlag s' = timerFlag s ∧ timers_of es = []) ∨
  (timerFlag s = 0 ∧ timerFlag s' = 1 ∧ ∃ x, timers_of es = [(t, x)]).

Lemma start_timer_raises t x s : raises t s (start_timer t x s).1 (start_timer t x s).2.
Proof.
  unfold raises, start_timer. destruct (Z.eqb_spec (timerFlag s) 0); cbn; [right; eauto|by left].
Qed.

Lemma drain_loop_flag fuel t s :
  timerFlag (drain_loop fuel t s).1 = timerFlag s ∧ timers_of (drain_loop fuel t s).2 = [].
Proof.
  revert s. induction fuel as [|fuel IH]; intros s; cbn [drain_loop]; [done|].
  destruct (pending s !! nextSeq s); [|done].
  specialize (IH (mkSlot (nextSeq s +64 1)%word (delete (nextSeq s) (pending s)) (timerFlag s))).
  by destruct (drain_loop fuel t _).
Qed.

Lemma drain_slot_raises t s : raises t s (drain_slot t s).1 (drain_slot t s).2.
Proof.
  unfold drain_slot. destruct (drain_loop_flag (size (pending s)) t s) as [Hf Ht].
  destruct (drain_loop _ t s) as [s1 es]; cbn [fst snd] in *.
  destruct (decide (pending s1 = ∅)); [by left|].
  pose proof (start_timer_raises t (nextSeq s1) s1) as Hr.
  destruct (start_timer _ _ _) as [s2 es2]; cbn [fst snd] in *.
  unfold raises in *. rewrite timers_of_app, Ht, <- Hf. exact Hr.
Qed.

Lemma raises_flag t s1 s2 s' es es' :
  timerFlag s1 = timerFlag s2 → timers_of es = timers_of es' → raises t s1 s' es → raises t s2 s' es'.
Proof. unfold raises. intros -> ->. done. Qed.

Lemma receive_slot_raises M t q p s :
  raises t s (receive_slot M t q p s).1 (receive_slot M t q p s).2.
Proof.
  unfold receive_slot. destruct (q <? nextSeq s); [by left|].
  destruct (nextSeq s <? q); [destruct (_ <=? _)|].
  - by eapply raises_flag; [| |apply start_timer_raises].
  - pose proof (drain_slot_raises t (mkSlot (q +64 1)%word (pending s) (timerFlag s))) as Hr.
    destruct (drain_slot _ _). by eapply raises_flag; [| |exact Hr].
  - pose proof (drain_slot_raises t (mkSlot (nextSeq s +64 1)%word (pending s) (timerFlag s))) as Hr.
    destruct (drain_slot _ _). by eapply raises_flag; [| |exact Hr].
Qed.

Lemma skip_slot_raises t s : raises t s (skip_slot t s).1 (skip_slot t s).2.
Proof.
  unfold skip_slot. destruct (_ =? _); [by left|].
  by eapply raises_flag; [| |apply drain_slot_raises].
Qed.

(** What [gapTimer] does to the slot of its topic and to the others. *)
Definition timer_slot (M t x : Z) (found : option bytes) (s : Slot) : Slot * list effect :=
  let s1 := mkSlot (nextSeq s) (pending s) 0 in
  if nextSeq s =? x then
    match found with
    | Some p => receive_slot M t x p s1
    | None => skip_slot t s1
    end
  else (s1, []).

Lemma gapTimer_on_slot o t x found :
  gapTimer (Some (repair_callback found)) o t x =
    on_slot o t (timer_slot (maxGapBuffer o) t x found).
Proof.
  unfold gapTimer, timer_slot, on_slot, repair_callback, Receive, skipGap, on_slot.
  destruct (Z.eqb_spec (nextSeq (slot o t)) x) as [->|]; [|done].
  destruct found as [p|]; rewrite slot_with_slot, decide_True by done; cbn [maxGapBuffer with_slot].
  - destruct (receive_slot _ _ _ _ _) as [s es]. by rewrite with_slot_twice.
  - destruct (skip_slot _ _) as [s es]. by rewrite with_slot_twice.
Qed.

Lemma timer_slot_raises M t x found s :
  raises t (mkSlot (nextSeq s) (pending s) 0) (timer_slot M t x found s).1 (timer_slot M t x found s).2.
Proof.
  unfold timer_slot. destruct (_ =? x); [|by left].
  destruct found; [apply receive_slot_raises|apply skip_slot_raises].
Qed.

(** Committing an operation on the slot of [t] that may raise its flag. *)
Lemma commit_timers_ok st t f ts arrived s0 :
  NoDup ts.*1 →
  (∀ t', t' ≠ t → timerFlag (slot (r_applier st) t') = if decide (t' ∈ ts.*1) then 1 else 0) →
  (timerFlag s0 = if decide (t ∈ ts.*1) then 1 else 0) →
  raises t s0 (f (slot (r_applier st) t)).1 (f (slot (r_applier st) t)).2 →
  timers_ok (commit st ts arrived (on_slot (r_applier st) t f)).
Proof.
  intros Hnd Hoth Hs0 Hr.
  destruct (on_slot_spec (r_applier st) t f) as (Hs & He & _ & Ho).
  destruct (on_slot _ _ _) as [o' es]; cbn [fst snd] in *. rewrite <- Hs, <- He in Hr.
  destruct Hr as [[Hf Ht]|(Hf0 & Hf1 & x & Ht)]; split; cbn [commit r_timers r_applier fst snd]; rewrite Ht.
  - by rewrite app_nil_r.
  - rewrite app_nil_r. intros t'. destruct (decide (t' = t)) as [->|Hne]; [by rewrite Hf|].
    by rewrite Ho, Hoth.
  - rewrite fmap_app. apply NoDup_app. split_and!; [done| |apply NoDup_singleton].
    cbn. intros t' Hin ->%list_elem_of_singleton. rewrite Hs0, decide_True in Hf0 by done. done.
  - rewrite fmap_app. intros t'. destruct (decide (t' = t)) as [->|Hne].
    + rewrite Hf1, decide_True by set_solver. done.
    + rewrite Ho, Hoth by done. cbn.
      repeat case_decide; try done; set_solver.
Qed.

Lemma do_action_timers_ok st a st' : timers_ok st → do_action st a = Some st' → timers_ok st'.
Proof.
  intros [Hnd Hfl]. destruct a as [t q p|i found|t q]; cbn [do_action]; intros Hdo.
  - injection Hdo as <-. unfold Receive. eapply commit_timers_ok; [done| |apply Hfl|apply receive_slot_raises].
    intros t' _. apply Hfl.
  - destruct (r_timers st !! i) as [[t x]|] eqn:Hi; cbn in Hdo; [|done]. injection Hdo as <-.
    rewrite gapTimer_on_slot.
    assert ((r_timers st).*1 ≡ₚ t :: (delete i (r_timers st)).*1) as Hperm.
    { rewrite <- fmap_cons with (f := fst) (x := (t, x)). f_equiv. by apply delete_Permutation. }
    pose proof Hnd as Hnd'. rewrite Hperm in Hnd'. apply NoDup_cons in Hnd' as [Hnin Hnd'].
    eapply commit_timers_ok; [done| | |apply timer_slot_raises].
    + intros t' Hne. rewrite Hfl. rewrite (decide_ext (t' ∈ (r_timers st).*1) (t' ∈ (delete i (r_timers st)).*1)).
      { done. } rewrite Hperm, elem_of_cons. naive_solver.
    + cbn. by rewrite decide_False.
  - injection Hdo as <-. unfold SetNextSeq. split; cbn; rewrite app_nil_r; [done|].
    intros t'. rewrite slot_with_slot. case_decide; subst; cbn; apply Hfl.
Qed.

(** ** Provenance: nothing is delivered that did not arrive, in every run *)

Definition arrived_ok (st : run_state) : Prop :=
  (∀ e, e ∈ r_log st → e ∈ r_arrived st) ∧
  ∀ t q p, pending (slot (r_applier st) t) !! q = Some p → (t, q, p) ∈ r_arrived st.

(** Deliveries and the new buffer come from the old buffer and [extra]. *)
Definition sourced (t : Z) (extra : list (Z * bytes)) (s s' : Slot) (es : list effect) : Prop :=
  (∀ t' q p, (t', q, p) ∈ deliveries es → t' = t ∧ (pending s !! q = Some p ∨ (q, p) ∈ extra)) ∧
  ∀ q p, pending s' !! q = Some p → pending s !! q = Some p ∨ (q, p) ∈ extra.

Lemma drain_loop_sourced fuel t s : sourced t [] s (drain_loop fuel t s).1 (drain_loop fuel t s).2.
Proof.
  revert s. induction fuel as [|fuel IH]; intros s; cbn [drain_loop].
  { split; [by intros ??? ?%elem_of_nil|by left]. }
  destruct (pending s !! nextSeq s) as [v|] eqn:Hv.
  2: { split; [by intros ??? ?%elem_of_nil|by left]. }
  specialize (IH (mkSlot (nextSeq s +64 1)%word (delete (nextSeq s) (pending s)) (timerFlag s))).
  destruct (drain_loop fuel t _) as [s' es]; cbn [fst snd pending] in *. destruct IH as [IH1 IH2].
  split.
  - intros t' q p [[= -> -> ->]|Hin]%elem_of_cons; [by eauto|].
    apply IH1 in Hin as [-> [?|?%elem_of_nil]]; [|done]. split; [done|left].
    by eapply lookup_delete_Some.
  - intros q p Hq. apply IH2 in Hq as [?|?%elem_of_nil]; [|done]. left. by eapply lookup_delete_Some.
Qed.

Lemma sourced_weaken t extra s s0 s' es :
  pending s0 = pending s → sourced t [] s s' es → sourced t extra s0 s' es.
Proof.
  intros Heq [H1 H2]. split.
  - intros t' q p [-> [?|?%elem_of_nil]]%H1; [|done]. rewrite Heq. auto.
  - intros q p [?|?%elem_of_nil]%H2; [|done]. rewrite Heq. auto.
Qed.

Lemma start_timer_sourced t x s s' es :
  sourced t [] s s' es →
  sourced t [] s (start_timer t x s').1 (es ++ (start_timer t x s').2).
Proof.
  destruct (start_timer_spec t x s') as (E1 & E2 & _). intros [H1 H2].
  destruct (start_timer t x s') as [s2 es2]; cbn [fst snd] in *; subst s2.
  split; [rewrite deliveries_app, E2, app_nil_r|]; done.
Qed.

Lemma drain_slot_sourced t s : sourced t [] s (drain_slot t s).1 (drain_slot t s).2.
Proof.
  unfold drain_slot. pose proof (drain_loop_sourced (size (pending s)) t s) as Hl.
  destruct (drain_loop _ t s) as [s1 es]; cbn [fst snd] in *.
  destruct (decide _); [done|]. apply (start_timer_sourced t (nextSeq s1)) in Hl.
  by destruct (start_timer _ _ _).
Qed.

Lemma sourced_deliver t q p s s' es :
  sourced t [(q, p)] s s' es → sourced t [(q, p)] s s' (Deliver t q p :: es).
Proof.
  intros [H1 H2]. split; [|done]. intros t' q' p' [[= -> -> ->]|?]%elem_of_cons; [|by apply H1].
  split; [done|right]. by apply list_elem_of_singleton.
Qed.

Lemma receive_slot_sourced M t q p s :
  sourced t [(q, p)] s (receive_slot M t q p s).1 (receive_slot M t q p s).2.
Proof.
  unfold receive_slot. destruct (q <? nextSeq s).
  { split; [by intros ??? ?%elem_of_nil|by left]. }
  destruct (nextSeq s <? q); [destruct (_ <=? _)|].
  - destruct (start_timer_spec t (nextSeq s) (mkSlot (nextSeq s) (<[q:=p]> (pending s)) (timerFlag s)))
      as (E1 & E2 & _).
    destruct (start_timer _ _ _) as [s2 es2]; cbn [fst snd] in *; subst s2.
    split; [rewrite E2; by intros ??? ?%elem_of_nil|]. cbn.
    intros q' p' [[<- <-]|[_ ?]]%lookup_insert_Some; [right; by apply list_elem_of_singleton|by left].
  - pose proof (drain_slot_sourced t (mkSlot (q +64 1)%word (pending s) (timerFlag s))) as Hd.
    destruct (drain_slot _ _). apply sourced_deliver. by eapply sourced_weaken; [|exact Hd].
  - pose proof (drain_slot_sourced t (mkSlot (nextSeq s +64 1)%word (pending s) (timerFlag s))) as Hd.
    destruct (drain_slot _ _). apply sourced_deliver. by eapply sourced_weaken; [|exact Hd].
Qed.

Lemma skip_slot_sourced t s : sourced t [] s (skip_slot t s).1 (skip_slot t s).2.
Proof.
  unfold skip_slot. destruct (_ =? _).
  { split; [by intros ??? ?%elem_of_nil|by left]. }
  by eapply sourced_weaken; [|apply drain_slot_sourced].
Qed.

Lemma timer_slot_sourced M t x found s :
  sourced t (match found with
             | Some p => if nextSeq s =? x then [(x, p)] else []
             | None => [] end) s
          (timer_slot M t x found s).1 (timer_slot M t x found s).2.
Proof.
  unfold timer_slot. destruct (nextSeq s =? x); [destruct found as [p|]|destruct found].
  - apply (receive_slot_sourced M t x p (mkSlot (nextSeq s) (pending s) 0)).
  - by eapply sourced_weaken; [|apply skip_slot_sourced].
  - split; [by intros ??? ?%elem_of_nil|by left].
  - split; [by intros ??? ?%elem_of_nil|by left].
Qed.

Lemma commit_arrived_ok st t f ts extra :
  arrived_ok st →
  sourced t extra (slot (r_applier st) t) (f (slot (r_applier st) t)).1 (f (slot (r_applier st) t)).2 →
  arrived_ok (commit st ts ((fun '(q, p) => (t, q, p)) <$> extra) (on_slot (r_applier st) t f)).
Proof.
  intros [Hlog Hpend] [H1 H2].
  destruct (on_slot_spec (r_applier st) t f) as (Hs & He & _ & Ho).
  destruct (on_slot _ _ _) as [o' es]; cbn [fst snd] in *. rewrite <- Hs in H2. rewrite <- He in H1.
  assert (∀ q p, pending (slot (r_applier st) t) !! q = Some p ∨ (q, p) ∈ extra →
            (t, q, p) ∈ r_arrived st ++ ((fun '(q, p) => (t, q, p)) <$> extra)) as Hin.
  { intros q p [Hp|Hp]; apply elem_of_app; [left; by apply Hpend|right].
    apply list_elem_of_fmap. by exists (q, p). }
  split; cbn [commit r_log r_arrived r_applier fst snd].
  - intros [[t' q] p] [?|Hd]%elem_of_app; [apply elem_of_app; left; by apply Hlog|].
    apply H1 in Hd as [-> ?]. by apply Hin.
  - intros t' q p Hp. destruct (decide (t' = t)) as [->|Hne]; [by apply Hin, H2|].
    rewrite Ho in Hp by done. apply elem_of_app. left. by apply Hpend.
Qed.

Lemma do_action_arrived_ok st a st' : arrived_ok st → do_action st a = Some st' → arrived_ok st'.
Proof.
  intros Hok. destruct a as [t q p|i found|t q]; cbn [do_action]; intros Hdo.
  - injection Hdo as <-. unfold Receive.
    apply (commit_arrived_ok st t _ _ [(q, p)] Hok), receive_slot_sourced.
  - destruct (r_timers st !! i) as [[t x]|]; cbn in Hdo; [|done]. injection Hdo as <-.
    rewrite gapTimer_on_slot.
    pose proof (commit_arrived_ok st t _ (delete i (r_timers st)) _ Hok
                  (timer_slot_sourced (maxGapBuffer (r_applier st)) t x found (slot (r_applier st) t))) as Hc.
    unfold NextSeq. destruct found as [p|]; [|exact Hc]. by destruct (_ =? x).
  - injection Hdo as <-. destruct Hok as [H1 H2]. split; cbn; rewrite !app_nil_r; [done|].
    intros t' q' p'. unfold SetNextSeq. rewrite slot_with_slot. case_decide; cbn; [by rewrite lookup_empty|apply H2].
Qed.

(** ** Order: small-gap runs deliver in increasing order *)

Definition log_seqs (t : Z) (log : list (Z * Z * bytes)) : list Z :=
  omap (fun '(t', q, _) => if decide (t' = t) then Some q else None) log.

Record run_ok (st : run_state) : Prop := {
  ro_gap : gap_ok (maxGapBuffer (r_applier st));
  ro_slot : ∀ t, slot_ok (maxGapBuffer (r_applier st)) (slot (r_applier st) t);
  ro_sorted : ∀ t, StronglySorted Z.lt (log_seqs t (r_log st));
  ro_below : ∀ t q, q ∈ log_seqs t (r_log st) → q < NextSeq (r_applier st) t;
}.

(** The deliveries are a run from some [a] not below the old expected number up
    to the new one. *)
Definition advances (t : Z) (s s' : Slot) (es : list effect) : Prop :=
  ∃ a ps, deliveries es = run_of t a ps ∧ nextSeq s ≤ a ∧ nextSeq s' = a + Z.of_nat (length ps).

Lemma log_seqs_app t l1 l2 : log_seqs t (l1 ++ l2) = log_seqs t l1 ++ log_seqs t l2.
Proof. apply omap_app. Qed.

Lemma log_seqs_run t t' a ps :
  log_seqs t' (run_of t a ps) = if decide (t = t') then seqZ a (Z.of_nat (length ps)) else [].
Proof.
  revert a. induction ps as [|p ps IH]; intros a; [by case_decide|].
  rewrite run_of_cons. cbn [length]. unfold log_seqs in *. csimpl. rewrite IH.
  rewrite Nat2Z.inj_succ. case_decide; [|done].
  rewrite (seqZ_cons a) by lia. by rewrite Z.pred_succ, <- Z.add_1_r.
Qed.

Lemma seqZ_sorted a n : StronglySorted Z.lt (seqZ a n).
Proof.
  apply Sorted_StronglySorted; [intros x y z; apply Z.lt_trans|]. revert a.
  destruct (decide (0 ≤ n)) as [Hn|Hn]; [|intros a; rewrite seqZ_nil by lia; constructor].
  revert n Hn. apply (natlike_ind (fun n => ∀ a, Sorted Z.lt (seqZ a n))).
  - intros a. rewrite seqZ_nil by lia. constructor.
  - intros n Hn IH a. rewrite seqZ_cons, Z.pred_succ by lia. constructor; [apply IH|].
    destruct (decide (n = 0)) as [->|]; [rewrite seqZ_nil by lia; constructor|].
    rewrite seqZ_cons by lia. constructor. lia.
Qed.

Lemma StronglySorted_app_lt l1 l2 b :
  StronglySorted Z.lt l1 → StronglySorted Z.lt l2 →
  (∀ x, x ∈ l1 → x < b) → (∀ x, x ∈ l2 → b ≤ x) → StronglySorted Z.lt (l1 ++ l2).
Proof.
  intros H1 H2 Hb1 Hb2. induction H1 as [|x l1 Hs IH Hf]; [done|]. cbn.
  constructor; [apply IH; set_solver|].
  apply Forall_app. split; [done|]. apply Forall_forall. intros y Hy%Hb2.
  specialize (Hb1 x ltac:(set_solver)). lia.
Qed.

(** Committing an advancing operation on the slot of [t]. *)
Lemma commit_run_ok st t f ts arrived :
  run_ok st →
  slot_ok (maxGapBuffer (r_applier st)) (f (slot (r_applier st) t)).1 →
  advances t (slot (r_applier st) t) (f (slot (r_applier st) t)).1 (f (slot (r_applier st) t)).2 →
  run_ok (commit st ts arrived (on_slot (r_applier st) t f)).
Proof.
  intros [Hg Hs Hso Hb] Hok' (a & ps & Hd & Ha & Hn').
  destruct (on_slot_spec (r_applier st) t f) as (Es & Ee & Eg & Eo).
  destruct (on_slot _ _ _) as [o' es]; cbn [fst snd] in *. rewrite <- Ee in Hd. rewrite <- Es in Hok', Hn'.
  split; cbn [commit r_log r_applier fst snd]; rewrite ?Eg; [done| | |].
  - intros t'. destruct (decide (t' = t)) as [->|Hne]; [done|]. by rewrite Eo.
  - intros t'. rewrite log_seqs_app, Hd, log_seqs_run. case_decide as Ht; [subst t'|by rewrite app_nil_r].
    apply (StronglySorted_app_lt _ _ (nextSeq (slot (r_applier st) t))); [done|apply seqZ_sorted|apply Hb|].
    intros x Hx%elem_of_seqZ. lia.
  - intros t' q. unfold NextSeq. rewrite log_seqs_app, Hd, log_seqs_run.
    case_decide as Ht; [subst t'|rewrite app_nil_r, Eo by done; apply Hb].
    intros [Hq|Hq%elem_of_seqZ]%elem_of_app; [|lia]. apply Hb in Hq. unfold NextSeq in Hq. lia.
Qed.

Lemma receive_slot_advances M t q p s :
  gap_ok M → slot_ok M s → 0 ≤ q < MaxUint64 → q ≤ nextSeq s + M →
  advances t s (receive_slot M t q p s).1 (receive_slot M t q p s).2.
Proof.
  intros HM Hok Hq Hgap. destruct (receive_slot_outcome M t q p s HM Hok Hq Hgap)
    as [Hlt|s' es Hlt -> Hd _|s' es ps Heq Hdr Hd _ _].
  - exists (nextSeq s), []. cbn. split_and!; [done|lia|lia].
  - exists (nextSeq s), []. rewrite Hd. cbn. split_and!; [done|lia|lia].
  - exists q, (p :: ps). rewrite Hd. split_and!; [done|lia|]. rewrite (dr_next _ _ _ _ Hdr). cbn. lia.
Qed.

(** Skipping a gap delivers the run that starts at the lowest buffered entry. *)
Lemma skip_slot_spec M t s :
  gap_ok M → slot_ok M s → pending s ≠ ∅ →
  let m := min_pending (pending s) in
  nextSeq s < m ∧ (∀ k, is_Some (pending s !! k) → m ≤ k) ∧
  slot_ok M (skip_slot t s).1 ∧
  ∃ p ps, drained t (mkSlot m (pending s) (timerFlag s)) (skip_slot t s).1 (p :: ps) ∧
    deliveries (skip_slot t s).2 = run_of t m (p :: ps) ∧
    (timerFlag s = 0 → pending (skip_slot t s).1 ≠ ∅ →
       timers_of (skip_slot t s).2 = [(t, nextSeq (skip_slot t s).1)]) ∧
    (pending (skip_slot t s).1 = ∅ → timers_of (skip_slot t s).2 = []).
Proof.
  intros HM Hok Hne m. pose proof (slot_ok_keys _ _ Hok) as Hk.
  destruct (min_pending_spec (pending s) Hk) as [[? _]|[[p Hp] Hmin]]; [done|]. fold m in Hp, Hmin.
  pose proof (so_pending _ _ Hok _ _ Hp) as Hm. pose proof (so_next _ _ Hok) as Hn.
  split_and!; [lia|done|..].
  all: unfold skip_slot; fold m; rewrite (proj2 (Z.eqb_neq _ _)) by lia.
  all: destruct (drain_slot_spec t (mkSlot m (pending s) (timerFlag s)) Hk) as (ps & Hdr & Hd & Hf & Ht);
    destruct (drain_slot t _) as [s' es]; cbn [fst snd nextSeq pending timerFlag] in *.
  - eapply (drained_ok M); [| | |exact Hdr]; cbn [nextSeq pending].
    + lia.
    + intros k x Hx. specialize (Hmin k (mk_is_Some _ _ Hx)). apply (so_pending _ _ Hok) in Hx. lia.
    + rewrite Hf. destruct (so_flag _ _ Hok) as [-> | ->]; case_bool_decide; auto.
  - destruct ps as [|p' ps].
    { exfalso. pose proof (dr_stop _ _ _ _ Hdr) as Hst. rewrite (dr_left _ _ _ _ Hdr) in Hst.
      rewrite (dr_next _ _ _ _ Hdr) in Hst. cbn in Hst.
      rewrite Z.add_0_r, decide_False in Hst by lia. congruence. }
    exists p', ps. split_and!; [done|done| |].
    + intros Hf0 Hne'. rewrite Ht, bool_decide_eq_false_2, Hf0 by done. done.
    + intros Hemp. rewrite Ht, bool_decide_eq_true_2 by done. done.
Qed.

Lemma skip_slot_empty t s : pending s = ∅ → skip_slot t s = (s, []).
Proof. unfold skip_slot, min_pending. intros ->. by rewrite map_to_list_empty. Qed.

Lemma skip_slot_advances M t s :
  gap_ok M → slot_ok M s → slot_ok M (skip_slot t s).1 ∧ advances t s (skip_slot t s).1 (skip_slot t s).2.
Proof.
  intros HM Hok. destruct (decide (pending s = ∅)) as [Hemp|Hne].
  - rewrite (skip_slot_empty t s Hemp). split; [done|]. exists (nextSeq s), []. cbn. split_and!; [done|lia|lia].
  - destruct (skip_slot_spec M t s HM Hok Hne) as (Hlt & _ & Hok' & p & ps & Hdr & Hd & _).
    split; [done|]. exists (min_pending (pending s)), (p :: ps). split_and!; [done|lia|].
    by rewrite (dr_next _ _ _ _ Hdr).
Qed.

Lemma slot_ok_flag M s f : f = 0 ∨ f = 1 → slot_ok M s → slot_ok M (mkSlot (nextSeq s) (pending s) f).
Proof. intros Hf [H1 H2 _]. by split. Qed.

Lemma do_action_run_ok st a st' :
  run_ok st → small_gap st a → do_action st a = Some st' → run_ok st'.
Proof.
  intros Hok. pose proof Hok as [Hg Hs Hso Hb]. destruct a as [t q p|i found|t q]; cbn [do_action small_gap]; intros Hsm Hdo.
  - destruct Hsm as [Hq Hgap]. injection Hdo as <-. unfold Receive.
    apply commit_run_ok; [done|by apply receive_slot_ok|by apply receive_slot_advances].
  - destruct (r_timers st !! i) as [[t x]|] eqn:Hi; cbn in Hdo; [|done]. injection Hdo as <-.
    rewrite gapTimer_on_slot.
    pose proof (slot_ok_flag _ _ 0 (or_introl eq_refl) (Hs t)) as Hs0.
    assert (slot_ok (maxGapBuffer (r_applier st)) (timer_slot (maxGapBuffer (r_applier st)) t x found (slot (r_applier st) t)).1 ∧
            advances t (slot (r_applier st) t) (timer_slot (maxGapBuffer (r_applier st)) t x found (slot (r_applier st) t)).1
              (timer_slot (maxGapBuffer (r_applier st)) t x found (slot (r_applier st) t)).2) as [H1 H2].
    { unfold timer_slot. destruct (Z.eqb_spec (nextSeq (slot (r_applier st) t)) x) as [<-|Hne].
      - destruct found as [p|]; [|exact (skip_slot_advances _ t _ Hg Hs0)].
        unfold NextSeq, gap_ok in *.
        pose proof (so_next _ _ (Hs t)).
        split; [apply receive_slot_ok; cbn; (done || lia)|].
        apply (receive_slot_advances _ t (nextSeq (slot (r_applier st) t)) p _ Hg Hs0); cbn; lia.
      - split; [done|]. exists (nextSeq (slot (r_applier st) t)), []. cbn. split_and!; [done|lia|lia]. }
    by apply commit_run_ok.
  - injection Hdo as <-. unfold SetNextSeq, NextSeq in *. pose proof (so_next _ _ (Hs t)).
    split; cbn [commit r_applier r_log fst snd with_slot maxGapBuffer]; [done|intros t'..].
    + rewrite slot_with_slot. case_decide; [|done]. apply slot_ok_empty; [lia|apply Hs].
    + rewrite app_nil_r. apply Hso.
    + intros q'. rewrite app_nil_r. intros Hq'%Hb. unfold NextSeq in *. rewrite slot_with_slot.
      case_decide; subst; cbn; lia.
Qed.

(** ** Progress: an undisturbed topic is drained by its timers *)

(** The sleeping timer of [t] expires and the repair callback finds nothing. *)
Definition fire (t : Z) (st : run_state) : option run_state :=
  '(i, _) ← list_find (fun tx => tx.1 = t) (r_timers st);
  do_action st (ActTimer i None).

Fixpoint fire_n (n : nat) (t : Z) (st : run_state) : option run_state :=
  match n with
  | O => Some st
  | S n' => st' ← fire t st; fire_n n' t st'
  end.

(** The sleeping timer was started for the number that is still expected. *)
Definition armed (t : Z) (st : run_state) : Prop := (t, NextSeq (r_applier st) t) ∈ r_timers st.

Lemma drained_entries t s s' ps q p :
  drained t s s' ps →
  (t, q, p) ∈ run_of t (nextSeq s) ps ↔ nextSeq s ≤ q < nextSeq s' ∧ pending s !! q = Some p.
Proof.
  intros [Hn Ht _ _]. rewrite elem_of_run_of. split.
  - intros (_ & Hq & Hp). pose proof (lookup_lt_Some _ _ _ Hp). split; [lia|].
    apply Ht in Hp. by replace (nextSeq s + Z.of_nat (Z.to_nat (q - nextSeq s))) with q in Hp by lia.
  - intros [Hq Hp]. split_and!; [done|lia|].
    destruct (lookup_lt_is_Some_2 ps (Z.to_nat (q - nextSeq s))) as [p' Hp']; [lia|].
    rewrite Hp'. apply Ht in Hp'.
    replace (nextSeq s + Z.of_nat (Z.to_nat (q - nextSeq s))) with q in Hp' by lia. congruence.
Qed.

Lemma drained_size t s s' p ps :
  drained t s s' (p :: ps) → (size (pending s') < size (pending s))%nat.
Proof.
  intros [Hn Ht Hl _]. apply map_subset_size. apply map_subset_alt. split.
  - apply map_subseteq_spec. intros k x Hk. rewrite Hl in Hk. by case_decide.
  - exists (nextSeq s). specialize (Ht 0%nat p eq_refl). rewrite Z.add_0_r in Ht. split; [|by eexists].
    rewrite Hl, decide_True by (cbn in Hn; lia). done.
Qed.

Lemma NoDup_fst_functional {A B} (l : list (A * B)) a b b' :
  NoDup l.*1 → (a, b) ∈ l → (a, b') ∈ l → b = b'.
Proof.
  intros Hnd (i & Hi)%list_elem_of_lookup (j & Hj)%list_elem_of_lookup.
  assert (i = j) as ->; [|congruence].
  eapply NoDup_lookup; [exact Hnd| |]; rewrite list_lookup_fmap; [rewrite Hi|rewrite Hj]; done.
Qed.

(** An armed timer whose repair finds nothing skips the gap. *)
Lemma expire_armed st t i :
  r_timers st !! i = Some (t, NextSeq (r_applier st) t) →
  let s := slot (r_applier st) t in
  let r := skip_slot t (mkSlot (nextSeq s) (pending s) 0) in
  do_action st (ActTimer i None) =
    Some (mkRun (with_slot (r_applier st) t r.1) (delete i (r_timers st) ++ timers_of r.2)
                (r_log st ++ deliveries r.2) (r_arrived st ++ [])).
Proof.
  intros Hi s r. cbn [do_action]. rewrite Hi. cbn [mbind option_bind].
  rewrite gapTimer_on_slot. unfold on_slot, timer_slot, NextSeq. fold s. rewrite Z.eqb_refl. fold r.
  by destruct r.
Qed.

(** One expiry of an armed timer delivers part of the buffer and re-arms. *)
Lemma fire_spec t st :
  run_ok st → timers_ok st → armed t st → pending (slot (r_applier st) t) ≠ ∅ →
  ∃ st' D, fire t st = Some st' ∧ run_ok st' ∧ timers_ok st' ∧ r_log st' = r_log st ++ D ∧
    (size (pending (slot (r_applier st') t)) < size (pending (slot (r_applier st) t)))%nat ∧
    (pending (slot (r_applier st') t) ≠ ∅ → armed t st') ∧
    ∀ t' q p, (t', q, p) ∈ D ∨ t' = t ∧ pending (slot (r_applier st') t) !! q = Some p ↔
      t' = t ∧ pending (slot (r_applier st) t) !! q = Some p.
Proof.
  intros Hok Htm Harm Hne. unfold armed in Harm.
  destruct (list_find_elem_of (fun tx => tx.1 = t) (r_timers st) _ Harm eq_refl) as [[i [t' x]] Hfind].
  pose proof Hfind as Hfind'. apply list_find_Some in Hfind' as (Hi & Hti & _). cbn in Hti. subst t'.
  assert (x = NextSeq (r_applier st) t) as ->.
  { apply list_elem_of_lookup_2 in Hi. by eapply NoDup_fst_functional; [apply Htm|..]. }
  set (s := slot (r_applier st) t) in *.
  pose proof (slot_ok_flag _ _ 0 (or_introl eq_refl) (ro_slot _ Hok t)) as Hs0. fold s in Hs0.
  destruct (skip_slot_spec _ t _ (ro_gap _ Hok) Hs0 Hne) as (_ & Hmin & _ & p & ps & Hdr & Hd & Htn & _).
  pose proof (expire_armed st t i Hi) as Hdo. cbn [nextSeq pending timerFlag] in *. fold s in Hdo.
  set (r := skip_slot t (mkSlot (nextSeq s) (pending s) 0)) in *.
  eexists _, _. split_and!; [unfold fire; rewrite Hfind; exact Hdo|
    by eapply (do_action_run_ok _ (ActTimer i None)); [exact Hok| |exact Hdo]|
    by eapply do_action_timers_ok; [exact Htm|exact Hdo]|reflexivity|..];
    cbn [r_applier r_timers r_log]; rewrite ?slot_with_slot, ?decide_True by done.
  - exact (drained_size _ _ _ _ _ Hdr).
  - intros Hne'. unfold armed, NextSeq; cbn [r_applier r_timers].
    rewrite slot_with_slot, decide_True, (Htn eq_refl Hne') by done. set_solver.
  - intros t' q p'. rewrite Hd, (dr_left _ _ _ _ Hdr). cbn [nextSeq pending].
    destruct (decide (t' = t)) as [->|Hnt].
    + rewrite (drained_entries _ _ _ _ q p' Hdr). cbn [nextSeq pending].
      case_decide; naive_solver.
    + rewrite elem_of_run_of. naive_solver.
Qed.

Lemma fire_n_drains n t st :
  (size (pending (slot (r_applier st) t)) ≤ n)%nat →
  run_ok st → timers_ok st → (pending (slot (r_applier st) t) ≠ ∅ → armed t st) →
  ∃ k st' D, (k ≤ n)%nat ∧ fire_n k t st = Some st' ∧ run_ok st' ∧
    pending (slot (r_applier st') t) = ∅ ∧ r_log st' = r_log st ++ D ∧
    ∀ t' q p, (t', q, p) ∈ D ↔ t' = t ∧ pending (slot (r_applier st) t) !! q = Some p.
Proof.
  revert st. induction n as [|n IH]; intros st Hsz Hok Htm Harm;
    destruct (decide (pending (slot (r_applier st) t) = ∅)) as [Hemp|Hne].
  1, 3: exists 0%nat, st, []; rewrite app_nil_r, Hemp; split_and!; [lia|done..|].
  1, 2: intros; rewrite elem_of_nil, lookup_empty; naive_solver.
  { exfalso. apply Hne, map_size_empty_inv. lia. }
  destruct (fire_spec t st Hok Htm (Harm Hne) Hne) as (st1 & D1 & Hf & Hok1 & Htm1 & Hl1 & Hsz1 & Ha1 & Hin1).
  destruct (IH st1 ltac:(lia) Hok1 Htm1 Ha1) as (k & st2 & D2 & Hk & Hf2 & Hok2 & Hemp2 & Hl2 & Hin2).
  exists (S k), st2, (D1 ++ D2). split_and!; [lia| |done|done|by rewrite Hl2, Hl1, app_assoc|].
  - cbn [fire_n]. by rewrite Hf.
  - intros t' q p. rewrite elem_of_app, Hin2. apply Hin1.
Qed.

Lemma log_seqs_sorted_app t l D :
  StronglySorted Z.lt (log_seqs t (l ++ D)) → StronglySorted Z.lt (log_seqs t D).
Proof.
  rewrite log_seqs_app. induction (log_seqs t l) as [|x l' IH]; [done|].
  cbn. intros [Hs _]%StronglySorted_inv. by apply IH.
Qed.

(** ** Starting points and reachability *)

(** The applier as the engine configures it, before any traffic. *)
Definition fresh (o : OrderedApplier) : Prop := slots o = ∅ ∧ gap_ok (maxGapBuffer o).

Lemma fresh_slot o t : fresh o → slot o t = emptySlot.
Proof. intros [H _]. unfold slot. by rewrite H, lookup_empty. Qed.

Lemma startRun_ok o : fresh o → run_ok (startRun o) ∧ timers_ok (startRun o) ∧ arrived_ok (startRun o).
Proof.
  intros Hf. split_and!; split; cbn; try (intros t); rewrite ?(fresh_slot o t Hf).
  - apply Hf.
  - by apply slot_ok_empty; [|left].
  - constructor.
  - intros q ?%elem_of_nil. done.
  - constructor.
  - done.
  - by intros ?%elem_of_nil.
  - intros q p. cbn. by rewrite lookup_empty.
Qed.

Lemma reachable_timers_arrived o st :
  fresh o → rtc step (startRun o) st → timers_ok st ∧ arrived_ok st.
Proof.
  intros Hf Hrun. eapply (rtc_ind_r (fun st => timers_ok st ∧ arrived_ok st)); [| |exact Hrun].
  - apply (startRun_ok o Hf).
  - intros ? ? _ [st1 a st2 Hdo] [H1 H2]. split; [by eapply do_action_timers_ok|by eapply do_action_arrived_ok].
Qed.

Lemma reachable_run_ok o st :
  fresh o → rtc small_step (startRun o) st → run_ok st ∧ timers_ok st ∧ arrived_ok st.
Proof.
  intros Hf Hrun. eapply (rtc_ind_r (fun st => run_ok st ∧ timers_ok st ∧ arrived_ok st)); [| |exact Hrun].
  - apply (startRun_ok o Hf).
  - intros ? ? _ [st1 a st2 Hsm Hdo] (H1 & H2 & H3).
    split_and!; [by eapply do_action_run_ok|by eapply do_action_timers_ok|by eapply do_action_arrived_ok].
Qed.

Lemma slot_ok_size M s : gap_ok M → slot_ok M s → Z.of_nat (size (pending s)) ≤ M.
Proof.
  unfold gap_ok. intros HM [_ Hp _].
  assert (dom (pending s) ⊆ (list_to_set (seqZ (nextSeq s + 1) M) : gset Z)) as Hsub.
  { intros k [x Hx]%elem_of_dom. apply elem_of_list_to_set, elem_of_seqZ. apply Hp in Hx. lia. }
  apply subseteq_size in Hsub. rewrite size_dom, size_list_to_set, length_seqZ in Hsub by apply NoDup_seqZ. lia.
Qed.

(** ** Theorems *)

(** Executable runs, for the concrete scenarios below. *)
Lemma do_actions_steps st acts st' : do_actions st acts = Some st' → rtc step st st'.
Proof.
  revert st. induction acts as [|a acts IH]; intros st; cbn [do_actions]; [by intros [= ->]|].
  destruct (do_action st a) as [st1|] eqn:Hdo; cbn; [|done]. intros H.
  eapply rtc_l; [by econstructor|by apply IH].
Qed.

Fixpoint small_gaps (st : run_state) (acts : list action) : Prop :=
  match acts with
  | [] => True
  | a :: acts' => small_gap st a ∧ match do_action st a with Some st' => small_gaps st' acts' | None => True end
  end.

Lemma do_actions_small_steps st acts st' :
  small_gaps st acts → do_actions st acts = Some st' → rtc small_step st st'.
Proof.
  revert st. induction acts as [|a acts IH]; intros st; cbn [do_actions small_gaps]; [by intros _ [= ->]|].
  destruct (do_action st a) as [st1|] eqn:Hdo; cbn; [|by intros [_ _]]. intros [Hs Hss] H.
  eapply rtc_l; [by econstructor|by apply IH].
Qed.

(** In every run whose gaps stay within [maxGapBuffer], each topic's
    deliveries have strictly increasing sequence numbers, so no entry is
    delivered twice or after a later one, whatever the timers and repairs do. *)
Theorem delivery_in_order (o : OrderedApplier) (st : run_state) (t : Z) :
  fresh o → rtc small_step (startRun o) st →
  StronglySorted Z.lt (log_seqs t (r_log st)) ∧
  ∀ q, q ∈ log_seqs t (r_log st) → q < NextSeq (r_applier st) t.
Proof.
  intros Hf Hrun. destruct (reachable_run_ok o st Hf Hrun) as ([_ _ Hs Hb] & _). split; [apply Hs|apply Hb].
Qed.

(** Entry 1 is lost: 2 and 4 arrive, the timer finds 1 by repair, then 3 arrives. *)
Definition repaired_run : list action :=
  [ActSetNext 0 1; ActReceive 0 2 [x62]; ActReceive 0 4 [x64]; ActTimer 0 (Some [x61]); ActReceive 0 3 [x63]].

Lemma delivery_in_order_witness :
  match do_actions (startRun NewOrderedApplier) repaired_run with
  | Some st => log_seqs 0 (r_log st) = [1; 2; 3; 4] ∧ StronglySorted Z.lt (log_seqs 0 (r_log st))
  | None => False
  end.
Proof.
  destruct (do_actions (startRun NewOrderedApplier) repaired_run) as [st|] eqn:E; [|by vm_compute in E].
  destruct (delivery_in_order NewOrderedApplier st 0) as [H _].
  - by vm_compute.
  - apply (do_actions_small_steps _ repaired_run); [|exact E]. vm_compute. by split_and!.
  - split; [|exact H]. vm_compute in E. by injection E as <-.
Defined.

(** C32: In every run of a new applier, with its timers, repairs and resets, whose gaps
    stay within [maxGapBuffer], whose numbers stay below 2^64-1 and in which the
    expected number is only reset forward ([small_step]), the buffer of a topic only
    holds numbers after the expected one and within [maxGapBuffer] of it, so it
    holds at most [maxGapBuffer] entries. *)
Theorem pending_bounded (o : OrderedApplier) (st : run_state) (t : Z) :
  fresh o → rtc small_step (startRun o) st →
  (∀ k, is_Some (pending (slot (r_applier st) t) !! k) →
     NextSeq (r_applier st) t < k ≤ NextSeq (r_applier st) t + maxGapBuffer (r_applier st)) ∧
  Z.of_nat (size (pending (slot (r_applier st) t))) ≤ maxGapBuffer (r_applier st).
Proof.
  intros Hf Hrun. destruct (reachable_run_ok o st Hf Hrun) as ([Hg Hs _ _] & _). split.
  - intros k [x Hx]. apply (so_pending _ _ (Hs t) k x Hx).
  - by apply slot_ok_size.
Qed.

Lemma pending_bounded_witness :
  match do_actions (startRun NewOrderedApplier) [ActReceive 0 64 []; ActReceive 0 2 []] with
  | Some st => Z.of_nat (size (pending (slot (r_applier st) 0))) ≤ maxGapBuffer (r_applier st)
  | None => False
  end.
Proof.
  destruct (do_actions _ _) as [st|] eqn:E; [|by vm_compute in E].
  apply (pending_bounded NewOrderedApplier st 0).
  - by vm_compute.
  - eapply do_actions_small_steps; [|exact E]. by vm_compute.
Defined.

(** In every run, whatever the gaps, everything delivered was passed to
    [Receive] with that topic, number and payload; and a topic's timer flag is
    raised exactly while one [gapTimer] goroutine of the topic sleeps. *)
Theorem delivered_arrived_timers_unique (o : OrderedApplier) (st : run_state) :
  fresh o → rtc step (startRun o) st →
  (∀ e, e ∈ r_log st → e ∈ r_arrived st) ∧
  NoDup (r_timers st).*1 ∧
  ∀ t, timerFlag (slot (r_applier st) t) = if decide (t ∈ (r_timers st).*1) then 1 else 0.
Proof.
  intros Hf Hrun. destruct (reachable_timers_arrived o st Hf Hrun) as [[H1 H2] [H3 _]]. auto.
Qed.

Lemma delivered_arrived_timers_unique_witness :
  match do_actions (startRun NewOrderedApplier) repaired_run with
  | Some st => NoDup (r_timers st).*1
  | None => False
  end.
Proof.
  destruct (do_actions _ _) as [st|] eqn:E; [|by vm_compute in E].
  apply (delivered_arrived_timers_unique NewOrderedApplier st).
  - by vm_compute.
  - by eapply do_actions_steps.
Defined.

(** C22: Progress.  In every run of [small_step]s, if the sleeping
    timer of a topic was started for the number still expected, then its successive expiries, with no arrival and no repair,
    deliver every buffered entry of the topic, in increasing order, within as
    many expiries as there are entries, and leave the buffer empty. *)
Theorem gap_timers_drain (o : OrderedApplier) (st : run_state) (t : Z) :
  fresh o → rtc small_step (startRun o) st → armed t st →
  ∃ k st' D, (k ≤ size (pending (slot (r_applier st) t)))%nat ∧ fire_n k t st = Some st' ∧
    pending (slot (r_applier st') t) = ∅ ∧ r_log st' = r_log st ++ D ∧
    (∀ t' q p, (t', q, p) ∈ D ↔ t' = t ∧ pending (slot (r_applier st) t) !! q = Some p) ∧
    StronglySorted Z.lt (log_seqs t D).
Proof.
  intros Hf Hrun Harm. destruct (reachable_run_ok o st Hf Hrun) as (Hok & Htm & _).
  destruct (fire_n_drains _ t st (Nat.le_refl _) Hok Htm (fun _ => Harm))
    as (k & st' & D & Hk & Hfi & Hok' & Hemp & Hl & Hin).
  exists k, st', D. split_and!; try done.
  eapply log_seqs_sorted_app. rewrite <- Hl. apply Hok'.
Qed.

Lemma gap_timers_drain_witness :
  match do_actions (startRun NewOrderedApplier) [ActSetNext 0 1; ActReceive 0 3 [x63]; ActReceive 0 7 [x67]] with
  | Some st => ∃ k st', (k ≤ 2)%nat ∧ fire_n k 0 st = Some st' ∧ pending (slot (r_applier st') 0) = ∅
  | None => False
  end.
Proof.
  destruct (do_actions _ _) as [st|] eqn:E; [|by vm_compute in E].
  destruct (gap_timers_drain NewOrderedApplier st 0) as (k & st' & D & Hk & Hfi & Hemp & _).
  - by vm_compute.
  - eapply do_actions_small_steps; [|exact E]. vm_compute. by split_and!.
  - vm_compute in E. injection E as <-. by left.
  - exists k, st'. split_and!; [|exact Hfi|exact Hemp]. vm_compute in E. injection E as <-. exact Hk.
Defined.

(** The flag discipline can strand a buffered entry. With 1 expected, entry
    3 arrives and starts a timer for 1; entry 1 arrives, and the drain finds 3
    still buffered but the flag raised, so starts no timer for the gap at 2; the
    old timer then expires, sees that the expected number changed, and returns.
    Entry 3 stays buffered with no timer, no repair request for 2, and nothing
    sleeping that could deliver it. *)
Theorem secondary_gap_stranded :
  ∃ st, rtc small_step (startRun NewOrderedApplier) st ∧
    log_seqs 0 (r_log st) = [1] ∧
    pending (slot (r_applier st) 0) = {[3 := [x63]]} ∧
    timerFlag (slot (r_applier st) 0) = 0 ∧ r_timers st = [].
Proof.
  destruct (do_actions (startRun NewOrderedApplier)
    [ActSetNext 0 1; ActReceive 0 3 [x63]; ActReceive 0 1 [x61]; ActTimer 0 None]) as [st|] eqn:E;
    [|by vm_compute in E].
  exists st. split; [eapply do_actions_small_steps; [|exact E]; vm_compute; by split_and!|].
  vm_compute in E. injection E as <-. by vm_compute.
Qed.

(** A gap too large to buffer breaks the order. With 1 expected and 3
    buffered, entry 100 is delivered at once and 3 stays buffered below the new
    expected number; after 101 is delivered and the topic falls silent, the gap
    timer skips back to 3: it is delivered after 100 and 101, and the expected
    number goes back from 102 to 4. *)
Theorem large_gap_reorders :
  ∃ st, rtc step (startRun NewOrderedApplier) st ∧
    log_seqs 0 (r_log st) = [100; 101; 3] ∧ NextSeq (r_applier st) 0 = 4.
Proof.
  destruct (do_actions (startRun NewOrderedApplier)
    [ActSetNext 0 1; ActReceive 0 3 [x63]; ActReceive 0 100 []; ActTimer 0 None; ActReceive 0 101 [];
     ActTimer 0 None]) as [st|] eqn:E; [|by vm_compute in E].
  exists st. split; [by eapply do_actions_steps|]. vm_compute in E. by injection E as <-.
Qed.
