(* ===== verification/OrderedConc.v ===== *)
(** * Concurrent calls into one topic of the applier (src/engine/ordered.go)

    [OrderedApplier] has no lock: its methods and timers run in goroutines of
    their own and meet on three shared cells of a topic, the atomic [nextSeq],
    the [sync.Map] of buffered entries and the atomic timer flag.  Here every
    access to a cell, every [deliver] call and every key a [Range] yields is one
    step of a thread, and a run is any interleaving of the threads' steps.

    [Range] is as documented: no key is visited twice, a key present from the
    start to the end of the call is visited, and a key stored or deleted meanwhile
    may or may not be.  The calls a repair callback makes are threads like any
    other; the callback itself only answers whether the gap was filled.

    The theorems: what holds in every interleaving (nothing is invented,
    duplicated or lost without trace, one sleeping timer per raised flag), that
    a thread that runs undisturbed does what the atomic method of [Ordered]
    does, and three interleavings with an outcome no order of the atomic methods
    has. *)

From stdpp Require Import fin_sets.
From S2P Require Import Prelude Ordered OrderedSpec.

#[local] Open Scope Z_scope.

(** ** Threads *)

(** A [Range] under way: keys it still has to yield, keys it has yielded. *)
Record scan := mkScan { todo : gset Z; visited : gset Z }.

Definition startScan (s : Slot) : scan := mkScan (dom (pending s)) ∅.

(** Where a goroutine is: the access it makes next. *)
Inductive pc :=
| ReceiveLoad (seq : Z) (payload : bytes)
| ReceiveStore (expected seq : Z) (payload : bytes)
| ReceiveJump (seq : Z) (payload : bytes)
| ReceiveJumpSet (seq : Z)
| ReceiveDeliver (seq : Z) (payload : bytes)
| Advance
| StartTimer (expected : Z)
| DrainLoad
| DrainTake (next : Z)
| DrainDeliver (next : Z) (val : bytes)
| DrainRange
| DrainScan (sc : scan)
| DrainExpected
| TimerWake (expectedAtStart : Z)
| TimerLoad (expectedAtStart : Z)
| TimerRepair (current : Z)
| SkipRange
| SkipScan (sc : scan) (minPending : Z)
| SkipStore (minPending : Z)
| ResetStore (seq : Z)
| ResetRange
| ResetScan (sc : scan)
| ResetDelete (key : Z) (sc : scan)
| Done.

(** What the scheduler, the map and the callback decide in a step. *)
Inductive choice :=
| Go
| Visit (key : Z)
| Skip (key : Z)
| Stop
| Filled (b : bool).

Inductive reason := TooOld | Overwritten | Cleared.

(** Where an entry passed to [Receive] ended: delivered, or dropped. *)
Inductive event :=
| Delivered (seq : Z) (payload : bytes)
| Dropped (why : reason) (seq : Z) (payload : bytes).

(** [Range] yields a key it has not yielded, present now or at the start. *)
Definition scan_visit (s : Slot) (sc : scan) (k : Z) : option scan :=
  if decide ((k ∉ visited sc) ∧ (k ∈ todo sc ∨ k ∈ dom (pending s)))
  then Some (mkScan (todo sc ∖ {[k]}) ({[k]} ∪ visited sc)) else None.

(** [Range] passes over a key that was deleted meanwhile. *)
Definition scan_skip (s : Slot) (sc : scan) (k : Z) : option scan :=
  if decide (k ∈ todo sc ∧ pending s !! k = None)
  then Some (mkScan (todo sc ∖ {[k]}) ({[k]} ∪ visited sc)) else None.

Definition set_next (s : Slot) (n : Z) : Slot := mkSlot n (pending s) (timerFlag s).
Definition set_pending (s : Slot) (p : gmap Z bytes) : Slot := mkSlot (nextSeq s) p (timerFlag s).
Definition set_flag (s : Slot) (f : Z) : Slot := mkSlot (nextSeq s) (pending s) f.

(** What storing or deleting under a key removes. *)
Definition displaced (why : reason) (s : Slot) (k : Z) : list event :=
  match pending s !! k with Some p => [Dropped why k p] | None => [] end.

(** The shared slot, the thread's next access, the goroutines it started, and
    the entries that reached their end. *)
Record outcome := mkOutcome {
  o_slot : Slot;
  o_pc : pc;
  o_go : list pc;
  o_events : list event;
}.

Definition goto (s : Slot) (p : pc) : option outcome := Some (mkOutcome s p [] []).

(** One access of one goroutine; [None] when it cannot make this step. *)
Definition thread_step (maxGap : Z) (ch : choice) (s : Slot) (p : pc) : option outcome :=
  match p, ch with
  (* Receive *)
  | ReceiveLoad seq payload, Go =>
      let expected := nextSeq s in
      if seq <? expected then Some (mkOutcome s Done [] [Dropped TooOld seq payload])
      else if expected <? seq then
        if (seq -64 expected)%word <=? u64 maxGap then goto s (ReceiveStore expected seq payload)
        else goto s (ReceiveJump seq payload)
      else goto s (ReceiveDeliver seq payload)
  | ReceiveStore expected seq payload, Go =>
      Some (mkOutcome (set_pending s (<[seq := payload]> (pending s))) (StartTimer expected) []
              (displaced Overwritten s seq))
  | StartTimer expected, Go =>
      if timerFlag s =? 0
      then Some (mkOutcome (set_flag s 1) Done [TimerWake expected] [])
      else goto s Done
  | ReceiveJump seq payload, Go => Some (mkOutcome s (ReceiveJumpSet seq) [] [Delivered seq payload])
  | ReceiveJumpSet seq, Go => goto (set_next s (seq +64 1)%word) DrainLoad
  | ReceiveDeliver seq payload, Go => Some (mkOutcome s Advance [] [Delivered seq payload])
  | Advance, Go => goto (set_next s (nextSeq s +64 1)%word) DrainLoad
  (* drainPending *)
  | DrainLoad, Go => goto s (DrainTake (nextSeq s))
  | DrainTake next, Go =>
      match pending s !! next with
      | Some val => goto (set_pending s (delete next (pending s))) (DrainDeliver next val)
      | None => goto s DrainRange
      end
  | DrainDeliver next val, Go => Some (mkOutcome s Advance [] [Delivered next val])
  | DrainRange, Go => goto s (DrainScan (startScan s))
  | DrainScan sc, Visit k => _ ← scan_visit s sc k; goto s DrainExpected
  | DrainScan sc, Skip k => sc' ← scan_skip s sc k; goto s (DrainScan sc')
  | DrainScan sc, Stop => if decide (todo sc = ∅) then goto s Done else None
  | DrainExpected, Go => goto s (StartTimer (nextSeq s))
  (* gapTimer *)
  | TimerWake x, Go => goto (set_flag s 0) (TimerLoad x)
  | TimerLoad x, Go => goto s (if nextSeq s =? x then TimerRepair x else Done)
  | TimerRepair _, Filled b => goto s (if b then Done else SkipRange)
  (* skipGap *)
  | SkipRange, Go => goto s (SkipScan (startScan s) MaxUint64)
  | SkipScan sc m, Visit k =>
      sc' ← scan_visit s sc k; goto s (SkipScan sc' (if k <? m then k else m))
  | SkipScan sc m, Skip k => sc' ← scan_skip s sc k; goto s (SkipScan sc' m)
  | SkipScan sc m, Stop =>
      if decide (todo sc = ∅) then goto s (if m =? MaxUint64 then Done else SkipStore m) else None
  | SkipStore m, Go => goto (set_next s m) DrainLoad
  (* SetNextSeq *)
  | ResetStore seq, Go => goto (set_next s seq) ResetRange
  | ResetRange, Go => goto s (ResetScan (startScan s))
  | ResetScan sc, Visit k => sc' ← scan_visit s sc k; goto s (ResetDelete k sc')
  | ResetScan sc, Skip k => sc' ← scan_skip s sc k; goto s (ResetScan sc')
  | ResetScan sc, Stop => if decide (todo sc = ∅) then goto s Done else None
  | ResetDelete k sc, Go =>
      Some (mkOutcome (set_pending s (delete k (pending s))) (ResetScan sc) [] (displaced Cleared s k))
  | _, _ => None
  end.

(** ** Interleavings *)

Record conc := mkConc {
  cSlot : Slot;
  cThreads : list pc;
  cEvents : list event;
}.

Inductive call :=
| CallReceive (seq : Z) (payload : bytes)
| CallSetNextSeq (seq : Z).

Definition call_pc (c : call) : pc :=
  match c with
  | CallReceive seq payload => ReceiveLoad seq payload
  | CallSetNextSeq seq => ResetStore seq
  end.

(** The calls are made at any time: a thread may wait before its first step. *)
Definition startConc (s : Slot) (calls : list call) : conc := mkConc s (call_pc <$> calls) [].

Definition conc_step (maxGap : Z) (i : nat) (ch : choice) (c : conc) : option conc :=
  p ← cThreads c !! i;
  o ← thread_step maxGap ch (cSlot c) p;
  Some (mkConc (o_slot o) (<[i := o_pc o]> (cThreads c) ++ o_go o) (cEvents c ++ o_events o)).

Inductive step (maxGap : Z) : conc → conc → Prop :=
| step_thread i ch c c' : conc_step maxGap i ch c = Some c' → step maxGap c c'.

Fixpoint run_sched (maxGap : Z) (sched : list (nat * choice)) (c : conc) : option conc :=
  match sched with
  | [] => Some c
  | (i, ch) :: sched' => c' ← conc_step maxGap i ch c; run_sched maxGap sched' c'
  end.

Lemma run_sched_rtc M sched c c' : run_sched M sched c = Some c' → rtc (step M) c c'.
Proof.
  revert c. induction sched as [|[i ch] sched IH]; intros c Hrun; cbn -[conc_step] in Hrun.
  - by simplify_eq.
  - destruct (conc_step M i ch c) as [c1|] eqn:Hst; cbn -[conc_step] in Hrun; [|done].
    eapply rtc_l; [by econstructor|eauto].
Qed.

Definition finished (c : conc) : Prop := Forall (fun p => p = Done) (cThreads c).

Definition ev_entry (e : event) : Z * bytes :=
  match e with Delivered q p => (q, p) | Dropped _ q p => (q, p) end.

Definition delivered (es : list event) : list (Z * bytes) :=
  omap (fun e => match e with Delivered q p => Some (q, p) | Dropped _ _ _ => None end) es.

(** The entry a thread has in hand. *)
Definition held (p : pc) : list (Z * bytes) :=
  match p with
  | ReceiveLoad q x | ReceiveStore _ q x | ReceiveJump q x | ReceiveDeliver q x | DrainDeliver q x => [(q, x)]
  | _ => []
  end.

Definition received (calls : list call) : list (Z * bytes) := calls ≫= (fun c => held (call_pc c)).

(** ** Lemmas: no entry is invented or lost *)

Lemma map_to_list_overwrite (p : gmap Z bytes) k x :
  map_to_list (<[k := x]> p) ≡ₚ (k, x) :: map_to_list (delete k p).
Proof. rewrite <- insert_delete_eq. apply map_to_list_insert, lookup_delete_eq. Qed.

Lemma displaced_entries why s k :
  (ev_entry <$> displaced why s k) ++ map_to_list (delete k (pending s)) ≡ₚ map_to_list (pending s).
Proof.
  unfold displaced. destruct (pending s !! k) as [x|] eqn:E; cbn.
  - by apply map_to_list_delete.
  - by rewrite delete_id.
Qed.

(** Unfolds one step of a thread at a known access, with the equations of its tests. *)
Ltac step_case ch H :=
  destruct ch; unfold thread_step, goto in H; cbv beta iota in H; try discriminate H; simplify_option_eq;
  repeat match type of H with
  | context [if ?b then _ else _] => destruct b eqn:?; simplify_option_eq
  | context [match ?b with Some _ => _ | None => _ end] => destruct b eqn:?; simplify_option_eq
  end.

Ltac step_cases p ch H := destruct p; step_case ch H.

Lemma thread_step_entries M ch s p o :
  thread_step M ch s p = Some o →
  (ev_entry <$> o_events o) ++ map_to_list (pending (o_slot o)) ++ held (o_pc o)
    ≡ₚ map_to_list (pending s) ++ held p ∧
  (o_go o ≫= held) = [].
Proof.
  intros H. step_cases p ch H; cbn -[displaced]; split; repeat case_match; cbn -[displaced];
    rewrite ?app_nil_r; try done.
  - apply Permutation_cons_append.
  - rewrite map_to_list_overwrite, <- Permutation_middle, displaced_entries. apply Permutation_cons_append.
  - apply Permutation_cons_append.
  - apply Permutation_cons_append.
  - rewrite <- Permutation_cons_append. by apply map_to_list_delete.
  - apply Permutation_cons_append.
  - by apply displaced_entries.
Qed.

(** Replacing an element exchanges what it contributes. *)
Lemma bind_insert_Permutation {A B} (f : A → list B) (l : list A) i x y :
  l !! i = Some x → f x ++ (<[i := y]> l ≫= f) ≡ₚ f y ++ (l ≫= f).
Proof.
  intros Hi. rewrite <- (take_drop_middle l i x Hi) at 2.
  rewrite insert_take_drop by (by eapply lookup_lt_Some).
  rewrite !bind_app; csimpl. rewrite !(Permutation_app_swap_app (take i l ≫= f)).
  apply Permutation_app_swap_app.
Qed.

(** Every entry is delivered or dropped, buffered, or in a thread's hand. *)
Definition entries (c : conc) : list (Z * bytes) :=
  (ev_entry <$> cEvents c) ++ map_to_list (pending (cSlot c)) ++ (cThreads c ≫= held).

Lemma conc_step_inv M i ch c c' :
  conc_step M i ch c = Some c' →
  ∃ p o, cThreads c !! i = Some p ∧ thread_step M ch (cSlot c) p = Some o ∧
    c' = mkConc (o_slot o) (<[i := o_pc o]> (cThreads c) ++ o_go o) (cEvents c ++ o_events o).
Proof. unfold conc_step. intros H. simplify_option_eq. eauto. Qed.

Lemma step_entries M c c' : step M c c' → entries c' ≡ₚ entries c.
Proof.
  intros [i ch c1 c2 (p & o & Hi & Hst & ->)%conc_step_inv]. unfold entries; cbn.
  destruct (thread_step_entries _ _ _ _ _ Hst) as [Hent Hgo].
  rewrite fmap_app, bind_app, Hgo, app_nil_r, <- app_assoc. f_equiv.
  apply (Permutation_app_inv_l (held p)).
  rewrite !(Permutation_app_swap_app (held p)), (bind_insert_Permutation held _ _ _ _ Hi).
  rewrite (app_assoc (map_to_list (pending (o_slot o)))), app_assoc, Hent.
  by rewrite <- app_assoc.
Qed.

Lemma run_entries M s calls c :
  rtc (step M) (startConc s calls) c → entries c ≡ₚ map_to_list (pending s) ++ received calls.
Proof.
  intros Hrun. eapply (rtc_ind_r (fun c => entries c ≡ₚ _)); [| |exact Hrun].
  - unfold entries, startConc, received; cbn. f_equiv.
    clear Hrun. induction calls as [|a calls IH]; [done|]. csimpl. by f_equiv.
  - intros c1 c2 _ Hst IH. by rewrite (step_entries _ _ _ Hst).
Qed.

(** What is lost of a run whose entries have distinct numbers was too old. *)
Definition is_reset (p : pc) : bool :=
  match p with ResetStore _ | ResetRange | ResetScan _ | ResetDelete _ _ => true | _ => false end.

Definition too_old (e : event) : Prop :=
  match e with Delivered _ _ => True | Dropped why _ _ => why = TooOld end.

Lemma thread_step_too_old M ch s p o :
  thread_step M ch s p = Some o → is_reset p = false →
  (∀ k x y, (k, x) ∈ held p → pending s !! k = Some y → False) →
  is_reset (o_pc o) = false ∧ Forall (fun p => is_reset p = false) (o_go o) ∧ Forall too_old (o_events o).
Proof.
  intros H Hr Hk. step_cases p ch H; cbn -[displaced] in *; repeat case_match;
    try (split_and!; by repeat constructor).
  split_and!; [done..|]. unfold displaced. destruct (pending s !! _) as [y|] eqn:E; [|done].
  exfalso. eapply Hk; [by apply list_elem_of_singleton|exact E].
Qed.

Definition no_resets (c : conc) : Prop :=
  Forall (fun p => is_reset p = false) (cThreads c) ∧ Forall too_old (cEvents c).

Lemma step_no_resets M c c' :
  step M c c' → NoDup (entries c).*1 → no_resets c → no_resets c'.
Proof.
  intros [i ch c1 c2 (p & o & Hi & Hst & ->)%conc_step_inv] Hnd [Hth Hev].
  rewrite Forall_lookup in Hth.
  destruct (thread_step_too_old _ _ _ _ _ Hst (Hth _ _ Hi)) as (H1 & H2 & H3).
  - intros k x y Hx Hy. unfold entries in Hnd.
    rewrite !fmap_app in Hnd. apply NoDup_app in Hnd as (_ & _ & Hnd).
    apply NoDup_app in Hnd as (_ & Hnd & _). apply (Hnd k).
    + apply list_elem_of_fmap. exists (k, y). split; [done|]. by apply elem_of_map_to_list.
    + apply list_elem_of_fmap. exists (k, x). split; [done|]. apply list_elem_of_bind.
      exists p. split; [done|]. by eapply list_elem_of_lookup_2.
  - split; cbn; apply Forall_app; split; try done. apply Forall_insert; [by apply Forall_lookup|done].
Qed.

(** ** Lemmas: one sleeping timer per raised flag *)

Definition sleeping (p : pc) : Prop := match p with TimerWake _ => True | _ => False end.

#[export] Instance sleeping_dec p : Decision (sleeping p).
Proof. destruct p; apply _. Defined.

Definition sleepers (ps : list pc) : nat := length (filter sleeping ps).

Lemma thread_step_flag M ch s p o :
  thread_step M ch s p = Some o →
  if decide (sleeping p) then timerFlag (o_slot o) = 0 ∧ sleepers (o_pc o :: o_go o) = 0%nat
  else (timerFlag (o_slot o) = timerFlag s ∧ sleepers (o_pc o :: o_go o) = 0%nat) ∨
       (timerFlag s = 0 ∧ timerFlag (o_slot o) = 1 ∧ sleepers (o_pc o :: o_go o) = 1%nat).
Proof.
  intros H. unfold sleepers. step_cases p ch H; cbn; repeat case_match; try by auto.
  right. split; [by apply Z.eqb_eq|done].
Qed.

Lemma sleepers_singleton p : sleepers [p] = if decide (sleeping p) then 1%nat else 0%nat.
Proof. unfold sleepers. rewrite filter_cons. by case_decide. Qed.

Lemma sleepers_app ps qs : sleepers (ps ++ qs) = (sleepers ps + sleepers qs)%nat.
Proof. unfold sleepers. by rewrite filter_app, length_app. Qed.

Lemma sleepers_cons p ps : sleepers (p :: ps) = (sleepers [p] + sleepers ps)%nat.
Proof. apply (sleepers_app [p]). Qed.

Lemma sleepers_insert ps i p q :
  ps !! i = Some p → (sleepers [p] + sleepers (<[i := q]> ps) = sleepers [q] + sleepers ps)%nat.
Proof.
  intros Hi. rewrite <- (take_drop_middle ps i p Hi) at 2.
  rewrite insert_take_drop by (by eapply lookup_lt_Some).
  rewrite !sleepers_app, !(sleepers_cons _ (drop _ _)). lia.
Qed.

Definition timers_counted (c : conc) : Prop :=
  timerFlag (cSlot c) = Z.of_nat (sleepers (cThreads c)) ∧ timerFlag (cSlot c) ≤ 1.

Lemma step_timers M c c' : step M c c' → timers_counted c → timers_counted c'.
Proof.
  intros [i ch c1 c2 (p & o & Hi & Hst & ->)%conc_step_inv] [Hc H1].
  unfold timers_counted; cbn [cSlot cThreads].
  pose proof (thread_step_flag _ _ _ _ _ Hst) as Hf. pose proof (sleepers_insert _ _ _ (o_pc o) Hi) as Hs.
  rewrite sleepers_app. rewrite (sleepers_cons _ (o_go o)) in Hf.
  rewrite (sleepers_singleton p) in Hs. case_decide; lia.
Qed.

Lemma sleepers_calls calls : sleepers (call_pc <$> calls) = 0%nat.
Proof. induction calls as [|[q x|q] calls IH]; [done|..]; rewrite fmap_cons, sleepers_cons, IH; done. Qed.

Lemma run_timers M s calls c :
  timerFlag s = 0 → rtc (step M) (startConc s calls) c → timers_counted c.
Proof.
  intros Hz Hrun. eapply (rtc_ind_r timers_counted); [| |exact Hrun].
  - unfold timers_counted; cbn [startConc cSlot cThreads]. rewrite Hz. rewrite sleepers_calls. lia.
  - eauto using step_timers.
Qed.

(** ** A thread that runs undisturbed *)

(** The effects of a step, as the atomic methods return them. *)
Definition effects (topic : Z) (o : outcome) : list effect :=
  omap (fun e => match e with Delivered q x => Some (Deliver topic q x) | Dropped _ _ _ => None end) (o_events o) ++
  omap (fun p => match p with TimerWake x => Some (GoGapTimer topic x) | _ => None end) (o_go o).

(** Steps of one thread alone; a callback it calls answers [filled]. *)
Inductive solo (M topic : Z) (filled : bool) : nat → Slot → pc → list effect → Slot → pc → Prop :=
| solo_refl s p : solo M topic filled 0 s p [] s p
| solo_step n s p ch o es s' p' :
    ch ≠ Filled (negb filled) → thread_step M ch s p = Some o →
    solo M topic filled n (o_slot o) (o_pc o) es s' p' →
    solo M topic filled (S n) s p (effects topic o ++ es) s' p'.

(** What the atomic methods do from each access on. *)
Definition cons_effect (e : effect) (r : Slot * list effect) : Slot * list effect := (r.1, e :: r.2).

Definition finish_repair (topic : Z) (filled : bool) (s : Slot) : Slot * list effect :=
  if filled then (s, []) else skip_slot topic s.

Definition finish_range (topic : Z) (s : Slot) : Slot * list effect :=
  if decide (pending s = ∅) then (s, []) else start_timer topic (nextSeq s) s.

Definition finish (M topic : Z) (filled : bool) (s : Slot) (p : pc) : Slot * list effect :=
  match p with
  | ReceiveLoad q x => receive_slot M topic q x s
  | ReceiveStore e q x => start_timer topic e (set_pending s (<[q := x]> (pending s)))
  | StartTimer e => start_timer topic e s
  | ReceiveJump q x => cons_effect (Deliver topic q x) (drain_slot topic (set_next s (q +64 1)%word))
  | ReceiveJumpSet q => drain_slot topic (set_next s (q +64 1)%word)
  | ReceiveDeliver q x | DrainDeliver q x =>
      cons_effect (Deliver topic q x) (drain_slot topic (set_next s (nextSeq s +64 1)%word))
  | Advance => drain_slot topic (set_next s (nextSeq s +64 1)%word)
  | DrainLoad | DrainTake _ => drain_slot topic s
  | DrainRange | DrainScan _ => finish_range topic s
  | DrainExpected => start_timer topic (nextSeq s) s
  | TimerWake x =>
      if nextSeq s =? x then finish_repair topic filled (set_flag s 0) else (set_flag s 0, [])
  | TimerLoad x => if nextSeq s =? x then finish_repair topic filled s else (s, [])
  | TimerRepair _ => finish_repair topic filled s
  | SkipRange | SkipScan _ _ => skip_slot topic s
  | SkipStore m => drain_slot topic (set_next s m)
  | ResetStore q => (mkSlot q ∅ (timerFlag s), [])
  | ResetRange | ResetScan _ | ResetDelete _ _ => (set_pending s ∅, [])
  | Done => (s, [])
  end.

Lemma drain_slot_take topic s x :
  pending s !! nextSeq s = Some x →
  drain_slot topic s = cons_effect (Deliver topic (nextSeq s) x)
    (drain_slot topic (mkSlot (nextSeq s +64 1)%word (delete (nextSeq s) (pending s)) (timerFlag s))).
Proof.
  intros Hx. unfold drain_slot, cons_effect. cbn [pending].
  assert (size (pending s) = S (size (delete (nextSeq s) (pending s)))) as ->.
  { rewrite map_size_delete_Some by eauto. assert (size (pending s) ≠ 0%nat); [|lia].
    apply map_size_ne_0_lookup. eauto. }
  cbn [drain_loop]. rewrite Hx. destruct (drain_loop _ _ _) as [s1 es].
  case_decide; [done|]. by destruct (start_timer _ _ _).
Qed.

Lemma drain_slot_stop topic s :
  pending s !! nextSeq s = None →
  drain_slot topic s = finish_range topic s.
Proof.
  intros Hx. unfold drain_slot, finish_range.
  assert (drain_loop (size (pending s)) topic s = (s, [])) as ->.
  { destruct (size (pending s)); cbn; [done|by rewrite Hx]. }
  case_decide; [done|]. by destruct (start_timer _ _ _).
Qed.

(** The lowest buffered key, or the largest word if there is no lower one. *)
Definition is_min (p : gmap Z bytes) (m : Z) : Prop :=
  m ≤ MaxUint64 ∧ (m = MaxUint64 ∨ m ∈ dom p) ∧ ∀ k, k ∈ dom p → m ≤ k.

Lemma is_min_unique p m1 m2 : is_min p m1 → is_min p m2 → m1 = m2.
Proof. intros (La & [->|Ha] & Ma) (Lb & [->|Hb] & Mb); try apply Z.le_antisymm; eauto. Qed.

Lemma min_pending_is_min p : is_min p (min_pending p).
Proof.
  assert (∀ l, let m := foldr (fun kv m => if (kv : Z * bytes).1 <? m then kv.1 else m) MaxUint64 l in
    m ≤ MaxUint64 ∧ (m = MaxUint64 ∨ m ∈ l.*1) ∧ ∀ k, k ∈ l.*1 → m ≤ k) as Hfold.
  { induction l as [|[k x] l (H1 & H2 & H3)]; cbn.
    - split_and!; [done|by left|]. by intros ? ?%elem_of_nil.
    - destruct (Z.ltb_spec k (foldr (fun kv m => if (kv : Z * bytes).1 <? m then kv.1 else m) MaxUint64 l)).
      + split_and!; [lia|set_solver|]. intros k' [->|Hk]%elem_of_cons; [done|]. specialize (H3 k' Hk). lia.
      + split_and!; [done|set_solver|]. intros k' [->|Hk]%elem_of_cons; [done|]. by apply H3. }
  destruct (Hfold (map_to_list p)) as (H1 & H2 & H3). unfold is_min, min_pending. cbn in *.
  assert (∀ k, k ∈ (map_to_list p).*1 ↔ k ∈ dom p) as Hdom.
  { intros k. rewrite elem_of_dom, list_elem_of_fmap. split.
    - intros ([k' x] & -> & Hx%elem_of_map_to_list). eauto.
    - intros [x Hx]. exists (k, x). by rewrite elem_of_map_to_list. }
  setoid_rewrite Hdom in H3. rewrite Hdom in H2. done.
Qed.

(** What an undisturbed thread knows of the slot at each access. *)
Definition scan_ok (s : Slot) (sc : scan) : Prop :=
  todo sc ⊆ dom (pending s) ∧ todo sc ## visited sc ∧ dom (pending s) ⊆ todo sc ∪ visited sc.

Definition solo_ok (s : Slot) (p : pc) : Prop :=
  match p with
  | DrainTake n => n = nextSeq s
  | DrainDeliver n _ => n = nextSeq s
  | DrainScan sc => scan_ok s sc ∧ todo sc = dom (pending s)
  | SkipScan sc m =>
      scan_ok s sc ∧ m ≤ MaxUint64 ∧ (m = MaxUint64 ∨ m ∈ dom (pending s)) ∧
      ∀ k, k ∈ dom (pending s) → k ∈ todo sc ∨ m ≤ k
  | ResetScan sc => todo sc ## visited sc ∧ todo sc = dom (pending s)
  | ResetDelete k sc => todo sc ## visited sc ∧ todo sc = dom (pending s) ∖ {[k]}
  | _ => True
  end.

Lemma startScan_ok s : scan_ok s (startScan s).
Proof. unfold scan_ok, startScan; cbn. set_solver. Qed.

Lemma scan_skip_none s sc k : todo sc ⊆ dom (pending s) → scan_skip s sc k = None.
Proof.
  intros Hs. unfold scan_skip. rewrite decide_False; [done|].
  intros [Hk%Hs Hn]. by apply not_elem_of_dom in Hn.
Qed.

Lemma scan_visit_inv s sc k sc' :
  scan_visit s sc k = Some sc' →
  (k ∉ visited sc) ∧ (k ∈ todo sc ∨ k ∈ dom (pending s)) ∧ sc' = mkScan (todo sc ∖ {[k]}) ({[k]} ∪ visited sc).
Proof. unfold scan_visit. intros. case_decide; naive_solver. Qed.

Lemma scan_visit_ok s sc k sc' :
  scan_ok s sc → scan_visit s sc k = Some sc' → k ∈ todo sc ∧ scan_ok s sc'.
Proof.
  intros (H1 & H2 & H3) (Hv & Hk & ->)%scan_visit_inv. unfold scan_ok; cbn.
  split; [set_solver|]. split_and!; [set_solver..|]. intros k' Hk'. apply H3 in Hk'.
  destruct (decide (k' = k)); set_solver.
Qed.

Lemma skip_visit_ok s sc m k sc' :
  solo_ok s (SkipScan sc m) → scan_visit s sc k = Some sc' →
  solo_ok s (SkipScan sc' (if k <? m then k else m)).
Proof.
  intros (Hsc & Hm & Hin & Hle) Hv.
  destruct (scan_visit_ok _ _ _ _ Hsc Hv) as [Hk Hsc']. apply scan_visit_inv in Hv as (_ & _ & ->).
  assert (k ∈ dom (pending s)) by (by apply Hsc).
  split_and!; [done|destruct (Z.ltb_spec k m); lia|destruct (k <? m); by auto|].
  intros k' Hk'. cbn. destruct (Hle k' Hk'); destruct (decide (k' = k)), (Z.ltb_spec k m); subst; set_solver by lia.
Qed.

(** A step keeps what the thread knows. *)
Lemma thread_step_solo_ok M ch s p o :
  solo_ok s p → thread_step M ch s p = Some o → solo_ok (o_slot o) (o_pc o).
Proof.
  intros Hok H. step_cases p ch H; cbn [o_slot o_pc]; try done; try (by repeat case_match);
    try (rewrite scan_skip_none in Heqo0; [done|]).
  - split; [apply startScan_ok|done].
  - apply Hok.
  - split; [apply startScan_ok|]. split_and!; [done|by left|]. cbn. auto.
  - by eapply skip_visit_ok.
  - apply Hok.
  - destruct Hok as [H1 H2]. apply scan_visit_inv in Heqo0 as (_ & _ & ->). cbn. set_solver.
  - by destruct Hok as [_ ->].
  - destruct Hok as [H1 H2]. cbn. by rewrite dom_delete_L, <- H2.
Qed.

Lemma skip_scan_min s sc m : solo_ok s (SkipScan sc m) → todo sc = ∅ → m = min_pending (pending s).
Proof.
  intros (_ & Hm & Hin & Hle) Htodo. eapply is_min_unique; [|apply min_pending_is_min].
  split_and!; [done..|]. intros k Hk. destruct (Hle k Hk); [set_solver|done].
Qed.

(** The effects of a step, then what the atomic method has left to do. *)
Definition after (M topic : Z) (filled : bool) (o : outcome) : Slot * list effect :=
  ((finish M topic filled (o_slot o) (o_pc o)).1,
   effects topic o ++ (finish M topic filled (o_slot o) (o_pc o)).2).

Lemma receive_step_finish M topic filled s q x o :
  thread_step M Go s (ReceiveLoad q x) = Some o →
  receive_slot M topic q x s = after M topic filled o.
Proof.
  intros H. unfold after, receive_slot. cbn [thread_step] in H. unfold goto in H.
  destruct (q <? nextSeq s); [|destruct (nextSeq s <? q); [destruct (_ <=? _)|]]; simplify_eq; cbn [o_slot o_pc finish];
    try done; try (by destruct (drain_slot _ _)); by destruct (start_timer _ _ _).
Qed.

Lemma skip_stop_finish M topic filled s sc m :
  solo_ok s (SkipScan sc m) → todo sc = ∅ →
  skip_slot topic s = finish M topic filled s (if m =? MaxUint64 then Done else SkipStore m).
Proof.
  intros Hok Ht. unfold skip_slot. rewrite <- (skip_scan_min _ _ _ Hok Ht). by destruct (m =? _).
Qed.

Lemma effects_displaced topic s s' p why k : effects topic (mkOutcome s' p [] (displaced why s k)) = [].
Proof. unfold effects, displaced; cbn. by destruct (pending s !! k). Qed.

Lemma thread_step_finish M topic filled ch s p o :
  solo_ok s p → ch ≠ Filled (negb filled) → thread_step M ch s p = Some o →
  finish M topic filled s p = after M topic filled o.
Proof.
  intros Hok Hch H.
  assert (∀ s' p', after M topic filled (mkOutcome s' p' [] []) = finish M topic filled s' p') as Hgoto.
  { intros. unfold after. by destruct (finish _ _ _ _ _). }
  assert (∀ s' p' why k, after M topic filled (mkOutcome s' p' [] (displaced why s k)) =
            finish M topic filled s' p') as Hdis.
  { intros. unfold after. rewrite effects_displaced. by destruct (finish _ _ _ _ _). }
  destruct p; try (destruct ch; try done; by apply receive_step_finish).
  all: step_case ch H.
  all: rewrite ?Hgoto, ?Hdis; try done.
  all: cbn [finish finish_repair]; unfold start_timer, finish_range.
  - by rewrite Heqb.
  - by rewrite Heqb.
  - by rewrite (drain_slot_take _ _ _ Heqo0).
  - by apply drain_slot_stop.
  - apply scan_visit_inv in Heqo0 as (_ & Hk & _). rewrite decide_False; [done|].
    intros Hemp. destruct Hok as [_ Ht]. rewrite Ht, Hemp in Hk. set_solver.
  - destruct Hok as [_ Ht]. rewrite decide_True; [done|]. apply dom_empty_inv_L. congruence.
  - by destruct (nextSeq s =? _).
  - destruct filled, b; done.
  - by eapply skip_stop_finish.
  - destruct Hok as [_ Ht]. destruct s as [n p f]; unfold set_pending; cbn in *.
    assert (p = ∅) as -> by (apply dom_empty_inv_L; congruence). done.
Qed.

(** The most steps an undisturbed thread has left. *)
Definition steps_left (s : Slot) (p : pc) : nat :=
  let n := size (pending s) in
  match p with
  | ReceiveLoad _ _ => 4 * n + 9
  | ReceiveStore _ _ _ => 2
  | ReceiveJump _ _ | ReceiveDeliver _ _ | DrainDeliver _ _ => 4 * n + 8
  | ReceiveJumpSet _ | Advance | SkipStore _ => 4 * n + 7
  | StartTimer _ => 1
  | DrainLoad => 4 * n + 6
  | DrainTake _ => 4 * n + 5
  | DrainRange => 4
  | DrainScan _ => 3
  | DrainExpected => 2
  | TimerWake _ => 5 * n + 12
  | TimerLoad _ => 5 * n + 11
  | TimerRepair _ => 5 * n + 10
  | SkipRange => 5 * n + 9
  | SkipScan sc _ => 4 * n + 8 + size (todo sc)
  | ResetStore _ => 2 * n + 3
  | ResetRange => 2 * n + 2
  | ResetScan sc => 2 * size (todo sc) + 1
  | ResetDelete _ sc => 2 * size (todo sc) + 2
  | Done => 0
  end%nat.

Lemma size_visit (X : gset Z) k : k ∈ X → (size (X ∖ {[k]}) + 1 = size X)%nat.
Proof.
  intros Hk. pose proof (size_union {[k]} (X ∖ {[k]}) ltac:(set_solver)) as Hs.
  rewrite <- union_difference_L, size_singleton in Hs by set_solver. lia.
Qed.

Lemma size_take (p : gmap Z bytes) k x : p !! k = Some x → (size (delete k p) + 1 = size p)%nat.
Proof.
  intros Hx. rewrite map_size_delete_Some by eauto.
  assert (size p ≠ 0%nat); [|lia]. apply map_size_ne_0_lookup. eauto.
Qed.

Lemma thread_step_left M ch s p o :
  solo_ok s p → thread_step M ch s p = Some o →
  (steps_left (o_slot o) (o_pc o) < steps_left s p)%nat.
Proof.
  intros Hok H. step_cases p ch H; try (rewrite scan_skip_none in Heqo0; [done|]).
  all: cbn [o_slot o_pc]; repeat case_match; unfold steps_left;
    cbn [pending set_next set_flag set_pending startScan todo]; rewrite ?size_dom; try lia.
  - pose proof (size_take _ _ _ Heqo0). lia.
  - apply Hok.
  - destruct Hok as [Hsc _]. destruct (scan_visit_ok _ _ _ _ Hsc Heqo0) as [Hk _].
    apply scan_visit_inv in Heqo0 as (_ & _ & ->). pose proof (size_visit _ _ Hk). cbn. lia.
  - apply Hok.
  - apply scan_visit_inv in Heqo0 as (_ & Hk & ->). destruct Hok as [_ Hd].
    pose proof (size_visit (todo sc) key ltac:(set_solver)). cbn. lia.
  - by destruct Hok as [_ ->].
Qed.

(** An undisturbed thread that has not returned can make a step. *)
Lemma solo_progress M filled s p :
  solo_ok s p → p = Done ∨ ∃ ch o, ch ≠ Filled (negb filled) ∧ thread_step M ch s p = Some o.
Proof.
  intros Hok. destruct p; try (by left); right.
  all: try (exists Go; unfold thread_step; repeat case_match; by eauto).
  all: try (exists (Filled filled); eexists; split; [by destruct filled|done]).
  all: destruct (decide (todo sc = ∅)) as [Ht|[k Hk]%set_choose_L];
    [exists Stop; cbn; rewrite decide_True by done; by eauto|].
  all: exists (Visit k); cbn; unfold scan_visit; rewrite decide_True; [by eauto|].
  all: destruct Hok; unfold scan_ok in *; set_solver.
Qed.

Lemma solo_spec M topic filled n s p es s' p' :
  solo M topic filled n s p es s' p' → solo_ok s p →
  solo_ok s' p' ∧ (n + steps_left s' p' ≤ steps_left s p)%nat ∧
  finish M topic filled s p = ((finish M topic filled s' p').1, es ++ (finish M topic filled s' p').2).
Proof.
  induction 1 as [s p|n s p ch o es s' p' Hch Hst _ IH]; intros Hok.
  - split_and!; [done|lia|by destruct (finish _ _ _ _ _)].
  - destruct IH as (H1 & H2 & H3); [by eapply thread_step_solo_ok|].
    pose proof (thread_step_left _ _ _ _ _ Hok Hst).
    rewrite (thread_step_finish _ _ _ _ _ _ _ Hok Hch Hst). unfold after. rewrite H3; cbn.
    split_and!; [done|lia|by rewrite app_assoc].
Qed.

(** Every undisturbed thread returns, having done what the atomic method does. *)
Lemma solo_returns M topic filled s p :
  solo_ok s p →
  ∃ n, (n ≤ steps_left s p)%nat ∧
    solo M topic filled n s p (finish M topic filled s p).2 (finish M topic filled s p).1 Done.
Proof.
  remember (steps_left s p) as k eqn:Hk. revert s p Hk.
  induction (lt_wf k) as [k _ IH]. intros s p -> Hok.
  destruct (solo_progress M filled s p Hok) as [->|(ch & o & Hch & Hst)].
  { exists 0%nat. split; [lia|]. constructor. }
  pose proof (thread_step_left _ _ _ _ _ Hok Hst) as Hlt.
  destruct (IH _ Hlt _ _ eq_refl (thread_step_solo_ok _ _ _ _ _ Hok Hst)) as (n & Hn & Hsolo).
  exists (S n). split; [lia|]. rewrite (thread_step_finish _ topic _ _ _ _ _ Hok Hch Hst).
  by econstructor.
Qed.

(** ** Theorems *)

Definition is_receive (c : call) : bool := match c with CallReceive _ _ => true | CallSetNextSeq _ => false end.

Lemma delivered_submseteq es : delivered es ⊆+ ev_entry <$> es.
Proof.
  induction es as [|[q x|w q x] es IH]; cbn; [done| |].
  - by apply submseteq_skip.
  - by apply submseteq_cons.
Qed.

Lemma run_no_resets M s calls c :
  Forall is_receive calls → NoDup (map_to_list (pending s) ++ received calls).*1 →
  rtc (step M) (startConc s calls) c → no_resets c.
Proof.
  intros Hrecv Hnd Hrun.
  cut (rtc (step M) (startConc s calls) c ∧ no_resets c); [tauto|].
  eapply (rtc_ind_r (fun c => rtc (step M) (startConc s calls) c ∧ no_resets c)); [| |exact Hrun].
  - split; [done|]. split; [|by constructor]. cbn. apply Forall_fmap.
    eapply Forall_impl; [exact Hrecv|]. by intros [].
  - intros c1 c2 _ Hst [Hr Hn]. split; [by eapply rtc_r|].
    eapply step_no_resets; [done| |done].
    by rewrite (run_entries _ _ _ _ Hr).
Qed.

(** C4: In every interleaving of concurrent [Receive] calls with distinct
    sequence numbers, the gap timers they start and any answers of the repair
    callback: no entry is delivered twice or invented; every entry is delivered,
    buffered, still in a goroutine's hand, or was dropped because a later number
    was expected when it arrived; and one goroutine sleeps per raised timer flag. *)
Theorem interleaved_receives_safe (M : Z) (s : Slot) (calls : list call) (c : conc) :
  Forall is_receive calls →
  NoDup (map_to_list (pending s) ++ received calls).*1 →
  timerFlag s = 0 →
  rtc (step M) (startConc s calls) c →
  NoDup (delivered (cEvents c)).*1 ∧
  (ev_entry <$> cEvents c) ++ map_to_list (pending (cSlot c)) ++ (cThreads c ≫= held)
    ≡ₚ map_to_list (pending s) ++ received calls ∧
  Forall too_old (cEvents c) ∧
  timerFlag (cSlot c) = Z.of_nat (sleepers (cThreads c)) ∧ timerFlag (cSlot c) ≤ 1.
Proof.
  intros Hrecv Hnd Hz Hrun.
  pose proof (run_entries _ _ _ _ Hrun) as Hent.
  destruct (run_no_resets _ _ _ _ Hrecv Hnd Hrun) as [_ Hold].
  destruct (run_timers _ _ _ _ Hz Hrun) as [Hf H1].
  split_and!; [|done..].
  rewrite <- Hent in Hnd. unfold entries in Hnd. rewrite fmap_app in Hnd.
  apply NoDup_app in Hnd as [Hnd _].
  destruct (submseteq_Permutation _ _ (delivered_submseteq (cEvents c))) as [k Hk].
  rewrite Hk, fmap_app in Hnd. by apply NoDup_app in Hnd as [Hnd _].
Qed.

(** Two calls and the timer they start; the later number is loaded against first. *)
Definition overlapping_calls : list call := [CallReceive 5 [x00]; CallReceive 6 [x01]].

Definition missed_wakeup : list (nat * choice) :=
  [(1, Go); (0, Go); (0, Go); (0, Go); (0, Go); (0, Go); (0, Go); (0, Stop);
   (1, Go); (1, Go); (2, Go); (2, Go)]%nat.

Lemma interleaved_receives_safe_witness :
  match run_sched 64 missed_wakeup (startConc (mkSlot 5 ∅ 0) overlapping_calls) with
  | Some c => NoDup (delivered (cEvents c)).*1 ∧ timerFlag (cSlot c) ≤ 1
  | None => False
  end.
Proof.
  destruct (run_sched 64 missed_wakeup _) as [c|] eqn:E; [|by vm_compute in E].
  destruct (interleaved_receives_safe 64 (mkSlot 5 ∅ 0) overlapping_calls c) as (H1 & _ & _ & _ & H2).
  - repeat constructor.
  - apply (bool_decide_eq_true_1 _). vm_compute. reflexivity.
  - reflexivity.
  - eapply run_sched_rtc, E.
  - split; [exact H1|exact H2].
Defined.

(** The atomic method of a goroutine that starts at [p]; a repair callback that
    a timer calls answers [filled]. *)
Definition atomic_method (filled : bool) (o : OrderedApplier) (topic : Z) (p : pc) :
    option (OrderedApplier * list effect) :=
  match p with
  | ReceiveLoad seq payload => Some (Receive o topic seq payload)
  | TimerWake x => Some (gapTimer (Some (fun o _ _ => (filled, o, []))) o topic x)
  | ResetStore seq => Some (SetNextSeq o topic seq, [])
  | _ => None
  end.

Lemma atomic_method_finish filled o topic p r :
  atomic_method filled o topic p = Some r →
  let f := finish (maxGapBuffer o) topic filled (slot o topic) p in
  solo_ok (slot o topic) p ∧
  (steps_left (slot o topic) p ≤ 5 * size (pending (slot o topic)) + 12)%nat ∧
  r = (with_slot o topic f.1, f.2).
Proof.
  destruct p; cbn [atomic_method finish steps_left]; intros [= <-]; (split; [done|]); (split; [lia|]).
  - unfold Receive, on_slot. by destruct (receive_slot _ _ _ _ _).
  - unfold gapTimer, skipGap, on_slot, finish_repair. change (mkSlot _ _ 0) with (set_flag (slot o topic) 0).
    destruct (_ =? _); [|done]. destruct filled; [done|].
    rewrite slot_with_slot, decide_True by done. destruct (skip_slot _ _). by rewrite with_slot_twice.
  - done.
Qed.

(** C8: A goroutine that meets no other does exactly what the atomic method
    does: whatever order [Range] yields the keys in, it returns within a bounded
    number of steps, with the state, the deliveries and the started timers of
    [Receive], [gapTimer] or [SetNextSeq]. *)
Theorem undisturbed_is_atomic (o : OrderedApplier) (topic : Z) (filled : bool) (p : pc)
    (o' : OrderedApplier) (es : list effect) :
  atomic_method filled o topic p = Some (o', es) →
  let run n := solo (maxGapBuffer o) topic filled n (slot o topic) p in
  let bound := (5 * size (pending (slot o topic)) + 12)%nat in
  (∃ n, (n ≤ bound)%nat ∧ run n es (slot o' topic) Done) ∧
  (∀ n es' s' p', run n es' s' p' →
     (n ≤ bound)%nat ∧ (p' = Done → es' = es ∧ with_slot o topic s' = o')).
Proof.
  intros (Hok & Hle & [= -> ->])%atomic_method_finish run bound. split.
  - destruct (solo_returns (maxGapBuffer o) topic filled (slot o topic) p Hok) as (n & Hn & Hsolo).
    exists n. split; [lia|]. by rewrite slot_with_slot, decide_True.
  - intros n es' s' p' Hsolo. destruct (solo_spec _ _ _ _ _ _ _ _ _ Hsolo Hok) as (_ & Hn & Hfin).
    split; [lia|]. intros ->. rewrite Hfin. cbn. by rewrite app_nil_r.
Qed.

Lemma undisturbed_is_atomic_witness :
  ∃ n, (n ≤ 12)%nat ∧ solo 64 3 false n emptySlot (ReceiveLoad 0 [x00]) [Deliver 3 0 [x00]] (mkSlot 1 ∅ 0) Done.
Proof.
  destruct (undisturbed_is_atomic NewOrderedApplier 3 false (ReceiveLoad 0 [x00])
              (with_slot NewOrderedApplier 3 (mkSlot 1 ∅ 0)) [Deliver 3 0 [x00]]) as [(n & Hn & Hr) _].
  - vm_compute. reflexivity.
  - exists n. split; [exact Hn|exact Hr].
Defined.

(** The timer skips to 7 while the call for 5 is between [deliver] and
    [nextSeq.Add(1)]. *)
Definition late_advance : list (nat * choice) :=
  [(0, Go); (0, Go); (0, Go); (1, Go); (1, Go);
   (3, Go); (3, Go); (3, Filled false); (3, Go); (3, Visit 7); (3, Stop); (3, Go);
   (3, Go); (3, Go); (3, Go); (3, Go); (3, Go); (3, Go); (3, Go); (3, Stop);
   (1, Go); (1, Go); (1, Go); (1, Go); (1, Stop); (2, Go)]%nat.

(** The handler's call and the repair's call for 5 both load before either advances. *)
Definition doubled_advance : list (nat * choice) :=
  [(0, Go); (1, Go); (0, Go); (1, Go); (0, Go); (1, Go);
   (0, Go); (0, Go); (0, Go); (0, Stop); (1, Go); (1, Go); (1, Go); (1, Stop); (2, Go)]%nat.

(** C34: [Receive] is not atomic.  (1) Calls for 5 and 6 overlap while 5 is
    expected: every order of the atomic method delivers both, but an
    interleaving returns from every goroutine with 6 expected, buffered and no
    timer to deliver it.  (2) A timer that skips to 7 while the call for 5 has
    delivered but not advanced leaves 9 expected, so 8, which never arrived
    before, is dropped as a duplicate.  (3) A repair's call for 5, which passes
    no filter, and the late arrival of 5 both deliver it and advance twice, so 6
    is dropped. *)
Theorem concurrent_receives_lose_entries (x y z : bytes) :
  let s := mkSlot 5 ∅ 0 in
  (∀ q1 x1 q2 x2, [(q1, x1); (q2, x2)] ≡ₚ [(5, x); (6, y)] →
     let '(s1, es1) := receive_slot 64 0 q1 x1 s in
     deliveries (es1 ++ (receive_slot 64 0 q2 x2 s1).2) = [(0, 5, x); (0, 6, y)]) ∧
  (∃ c, rtc (step 64) (startConc s [CallReceive 5 x; CallReceive 6 y]) c ∧ finished c ∧
     delivered (cEvents c) = [(5, x)] ∧ cSlot c = mkSlot 6 {[6 := y]} 0) ∧
  (∃ c, rtc (step 64) (startConc s [CallReceive 7 y; CallReceive 5 x; CallReceive 8 z]) c ∧ finished c ∧
     cEvents c = [Delivered 5 x; Delivered 7 y; Dropped TooOld 8 z] ∧ cSlot c = mkSlot 9 ∅ 0) ∧
  (∃ c, rtc (step 64) (startConc s [CallReceive 5 x; CallReceive 5 x; CallReceive 6 y]) c ∧ finished c ∧
     cEvents c = [Delivered 5 x; Delivered 5 x; Dropped TooOld 6 y] ∧ cSlot c = mkSlot 7 ∅ 0).
Proof.
  intros s. split_and!.
  - intros q1 x1 q2 x2 Hp. apply Permutation_length_2_inv in Hp as [Hp|Hp]; injection Hp as <- <- <- <-;
      vm_compute; reflexivity.
  - exists (mkConc (mkSlot 6 {[6 := y]} 0) [Done; Done; Done] [Delivered 5 x]).
    split; [apply (run_sched_rtc 64 missed_wakeup); by vm_compute|]. by repeat constructor.
  - exists (mkConc (mkSlot 9 ∅ 0) [Done; Done; Done; Done] [Delivered 5 x; Delivered 7 y; Dropped TooOld 8 z]).
    split; [apply (run_sched_rtc 64 late_advance); by vm_compute|]. by repeat constructor.
  - exists (mkConc (mkSlot 7 ∅ 0) [Done; Done; Done] [Delivered 5 x; Delivered 5 x; Dropped TooOld 6 y]).
    split; [apply (run_sched_rtc 64 doubled_advance); by vm_compute|]. by repeat constructor.
Qed.
