(* ===== verification/ReceiveConc.v ===== *)
(** * Concurrent receive handlers (src/engine/engine.go, seen.go, ordered.go, repair.go)

    The transport calls the receive handlers from a goroutine per stream and per
    connection, so copies of an entry and entries of a topic are filtered and
    applied at the same time.  Here a goroutine takes one entry through
    [ShouldProcess] and, if it is fresh, through the applier's [Receive], in the
    accesses of [SeenConc] and [OrderedConc]; a run is any interleaving of them
    and of the gap timers they start.  A timer that finds its gap still open asks
    the peers; an answer goes into [Receive] past the filter, in the timer's
    goroutine.  [handleLocal] only marks its entry.  The goroutine of a lazy batch
    is one per entry here, which may wait for each other; repair cache, forwarding
    and lazy buffers touch neither cell. *)

From S2P Require Import Prelude Seen SeenConc EagerWire Ordered OrderedSpec OrderedConc.

(** ** Goroutines *)

Inductive gthread :=
| Filtering (e : GossipEntry) (remote : bool) (p : SeenConc.pc)
| Applying (topic : Z) (p : OrderedConc.pc)
| Returned.

Record gconc := mkGConc {
  gSeen : SeenTracker;
  gSlots : gmap Z Slot;
  gThreads : list gthread;
  gEvents : list (Z * event);       (** topic, what became of an entry *)
  gAccepted : list GossipEntry;     (** ghost: the arrivals passed to [Receive] *)
  gRepaired : list (Z * (Z * bytes));   (** ghost: topic, and the repaired entry passed to [Receive] *)
}.

Definition gslot (c : gconc) (t : Z) : Slot := default emptySlot (gSlots c !! t).

(** An entry that arrives ([true]) or is enqueued by the application. *)
Definition startHandlers (s : SeenTracker) (slots : gmap Z Slot) (arrivals : list (GossipEntry * bool)) : gconc :=
  mkGConc s slots ((fun '(e, remote) => Filtering e remote PLoad) <$> arrivals) [] [] [].

(** After an access of the filter. *)
Definition filtered (e : GossipEntry) (remote : bool) (p : SeenConc.pc) : gthread :=
  match p with
  | PDone true => if remote then Applying (Topic e) (ReceiveLoad (Seq e) (Payload e)) else Returned
  | PDone false => Returned
  | _ => Filtering e remote p
  end.

(** What decides a step: the scheduler and the map, as in [OrderedConc], or the
    answer of a peer to a repair request. *)
Inductive gchoice :=
| Do (ch : choice)
| Repaired (payload : bytes).

(** Whether a step of the applier's goroutine is one of [OrderedConc]: the
    callback of the engine reports a gap as filled only after a repair. *)
Definition plain_choice (p : OrderedConc.pc) (ch : choice) : bool :=
  match p, ch with TimerRepair _, Filled true => false | _, _ => true end.

Definition handler_step (maxGap : Z) (i : nat) (gch : gchoice) (c : gconc) : option gconc :=
  th ← gThreads c !! i;
  match th, gch with
  | Filtering e remote p, Do _ =>
      '(s', p', ans) ← SeenConc.thread_step (gSeen c) (mkThread (mkTopicSeq (Topic e) (Seq e)) p);
      Some (mkGConc s' (gSlots c) (<[i := filtered e remote p']> (gThreads c)) (gEvents c)
              (gAccepted c ++ if remote then match ans with Some true => [e] | _ => [] end else []) (gRepaired c))
  | Applying t (TimerRepair x), Repaired payload =>
      Some (mkGConc (gSeen c) (gSlots c) (<[i := Applying t (ReceiveLoad x payload)]> (gThreads c)) (gEvents c)
              (gAccepted c) (gRepaired c ++ [(t, (x, payload))]))
  | Applying t p, Do ch =>
      if plain_choice p ch then
        o ← OrderedConc.thread_step maxGap ch (gslot c t) p;
        Some (mkGConc (gSeen c) (<[t := o_slot o]> (gSlots c))
                (<[i := Applying t (o_pc o)]> (gThreads c) ++ (Applying t <$> o_go o))
                (gEvents c ++ ((fun ev => (t, ev)) <$> o_events o)) (gAccepted c) (gRepaired c))
      else None
  | _, _ => None
  end.

Inductive handler_move (maxGap : Z) : gconc → gconc → Prop :=
| hm_step i ch c c' : handler_step maxGap i ch c = Some c' → handler_move maxGap c c'.

Fixpoint run_handlers (maxGap : Z) (sched : list (nat * gchoice)) (c : gconc) : option gconc :=
  match sched with
  | [] => Some c
  | (i, ch) :: sched' => c' ← handler_step maxGap i ch c; run_handlers maxGap sched' c'
  end.

Lemma run_handlers_rtc M sched c c' : run_handlers M sched c = Some c' → rtc (handler_move M) c c'.
Proof.
  revert c. induction sched as [|[i ch] sched IH]; intros c Hrun; cbn -[handler_step] in Hrun.
  - by simplify_eq.
  - destruct (handler_step M i ch c) as [c1|] eqn:Hst; cbn -[handler_step] in Hrun; [|done].
    eapply rtc_l; [by econstructor|eauto].
Qed.

(** ** The entries of a topic *)

(** The entry a goroutine has passed, or will pass, to [Receive]. *)
Definition gheld (t : Z) (th : gthread) : list (Z * bytes) :=
  match th with
  | Filtering e true (PMarkCheck | PMarkInsert) => if decide (Topic e = t) then [(Seq e, Payload e)] else []
  | Applying t' p => if decide (t' = t) then held p else []
  | _ => []
  end.

Definition on_topic {A} (t : Z) (l : list (Z * A)) : list A :=
  omap (fun x => if decide (x.1 = t) then Some x.2 else None) l.

Definition taken_on (t : Z) (l : list GossipEntry) : list (Z * bytes) :=
  omap (fun e => if decide (Topic e = t) then Some (Seq e, Payload e) else None) l.

(** Where the entries of a topic that were accepted or repaired are: delivered or dropped,
    buffered, or in a goroutine's hand. *)
Definition topic_entries (t : Z) (c : gconc) : list (Z * bytes) :=
  (ev_entry <$> on_topic t (gEvents c)) ++ map_to_list (pending (gslot c t)) ++ (gThreads c ≫= gheld t).

Lemma on_topic_app {A} t (l1 l2 : list (Z * A)) : on_topic t (l1 ++ l2) = on_topic t l1 ++ on_topic t l2.
Proof. apply omap_app. Qed.

Lemma on_topic_tag {A} t t' (l : list A) :
  on_topic t ((fun x => (t', x)) <$> l) = if decide (t' = t) then l else [].
Proof.
  unfold on_topic. induction l as [|x l IH]; [by case_decide|]. csimpl.
  case_decide; [by rewrite IH|by rewrite IH].
Qed.

Lemma bind_gheld_go t t' ps :
  (ps ≫= held) = [] → ((Applying t' <$> ps) ≫= gheld t) = [].
Proof.
  induction ps as [|p ps IH]; [done|]. csimpl. intros [Hp Hps]%app_eq_nil.
  rewrite (IH Hps), Hp. by case_decide.
Qed.

(** An access of the applier moves entries about, on its own topic. *)
Lemma apply_entries M ch c i t p o u :
  gThreads c !! i = Some (Applying t p) →
  OrderedConc.thread_step M ch (gslot c t) p = Some o →
  topic_entries u (mkGConc (gSeen c) (<[t := o_slot o]> (gSlots c))
              (<[i := Applying t (o_pc o)]> (gThreads c) ++ (Applying t <$> o_go o))
              (gEvents c ++ ((fun ev => (t, ev)) <$> o_events o)) (gAccepted c) (gRepaired c)) ≡ₚ topic_entries u c.
Proof.
  intros Hi Hst. destruct (thread_step_entries _ _ _ _ _ Hst) as [Hent Hgo].
  unfold topic_entries, gslot; cbn [gEvents gSlots gThreads].
  rewrite on_topic_app, on_topic_tag, fmap_app, bind_app, (bind_gheld_go u t _ Hgo), app_nil_r, <- app_assoc.
  f_equiv. apply (Permutation_app_inv_l (gheld u (Applying t p))).
  rewrite !(Permutation_app_swap_app (gheld u (Applying t p))), (bind_insert_Permutation (gheld u) _ _ _ _ Hi).
  cbn [gheld]. destruct (decide (t = u)) as [->|Hne].
  - rewrite lookup_insert_eq. cbn [default].
    rewrite (app_assoc (map_to_list (pending (o_slot o)))), app_assoc. unfold gslot in Hent. rewrite Hent.
    by rewrite <- app_assoc.
  - by rewrite lookup_insert_ne.
Qed.

(** An access of the filter: the entry is added when its swap succeeds. *)
Lemma filter_held t e remote s p s' p' ans :
  SeenConc.thread_step s (mkThread (mkTopicSeq (Topic e) (Seq e)) p) = Some (s', p', ans) →
  gheld t (filtered e remote p') =
  gheld t (Filtering e remote p) ++
    taken_on t (if remote then match ans with Some true => [e] | _ => [] end else []).
Proof.
  unfold SeenConc.thread_step, taken_on. destruct p as [|old| | |b], remote; cbn; intros;
    simplify_eq; repeat (case_match; simplify_eq; cbn); by rewrite ?app_nil_r.
Qed.

Lemma filter_entries c i e remote p s' p' ans t :
  gThreads c !! i = Some (Filtering e remote p) →
  SeenConc.thread_step (gSeen c) (mkThread (mkTopicSeq (Topic e) (Seq e)) p) = Some (s', p', ans) →
  let new := if remote then match ans with Some true => [e] | _ => [] end else [] in
  topic_entries t (mkGConc s' (gSlots c) (<[i := filtered e remote p']> (gThreads c)) (gEvents c) (gAccepted c ++ new) (gRepaired c))
    ≡ₚ topic_entries t c ++ taken_on t new.
Proof.
  intros Hi Hst new. unfold topic_entries, gslot; cbn [gEvents gSlots gThreads].
  rewrite <- !app_assoc. do 2 f_equiv.
  apply (Permutation_app_inv_l (gheld t (Filtering e remote p))).
  rewrite (bind_insert_Permutation (gheld t) _ _ _ _ Hi), (filter_held t e remote _ _ _ _ _ Hst).
  fold new. rewrite <- app_assoc. f_equiv. apply Permutation_app_comm.
Qed.

(** A repair hands a timer's goroutine an entry. *)
Lemma repair_entries c i t x payload u :
  gThreads c !! i = Some (Applying t (TimerRepair x)) →
  topic_entries u (mkGConc (gSeen c) (gSlots c) (<[i := Applying t (ReceiveLoad x payload)]> (gThreads c)) (gEvents c)
              (gAccepted c) (gRepaired c ++ [(t, (x, payload))])) ≡ₚ topic_entries u c ++ on_topic u [(t, (x, payload))].
Proof.
  intros Hi. unfold topic_entries, gslot; cbn [gEvents gSlots gThreads]. rewrite <- !app_assoc. do 2 f_equiv.
  pose proof (bind_insert_Permutation (gheld u) _ _ _ (Applying t (ReceiveLoad x payload)) Hi) as Hp.
  cbn [gheld held] in Hp. replace (if decide (t = u) then [] else []) with (@nil (Z * bytes)) in Hp by (by case_decide).
  cbn [app] in Hp. rewrite Hp, Permutation_app_comm. unfold on_topic. cbn. by case_decide.
Qed.

(** ** The invariant *)

(** What has been let in, by the filter or as it was buffered before. *)
Definition let_in (slots0 : gmap Z Slot) (c : gconc) (t : Z) : list (Z * bytes) :=
  map_to_list (pending (default emptySlot (slots0 !! t))) ++ taken_on t (gAccepted c).

Record handlers_inv (arrivals : list (GossipEntry * bool)) (slots0 : gmap Z Slot) (c : gconc) : Prop := {
  hi_entries : ∀ t, topic_entries t c ≡ₚ let_in slots0 c t ++ on_topic t (gRepaired c);
  hi_nodup : ∀ t, NoDup (let_in slots0 c t).*1;
  hi_bound : ∀ t q, q ∈ (let_in slots0 c t).*1 → q ≤ CurrentSeq (gSeen c) t;
  hi_old : ∀ i e r old, gThreads c !! i = Some (Filtering e r (PCas old)) → old < Seq e;
  hi_from : ∀ i e r p, gThreads c !! i = Some (Filtering e r p) → (e, r) ∈ arrivals;
  hi_accepted : ∀ e, e ∈ gAccepted c → (e, true) ∈ arrivals;
}.

Lemma taken_on_app t l1 l2 : taken_on t (l1 ++ l2) = taken_on t l1 ++ taken_on t l2.
Proof. apply omap_app. Qed.

(** An access of the filter raises the mark, and past it what it accepts. *)
Lemma filter_marks s e p s' p' ans :
  (∀ old, p = PCas old → old < Seq e) →
  SeenConc.thread_step s (mkThread (mkTopicSeq (Topic e) (Seq e)) p) = Some (s', p', ans) →
  (∀ t, CurrentSeq s t ≤ CurrentSeq s' t) ∧
  (ans = Some true → CurrentSeq s (Topic e) < Seq e ∧ CurrentSeq s' (Topic e) = Seq e).
Proof.
  intros Hold Hst. split.
  - intros t. by apply (thread_step_shared _ (mkThread (mkTopicSeq (Topic e) (Seq e)) p) _ _ _ Hold Hst).
  - intros ->. unfold SeenConc.thread_step in Hst. cbn in Hst. destruct p as [|old| | |]; repeat case_match; simplify_eq.
    all: rewrite ?Z.eqb_eq in *; specialize (Hold _ eq_refl); rewrite CurrentSeq_storeSeq, decide_True by done; lia.
Qed.

Lemma filtered_old s e remote p s' p' ans old :
  SeenConc.thread_step s (mkThread (mkTopicSeq (Topic e) (Seq e)) p) = Some (s', p', ans) →
  ∀ e' r', filtered e remote p' = Filtering e' r' (PCas old) → old < Seq e'.
Proof.
  intros Hst e' r' Hf. assert (p' = PCas old ∧ e' = e) as [-> ->].
  { unfold filtered in Hf. repeat case_match; by simplify_eq. }
  by eapply (thread_step_old _ _ _ _ _ Hst).
Qed.

Lemma filtered_same e remote p e' r' p' : filtered e remote p = Filtering e' r' p' → e' = e ∧ r' = remote.
Proof. unfold filtered. intros. repeat case_match; by simplify_eq. Qed.

(** The filter lets an entry in: it is new, and the mark rises to it. *)
Lemma filter_step_inv arrivals slots0 c i e remote p s' p' ans :
  handlers_inv arrivals slots0 c → gThreads c !! i = Some (Filtering e remote p) →
  SeenConc.thread_step (gSeen c) (mkThread (mkTopicSeq (Topic e) (Seq e)) p) = Some (s', p', ans) →
  handlers_inv arrivals slots0
    (mkGConc s' (gSlots c) (<[i := filtered e remote p']> (gThreads c)) (gEvents c)
       (gAccepted c ++ if remote then match ans with Some true => [e] | _ => [] end else []) (gRepaired c)).
Proof.
  intros [He Hnd Hb Ho Hf Ha] Hi Hst. set (new := if remote then _ else _).
  pose proof (fun t => filter_entries c i e remote p s' p' ans t Hi Hst) as Hent. fold new in Hent.
  destruct (filter_marks _ _ _ _ _ _ (fun old E => Ho i e remote old (eq_trans Hi (f_equal (fun p => Some (Filtering e remote p)) E))) Hst)
    as [Hmono Hnew].
  assert (∀ t q, q ∈ (taken_on t new).*1 → t = Topic e ∧ q = Seq e ∧ ans = Some true) as Htk.
  { intros t q. unfold new, taken_on. destruct remote, ans as [[]|]; cbn; try (by intros ?%elem_of_nil).
    case_decide; cbn; [|by intros ?%elem_of_nil]. intros ->%list_elem_of_singleton. done. }
  assert (∀ t, let_in slots0 (mkGConc s' (gSlots c) (<[i := filtered e remote p']> (gThreads c)) (gEvents c)
      (gAccepted c ++ new) (gRepaired c)) t = let_in slots0 c t ++ taken_on t new) as Hin.
  { intros t. unfold let_in. cbn [gAccepted]. by rewrite taken_on_app, app_assoc. }
  split; cbn [gSeen gThreads gAccepted gRepaired].
  - intros t. rewrite Hent, He, Hin, <- !app_assoc. f_equiv. apply Permutation_app_comm.
  - intros t. rewrite Hin, fmap_app. apply NoDup_app. split_and!; [apply Hnd| |].
    + intros q Hq1 (-> & -> & Hy)%Htk. apply Hb in Hq1. destruct (Hnew Hy). lia.
    + unfold new, taken_on. destruct remote, ans as [[]|]; cbn; try apply NoDup_nil_2. case_decide; cbn; [apply NoDup_singleton|apply NoDup_nil_2].
  - intros t q. rewrite Hin, fmap_app, elem_of_app. intros [Hq%Hb|(-> & -> & Hy)%Htk]; [specialize (Hmono t); lia|].
    destruct (Hnew Hy). lia.
  - intros j e' r' old [(<- & Hft & _)|[_ ?]]%list_lookup_insert_Some; [|by eapply Ho]. by eapply filtered_old.
  - intros j e' r' p1 [(<- & Hft & _)|[_ ?]]%list_lookup_insert_Some; [|by eapply Hf].
    destruct (filtered_same _ _ _ _ _ _ Hft) as [-> ->]. by eapply Hf.
  - intros e' [?|He']%elem_of_app; [by apply Ha|]. unfold new in He'.
    destruct remote, ans as [[]|]; try (by apply elem_of_nil in He'). apply list_elem_of_singleton in He' as ->. by eapply Hf.
Qed.

(** The steps past the filter let nothing in: they start and move goroutines of
    the applier, and account for what they repair. *)
Lemma applier_step_inv arrivals slots0 c i t p' go slots' events' rep :
  let c' := mkGConc (gSeen c) slots' (<[i := Applying t p']> (gThreads c) ++ (Applying t <$> go)) events'
              (gAccepted c) (gRepaired c ++ rep) in
  handlers_inv arrivals slots0 c → (∀ u, topic_entries u c' ≡ₚ topic_entries u c ++ on_topic u rep) →
  handlers_inv arrivals slots0 c'.
Proof.
  intros c' [He Hnd Hb Ho Hf Ha] Hent.
  assert (∀ j e r p, gThreads c' !! j = Some (Filtering e r p) → gThreads c !! j = Some (Filtering e r p)) as Hth.
  { intros j e r p [Hj|(_ & Hj)]%lookup_app_Some.
    - by apply list_lookup_insert_Some in Hj as [(_ & ? & _)|[_ ?]].
    - by apply list_lookup_fmap_Some in Hj as (x & ? & _). }
  split; [|exact Hnd|exact Hb| | |exact Ha].
  - intros u. rewrite Hent, He. change (gRepaired c') with (gRepaired c ++ rep). by rewrite on_topic_app, <- app_assoc.
  - intros j e r old Hj%Hth. by eapply Ho.
  - intros j e r p Hj%Hth. by eapply Hf.
Qed.

Lemma handler_move_inv M arrivals slots0 c c' :
  handler_move M c c' → handlers_inv arrivals slots0 c → handlers_inv arrivals slots0 c'.
Proof.
  intros [i gch c0 c1 Hstep] Hinv. unfold handler_step in Hstep.
  destruct (gThreads c0 !! i) as [[e remote p|t p|]|] eqn:Hi; cbn in Hstep; try done.
  - destruct gch as [ch|]; [|done]. destruct (SeenConc.thread_step _ _) as [[[s' p'] ans]|] eqn:Hst; cbn in Hstep; [|done].
    injection Hstep as <-. by eapply filter_step_inv.
  - destruct gch as [ch|payload].
    + assert ((o ← OrderedConc.thread_step M ch (gslot c0 t) p;
        Some (mkGConc (gSeen c0) (<[t := o_slot o]> (gSlots c0)) (<[i := Applying t (o_pc o)]> (gThreads c0) ++ (Applying t <$> o_go o))
                (gEvents c0 ++ ((fun ev => (t, ev)) <$> o_events o)) (gAccepted c0) (gRepaired c0))) = Some c1) as Hs.
      { destruct p; try exact Hstep. cbn [plain_choice] in Hstep. destruct ch as [| | | |[]]; done || exact Hstep. }
      clear Hstep. destruct (OrderedConc.thread_step _ _ _ _) as [o|] eqn:Hst; cbn in Hs; [|done]. injection Hs as <-.
      rewrite <- (app_nil_r (gRepaired c0)). apply applier_step_inv; [done|]. intros u. rewrite !app_nil_r.
      exact (apply_entries M ch c0 i t p o u Hi Hst).
    + destruct p; try done. injection Hstep as <-. rewrite <- (app_nil_r (<[i := _]> (gThreads c0))).
      apply (applier_step_inv _ _ _ _ _ _ []); [done|]. intros u. cbn [fmap list_fmap]. rewrite app_nil_r. by apply repair_entries.
Qed.

Lemma startHandlers_inv s0 slots0 arrivals :
  (∀ t q x, pending (default emptySlot (slots0 !! t)) !! q = Some x → q ≤ CurrentSeq s0 t) →
  handlers_inv arrivals slots0 (startHandlers s0 slots0 arrivals).
Proof.
  intros Hb.
  assert (∀ i e r p, gThreads (startHandlers s0 slots0 arrivals) !! i = Some (Filtering e r p) →
    p = PLoad ∧ (e, r) ∈ arrivals) as Hth.
  { intros i e r p Hi. apply list_lookup_fmap_Some in Hi as ([e' r'] & [= -> -> ->] & Hi).
    split; [done|]. by eapply list_elem_of_lookup_2. }
  assert (∀ t, let_in slots0 (startHandlers s0 slots0 arrivals) t = map_to_list (pending (default emptySlot (slots0 !! t)))) as Hin.
  { intros t. unfold let_in. cbn. by rewrite app_nil_r. }
  split; cbn [gSeen].
  - intros t. rewrite Hin. unfold topic_entries; cbn [startHandlers gEvents gThreads gRepaired on_topic omap list_omap fmap list_fmap app].
    assert (((fun '(e, remote) => Filtering e remote PLoad) <$> arrivals) ≫= gheld t = []) as ->; [|by rewrite !app_nil_r].
    clear. induction arrivals as [|[e []] l IH]; [done|..]; csimpl; by rewrite IH.
  - intros t. rewrite Hin. apply NoDup_fst_map_to_list.
  - intros t q. rewrite Hin. intros ([q' x] & -> & Hx%elem_of_map_to_list)%list_elem_of_fmap. by eapply Hb.
  - intros i e r old [? _]%Hth. done.
  - intros i e r p [_ ?]%Hth. done.
  - intros e ?%elem_of_nil. done.
Qed.

(** ** Theorem *)

(** How often a number occurs. *)
Definition times (q : Z) (l : list (Z * bytes)) : nat := length (filter (fun x => x.1 = q) l).

Lemma times_app q l1 l2 : times q (l1 ++ l2) = (times q l1 + times q l2)%nat.
Proof. unfold times. by rewrite filter_app, length_app. Qed.

Lemma times_NoDup q l : NoDup l.*1 → (times q l ≤ 1)%nat.
Proof.
  unfold times. induction l as [|[q' x] l IH]; csimpl; [lia|]. intros [Hni Hnd]%NoDup_cons.
  rewrite filter_cons. case_decide as Heq; cbn in Heq; [subst q'|by apply IH]. cbn [length].
  assert (filter (fun x => x.1 = q) l = []) as ->; [|cbn; lia].
  destruct (filter _ l) as [|y k] eqn:E; [done|]. exfalso. apply Hni.
  assert (y ∈ filter (fun x => x.1 = q) l) as [<- Hy]%list_elem_of_filter by (rewrite E; left).
  by apply list_elem_of_fmap_2.
Qed.

Lemma times_submseteq q l k : l ⊆+ k → (times q l ≤ times q k)%nat.
Proof. intros (m & Hm)%submseteq_Permutation. unfold times. rewrite Hm, filter_app, length_app. lia. Qed.

(** C3: However the goroutines of any number of arriving copies of any entries,
    of local entries and of gap timers with their repairs interleave inside the
    filter and the applier: on every topic the filter lets no number in twice,
    and only what arrived; every entry that was let in or repaired, like the
    ones buffered before, is delivered, buffered, in a goroutine's hand, or
    dropped by the applier, as often as it came in; so a number is delivered at
    most once more than it was repaired, and once if it was not. *)
Theorem concurrent_handlers_accounted (M : Z) (s0 : SeenTracker) (slots0 : gmap Z Slot)
    (arrivals : list (GossipEntry * bool)) (c : gconc)
    (Hseen : ∀ t q x, pending (default emptySlot (slots0 !! t)) !! q = Some x → q ≤ CurrentSeq s0 t)
    (Hrun : rtc (handler_move M) (startHandlers s0 slots0 arrivals) c) :
  (∀ e, e ∈ gAccepted c → (e, true) ∈ arrivals) ∧
  ∀ t,
    let before := map_to_list (pending (default emptySlot (slots0 !! t))) in
    NoDup (before ++ taken_on t (gAccepted c)).*1 ∧
    (ev_entry <$> on_topic t (gEvents c)) ++ map_to_list (pending (gslot c t)) ++ (gThreads c ≫= gheld t)
      ≡ₚ (before ++ taken_on t (gAccepted c)) ++ on_topic t (gRepaired c) ∧
    ∀ q, (times q (delivered (on_topic t (gEvents c))) ≤ 1 + times q (on_topic t (gRepaired c)))%nat.
Proof.
  assert (handlers_inv arrivals slots0 c) as [He Hnd _ _ _ Ha].
  { eapply (rtc_ind_r (handlers_inv arrivals slots0)); [by apply startHandlers_inv| |exact Hrun].
    intros c1 c2 _ Hm. by eapply handler_move_inv. }
  split; [done|]. intros t. split; [apply Hnd|]. split; [apply He|]. intros q.
  etrans; [apply (times_submseteq q _ (let_in slots0 c t ++ on_topic t (gRepaired c)))|].
  - rewrite <- He. etrans; [apply delivered_submseteq|]. apply submseteq_inserts_r. done.
  - rewrite times_app. pose proof (times_NoDup q _ (Hnd t)). lia.
Qed.

(** 5 passes the filter and waits, 7 is buffered, the timer for 5 repairs it, and
    both calls deliver it. *)
Definition racing_repair : option gconc :=
  run_handlers 64
    (((fun i => (i, Do Go)) <$> [0; 0; 0; 0; 1; 1; 1; 1; 1; 2; 2]) ++ [(2, Repaired [x01])] ++
     ((fun i => (i, Do Go)) <$> [0; 2; 0; 2]))%nat
    (startHandlers emptySeen {[1 := mkSlot 5 ∅ 0]} [(mkEntry 1 5 [x00], true); (mkEntry 1 7 [x02], true)]).

Lemma concurrent_handlers_accounted_witness :
  match racing_repair with
  | Some c =>
      on_topic 1 (gEvents c) = [Delivered 5 [x00]; Delivered 5 [x01]] ∧ on_topic 1 (gRepaired c) = [(5, [x01])] ∧
      (times 5 (delivered (on_topic 1 (gEvents c))) ≤ 2)%nat ∧ (times 7 (delivered (on_topic 1 (gEvents c))) ≤ 1)%nat
  | None => False
  end.
Proof.
  destruct racing_repair as [c|] eqn:E; [|by vm_compute in E].
  destruct (concurrent_handlers_accounted 64 emptySeen {[1 := mkSlot 5 ∅ 0]}
              [(mkEntry 1 5 [x00], true); (mkEntry 1 7 [x02], true)] c) as [_ H].
  - intros t q x. destruct (decide (t = 1)) as [->|Hne].
    + rewrite lookup_singleton_eq. cbn. by rewrite lookup_empty.
    + rewrite lookup_singleton_ne by done. cbn. by rewrite lookup_empty.
  - eapply run_handlers_rtc, E.
  - destruct (H 1) as (_ & _ & Hq). pose proof (Hq 5) as H5. pose proof (Hq 7) as H7. clear H Hq.
    vm_compute in E. injection E as <-. split_and!; [reflexivity|reflexivity|exact H5|exact H7].
Defined.
