(* ===== verification/Overlay.v ===== *)
(** * Eager and lazy peers: [Overlay] (src/overlay/overlay.go)

    [Reclassify] sorts the peers by round-trip time, cuts the list to the peer
    budget while keeping a peer of every latency cluster, and splits it into
    eager and lazy peers.  [sort.Slice] is not stable, so the sort is the class
    [SortSlice]: any function whose result is a sorted permutation.  Durations
    are nanoseconds and their differences wrap as [int64]; the [int] fields of
    the configuration are unbounded integers. *)

From S2P Require Import Prelude.

(** ** Data *)

Definition millisecond : Z := 1000000.

Definition rttGapThreshold : Z := 5 * millisecond.

Record OverlayConfig := mkOverlayConfig {
  MinEagerPeers : Z;
  MaxEagerPeers : Z;
  MinLazyPeers : Z;
  MaxLazyPeers : Z;
}.

Definition withDefaults (c : OverlayConfig) : OverlayConfig :=
  mkOverlayConfig
    (if MinEagerPeers c <=? 0 then 4 else MinEagerPeers c)
    (if MaxEagerPeers c <=? 0 then 8 else MaxEagerPeers c)
    (if MinLazyPeers c <=? 0 then 2 else MinLazyPeers c)
    (if MaxLazyPeers c <=? 0 then 6 else MaxLazyPeers c).

Record PeerInfo := mkPeer { pi_NodeID : string; pi_Addr : string; pi_RTT : Z }.

Record OverlayPeer := mkOverlayPeer {
  op_NodeID : string;
  op_Addr : string;
  op_RTT : Z;
  IsEager : bool;
}.

#[export] Instance PeerInfo_eq_dec : EqDecision PeerInfo.
Proof. solve_decision. Defined.

#[export] Instance OverlayPeer_eq_dec : EqDecision OverlayPeer.
Proof. solve_decision. Defined.

Record Overlay := mkOverlay {
  ov_cfg : OverlayConfig;
  ov_self : string;
  eagerPeers : list OverlayPeer;
  lazyPeers : list OverlayPeer;
}.

Definition New (selfNodeID : string) (cfg : OverlayConfig) : Overlay :=
  mkOverlay (withDefaults cfg) selfNodeID [] [].

(** ** Latency clusters *)

(** [peers[i].RTT] and [peers[i].RTT - peers[i-1].RTT]. *)
Definition rtt (peers : list PeerInfo) (i : nat) : Z := default 0 (pi_RTT <$> peers !! i).

Definition rtt_gap (peers : list PeerInfo) (i : nat) : Z := i64 (rtt peers i - rtt peers (i - 1)).

(** [clusters[len(clusters)-1] = append(clusters[len(clusters)-1], i)] *)
Definition append_last (clusters : list (list nat)) (i : nat) : list (list nat) :=
  alter (fun c => c ++ [i]) (length clusters - 1)%nat clusters.

Definition cluster_step (peers : list PeerInfo) (clusters : list (list nat)) (i : nat) : list (list nat) :=
  if rttGapThreshold <? rtt_gap peers i then clusters ++ [[i]] else append_last clusters i.

Definition findRTTClusters (peers : list PeerInfo) : list (list nat) :=
  match peers with
  | [] => []
  | _ :: _ => foldl (cluster_step peers) [[0%nat]] (seq 1 (length peers - 1))
  end.

(** ** Selection by marks *)

(** [clusters[ci][0]] *)
Definition cluster_head (clusters : list (list nat)) (ci : nat) : nat :=
  default 0%nat (clusters !! ci ≫= head).

(** [for i := range reserved { ci := i*len(clusters)/reserved; mark[clusters[ci][0]] = true }] *)
Definition reserve (clusters : list (list nat)) (reserved : Z) (marks : list bool) : list bool :=
  foldl (fun m i => <[cluster_head clusters (Z.to_nat (Z.of_nat i * Z.of_nat (length clusters) / reserved)) := true]> m)
        marks (seq 0 (Z.to_nat reserved)).

(** Marks the unmarked in order until [count] reaches [limit]. *)
Fixpoint fill (limit count : Z) (marks : list bool) : list bool :=
  match marks with
  | [] => []
  | m :: marks' =>
      if limit <=? count then marks
      else if m then true :: fill limit count marks'
      else true :: fill limit (count + 1) marks'
  end.

Definition keep_marked {A} (marks : list bool) (l : list A) : list A :=
  omap (fun '(m, x) => if (m : bool) then Some x else None) (zip marks l).

Definition selectDiversePeers (peers : list PeerInfo) (totalMax : Z) : list PeerInfo :=
  let clusters := findRTTClusters peers in
  if (length clusters <=? 1)%nat then take (Z.to_nat totalMax) peers
  else
    let reserved := if Z.of_nat (length clusters) <? totalMax then Z.of_nat (length clusters) else totalMax in
    let selected := reserve clusters reserved (replicate (length peers) false) in
    keep_marked (fill totalMax (Z.max 0 reserved) selected) peers.

(** ** The eager split *)

(** The scan [for i := lo; i < hi; i++] for the first largest gap. *)
Definition gap_scan (peers : list PeerInfo) (acc : Z * Z) (i : nat) : Z * Z :=
  let '(maxGap, gapIdx) := acc in
  let gap := rtt_gap peers i in
  if maxGap <? gap then (gap, Z.of_nat i) else (maxGap, gapIdx).

Definition findRTTGap (cfg : OverlayConfig) (peers : list PeerInfo) : Z :=
  let n := Z.of_nat (length peers) in
  if n <=? MinEagerPeers cfg + MinLazyPeers cfg then Z.min (MinEagerPeers cfg) n
  else
    let lo := if MinEagerPeers cfg <? 1 then 1 else MinEagerPeers cfg in
    let hi := if n <? n - MinLazyPeers cfg then n else n - MinLazyPeers cfg in
    let '(maxGap, gapIdx) :=
      foldl (gap_scan peers) (0, MinEagerPeers cfg) (seq (Z.to_nat lo) (Z.to_nat (hi - lo))) in
    if maxGap <? rttGapThreshold then
      if n <=? MaxEagerPeers cfg then n else MaxEagerPeers cfg
    else gapIdx.

(** The index where a single cluster is split. *)
Definition single_split (cfg : OverlayConfig) (peers : list PeerInfo) : Z :=
  let n := Z.of_nat (length peers) in
  let g0 := findRTTGap cfg peers in
  let g1 := if g0 <? MinEagerPeers cfg then MinEagerPeers cfg else g0 in
  let g2 := if MaxEagerPeers cfg <? g1 then MaxEagerPeers cfg else g1 in
  let g3 := if n <? g2 then n else g2 in
  let g4 := if (n - g3 <? MinLazyPeers cfg) && (MinEagerPeers cfg + MinLazyPeers cfg <? n)
            then n - MinLazyPeers cfg else g3 in
  if g4 <? 0 then 0 else g4.

(** The eager budget when there are several clusters. *)
Definition eager_budget (cfg : OverlayConfig) (n : Z) : Z :=
  let lazyBudget := n - MinLazyPeers cfg in
  let m := if lazyBudget <? MaxEagerPeers cfg then lazyBudget else MaxEagerPeers cfg in
  if m <? 0 then 0 else m.

Definition selectEager (cfg : OverlayConfig) (peers : list PeerInfo) : list bool :=
  let clusters := findRTTClusters peers in
  if (length clusters <=? 1)%nat then
    let gapIdx := single_split cfg peers in
    (fun i => bool_decide (Z.of_nat i < gapIdx)) <$> seq 0 (length peers)
  else
    let maxEager := eager_budget cfg (Z.of_nat (length peers)) in
    let reserved := if Z.of_nat (length clusters) <? maxEager then Z.of_nat (length clusters) else maxEager in
    fill maxEager reserved (reserve clusters reserved (replicate (length peers) false)).

(** ** Reclassification *)

Class SortSlice := sort_by_rtt : list PeerInfo → list PeerInfo.

Definition rtt_le (p q : PeerInfo) : Prop := pi_RTT p ≤ pi_RTT q.

Class SortSliceSpec (S : SortSlice) : Prop := {
  sort_perm : ∀ l, sort_by_rtt l ≡ₚ l;
  sort_sorted : ∀ l, StronglySorted rtt_le (sort_by_rtt l);
}.

Definition classify (p : PeerInfo) (eager : bool) : OverlayPeer :=
  mkOverlayPeer (pi_NodeID p) (pi_Addr p) (pi_RTT p) eager.

(** The peers that are classified: everyone but the node itself, sorted and
    cut to the peer budget. *)
Definition candidates `{SortSlice} (o : Overlay) (peers : list PeerInfo) : list PeerInfo :=
  let sorted := sort_by_rtt (filter (fun p => pi_NodeID p ≠ ov_self o) peers) in
  let totalMax := MaxEagerPeers (ov_cfg o) + MaxLazyPeers (ov_cfg o) in
  if totalMax <? Z.of_nat (length sorted) then selectDiversePeers sorted totalMax else sorted.

Definition Reclassify `{SortSlice} (o : Overlay) (peers : list PeerInfo) : Overlay :=
  if decide (filter (fun p => pi_NodeID p ≠ ov_self o) peers = [])
  then mkOverlay (ov_cfg o) (ov_self o) [] []
  else
    let cs := candidates o peers in
    let isEager := selectEager (ov_cfg o) cs in
    let ops := zip_with classify cs isEager in
    mkOverlay (ov_cfg o) (ov_self o)
      (filter (fun p => IsEager p = true) ops) (filter (fun p => IsEager p = false) ops).

(** ** Snapshots *)

Definition EagerPeers (o : Overlay) : list OverlayPeer := eagerPeers o.

Definition LazyPeers (o : Overlay) : list OverlayPeer := lazyPeers o.

Definition AllPeers (o : Overlay) : list OverlayPeer := eagerPeers o ++ lazyPeers o.

Definition RandomPeers (o : Overlay) (n : nat) : list OverlayPeer :=
  let all := AllPeers o in
  if (length all <=? n)%nat then all else take n all.

Definition PeerCount (o : Overlay) : nat := (length (eagerPeers o) + length (lazyPeers o))%nat.

(** ** Lemmas: clusters *)

(** A peer starts a cluster when it is the first or follows a wide gap. *)
Definition starts (peers : list PeerInfo) (i : nat) : Prop :=
  i = 0%nat ∨ rttGapThreshold < rtt_gap peers i.

#[export] Instance starts_dec peers i : Decision (starts peers i).
Proof. unfold starts. apply _. Defined.

(** The clusters of the first [k] peers: a partition of the indices in order,
    into non-empty blocks that begin exactly at the starts. *)
Record clusters_of (peers : list PeerInfo) (k : nat) (cl : list (list nat)) : Prop := {
  cl_concat : concat cl = seq 0 k;
  cl_heads : omap head cl = filter (starts peers) (seq 0 k);
  cl_nonempty : Forall (fun c => c ≠ []) cl;
}.

Lemma append_last_snoc cl c i : append_last (cl ++ [c]) i = cl ++ [c ++ [i]].
Proof.
  unfold append_last. rewrite length_app; cbn.
  replace (length cl + 1 - 1)%nat with (length cl + 0)%nat by lia. by rewrite alter_app_r.
Qed.

Lemma cluster_step_ok peers k cl :
  (0 < k)%nat → clusters_of peers k cl → clusters_of peers (S k) (cluster_step peers cl k).
Proof.
  intros Hk [Hc Hh Hne]. unfold cluster_step. rewrite <- Nat.add_1_r.
  destruct (Z.ltb_spec rttGapThreshold (rtt_gap peers k)) as [Hgap|Hgap].
  - split.
    + rewrite concat_app, Hc, seq_app. done.
    + rewrite omap_app, Hh, seq_app, filter_app. f_equal. cbn.
      by rewrite decide_True by (by right).
    + apply Forall_app. split; [done|]. by constructor.
  - destruct (exists_last (l := cl)) as (cl' & c & ->).
    { intros ->. apply (f_equal length) in Hc. rewrite length_seq in Hc. cbn in Hc. lia. }
    rewrite append_last_snoc. apply Forall_app in Hne as [Hne1 Hne2]. rewrite Forall_singleton in Hne2.
    split.
    + rewrite concat_app in *. cbn in *. rewrite app_nil_r in *. by rewrite app_assoc, Hc, seq_app.
    + rewrite seq_app, filter_app, <- Hh, !omap_app.
      replace (filter (starts peers) (seq (0 + k) 1)) with (@nil nat).
      * rewrite app_nil_r. f_equal. by destruct c.
      * cbn. by rewrite decide_False by (intros [?|?]; lia).
    + apply Forall_app. split; [done|]. constructor; [|done]. by destruct c.
Qed.

Lemma findRTTClusters_ok peers : clusters_of peers (length peers) (findRTTClusters peers).
Proof.
  unfold findRTTClusters. destruct peers as [|p0 peers']; [done|].
  set (peers := p0 :: peers'). replace (length peers - 1)%nat with (length peers') by (cbn; lia).
  change (length peers) with (1 + length peers')%nat.
  generalize (length peers') as n. induction n as [|n IH].
  - cbn. split; cbn; [done| |by constructor].
    by rewrite decide_True by (by left).
  - rewrite seq_S, foldl_app. cbn. replace (S (S n)) with (S (1 + n)) by lia.
    apply cluster_step_ok; [lia|done].
Qed.

Lemma omap_head_length {A} (cl : list (list A)) :
  Forall (fun c => c ≠ []) cl → length (omap head cl) = length cl.
Proof. induction 1 as [|c cl Hc _ IH]; [done|]. destruct c; [done|]. cbn. by rewrite IH. Qed.

Lemma cluster_head_lookup peers ci :
  (ci < length (findRTTClusters peers))%nat →
  filter (starts peers) (seq 0 (length peers)) !! ci = Some (cluster_head (findRTTClusters peers) ci).
Proof.
  destruct (findRTTClusters_ok peers) as [_ Hh Hne]. rewrite <- Hh. clear Hh. unfold cluster_head.
  revert ci. induction Hne as [|c cl Hc Hne IH]; intros ci Hlt; cbn in Hlt; [lia|].
  destruct c as [|x c]; [done|]. destruct ci as [|ci]; csimpl; [done|]. apply IH. lia.
Qed.

Lemma heads_NoDup peers : NoDup (filter (starts peers) (seq 0 (length peers))).
Proof. apply NoDup_filter, NoDup_seq. Qed.

Lemma cluster_head_lt peers ci :
  (ci < length (findRTTClusters peers))%nat →
  (cluster_head (findRTTClusters peers) ci < length peers)%nat ∧
  starts peers (cluster_head (findRTTClusters peers) ci).
Proof.
  intros H%cluster_head_lookup%list_elem_of_lookup_2. apply list_elem_of_filter in H as [Hs Hin].
  apply elem_of_seq in Hin. split; [lia|done].
Qed.

Lemma cluster_head_inj peers ci cj :
  (ci < length (findRTTClusters peers))%nat → (cj < length (findRTTClusters peers))%nat →
  cluster_head (findRTTClusters peers) ci = cluster_head (findRTTClusters peers) cj → ci = cj.
Proof.
  intros Hi%cluster_head_lookup Hj%cluster_head_lookup Heq. rewrite Heq in Hi.
  eapply NoDup_lookup; [apply heads_NoDup|exact Hi|exact Hj].
Qed.

Lemma clusters_length_le peers : (length (findRTTClusters peers) ≤ length peers)%nat.
Proof.
  destruct (findRTTClusters_ok peers) as [_ Hh Hne]. rewrite <- (omap_head_length _ Hne), Hh.
  etrans; [apply length_filter|]. by rewrite length_seq.
Qed.

(** ** Lemmas: counting marks *)

Definition marked (marks : list bool) : nat := length (filter Is_true marks).

Lemma marked_cons b marks : marked (b :: marks) = ((if b then 1 else 0) + marked marks)%nat.
Proof. unfold marked. by destruct b. Qed.

Lemma marked_app m1 m2 : marked (m1 ++ m2) = (marked m1 + marked m2)%nat.
Proof. unfold marked. by rewrite filter_app, length_app. Qed.

Lemma marked_replicate n : marked (replicate n false) = 0%nat.
Proof. induction n as [|n IH]; [done|]. cbn [replicate]. by rewrite marked_cons. Qed.

Lemma marked_le marks : (marked marks ≤ length marks)%nat.
Proof. apply length_filter. Qed.

Lemma marked_insert marks i :
  marks !! i = Some false → marked (<[i := true]> marks) = S (marked marks).
Proof.
  intros Hi. rewrite <- (take_drop_middle marks i false Hi) at 2.
  rewrite insert_take_drop by (by eapply lookup_lt_Some).
  rewrite !marked_app, !marked_cons. lia.
Qed.

(** Filling adds marks up to the limit, keeps the old ones, and stops early
    only when everything is marked. *)
Lemma fill_spec limit count marks :
  count ≤ limit →
  length (fill limit count marks) = length marks ∧
  Z.of_nat (marked (fill limit count marks)) =
    Z.min (Z.of_nat (length marks)) (Z.of_nat (marked marks) + (limit - count)) ∧
  ∀ i, marks !! i = Some true → fill limit count marks !! i = Some true.
Proof.
  revert count. induction marks as [|m marks IH]; intros count Hle; cbn [fill].
  { cbn. split_and!; [done|lia|done]. }
  pose proof (marked_le marks) as Hml. pose proof (marked_le (m :: marks)) as Hml'. cbn [length] in Hml'.
  destruct (Z.leb_spec limit count) as [Hge|Hlt].
  { split_and!; [done|cbn [length]; lia|done]. }
  destruct m; rewrite !marked_cons; cbn [length].
  - destruct (IH count Hle) as (H1 & H2 & H3). split_and!; [lia|lia|]. intros [|i]; [done|]. apply H3.
  - destruct (IH (count + 1) ltac:(lia)) as (H1 & H2 & H3). split_and!; [lia|lia|]. intros [|i]; [done|]. apply H3.
Qed.

(** The sampled cluster index: strictly increasing, and within bounds. *)
Definition sample (L r : Z) (i : nat) : nat := Z.to_nat (Z.of_nat i * L / r).

Lemma sample_lt L r i : 0 < r ≤ L → Z.of_nat i < r → Z.of_nat (sample L r i) < L.
Proof.
  intros HL Hi. unfold sample. rewrite Z2Nat.id by (apply Z.div_pos; nia).
  apply Z.div_lt_upper_bound; nia.
Qed.

Lemma sample_mono L r i j : 0 < r ≤ L → (i < j)%nat → (sample L r i < sample L r j)%nat.
Proof.
  intros HL Hij. unfold sample.
  assert (Z.of_nat i * L / r < Z.of_nat j * L / r) as Hlt.
  { apply Z.lt_le_trans with ((Z.of_nat i * L + r) / r).
    - rewrite <- (Z.mul_1_l r) at 2. rewrite Z.div_add by lia. lia.
    - apply Z.div_le_mono; nia. }
  assert (0 ≤ Z.of_nat i * L / r) by (apply Z.div_pos; nia). lia.
Qed.

Lemma sample_all L i : 0 < L → Z.of_nat i < L → sample L L i = i.
Proof. intros HL Hi. unfold sample. rewrite Z.div_mul by lia. lia. Qed.

(** Reserving marks one peer in each sampled cluster, and nothing else. *)
Lemma reserve_spec peers r :
  let cl := findRTTClusters peers in
  let L := Z.of_nat (length cl) in
  0 ≤ r ≤ L →
  length (reserve cl r (replicate (length peers) false)) = length peers ∧
  marked (reserve cl r (replicate (length peers) false)) = Z.to_nat r ∧
  ∀ i, reserve cl r (replicate (length peers) false) !! i = Some true ↔
    (i < length peers)%nat ∧ ∃ j, Z.of_nat j < r ∧ i = cluster_head cl (sample L r j).
Proof.
  intros cl L Hr. unfold reserve. fold L.
  assert (∀ k, Z.of_nat k ≤ r →
    let m := foldl (fun m i => <[cluster_head cl (sample L r i) := true]> m)
               (replicate (length peers) false) (seq 0 k) in
    length m = length peers ∧ marked m = k ∧
    ∀ i, m !! i = Some true ↔ (i < length peers)%nat ∧ ∃ j, (j < k)%nat ∧ i = cluster_head cl (sample L r j)) as Hind.
  { induction k as [|k IH]; intros Hk.
    - cbv zeta. cbn [seq foldl]. rewrite length_replicate, marked_replicate. split_and!; [done|done|].
      intros i. rewrite lookup_replicate. split; [by intros []|]. intros (_ & j & ? & _). lia.
    - cbv zeta. rewrite seq_S, foldl_app. cbn [foldl Nat.add].
      destruct (IH ltac:(lia)) as (H1 & H2 & H3). set (m := foldl _ _ (seq 0 k)) in *.
      pose proof (sample_lt L r k ltac:(lia) ltac:(lia)) as Hsk.
      destruct (cluster_head_lt peers (sample L r k)) as [Hlt _]; [fold cl; lia|]. fold cl in Hlt.
      set (h := cluster_head cl (sample L r k)) in *.
      assert (m !! h = Some false) as Hfalse.
      { destruct (lookup_lt_is_Some_2 m h) as [[] Hb]; [lia| |done].
        apply H3 in Hb as (_ & j & Hj & Heq). exfalso.
        apply (cluster_head_inj peers) in Heq; [|fold cl; fold L..].
        - pose proof (sample_mono L r j k ltac:(lia) Hj). lia.
        - lia.
        - pose proof (sample_lt L r j ltac:(lia) ltac:(lia)). lia. }
      split_and!; [by rewrite length_insert|by rewrite marked_insert, H2|].
      intros i. destruct (decide (h = i)) as [<-|Hne].
      + rewrite list_lookup_insert_eq by lia. split; [|done]. intros _. split; [done|]. exists k. split; [lia|done].
      + rewrite list_lookup_insert_ne, H3 by done. split; intros (Hi & j & Hj & ->); (split; [done|]).
        * exists j. split; [lia|done].
        * exists j. split; [|done]. destruct (decide (j = k)) as [->|]; [done|lia]. }
  destruct (Hind (Z.to_nat r) ltac:(lia)) as (H1 & H2 & H3). split_and!; [exact H1|exact H2|].
  intros i. etrans; [apply H3|]. split; intros (Hi & j & Hj & ->); (split; [done|]; exists j; split; [lia|done]).
Qed.
