(* ===== verification/OverlaySpec.v ===== *)
(** * What [Reclassify] promises (src/overlay/overlay.go)

    The budgets of the classification, where the classified peers come from,
    and the coverage of the latency clusters: the cut to the peer budget keeps
    the clusters of the full list, and every cluster of the full list gets an
    eager peer as long as the clusters fit the eager budget. *)

From S2P Require Import Prelude Overlay.

(** ** Kept positions *)

Lemma keep_marked_cons {A} m marks (x : A) l :
  keep_marked (m :: marks) (x :: l) = (if m then [x] else []) ++ keep_marked marks l.
Proof. by destruct m. Qed.

Lemma keep_marked_length {A} marks (l : list A) :
  length marks = length l → length (keep_marked marks l) = marked marks.
Proof.
  revert l. induction marks as [|m marks IH]; intros [|x l] Hlen; cbn in Hlen; [done..|].
  rewrite keep_marked_cons, length_app, marked_cons, IH by lia. by destruct m.
Qed.

Lemma keep_marked_sublist {A} marks (l : list A) : keep_marked marks l `sublist_of` l.
Proof.
  revert l. induction marks as [|m marks IH]; intros [|x l]; [constructor|apply sublist_nil_l|constructor|].
  rewrite keep_marked_cons. destruct m; cbn; by constructor.
Qed.

(** The positions of a list at which [P] holds, in order. *)
Definition kept (P : nat → Prop) `{!∀ i, Decision (P i)} (n : nat) : list nat := filter P (seq 0 n).

(** [cs] holds the elements of [l] at the positions [ks]. *)
Definition selected {A} (l : list A) (ks : list nat) (cs : list A) : Prop :=
  Forall2 (fun i p => l !! i = Some p) ks cs.

Lemma keep_marked_selected {A} marks (l : list A) (P : nat → Prop) `{!∀ i, Decision (P i)} :
  length marks = length l → (∀ i, (i < length l)%nat → marks !! i = Some true ↔ P i) →
  selected l (kept P (length l)) (keep_marked marks l).
Proof.
  unfold selected, kept. revert marks P H. induction l as [|x l IH]; intros [|m marks] P HP Hlen Hm; cbn in Hlen; [constructor|done..|].
  rewrite keep_marked_cons. cbn [length seq]. rewrite filter_cons.
  assert (Forall2 (fun i p => (x :: l) !! i = Some p) (filter P (seq 1 (length l))) (keep_marked marks l)) as Htl.
  { rewrite <- fmap_S_seq.
    replace (filter P (S <$> seq 0 (length l))) with (S <$> filter (fun i => P (S i)) (seq 0 (length l))).
    - apply Forall2_fmap_l. cbn. apply (IH marks (fun i => P (S i))); [lia|]. intros i Hi. apply (Hm (S i)). cbn; lia.
    - generalize (seq 0 (length l)) as s. induction s as [|a s IHs]; [done|].
      rewrite fmap_cons, !filter_cons. destruct (decide (P (S a))); rewrite ?fmap_cons; by rewrite IHs. }
  pose proof (Hm 0%nat ltac:(cbn; lia)) as H0. cbn in H0. destruct m.
  - rewrite decide_True by (by apply H0). constructor; done.
  - rewrite decide_False by (intros HP0%H0; done). done.
Qed.

Lemma kept_lookup P `{!∀ i, Decision (P i)} n j i :
  kept P n !! j = Some i → (i < n)%nat ∧ P i.
Proof.
  intros Hl%list_elem_of_lookup_2. apply list_elem_of_filter in Hl as [HP Hin].
  apply elem_of_seq in Hin. split; [lia|done].
Qed.

(** Between two consecutive kept positions nothing is kept. *)
Lemma filter_seq_consecutive P `{!∀ i, Decision (P i)} s n j a b :
  filter P (seq s n) !! j = Some a → filter P (seq s n) !! S j = Some b →
  (a < b)%nat ∧ ∀ c, (a < c < b)%nat → ¬ P c.
Proof.
  revert s j. induction n as [|n IH]; intros s j Ha Hb; [done|]. cbn [seq] in *.
  rewrite !filter_cons in Ha, Hb. destruct (decide (P s)) as [HP|HP]; [|by eapply IH].
  destruct j as [|j]; cbn in Ha, Hb; [|by eapply IH]. simplify_eq.
  clear IH. assert (∀ m t, filter P (seq t m) !! 0%nat = Some b → (t ≤ b)%nat ∧ ∀ c, (t ≤ c < b)%nat → ¬ P c) as Hfirst.
  { induction m as [|m IHm]; intros t Ht; [done|]. cbn [seq] in Ht. rewrite filter_cons in Ht.
    destruct (decide (P t)) as [HPt|HPt]; cbn in Ht; simplify_eq.
    - split; [lia|]. lia.
    - apply IHm in Ht as [? Hno]. split; [lia|]. intros c Hc.
      destruct (decide (c = t)) as [->|]; [done|apply Hno; lia]. }
  apply Hfirst in Hb as [? Hno]. split; [lia|]. intros c Hc. apply Hno. lia.
Qed.

Lemma kept_first P `{!∀ i, Decision (P i)} n i :
  P 0%nat → kept P n !! 0%nat = Some i → i = 0%nat.
Proof.
  intros H0 Hl. unfold kept in Hl. destruct n as [|n]; [done|]. cbn [seq] in Hl.
  rewrite filter_cons, decide_True in Hl by done. cbn in Hl. congruence.
Qed.

Lemma length_filter_Forall2 {A B} (P : A → Prop) (Q : B → Prop)
    `{!∀ x, Decision (P x)} `{!∀ x, Decision (Q x)} l k :
  Forall2 (fun x y => P x ↔ Q y) l k → length (filter P l) = length (filter Q k).
Proof.
  induction 1 as [|x y l k Hxy _ IH]; [done|]. rewrite !filter_cons.
  destruct (decide (P x)), (decide (Q y)); cbn; [by rewrite IH|tauto|tauto|done].
Qed.

(** ** Marks *)

(** Filling marks a prefix and leaves the rest as it was. *)
Lemma fill_prefix limit count marks :
  ∃ k, (k ≤ length marks)%nat ∧ fill limit count marks = replicate k true ++ drop k marks.
Proof.
  revert count. induction marks as [|m marks IH]; intros count; cbn [fill].
  - by exists 0%nat.
  - destruct (limit <=? count); [exists 0%nat; split; [lia|done]|].
    destruct m; [destruct (IH count) as (k & Hk & ->)|destruct (IH (count + 1)) as (k & Hk & ->)];
      (exists (S k); split; [cbn; lia|done]).
Qed.

Lemma fill_lookup limit count marks :
  ∃ k, ∀ i, (i < length marks)%nat →
    fill limit count marks !! i = Some true ↔ (i < k)%nat ∨ marks !! i = Some true.
Proof.
  destruct (fill_prefix limit count marks) as (k & Hk & ->). exists k. intros i Hi.
  destruct (decide (i < k)%nat) as [Hlt|Hge].
  - rewrite lookup_app_l by (by rewrite length_replicate). rewrite lookup_replicate_2 by done. naive_solver.
  - rewrite lookup_app_r, length_replicate, lookup_drop by (rewrite length_replicate; lia).
    replace (k + (i - k))%nat with i by lia. naive_solver.
Qed.

(** With a slot for every cluster, exactly the cluster heads are reserved. *)
Lemma reserve_all peers i :
  let cl := findRTTClusters peers in
  (i < length peers)%nat →
  reserve cl (Z.of_nat (length cl)) (replicate (length peers) false) !! i = Some true ↔ starts peers i.
Proof.
  intros cl Hi. destruct (reserve_spec peers (Z.of_nat (length cl))) as (_ & _ & H); [fold cl; lia|].
  fold cl in H. rewrite H. clear H. split.
  - intros (_ & j & Hj & ->). apply cluster_head_lt. fold cl. by rewrite sample_all by lia; lia.
  - intros Hs. split; [done|].
    assert (i ∈ filter (starts peers) (seq 0 (length peers))) as Hin.
    { apply list_elem_of_filter. split; [done|]. apply elem_of_seq. lia. }
    apply list_elem_of_lookup in Hin as [j Hj].
    assert (j < length cl)%nat as Hlt.
    { destruct (findRTTClusters_ok peers) as [_ Hh Hne]. fold cl in Hh, Hne.
      rewrite <- (omap_head_length _ Hne), Hh. by eapply lookup_lt_Some. }
    exists j. split; [lia|]. rewrite sample_all by lia.
    apply (cluster_head_lookup peers) in Hlt. fold cl in Hlt. congruence.
Qed.

(** ** Sorted round-trip times *)

(** Measured round-trip times: non-negative [int64] values. *)
Definition rtt_ok (p : PeerInfo) : Prop := 0 ≤ pi_RTT p < 2 ^ 63.

#[export] Instance rtt_ok_dec p : Decision (rtt_ok p).
Proof. unfold rtt_ok. apply _. Defined.

Lemma rtt_lookup l i p : l !! i = Some p → rtt l i = pi_RTT p.
Proof. intros H. unfold rtt. by rewrite H. Qed.

Lemma rtt_bounded l i : Forall rtt_ok l → 0 ≤ rtt l i < 2 ^ 63.
Proof.
  intros Hl. unfold rtt. destruct (l !! i) as [p|] eqn:E; cbn; [|lia].
  exact (Forall_lookup_1 _ _ _ _ Hl E).
Qed.

Lemma rtt_mono l i j :
  StronglySorted rtt_le l → (i ≤ j)%nat → (j < length l)%nat → rtt l i ≤ rtt l j.
Proof.
  intros Hs. revert i j. induction Hs as [|p l Hs IH Hall]; intros i j Hij Hj; cbn in Hj; [lia|].
  destruct j as [|j]; [by replace i with 0%nat by lia|].
  destruct (lookup_lt_is_Some_2 l j ltac:(lia)) as [q Hq].
  destruct i as [|i].
  - rewrite (rtt_lookup (p :: l) 0 p), (rtt_lookup (p :: l) (S j) q) by done.
    exact (Forall_lookup_1 _ _ _ _ Hall Hq).
  - apply (IH i j); lia.
Qed.

Lemma i64_small z : - 2 ^ 63 ≤ z < 2 ^ 63 → i64 z = z.
Proof. unfold i64. intros H. rewrite Z.mod_small; lia. Qed.

Lemma rtt_diff l i j : Forall rtt_ok l → i64 (rtt l i - rtt l j) = rtt l i - rtt l j.
Proof.
  intros Hl. pose proof (rtt_bounded l i Hl). pose proof (rtt_bounded l j Hl).
  apply i64_small. lia.
Qed.

Lemma selected_rtt l ks cs j i : selected l ks cs → ks !! j = Some i → rtt cs j = rtt l i.
Proof.
  intros Hsel Hj. destruct (Forall2_lookup_l _ _ _ _ _ Hsel Hj) as (p & Hp & Hi).
  by rewrite (rtt_lookup _ _ _ Hp), (rtt_lookup _ _ _ Hi).
Qed.

(** ** The cut keeps the clusters *)

(** What survives the cut: a prefix, and the head of every cluster. *)
Definition survives (peers : list PeerInfo) (k i : nat) : Prop := (i < k)%nat ∨ starts peers i.

#[export] Instance survives_dec peers k i : Decision (survives peers k i).
Proof. unfold survives. apply _. Defined.

Section cut.
Context (l cs : list PeerInfo) (k : nat).
Context (Hsorted : StronglySorted rtt_le l) (Hok : Forall rtt_ok l).

Let ks := kept (survives l k) (length l).
Context (Hsel : selected l ks cs).

(** A surviving peer starts a cluster of the cut list exactly when it starts
    one of the full list. *)
Lemma starts_cut j i : ks !! j = Some i → starts cs j ↔ starts l i.
Proof.
  intros Hj. pose proof (kept_lookup _ _ _ _ Hj) as [Hi Hsurv]. destruct j as [|j].
  { apply kept_first in Hj as ->; [|by right; left]. split; intros _; by left. }
  destruct (lookup_lt_is_Some_2 ks j) as [a Ha]; [apply lookup_lt_Some in Hj; lia|].
  pose proof (kept_lookup _ _ _ _ Ha) as [Hal _].
  destruct (filter_seq_consecutive _ _ _ _ _ _ Ha Hj) as [Hai Hno].
  unfold starts, rtt_gap. replace (S j - 1)%nat with j by lia.
  rewrite (selected_rtt _ _ _ _ _ Hsel Hj), (selected_rtt _ _ _ _ _ Hsel Ha), !rtt_diff by done.
  destruct (decide (a = i - 1)%nat) as [->|Hne]; [split; (intros [?|?]; [lia|by right])|].
  assert (starts l i) as Hst.
  { destruct Hsurv as [Hk|]; [|done]. destruct (Hno (i - 1)%nat); [lia|]. left. lia. }
  pose proof (rtt_mono l a (i - 1) Hsorted ltac:(lia) ltac:(lia)) as Hmono.
  split; intros _; [|right].
  - destruct Hst as [?|Hgap]; [lia|]. right. unfold rtt_gap in Hgap. by rewrite rtt_diff in Hgap.
  - destruct Hst as [?|Hgap]; [lia|]. unfold rtt_gap in Hgap. rewrite rtt_diff in Hgap by done. lia.
Qed.

Lemma length_clusters peers :
  length (findRTTClusters peers) = length (filter (starts peers) (seq 0 (length peers))).
Proof.
  destruct (findRTTClusters_ok peers) as [_ Hh Hne]. by rewrite <- (omap_head_length _ Hne), Hh.
Qed.

(** The cut list has as many clusters as the full list. *)
Lemma clusters_cut : length (findRTTClusters cs) = length (findRTTClusters l).
Proof.
  rewrite !length_clusters. transitivity (length (filter (starts l) ks)).
  - apply length_filter_Forall2. rewrite <- (Forall2_length _ _ _ Hsel).
    apply Forall2_same_length_lookup_2; [by rewrite length_seq|].
    intros j x i Hx%lookup_seq Hi. destruct Hx as [-> _]. exact (starts_cut _ _ Hi).
  - unfold ks, kept. rewrite list_filter_filter_l; [done|]. intros i Hi. by right.
Qed.

(** A cluster head of the full list is a cluster head of the cut list. *)
Lemma head_survives i :
  (i < length l)%nat → starts l i → ∃ j p, cs !! j = Some p ∧ l !! i = Some p ∧ starts cs j.
Proof.
  intros Hi Hst. assert (i ∈ ks) as Hin.
  { apply list_elem_of_filter. split; [by right|]. apply elem_of_seq. lia. }
  apply list_elem_of_lookup in Hin as [j Hj].
  destruct (Forall2_lookup_l _ _ _ _ _ Hsel Hj) as (p & Hp & Hl).
  exists j, p. split_and!; [done|done|]. by apply (starts_cut _ _ Hj).
Qed.
End cut.

(** ** The cut to the peer budget *)

Record cfg_ok (c : OverlayConfig) : Prop := {
  min_eager_pos : 0 < MinEagerPeers c;
  max_eager_pos : 0 < MaxEagerPeers c;
  min_lazy_pos : 0 < MinLazyPeers c;
  max_lazy_pos : 0 < MaxLazyPeers c;
}.

Lemma withDefaults_ok c : cfg_ok (withDefaults c).
Proof. unfold withDefaults. split; cbn; case_match; lia. Qed.

Lemma single_start peers i :
  (length (findRTTClusters peers) ≤ 1)%nat → (i < length peers)%nat → starts peers i → i = 0%nat.
Proof.
  rewrite length_clusters. intros Hlen Hi Hst. destruct peers as [|p peers]; [cbn in Hi; lia|].
  cbn [length seq] in Hlen. rewrite filter_cons, decide_True in Hlen by (by left). cbn [length] in Hlen.
  apply le_S_n, Nat.le_0_r, nil_length_inv in Hlen. destruct i as [|i]; [done|]. exfalso.
  assert (S i ∈ filter (starts (p :: peers)) (seq 1 (length peers))) as Hin.
  { apply list_elem_of_filter. split; [done|]. apply elem_of_seq. cbn in Hi. lia. }
  rewrite Hlen in Hin. by apply elem_of_nil in Hin.
Qed.

Lemma keep_prefix {A} k (l : list A) :
  keep_marked ((fun i => bool_decide (i < k)%nat) <$> seq 0 (length l)) l = take k l.
Proof.
  revert k. induction l as [|x l IH]; intros k; [by destruct k|].
  cbn [length seq]. rewrite fmap_cons, keep_marked_cons, <- fmap_S_seq, <- list_fmap_compose.
  destruct k as [|k]; cbn [take].
  - rewrite bool_decide_false by lia. cbn [app]. transitivity (take 0 l); [|done]. by rewrite <- (IH 0%nat).
  - rewrite bool_decide_true by lia. cbn [app]. f_equal. rewrite <- (IH k). f_equal.
    apply list_fmap_ext. intros i x' _. apply bool_decide_ext. lia.
Qed.

Lemma prefix_marks_lookup k n i :
  (i < n)%nat →
  ((fun i => bool_decide (i < k)%nat) <$> seq 0 n) !! i = Some (bool_decide (i < k)%nat).
Proof. intros Hi. rewrite list_lookup_fmap, lookup_seq_lt by done. done. Qed.

Lemma diverse_selected l totalMax :
  0 < totalMax → Z.of_nat (length (findRTTClusters l)) ≤ totalMax →
  ∃ k, selected l (kept (survives l k) (length l)) (selectDiversePeers l totalMax).
Proof.
  intros Hpos HL. unfold selectDiversePeers.
  destruct (Nat.leb_spec (length (findRTTClusters l)) 1) as [H1|H1].
  - exists (Z.to_nat totalMax). rewrite <- keep_prefix.
    apply keep_marked_selected; [by rewrite length_fmap, length_seq|]. intros i Hi.
    rewrite prefix_marks_lookup by done. unfold survives.
    split; [intros [= Hb%bool_decide_eq_true]; by left|].
    intros [Hlt|Hst]; f_equal; apply bool_decide_eq_true; [done|]. apply single_start in Hst; [lia|done..].
  - set (cl := findRTTClusters l) in *.
    replace (if Z.of_nat (length cl) <? totalMax then Z.of_nat (length cl) else totalMax)
      with (Z.of_nat (length cl)) by (case_match; lia).
    rewrite Z.max_r by lia.
    destruct (reserve_spec l (Z.of_nat (length cl))) as (Hlen & _ & _); [fold cl; lia|]. fold cl in Hlen.
    destruct (fill_lookup totalMax (Z.of_nat (length cl))
      (reserve cl (Z.of_nat (length cl)) (replicate (length l) false))) as [k Hk].
    exists k. apply keep_marked_selected.
    + rewrite (proj1 (fill_spec _ _ _ HL)). exact Hlen.
    + intros i Hi. rewrite Hk by lia. pose proof (reserve_all l i Hi) as Hra. fold cl in Hra.
      unfold survives. by rewrite Hra.
Qed.

Lemma diverse_length l totalMax :
  0 < totalMax ≤ Z.of_nat (length l) →
  Z.of_nat (length (selectDiversePeers l totalMax)) = totalMax ∧ selectDiversePeers l totalMax `sublist_of` l.
Proof.
  intros Hn. unfold selectDiversePeers.
  destruct (Nat.leb_spec (length (findRTTClusters l)) 1) as [H1|H1].
  - rewrite length_take. split; [lia|]. apply sublist_take.
  - split; [|apply keep_marked_sublist]. set (cl := findRTTClusters l) in *.
    set (r := if Z.of_nat (length cl) <? totalMax then Z.of_nat (length cl) else totalMax).
    assert (0 ≤ r ≤ Z.of_nat (length cl) ∧ r ≤ totalMax) as [Hr1 Hr2] by (unfold r; case_match; lia).
    rewrite Z.max_r by lia.
    destruct (reserve_spec l r) as (Hlen & Hmk & _); [done|]. fold cl in Hlen, Hmk.
    destruct (fill_spec totalMax r (reserve cl r (replicate (length l) false)) Hr2) as (Hfl & Hfm & _).
    rewrite keep_marked_length by lia. rewrite Hfm, Hlen, Hmk. lia.
Qed.

(** ** The eager split *)

Lemma gap_scan_below peers t lo len g0 i0 :
  g0 < t → (∀ i, (lo ≤ i < lo + len)%nat → rtt_gap peers i < t) →
  fst (foldl (gap_scan peers) (g0, i0) (seq lo len)) < t.
Proof.
  revert lo g0 i0. induction len as [|len IH]; intros lo g0 i0 Hg Hgaps; cbn [seq foldl]; [done|].
  pose proof (Hgaps lo ltac:(lia)). unfold gap_scan at 2. cbv zeta.
  destruct (g0 <? rtt_gap peers lo); apply IH; try done; intros i Hi; apply Hgaps; lia.
Qed.

Section split.
Context (cfg : OverlayConfig) (Hcfg : cfg_ok cfg).

Lemma single_split_bounds peers :
  let n := Z.of_nat (length peers) in
  let s := single_split cfg peers in
  0 ≤ s ≤ n ∧ s ≤ MaxEagerPeers cfg ∧ (0 < n → 0 < s) ∧
  (MinEagerPeers cfg + MinLazyPeers cfg < n →
    MinLazyPeers cfg ≤ n - s ∧ Z.min (MinEagerPeers cfg) (MaxEagerPeers cfg) ≤ s).
Proof.
  destruct Hcfg as [H1 H2 H3 H4]. intros n s. unfold s, single_split.
  generalize (findRTTGap cfg peers) as g0. intros g0. cbv zeta. fold n.
  assert (0 ≤ n) by lia.
  repeat (case_match; try lia).
Qed.

Lemma single_split_closed peers :
  let n := Z.of_nat (length peers) in
  (∀ i, (0 < i < length peers)%nat → rtt_gap peers i < rttGapThreshold) →
  single_split cfg peers =
    if n <=? MinEagerPeers cfg + MinLazyPeers cfg then Z.min (Z.min (MinEagerPeers cfg) (MaxEagerPeers cfg)) n
    else eager_budget cfg n.
Proof.
  destruct Hcfg as [H1 H2 H3 H4]. intros n Hgaps. unfold single_split, findRTTGap, eager_budget. cbv zeta. fold n.
  assert (0 ≤ n) by lia. destruct (Z.leb_spec n (MinEagerPeers cfg + MinLazyPeers cfg)).
  { repeat (case_match; try lia). }
  set (lo := if MinEagerPeers cfg <? 1 then 1 else MinEagerPeers cfg).
  set (hi := if n <? n - MinLazyPeers cfg then n else n - MinLazyPeers cfg).
  pose proof (gap_scan_below peers rttGapThreshold (Z.to_nat lo) (Z.to_nat (hi - lo)) 0 (MinEagerPeers cfg)) as Hscan.
  destruct (foldl (gap_scan peers) _ _) as [g i]. cbn [fst] in Hscan.
  assert (g < rttGapThreshold) as Hg.
  { apply Hscan; [done|]. intros j Hj. apply Hgaps. unfold lo, hi in *. repeat (case_match; try lia). }
  destruct (Z.ltb_spec g rttGapThreshold); [|lia]. clear -H1 H2 H3 H4 H0.
  repeat (case_match; try lia).
Qed.

Lemma eager_budget_bounds n :
  0 ≤ n →
  0 ≤ eager_budget cfg n ≤ n ∧ eager_budget cfg n ≤ MaxEagerPeers cfg ∧
  (MinEagerPeers cfg + MinLazyPeers cfg < n →
    MinLazyPeers cfg ≤ n - eager_budget cfg n ∧
    Z.min (MinEagerPeers cfg) (MaxEagerPeers cfg) ≤ eager_budget cfg n).
Proof.
  destruct Hcfg as [H1 H2 H3 H4]. unfold eager_budget. cbv zeta. intros Hn.
  repeat (case_match; try lia).
Qed.

Lemma prefix_marks_marked k n :
  (k ≤ n)%nat → marked ((fun i => bool_decide (i < k)%nat) <$> seq 0 n) = k.
Proof.
  intros Hk. rewrite <- (keep_marked_length _ (replicate n ())).
  - rewrite <- (length_replicate n ()) at 1. rewrite keep_prefix, length_take, length_replicate. lia.
  - by rewrite length_fmap, length_seq, length_replicate.
Qed.

Lemma single_marks peers :
  (length (findRTTClusters peers) ≤ 1)%nat →
  selectEager cfg peers =
    (fun i => bool_decide (i < Z.to_nat (single_split cfg peers))%nat) <$> seq 0 (length peers).
Proof.
  intros H1. unfold selectEager. destruct (Nat.leb_spec (length (findRTTClusters peers)) 1); [|lia].
  apply list_fmap_ext. intros i x _. apply bool_decide_ext.
  pose proof (single_split_bounds peers). cbv zeta in *. lia.
Qed.

Definition reserved_slots (peers : list PeerInfo) : Z :=
  let L := Z.of_nat (length (findRTTClusters peers)) in
  let b := eager_budget cfg (Z.of_nat (length peers)) in
  if L <? b then L else b.

(** How many peers are eager: the split index in a single cluster, exactly the
    eager budget otherwise. *)
Lemma selectEager_count peers :
  length (selectEager cfg peers) = length peers ∧
  Z.of_nat (marked (selectEager cfg peers)) =
    if (length (findRTTClusters peers) <=? 1)%nat then single_split cfg peers
    else eager_budget cfg (Z.of_nat (length peers)).
Proof.
  destruct (Nat.leb_spec (length (findRTTClusters peers)) 1) as [H1|H1].
  - rewrite single_marks by done. rewrite length_fmap, length_seq. split; [done|].
    pose proof (single_split_bounds peers). cbv zeta in *. rewrite prefix_marks_marked; lia.
  - unfold selectEager. destruct (Nat.leb_spec (length (findRTTClusters peers)) 1); [lia|].
    fold (reserved_slots peers). pose proof (eager_budget_bounds (Z.of_nat (length peers)) ltac:(lia)) as (Hb & _ & _).
    assert (0 ≤ reserved_slots peers ≤ Z.of_nat (length (findRTTClusters peers)) ∧
      reserved_slots peers ≤ eager_budget cfg (Z.of_nat (length peers))) as [Hr1 Hr2]
      by (unfold reserved_slots; cbv zeta; case_match; lia).
    destruct (reserve_spec peers (reserved_slots peers) Hr1) as (Hlen & Hmk & _).
    destruct (fill_spec _ _ (reserve (findRTTClusters peers) (reserved_slots peers) (replicate (length peers) false)) Hr2)
      as (Hfl & Hfm & _).
    rewrite Hfl, Hlen. split; [done|]. rewrite Hfm, Hlen, Hmk. lia.
Qed.

(** Every cluster head is eager when the clusters fit the eager budget. *)
Lemma selectEager_heads peers j :
  let L := length (findRTTClusters peers) in
  (L ≤ 1)%nat ∨ Z.of_nat L ≤ eager_budget cfg (Z.of_nat (length peers)) →
  (j < length peers)%nat → starts peers j → selectEager cfg peers !! j = Some true.
Proof.
  intros L HL Hj Hst. destruct (decide (L ≤ 1)%nat) as [H1|H1].
  - rewrite single_marks, prefix_marks_lookup by done. f_equal. apply bool_decide_eq_true.
    pose proof (single_split_bounds peers). cbv zeta in *.
    apply single_start in Hst; [|done..]. lia.
  - destruct HL as [?|HL]; [lia|]. unfold selectEager.
    destruct (Nat.leb_spec (length (findRTTClusters peers)) 1); [unfold L in *; lia|].
    fold (reserved_slots peers). replace (reserved_slots peers) with (Z.of_nat L) by
      (unfold reserved_slots; cbv zeta; fold L; case_match; lia).
    apply fill_spec; [exact HL|]. by apply reserve_all.
Qed.
End split.

Lemma cluster_first peers c :
  c ∈ findRTTClusters peers → ∃ i, i ∈ c ∧ (i < length peers)%nat ∧ starts peers i.
Proof.
  intros Hc. destruct (findRTTClusters_ok peers) as [_ Hh Hne].
  assert (c ≠ []) as Hc0 by (rewrite Forall_forall in Hne; by apply Hne).
  destruct c as [|i c]; [done|]. exists i. split; [left|].
  assert (i ∈ omap head (findRTTClusters peers)) as Hi by (apply list_elem_of_omap; by exists (i :: c)).
  rewrite Hh in Hi. apply list_elem_of_filter in Hi as [Hst Hin]. apply elem_of_seq in Hin. split; [lia|done].
Qed.

(** ** Reclassification *)

(** The known peers, without the node itself, in the order of the sort. *)
Definition sorted_peers `{SortSlice} (o : Overlay) (peers : list PeerInfo) : list PeerInfo :=
  sort_by_rtt (filter (fun p => pi_NodeID p ≠ ov_self o) peers).

Definition unclassify (p : OverlayPeer) : PeerInfo := mkPeer (op_NodeID p) (op_Addr p) (op_RTT p).

Definition total_max (o : Overlay) : Z := MaxEagerPeers (ov_cfg o) + MaxLazyPeers (ov_cfg o).

Lemma length_filter_classify cs marks b :
  length cs = length marks →
  length (filter (fun p => IsEager p = b) (zip_with classify cs marks)) = length (filter (fun m => m = b) marks).
Proof.
  revert marks. induction cs as [|c cs IH]; intros [|m marks] Hlen; cbn in Hlen; [done..|].
  cbn [zip_with]. rewrite !filter_cons. cbn [IsEager classify].
  destruct (decide (m = b)); cbn; by rewrite IH by lia.
Qed.

Lemma filter_true_marked marks : length (filter (fun m => m = true) marks) = marked marks.
Proof. induction marks as [|[] marks IH]; [done| |]; rewrite filter_cons, marked_cons, <- IH; done. Qed.

Lemma filter_eager_split (ops : list OverlayPeer) :
  filter (fun p => IsEager p = true) ops ++ filter (fun p => IsEager p = false) ops ≡ₚ ops.
Proof.
  induction ops as [|x ops IH]; [done|]. rewrite !filter_cons.
  destruct (IsEager x) eqn:E.
  - rewrite decide_True, decide_False by done. cbn [app]. by rewrite IH.
  - rewrite decide_False, decide_True by done. by rewrite <- Permutation_middle, IH.
Qed.

Lemma unclassify_zip cs marks :
  length cs = length marks → unclassify <$> zip_with classify cs marks = cs.
Proof.
  revert marks. induction cs as [|[] cs IH]; intros [|m marks] Hlen; cbn in Hlen; [done..|].
  cbn. by rewrite IH by lia.
Qed.

Section reclassify.
Context `{SS : SortSlice} {SSS : SortSliceSpec SS} (o : Overlay) (Hcfg : cfg_ok (ov_cfg o)).

Lemma total_max_pos : 0 < total_max o.
Proof. destruct Hcfg. unfold total_max. lia. Qed.

Lemma Reclassify_lists peers :
  let cs := candidates o peers in
  let ops := zip_with classify cs (selectEager (ov_cfg o) cs) in
  EagerPeers (Reclassify o peers) = filter (fun p => IsEager p = true) ops ∧
  LazyPeers (Reclassify o peers) = filter (fun p => IsEager p = false) ops.
Proof.
  unfold Reclassify. case_decide as E; [|done].
  assert (candidates o peers = []) as ->; [|done].
  unfold candidates. cbv zeta. rewrite E. rewrite (proj1 (Permutation_nil_r _) (sort_perm [])). cbn [length].
  pose proof total_max_pos as Hpos. unfold total_max in Hpos. rewrite (proj2 (Z.ltb_ge _ _)); [done|]. cbn. lia.
Qed.

Lemma candidates_length peers :
  Z.of_nat (length (candidates o peers)) = Z.min (Z.of_nat (length (sorted_peers o peers))) (total_max o) ∧
  candidates o peers `sublist_of` sorted_peers o peers.
Proof.
  unfold candidates. cbv zeta. fold (sorted_peers o peers) (total_max o).
  pose proof total_max_pos. destruct (Z.ltb_spec (total_max o) (Z.of_nat (length (sorted_peers o peers)))).
  - destruct (diverse_length (sorted_peers o peers) (total_max o)); [lia|]. split; [lia|done].
  - split; [lia|done].
Qed.

Lemma eager_length peers :
  let cs := candidates o peers in
  Z.of_nat (length (EagerPeers (Reclassify o peers))) =
    if (length (findRTTClusters cs) <=? 1)%nat then single_split (ov_cfg o) cs
    else eager_budget (ov_cfg o) (Z.of_nat (length cs)).
Proof.
  intros cs. destruct (selectEager_count (ov_cfg o) Hcfg cs) as [Hml <-].
  destruct (Reclassify_lists peers) as [-> _]. fold cs. by rewrite length_filter_classify, filter_true_marked.
Qed.

Lemma candidates_selected peers :
  Z.of_nat (length (findRTTClusters (sorted_peers o peers))) ≤ total_max o →
  ∃ k, selected (sorted_peers o peers)
         (kept (survives (sorted_peers o peers) k) (length (sorted_peers o peers))) (candidates o peers).
Proof.
  intros HL. unfold candidates. cbv zeta. fold (sorted_peers o peers) (total_max o).
  pose proof total_max_pos. case_match; [by apply diverse_selected|].
  set (l := sorted_peers o peers). exists (length l).
  pose proof (keep_marked_selected ((fun i => bool_decide (i < length l)%nat) <$> seq 0 (length l)) l
    (survives l (length l))) as Hk.
  rewrite keep_prefix, firstn_all in Hk. apply Hk; [by rewrite length_fmap, length_seq|].
  intros i Hi. rewrite prefix_marks_lookup, bool_decide_true by done. split; [by left|done].
Qed.

Lemma sorted_peers_ok peers : Forall rtt_ok peers → Forall rtt_ok (sorted_peers o peers).
Proof.
  intros Hall. unfold sorted_peers. rewrite sort_perm, Forall_forall in *.
  intros p [_ Hp]%list_elem_of_filter. by apply Hall.
Qed.

Lemma eager_elem cs j p :
  cs !! j = Some p → selectEager (ov_cfg o) cs !! j = Some true →
  classify p true ∈ filter (fun p => IsEager p = true) (zip_with classify cs (selectEager (ov_cfg o) cs)).
Proof.
  intros Hp Hm. apply list_elem_of_filter. split; [done|]. apply list_elem_of_lookup. exists j.
  apply lookup_zip_with_Some. naive_solver.
Qed.

End reclassify.

(** Without a gap of the threshold there is at most one cluster. *)
Lemma narrow_single cs :
  (∀ i, (0 < i < length cs)%nat → rtt_gap cs i < rttGapThreshold) → (length (findRTTClusters cs) ≤ 1)%nat.
Proof.
  intros Hgaps. rewrite length_clusters. destruct cs as [|p cs]; [cbn; lia|]. cbn [length seq].
  rewrite filter_cons, decide_True by (by left). cbn [length].
  destruct (filter (starts (p :: cs)) (seq 1 (length cs))) as [|i f] eqn:E; [done|]. exfalso.
  assert (i ∈ filter (starts (p :: cs)) (seq 1 (length cs))) as Hi by (rewrite E; left).
  apply list_elem_of_filter in Hi as [[->|Hgap] Hin]; apply elem_of_seq in Hin; [lia|].
  specialize (Hgaps i ltac:(cbn; lia)). lia.
Qed.

Lemma StronglySorted_sublist {A} (R : relation A) l k :
  l `sublist_of` k → StronglySorted R k → StronglySorted R l.
Proof.
  induction 1 as [|x l k Hsub IH|x l k Hsub IH]; intros Hs; [done|..]; apply StronglySorted_cons in Hs as [Hall Hs].
  - apply StronglySorted_cons. split; [|by apply IH]. rewrite Forall_forall in *.
    intros y Hy. apply Hall. by eapply elem_of_sublist.
  - by apply IH.
Qed.

Lemma sort_pair `{SS : SortSlice} {SSS : SortSliceSpec SS} p q :
  pi_RTT p < pi_RTT q → sort_by_rtt [p; q] = [p; q].
Proof.
  intros Hlt. pose proof (sort_perm [p; q]) as Hperm. pose proof (sort_sorted [p; q]) as Hs.
  symmetry in Hperm. apply Permutation_length_2_inv in Hperm as [->| Heq]; [done|].
  rewrite Heq in Hs. apply StronglySorted_cons in Hs as [Hall _]. rewrite Forall_singleton in Hall.
  unfold rtt_le in Hall. lia.
Qed.

(** ** A concrete sort, and sample peers *)

#[export] Instance rtt_le_dec : RelDecision rtt_le.
Proof. intros p q. unfold rtt_le. apply _. Defined.

#[export] Instance merge_SortSlice : SortSlice := merge_sort rtt_le.

#[export] Instance merge_SortSliceSpec : SortSliceSpec merge_SortSlice.
Proof.
  split; [apply merge_sort_Permutation|]. intros l. apply StronglySorted_merge_sort.
  - intros p q r. unfold rtt_le. lia.
  - intros p q. unfold rtt_le. lia.
Qed.

Definition sample_peer (name : string) (ms : Z) : PeerInfo := mkPeer name "host:1" (ms * millisecond).

Definition sample_peers : list PeerInfo :=
  [sample_peer "d" 80; sample_peer "a" 1; sample_peer "self" 0; sample_peer "b" 2; sample_peer "c" 3;
   sample_peer "e" 81; sample_peer "f" 150]%string.

Definition sample_overlay : Overlay := New "self" (mkOverlayConfig 0 4 0 0).

(** ** Properties *)

(** Which peers are selected, and how many. *)
Lemma reclassify_selects `{SS : SortSlice} {SSS : SortSliceSpec SS} o peers :
  cfg_ok (ov_cfg o) →
  let o' := Reclassify o peers in
  let known := filter (fun p => pi_NodeID p ≠ ov_self o) peers in
  unclassify <$> AllPeers o' ⊆+ known ∧
  Z.of_nat (PeerCount o') = Z.min (Z.of_nat (length known)) (MaxEagerPeers (ov_cfg o) + MaxLazyPeers (ov_cfg o)) ∧
  Z.of_nat (PeerCount o') = Z.of_nat (length (candidates o peers)).
Proof.
  intros Hcfg o' known. destruct (Reclassify_lists o Hcfg peers) as [He Hl]. fold o' in He, Hl.
  destruct (candidates_length o Hcfg peers) as [Hlen Hsub]. set (cs := candidates o peers) in *.
  destruct (selectEager_count (ov_cfg o) Hcfg cs) as [Hml _].
  set (ops := zip_with classify cs (selectEager (ov_cfg o) cs)) in *.
  assert (AllPeers o' ≡ₚ ops) as Hall.
  { unfold AllPeers. fold (EagerPeers o') (LazyPeers o'). rewrite He, Hl. apply filter_eager_split. }
  assert (length ops = length cs) as Hops by (unfold ops; rewrite length_zip_with; lia).
  assert (Z.of_nat (PeerCount o') = Z.of_nat (length cs)) as Hnc.
  { f_equal. rewrite <- Hops, <- Hall. unfold AllPeers, PeerCount. by rewrite length_app. }
  assert (length (sorted_peers o peers) = length known) as Hknown by (apply Permutation_length, sort_perm).
  split_and!; [|unfold total_max in Hlen; lia|done].
  rewrite Hall. unfold ops. rewrite unclassify_zip by done. rewrite <- (sort_perm known). by apply sublist_submseteq.
Qed.

Lemma Reclassify_cfg `{SortSlice} o peers : ov_cfg (Reclassify o peers) = ov_cfg o.
Proof. unfold Reclassify. by case_decide. Qed.

(** C24: Reclassify splits the known peers within its budgets.  The eager and
    lazy lists together are a selection of the known peers without the node
    itself, as many as the budget MaxEager + MaxLazy allows (all of them when
    they fit); eager peers carry the flag and lazy ones do not; at most
    MaxEager peers are eager; and with more than MinEager + MinLazy peers at
    least MinLazy are lazy and at least min(MinEager, MaxEager) are eager. *)
Theorem reclassify_budgets `{SS : SortSlice} {SSS : SortSliceSpec SS} o peers
    (Hcfg : cfg_ok (ov_cfg o)) :
  let o' := Reclassify o peers in
  let known := filter (fun p => pi_NodeID p ≠ ov_self o) peers in
  let n := Z.of_nat (PeerCount o') in
  let eager := Z.of_nat (length (EagerPeers o')) in
  let lazy := Z.of_nat (length (LazyPeers o')) in
  unclassify <$> AllPeers o' ⊆+ known ∧
  n = Z.min (Z.of_nat (length known)) (MaxEagerPeers (ov_cfg o) + MaxLazyPeers (ov_cfg o)) ∧
  Forall (fun p => IsEager p = true) (EagerPeers o') ∧
  Forall (fun p => IsEager p = false) (LazyPeers o') ∧
  eager ≤ MaxEagerPeers (ov_cfg o) ∧
  (MinEagerPeers (ov_cfg o) + MinLazyPeers (ov_cfg o) < n →
    MinLazyPeers (ov_cfg o) ≤ lazy ∧ Z.min (MinEagerPeers (ov_cfg o)) (MaxEagerPeers (ov_cfg o)) ≤ eager).
Proof.
  intros o' known n eager lazy. destruct (Reclassify_lists o Hcfg peers) as [He Hl]. fold o' in He, Hl.
  destruct (reclassify_selects o peers Hcfg) as (Hsub & Hn & Hnc). fold o' known n in Hsub, Hn, Hnc.
  pose proof (eager_length o Hcfg peers) as Heq. set (cs := candidates o peers) in *.
  assert (n = eager + lazy) as Hel by (unfold n, eager, lazy, PeerCount, EagerPeers, LazyPeers; lia).
  pose proof (single_split_bounds _ Hcfg cs) as Hss.
  pose proof (eager_budget_bounds _ Hcfg (Z.of_nat (length cs)) ltac:(lia)) as Hbb.
  cbv zeta in *. fold o' eager in Heq. split_and!; [done|done|..].
  - rewrite He. apply Forall_forall. by intros p [? _]%list_elem_of_filter.
  - rewrite Hl. apply Forall_forall. by intros p [? _]%list_elem_of_filter.
  - rewrite Heq. case_match; lia.
  - intros Hbig. case_match; lia.
Qed.

Lemma reclassify_budgets_witness :
  cfg_ok (ov_cfg sample_overlay) ∧
  Z.of_nat (PeerCount (Reclassify sample_overlay sample_peers)) = 6 ∧
  Z.of_nat (length (EagerPeers (Reclassify sample_overlay sample_peers))) ≤ 4.
Proof.
  pose proof (withDefaults_ok (mkOverlayConfig 0 4 0 0)) as Hcfg. split; [exact Hcfg|].
  destruct (reclassify_budgets sample_overlay sample_peers Hcfg) as (_ & Hn & _ & _ & He & _).
  split; [exact Hn|exact He].
Defined.

(** C11: Cross-region coverage, end to end: when the latency clusters of all known
    peers fit the eager budget (or there is only one cluster), every cluster
    has an eager peer after Reclassify, whatever the number of peers and even
    when most of them are cut by the peer budget. *)
Theorem every_cluster_has_eager_peer `{SS : SortSlice} {SSS : SortSliceSpec SS} o peers
    (Hcfg : cfg_ok (ov_cfg o)) (Hrtt : Forall rtt_ok peers) :
  let sorted := sorted_peers o peers in
  let clusters := findRTTClusters sorted in
  let L := Z.of_nat (length clusters) in
  L ≤ 1 ∨ L ≤ eager_budget (ov_cfg o) (Z.min (Z.of_nat (length sorted)) (total_max o)) →
  ∀ c, c ∈ clusters →
  ∃ i p, i ∈ c ∧ sorted !! i = Some p ∧ classify p true ∈ EagerPeers (Reclassify o peers).
Proof.
  intros sorted clusters L HL c Hc. destruct (candidates_length o Hcfg peers) as [Hlen _].
  pose proof (eager_budget_bounds _ Hcfg (Z.of_nat (length (candidates o peers))) ltac:(lia)) as (Hb & Hb' & _).
  fold sorted in Hlen. rewrite <- Hlen in HL. pose proof (total_max_pos o Hcfg).
  destruct (candidates_selected o Hcfg peers) as [k Hsel].
  { fold sorted clusters L. destruct HL; [lia|]. destruct Hcfg. unfold total_max in *. lia. }
  fold sorted in Hsel. pose proof (sort_sorted (filter (fun p => pi_NodeID p ≠ ov_self o) peers)) as Hsorted.
  fold (sorted_peers o peers) sorted in Hsorted. pose proof (sorted_peers_ok o peers Hrtt) as Hok. fold sorted in Hok.
  destruct (cluster_first sorted c Hc) as (i & Hin & Hi & Hst).
  destruct (head_survives _ _ _ Hsorted Hok Hsel i Hi Hst) as (j & p & Hj & Hp & Hst').
  exists i, p. split_and!; [done|done|]. destruct (Reclassify_lists o Hcfg peers) as [-> _].
  apply (eager_elem o _ j); [done|]. apply (selectEager_heads _ Hcfg); [|by eapply lookup_lt_Some|done].
  rewrite (clusters_cut _ _ _ Hsorted Hok Hsel). fold clusters. destruct HL; [left|right]; lia.
Qed.

Lemma every_cluster_has_eager_peer_witness :
  Forall rtt_ok sample_peers ∧
  findRTTClusters (sorted_peers sample_overlay sample_peers) = [[0; 1; 2]; [3; 4]; [5]]%nat ∧
  ∃ i p, i ∈ [3; 4]%nat ∧ sorted_peers sample_overlay sample_peers !! i = Some p ∧
    classify p true ∈ EagerPeers (Reclassify sample_overlay sample_peers).
Proof.
  assert (Forall rtt_ok sample_peers) as Hok by (apply (bool_decide_unpack _); vm_compute; exact I).
  assert (findRTTClusters (sorted_peers sample_overlay sample_peers) = [[0; 1; 2]; [3; 4]; [5]]%nat) as Hcl
    by (vm_compute; reflexivity).
  split; [exact Hok|]. split; [exact Hcl|].
  apply (every_cluster_has_eager_peer sample_overlay sample_peers (withDefaults_ok _) Hok).
  - right. rewrite Hcl. vm_compute. discriminate.
  - rewrite Hcl. right. left.
Defined.

(** The clusters are right: their concatenation lists the positions
    0, 1, ..., n-1 in order, none is empty, and two neighbours are in different
    clusters exactly when their round-trip times differ by more than the
    threshold. *)
Theorem clusters_partition peers :
  concat (findRTTClusters peers) = seq 0 (length peers) ∧
  Forall (fun c => c ≠ []) (findRTTClusters peers) ∧
  omap head (findRTTClusters peers) =
    filter (fun i => i = 0%nat ∨ rttGapThreshold < i64 (rtt peers i - rtt peers (i - 1))) (seq 0 (length peers)).
Proof. destruct (findRTTClusters_ok peers) as [Hc Hh Hne]. split_and!; [done..|]. exact Hh. Qed.

(** How many peers are eager.  With several clusters among the classified
    peers it is min(MaxEager, n - MinLazy).  In a single cluster where no gap
    reaches the threshold it is the same number once n exceeds MinEager +
    MinLazy, and min(MinEager, MaxEager, n) below that. *)
Theorem eager_count_exact `{SS : SortSlice} {SSS : SortSliceSpec SS} o peers
    (Hcfg : cfg_ok (ov_cfg o)) :
  let cfg := ov_cfg o in
  let cs := candidates o peers in
  let n := Z.of_nat (length cs) in
  let eager := Z.of_nat (length (EagerPeers (Reclassify o peers))) in
  ((1 < length (findRTTClusters cs))%nat → eager = Z.max 0 (Z.min (MaxEagerPeers cfg) (n - MinLazyPeers cfg))) ∧
  ((∀ i, (0 < i < length cs)%nat → rtt_gap cs i < rttGapThreshold) →
    eager = if n <=? MinEagerPeers cfg + MinLazyPeers cfg
            then Z.min (Z.min (MinEagerPeers cfg) (MaxEagerPeers cfg)) n
            else Z.min (MaxEagerPeers cfg) (n - MinLazyPeers cfg)).
Proof.
  intros cfg cs n eager. unfold eager. rewrite eager_length by done. fold cs cfg n.
  assert (eager_budget cfg n = Z.max 0 (Z.min (MaxEagerPeers cfg) (n - MinLazyPeers cfg))) as Hb
    by (unfold eager_budget; cbv zeta; repeat case_match; lia).
  split.
  - intros Hmany. destruct (Nat.leb_spec (length (findRTTClusters cs)) 1); [lia|done].
  - intros Hgaps. rewrite (proj2 (Nat.leb_le _ _) (narrow_single cs Hgaps)).
    rewrite (single_split_closed cfg Hcfg cs Hgaps). fold n. rewrite Hb.
    destruct Hcfg as [H1 H2 H3 H4]. fold cfg in H1, H2, H3. case_match; [done|]. lia.
Qed.

Lemma eager_count_exact_witness :
  length (EagerPeers (Reclassify sample_overlay sample_peers)) = 4%nat.
Proof.
  apply Nat2Z.inj.
  destruct (eager_count_exact sample_overlay sample_peers (withDefaults_ok _)) as [Hmany _].
  exact (Hmany ltac:(vm_compute; lia)).
Defined.

(** In a single latency cluster the eager peers are the nearest ones: no
    eager peer has a larger round-trip time than a lazy one. *)
Theorem eager_nearest `{SS : SortSlice} {SSS : SortSliceSpec SS} o peers
    (Hcfg : cfg_ok (ov_cfg o)) (Hone : (length (findRTTClusters (candidates o peers)) ≤ 1)%nat) p q :
  p ∈ EagerPeers (Reclassify o peers) → q ∈ LazyPeers (Reclassify o peers) → op_RTT p ≤ op_RTT q.
Proof.
  destruct (Reclassify_lists o Hcfg peers) as [-> ->]. rewrite (single_marks _ Hcfg) by done.
  set (cs := candidates o peers) in *. set (k := Z.to_nat (single_split (ov_cfg o) cs)).
  assert (StronglySorted rtt_le cs) as Hs.
  { eapply StronglySorted_sublist; [apply candidates_length, Hcfg|apply sort_sorted]. }
  intros [Hp (i & Hi)%list_elem_of_lookup]%list_elem_of_filter [Hq (j & Hj)%list_elem_of_lookup]%list_elem_of_filter.
  apply lookup_zip_with_Some in Hi as (pi & mi & -> & Hpi & Hmi).
  apply lookup_zip_with_Some in Hj as (pj & mj & -> & Hpj & Hmj).
  pose proof (lookup_lt_Some _ _ _ Hpi) as Hil. pose proof (lookup_lt_Some _ _ _ Hpj) as Hjl.
  rewrite prefix_marks_lookup in Hmi, Hmj by done. 
  cbn [IsEager classify] in Hp, Hq. injection Hmi as <-. injection Hmj as <-.
  apply bool_decide_eq_true in Hp. apply bool_decide_eq_false in Hq.
  cbn [op_RTT classify]. rewrite <- (rtt_lookup _ _ _ Hpi), <- (rtt_lookup _ _ _ Hpj).
  apply rtt_mono; [done|lia|done].
Qed.

Lemma eager_nearest_witness :
  let o := New "self" (mkOverlayConfig 1 1 1 1) in
  let peers := [sample_peer "b" 3; sample_peer "a" 1] in
  EagerPeers (Reclassify o peers) = [classify (sample_peer "a" 1) true] ∧
  LazyPeers (Reclassify o peers) = [classify (sample_peer "b" 3) false] ∧
  op_RTT (classify (sample_peer "a" 1) true) ≤ op_RTT (classify (sample_peer "b" 3) false).
Proof.
  intros o peers.
  assert (EagerPeers (Reclassify o peers) = [classify (sample_peer "a" 1) true]) as He by (vm_compute; reflexivity).
  assert (LazyPeers (Reclassify o peers) = [classify (sample_peer "b" 3) false]) as Hl by (vm_compute; reflexivity).
  split; [exact He|]. split; [exact Hl|].
  apply (eager_nearest o peers (withDefaults_ok _)).
  - vm_compute. lia.
  - rewrite He. left.
  - rewrite Hl. left.
Defined.

(** With the default configuration and two known peers in two latency
    clusters, Reclassify leaves no eager peer at all. *)
Theorem two_regions_no_eager `{SS : SortSlice} {SSS : SortSliceSpec SS} self p q
    (Hp : rtt_ok p) (Hq : rtt_ok q) (Hids : pi_NodeID p ≠ self ∧ pi_NodeID q ≠ self)
    (Hgap : rttGapThreshold < pi_RTT q - pi_RTT p) :
  EagerPeers (Reclassify (New self (mkOverlayConfig 0 0 0 0)) [p; q]) = [].
Proof.
  set (o := New self (mkOverlayConfig 0 0 0 0)). destruct Hids as [Hip Hiq].
  assert (candidates o [p; q] = [p; q]) as Hcs.
  { unfold candidates. cbv zeta.
    rewrite !filter_cons, !decide_True by done. cbn [filter list_filter].
    rewrite sort_pair; [done|]. unfold rttGapThreshold, millisecond in Hgap. lia. }
  apply nil_length_inv, Nat2Z.inj. rewrite eager_length by apply withDefaults_ok. rewrite Hcs.
  unfold rtt_ok in *. cbn [findRTTClusters length Nat.sub seq foldl]. unfold cluster_step, rtt_gap, rtt. cbn.
  rewrite i64_small by lia. by rewrite (proj2 (Z.ltb_lt _ _) Hgap).
Qed.

Lemma two_regions_no_eager_witness :
  EagerPeers (Reclassify (New "self" (mkOverlayConfig 0 0 0 0))
    [sample_peer "a" 1; sample_peer "d" 80]) = [].
Proof.
  apply (two_regions_no_eager "self" (sample_peer "a" 1) (sample_peer "d" 80)).
  - vm_compute. split; [discriminate|reflexivity].
  - vm_compute. split; [discriminate|reflexivity].
  - split; discriminate.
  - vm_compute. reflexivity.
Defined.
