(* ===== verification/Repair.v ===== *)
(** * Gap repair: [RepairManager] (src/engine/repair.go)

    The bounded cache of entries, the request and response on a bidirectional
    stream, and [RequestRepair], the callback of the ordered applier.  The
    manager's pointers to the overlay, the transport and the applier are
    arguments of its methods.

    Eviction deletes the key a [range] statement yields first, which Go leaves
    unspecified: [CacheEntry] takes that choice as an argument.  A peer is what
    opening a stream to it does and how it answers the request bytes. *)

From S2P Require Import Prelude Seen Stream EagerWire Ordered OrderedSpec OrderedRun Overlay.

Definition maxRepairCache : nat := 1024.

Definition StreamTypeRepair : byte := x16.

Record RepairManager := mkRepair { cache : gmap TopicSeq bytes }.

Definition NewRepairManager : RepairManager := mkRepair ∅.

(** ** The cache *)

(** The key [for k := range r.cache] yields first. *)
Definition range_choice : Type := gmap TopicSeq bytes → TopicSeq.

Definition choice_ok (first : range_choice) : Prop := ∀ m, m ≠ ∅ → is_Some (m !! first m).

Definition entry_key (e : GossipEntry) : TopicSeq := mkTopicSeq (Topic e) (Seq e).

Definition CacheEntry (first : range_choice) (r : RepairManager) (entry : GossipEntry) : RepairManager :=
  let c := if (maxRepairCache <=? size (cache r))%nat then delete (first (cache r)) (cache r) else cache r in
  mkRepair (<[entry_key entry := Payload entry]> c).

(** ** Serving *)

(** The bytes written on the response, given how each [Write] fares. *)
Definition HandleRequest (r : RepairManager) (request : reader) (wStatus wPayload : write_outcome) : bytes :=
  match ReadFull request 10 with
  | Err _ => []
  | Ok (req, _) =>
      let topic := be_get (take 2 req) in
      let seq := be_get (drop 2 req) in
      match cache r !! mkTopicSeq topic seq with
      | None => written wStatus [x00]
      | Some payload =>
          if write_ok wStatus then written wStatus [x01] ++ written wPayload payload
          else written wStatus [x01]
      end
  end.

(** ** Pulling *)

Inductive pull_error :=
| ErrOpen
| ErrWrite
| ErrRead (e : io_error).

(** A peer as the puller meets it: whether the stream opens, how the request
    write fares, and the response stream for the bytes the peer got. *)
Record peer_conn := mkConn {
  pc_open : bool;
  pc_write : write_outcome;
  pc_response : bytes → reader;
}.

Definition repair_request (topic seq : Z) : bytes := [StreamTypeRepair] ++ be_put 2 topic ++ be_put 8 seq.

Definition pullFromPeer (conn : peer_conn) (topic seq : Z) : result pull_error (option GossipEntry) :=
  if negb (pc_open conn) then Err ErrOpen
  else
    let req := repair_request topic seq in
    if negb (write_ok (pc_write conn)) then Err ErrWrite
    else
      let r := pc_response conn (written (pc_write conn) req) in
      match ReadFull r 1 with
      | Err e => Err (ErrRead e)
      | Ok (status, r1) =>
          if decide (status = [x00]) then Ok None
          else match ReadAll r1 with
               | Err e => Err (ErrRead e)
               | Ok payload => Ok (Some (mkEntry topic seq payload))
               end
      end.

(** The loop over the peers. *)
Fixpoint repair_loop (conns : OverlayPeer → peer_conn) (peers : list OverlayPeer)
    (o : OrderedApplier) (topic missingSeq : Z) : bool * OrderedApplier * list effect :=
  match peers with
  | [] => (false, o, [])
  | peer :: peers' =>
      match pullFromPeer (conns peer) topic missingSeq with
      | Err _ => repair_loop conns peers' o topic missingSeq
      | Ok None => repair_loop conns peers' o topic missingSeq
      | Ok (Some entry) =>
          let '(o', es) := Receive o (Topic entry) (Seq entry) (Payload entry) in (true, o', es)
      end
  end.

Definition RequestRepair (ov : Overlay) (conns : OverlayPeer → peer_conn) : gap_callback :=
  fun o topic missingSeq => repair_loop conns (RandomPeers ov 3) o topic missingSeq.

(** ** Lemmas *)

Lemma CacheEntry_lookup first r e k :
  cache (CacheEntry first r e) !! k =
    if decide (k = entry_key e) then Some (Payload e)
    else if decide ((maxRepairCache ≤ size (cache r))%nat ∧ k = first (cache r)) then None
    else cache r !! k.
Proof.
  unfold CacheEntry. cbn [cache]. case_decide as Hk; [subst; by rewrite lookup_insert_eq|].
  rewrite lookup_insert_ne by done.
  destruct (Nat.leb_spec maxRepairCache (size (cache r))) as [Hle|Hlt]; case_decide as Hd.
  - destruct Hd as [_ ->]. apply lookup_delete_eq.
  - apply lookup_delete_ne. intros Heq. by apply Hd.
  - lia.
  - done.
Qed.

Lemma cache_positive : (0 < maxRepairCache)%nat.
Proof. apply Nat.ltb_lt. reflexivity. Qed.

Lemma map_size_insert_S (m : gmap TopicSeq bytes) k v : (size (<[k := v]> m) ≤ S (size m))%nat.
Proof. rewrite map_size_insert. destruct (m !! k); unfold id; lia. Qed.

Lemma CacheEntry_size first r e :
  choice_ok first → (size (cache r) ≤ maxRepairCache)%nat →
  (size (cache (CacheEntry first r e)) ≤ maxRepairCache)%nat.
Proof.
  intros Hc Hsz. unfold CacheEntry. cbn [cache].
  destruct (Nat.leb_spec maxRepairCache (size (cache r))) as [Hle|Hlt].
  - assert (is_Some (cache r !! first (cache r))) as Hv.
    { apply Hc. intros E. rewrite E, map_size_empty in Hle. pose proof cache_positive. lia. }
    pose proof (map_size_insert_S (delete (first (cache r)) (cache r)) (entry_key e) (Payload e)) as Hi.
    rewrite (map_size_delete_Some _ _ Hv) in Hi. pose proof cache_positive. lia.
  - pose proof (map_size_insert_S (cache r) (entry_key e) (Payload e)). lia.
Qed.

(** A history of cached entries, each with the choice its eviction would make. *)
Definition cache_all (r : RepairManager) (h : list (range_choice * GossipEntry)) : RepairManager :=
  foldl (fun r '(first, e) => CacheEntry first r e) r h.

(** The payload of the last entry with key [k]. *)
Definition latest (k : TopicSeq) (h : list GossipEntry) : option bytes :=
  last (omap (fun e => if decide (entry_key e = k) then Some (Payload e) else None) h).

Lemma latest_snoc k h e :
  latest k (h ++ [e]) = if decide (entry_key e = k) then Some (Payload e) else latest k h.
Proof.
  unfold latest. rewrite omap_app. cbn. case_decide; [by rewrite last_snoc|]. by rewrite app_nil_r.
Qed.

Lemma cache_all_snoc r h first e : cache_all r (h ++ [(first, e)]) = CacheEntry first (cache_all r h) e.
Proof. unfold cache_all. by rewrite foldl_app. Qed.

Lemma CacheEntry_grows first r e : (size (cache (CacheEntry first r e)) ≤ S (size (cache r)))%nat.
Proof.
  unfold CacheEntry. cbn [cache]. etrans; [apply map_size_insert_S|]. apply le_n_S.
  case_match; [|done]. rewrite map_size_delete. destruct (cache r !! _); unfold id; lia.
Qed.

Lemma cache_all_small h : (size (cache (cache_all NewRepairManager h)) ≤ length h)%nat.
Proof.
  induction h as [|[first e] h IH] using rev_ind; [done|]. rewrite cache_all_snoc, length_app. cbn [length].
  pose proof (CacheEntry_grows first (cache_all NewRepairManager h) e). lia.
Qed.

(** ** The wire *)

Lemma take_be_put n z rest : take n (be_put n z ++ rest) = be_put n z.
Proof. rewrite <- (length_be_put n z) at 1. apply take_app_length. Qed.

Lemma drop_be_put n z rest : drop n (be_put n z ++ rest) = rest.
Proof. rewrite <- (length_be_put n z) at 1. apply drop_app_length. Qed.

Lemma HandleRequest_hit r topic seq w1 w2 :
  in_word 16 topic → in_word 64 seq →
  HandleRequest r (mkReader (be_put 2 topic ++ be_put 8 seq) EOF) w1 w2 =
    match cache r !! mkTopicSeq topic seq with
    | None => written w1 [x00]
    | Some payload =>
        if write_ok w1 then written w1 [x01] ++ written w2 payload else written w1 [x01]
    end.
Proof.
  intros Ht Hs. unfold HandleRequest. rewrite <- (app_nil_r (be_put 2 topic ++ be_put 8 seq)) at 1.
  rewrite ReadFull_app by (by rewrite length_app, !length_be_put).
  by rewrite take_be_put, drop_be_put, !be_get_put_id by done.
Qed.

(** A peer that serves requests from its cache over a stream that does not
    fail: the transport consumes the type byte and runs [HandleRequest]. *)
Definition serving_peer (r : RepairManager) : peer_conn :=
  mkConn true WOk (fun req =>
    mkReader (match req with
              | b :: data => if decide (b = StreamTypeRepair) then HandleRequest r (mkReader data EOF) WOk WOk else []
              | [] => []
              end) EOF).

Lemma pull_serving r topic seq :
  in_word 16 topic → in_word 64 seq →
  pullFromPeer (serving_peer r) topic seq = Ok (mkEntry topic seq <$> cache r !! mkTopicSeq topic seq).
Proof.
  intros Ht Hs. unfold pullFromPeer, serving_peer. cbn [pc_open pc_write pc_response negb write_ok written repair_request app].
  rewrite decide_True by done. rewrite HandleRequest_hit by done.
  by destruct (cache r !! mkTopicSeq topic seq).
Qed.

(** The entry the first answering peer has. *)
Definition first_hit (conns : OverlayPeer → peer_conn) (peers : list OverlayPeer) (topic seq : Z) : option bytes :=
  head (omap (fun peer =>
    match pullFromPeer (conns peer) topic seq with
    | Ok (Some e) => Some (Payload e)
    | _ => None
    end) peers).

Lemma pullFromPeer_key conn topic seq e :
  pullFromPeer conn topic seq = Ok (Some e) → Topic e = topic ∧ Seq e = seq.
Proof. unfold pullFromPeer. repeat case_match; naive_solver. Qed.

(** [RequestRepair] is the callback the runs of the applier are stated for:
    it feeds at most one entry, the missing one, back through [Receive]. *)
Lemma repair_loop_callback conns peers o topic seq :
  repair_loop conns peers o topic seq = repair_callback (first_hit conns peers topic seq) o topic seq.
Proof.
  unfold first_hit. induction peers as [|peer peers IH]; [done|]. cbn [repair_loop].
  destruct (pullFromPeer (conns peer) topic seq) as [[e|]|err] eqn:E; cbn; rewrite E; [|done..].
  apply pullFromPeer_key in E as [<- <-]. done.
Qed.

(** The payload held by the nearest of the asked peers that has the entry. *)
Definition held_by (caches : OverlayPeer → RepairManager) (peers : list OverlayPeer) (topic seq : Z) : option bytes :=
  head (omap (fun peer => cache (caches peer) !! mkTopicSeq topic seq) peers).

(** How the asked peers answer: those that are up from their caches, and pulling
    from any other fails, at whatever point. *)
Definition answers_or_fails (conns : OverlayPeer → peer_conn) (caches : OverlayPeer → RepairManager)
    (up : OverlayPeer → bool) (topic seq : Z) : Prop :=
  ∀ p, if up p then conns p = serving_peer (caches p) else ∃ e, pullFromPeer (conns p) topic seq = Err e.

Lemma first_hit_asked conns caches up peers topic seq :
  in_word 16 topic → in_word 64 seq → answers_or_fails conns caches up topic seq →
  first_hit conns peers topic seq = held_by caches (filter (fun p => up p = true) peers) topic seq.
Proof.
  intros Ht Hs Hc. unfold first_hit, held_by. induction peers as [|p peers IH]; [done|].
  specialize (Hc p). rewrite filter_cons. cbn [omap list_omap]. destruct (up p).
  - rewrite decide_True by done. cbn [omap list_omap]. rewrite Hc, pull_serving by done.
    by destruct (cache (caches p) !! _).
  - destruct Hc as [e ->]. by rewrite decide_False.
Qed.

(** Receiving the expected entry delivers it and drains what follows. *)
Lemma receive_expected M topic p s :
  keys_ok (pending s) → 0 ≤ nextSeq s < MaxUint64 →
  ∃ ps, deliveries (receive_slot M topic (nextSeq s) p s).2 = run_of topic (nextSeq s) (p :: ps) ∧
    drained topic (mkSlot (nextSeq s + 1) (pending s) (timerFlag s)) (receive_slot M topic (nextSeq s) p s).1 ps.
Proof.
  intros Hk Hn. unfold receive_slot. cbv zeta. rewrite !Z.ltb_irrefl.
  assert ((nextSeq s +64 1)%word = nextSeq s + 1) as -> by (apply wrap_id; word_lia).
  destruct (drain_slot_spec topic (mkSlot (nextSeq s + 1) (pending s) (timerFlag s)) Hk) as (ps & Hdr & Hd & _).
  destruct (drain_slot topic _) as [s2 es]. cbn [fst snd nextSeq] in *.
  exists ps. split; [|done]. rewrite run_of_cons, <- Hd. done.
Qed.

(** ** Properties *)

(** The repair cache over any history of cached entries, whatever eviction
    picks: it never holds more than 1024 entries; what it holds for a key is
    the payload last cached under that key; the newest entry is always there;
    and nothing is lost while at most 1024 entries have been cached. *)
Theorem repair_cache_history (h : list (range_choice * GossipEntry)) :
  Forall (fun '(first, _) => choice_ok first) h →
  let c := cache (cache_all NewRepairManager h) in
  let es := h.*2 in
  (size c ≤ maxRepairCache)%nat ∧
  (∀ k p, c !! k = Some p → latest k es = Some p) ∧
  (∀ e, last es = Some e → c !! entry_key e = Some (Payload e)) ∧
  ((length h ≤ maxRepairCache)%nat → ∀ k, c !! k = latest k es).
Proof.
  induction h as [|[first e] h IH] using rev_ind.
  { intros _. cbn. split_and!; [apply Nat.le_0_l|by intros k p|by intros e|done]. }
  intros [Hh Hf]%Forall_app. rewrite Forall_singleton in Hf. cbv zeta in *.
  destruct (IH Hh) as (H1 & H2 & _ & H4). rewrite cache_all_snoc, fmap_app. cbn [fmap list_fmap snd].
  pose proof (cache_all_small h) as Hsmall. set (r := cache_all NewRepairManager h) in *. split_and!.
  - by apply CacheEntry_size.
  - intros k p. rewrite CacheEntry_lookup, latest_snoc. destruct (decide (k = entry_key e)) as [->|Hne].
    + rewrite (decide_True (P := entry_key e = entry_key e)) by done. done.
    + rewrite (decide_False (P := entry_key e = k)) by congruence. case_decide; [done|]. apply H2.
  - intros e' Hl. rewrite last_snoc in Hl. simplify_eq. by rewrite CacheEntry_lookup, decide_True.
  - rewrite length_app. cbn [length]. intros Hlen k. rewrite CacheEntry_lookup, latest_snoc.
    destruct (decide (k = entry_key e)) as [->|Hne].
    + rewrite (decide_True (P := entry_key e = entry_key e)) by done. done.
    + rewrite (decide_False (P := entry_key e = k)) by congruence.
      rewrite decide_False by lia. apply H4. lia.
Qed.

(** The first key in the map's own order. *)
Definition least_choice : range_choice :=
  fun m => default (mkTopicSeq 0 0) (fst <$> head (map_to_list m)).

Lemma least_choice_ok : choice_ok least_choice.
Proof.
  intros m Hm. unfold least_choice. destruct (map_to_list m) as [|[k v] l] eqn:E.
  - by apply map_to_list_empty_iff in E.
  - cbn. exists v. apply elem_of_map_to_list. rewrite E. left.
Qed.

Lemma repair_cache_history_witness :
  let h := [(least_choice, mkEntry 1 7 [x61]); (least_choice, mkEntry 1 8 [x62]); (least_choice, mkEntry 1 7 [x63])] in
  let c := cache (cache_all NewRepairManager h) in
  (size c ≤ maxRepairCache)%nat ∧ c !! mkTopicSeq 1 7 = Some [x63].
Proof.
  intros h c. assert (Forall (fun '(first, _) => choice_ok first) h) as Hh
    by (repeat constructor; apply least_choice_ok).
  destruct (repair_cache_history h Hh) as (Hsz & _ & Hlast & _). split; [exact Hsz|].
  exact (Hlast (mkEntry 1 7 [x63]) eq_refl).
Defined.

(** A repair request is answered from the peer's cache: over streams that do
    not fail, pullFromPeer returns exactly the payload the peer has cached for
    the topic and number asked for, and a miss when it has none. *)
Theorem repair_roundtrip r topic seq
    (Ht : in_word 16 topic) (Hs : in_word 64 seq) :
  pullFromPeer (serving_peer r) topic seq = Ok (mkEntry topic seq <$> cache r !! mkTopicSeq topic seq).
Proof. by apply pull_serving. Qed.

Lemma repair_roundtrip_witness :
  let r := CacheEntry least_choice NewRepairManager (mkEntry 3 258 [x61; x62]) in
  pullFromPeer (serving_peer r) 3 258 = Ok (Some (mkEntry 3 258 [x61; x62])).
Proof. intros r. apply (repair_roundtrip r 3 258); vm_compute; split; (discriminate || reflexivity). Defined.

(** C23: Gap repair, end to end.  When a gap timer expires on a topic that still
    waits for x, of the (at most three) asked peers those that fail, at whatever
    point of the exchange, are passed over; when one of the others, whose streams
    do not fail, has x cached, x is delivered with the first such peer's payload,
    followed by the whole run of buffered entries after it; when none has it, the
    gap is skipped. *)
Theorem gap_repaired ov (conns : OverlayPeer → peer_conn) (caches : OverlayPeer → RepairManager) (up : OverlayPeer → bool) o topic
    (Ht : in_word 16 topic)
    (Hok : slot_ok (maxGapBuffer o) (slot o topic))
    (Hlt : NextSeq o topic < MaxUint64)
    (Hconns : answers_or_fails conns caches up topic (NextSeq o topic)) :
  let x := NextSeq o topic in
  let '(o', es) := gapTimer (Some (RequestRepair ov conns)) o topic x in
  let idle := mkSlot x (pending (slot o topic)) 0 in
  match held_by caches (filter (fun p => up p = true) (RandomPeers ov 3)) topic x with
  | Some p =>
      ∃ ps, deliveries es = run_of topic x (p :: ps) ∧
        drained topic (mkSlot (x + 1) (pending (slot o topic)) 0) (slot o' topic) ps
  | None => (o', es) = skipGap (with_slot o topic idle) topic
  end.
Proof.
  intros x. pose proof (so_next _ _ Hok) as Hn. unfold NextSeq in *. fold x in Hn, Hlt, Hconns.
  unfold gapTimer, RequestRepair. cbv zeta. fold x. rewrite Z.eqb_refl. rewrite repair_loop_callback.
  rewrite (first_hit_asked _ caches up) by (done || (unfold in_word, MaxUint64 in *; lia)).
  destruct (held_by caches _ topic x) as [p|]; cbn [repair_callback].
  - set (o1 := with_slot o topic (mkSlot x (pending (slot o topic)) 0)).
    assert (slot o1 topic = mkSlot x (pending (slot o topic)) 0) as Hs1
      by (unfold o1; by rewrite slot_with_slot, decide_True).
    unfold Receive. destruct (on_slot_spec o1 topic (receive_slot (maxGapBuffer o1) topic x p)) as (E1 & E2 & _).
    destruct (on_slot o1 topic _) as [o' es]. cbn [fst snd] in *. rewrite E1, E2, Hs1.
    apply (receive_expected (maxGapBuffer o1) topic p (mkSlot x (pending (slot o topic)) 0)); [|cbn; lia].
    cbn. by eapply slot_ok_keys.
  - by destruct (skipGap _ topic) as [o3 es3].
Qed.

(** The nearer peer cannot be reached, the other has the entry. *)
Lemma gap_repaired_witness :
  let ov := mkOverlay (withDefaults (mkOverlayConfig 0 0 0 0)) "self"
    [classify (mkPeer "a" "a:1" 5) true; classify (mkPeer "b" "b:1" 9) true] [] in
  let caches := fun _ => CacheEntry least_choice NewRepairManager (mkEntry 1 5 [x61]) in
  let up := fun p => bool_decide (op_NodeID p = "b"%string) in
  let conns := fun p => if up p then serving_peer (caches p) else mkConn false WOk (fun _ => mkReader [] EOF) in
  let o := (Receive (SetNextSeq NewOrderedApplier 1 5) 1 6 [x62]).1 in
  let '(o', es) := gapTimer (Some (RequestRepair ov conns)) o 1 5 in
  ∃ ps, deliveries es = run_of 1 5 ([x61] :: ps) ∧
    drained 1 (mkSlot 6 (pending (slot o 1)) 0) (slot o' 1) ps.
Proof.
  intros ov caches up conns o.
  assert (slot o 1 = mkSlot 5 (<[6 := [x62]]> ∅) 1) as Hs by (vm_compute; reflexivity).
  assert (slot_ok (maxGapBuffer o) (slot o 1)) as Hok.
  { rewrite Hs. change (maxGapBuffer o) with 64. split; cbn [nextSeq pending timerFlag].
    - unfold MaxUint64. lia.
    - intros k x [[<- _]|[_ Hk]]%lookup_insert_Some; [unfold MaxUint64; lia|by rewrite lookup_empty in Hk].
    - by right. }
  refine (gap_repaired ov conns caches up o 1 _ Hok _ _).
  - vm_compute. split; (discriminate || reflexivity).
  - vm_compute. reflexivity.
  - intros p. unfold conns. destruct (up p); [reflexivity|]. exists ErrOpen. reflexivity.
Defined.
