(* ===== verification/Engine.v ===== *)
(** * The gossip engine: [GossipEngine] (src/engine/engine.go)

    The engine composes the duplicate filter, the ordered applier, the repair
    cache, the lazy buffers and the eager stream writers.  Each handler is a
    function on the engine state that returns the new state and what it sent.

    - Channels are lists with the capacity the code gives them.
    - [ge_timers] holds the [gapTimer] goroutines that sleep.
    - [ge_overlay] is the overlay the engine shares with its owner.
    - The counters are one function from counter to value; they do not wrap.
    - [env] is what the handler's calls to the outside meet: the key a [range]
      yields, and the outcome of each send.  Logging is left out. *)

From S2P Require Import Prelude Seen Stream EagerWire Batch Ordered OrderedSpec OrderedRun Overlay Repair.

(** ** Configuration and counters *)

Record EngineConfig := mkEngineConfig {
  LazyBatchInterval : Z;
  GapTimeout : Z;
  MaxGapBuffer : Z;
  DeliverBufferSize : Z;
}.

Definition withDefaults (c : EngineConfig) : EngineConfig :=
  mkEngineConfig
    (if LazyBatchInterval c <=? 0 then 50 * millisecond else LazyBatchInterval c)
    (if GapTimeout c <=? 0 then 500 * millisecond else GapTimeout c)
    (if MaxGapBuffer c <=? 0 then 64 else MaxGapBuffer c)
    (if DeliverBufferSize c <=? 0 then 256 else DeliverBufferSize c).

Inductive counter :=
| EagerRecv | EagerDup | LazyRecv | LazyDup | LocalEnqueue | DeliverDrop | DeliverCount
| EagerSend | EagerFail | LazySend | LazyFail | EagerBytesSent | LazyBytesSent | BytesRecv.

#[export] Instance counter_eq_dec : EqDecision counter.
Proof. solve_decision. Defined.

Definition EngineStats : Type := counter → Z.

Definition zeroStats : EngineStats := fun _ => 0.

(** [g.<counter>.Add(n)] *)
Definition bump (c : counter) (n : Z) (s : EngineStats) : EngineStats :=
  fun c' => if decide (c' = c) then s c' + n else s c'.

(** ** State *)

Record DeliveredEntry := mkDelivered { d_topic : Z; d_seq : Z; d_payload : bytes }.

#[export] Instance DeliveredEntry_eq_dec : EqDecision DeliveredEntry.
Proof. solve_decision. Defined.

Record GossipEngine := mkEngine {
  ge_overlay : Overlay;
  ge_seen : SeenTracker;
  ge_applier : OrderedApplier;
  ge_repair : RepairManager;
  ge_cfg : EngineConfig;
  localCh : list GossipEntry;
  lazyBuffers : gmap string LazyBuffer;
  eagerStreams : gmap string eagerStreamWriter;
  deliverCh : list DeliveredEntry;
  ge_stats : EngineStats;
  ge_timers : list (Z * Z);
}.

Definition set_overlay (o : Overlay) (g : GossipEngine) : GossipEngine :=
  mkEngine o (ge_seen g) (ge_applier g) (ge_repair g) (ge_cfg g) (localCh g) (lazyBuffers g)
    (eagerStreams g) (deliverCh g) (ge_stats g) (ge_timers g).
Definition set_seen (s : SeenTracker) (g : GossipEngine) : GossipEngine :=
  mkEngine (ge_overlay g) s (ge_applier g) (ge_repair g) (ge_cfg g) (localCh g) (lazyBuffers g)
    (eagerStreams g) (deliverCh g) (ge_stats g) (ge_timers g).
Definition set_applier (a : OrderedApplier) (g : GossipEngine) : GossipEngine :=
  mkEngine (ge_overlay g) (ge_seen g) a (ge_repair g) (ge_cfg g) (localCh g) (lazyBuffers g)
    (eagerStreams g) (deliverCh g) (ge_stats g) (ge_timers g).
Definition set_repair (r : RepairManager) (g : GossipEngine) : GossipEngine :=
  mkEngine (ge_overlay g) (ge_seen g) (ge_applier g) r (ge_cfg g) (localCh g) (lazyBuffers g)
    (eagerStreams g) (deliverCh g) (ge_stats g) (ge_timers g).
Definition set_localCh (l : list GossipEntry) (g : GossipEngine) : GossipEngine :=
  mkEngine (ge_overlay g) (ge_seen g) (ge_applier g) (ge_repair g) (ge_cfg g) l (lazyBuffers g)
    (eagerStreams g) (deliverCh g) (ge_stats g) (ge_timers g).
Definition set_lazyBuffers (b : gmap string LazyBuffer) (g : GossipEngine) : GossipEngine :=
  mkEngine (ge_overlay g) (ge_seen g) (ge_applier g) (ge_repair g) (ge_cfg g) (localCh g) b
    (eagerStreams g) (deliverCh g) (ge_stats g) (ge_timers g).
Definition set_eagerStreams (w : gmap string eagerStreamWriter) (g : GossipEngine) : GossipEngine :=
  mkEngine (ge_overlay g) (ge_seen g) (ge_applier g) (ge_repair g) (ge_cfg g) (localCh g) (lazyBuffers g)
    w (deliverCh g) (ge_stats g) (ge_timers g).
Definition set_deliverCh (d : list DeliveredEntry) (g : GossipEngine) : GossipEngine :=
  mkEngine (ge_overlay g) (ge_seen g) (ge_applier g) (ge_repair g) (ge_cfg g) (localCh g) (lazyBuffers g)
    (eagerStreams g) d (ge_stats g) (ge_timers g).
Definition set_timers (l : list (Z * Z)) (g : GossipEngine) : GossipEngine :=
  mkEngine (ge_overlay g) (ge_seen g) (ge_applier g) (ge_repair g) (ge_cfg g) (localCh g) (lazyBuffers g)
    (eagerStreams g) (deliverCh g) (ge_stats g) l.
Definition add_stat (c : counter) (n : Z) (g : GossipEngine) : GossipEngine :=
  mkEngine (ge_overlay g) (ge_seen g) (ge_applier g) (ge_repair g) (ge_cfg g) (localCh g) (lazyBuffers g)
    (eagerStreams g) (deliverCh g) (bump c n (ge_stats g)) (ge_timers g).

Definition Stats (g : GossipEngine) : EngineStats := ge_stats g.

Definition New (o : Overlay) (cfg : EngineConfig) : GossipEngine :=
  let cfg := withDefaults cfg in
  mkEngine o emptySeen (mkApplier (slots NewOrderedApplier) (MaxGapBuffer cfg) (GapTimeout cfg))
    NewRepairManager cfg [] ∅ ∅ [] zeroStats [].

(** ** The delivery callback *)

Definition deliver (g : GossipEngine) (topic seq : Z) (payload : bytes) : GossipEngine :=
  if Z.of_nat (length (deliverCh g)) <? DeliverBufferSize (ge_cfg g)
  then add_stat DeliverCount 1 (set_deliverCh (deliverCh g ++ [mkDelivered topic seq payload]) g)
  else add_stat DeliverDrop 1 g.

(** Performs what an applier method did: deliveries and new timers, in order. *)
Definition perform (g : GossipEngine) (e : effect) : GossipEngine :=
  match e with
  | Deliver t q p => deliver g t q p
  | GoGapTimer t x => set_timers (ge_timers g ++ [(t, x)]) g
  end.

Definition with_applier (g : GossipEngine) (r : OrderedApplier * list effect) : GossipEngine :=
  foldl perform (set_applier r.1 g) r.2.

(** [g.applier.Receive(entry.Topic, entry.Seq, entry.Payload)] *)
Definition applier_receive (g : GossipEngine) (e : GossipEntry) : GossipEngine :=
  with_applier g (Receive (ge_applier g) (Topic e) (Seq e) (Payload e)).

(** ** The outside *)

Record env := mkEnv {
  ev_first : GossipEntry → range_choice;
  ev_datagram : OverlayPeer → GossipEntry → bool;
  ev_stream : OverlayPeer → GossipEntry → send_outcome;
}.

(** What was handed to the transport: the peer's address, the message, and
    whether the send succeeded. *)
Inductive sent :=
| SentDatagram (addr : string) (msg : bytes) (ok : bool)
| SentOnStream (addr : string) (msg : bytes) (ok : bool).

#[export] Instance sent_eq_dec : EqDecision sent.
Proof. solve_decision. Defined.

(** ** Forwarding *)

Definition StreamTypeLazyBatch : byte := x11.

(** The writer of the address, created when it is missing. *)
Definition getEagerStream (g : GossipEngine) (addr : string) : eagerStreamWriter * GossipEngine :=
  match eagerStreams g !! addr with
  | Some w => (w, g)
  | None => (newWriter, set_eagerStreams (<[addr := newWriter]> (eagerStreams g)) g)
  end.

(** One iteration of the loop of [eagerForward]. *)
Definition forward_to (ev : env) (entry : GossipEntry) (excludeNodeID : string)
    (acc : GossipEngine * list sent) (peer : OverlayPeer) : GossipEngine * list sent :=
  let '(g, out) := acc in
  let msg := encodeEagerMessage entry in
  if decide (op_NodeID peer = excludeNodeID) then (g, out)
  else if (maxDatagramPayload <? length msg)%nat then
    let '(w, g1) := getEagerStream g (op_Addr peer) in
    let '(ok, w') := send w msg (ev_stream ev peer entry) in
    let g2 := set_eagerStreams (<[op_Addr peer := w']> (eagerStreams g1)) g1 in
    let g3 := if ok then add_stat EagerBytesSent (Z.of_nat (length msg) + 5) (add_stat EagerSend 1 g2)
              else add_stat EagerFail 1 g2 in
    (g3, out ++ [SentOnStream (op_Addr peer) msg ok])
  else
    let ok := ev_datagram ev peer entry in
    let g1 := if ok then add_stat EagerBytesSent (Z.of_nat (length msg)) (add_stat EagerSend 1 g)
              else add_stat EagerFail 1 g in
    (g1, out ++ [SentDatagram (op_Addr peer) msg ok]).

Definition eagerForward (ev : env) (g : GossipEngine) (entry : GossipEntry) (excludeNodeID : string) :
    GossipEngine * list sent :=
  foldl (forward_to ev entry excludeNodeID) (g, []) (EagerPeers (ge_overlay g)).

Definition enqueue_to (entry : GossipEntry) (excludeNodeID : string)
    (bufs : gmap string LazyBuffer) (peer : OverlayPeer) : gmap string LazyBuffer :=
  if decide (op_NodeID peer = excludeNodeID) then bufs
  else
    let buf := default NewLazyBuffer (bufs !! op_NodeID peer) in
    <[op_NodeID peer := Add buf entry]> bufs.

Definition enqueueForLazy (g : GossipEngine) (entry : GossipEntry) (excludeNodeID : string) : GossipEngine :=
  set_lazyBuffers (foldl (enqueue_to entry excludeNodeID) (lazyBuffers g) (LazyPeers (ge_overlay g))) g.

(** ** Handlers *)

(** [Enqueue] on the channel of capacity 256; [None] is a caller that blocks. *)
Definition Enqueue (g : GossipEngine) (topic seq : Z) (payload : bytes) : option GossipEngine :=
  if (length (localCh g) <? 256)%nat then Some (set_localCh (localCh g ++ [mkEntry topic seq payload]) g)
  else None.

Definition SetInitialSeq (g : GossipEngine) (topic seq : Z) : GossipEngine :=
  let g1 := set_seen (SetTopicSeq (ge_seen g) topic seq) g in
  set_applier (SetNextSeq (ge_applier g1) topic (seq +64 1)%word) g1.

Definition handleLocal (ev : env) (g : GossipEngine) (entry : GossipEntry) : GossipEngine * list sent :=
  let g1 := add_stat LocalEnqueue 1 g in
  let g2 := set_seen (ShouldProcess (ge_seen g1) (Topic entry) (Seq entry)).2 g1 in
  let g3 := set_repair (CacheEntry (ev_first ev entry) (ge_repair g2) entry) g2 in
  let '(g4, out) := eagerForward ev g3 entry "" in
  (enqueueForLazy g4 entry "", out).

(** What both receive handlers do with an entry that was not seen before, after
    counting it. *)
Definition accept (ev : env) (g : GossipEngine) (from : string) (entry : GossipEntry) :
    GossipEngine * list sent :=
  let g1 := set_repair (CacheEntry (ev_first ev entry) (ge_repair g) entry) g in
  let g2 := applier_receive g1 entry in
  let '(g3, out) := eagerForward ev g2 entry from in
  (enqueueForLazy g3 entry from, out).

(** [ShouldProcess] and the counter of its answer. *)
Definition process (ev : env) (recv dup : counter) (from : string)
    (g : GossipEngine) (entry : GossipEntry) : GossipEngine * list sent :=
  let '(fresh, seen') := ShouldProcess (ge_seen g) (Topic entry) (Seq entry) in
  let g1 := set_seen seen' g in
  if (fresh : bool) then accept ev (add_stat recv 1 g1) from entry
  else (add_stat dup 1 g1, []).

Definition onEagerReceive (ev : env) (g : GossipEngine) (from : string) (data : bytes) :
    GossipEngine * list sent :=
  let g1 := add_stat BytesRecv (Z.of_nat (length data)) g in
  match decodeEagerMessage data with
  | Err _ => (g1, [])
  | Ok entry => process ev EagerRecv EagerDup from g1 entry
  end.

Definition process_all (ev : env) (from : string) (g : GossipEngine) (entries : list GossipEntry) :
    GossipEngine * list sent :=
  foldl (fun '(g, out) entry =>
           let '(g', out') := process ev LazyRecv LazyDup from g entry in (g', out ++ out'))
        (g, []) entries.

Definition onLazyBatchReceive `{Zstd} (ev : env) (g : GossipEngine) (from : string) (r : reader) :
    GossipEngine * list sent :=
  match ReadLazyBatch r with
  | Err _ => (g, [])
  | Ok (batch, _) =>
      let g1 := match lazyBuffers g !! from with
                | Some buf => set_lazyBuffers (<[from := UpdatePeerSeqs buf (SenderHighWaterMarks batch)]> (lazyBuffers g)) g
                | None => g
                end in
      process_all ev from g1 (Entries batch)
  end.

(** ** Lazy batches *)

Definition flush_one (myMarks : list TopicSeq) (acc : gmap string LazyBuffer * list (string * LazyBatch))
    (peer : OverlayPeer) : gmap string LazyBuffer * list (string * LazyBatch) :=
  let '(bufs, batches) := acc in
  match bufs !! op_NodeID peer with
  | None => acc
  | Some buf =>
      if (Len buf =? 0)%nat then acc
      else
        let '(entries, buf') := Flush buf in
        (<[op_NodeID peer := buf']> bufs, batches ++ [(op_Addr peer, mkBatch entries myMarks)])
  end.

(** The new state, and the batches for which [go g.sendLazyBatch] is started. *)
Definition flushLazyBatches (g : GossipEngine) : GossipEngine * list (string * LazyBatch) :=
  let myMarks := HighWaterMarks (ge_seen g) in
  let '(bufs, batches) := foldl (flush_one myMarks) (lazyBuffers g, []) (LazyPeers (ge_overlay g)) in
  (set_lazyBuffers bufs g, batches).

(** Whether the stream opens, and how its three writes fare. *)
Record batch_outcome := mkBatchOutcome {
  bo_open : bool;
  bo_type : write_outcome;
  bo_len : write_outcome;
  bo_data : write_outcome;
}.

(** The new counters, and the bytes on the stream if it was opened. *)
Definition sendLazyBatch `{Zstd} (g : GossipEngine) (batch : LazyBatch) (o : batch_outcome) :
    GossipEngine * option bytes :=
  if negb (bo_open o) then (add_stat LazyFail 1 g, None)
  else
    let s0 := written (bo_type o) [StreamTypeLazyBatch] in
    if negb (write_ok (bo_type o)) then (add_stat LazyFail 1 g, Some s0)
    else
      let compressed := EncodeLazyBatch batch in
      let lenBuf := be_put 4 (u32 (Z.of_nat (length compressed))) in
      let s1 := s0 ++ written (bo_len o) lenBuf in
      if negb (write_ok (bo_len o)) then (add_stat LazyFail 1 g, Some s1)
      else
        let s2 := s1 ++ written (bo_data o) compressed in
        if negb (write_ok (bo_data o)) then (add_stat LazyFail 1 g, Some s2)
        else (add_stat LazyBytesSent (1 + 4 + Z.of_nat (length compressed)) (add_stat LazySend 1 g), Some s2).

(** ** Timers and the event loop *)

(** The [i]-th sleeping timer expires, with the peers as [conns] answers. *)
Definition gap_timer (g : GossipEngine) (i : nat) (conns : OverlayPeer → peer_conn) : option GossipEngine :=
  '(t, x) ← ge_timers g !! i;
  Some (with_applier (set_timers (delete i (ge_timers g)) g)
          (gapTimer (Some (RequestRepair (ge_overlay g) conns)) (ge_applier g) t x)).

(** The cases of the [select] in [Run] other than the end of the context. *)
Definition run_local (ev : env) (g : GossipEngine) : option (GossipEngine * list sent) :=
  match localCh g with
  | [] => None
  | entry :: rest => Some (handleLocal ev (set_localCh rest g) entry)
  end.

(** The consumer takes an entry from the channel [Deliver] returns. *)
Definition consume (g : GossipEngine) : option (DeliveredEntry * GossipEngine) :=
  match deliverCh g with
  | [] => None
  | d :: rest => Some (d, set_deliverCh rest g)
  end.
