(* ===== verification/EngineSpec.v ===== *)
(** * What each engine handler does (src/engine/engine.go)

    The effect of every handler on each part of the state, and the properties
    of single handlers: the delivery channel, forwarding and its exclusions,
    redundant copies, and the eager and lazy paths from one engine to another. *)

From S2P Require Import Prelude Seen Stream EagerWire Batch Ordered OrderedSpec OrderedRun Overlay Repair Engine.

(** ** Counters *)

Lemma bump_eq c n s : bump c n s c = s c + n.
Proof. unfold bump. by rewrite decide_True. Qed.

Lemma bump_ne c c' n s : c' ≠ c → bump c n s c' = s c'.
Proof. unfold bump. intros. by rewrite decide_False. Qed.

#[global] Arguments bump : simpl never.

(** The part of the state that forwarding does not touch. *)
Definition core (g : GossipEngine) :=
  (ge_overlay g, ge_seen g, ge_applier g, ge_repair g, ge_cfg g, localCh g, deliverCh g, ge_timers g).

(** The counters that forwarding changes. *)
Definition send_counter (c : counter) : bool :=
  match c with EagerSend | EagerFail | EagerBytesSent => true | _ => false end.

(** ** Delivery *)

Definition room (g : GossipEngine) : nat :=
  Z.to_nat (DeliverBufferSize (ge_cfg g) - Z.of_nat (length (deliverCh g))).

Definition to_delivered (d : Z * Z * bytes) : DeliveredEntry := mkDelivered d.1.1 d.1.2 d.2.

(** Deliveries [D] reach the channel as far as they fit; the rest is dropped. *)
Record fills (g g' : GossipEngine) (D : list (Z * Z * bytes)) : Prop := {
  fl_deliver : deliverCh g' = deliverCh g ++ take (room g) (to_delivered <$> D);
  fl_count : ge_stats g' DeliverCount = ge_stats g DeliverCount + Z.of_nat (Nat.min (room g) (length D));
  fl_drop : ge_stats g' DeliverDrop = ge_stats g DeliverDrop + Z.of_nat (length D - room g);
  fl_cfg : ge_cfg g' = ge_cfg g;
}.

(** The applier moves to [a] with the effects [es]. *)
Record delivers (g g' : GossipEngine) (a : OrderedApplier) (es : list effect) : Prop := {
  dl_applier : ge_applier g' = a;
  dl_timers : ge_timers g' = ge_timers g ++ timers_of es;
  dl_fills : fills g g' (deliveries es);
}.

(** What performing the effects of an applier method does to the engine. *)
Record performed (g g' : GossipEngine) (a : OrderedApplier) (es : list effect) : Prop := {
  pf_delivers : delivers g g' a es;
  pf_stats : ∀ c, c ≠ DeliverCount → c ≠ DeliverDrop → ge_stats g' c = ge_stats g c;
  pf_rest : (ge_overlay g', ge_seen g', ge_repair g', ge_cfg g', localCh g', lazyBuffers g', eagerStreams g') =
            (ge_overlay g, ge_seen g, ge_repair g, ge_cfg g, localCh g, lazyBuffers g, eagerStreams g);
}.

Lemma deliver_fills g t q p : fills g (deliver g t q p) [(t, q, p)].
Proof.
  unfold deliver. destruct (Z.ltb_spec (Z.of_nat (length (deliverCh g))) (DeliverBufferSize (ge_cfg g))) as [Hlt|Hge].
  - destruct (room g) as [|k] eqn:E; [unfold room in E; lia|].
    split; cbn; rewrite ?E; cbn; rewrite ?take_nil; try done.
    + rewrite bump_eq. lia.
    + rewrite bump_ne by done. lia.
  - assert (room g = 0%nat) as E by (unfold room; lia).
    split; cbn; rewrite ?E; cbn; rewrite ?app_nil_r; try done.
    rewrite bump_ne by done. lia.
Qed.

Lemma deliver_delivers g t q p : delivers g (deliver g t q p) (ge_applier g) [Deliver t q p].
Proof.
  split; [..|apply deliver_fills]; unfold deliver; case_match; cbn; by rewrite ?app_nil_r.
Qed.

Lemma deliver_performed g t q p : performed g (deliver g t q p) (ge_applier g) [Deliver t q p].
Proof.
  split; [apply deliver_delivers|..]; unfold deliver; case_match; try done.
  all: intros c ? ?; by apply bump_ne.
Qed.

Lemma fills_app g g1 g2 D1 D2 : fills g g1 D1 → fills g1 g2 D2 → fills g g2 (D1 ++ D2).
Proof.
  intros [F1 C1 P1 R1] [F2 C2 P2 R2].
  assert (room g1 = (room g - length D1)%nat) as Hroom.
  { unfold room. rewrite R1, F1, length_app, length_take, length_fmap. unfold room. lia. }
  split.
  - rewrite F2, F1, fmap_app, take_app, length_fmap, Hroom, app_assoc. done.
  - rewrite C2, C1, length_app, Hroom. lia.
  - rewrite P2, P1, length_app, Hroom. lia.
  - congruence.
Qed.

Lemma delivers_app g g1 g2 a1 a2 es1 es2 :
  delivers g g1 a1 es1 → delivers g1 g2 a2 es2 → delivers g g2 a2 (es1 ++ es2).
Proof.
  intros [A1 T1 F1] [A2 T2 F2]. split.
  - done.
  - by rewrite T2, T1, timers_of_app, app_assoc.
  - rewrite deliveries_app. by eapply fills_app.
Qed.

Lemma performed_app g g1 g2 a1 a2 es1 es2 :
  performed g g1 a1 es1 → performed g1 g2 a2 es2 → performed g g2 a2 (es1 ++ es2).
Proof.
  intros [D1 S1 R1] [D2 S2 R2]. split.
  - by eapply delivers_app.
  - intros c Hc1 Hc2. by rewrite S2, S1.
  - by rewrite R2.
Qed.

(** Nothing delivered: the fields a delivery depends on are the same. *)
Lemma fills_nil g g' :
  deliverCh g' = deliverCh g →
  ge_stats g' DeliverCount = ge_stats g DeliverCount → ge_stats g' DeliverDrop = ge_stats g DeliverDrop →
  ge_cfg g' = ge_cfg g → fills g g' [].
Proof. intros. split; cbn; rewrite ?take_nil, ?app_nil_r; (done || lia). Qed.

Lemma perform_performed g e : performed g (perform g e) (ge_applier g) [e].
Proof.
  destruct e as [t q p|t x]; cbn [perform]; [apply deliver_performed|].
  split; [|done..]. split; [done|done|by apply fills_nil].
Qed.

Lemma performed_nil g a : performed g (set_applier a g) a [].
Proof. split; [|done..]. split; [done|cbn; by rewrite app_nil_r|by apply fills_nil]. Qed.

Lemma with_applier_performed g r : performed g (with_applier g r) r.1 r.2.
Proof.
  destruct r as [a es]. unfold with_applier. cbn [fst snd].
  enough (performed (set_applier a g) (foldl perform (set_applier a g) es) a es) as Hp.
  { exact (performed_app _ _ _ _ _ [] es (performed_nil g a) Hp). }
  assert (∀ g0, performed g0 (foldl perform g0 es) (ge_applier g0) es) as Hall; [|apply (Hall (set_applier a g))].
  induction es as [|e es IH]; intros g0; cbn [foldl].
  - pose proof (performed_nil g0 (ge_applier g0)) as Hn. by destruct g0.
  - pose proof (perform_performed g0 e) as He. pose proof (dl_applier _ _ _ _ (pf_delivers _ _ _ _ He)) as Ha.
    change (e :: es) with ([e] ++ es). eapply performed_app; [exact He|]. rewrite <- Ha. apply IH.
Qed.

(** ** Forwarding *)

Definition sent_to (s : sent) : string * bytes :=
  match s with SentDatagram a m _ => (a, m) | SentOnStream a m _ => (a, m) end.

Definition sent_ok (s : sent) : bool :=
  match s with SentDatagram _ _ ok => ok | SentOnStream _ _ ok => ok end.

Definition others (excl : string) (peers : list OverlayPeer) : list OverlayPeer :=
  filter (fun p => op_NodeID p ≠ excl) peers.

(** What forwarding [entry] to [peers] does. *)
Record forwarded (entry : GossipEntry) (g g' : GossipEngine) (peers : list OverlayPeer) (out : list sent) : Prop := {
  fw_core : core g' = core g;
  fw_bufs : lazyBuffers g' = lazyBuffers g;
  fw_stats : ∀ c, send_counter c = false → ge_stats g' c = ge_stats g c;
  fw_out : sent_to <$> out = (fun p => (op_Addr p, encodeEagerMessage entry)) <$> peers;
  fw_sends : ge_stats g' EagerSend = ge_stats g EagerSend + Z.of_nat (length (filter (fun s => sent_ok s = true) out));
  fw_fails : ge_stats g' EagerFail = ge_stats g EagerFail + Z.of_nat (length (filter (fun s => sent_ok s = false) out));
}.

Lemma forwarded_nil entry g : forwarded entry g g [] [].
Proof. split; cbn; (done || lia). Qed.

Lemma forwarded_snoc entry g g1 g2 peers p out s :
  forwarded entry g g1 peers out → forwarded entry g1 g2 [p] [s] → forwarded entry g g2 (peers ++ [p]) (out ++ [s]).
Proof.
  intros [C1 B1 S1 O1 E1 F1] [C2 B2 S2 O2 E2 F2]. split.
  - congruence.
  - congruence.
  - intros c Hc. by rewrite S2, S1.
  - by rewrite !fmap_app, O1, O2.
  - rewrite E2, E1, filter_app, length_app. lia.
  - rewrite F2, F1, filter_app, length_app. lia.
Qed.

Lemma getEagerStream_core g addr :
  let g1 := (getEagerStream g addr).2 in
  core g1 = core g ∧ lazyBuffers g1 = lazyBuffers g ∧ ge_stats g1 = ge_stats g.
Proof. unfold getEagerStream. by destruct (eagerStreams g !! addr). Qed.

Lemma count_one (s : sent) b :
  length (filter (fun s => sent_ok s = b) [s]) = if Bool.eqb (sent_ok s) b then 1%nat else 0%nat.
Proof. rewrite filter_cons. by destruct (sent_ok s), b. Qed.

(** The counters of one send, for the two ways to send. *)
Lemma count_send entry g g1 p s (ok : bool) n :
  core g1 = core g → lazyBuffers g1 = lazyBuffers g → ge_stats g1 = ge_stats g →
  sent_to s = (op_Addr p, encodeEagerMessage entry) → sent_ok s = ok →
  forwarded entry g
    (if ok then add_stat EagerBytesSent n (add_stat EagerSend 1 g1) else add_stat EagerFail 1 g1) [p] [s].
Proof.
  intros Hc Hb Hs Ht Ho. destruct ok; split; cbn [ge_stats add_stat lazyBuffers]; rewrite ?count_one, ?Ho, ?Hs.
  all: try exact Hc.
  all: try exact Hb.
  all: try (intros c Hsc; rewrite !bump_ne by (intros ->; done); done).
  all: try (cbn; by rewrite Ht).
  - by rewrite bump_ne, bump_eq.
  - rewrite !bump_ne by done. cbn. lia.
  - rewrite bump_ne by done. cbn. lia.
  - by rewrite bump_eq.
Qed.

Lemma forward_to_spec ev entry excl g peers acc p :
  forwarded entry g acc.1 peers acc.2 →
  forwarded entry g (forward_to ev entry excl acc p).1 (peers ++ others excl [p]) (forward_to ev entry excl acc p).2.
Proof.
  destruct acc as [g1 out]. cbn [fst snd]. intros Hf. unfold others. rewrite filter_cons, filter_nil.
  unfold forward_to. destruct (decide (op_NodeID p = excl)) as [He|He].
  { rewrite decide_False by naive_solver. by rewrite app_nil_r. }
  rewrite decide_True by done. destruct (Nat.ltb maxDatagramPayload (length (encodeEagerMessage entry))).
  - destruct (getEagerStream_core g1 (op_Addr p)) as (Hc & Hb & Hs).
    destruct (getEagerStream g1 (op_Addr p)) as [w g2]. cbn [fst snd] in *.
    destruct (send w (encodeEagerMessage entry) (ev_stream ev p entry)) as [ok w'].
    eapply forwarded_snoc; [exact Hf|]. by apply count_send.
  - eapply forwarded_snoc; [exact Hf|]. by apply count_send.
Qed.

Lemma eagerForward_spec ev g entry excl :
  forwarded entry g (eagerForward ev g entry excl).1
    (others excl (EagerPeers (ge_overlay g))) (eagerForward ev g entry excl).2.
Proof.
  unfold eagerForward. generalize (EagerPeers (ge_overlay g)) as peers.
  induction peers as [|p peers IH] using rev_ind; [apply forwarded_nil|].
  rewrite foldl_app. cbn [foldl]. unfold others in *. rewrite filter_app. by apply forward_to_spec.
Qed.

(** ** Lazy buffers *)

Definition buffer (g : GossipEngine) (id : string) : LazyBuffer := default NewLazyBuffer (lazyBuffers g !! id).

Lemma enqueue_all entry excl peers bufs id :
  NoDup (op_NodeID <$> peers) →
  foldl (enqueue_to entry excl) bufs peers !! id =
    if decide (id ∈ op_NodeID <$> others excl peers)
    then Some (Add (default NewLazyBuffer (bufs !! id)) entry) else bufs !! id.
Proof.
  induction peers as [|p peers IH] using rev_ind; [done|].
  rewrite fmap_app, NoDup_app. intros (Hnd & Hdis & _). specialize (IH Hnd).
  rewrite foldl_app. cbn [foldl]. unfold others in *. rewrite filter_app, fmap_app, filter_cons, filter_nil.
  unfold enqueue_to at 1. destruct (decide (op_NodeID p = excl)) as [He|He].
  { rewrite (decide_False (P := op_NodeID p ≠ excl)) by naive_solver. rewrite app_nil_r. exact IH. }
  rewrite (decide_True (P := op_NodeID p ≠ excl)) by done. cbn [fmap list_fmap].
  destruct (decide (op_NodeID p = id)) as [<-|Hne].
  - rewrite lookup_insert_eq, decide_True by (apply elem_of_app; right; left). do 3 f_equal.
    rewrite IH, decide_False; [done|]. intros Hin. apply (Hdis (op_NodeID p)); [|left].
    apply list_elem_of_fmap in Hin as (p' & -> & Hp'). apply list_elem_of_filter in Hp' as [_ Hp'].
    apply list_elem_of_fmap. by exists p'.
  - rewrite lookup_insert_ne, IH by done. apply decide_ext. rewrite elem_of_app, list_elem_of_singleton. naive_solver.
Qed.

(** The lazy peers of the engine, with distinct names. *)
Definition lazy_ids (g : GossipEngine) : list string := op_NodeID <$> LazyPeers (ge_overlay g).

Lemma enqueueForLazy_buffer g entry excl id :
  NoDup (lazy_ids g) →
  buffer (enqueueForLazy g entry excl) id =
    if decide (id ∈ lazy_ids g ∧ id ≠ excl) then Add (buffer g id) entry else buffer g id.
Proof.
  intros Hnd. unfold buffer, enqueueForLazy, lazy_ids in *. cbn [lazyBuffers set_lazyBuffers].
  rewrite enqueue_all by done. rewrite (decide_ext _ (id ∈ op_NodeID <$> LazyPeers (ge_overlay g) ∧ id ≠ excl)).
  { by case_decide. }
  unfold others. rewrite !list_elem_of_fmap. setoid_rewrite list_elem_of_filter. naive_solver.
Qed.

(** ** The two receive handlers *)

Lemma set_seen_same g : set_seen (ge_seen g) g = g.
Proof. by destruct g. Qed.

Lemma process_dup ev recv dup from g e :
  Seq e ≤ CurrentSeq (ge_seen g) (Topic e) → process ev recv dup from g e = (add_stat dup 1 g, []).
Proof.
  intros Hle. unfold process, ShouldProcess. rewrite (proj2 (Z.leb_le _ _) Hle). by rewrite set_seen_same.
Qed.

(** What accepting an entry does, part by part. *)
Record accepted (ev : env) (from : string) (e : GossipEntry) (g g' : GossipEngine) (out : list sent) : Prop := {
  ac_out : sent_to <$> out =
    (fun p => (op_Addr p, encodeEagerMessage e)) <$> others from (EagerPeers (ge_overlay g));
  ac_bufs : NoDup (lazy_ids g) → ∀ id, buffer g' id =
    if decide (id ∈ lazy_ids g ∧ id ≠ from) then Add (buffer g id) e else buffer g id;
  ac_cache : ge_repair g' = CacheEntry (ev_first ev e) (ge_repair g) e;
  ac_seen : ge_seen g' = ge_seen g;
  ac_applier : (ge_applier g', ge_timers g', deliverCh g') =
    (ge_applier (applier_receive g e), ge_timers (applier_receive g e), deliverCh (applier_receive g e));
  ac_same : (ge_overlay g', ge_cfg g', localCh g') = (ge_overlay g, ge_cfg g, localCh g);
  ac_stats : ∀ c, send_counter c = false → ge_stats g' c = ge_stats (applier_receive g e) c;
}.

(** [applier_receive] only looks at the applier, the channel and the timers. *)
Lemma applier_receive_repair r g e :
  applier_receive (set_repair r g) e = set_repair r (applier_receive g e).
Proof.
  unfold applier_receive, with_applier. cbn [ge_applier set_repair].
  destruct (Receive _ _ _ _) as [a es]. cbn [fst snd].
  change (set_applier a (set_repair r g)) with (set_repair r (set_applier a g)).
  generalize (set_applier a g) as g0. induction es as [|x es IH]; intros g0; [done|]. cbn [foldl].
  rewrite <- IH. f_equal. destruct x as [t q p|t x]; [|done]. cbn [perform]. unfold deliver.
  cbn [deliverCh set_repair ge_cfg]. by destruct (_ <? _).
Qed.

Lemma accept_spec ev from e g : accepted ev from e g (accept ev g from e).1 (accept ev g from e).2.
Proof.
  unfold accept. rewrite applier_receive_repair. set (c := CacheEntry _ _ e).
  pose proof (with_applier_performed g (Receive (ge_applier g) (Topic e) (Seq e) (Payload e))) as [_ _ R].
  fold (applier_receive g e) in R. set (g1 := applier_receive g e) in *. injection R as Ro Rs Rr Rc Rl Rb Re.
  pose proof (eagerForward_spec ev (set_repair c g1) e from) as [Fc Fb Fs Fo _ _].
  destruct (eagerForward ev (set_repair c g1) e from) as [g3 out]. cbn [fst snd] in *.
  injection Fc as Co Cs Ca Cr Cc Cl Cd Ct. cbn [ge_overlay set_repair] in *.
  assert (lazy_ids g3 = lazy_ids g) as Hids by (unfold lazy_ids; congruence).
  split; cbn [enqueueForLazy set_lazyBuffers ge_repair ge_seen ge_applier ge_timers deliverCh ge_overlay ge_cfg localCh ge_stats].
  - by rewrite Fo, Ro.
  - intros Hnd id. rewrite enqueueForLazy_buffer by (by rewrite Hids). rewrite Hids.
    unfold buffer. rewrite Fb. cbn [lazyBuffers set_repair]. by rewrite Rb.
  - done.
  - by rewrite Cs, Rs.
  - by rewrite Ca, Ct, Cd.
  - by rewrite Co, Cc, Cl, Ro, Rc, Rl.
  - intros k Hk. by rewrite Fs.
Qed.

(** A fresh entry is marked seen, counted and accepted. *)
Lemma process_fresh ev recv dup from g e :
  CurrentSeq (ge_seen g) (Topic e) < Seq e →
  process ev recv dup from g e =
    accept ev (add_stat recv 1 (set_seen (ShouldProcess (ge_seen g) (Topic e) (Seq e)).2 g)) from e.
Proof.
  intros Hlt. unfold process. pose proof (ShouldProcess_answer (ge_seen g) (Topic e) (Seq e)) as Ha.
  destruct (ShouldProcess _ _ _) as [b s]. cbn [fst snd] in *. rewrite Ha, bool_decide_eq_true_2 by done. done.
Qed.

Lemma process_seen ev recv dup from g e t :
  CurrentSeq (ge_seen (process ev recv dup from g e).1) t =
    if decide (Topic e = t) then Z.max (CurrentSeq (ge_seen g) (Topic e)) (Seq e) else CurrentSeq (ge_seen g) t.
Proof.
  destruct (decide (CurrentSeq (ge_seen g) (Topic e) < Seq e)) as [Hlt|Hge].
  - rewrite process_fresh by done. rewrite (ac_seen _ _ _ _ _ _ (accept_spec _ _ _ _)).
    cbn [ge_seen add_stat set_seen]. apply CurrentSeq_ShouldProcess.
  - rewrite process_dup by lia. cbn. case_decide; subst; lia.
Qed.

(** ** Properties *)

(** Delivery never blocks and never loses count.  Passing an entry to the
    applier appends the deliveries it causes, in order, to the delivery channel
    as far as its capacity allows; the ones that fit are counted as delivered,
    the rest as dropped, and no other counter moves. *)
Theorem delivery_accounting g e :
  let D := deliveries (Receive (ge_applier g) (Topic e) (Seq e) (Payload e)).2 in
  let free := Z.to_nat (DeliverBufferSize (ge_cfg g) - Z.of_nat (length (deliverCh g))) in
  let g' := applier_receive g e in
  deliverCh g' = deliverCh g ++ take free (to_delivered <$> D) ∧
  Stats g' DeliverCount = Stats g DeliverCount + Z.of_nat (Nat.min free (length D)) ∧
  Stats g' DeliverDrop = Stats g DeliverDrop + Z.of_nat (length D - free) ∧
  (∀ c, c ≠ DeliverCount → c ≠ DeliverDrop → Stats g' c = Stats g c) ∧
  (Z.of_nat (length (deliverCh g)) ≤ DeliverBufferSize (ge_cfg g) →
   Z.of_nat (length (deliverCh g')) ≤ DeliverBufferSize (ge_cfg g)).
Proof.
  intros D free g'.
  pose proof (with_applier_performed g (Receive (ge_applier g) (Topic e) (Seq e) (Payload e))) as [[_ _ [Hd Hc Hp _]] Hs _].
  fold (applier_receive g e) g' D in Hd, Hc, Hp, Hs. fold (room g) in free. fold free in Hd, Hc, Hp.
  unfold Stats. split_and!; [done..|]. intros Hcap.
  rewrite Hd, length_app, length_take. unfold free, room. lia.
Qed.

(** A redundant copy changes nothing.  After an eager message was handled, a
    second copy of it, from any sender and over any connection, is answered
    with no send, and only the byte and duplicate counters change. *)
Theorem redundant_copy_ignored ev1 ev2 from1 from2 g data :
  let g1 := (onEagerReceive ev1 g from1 data).1 in
  let n := Z.of_nat (length data) in
  onEagerReceive ev2 g1 from2 data =
    (match decodeEagerMessage data with
     | Ok _ => add_stat EagerDup 1 (add_stat BytesRecv n g1)
     | Err _ => add_stat BytesRecv n g1
     end, []).
Proof.
  intros g1 n. unfold onEagerReceive at 1. subst g1. unfold onEagerReceive.
  destruct (decodeEagerMessage data) as [e|err]; [|done].
  apply process_dup. cbn [ge_seen add_stat]. rewrite process_seen, decide_True by done. lia.
Qed.

(** Dissemination of a fresh entry, whole handler.  An eager message with a
    sequence number above the topic's mark raises the mark, is cached for
    repair, goes through the ordered applier, is sent once to every eager peer
    whose name is not the sender's, and is added to the buffer of every lazy
    peer whose name is not the sender's. *)
Theorem fresh_entry_disseminated ev g from data e
    (Hdec : decodeEagerMessage data = Ok e)
    (Hfresh : CurrentSeq (ge_seen g) (Topic e) < Seq e)
    (Hlazy : NoDup (lazy_ids g)) :
  let '(g', out) := onEagerReceive ev g from data in
  CurrentSeq (ge_seen g') (Topic e) = Seq e ∧
  cache (ge_repair g') !! entry_key e = Some (Payload e) ∧
  ge_applier g' = (Receive (ge_applier g) (Topic e) (Seq e) (Payload e)).1 ∧
  sent_to <$> out =
    (fun p => (op_Addr p, encodeEagerMessage e)) <$>
      filter (fun p => op_NodeID p ≠ from) (EagerPeers (ge_overlay g)) ∧
  (∀ id, buffer g' id = if decide (id ∈ lazy_ids g ∧ id ≠ from) then Add (buffer g id) e else buffer g id) ∧
  Stats g' EagerRecv = Stats g EagerRecv + 1 ∧ Stats g' EagerDup = Stats g EagerDup ∧
  Stats g' BytesRecv = Stats g BytesRecv + Z.of_nat (length data).
Proof.
  unfold onEagerReceive. rewrite Hdec. rewrite process_fresh by done.
  set (g0 := add_stat EagerRecv 1 (set_seen _ _)).
  destruct (accept_spec ev from e g0) as [Ho Hb Hc Hs Ha _ Hst].
  destruct (accept ev g0 from e) as [g' out]. cbn [fst snd] in *. injection Ha as Ha _ _.
  pose proof (with_applier_performed g0 (Receive (ge_applier g0) (Topic e) (Seq e) (Payload e))) as [[Pa _ _] Ps _].
  fold (applier_receive g0 e) in Pa, Ps. unfold Stats. split_and!.
  - rewrite Hs. unfold g0. cbn [ge_seen add_stat set_seen]. rewrite CurrentSeq_ShouldProcess, decide_True by done. lia.
  - rewrite Hc. by rewrite CacheEntry_lookup, decide_True.
  - by rewrite Ha, Pa.
  - exact Ho.
  - exact (Hb Hlazy).
  - by rewrite Hst, Ps by done.
  - by rewrite Hst, Ps by done.
  - by rewrite Hst, Ps by done.
Qed.

(** A quiet environment: sends succeed. *)
Definition quiet_env : env := mkEnv (fun _ => least_choice) (fun _ _ => true) (fun _ _ => all_ok).

Definition two_peers : Overlay :=
  mkOverlay (Overlay.withDefaults (mkOverlayConfig 0 0 0 0)) "self"
    [classify (mkPeer "a" "a:1" 5) true; classify (mkPeer "b" "b:1" 6) true]
    [classify (mkPeer "c" "c:1" 7) false].

Definition two_peer_engine : GossipEngine := New two_peers (mkEngineConfig 0 0 0 0).

Lemma fresh_entry_disseminated_witness :
  let e := mkEntry 1 7 [x61] in
  let '(g', out) := onEagerReceive quiet_env two_peer_engine "a" (strip_type (encodeEagerMessage e)) in
  CurrentSeq (ge_seen g') 1 = 7 ∧ sent_to <$> out = [("b:1", encodeEagerMessage e)].
Proof.
  intros e.
  assert (decodeEagerMessage (strip_type (encodeEagerMessage e)) = Ok e) as Hdec by (vm_compute; reflexivity).
  pose proof (fresh_entry_disseminated quiet_env two_peer_engine "a" _ e Hdec) as H.
  destruct (onEagerReceive quiet_env two_peer_engine "a" _) as [g' out].
  destruct H as (H1 & _ & _ & H2 & _).
  - vm_compute. reflexivity.
  - vm_compute. apply NoDup_singleton.
  - split; [exact H1|exact H2].
Defined.

(** ** From engine to engine: the eager path *)

(** The first delivery of a receive that is expected. *)
Lemma applier_receive_expected g e :
  keys_ok (pending (slot (ge_applier g) (Topic e))) → 0 ≤ Seq e < MaxUint64 →
  NextSeq (ge_applier g) (Topic e) = Seq e →
  Z.of_nat (length (deliverCh g)) < DeliverBufferSize (ge_cfg g) →
  ∃ rest, deliverCh (applier_receive g e) = deliverCh g ++ mkDelivered (Topic e) (Seq e) (Payload e) :: rest ∧
    Seq e < NextSeq (ge_applier (applier_receive g e)) (Topic e).
Proof.
  intros Hk Hq Hnext Hroom. unfold NextSeq in *.
  pose proof (with_applier_performed g (Receive (ge_applier g) (Topic e) (Seq e) (Payload e))) as [[Ha _ [Hd _ _ _]] _ _].
  fold (applier_receive g e) in Ha, Hd. rewrite Hd, Ha. clear Ha Hd.
  unfold Receive. destruct (on_slot_spec (ge_applier g) (Topic e)
    (receive_slot (maxGapBuffer (ge_applier g)) (Topic e) (Seq e) (Payload e))) as (E1 & E2 & _).
  rewrite E1, E2. clear E1 E2. set (s := slot (ge_applier g) (Topic e)) in *.
  destruct (receive_expected (maxGapBuffer (ge_applier g)) (Topic e) (Payload e) s Hk) as (ps & Hd & Hdr); [lia|].
  rewrite Hnext in Hd, Hdr. rewrite Hd, run_of_cons, fmap_cons.
  destruct (room g) as [|k] eqn:E; [unfold room in E; lia|]. cbn [take].
  eexists. split; [done|]. rewrite (dr_next _ _ _ _ Hdr). cbn. lia.
Qed.

(** [handleLocal] sends the entry to every eager peer with a name. *)
Lemma handleLocal_sent ev g e :
  sent_to <$> (handleLocal ev g e).2 =
    (fun p => (op_Addr p, encodeEagerMessage e)) <$> others "" (EagerPeers (ge_overlay g)).
Proof.
  unfold handleLocal. set (g3 := set_repair _ _).
  pose proof (eagerForward_spec ev g3 e "") as [_ _ _ Fo _ _].
  destruct (eagerForward ev g3 e "") as [g4 out]. exact Fo.
Qed.



(** ** From engine to engine: the lazy path *)

(** The batch a lazy peer is due, if it has anything buffered. *)
Definition due (g : GossipEngine) (marks : list TopicSeq) (p : OverlayPeer) : option (string * LazyBatch) :=
  let buf := buffer g (op_NodeID p) in
  if (Len buf =? 0)%nat then None else Some (op_Addr p, mkBatch (lb_entries buf) marks).

Lemma flush_empty b : Len b = 0%nat → (Flush b).2 = b.
Proof. destruct b as [[|e l] ps]; [done|]. cbn. lia. Qed.

Lemma decide_snoc {A} (l : list string) x id (a b : A) :
  (if decide (id ∈ l ++ [x]) then a else b) =
    if decide (id = x) then a else if decide (id ∈ l) then a else b.
Proof. repeat case_decide; (done || set_solver). Qed.

(** One peer: its batch if due, and its buffer flushed. *)
Lemma flush_one_spec marks bufs out p :
  let b := default NewLazyBuffer (bufs !! op_NodeID p) in
  let r := flush_one marks (bufs, out) p in
  r.2 = out ++ (if (Len b =? 0)%nat then [] else [(op_Addr p, mkBatch (lb_entries b) marks)]) ∧
  ∀ id, default NewLazyBuffer (r.1 !! id) =
    if decide (id = op_NodeID p) then (Flush b).2 else default NewLazyBuffer (bufs !! id).
Proof.
  intros b. unfold flush_one. destruct (bufs !! op_NodeID p) as [buf|] eqn:E; subst b; cbn [default from_option id].
  - destruct (Nat.eqb_spec (Len buf) 0) as [H0|H0]; cbn [fst snd Flush].
    + split; [by rewrite app_nil_r|]. intros id. case_decide as Hid; [|done]. subst. rewrite E. symmetry. by apply (flush_empty buf).
    + split; [done|]. intros id. case_decide as Hid; [subst; by rewrite lookup_insert_eq|by rewrite lookup_insert_ne].
  - cbn. split; [by rewrite app_nil_r|]. intros id. case_decide; [subst; by rewrite E|done].
Qed.

Lemma flush_all marks g peers :
  NoDup (op_NodeID <$> peers) →
  let r := foldl (flush_one marks) (lazyBuffers g, []) peers in
  r.2 = omap (due g marks) peers ∧
  ∀ id, default NewLazyBuffer (r.1 !! id) =
    if decide (id ∈ op_NodeID <$> peers) then (Flush (buffer g id)).2 else buffer g id.
Proof.
  induction peers as [|p peers IH] using rev_ind; [done|].
  rewrite fmap_app, NoDup_app. intros (Hnd & Hdis & _). specialize (IH Hnd). cbv zeta in *.
  rewrite foldl_app, omap_app. cbn [foldl fmap list_fmap].
  destruct (foldl (flush_one marks) _ peers) as [bufs out]. cbn [fst snd] in IH. destruct IH as [-> IH].
  assert (default NewLazyBuffer (bufs !! op_NodeID p) = buffer g (op_NodeID p)) as Hbuf.
  { rewrite IH, decide_False; [done|]. intros Hin. apply (Hdis _ Hin). left. }
  destruct (flush_one_spec marks bufs (omap (due g marks) peers) p) as [H1 H2]. rewrite Hbuf in H1, H2. split.
  - rewrite H1. f_equal. cbn. unfold due. by case_match.
  - intros id. rewrite H2, decide_snoc, <- IH. by case_decide; subst.
Qed.

(** A tick flushes exactly what is due.  Every lazy peer with a non-empty
    buffer gets one batch, with its buffered entries in order and this node's
    high-water marks; afterwards those buffers are empty, keep what is known of
    the peer, and every other part of the engine is unchanged. *)
Theorem flush_exact g (Hnd : NoDup (lazy_ids g)) :
  let '(g', batches) := flushLazyBatches g in
  batches = omap (fun p =>
    match lb_entries (buffer g (op_NodeID p)) with
    | [] => None
    | es => Some (op_Addr p, mkBatch es (HighWaterMarks (ge_seen g)))
    end) (LazyPeers (ge_overlay g)) ∧
  (∀ id, buffer g' id = if decide (id ∈ lazy_ids g) then mkBuffer [] (peerSeqs (buffer g id)) else buffer g id) ∧
  g' = set_lazyBuffers (lazyBuffers g') g.
Proof.
  unfold flushLazyBatches, lazy_ids in *. destruct (flush_all (HighWaterMarks (ge_seen g)) g _ Hnd) as [H1 H2].
  destruct (foldl _ _ _) as [bufs batches]. cbn [fst snd] in *. split_and!; [|exact H2|done].
  rewrite H1. apply list_omap_ext, Forall2_same_length_lookup_2; [done|]. intros i p p' Hp Hp'. simplify_eq.
  unfold due, Len. by destruct (lb_entries _).
Qed.

Lemma flush_exact_witness :
  let e := mkEntry 1 7 [x61] in
  let '(g', batches) := flushLazyBatches (handleLocal quiet_env two_peer_engine e).1 in
  batches = [("c:1"%string, mkBatch [e] [mkTopicSeq 1 7])] ∧ buffer g' "c" = NewLazyBuffer.
Proof.
  intros e.
  assert (NoDup (lazy_ids (handleLocal quiet_env two_peer_engine e).1)) as Hnd by (vm_compute; apply NoDup_singleton).
  pose proof (flush_exact _ Hnd) as H.
  destruct (flushLazyBatches _) as [g' batches]. destruct H as (-> & Hb & _).
  split; [vm_compute; reflexivity|]. rewrite Hb. vm_compute. reflexivity.
Defined.

(** The entries of a batch that get past the duplicate filter. *)
Fixpoint fresh_entries (s : SeenTracker) (es : list GossipEntry) : list GossipEntry :=
  match es with
  | [] => []
  | e :: es' =>
      let '(fresh, s') := ShouldProcess s (Topic e) (Seq e) in
      if (fresh : bool) then e :: fresh_entries s' es' else fresh_entries s' es'
  end.

Lemma process_all_state ev from g es :
  (process_all ev from g es).1 = foldl (fun g e => (process ev LazyRecv LazyDup from g e).1) g es.
Proof.
  unfold process_all. generalize (@nil sent) as out. revert g.
  induction es as [|e es IH]; intros g out; [done|]. cbn [foldl].
  destruct (process ev LazyRecv LazyDup from g e) as [g' out']. apply IH.
Qed.

(** One entry: what it does to the filter, the applier and the counters. *)
Lemma process_parts ev recv dup from g e :
  send_counter recv = false → send_counter dup = false →
  recv ≠ DeliverCount → recv ≠ DeliverDrop → dup ≠ DeliverCount → dup ≠ DeliverDrop → recv ≠ dup →
  let '(fresh, s') := ShouldProcess (ge_seen g) (Topic e) (Seq e) in
  let g' := (process ev recv dup from g e).1 in
  ge_seen g' = s' ∧
  ge_applier g' = (if fresh then (Receive (ge_applier g) (Topic e) (Seq e) (Payload e)).1 else ge_applier g) ∧
  ge_stats g' recv = ge_stats g recv + (if fresh then 1 else 0) ∧
  ge_stats g' dup = ge_stats g dup + (if fresh then 0 else 1).
Proof.
  intros Hr Hd Hr1 Hr2 Hd1 Hd2 Hne. unfold process.
  destruct (ShouldProcess (ge_seen g) (Topic e) (Seq e)) as [fresh s']. destruct fresh.
  - set (g0 := add_stat recv 1 (set_seen s' g)).
    destruct (accept_spec ev from e g0) as [_ _ _ Hs Ha _ Hst].
    destruct (accept ev g0 from e) as [g' out]. cbn [fst snd] in *. injection Ha as Ha _ _.
    pose proof (with_applier_performed g0 (Receive (ge_applier g0) (Topic e) (Seq e) (Payload e))) as [[Pa _ _] Ps _].
    fold (applier_receive g0 e) in Pa, Ps. rewrite Hs, Ha, Pa, !Hst, !Ps by done.
    unfold g0. cbn [ge_seen ge_applier ge_stats add_stat set_seen]. rewrite bump_eq, bump_ne by done.
    split_and!; [done|done|done|lia].
  - cbn [fst ge_seen ge_applier ge_stats add_stat set_seen]. rewrite bump_eq, bump_ne by done.
    split_and!; [done|done|lia|done].
Qed.

Lemma process_all_parts ev from es g :
  let g' := (process_all ev from g es).1 in
  ge_seen g' = (ShouldProcess_all (ge_seen g) (entry_key <$> es)).2 ∧
  ge_applier g' = foldl (fun a e => (Receive a (Topic e) (Seq e) (Payload e)).1) (ge_applier g)
                    (fresh_entries (ge_seen g) es) ∧
  ge_stats g' LazyRecv = ge_stats g LazyRecv + Z.of_nat (length (fresh_entries (ge_seen g) es)) ∧
  ge_stats g' LazyDup = ge_stats g LazyDup +
    Z.of_nat (length es - length (fresh_entries (ge_seen g) es)) ∧
  (length (fresh_entries (ge_seen g) es) ≤ length es)%nat.
Proof.
  rewrite process_all_state. revert g. induction es as [|e es IH]; intros g; cbn [foldl fmap list_fmap].
  { cbn. split_and!; (done || lia). }
  pose proof (process_parts ev LazyRecv LazyDup from g e) as Hp.
  specialize (IH (process ev LazyRecv LazyDup from g e).1).
  cbn [fresh_entries ShouldProcess_all entry_key ts_topic ts_seq length].
  destruct (ShouldProcess (ge_seen g) (Topic e) (Seq e)) as [fresh s'].
  destruct Hp as (P1 & P2 & P3 & P4); [done..|]. rewrite P1, P2, P3, P4 in IH. clear P1 P2 P3 P4.
  destruct IH as (-> & -> & -> & -> & Hle).
  destruct (ShouldProcess_all s' (entry_key <$> es)) as [bs s'']. cbn [snd].
  destruct fresh; cbn [foldl length]; split_and!; (done || lia).
Qed.

(** C14: The lazy path from end to end.  A batch within the wire format's limits,
    sent on a stream that does not fail, is read back whole by the receiving
    engine: its filter ends as if it had been shown the entries in order, the
    fresh ones go through its applier in that order, and every entry is counted
    once, as received or as a duplicate. *)
Theorem lazy_path_delivers `{HZ : Zstd} `{HS : !ZstdSpec HZ} evB A B batch from
    (Hes : Forall wire_entry_ok (Entries batch)) (Hms : Forall mark_ok (SenderHighWaterMarks batch))
    (Hne : in_word 16 (Z.of_nat (length (Entries batch))))
    (Hnm : in_word 16 (Z.of_nat (length (SenderHighWaterMarks batch))))
    (Hsz : Z.of_nat (length (EncodeLazyBatch batch)) ≤ 16 * 1024 * 1024) :
  let '(A', wire) := sendLazyBatch A batch (mkBatchOutcome true WOk WOk WOk) in
  Stats A' LazySend = Stats A LazySend + 1 ∧
  ∃ body, wire = Some (StreamTypeLazyBatch :: body) ∧
    let B' := (onLazyBatchReceive evB B from (mkReader body EOF)).1 in
    let fresh := fresh_entries (ge_seen B) (Entries batch) in
    ge_seen B' = (ShouldProcess_all (ge_seen B) (entry_key <$> Entries batch)).2 ∧
    ge_applier B' = foldl (fun a e => (Receive a (Topic e) (Seq e) (Payload e)).1) (ge_applier B) fresh ∧
    Stats B' LazyRecv = Stats B LazyRecv + Z.of_nat (length fresh) ∧
    Stats B' LazyDup = Stats B LazyDup + Z.of_nat (length (Entries batch) - length fresh).
Proof.
  unfold sendLazyBatch. cbn [bo_open bo_type bo_len bo_data negb write_ok written]. split.
  { unfold Stats. cbn [ge_stats add_stat]. rewrite bump_ne, bump_eq by done. done. }
  exists (WriteLazyBatch batch). split; [done|].
  unfold onLazyBatchReceive. destruct batch as [es ms]. cbn [Entries SenderHighWaterMarks] in *.
  pose proof (ReadLazyBatch_framed es ms [] EOF Hes Hms Hne Hnm) as Hread. rewrite app_nil_r in Hread.
  rewrite Hread by (unfold in_word; change (2 ^ 32) with 4294967296; lia). clear Hread.
  rewrite decide_True by done. cbn [Entries SenderHighWaterMarks].
  set (B1 := match lazyBuffers B !! from with Some _ => _ | None => _ end).
  assert (ge_seen B1 = ge_seen B ∧ ge_applier B1 = ge_applier B ∧ ge_stats B1 = ge_stats B) as (E1 & E2 & E3)
    by (unfold B1; by destruct (lazyBuffers B !! from)).
  destruct (process_all_parts evB from es B1) as (H1 & H2 & H3 & H4 & _).
  rewrite E1, E2, E3 in *. unfold Stats. split_and!; assumption.
Qed.

Lemma lazy_path_delivers_witness :
  let '(A', wire) := sendLazyBatch (H := stored_zstd) two_peer_engine sample_batch (mkBatchOutcome true WOk WOk WOk) in
  Stats A' LazySend = 1 ∧
  ∃ body, wire = Some (StreamTypeLazyBatch :: body) ∧
    let B' := (onLazyBatchReceive (H := stored_zstd) quiet_env two_peer_engine "x:9" (mkReader body EOF)).1 in
    ge_seen B' = (ShouldProcess_all emptySeen (entry_key <$> Entries sample_batch)).2.
Proof.
  pose proof (lazy_path_delivers (HZ := stored_zstd) quiet_env two_peer_engine two_peer_engine sample_batch "x:9") as H.
  destruct (sendLazyBatch _ _ _) as [A' wire].
  destruct H as (H1 & body & H2 & H3 & _).
  - repeat constructor; by vm_compute.
  - repeat constructor; by vm_compute.
  - by vm_compute.
  - by vm_compute.
  - by vm_compute.
  - split; [exact H1|]. exists body. split; [exact H2|exact H3].
Defined.

(** ** Senders are known by address, peers by name *)

(** The transport names a sender by its remote address, while forwarding
    excludes by node name.  So when no eager peer is named like an address, a
    fresh entry that arrives from an eager peer is sent straight back to the
    address it came from. *)
Theorem sender_gets_entry_back ev g from data e p
    (Hdec : decodeEagerMessage data = Ok e)
    (Hfresh : CurrentSeq (ge_seen g) (Topic e) < Seq e)
    (Hp : p ∈ EagerPeers (ge_overlay g)) (Haddr : op_Addr p = from)
    (Hnames : from ∉ op_NodeID <$> EagerPeers (ge_overlay g)) :
  (from, encodeEagerMessage e) ∈ sent_to <$> (onEagerReceive ev g from data).2.
Proof.
  unfold onEagerReceive. rewrite Hdec, process_fresh by done.
  rewrite (ac_out _ _ _ _ _ _ (accept_spec _ _ _ _)). cbn [ge_overlay add_stat set_seen].
  apply list_elem_of_fmap. exists p. split; [by rewrite Haddr|].
  apply list_elem_of_filter. split; [|done]. intros Heq. apply Hnames.
  apply list_elem_of_fmap. by exists p.
Qed.

Lemma sender_gets_entry_back_witness :
  let e := mkEntry 1 7 [x61] in
  ("a:1"%string, encodeEagerMessage e) ∈
    sent_to <$> (onEagerReceive quiet_env two_peer_engine "a:1" (drop 1 (encodeEagerMessage e))).2.
Proof.
  intros e.
  apply (sender_gets_entry_back quiet_env two_peer_engine "a:1" _ e (classify (mkPeer "a" "a:1" 5) true)).
  - vm_compute. reflexivity.
  - vm_compute. reflexivity.
  - left.
  - reflexivity.
  - apply (bool_decide_unpack _). vm_compute. exact I.
Defined.

(** ** Reordered messages *)

Lemma receive_next_but_one M t q p s :
  0 < M < 2 ^ 63 → q = nextSeq s + 1 → 0 ≤ nextSeq s → q < MaxUint64 →
  deliveries (receive_slot M t q p s).2 = [] ∧ nextSeq (receive_slot M t q p s).1 = nextSeq s ∧
  pending (receive_slot M t q p s).1 = <[q := p]> (pending s).
Proof.
  intros HM -> Hn Hq. unfold receive_slot. cbv zeta.
  rewrite (proj2 (Z.ltb_ge _ _)), (proj2 (Z.ltb_lt _ _)) by lia.
  replace (nextSeq s + 1 - nextSeq s) with 1 by lia.
  rewrite (wrap_id 64 M) by (unfold in_word; lia). rewrite (wrap_id 64 1) by (unfold in_word; lia).
  rewrite (proj2 (Z.leb_le _ _)) by lia.
  destruct (start_timer_spec t (nextSeq s) (mkSlot (nextSeq s) (<[nextSeq s + 1 := p]> (pending s)) (timerFlag s)))
    as (-> & -> & _). done.
Qed.

(** Two messages in the wrong order.  With q the next expected number of a
    topic, entry q+1 arrives first and is buffered; entry q then arrives and is
    turned away by the duplicate filter although it was never seen: it is
    counted as a duplicate, nothing is delivered, and the topic still waits for
    q, which only gap repair can now supply. *)
Theorem reordered_entry_counted_dup ev1 ev2 from1 from2 g t q p1 p2
    (Ht : in_word 16 t) (Hq : 0 ≤ q ∧ q + 1 < MaxUint64)
    (Hseen : CurrentSeq (ge_seen g) t < q) (Hnext : NextSeq (ge_applier g) t = q)
    (Hgap : gap_ok (maxGapBuffer (ge_applier g))) :
  let data e := drop 1 (encodeEagerMessage e) in
  let g1 := (onEagerReceive ev1 g from1 (data (mkEntry t (q + 1) p2))).1 in
  let g2 := (onEagerReceive ev2 g1 from2 (data (mkEntry t q p1))).1 in
  deliverCh g2 = deliverCh g ∧
  Stats g2 EagerDup = Stats g EagerDup + 1 ∧
  NextSeq (ge_applier g2) t = q ∧ pending (slot (ge_applier g2) t) !! (q + 1) = Some p2 ∧
  pending (slot (ge_applier g2) t) !! q = pending (slot (ge_applier g) t) !! q.
Proof.
  intros data g1 g2. unfold MaxUint64 in *.
  assert (∀ q' p, 0 ≤ q' ≤ q + 1 → decodeEagerMessage (data (mkEntry t q' p)) = Ok (mkEntry t q' p)) as Hdec.
  { intros q' p Hq'. apply (decode_encode (mkEntry t q' p)). split; [done|]. cbn. unfold in_word. lia. }
  assert (g2 = add_stat EagerDup 1 (add_stat BytesRecv (Z.of_nat (length (data (mkEntry t q p1)))) g1)) as ->.
  { unfold g2, onEagerReceive. rewrite Hdec by lia. rewrite process_dup; [done|]. cbn [ge_seen add_stat Topic Seq].
    unfold g1, onEagerReceive. rewrite Hdec by lia. rewrite process_seen, decide_True by done. cbn. lia. }
  unfold Stats. cbn [ge_applier deliverCh ge_stats add_stat]. rewrite bump_eq, bump_ne by done.
  unfold g1, onEagerReceive. rewrite Hdec by lia. set (e := mkEntry t (q + 1) p2).
  rewrite process_fresh by (cbn; lia). set (g0 := add_stat EagerRecv 1 (set_seen _ _)).
  destruct (accept_spec ev1 from1 e g0) as [_ _ _ _ Ha _ Hst]. injection Ha as -> _ ->. rewrite Hst by done. clear Hst.
  pose proof (with_applier_performed g0 (Receive (ge_applier g0) (Topic e) (Seq e) (Payload e))) as [[Pa _ [Pd _ _ _]] Ps _].
  fold (applier_receive g0 e) in Pa, Pd, Ps. rewrite Pa, Pd, Ps by done. clear Pa Pd Ps.
  change (ge_applier g0) with (ge_applier g). change (deliverCh g0) with (deliverCh g).
  cbn [Topic Seq Payload e]. unfold Receive, NextSeq in *.
  destruct (on_slot_spec (ge_applier g) t (receive_slot (maxGapBuffer (ge_applier g)) t (q + 1) p2)) as (E1 & E2 & _).
  rewrite E1, E2. clear E1 E2.
  destruct (receive_next_but_one (maxGapBuffer (ge_applier g)) t (q + 1) p2 (slot (ge_applier g) t)) as (-> & -> & ->);
    [exact Hgap|lia|lia|unfold MaxUint64; lia|].
  rewrite lookup_insert_eq, lookup_insert_ne by lia. cbn [fmap list_fmap]. rewrite take_nil, app_nil_r.
  split_and!; [done|done|done|done|done].
Qed.

Lemma reordered_entry_counted_dup_witness :
  let g := SetInitialSeq two_peer_engine 1 6 in
  let data e := drop 1 (encodeEagerMessage e) in
  let g1 := (onEagerReceive quiet_env g "a:1" (data (mkEntry 1 8 [x62]))).1 in
  let g2 := (onEagerReceive quiet_env g1 "a:1" (data (mkEntry 1 7 [x61]))).1 in
  deliverCh g2 = [] ∧ Stats g2 EagerDup = 1 ∧ NextSeq (ge_applier g2) 1 = 7.
Proof.
  intros g data g1 g2.
  destruct (reordered_entry_counted_dup quiet_env quiet_env "a:1" "a:1" g 1 7 [x61] [x62]) as (H1 & H2 & H3 & _).
  - by vm_compute.
  - by vm_compute.
  - by vm_compute.
  - by vm_compute.
  - by vm_compute.
  - split; [exact H1|]. split; [exact H2|exact H3].
Defined.
