(* ===== verification/EngineRun.v ===== *)
(** * Runs of the gossip engine (src/engine/engine.go)

    A run interleaves whole handlers: local entries, ticks, arriving messages
    and batches, expiring gap timers, the consumer, and the owner's calls.
    [engine_refines_applier_run] maps every run to a run of the ordered applier,
    from which the order seen by the consumer follows. *)

From S2P Require Import Prelude Seen Stream EagerWire Batch Ordered OrderedSpec OrderedRun Overlay OverlaySpec Repair Engine EngineSpec.

Inductive engine_act :=
| AEnqueue (topic seq : Z) (payload : bytes)
| ALocal (ev : env)
| ATick
| AEager (ev : env) (from : string) (data : bytes)
| ALazy (ev : env) (from : string) (r : reader)
| ATimer (i : nat) (conns : OverlayPeer → peer_conn)
| AInitial (topic seq : Z)
| AOverlay (o : Overlay)
| AConsume
| ABatchDone (batch : LazyBatch) (o : batch_outcome).

Section Runs.
Context `{HZ : Zstd}.

(** The new state and what the consumer took. *)
Definition do_engine (g : GossipEngine) (a : engine_act) : option (GossipEngine * list DeliveredEntry) :=
  match a with
  | AEnqueue t q p => g' ← Enqueue g t q p; Some (g', [])
  | ALocal ev => '(g', _) ← run_local ev g; Some (g', [])
  | ATick => Some ((flushLazyBatches g).1, [])
  | AEager ev from data => Some ((onEagerReceive ev g from data).1, [])
  | ALazy ev from r => Some ((onLazyBatchReceive ev g from r).1, [])
  | ATimer i conns => g' ← gap_timer g i conns; Some (g', [])
  | AInitial t q => Some (SetInitialSeq g t q, [])
  | AOverlay o => Some (set_overlay o g, [])
  | AConsume => '(d, g') ← consume g; Some (g', [d])
  | ABatchDone b o => Some ((sendLazyBatch g b o).1, [])
  end.

Fixpoint run_engine (g : GossipEngine) (acts : list engine_act) : option (GossipEngine * list DeliveredEntry) :=
  match acts with
  | [] => Some (g, [])
  | a :: acts' =>
      '(g1, taken) ← do_engine g a;
      '(g2, taken') ← run_engine g1 acts';
      Some (g2, taken ++ taken')
  end.

(** ** The overlay and the local queue *)

(** What most actions leave alone. *)
Definition queue_frame (g : GossipEngine) := (ge_overlay g, localCh g).

Lemma process_frame ev recv dup from g e : queue_frame (process ev recv dup from g e).1 = queue_frame g.
Proof.
  unfold process. destruct (ShouldProcess _ _ _) as [[] s']; [|done].
  destruct (accept_spec ev from e (add_stat recv 1 (set_seen s' g))) as [_ _ _ _ _ Hs _].
  destruct (accept _ _ _ _) as [g' out]. cbn [fst snd] in *. injection Hs as Ho _ Hl. unfold queue_frame. by rewrite Ho, Hl.
Qed.

Lemma do_engine_frame g a g' taken :
  do_engine g a = Some (g', taken) →
  match a with
  | AOverlay o => queue_frame g' = (o, localCh g)
  | AEnqueue t q p => queue_frame g' = (ge_overlay g, localCh g ++ [mkEntry t q p]) ∧ (length (localCh g) < 256)%nat
  | ALocal _ => ge_overlay g' = ge_overlay g ∧ ∃ e, localCh g = e :: localCh g'
  | _ => queue_frame g' = queue_frame g
  end.
Proof.
  intros Hdo. destruct a as [t q p|ev| |ev from data|ev from r|i conns|t q|o| |b o]; cbn [do_engine] in *.
  - unfold Enqueue in Hdo. destruct (Nat.ltb_spec (length (localCh g)) 256); cbn in Hdo; [|done]. by injection Hdo as <- <-.
  - unfold run_local in Hdo. destruct (localCh g) as [|e rest]; cbn in Hdo; [done|].
    unfold handleLocal in Hdo. set (g3 := set_repair _ _) in Hdo.
    pose proof (eagerForward_spec ev g3 e "") as [Fc _ _ _ _ _].
    destruct (eagerForward ev g3 e "") as [g4 out]. cbn [fst snd mbind option_bind] in *. injection Hdo as <- <-.
    injection Fc as Co _ _ _ _ Cl _ _. split; [done|]. exists e. cbn. by rewrite Cl.
  - injection Hdo as <- <-. unfold flushLazyBatches. by destruct (foldl _ _ _).
  - injection Hdo as <- <-. unfold onEagerReceive. destruct (decodeEagerMessage data); [|done]. by rewrite process_frame.
  - injection Hdo as <- <-. unfold onLazyBatchReceive. destruct (ReadLazyBatch r) as [[batch r']|err]; [|done].
    rewrite process_all_state. set (g0 := match lazyBuffers g !! from with Some _ => _ | None => _ end).
    assert (queue_frame g0 = queue_frame g) as <- by (unfold g0; by destruct (lazyBuffers g !! from)). generalize g0 as g1.
    induction (Entries batch) as [|e es IH]; intros g1; [done|]. cbn [foldl]. rewrite IH. apply process_frame.
  - destruct (gap_timer g i conns) as [g1|] eqn:E; cbn in Hdo; [|done]. injection Hdo as <- <-.
    unfold gap_timer in E. destruct (ge_timers g !! i) as [[t x]|]; cbn in E; [|done]. injection E as <-.
    pose proof (pf_rest _ _ _ _ (with_applier_performed (set_timers (delete i (ge_timers g)) g)
      (gapTimer (Some (RequestRepair (ge_overlay g) conns)) (ge_applier g) t x))) as [= Ro _ _ _ Rl _ _].
    unfold queue_frame. by rewrite Ro, Rl.
  - by injection Hdo as <- <-.
  - by injection Hdo as <- <-.
  - unfold consume in Hdo. destruct (deliverCh g); cbn in Hdo; [done|]. by injection Hdo as <- <-.
  - injection Hdo as <- <-. unfold sendLazyBatch. by repeat case_match.
Qed.
(** ** The applier's part of a run *)

Definition receive_of (e : GossipEntry) : action := ActReceive (Topic e) (Seq e) (Payload e).

(** The fresh entries an action brings. *)
Definition arrivals (g : GossipEngine) (a : engine_act) : list GossipEntry :=
  match a with
  | AEager _ _ data =>
      match decodeEagerMessage data with
      | Ok e => fresh_entries (ge_seen g) [e]
      | Err _ => []
      end
  | ALazy _ _ r =>
      match ReadLazyBatch r with
      | Ok (batch, _) => fresh_entries (ge_seen g) (Entries batch)
      | Err _ => []
      end
  | _ => []
  end.

Definition applier_acts (g : GossipEngine) (a : engine_act) : list action :=
  match a with
  | ATimer i conns =>
      match ge_timers g !! i with
      | Some (t, x) => [ActTimer i (first_hit conns (RandomPeers (ge_overlay g) 3) t x)]
      | None => []
      end
  | AInitial t q => [ActSetNext t (q +64 1)%word]
  | _ => receive_of <$> arrivals g a
  end.

Fixpoint run_applier_acts (g : GossipEngine) (acts : list engine_act) : list action :=
  match acts with
  | [] => []
  | a :: acts' =>
      applier_acts g a ++ (match do_engine g a with Some (g1, _) => run_applier_acts g1 acts' | None => [] end)
  end.

(** The engine's applier and timers, as a state of the applier's runs. *)
Definition view (g : GossipEngine) (log arrived : list (Z * Z * bytes)) : run_state :=
  mkRun (ge_applier g) (ge_timers g) log arrived.

(** ** Lemmas *)

Definition runs_as (g g' : GossipEngine) (acts : list action) (D : list (Z * Z * bytes)) : Prop :=
  ∃ E, ∀ L A, do_actions (view g L A) acts = Some (view g' (L ++ D) (A ++ E)).

Lemma do_actions_app st l1 l2 :
  do_actions st (l1 ++ l2) = do_actions st l1 ≫= fun st' => do_actions st' l2.
Proof.
  revert st. induction l1 as [|a l1 IH]; intros st; [done|]. cbn [app do_actions].
  destruct (do_action st a); cbn; [apply IH|done].
Qed.

Lemma runs_as_app g g1 g2 l1 l2 D1 D2 :
  runs_as g g1 l1 D1 → runs_as g1 g2 l2 D2 → runs_as g g2 (l1 ++ l2) (D1 ++ D2).
Proof.
  intros [E1 H1] [E2 H2]. exists (E1 ++ E2). intros L A.
  rewrite do_actions_app, H1. cbn. by rewrite H2, !app_assoc.
Qed.

Lemma runs_as_nil g g' : ge_applier g' = ge_applier g → ge_timers g' = ge_timers g → runs_as g g' [] [].
Proof. intros Ha Ht. exists []. intros L A. unfold view. by rewrite Ha, Ht, !app_nil_r. Qed.

Lemma receive_runs_as g g' e :
  let r := Receive (ge_applier g) (Topic e) (Seq e) (Payload e) in
  delivers g g' r.1 r.2 → runs_as g g' [receive_of e] (deliveries r.2).
Proof.
  intros r [Ha Ht _]. exists [(Topic e, Seq e, Payload e)]. intros L A.
  cbn [do_actions do_action receive_of mbind option_bind]. unfold commit, view.
  cbn [r_applier r_timers r_log r_arrived]. fold r. by rewrite Ha, Ht.
Qed.

(** What a step does for the applier and the delivery channel. *)
Definition moves (g g' : GossipEngine) (acts : list action) : Prop :=
  ∃ D, runs_as g g' acts D ∧ fills g g' D.

Lemma moves_app g g1 g2 l1 l2 : moves g g1 l1 → moves g1 g2 l2 → moves g g2 (l1 ++ l2).
Proof.
  intros (D1 & R1 & F1) (D2 & R2 & F2). exists (D1 ++ D2). split; [by eapply runs_as_app|by eapply fills_app].
Qed.

Lemma moves_nil g g' :
  ge_applier g' = ge_applier g → ge_timers g' = ge_timers g → deliverCh g' = deliverCh g →
  ge_stats g' DeliverCount = ge_stats g DeliverCount → ge_stats g' DeliverDrop = ge_stats g DeliverDrop →
  ge_cfg g' = ge_cfg g → moves g g' [].
Proof. intros. exists []. split; [by apply runs_as_nil|by apply fills_nil]. Qed.

(** A counter that is neither of the channel's nor a send counter. *)
Definition recv_counter (c : counter) : Prop :=
  send_counter c = false ∧ c ≠ DeliverCount ∧ c ≠ DeliverDrop.

Lemma process_moves ev recv dup from g e :
  recv_counter recv → recv_counter dup →
  moves g (process ev recv dup from g e).1 (receive_of <$> fresh_entries (ge_seen g) [e]).
Proof.
  intros (Hr0 & Hr1 & Hr2) (Hd0 & Hd1 & Hd2). unfold process. cbn [fresh_entries].
  destruct (ShouldProcess (ge_seen g) (Topic e) (Seq e)) as [fresh s']. destruct fresh; cbn [fmap list_fmap].
  - set (g0 := add_stat recv 1 (set_seen s' g)).
    destruct (accept_spec ev from e g0) as [_ _ _ _ Ha Hsm Hst].
    destruct (accept ev g0 from e) as [g' out]. cbn [fst snd] in *. injection Ha as Ha Ht Hd. injection Hsm as _ Hc _.
    pose proof (with_applier_performed g0 (Receive (ge_applier g0) (Topic e) (Seq e) (Payload e))) as [[Pa Pt [Fd Fc Fp Fg]] _ _].
    fold (applier_receive g0 e) in Pa, Pt, Fd, Fc, Fp, Fg.
    assert (delivers g g' (Receive (ge_applier g) (Topic e) (Seq e) (Payload e)).1
              (Receive (ge_applier g) (Topic e) (Seq e) (Payload e)).2) as Hdl.
    { split; [by rewrite Ha, Pa|by rewrite Ht, Pt|]. split.
      - by rewrite Hd, Fd.
      - rewrite Hst, Fc by done. unfold g0. cbn [ge_stats add_stat set_seen]. by rewrite bump_ne.
      - rewrite Hst, Fp by done. unfold g0. cbn [ge_stats add_stat set_seen]. by rewrite bump_ne.
      - exact Hc. }
    eexists. split; [exact (receive_runs_as _ _ _ Hdl)|apply Hdl].
  - apply moves_nil; cbn [fst ge_stats add_stat set_seen]; rewrite ?bump_ne by done; done.
Qed.

Lemma process_all_moves ev from es g :
  moves g (process_all ev from g es).1 (receive_of <$> fresh_entries (ge_seen g) es).
Proof.
  rewrite process_all_state. revert g. induction es as [|e es IH]; intros g; cbn [foldl].
  { by apply moves_nil. }
  pose proof (process_moves ev LazyRecv LazyDup from g e) as Hm.
  pose proof (process_parts ev LazyRecv LazyDup from g e) as Hp.
  specialize (IH (process ev LazyRecv LazyDup from g e).1).
  cbn [fresh_entries] in *. destruct (ShouldProcess (ge_seen g) (Topic e) (Seq e)) as [fresh s'].
  destruct Hp as (Hs & _); [done..|]. rewrite Hs in IH.
  specialize (Hm ltac:(done) ltac:(done)).
  destruct fresh; [change (e :: ?l) with ([e] ++ l); rewrite fmap_app|]; exact (moves_app _ _ _ _ _ Hm IH).
Qed.

(** Asking the peers is the callback that finds what the first of them has. *)
Lemma gapTimer_RequestRepair ov conns o t x :
  gapTimer (Some (RequestRepair ov conns)) o t x =
  gapTimer (Some (repair_callback (first_hit conns (RandomPeers ov 3) t x))) o t x.
Proof.
  unfold gapTimer, RequestRepair. destruct (Z.eqb_spec (nextSeq (slot o t)) x) as [->|]; [|done].
  by rewrite repair_loop_callback.
Qed.

Lemma gap_timer_moves g i conns g' :
  gap_timer g i conns = Some g' → moves g g' (applier_acts g (ATimer i conns)).
Proof.
  unfold gap_timer, applier_acts. destruct (ge_timers g !! i) as [[t x]|] eqn:Hi; cbn; [|done]. intros [= <-].
  rewrite gapTimer_RequestRepair.
  set (g0 := set_timers (delete i (ge_timers g)) g). set (r := gapTimer _ (ge_applier g) t x).
  pose proof (with_applier_performed g0 r) as [[Pa Pt Pf] _ _]. exists (deliveries r.2). split; [|by destruct Pf].
  eexists. intros L A. cbn [do_actions do_action view r_timers]. rewrite Hi. cbn [mbind option_bind].
  unfold commit, view. cbn [r_applier r_log r_arrived r_timers]. fold r. by rewrite Pa, Pt.
Qed.

(** What the consumer got out of a step or a run that delivered [D]. *)
Record served (g g' : GossipEngine) (taken : list DeliveredEntry) (D : list (Z * Z * bytes)) : Prop := {
  sv_sub : (taken ++ deliverCh g') `sublist_of` (deliverCh g ++ (to_delivered <$> D));
  sv_count : ge_stats g' DeliverCount + Z.of_nat (length (deliverCh g)) =
             ge_stats g DeliverCount + Z.of_nat (length taken) + Z.of_nat (length (deliverCh g'));
  sv_total : ge_stats g' DeliverCount + ge_stats g' DeliverDrop =
             ge_stats g DeliverCount + ge_stats g DeliverDrop + Z.of_nat (length D);
  sv_mono : ge_stats g DeliverDrop ≤ ge_stats g' DeliverDrop;
  sv_all : ge_stats g' DeliverDrop = ge_stats g DeliverDrop →
           taken ++ deliverCh g' = deliverCh g ++ (to_delivered <$> D);
  sv_cap : Z.of_nat (length (deliverCh g)) ≤ DeliverBufferSize (ge_cfg g) →
           Z.of_nat (length (deliverCh g')) ≤ DeliverBufferSize (ge_cfg g');
}.

Lemma fills_served g g' D : fills g g' D → served g g' [] D.
Proof.
  intros [Hd Hc Hp Hg]. split; cbn [app length]; rewrite ?Hd, ?Hc, ?Hp, ?Hg.
  - apply sublist_app; [done|]. apply sublist_take.
  - rewrite length_app, length_take, length_fmap. lia.
  - lia.
  - lia.
  - intros Heq. f_equal. rewrite take_ge; [done|]. rewrite length_fmap. lia.
  - intros Hcap. rewrite length_app, length_take. unfold room. lia.
Qed.

Lemma served_app g g1 g2 t1 t2 D1 D2 :
  served g g1 t1 D1 → served g1 g2 t2 D2 → served g g2 (t1 ++ t2) (D1 ++ D2).
Proof.
  intros [S1 C1 T1 M1 A1 P1] [S2 C2 T2 M2 A2 P2]. split.
  - rewrite <- app_assoc, fmap_app, (app_assoc (deliverCh g)).
    transitivity (t1 ++ (deliverCh g1 ++ (to_delivered <$> D2))); [by apply sublist_app|].
    rewrite app_assoc. by apply sublist_app.
  - rewrite length_app. lia.
  - rewrite length_app. lia.
  - lia.
  - intros Heq. rewrite <- app_assoc, A2, (app_assoc t1), A1, fmap_app, app_assoc by lia. done.
  - auto.
Qed.

(** Handlers that only touch what neither the applier nor the channel uses. *)
Definition quiet (g g' : GossipEngine) : Prop :=
  ge_applier g' = ge_applier g ∧ ge_timers g' = ge_timers g ∧ deliverCh g' = deliverCh g ∧
  ge_stats g' DeliverCount = ge_stats g DeliverCount ∧ ge_stats g' DeliverDrop = ge_stats g DeliverDrop ∧
  ge_cfg g' = ge_cfg g.

Lemma quiet_moves g g' : quiet g g' → moves g g' [].
Proof. intros (? & ? & ? & ? & ? & ?). by apply moves_nil. Qed.

Lemma handleLocal_quiet ev g e : quiet g (handleLocal ev g e).1.
Proof.
  unfold handleLocal. set (g3 := set_repair _ _).
  pose proof (eagerForward_spec ev g3 e "") as [Fc _ Fs _ _ _].
  destruct (eagerForward ev g3 e "") as [g4 out]. cbn [fst snd] in *.
  injection Fc as Co Cs Ca Cr Cc Cl Cd Ct. unfold quiet.
  cbn [fst enqueueForLazy set_lazyBuffers ge_applier ge_timers deliverCh ge_stats ge_cfg].
  rewrite Ca, Ct, Cd, Cc, !Fs by done. by split_and!.
Qed.

Lemma sendLazyBatch_quiet g b o : quiet g (sendLazyBatch g b o).1.
Proof. unfold sendLazyBatch. repeat case_match; by split_and!. Qed.

Lemma flush_quiet g : quiet g (flushLazyBatches g).1.
Proof. unfold flushLazyBatches. destruct (foldl _ _ _). by split_and!. Qed.

Lemma do_engine_step g a g' taken :
  do_engine g a = Some (g', taken) → ∃ D, runs_as g g' (applier_acts g a) D ∧ served g g' taken D.
Proof.
  assert (moves g g' (applier_acts g a) → taken = [] → ∃ D, runs_as g g' (applier_acts g a) D ∧ served g g' taken D) as Hmv.
  { intros (D & HD & Hf) ->. exists D. split; [done|by apply fills_served]. }
  destruct a as [t q p|ev| |ev from data|ev from r|i conns|t q|o| |b o]; cbn [do_engine].
  - unfold Enqueue. case_match; cbn; [|done]. intros [= <- <-]. apply Hmv; [|done]. apply quiet_moves. by split_and!.
  - unfold run_local. destruct (localCh g) as [|e rest]; cbn; [done|].
    pose proof (handleLocal_quiet ev (set_localCh rest g) e) as Hq. destruct (handleLocal _ _ _) as [g1 out]. cbn in *.
    intros [= <- <-]. apply Hmv; [|done]. by apply quiet_moves.
  - intros [= <- <-]. apply Hmv; [|done]. apply quiet_moves, flush_quiet.
  - intros [= <- <-]. apply Hmv; [|done]. unfold onEagerReceive. cbn [applier_acts arrivals].
    destruct (decodeEagerMessage data) as [e|err]; [|apply quiet_moves; by split_and!].
    refine (moves_app g (add_stat BytesRecv (Z.of_nat (length data)) g) _ [] _ _ _).
    { apply quiet_moves. by split_and!. }
    exact (process_moves ev EagerRecv EagerDup from (add_stat BytesRecv (Z.of_nat (length data)) g) e ltac:(done) ltac:(done)).
  - intros [= <- <-]. apply Hmv; [|done]. unfold onLazyBatchReceive. cbn [applier_acts arrivals].
    destruct (ReadLazyBatch r) as [[batch r']|err]; [|apply quiet_moves; by split_and!].
    destruct (lazyBuffers g !! from) as [buf|]; [|apply process_all_moves].
    refine (moves_app g (set_lazyBuffers _ g) _ [] _ _ (process_all_moves ev from (Entries batch) (set_lazyBuffers _ g))).
    apply quiet_moves. by split_and!.
  - destruct (gap_timer g i conns) as [g1|] eqn:E; cbn; [|done]. intros [= <- <-].
    apply Hmv; [|done]. by apply gap_timer_moves.
  - intros [= <- <-]. apply Hmv; [|done]. exists []. split; [|by apply fills_nil].
    exists []. intros L A. cbn [applier_acts do_actions do_action]. unfold commit, view. cbn. by rewrite !app_nil_r.
  - intros [= <- <-]. apply Hmv; [|done]. apply quiet_moves. by split_and!.
  - unfold consume. destruct (deliverCh g) as [|d rest] eqn:E; cbn; [done|]. intros [= <- <-].
    exists []. split; [by apply runs_as_nil|].
    split; cbn [deliverCh set_deliverCh ge_stats ge_cfg app length fmap list_fmap]; rewrite ?E, ?app_nil_r; cbn [length app]; try done; lia.
  - intros [= <- <-]. apply Hmv; [|done]. apply quiet_moves, sendLazyBatch_quiet.
Qed.

Lemma run_engine_refines acts g g' taken :
  run_engine g acts = Some (g', taken) →
  ∃ D, runs_as g g' (run_applier_acts g acts) D ∧ served g g' taken D.
Proof.
  revert g taken. induction acts as [|a acts IH]; intros g taken; cbn [run_engine run_applier_acts].
  { intros [= <- <-]. exists []. split; [by apply runs_as_nil|]. apply fills_served. by apply fills_nil. }
  destruct (do_engine g a) as [[g1 t1]|] eqn:E1; cbn; [|done].
  destruct (run_engine g1 acts) as [[g2 t2]|] eqn:E2; cbn; [|done]. intros [= <- <-].
  destruct (do_engine_step _ _ _ _ E1) as (D1 & R1 & S1). destruct (IH _ _ E2) as (D2 & R2 & S2).
  exists (D1 ++ D2). split; [by eapply runs_as_app|by eapply served_app].
Qed.

(** ** At most once *)

Definition entry_seqs (t : Z) (es : list GossipEntry) : list Z :=
  omap (fun e => if decide (Topic e = t) then Some (Seq e) else None) es.

Lemma fresh_entries_sorted es s t :
  let s' := (ShouldProcess_all s (entry_key <$> es)).2 in
  CurrentSeq s t ≤ CurrentSeq s' t ∧
  StronglySorted Z.lt (entry_seqs t (fresh_entries s es)) ∧
  ∀ q, q ∈ entry_seqs t (fresh_entries s es) → CurrentSeq s t < q ≤ CurrentSeq s' t.
Proof.
  revert s. induction es as [|e es IH]; intros s; cbn [fmap list_fmap ShouldProcess_all fresh_entries entry_key ts_topic ts_seq].
  { cbn. split_and!; [done|constructor|by intros q ?%elem_of_nil]. }
  pose proof (ShouldProcess_answer s (Topic e) (Seq e)) as Ha.
  pose proof (CurrentSeq_ShouldProcess s (Topic e) (Seq e) t) as Hc.
  destruct (ShouldProcess s (Topic e) (Seq e)) as [b s1]. cbn [fst snd] in *. specialize (IH s1).
  destruct (ShouldProcess_all s1 (entry_key <$> es)) as [bs s2]. cbn [snd] in *. destruct IH as (I1 & I2 & I3).
  assert (CurrentSeq s t ≤ CurrentSeq s1 t) as Hmono by (rewrite Hc; case_decide; subst; lia).
  destruct b.
  - symmetry in Ha. apply bool_decide_eq_true in Ha. unfold entry_seqs in *. cbn [omap list_omap].
    destruct (decide (Topic e = t)) as [<-|Hne].
    + rewrite Z.max_r in Hc by lia. split_and!; [lia| |].
      * constructor; [done|]. apply Forall_forall. intros q Hq%I3. lia.
      * intros q [->|Hq]%elem_of_cons; [lia|]. apply I3 in Hq. lia.
    + split_and!; [lia|done|]. intros q Hq%I3. lia.
  - split_and!; [lia|done|]. intros q Hq%I3. lia.
Qed.

(** Priming never lowers a topic's mark. *)
Definition forward (g : GossipEngine) (a : engine_act) : Prop :=
  match a with AInitial t q => CurrentSeq (ge_seen g) t ≤ q | _ => True end.

Fixpoint run_forward (g : GossipEngine) (acts : list engine_act) : Prop :=
  match acts with
  | [] => True
  | a :: acts' => forward g a ∧ match do_engine g a with Some (g1, _) => run_forward g1 acts' | None => True end
  end.

(** Everything that got past the filter in a run, in order. *)
Fixpoint run_arrivals (g : GossipEngine) (acts : list engine_act) : list GossipEntry :=
  match acts with
  | [] => []
  | a :: acts' => arrivals g a ++ match do_engine g a with Some (g1, _) => run_arrivals g1 acts' | None => [] end
  end.

Lemma process_marks ev recv dup from g e :
  ge_seen (process ev recv dup from g e).1 = (ShouldProcess_all (ge_seen g) (entry_key <$> [e])).2.
Proof.
  unfold process. cbn. destruct (ShouldProcess (ge_seen g) (Topic e) (Seq e)) as [[] s']; cbn [snd]; [|done].
  by rewrite (ac_seen _ _ _ _ _ _ (accept_spec _ _ _ _)).
Qed.

Lemma handleLocal_seen ev g e : ge_seen (handleLocal ev g e).1 = (ShouldProcess (ge_seen g) (Topic e) (Seq e)).2.
Proof.
  unfold handleLocal. set (g3 := set_repair _ _).
  pose proof (eagerForward_spec ev g3 e "") as [Fc _ _ _ _ _].
  destruct (eagerForward ev g3 e "") as [g4 out]. cbn [fst snd] in *.
  injection Fc as _ Cs _ _ _ _ _ _. exact Cs.
Qed.

Lemma SetTopicSeq_mark s t q t' :
  CurrentSeq (SetTopicSeq s t q) t' = if decide (t = t') then q else CurrentSeq s t'.
Proof.
  unfold SetTopicSeq, markActive, storeSeq, CurrentSeq. repeat case_match; cbn; rewrite lookup_insert; by case_decide.
Qed.

Lemma gap_timer_seen g i conns g' : gap_timer g i conns = Some g' → ge_seen g' = ge_seen g.
Proof.
  unfold gap_timer. destruct (ge_timers g !! i) as [[t x]|]; cbn; [|done]. intros [= <-].
  by pose proof (pf_rest _ _ _ _ (with_applier_performed (set_timers (delete i (ge_timers g)) g)
    (gapTimer (Some (RequestRepair (ge_overlay g) conns)) (ge_applier g) t x))) as [= _ -> _ _ _ _ _].
Qed.

(** Marks only rise, and end at or above everything that arrived. *)
Lemma do_engine_marks g a g' taken t :
  do_engine g a = Some (g', taken) → forward g a →
  CurrentSeq (ge_seen g) t ≤ CurrentSeq (ge_seen g') t ∧
  StronglySorted Z.lt (entry_seqs t (arrivals g a)) ∧
  ∀ q, q ∈ entry_seqs t (arrivals g a) → CurrentSeq (ge_seen g) t < q ≤ CurrentSeq (ge_seen g') t.
Proof.
  intros Hdo Hfw.
  assert (∀ s', CurrentSeq (ge_seen g) t ≤ CurrentSeq s' t → arrivals g a = [] → ge_seen g' = s' →
    CurrentSeq (ge_seen g) t ≤ CurrentSeq (ge_seen g') t ∧ StronglySorted Z.lt (entry_seqs t (arrivals g a)) ∧
    ∀ q, q ∈ entry_seqs t (arrivals g a) → CurrentSeq (ge_seen g) t < q ≤ CurrentSeq (ge_seen g') t) as Hnone.
  { intros s' Hle -> ->. cbn. split_and!; [done|constructor|by intros q ?%elem_of_nil]. }
  destruct a as [t' q p|ev| |ev from data|ev from r|i conns|t' q|o| |b o]; cbn [do_engine forward] in *.
  - unfold Enqueue in Hdo. case_match; cbn in Hdo; [|done]. injection Hdo as <- <-. by apply (Hnone (ge_seen g)).
  - unfold run_local in Hdo. destruct (localCh g) as [|e rest]; cbn in Hdo; [done|].
    pose proof (handleLocal_seen ev (set_localCh rest g) e) as Hs. destruct (handleLocal _ _ _) as [g1 out].
    cbn in Hdo, Hs. injection Hdo as <- <-. eapply Hnone; [|done|exact Hs].
    rewrite CurrentSeq_ShouldProcess. case_decide; subst; lia.
  - injection Hdo as <- <-. apply (Hnone (ge_seen g)); [done..|]. unfold flushLazyBatches. by destruct (foldl _ _ _).
  - injection Hdo as <- <-. unfold onEagerReceive in *. cbn [arrivals] in *.
    destruct (decodeEagerMessage data) as [e|err]; [|by apply (Hnone (ge_seen g))].
    rewrite process_marks. apply fresh_entries_sorted.
  - injection Hdo as <- <-. unfold onLazyBatchReceive in *. cbn [arrivals] in *.
    destruct (ReadLazyBatch r) as [[batch r']|err]; [|by apply (Hnone (ge_seen g))].
    set (g0 := match lazyBuffers g !! from with Some _ => _ | None => _ end) in *.
    assert (ge_seen g0 = ge_seen g) as Hg0 by (unfold g0; by destruct (lazyBuffers g !! from)).
    destruct (process_all_parts ev from (Entries batch) g0) as (-> & _). rewrite Hg0. apply fresh_entries_sorted.
  - destruct (gap_timer g i conns) as [g1|] eqn:E; cbn in Hdo; [|done]. injection Hdo as <- <-.
    apply (Hnone (ge_seen g)); [done..|]. by eapply gap_timer_seen.
  - injection Hdo as <- <-. eapply Hnone; [|done|reflexivity]. cbn. rewrite SetTopicSeq_mark. case_decide; subst; lia.
  - injection Hdo as <- <-. by apply (Hnone (ge_seen g)).
  - unfold consume in Hdo. destruct (deliverCh g); cbn in Hdo; [done|]. injection Hdo as <- <-. by apply (Hnone (ge_seen g)).
  - injection Hdo as <- <-. apply (Hnone (ge_seen g)); [done..|]. unfold sendLazyBatch. by repeat case_match.
Qed.

(** ** Bounds *)

(** The [range] choices of an action are keys of the map. *)
Definition choices_ok (a : engine_act) : Prop :=
  match a with
  | ALocal ev | AEager ev _ _ | ALazy ev _ _ => ∀ e, choice_ok (ev_first ev e)
  | _ => True
  end.

Record bounded (g : GossipEngine) : Prop := {
  bd_local : (length (localCh g) ≤ 256)%nat;
  bd_cache : (size (cache (ge_repair g)) ≤ maxRepairCache)%nat;
}.

Lemma process_bounded ev recv dup from g e :
  (∀ e, choice_ok (ev_first ev e)) → bounded g → bounded (process ev recv dup from g e).1.
Proof.
  intros Hev [Hl Hc]. unfold process. destruct (ShouldProcess _ _ _) as [[] s']; [|done].
  destruct (accept_spec ev from e (add_stat recv 1 (set_seen s' g))) as [_ _ Hr _ _ Hs _].
  destruct (accept _ _ _ _) as [g' out]. cbn [fst snd] in *. injection Hs as _ _ Hs. split; rewrite ?Hs, ?Hr; [done|].
  by apply CacheEntry_size.
Qed.

Lemma do_engine_bounded g a g' taken :
  do_engine g a = Some (g', taken) → choices_ok a → bounded g → bounded g'.
Proof.
  intros Hdo Hch [Hl Hc]. assert (bounded g) as Hb by done.
  destruct a as [t q p|ev| |ev from data|ev from r|i conns|t q|o| |b o]; cbn [do_engine choices_ok] in *.
  - unfold Enqueue in Hdo. destruct (Nat.ltb_spec (length (localCh g)) 256); cbn in Hdo; [|done].
    injection Hdo as <- <-. split; [cbn; rewrite length_app; cbn; lia|done].
  - unfold run_local in Hdo. destruct (localCh g) as [|e rest]; cbn in Hdo; [done|].
    unfold handleLocal in Hdo. set (g3 := set_repair _ _) in Hdo.
    pose proof (eagerForward_spec ev g3 e "") as [Fc _ _ _ _ _].
    destruct (eagerForward ev g3 e "") as [g4 out]. cbn [fst snd mbind option_bind] in *. injection Hdo as <- <-.
    injection Fc as _ _ _ Cr _ Cl _ _. split; cbn [localCh ge_repair enqueueForLazy set_lazyBuffers]; rewrite ?Cr, ?Cl.
    + cbn in Hl. cbn. lia.
    + by apply CacheEntry_size.
  - injection Hdo as <- <-. unfold flushLazyBatches. by destruct (foldl _ _ _).
  - injection Hdo as <- <-. unfold onEagerReceive. destruct (decodeEagerMessage data); [|done]. by apply process_bounded.
  - injection Hdo as <- <-. unfold onLazyBatchReceive. destruct (ReadLazyBatch r) as [[batch r']|err]; [|done].
    rewrite process_all_state. set (g0 := match lazyBuffers g !! from with Some _ => _ | None => _ end).
    assert (bounded g0) as Hg0 by (unfold g0; by destruct (lazyBuffers g !! from)). revert Hg0. generalize g0 as g1.
    induction (Entries batch) as [|e es IH]; intros g1 Hg1; [done|]. cbn [foldl]. apply IH. by apply process_bounded.
  - destruct (gap_timer g i conns) as [g1|] eqn:E; cbn in Hdo; [|done]. injection Hdo as <- <-.
    unfold gap_timer in E. destruct (ge_timers g !! i) as [[t x]|]; cbn in E; [|done]. injection E as <-.
    pose proof (pf_rest _ _ _ _ (with_applier_performed (set_timers (delete i (ge_timers g)) g)
      (gapTimer (Some (RequestRepair (ge_overlay g) conns)) (ge_applier g) t x))) as [= _ _ Rr _ Rl _ _].
    split; rewrite ?Rr, ?Rl; done.
  - injection Hdo as <- <-. done.
  - injection Hdo as <- <-. done.
  - unfold consume in Hdo. destruct (deliverCh g); cbn in Hdo; [done|]. by injection Hdo as <- <-.
  - injection Hdo as <- <-. unfold sendLazyBatch. by repeat case_match.
Qed.

(** ** Properties *)

(** C6: Refinement.  Every run of the engine is, for its applier and timers, the
    run of the ordered applier that the arrivals past the duplicate filter,
    the expiring timers and the priming calls make up; of the deliveries of that
    run the consumer gets a subsequence in order (taken or still in the
    channel), all of them if no drop was counted, and delivered plus dropped
    counts every delivery. *)
Theorem engine_refines_applier_run g acts g' taken :
  run_engine g acts = Some (g', taken) →
  ∃ D E, (∀ L A, do_actions (mkRun (ge_applier g) (ge_timers g) L A) (run_applier_acts g acts) =
            Some (mkRun (ge_applier g') (ge_timers g') (L ++ D) (A ++ E))) ∧
    (taken ++ deliverCh g') `sublist_of` (deliverCh g ++ (to_delivered <$> D)) ∧
    (Stats g' DeliverDrop = Stats g DeliverDrop → taken ++ deliverCh g' = deliverCh g ++ (to_delivered <$> D)) ∧
    Stats g' DeliverCount + Stats g' DeliverDrop =
      Stats g DeliverCount + Stats g DeliverDrop + Z.of_nat (length D).
Proof.
  intros Hrun. destruct (run_engine_refines _ _ _ _ Hrun) as (D & [E HE] & [S1 S2 S3 S4 S5 S6]).
  exists D, E. by split_and!.
Qed.

(** The sequence numbers of a topic among delivered entries. *)
Definition delivered_seqs (t : Z) (ds : list DeliveredEntry) : list Z :=
  omap (fun d => if decide (d_topic d = t) then Some (d_seq d) else None) ds.

Lemma delivered_seqs_log t D : delivered_seqs t (to_delivered <$> D) = log_seqs t D.
Proof.
  induction D as [|[[t' q] p] D IH]; [done|]. unfold delivered_seqs, log_seqs in *. cbn.
  destruct (decide (t' = t)); by rewrite IH.
Qed.

Lemma sublist_omap {A B} (f : A → option B) l k : l `sublist_of` k → omap f l `sublist_of` omap f k.
Proof.
  induction 1 as [|x l k H IH|x l k H IH]; cbn; [done|..]; destruct (f x); by (done || constructor).
Qed.

(** C5: The consumer sees each topic in order.  In every run of a new engine whose
    handlers run one at a time, whose gaps stay within MaxGapBuffer and whose
    numbers are primed forward, the entries of a topic that reach the consumer
    have strictly increasing sequence numbers: none comes twice and none comes
    after a later one.  (What handlers that overlap can do to the order is in
    [OrderedConc] and [ReceiveConc].) *)
Theorem consumer_in_order ov cfg acts g' taken t
    (Hgap : MaxGapBuffer cfg < 2 ^ 63)
    (Hrun : run_engine (New ov cfg) acts = Some (g', taken))
    (Hsmall : small_gaps (startRun (ge_applier (New ov cfg))) (run_applier_acts (New ov cfg) acts)) :
  StronglySorted Z.lt (delivered_seqs t (taken ++ deliverCh g')).
Proof.
  destruct (run_engine_refines _ _ _ _ Hrun) as (D & [E HE] & [Hsub _ _ _ _ _]). cbn [deliverCh New app] in Hsub.
  assert (fresh (ge_applier (New ov cfg))) as Hf.
  { split; [done|]. cbn. unfold gap_ok, withDefaults. cbn. case_match; lia. }
  pose proof (do_actions_small_steps _ _ _ Hsmall (HE [] [])) as Hsteps.
  destruct (reachable_run_ok _ _ Hf Hsteps) as ([_ _ Hso _] & _). specialize (Hso t). cbn [view r_log app] in Hso.
  eapply StronglySorted_sublist; [|exact Hso]. rewrite <- delivered_seqs_log. by apply sublist_omap.
Qed.

(** C10: Every message is accepted at most once as long as no mark is rolled back.  From
    any state of an engine on, in every run in which SetInitialSeq lowers no mark,
    what gets past the duplicate filter has, per topic, strictly increasing
    sequence numbers above the mark the topic has at the beginning, whatever the
    paths and the number of copies. *)
Theorem accepted_at_most_once g acts g' taken t
    (Hrun : run_engine g acts = Some (g', taken)) (Hfw : run_forward g acts) :
  StronglySorted Z.lt (entry_seqs t (run_arrivals g acts)) ∧
  ∀ q, q ∈ entry_seqs t (run_arrivals g acts) →
    CurrentSeq (ge_seen g) t < q ≤ CurrentSeq (ge_seen g') t.
Proof.
  enough (CurrentSeq (ge_seen g) t ≤ CurrentSeq (ge_seen g') t ∧
    StronglySorted Z.lt (entry_seqs t (run_arrivals g acts)) ∧
    ∀ q, q ∈ entry_seqs t (run_arrivals g acts) → CurrentSeq (ge_seen g) t < q ≤ CurrentSeq (ge_seen g') t)
    as (_ & ? & ?) by done.
  revert g taken Hrun Hfw. induction acts as [|a acts IH]; intros g taken; cbn [run_engine run_forward run_arrivals].
  { intros [= -> <-] _. split_and!; [done|constructor|by intros q ?%elem_of_nil]. }
  destruct (do_engine g a) as [[g1 t1]|] eqn:E1; cbn; [|done].
  destruct (run_engine g1 acts) as [[g2 t2]|] eqn:E2; cbn; [|done]. intros [= -> <-] [Hf Hfs].
  destruct (do_engine_marks _ _ _ _ t E1 Hf) as (M1 & M2 & M3). destruct (IH _ _ E2 Hfs) as (I1 & I2 & I3).
  unfold entry_seqs in *. rewrite omap_app. split_and!; [lia| |].
  - apply (StronglySorted_app_lt _ _ (CurrentSeq (ge_seen g1) t + 1)); [done|done|..].
    + intros x Hx%M3. lia.
    + intros x Hx%I3. lia.
  - intros q [Hq%M3|Hq%I3]%elem_of_app; lia.
Qed.

(** Nothing grows without bound.  In every run of a new engine the delivery
    channel stays within its capacity, the local queue within 256 entries and
    the repair cache within 1024, and the delivered counter is the number of
    entries the consumer took plus those waiting for it. *)
Theorem engine_bounded ov cfg acts g' taken
    (Hrun : run_engine (New ov cfg) acts = Some (g', taken)) (Hch : Forall choices_ok acts) :
  Z.of_nat (length (deliverCh g')) ≤ DeliverBufferSize (ge_cfg g') ∧
  (length (localCh g') ≤ 256)%nat ∧
  (size (cache (ge_repair g')) ≤ maxRepairCache)%nat ∧
  Stats g' DeliverCount = Z.of_nat (length taken + length (deliverCh g')).
Proof.
  destruct (run_engine_refines _ _ _ _ Hrun) as (D & _ & [_ Hc _ _ _ Hcap]).
  assert (bounded g') as [Hl Hr].
  { assert (bounded (New ov cfg)) as Hb by (split; [apply Nat.le_0_l|apply Nat.le_0_l]).
    revert Hb Hrun. generalize (New ov cfg) as g. clear Hc Hcap. revert taken.
    induction Hch as [|a acts Ha _ IH]; intros taken g Hb; cbn [run_engine]; [by intros [= <- <-]|].
    destruct (do_engine g a) as [[g1 t1]|] eqn:E1; cbn; [|done].
    destruct (run_engine g1 acts) as [[g2 t2]|] eqn:E2; cbn; [|done]. intros [= -> <-].
    eapply (IH t2 g1); [|exact E2]. by eapply do_engine_bounded. }
  unfold Stats. split_and!; [|done|done|].
  - apply Hcap. cbn. case_match; lia.
  - cbn in Hc. unfold zeroStats in Hc. lia.
Qed.
End Runs.

(** ** A sample run: entry 8 is lost, its timer expires, 9 is delivered *)

Definition no_conn : peer_conn := mkConn false WOk (fun _ => mkReader [] EOF).

Definition sample_acts : list engine_act :=
  [AInitial 1 6;
   AEager quiet_env "x:9" (drop 1 (encodeEagerMessage (mkEntry 1 7 [x61])));
   AEager quiet_env "x:9" (drop 1 (encodeEagerMessage (mkEntry 1 9 [x63])));
   AEager quiet_env "y:9" (drop 1 (encodeEagerMessage (mkEntry 1 7 [x61])));
   ATimer 0 (fun _ => no_conn); AConsume].

Definition sample_new : GossipEngine := New two_peers (mkEngineConfig 0 0 0 0).

Definition sample_result : GossipEngine * list DeliveredEntry :=
  default (sample_new, []) (run_engine (HZ := stored_zstd) sample_new sample_acts).

Lemma sample_run : run_engine (HZ := stored_zstd) sample_new sample_acts = Some (sample_result.1, sample_result.2).
Proof.
  assert (bool_decide (is_Some (run_engine (HZ := stored_zstd) sample_new sample_acts)) = true) as Hsome
    by (vm_compute; reflexivity).
  unfold sample_result. destruct (run_engine sample_new sample_acts) as [[g taken]|]; [reflexivity|discriminate Hsome].
Qed.

Lemma engine_refines_applier_run_witness :
  ∃ D E, (∀ L A, do_actions (mkRun (ge_applier sample_new) (ge_timers sample_new) L A)
            (run_applier_acts (HZ := stored_zstd) sample_new sample_acts) =
            Some (mkRun (ge_applier sample_result.1) (ge_timers sample_result.1) (L ++ D) (A ++ E))) ∧
    (sample_result.2 ++ deliverCh sample_result.1) `sublist_of` (to_delivered <$> D).
Proof.
  destruct (engine_refines_applier_run (HZ := stored_zstd) _ _ _ _ sample_run) as (D & E & H1 & H2 & _).
  exists D, E. split; [exact H1|exact H2].
Defined.

Lemma consumer_in_order_witness :
  delivered_seqs 1 (sample_result.2 ++ deliverCh sample_result.1) = [7; 9] ∧
  StronglySorted Z.lt (delivered_seqs 1 (sample_result.2 ++ deliverCh sample_result.1)).
Proof.
  split; [vm_compute; reflexivity|].
  apply (consumer_in_order (HZ := stored_zstd) two_peers (mkEngineConfig 0 0 0 0) sample_acts).
  - by vm_compute.
  - exact sample_run.
  - vm_compute. by split_and!.
Defined.

Lemma accepted_at_most_once_witness :
  entry_seqs 1 (run_arrivals (HZ := stored_zstd) sample_new sample_acts) = [7; 9] ∧
  StronglySorted Z.lt (entry_seqs 1 (run_arrivals (HZ := stored_zstd) sample_new sample_acts)).
Proof.
  split; [vm_compute; reflexivity|].
  apply (accepted_at_most_once (HZ := stored_zstd) sample_new sample_acts _ _ 1 sample_run).
  vm_compute. by split_and!.
Defined.

Lemma engine_bounded_witness :
  Z.of_nat (length (deliverCh sample_result.1)) ≤ DeliverBufferSize (ge_cfg sample_result.1) ∧
  Stats sample_result.1 DeliverCount = 2.
Proof.
  destruct (engine_bounded (HZ := stored_zstd) two_peers (mkEngineConfig 0 0 0 0) sample_acts _ _ sample_run)
    as (H1 & _ & _ & H2).
  - repeat constructor; intros e; apply least_choice_ok.
  - split; [exact H1|]. rewrite H2. vm_compute. reflexivity.
Defined.
