(* ===== verification/EngineSound.v ===== *)
(** * What an engine holds (src/engine)

    A property of entries that everything an engine keeps has: the local queue,
    the lazy buffers, the repair cache, the buffers of the applier, the delivery
    channel and the messages on its eager streams.  It is kept by every action
    whose inputs have it.  [Cluster] uses it with "was enqueued by some node". *)

From S2P Require Import Prelude Seen Stream EagerWire Batch Ordered OrderedSpec OrderedRun Overlay Repair Engine EngineSpec EngineRun.

(** The entry of a buffered payload, and of a delivery. *)
Definition delivered_entry (d : DeliveredEntry) : GossipEntry := mkEntry (d_topic d) (d_seq d) (d_payload d).

(** What a writer has put on its streams. *)
Definition contents (w : eagerStreamWriter) : list bytes := closed w ++ option_list (stream w).

Definition frames (es : list GossipEntry) : bytes := concat (frame ∘ encodeEagerMessage <$> es).

Lemma frames_snoc es e : frames (es ++ [e]) = frames es ++ frame (encodeEagerMessage e).
Proof. unfold frames. rewrite fmap_app, concat_app. cbn. by rewrite app_nil_r. Qed.

Section Sound.
Context (P : GossipEntry → Prop) (HP : ∀ e, P e → entry_ok e).

(** ** The parts *)

Record slot_sound (t : Z) (s : Slot) : Prop := {
  ss_next : in_word 64 (nextSeq s);
  ss_pending : ∀ q p, pending s !! q = Some p → P (mkEntry t q p);
}.

Definition effect_sound (e : effect) : Prop :=
  match e with Deliver t q p => P (mkEntry t q p) | GoGapTimer t x => in_word 16 t ∧ in_word 64 x end.

(** An open stream holds whole frames, a closed one perhaps a torn one at its end. *)
Record writer_sound (w : eagerStreamWriter) : Prop := {
  ws_closed : ∀ c, c ∈ closed w → ∃ es, Forall P es ∧ c `prefix_of` StreamTypeEagerStream :: frames es;
  ws_open : ∀ s, stream w = Some s → ∃ es, Forall P es ∧ s = StreamTypeEagerStream :: frames es;
}.

Record sound (g : GossipEngine) : Prop := {
  so_local : Forall P (localCh g);
  so_lazy : ∀ id b, lazyBuffers g !! id = Some b → Forall P (lb_entries b);
  so_cache : ∀ k p, cache (ge_repair g) !! k = Some p → P (mkEntry (ts_topic k) (ts_seq k) p);
  so_applier : ∀ t, slot_sound t (slot (ge_applier g) t);
  so_timers : ∀ t x, (t, x) ∈ ge_timers g → in_word 16 t ∧ in_word 64 x;
  so_deliver : ∀ d, d ∈ deliverCh g → P (delivered_entry d);
  so_streams : ∀ addr w, eagerStreams g !! addr = Some w → writer_sound w;
}.

(** ** The applier *)

Definition sound_step (t : Z) (r : Slot * list effect) : Prop := slot_sound t r.1 ∧ Forall effect_sound r.2.

Lemma in_word_succ x : in_word 64 (x +64 1)%word.
Proof. apply wrap_in_word. lia. Qed.

Lemma start_timer_sound t x s : in_word 16 t → in_word 64 x → slot_sound t s → sound_step t (start_timer t x s).
Proof.
  intros Ht Hx [H1 H2]. unfold start_timer. destruct (_ =? 0); split; cbn [fst snd]; [by split| |by split|constructor].
  by constructor; [|constructor].
Qed.

Lemma drain_loop_sound fuel t s : slot_sound t s → sound_step t (drain_loop fuel t s).
Proof.
  revert s. induction fuel as [|fuel IH]; intros s Hs; cbn [drain_loop]; [split; [done|constructor]|].
  destruct (pending s !! nextSeq s) as [val|] eqn:E; [|split; [done|constructor]]. destruct Hs as [H1 H2].
  destruct (IH (mkSlot (nextSeq s +64 1)%word (delete (nextSeq s) (pending s)) (timerFlag s))) as [I1 I2].
  { split; [apply in_word_succ|]. cbn. intros q p [_ Hq]%lookup_delete_Some. by apply H2. }
  destruct (drain_loop fuel t _) as [s' es]. split; [done|]. constructor; [|done]. by apply H2.
Qed.

Lemma drain_slot_sound t s : in_word 16 t → slot_sound t s → sound_step t (drain_slot t s).
Proof.
  intros Ht Hs. unfold drain_slot. destruct (drain_loop_sound (size (pending s)) t s Hs) as [H1 H2].
  destruct (drain_loop _ t s) as [s1 es]. cbn [fst snd] in *. case_decide; [done|].
  destruct (start_timer_sound t (nextSeq s1) s1 Ht (ss_next _ _ H1) H1) as [H3 H4].
  destruct (start_timer _ _ _) as [s2 es2]. split; [done|]. by apply Forall_app_2.
Qed.

Lemma slot_sound_next t s q : slot_sound t s → in_word 64 q → slot_sound t (mkSlot q (pending s) (timerFlag s)).
Proof. intros [_ H2] Hq. by split. Qed.

Lemma receive_slot_sound M t q p s : P (mkEntry t q p) → slot_sound t s → sound_step t (receive_slot M t q p s).
Proof.
  intros He Hs. pose proof (HP _ He) as [Ht Hq]. cbn in Ht, Hq. unfold receive_slot.
  assert (∀ x, in_word 64 x → sound_step t
    (let '(s2, es) := drain_slot t (mkSlot x (pending s) (timerFlag s)) in (s2, Deliver t q p :: es))) as Hnext.
  { intros x Hx. destruct (drain_slot_sound t _ Ht (slot_sound_next t s x Hs Hx)) as [H1 H2].
    destruct (drain_slot _ _) as [s2 es]. split; [done|]. by constructor. }
  destruct (q <? nextSeq s); [split; [done|constructor]|]. destruct (nextSeq s <? q); [|apply Hnext, in_word_succ].
  destruct (_ <=? _); [|apply Hnext, in_word_succ]. destruct Hs as [H1 H2].
  apply start_timer_sound; [done|done|]. split; [done|]. cbn. intros q' p' [[<- <-]|[_ ?]]%lookup_insert_Some; [done|by apply H2].
Qed.

Lemma min_pending_key (m : gmap Z bytes) : min_pending m = MaxUint64 ∨ is_Some (m !! min_pending m).
Proof.
  unfold min_pending. assert (∀ kv, kv ∈ map_to_list m → is_Some (m !! kv.1)) as Hin.
  { intros [k v] Hk%elem_of_map_to_list. by exists v. }
  induction (map_to_list m) as [|kv kvs IH]; [by left|]. cbn [foldr].
  destruct (_ <? _); [right; apply Hin; by left|]. apply IH. intros kv' Hkv'. apply Hin. by right.
Qed.

Lemma skip_slot_sound t s : in_word 16 t → slot_sound t s → sound_step t (skip_slot t s).
Proof.
  intros Ht Hs. unfold skip_slot. destruct (Z.eqb_spec (min_pending (pending s)) MaxUint64) as [|Hne]; [split; [done|constructor]|].
  apply drain_slot_sound, slot_sound_next; [done|done|]. destruct (min_pending_key (pending s)) as [?|[p Hp]]; [done|].
  by destruct (HP _ (ss_pending _ _ Hs _ _ Hp)).
Qed.

Definition applier_sound (o : OrderedApplier) : Prop := ∀ t, slot_sound t (slot o t).

Lemma with_slot_sound o t s : applier_sound o → slot_sound t s → applier_sound (with_slot o t s).
Proof. intros Ho Hs t'. rewrite slot_with_slot. case_decide; [by subst|done]. Qed.

Lemma on_slot_sound o t f :
  applier_sound o → sound_step t (f (slot o t)) → applier_sound (on_slot o t f).1 ∧ Forall effect_sound (on_slot o t f).2.
Proof.
  intros Ho [H1 H2]. unfold on_slot. destruct (f (slot o t)) as [s es]. cbn [fst snd] in *.
  split; [by apply with_slot_sound|done].
Qed.

Lemma Receive_sound o t q p :
  applier_sound o → P (mkEntry t q p) → applier_sound (Receive o t q p).1 ∧ Forall effect_sound (Receive o t q p).2.
Proof. intros Ho He. by apply on_slot_sound, receive_slot_sound. Qed.

Lemma gapTimer_sound o t x found :
  applier_sound o → in_word 16 t → (∀ p, found = Some p → P (mkEntry t x p)) →
  applier_sound (gapTimer (Some (repair_callback found)) o t x).1 ∧
  Forall effect_sound (gapTimer (Some (repair_callback found)) o t x).2.
Proof.
  intros Ho Ht Hf. unfold gapTimer. set (o1 := with_slot o t _).
  assert (applier_sound o1) as Ho1 by (apply with_slot_sound; [done|]; destruct (Ho t); by split).
  destruct (Z.eqb_spec (nextSeq (slot o t)) x) as [->|]; [|by split; [|constructor]]. unfold repair_callback.
  destruct found as [p|].
  - pose proof (Receive_sound o1 t x p Ho1 (Hf p eq_refl)) as HR. by destruct (Receive o1 t x p).
  - pose proof (on_slot_sound o1 t (skip_slot t) Ho1 (skip_slot_sound t _ Ht (Ho1 t))) as HS. unfold skipGap.
    by destruct (on_slot o1 t (skip_slot t)).
Qed.

(** ** Streams *)

Lemma newWriter_sound : writer_sound newWriter.
Proof. split; [by intros c ?%elem_of_nil|done]. Qed.

Lemma close_with_sound w c es :
  writer_sound w → Forall P es → c `prefix_of` StreamTypeEagerStream :: frames es → writer_sound (close_with w c).
Proof.
  intros [H1 _] Hes Hc. split; [|done]. cbn. intros c' [?| ->%list_elem_of_singleton]%elem_of_app; [by apply H1|by exists es].
Qed.

Lemma ensure_stream_sound w o :
  writer_sound w →
  writer_sound (ensure_stream w o).2 ∧
  ∀ s, (ensure_stream w o).1 = Some s → ∃ es, Forall P es ∧ s = StreamTypeEagerStream :: frames es.
Proof.
  intros Hw. pose proof Hw as [H1 H2]. unfold ensure_stream. destruct (stream w) as [s|]; [split; [done|]; intros s' [= <-]; by apply H2|].
  destruct (so_open o); [|done]. destruct (so_prefix o) as [|k] eqn:E; cbn [write_ok fst snd].
  - assert (∃ es, Forall P es ∧ [StreamTypeEagerStream] = StreamTypeEagerStream :: frames es) as Hnew by (by exists []).
    split; [|by intros s [= <-]]. split; [exact H1|]. by intros s [= <-].
  - split; [|done]. eapply (close_with_sound w _ []); [done|constructor|]. apply (written_prefix (WFail k)).
Qed.

Lemma send_sound w e o : writer_sound w → P e → writer_sound (send w (encodeEagerMessage e) o).2.
Proof.
  intros Hw He. unfold send. destruct (ensure_stream_sound w o Hw) as [H1 H2].
  destruct (ensure_stream w o) as [[s|] w1]; cbn [fst snd] in *; [|done]. destruct (H2 s eq_refl) as (es & Hes & ->).
  set (hdr := be_put 4 _).
  assert (Forall P (es ++ [e])) as Hes' by (apply Forall_app_2; [done|by constructor]).
  assert (∀ p, p `prefix_of` frame (encodeEagerMessage e) →
    writer_sound (close_with w1 (StreamTypeEagerStream :: frames es ++ p))) as Hpart.
  { intros p Hp. eapply close_with_sound; [done|exact Hes'|]. rewrite frames_snoc. by apply prefix_cons, prefix_app. }
  destruct (so_hdr o) as [|k]; cbn [write_ok written].
  - destruct (so_body o) as [|k]; cbn [write_ok written snd].
    + split; [by apply (ws_closed _ H1)|]. intros s [= <-]. exists (es ++ [e]). split; [done|].
      rewrite frames_snoc. cbn [app]. rewrite <- app_assoc. done.
    + cbn [app]. rewrite <- app_assoc. apply Hpart. unfold frame. apply prefix_app, (written_prefix (WFail k)).
  - cbn [snd app]. apply Hpart. etrans; [apply (written_prefix (WFail k))|]. by exists (encodeEagerMessage e).
Qed.

(** ** Handlers *)

Lemma sound_stat c n g : sound g → sound (add_stat c n g).
Proof. intros [? ? ? ? ? ? ?]. by split. Qed.

Lemma sound_seen s g : sound g → sound (set_seen s g).
Proof. intros [? ? ? ? ? ? ?]. by split. Qed.

Lemma perform_sound g e : sound g → effect_sound e → sound (perform g e).
Proof.
  intros Hg He. pose proof Hg as [? ? ? ? H5 H6 ?]. destruct e as [t q p|t x]; cbn [perform].
  - unfold deliver. destruct (_ <? _); [|by apply sound_stat]. apply sound_stat. split; try done. cbn.
    intros d [?| ->%list_elem_of_singleton]%elem_of_app; [by apply H6|done].
  - split; try done. cbn. intros t' x' [?|[= -> ->]%list_elem_of_singleton]%elem_of_app; [by apply H5|done].
Qed.

Lemma with_applier_sound g r :
  sound g → applier_sound r.1 → Forall effect_sound r.2 → sound (with_applier g r).
Proof.
  intros [? ? ? ? ? ? ?] Hr Hes. unfold with_applier. assert (sound (set_applier r.1 g)) as H0 by (by split).
  revert H0. generalize (set_applier r.1 g) as g0. induction Hes as [|e es He _ IH]; intros g0 H0; [done|]. cbn [foldl].
  apply IH. by apply perform_sound.
Qed.

Lemma CacheEntry_sound first g e : sound g → P e → sound (set_repair (CacheEntry first (ge_repair g) e) g).
Proof.
  intros [? ? H3 ? ? ? ?] He. split; try done. cbn [set_repair ge_repair]. intros k p. rewrite CacheEntry_lookup.
  case_decide as Hk; [intros [= <-]; subst k; by destruct e|]. case_decide; [done|]. apply H3.
Qed.

Lemma forward_to_sound ev e excl acc p : P e → sound acc.1 → sound (forward_to ev e excl acc p).1.
Proof.
  intros He Hg. destruct acc as [g out]. cbn [fst] in Hg. unfold forward_to. case_decide; [done|].
  assert (∀ g1 (ok : bool) n, sound g1 → sound
    (if ok then add_stat EagerBytesSent n (add_stat EagerSend 1 g1) else add_stat EagerFail 1 g1)) as Hst.
  { intros g1 [] n Hg1; by repeat apply sound_stat. }
  destruct (Nat.ltb _ _); [|cbn [fst]; by apply Hst].
  assert (let '(w, g1) := getEagerStream g (op_Addr p) in writer_sound w ∧ sound g1) as Hget.
  { unfold getEagerStream. destruct (eagerStreams g !! op_Addr p) as [w|] eqn:E; [by split; [eapply so_streams|]|].
    split; [apply newWriter_sound|]. destruct Hg as [? ? ? ? ? ? H7]. split; try done. cbn.
    intros a w [[_ <-]|[_ ?]]%lookup_insert_Some; [apply newWriter_sound|by eapply H7]. }
  destruct (getEagerStream g (op_Addr p)) as [w g1]. destruct Hget as [Hw Hg1].
  pose proof (send_sound w e (ev_stream ev p e) Hw He) as Hw'. destruct (send w _ _) as [ok w']. cbn [fst snd] in *.
  apply Hst. destruct Hg1 as [? ? ? ? ? ? H7]. split; try done. cbn.
  intros a w0 [[_ <-]|[_ ?]]%lookup_insert_Some; [done|by eapply H7].
Qed.

Lemma eagerForward_sound ev g e excl : P e → sound g → sound (eagerForward ev g e excl).1.
Proof.
  intros He Hg. unfold eagerForward. generalize (EagerPeers (ge_overlay g)) as peers.
  assert (sound (g, @nil sent).1) as H0 by done. revert H0. generalize (g, @nil sent) as acc.
  intros acc H0 peers. revert acc H0. induction peers as [|p peers IH]; intros acc H0; [done|]. cbn [foldl].
  apply IH. by apply forward_to_sound.
Qed.

Lemma Add_sound b e : Forall P (lb_entries b) → P e → Forall P (lb_entries (Add b e)).
Proof. intros Hb He. unfold Add. destruct (_ <? _); [|done]. apply Forall_app_2; [done|by constructor]. Qed.

Lemma enqueueForLazy_sound g e excl : P e → sound g → sound (enqueueForLazy g e excl).
Proof.
  intros He [? H2 ? ? ? ? ?]. unfold enqueueForLazy. split; try done. cbn [set_lazyBuffers lazyBuffers].
  revert H2. generalize (lazyBuffers g) as bufs. induction (LazyPeers (ge_overlay g)) as [|p peers IH]; intros bufs Hb; [exact Hb|].
  cbn [foldl]. apply IH. unfold enqueue_to. case_decide; [exact Hb|].
  intros id b [[_ <-]|[_ ?]]%lookup_insert_Some; [|by eapply Hb]. apply Add_sound; [|done].
  destruct (bufs !! op_NodeID p) as [b|] eqn:E; [by eapply Hb|constructor].
Qed.

Lemma handleLocal_sound ev g e : P e → sound g → sound (handleLocal ev g e).1.
Proof.
  intros He Hg. unfold handleLocal. set (g3 := set_repair _ _).
  assert (sound g3) as H3 by (by apply CacheEntry_sound; [apply sound_seen, sound_stat|]).
  pose proof (eagerForward_sound ev g3 e "" He H3) as H4. destruct (eagerForward ev g3 e "") as [g4 out].
  cbn [fst] in *. by apply enqueueForLazy_sound.
Qed.

Lemma process_sound ev recv dup from g e : P e → sound g → sound (process ev recv dup from g e).1.
Proof.
  intros He Hg. unfold process. destruct (ShouldProcess _ _ _) as [[] s']; [|by apply sound_stat, sound_seen].
  unfold accept. set (g1 := set_repair _ _).
  assert (sound g1) as H1 by (by apply CacheEntry_sound; [apply sound_stat, sound_seen|]).
  assert (sound (applier_receive g1 e)) as H2.
  { destruct (Receive_sound (ge_applier g1) (Topic e) (Seq e) (Payload e)) as [Ha Hes]; [exact (so_applier _ H1)|by destruct e|].
    by apply with_applier_sound. }
  pose proof (eagerForward_sound ev _ e from He H2) as H3. destruct (eagerForward ev _ e from) as [g3 out].
  cbn [fst] in *. by apply enqueueForLazy_sound.
Qed.

Lemma process_all_sound ev from g es : Forall P es → sound g → sound (process_all ev from g es).1.
Proof.
  intros Hes. rewrite process_all_state. revert g. induction Hes as [|e es He _ IH]; intros g Hg; [done|]. cbn [foldl].
  apply IH. by apply process_sound.
Qed.

Lemma UpdatePeerSeqs_entries b ms : lb_entries (UpdatePeerSeqs b ms) = lb_entries b.
Proof.
  unfold UpdatePeerSeqs. revert b. induction ms as [|m ms IH]; intros b; [done|]. cbn [foldl]. rewrite IH.
  unfold updatePeerSeq. by destruct (_ <? _).
Qed.

Lemma flush_sound g :
  sound g → sound (flushLazyBatches g).1 ∧ ∀ addr b, (addr, b) ∈ (flushLazyBatches g).2 → Forall P (Entries b).
Proof.
  intros [? H2 ? ? ? ? ?]. unfold flushLazyBatches. set (marks := HighWaterMarks _).
  enough (∀ peers acc, (∀ id b, acc.1 !! id = Some b → Forall P (lb_entries b)) →
    (∀ addr b, (addr, b) ∈ acc.2 → Forall P (Entries b)) →
    (∀ id b, (foldl (flush_one marks) acc peers).1 !! id = Some b → Forall P (lb_entries b)) ∧
    (∀ addr b, (addr, b) ∈ (foldl (flush_one marks) acc peers).2 → Forall P (Entries b))) as Hall.
  { destruct (Hall (LazyPeers (ge_overlay g)) (lazyBuffers g, [])) as [A1 A2]; [done|by intros ? ? ?%elem_of_nil|].
    destruct (foldl _ _ _) as [bufs batches]. cbn [fst snd] in *. split; [by split|done]. }
  induction peers as [|p peers IH]; intros [bufs batches] B1 B2; [done|]. cbn [foldl]. cbn [fst snd] in *.
  unfold flush_one at 2 4. destruct (bufs !! op_NodeID p) as [buf|] eqn:E; [|by apply IH].
  destruct (Len buf =? 0)%nat; [by apply IH|]. pose proof (B1 _ _ E) as Hb. cbn. apply IH; cbn.
  - intros id b [[_ <-]|[_ ?]]%lookup_insert_Some; [constructor|by eapply B1].
  - intros addr b [?|[= -> ->]%list_elem_of_singleton]%elem_of_app; [by eapply B2|done].
Qed.

(** ** Actions *)

Context `{HZ : Zstd}.

(** What an action brings into the engine has the property. *)
Definition act_sound (g : GossipEngine) (a : engine_act) : Prop :=
  match a with
  | AEnqueue t q p => P (mkEntry t q p)
  | AEager _ _ data => ∀ e, decodeEagerMessage data = Ok e → P e
  | ALazy _ _ r => ∀ batch r', ReadLazyBatch r = Ok (batch, r') → Forall P (Entries batch)
  | ATimer _ conns => ∀ t x p, in_word 16 t → in_word 64 x →
      first_hit conns (RandomPeers (ge_overlay g) 3) t x = Some p → P (mkEntry t x p)
  | _ => True
  end.

Lemma gap_timer_sound g i conns g' :
  act_sound g (ATimer i conns) → sound g → gap_timer g i conns = Some g' → sound g'.
Proof.
  intros Ha Hg. unfold gap_timer. destruct (ge_timers g !! i) as [[t x]|] eqn:Hi; cbn; [|done]. intros [= <-].
  destruct (so_timers _ Hg t x) as [Ht Hx]; [by eapply list_elem_of_lookup_2|]. rewrite gapTimer_RequestRepair.
  destruct (gapTimer_sound (ge_applier g) t x (first_hit conns (RandomPeers (ge_overlay g) 3) t x)) as [H1 H2];
    [exact (so_applier _ Hg)|done|intros p; by apply Ha|].
  apply with_applier_sound; [|done|done]. destruct Hg as [? ? ? ? H5 ? ?]. split; try done. cbn.
  intros t' x' Hin. apply H5. eapply elem_of_submseteq; [exact Hin|]. apply sublist_submseteq, sublist_delete.
Qed.

Lemma onLazyBatchReceive_sound ev g from r :
  act_sound g (ALazy ev from r) → sound g → sound (onLazyBatchReceive ev g from r).1.
Proof.
  intros Ha Hg. cbn in Ha. unfold onLazyBatchReceive. destruct (ReadLazyBatch r) as [[batch r']|]; [|done].
  apply process_all_sound; [by eapply Ha|]. destruct (lazyBuffers g !! from) as [b|] eqn:E; [|done].
  destruct Hg as [? H2 ? ? ? ? ?]. split; try done. cbn.
  intros id b' [[_ <-]|[_ ?]]%lookup_insert_Some; [rewrite UpdatePeerSeqs_entries|]; by eapply H2.
Qed.

Lemma do_engine_sound g a g' taken :
  sound g → act_sound g a → do_engine g a = Some (g', taken) →
  sound g' ∧ ∀ d, d ∈ taken → P (delivered_entry d).
Proof.
  intros Hg Ha. assert (∀ g1, sound g1 → sound g1 ∧ ∀ d, d ∈ @nil DeliveredEntry → P (delivered_entry d)) as Hnil.
  { intros g1 H1. split; [done|]. by intros d ?%elem_of_nil. }
  destruct a as [t q p|ev| |ev from data|ev from r|i conns|t q|o| |b o]; cbn [do_engine].
  - unfold Enqueue. destruct (_ <? _)%nat; cbn; [|done]. intros [= <- <-]. apply Hnil.
    destruct Hg as [H1 ? ? ? ? ? ?]. split; try done. cbn. apply Forall_app_2; [done|by constructor].
  - unfold run_local. destruct (localCh g) as [|e rest] eqn:E; cbn; [done|].
    destruct (Forall_cons_1 _ _ _ ltac:(rewrite <- E; exact (so_local _ Hg))) as [He Hrest].
    assert (sound (set_localCh rest g)) as H1 by (destruct Hg; by split).
    pose proof (handleLocal_sound ev _ e He H1) as H2. destruct (handleLocal _ _ _) as [g1 out]. intros [= <- <-]. by apply Hnil.
  - intros [= <- <-]. apply Hnil. by apply flush_sound.
  - intros [= <- <-]. apply Hnil. unfold onEagerReceive. cbn in Ha.
    destruct (decodeEagerMessage data) as [e|]; [|by apply sound_stat]. apply process_sound; [by apply Ha|by apply sound_stat].
  - intros [= <- <-]. by apply Hnil, onLazyBatchReceive_sound.
  - destruct (gap_timer g i conns) as [g1|] eqn:E; cbn; [|done]. intros [= <- <-]. by eapply Hnil, gap_timer_sound.
  - intros [= <- <-]. apply Hnil. destruct Hg as [? ? ? H4 ? ? ?]. split; try done. cbn. unfold SetNextSeq.
    apply with_slot_sound; [done|]. split; [apply in_word_succ|]. cbn. intros q' p'. by rewrite lookup_empty.
  - intros [= <- <-]. apply Hnil. destruct Hg. by split.
  - unfold consume. destruct (deliverCh g) as [|d rest] eqn:E; cbn; [done|]. intros [= <- <-].
    destruct Hg as [? ? ? ? ? H6 ?]. rewrite E in H6. split.
    + split; try done. cbn. intros d' Hd'. apply H6. by right.
    + intros d' ->%list_elem_of_singleton. apply H6. by left.
  - intros [= <- <-]. apply Hnil. unfold sendLazyBatch. repeat case_match; cbn [fst]; by repeat apply sound_stat.
Qed.

Lemma New_sound o cfg : sound (New o cfg).
Proof.
  split.
  - constructor.
  - intros id b. cbn [New lazyBuffers]. by rewrite lookup_empty.
  - intros k p. cbn [New ge_repair NewRepairManager cache]. by rewrite lookup_empty.
  - intros t. change (slot (ge_applier (New o cfg)) t) with emptySlot. split; [done|]. intros q p. cbn [emptySlot pending].
    by rewrite lookup_empty.
  - by intros t x ?%elem_of_nil.
  - by intros d ?%elem_of_nil.
  - intros addr w. cbn [New eagerStreams]. by rewrite lookup_empty.
Qed.

End Sound.
