(* ===== verification/Netaddr.v ===== *)
(** * Addresses: the parts of packages net and strconv the code uses

    Go strings are [string]; their bytes are scanned as lists.  An [IP] is its
    slice of bytes, 4 or 16 of them, and the empty one is nil.  [ParseIP]
    follows net/netip.ParseAddr: dotted decimal, or hexadecimal groups with at
    most one ellipsis and an optional dotted tail; an address with a zone is
    refused. *)

From stdpp Require Import pretty.
From S2P Require Import Prelude.

(** ** Strings as bytes *)

Definition bytes_of (s : string) : bytes := String.list_byte_of_string s.

Definition string_of (l : bytes) : string := String.string_of_list_byte l.

Lemma string_of_bytes s : string_of (bytes_of s) = s.
Proof. apply String.string_of_list_byte_of_string. Qed.

Lemma bytes_of_string l : bytes_of (string_of l) = l.
Proof. apply String.list_byte_of_string_of_list_byte. Qed.

#[export] Instance bytes_of_inj : Inj (=) (=) bytes_of.
Proof. intros s1 s2 H. rewrite <- (string_of_bytes s1), <- (string_of_bytes s2). by f_equal. Qed.

#[export] Instance string_of_inj : Inj (=) (=) string_of.
Proof. intros l1 l2 H. rewrite <- (bytes_of_string l1), <- (bytes_of_string l2). by f_equal. Qed.

Lemma bytes_of_app s1 s2 : bytes_of (s1 +:+ s2) = bytes_of s1 ++ bytes_of s2.
Proof.
  induction s1 as [|a s1 IH]; [done|]. change (String a s1 +:+ s2) with (String a (s1 +:+ s2)).
  unfold bytes_of. cbn. f_equal. exact IH.
Qed.

Lemma bytes_of_length s : length (bytes_of s) = String.length s.
Proof. induction s as [|a s IH]; [done|]. unfold bytes_of. cbn. f_equal. exact IH. Qed.

(** [strings.IndexByte] and [strings.LastIndexByte]. *)
Fixpoint index_byte (c : byte) (l : bytes) : option nat :=
  match l with
  | [] => None
  | b :: l' => if decide (b = c) then Some O else S <$> index_byte c l'
  end.

Fixpoint last_index_byte (c : byte) (l : bytes) : option nat :=
  match l with
  | [] => None
  | b :: l' =>
      match last_index_byte c l' with
      | Some i => Some (S i)
      | None => if decide (b = c) then Some O else None
      end
  end.

Lemma index_byte_None c l : c ∉ l → index_byte c l = None.
Proof.
  induction l as [|b l IH]; [done|]. intros [Hb Hl]%not_elem_of_cons. cbn.
  rewrite decide_False by done. by rewrite IH.
Qed.

Lemma index_byte_is_Some c l : is_Some (index_byte c l) ↔ c ∈ l.
Proof.
  induction l as [|b l IH]; cbn.
  - split; [by intros [? ?]|by intros ?%elem_of_nil].
  - rewrite elem_of_cons. case_decide as Hb; [naive_solver|]. rewrite fmap_is_Some, IH. naive_solver.
Qed.

Lemma index_byte_middle c l1 l2 : c ∉ l1 → index_byte c (l1 ++ c :: l2) = Some (length l1).
Proof.
  induction l1 as [|b l1 IH]; cbn; [by rewrite decide_True|].
  intros [Hb Hl]%not_elem_of_cons. rewrite decide_False by done. by rewrite IH.
Qed.

Lemma last_index_byte_None c l : c ∉ l → last_index_byte c l = None.
Proof.
  induction l as [|b l IH]; [done|]. intros [Hb Hl]%not_elem_of_cons. cbn. rewrite IH by done.
  by rewrite decide_False.
Qed.

Lemma last_index_byte_middle c l1 l2 : c ∉ l2 → last_index_byte c (l1 ++ c :: l2) = Some (length l1).
Proof.
  intros Hl2. induction l1 as [|b l1 IH]; cbn; [|by rewrite IH].
  rewrite last_index_byte_None by done. by rewrite decide_True.
Qed.

(** ** Host and port *)

Definition colon : byte := x3a.
Definition lbracket : byte := x5b.
Definition rbracket : byte := x5d.

(** [net.JoinHostPort]. *)
Definition JoinHostPort (host port : string) : string :=
  match index_byte colon (bytes_of host) with
  | Some _ => "[" +:+ host +:+ "]:" +:+ port
  | None => host +:+ ":" +:+ port
  end.

(** [strconv.Itoa]. *)
Definition Itoa (z : Z) : string := pretty z.

(** The two checks after the host is found: no bracket from [j] and [k] on. *)
Definition split_rest (l : bytes) (i j k : nat) (host : bytes) : option (string * string) :=
  match index_byte lbracket (drop j l), index_byte rbracket (drop k l) with
  | None, None => Some (string_of host, string_of (drop (S i) l))
  | _, _ => None
  end.

(** [net.SplitHostPort]; every error returns empty strings. *)
Definition SplitHostPort (hostport : string) : option (string * string) :=
  let l := bytes_of hostport in
  match last_index_byte colon l with
  | None => None
  | Some i =>
      if decide (head l = Some lbracket) then
        match index_byte rbracket l with
        | None => None
        | Some stop =>
            if decide (S stop = i) then split_rest l i 1 (S stop) (take (stop - 1) (drop 1 l)) else None
        end
      else
        match index_byte colon (take i l) with
        | Some _ => None
        | None => split_rest l i 0 0 (take i l)
        end
  end.

(** [host, _, _ := net.SplitHostPort(a)] *)
Definition splitHost (a : string) : string := match SplitHostPort a with Some (h, _) => h | None => "" end.

(** What a host and a port may contain to survive the round trip. *)
Definition plain_host (h : string) : Prop := (lbracket ∉ bytes_of h) ∧ (rbracket ∉ bytes_of h).
Definition plain_port (p : string) : Prop :=
  (colon ∉ bytes_of p) ∧ (lbracket ∉ bytes_of p) ∧ (rbracket ∉ bytes_of p).

#[export] Instance plain_host_dec h : Decision (plain_host h).
Proof. unfold plain_host. apply _. Defined.
#[export] Instance plain_port_dec p : Decision (plain_port p).
Proof. unfold plain_port. apply _. Defined.

Lemma split_rest_ok l i j k host :
  lbracket ∉ drop j l → rbracket ∉ drop k l →
  split_rest l i j k host = Some (string_of host, string_of (drop (S i) l)).
Proof. intros H1 H2. unfold split_rest. by rewrite !index_byte_None. Qed.

Lemma drop_after {A} (l1 l2 : list A) x : drop (S (length l1)) (l1 ++ x :: l2) = l2.
Proof. induction l1 as [|y l1 IH]; [done|exact IH]. Qed.

Lemma split_bracketed h p :
  plain_host h → plain_port p → SplitHostPort ("[" +:+ h +:+ "]:" +:+ p) = Some (h, p).
Proof.
  intros [H1 H2] (P1 & P2 & P3). unfold SplitHostPort. rewrite !bytes_of_app.
  change (bytes_of "[") with [lbracket]. change (bytes_of "]:") with [rbracket; colon].
  set (hb := bytes_of h) in *. set (pb := bytes_of p) in *. cbn [app].
  assert (lbracket :: hb ++ rbracket :: colon :: pb = (lbracket :: hb ++ [rbracket]) ++ colon :: pb) as Hl
    by (cbn; by rewrite <- app_assoc).
  rewrite Hl at 1. rewrite last_index_byte_middle, decide_True by done.
  change (lbracket :: hb ++ rbracket :: colon :: pb) with ((lbracket :: hb) ++ rbracket :: colon :: pb).
  rewrite index_byte_middle by (by apply not_elem_of_cons).
  rewrite decide_True by (cbn; rewrite length_app; cbn; lia).
  rewrite split_rest_ok.
  - change ((lbracket :: hb) ++ rbracket :: colon :: pb) with (lbracket :: hb ++ rbracket :: colon :: pb).
    rewrite Hl at 2. rewrite drop_after. cbn [length drop]. rewrite Nat.sub_1_r. cbn [pred].
    rewrite drop_0, take_app_length. unfold hb, pb. by rewrite !string_of_bytes.
  - cbn [drop app]. set_unfold. intros [?|[?|[?|?]]]; done.
  - rewrite drop_after. set_unfold. intros [?|?]; done.
Qed.

Lemma split_unbracketed h p :
  colon ∉ bytes_of h → plain_host h → plain_port p → SplitHostPort (h +:+ ":" +:+ p) = Some (h, p).
Proof.
  intros Hc [H1 H2] (P1 & P2 & P3). unfold SplitHostPort. rewrite !bytes_of_app.
  change (bytes_of ":") with [colon]. set (hb := bytes_of h) in *. set (pb := bytes_of p) in *. cbn [app].
  rewrite last_index_byte_middle by done. rewrite decide_False.
  2:{ destruct hb as [|b hb']; [done|]. cbn. intros [= ->]. set_solver. }
  rewrite take_app_length, index_byte_None by done. rewrite split_rest_ok, drop_after.
  - unfold hb, pb. by rewrite !string_of_bytes.
  - rewrite drop_0. set_unfold. intros [?|[?|?]]; done.
  - rewrite drop_0. set_unfold. intros [?|[?|?]]; done.
Qed.

(** Splitting undoes joining, for names, IPv4 and IPv6 literals alike. *)
Lemma split_join_host_port h p :
  plain_host h → plain_port p → SplitHostPort (JoinHostPort h p) = Some (h, p).
Proof.
  intros Hh Hp. unfold JoinHostPort. destruct (index_byte colon (bytes_of h)) as [n|] eqn:E.
  - by apply split_bracketed.
  - apply split_unbracketed; [|done..]. intros Hin%index_byte_is_Some. rewrite E in Hin. by destruct Hin.
Qed.

(** ** IP addresses *)

Abbreviation IP := bytes.

Definition v4InV6Prefix : bytes := replicate 10 x00 ++ [xff; xff].

Definition is_digit (c : byte) : bool := (48 <=? byte_to_Z c) && (byte_to_Z c <=? 57).

Definition dot : byte := x2e.

(** [parseIPv4Fields]: the scan of a dotted-decimal address.  [prev] is the
    previous byte, [val] and [digLen] the current field, [fields] the ones
    before it. *)
Fixpoint ipv4_fields (prev : option byte) (val digLen : Z) (fields : bytes) (s : bytes) : option bytes :=
  match s with
  | [] => if (length fields <? 3)%nat then None else Some (fields ++ [byte_of_Z val])
  | c :: s' =>
      if is_digit c then
        if (digLen =? 1) && (val =? 0) then None
        else
          let val' := val * 10 + byte_to_Z c - 48 in
          if 255 <? val' then None else ipv4_fields (Some c) val' (digLen + 1) fields s'
      else if decide (c = dot) then
        if bool_decide (prev = None) || bool_decide (s' = []) || bool_decide (prev = Some dot) then None
        else if (length fields =? 3)%nat then None
        else ipv4_fields (Some c) 0 0 (fields ++ [byte_of_Z val]) s'
      else None
  end.

Definition hex_val (c : byte) : option Z :=
  let z := byte_to_Z c in
  if (48 <=? z) && (z <=? 57) then Some (z - 48)
  else if (97 <=? z) && (z <=? 102) then Some (z - 97 + 10)
  else if (65 <=? z) && (z <=? 70) then Some (z - 65 + 10)
  else None.

(** A hexadecimal group of at most four digits: its length, value and the rest. *)
Fixpoint hex_group (off : nat) (acc : Z) (s : bytes) : option (nat * Z * bytes) :=
  match s with
  | [] => Some (off, acc, [])
  | c :: s' =>
      match hex_val c with
      | None => Some (off, acc, s)
      | Some d =>
          if (3 <? off)%nat then None
          else
            let acc' := u32 (Z.shiftl acc 4 + d) in
            if 65535 <? acc' then None else hex_group (S off) acc' s'
      end
  end.

(** The loop of [parseIPv6]: [ip] holds the bytes so far, [ellipsis] where the
    double colon stood; [n] groups still fit. *)
Fixpoint ipv6_loop (n : nat) (s : bytes) (ip : bytes) (ellipsis : option nat) :
    option (bytes * bytes * option nat) :=
  match n with
  | O => Some (s, ip, ellipsis)
  | S n' =>
      match hex_group 0 0 s with
      | None => None
      | Some (O, _, _) => None
      | Some (_, acc, s1) =>
          if decide (head s1 = Some dot) then
            if bool_decide (ellipsis = None) && negb (length ip =? 12)%nat then None
            else if (16 <? length ip + 4)%nat then None
            else match ipv4_fields None 0 0 [] s with
                 | None => None
                 | Some v4 => Some ([], ip ++ v4, ellipsis)
                 end
          else
            let ip1 := ip ++ be_put 2 acc in
            match s1 with
            | [] => Some ([], ip1, ellipsis)
            | c :: s2 =>
                if decide (c = colon) then
                  match s2 with
                  | [] => None
                  | c2 :: s3 =>
                      if decide (c2 = colon) then
                        match ellipsis with
                        | Some _ => None
                        | None =>
                            match s3 with
                            | [] => Some ([], ip1, Some (length ip1))
                            | _ :: _ => ipv6_loop n' s3 ip1 (Some (length ip1))
                            end
                        end
                      else ipv6_loop n' s2 ip1 ellipsis
                  end
                else None
            end
      end
  end.

(** After the loop: nothing may be left, and an ellipsis stands for the zeros
    that are missing. *)
Definition ipv6_finish (r : bytes * bytes * option nat) : option bytes :=
  let '(s, ip, ellipsis) := r in
  match s with
  | _ :: _ => None
  | [] =>
      if (length ip <? 16)%nat then
        match ellipsis with
        | None => None
        | Some e => Some (take e ip ++ replicate (16 - length ip) x00 ++ drop e ip)
        end
      else match ellipsis with Some _ => None | None => Some ip end
  end.

(** [parseIPv6] of an address without a zone. *)
Definition parseIPv6 (s : bytes) : option bytes :=
  match s with
  | c1 :: c2 :: s' =>
      if decide (c1 = colon ∧ c2 = colon) then
        match s' with
        | [] => Some (replicate 16 x00)
        | _ :: _ => ipv6_loop 8 s' [] (Some 0%nat) ≫= ipv6_finish
        end
      else ipv6_loop 8 s [] None ≫= ipv6_finish
  | _ => ipv6_loop 8 s [] None ≫= ipv6_finish
  end.

Definition percent : byte := x25.

(** The first dot or colon decides which form is parsed. *)
Fixpoint addr_form (s : bytes) : option byte :=
  match s with
  | [] => None
  | c :: s' =>
      if decide (c = dot ∨ c = colon) then Some c else if decide (c = percent) then None else addr_form s'
  end.

(** [net.ParseIP]: 16 bytes, or nil.  An address with a zone is an error or is
    refused afterwards. *)
Definition ParseIP (str : string) : IP :=
  let s := bytes_of str in
  match addr_form s with
  | None => []
  | Some c =>
      if decide (c = dot) then
        match ipv4_fields None 0 0 [] s with Some v4 => v4InV6Prefix ++ v4 | None => [] end
      else
        match index_byte percent s with
        | Some _ => []
        | None => default [] (parseIPv6 s)
        end
  end.

(** [IP.Equal]: an IPv4 address equals its form in IPv6. *)
Definition ip_equal (ip x : IP) : bool :=
  if (length ip =? length x)%nat then bool_decide (ip = x)
  else if (length ip =? 4)%nat && (length x =? 16)%nat then
    bool_decide (take 12 x = v4InV6Prefix) && bool_decide (ip = drop 12 x)
  else if (length ip =? 16)%nat && (length x =? 4)%nat then
    bool_decide (take 12 ip = v4InV6Prefix) && bool_decide (drop 12 ip = x)
  else false.

Definition IPv4zero : IP := v4InV6Prefix ++ replicate 4 x00.
Definition IPv6unspecified : IP := replicate 16 x00.

Definition IsUnspecified (ip : IP) : bool := ip_equal ip IPv4zero || ip_equal ip IPv6unspecified.

Example parse_v4 : ParseIP "192.0.2.1" = v4InV6Prefix ++ [xc0; x00; x02; x01].
Proof. vm_compute. reflexivity. Qed.

Example parse_v6 : ParseIP "2001:db8::1" = [x20; x01; x0d; xb8] ++ replicate 11 x00 ++ [x01].
Proof. vm_compute. reflexivity. Qed.

Example parse_v6_tail : ParseIP "::ffff:192.0.2.1" = ParseIP "192.0.2.1".
Proof. vm_compute. reflexivity. Qed.

Example parse_refused :
  ParseIP "" = [] ∧ ParseIP "localhost" = [] ∧ ParseIP "1.2.3" = [] ∧ ParseIP "1.2.3.256" = [] ∧
  ParseIP "01.2.3.4" = [] ∧ ParseIP "fe80::1%eth0" = [] ∧ ParseIP "1::2::3" = [] ∧ ParseIP "::1:2:3:4:5:6:7:8" = [].
Proof. vm_compute. done. Qed.

(** ** Printing an IPv4 address and parsing it *)

Definition octet (b : byte) : string := pretty (byte_to_Z b).

(** [IP.String] of the IPv4 address with these bytes. *)
Definition ipv4_string (a b c d : byte) : string :=
  octet a +:+ "." +:+ octet b +:+ "." +:+ octet c +:+ "." +:+ octet d.

Lemma octet_digits b : Forall (fun c => is_digit c = true) (bytes_of (octet b)).
Proof.
  assert (forallb is_digit (bytes_of (octet b)) = true) as H by (destruct b; vm_compute; reflexivity).
  rewrite forallb_forall in H. apply Forall_forall. intros c Hc. apply H. by apply list_elem_of_In.
Qed.

(** Scanning a printed octet leaves its value. *)
Lemma ipv4_fields_octet b :
  ∃ c n, is_digit c = true ∧ ∀ prev fields rest,
    ipv4_fields prev 0 0 fields (bytes_of (octet b) ++ rest) = ipv4_fields (Some c) (byte_to_Z b) n fields rest.
Proof.
  destruct b;
    (match goal with |- context [octet ?b] => let l := eval vm_compute in (bytes_of (octet b)) in
       let c := eval vm_compute in (List.last l x00) in
       change (bytes_of (octet b)) with l; exists c, (Z.of_nat (length l)); split; [reflexivity|] end);
    intros prev fields rest; reflexivity.
Qed.

Lemma digit_not_dot c : is_digit c = true → c ≠ dot ∧ c ≠ colon ∧ c ≠ percent ∧ c ≠ lbracket ∧ c ≠ rbracket.
Proof. intros H. split_and!; intros ->; vm_compute in H; discriminate. Qed.

Lemma addr_form_digits l rest : Forall (fun c => is_digit c = true) l → addr_form (l ++ dot :: rest) = Some dot.
Proof.
  induction 1 as [|c l Hc _ IH]; [done|]. destruct (digit_not_dot c Hc) as (? & ? & ? & _). cbn.
  rewrite decide_False by tauto. by rewrite decide_False.
Qed.

(** Octets that are followed by more: the field is closed at the dot. *)
Lemma ipv4_fields_dot b fields rest prev :
  (length fields < 3)%nat → rest ≠ [] →
  ipv4_fields prev 0 0 fields (bytes_of (octet b) ++ dot :: rest) = ipv4_fields (Some dot) 0 0 (fields ++ [b]) rest.
Proof.
  intros Hf Hr. destruct (ipv4_fields_octet b) as (c & n & Hc & ->).
  destruct (digit_not_dot c Hc) as (Hd & _). cbn [ipv4_fields]. change (is_digit dot) with false. cbv iota.
  rewrite decide_True by done. rewrite !bool_decide_false by (done || congruence). cbn [orb].
  rewrite (proj2 (Nat.eqb_neq _ _)) by lia. by rewrite byte_of_to_Z.
Qed.

Lemma ipv4_string_bytes a b c d :
  bytes_of (ipv4_string a b c d) =
  bytes_of (octet a) ++ dot :: bytes_of (octet b) ++ dot :: bytes_of (octet c) ++ dot :: bytes_of (octet d).
Proof. unfold ipv4_string. by rewrite !bytes_of_app. Qed.

Lemma octet_nonempty b : bytes_of (octet b) ≠ [].
Proof. destruct b; vm_compute; discriminate. Qed.

(** Parsing restores what [IP.String] prints. *)
Lemma ParseIP_ipv4_string a b c d : ParseIP (ipv4_string a b c d) = v4InV6Prefix ++ [a; b; c; d].
Proof.
  unfold ParseIP. rewrite ipv4_string_bytes, addr_form_digits by apply octet_digits. rewrite decide_True by done.
  assert (∀ x l, bytes_of (octet x) ++ l ≠ []) as Hne.
  { intros x l [H _]%app_eq_nil. by apply (octet_nonempty x). }
  rewrite !ipv4_fields_dot by (cbn; (lia || apply Hne || apply octet_nonempty)). cbn [app].
  destruct (ipv4_fields_octet d) as (c' & n & _ & Hd). specialize (Hd (Some dot) [a; b; c] []).
  rewrite app_nil_r in Hd. rewrite Hd. cbn. by rewrite byte_of_to_Z.
Qed.

Lemma ipv4_string_plain a b c d : (colon ∉ bytes_of (ipv4_string a b c d)) ∧ plain_host (ipv4_string a b c d).
Proof.
  assert (∀ x b', is_digit b' = false → b' ∉ bytes_of (octet x)) as Hno.
  { intros x b' Hb' Hin. pose proof (octet_digits x) as Hd. rewrite Forall_forall in Hd.
    apply Hd in Hin. congruence. }
  assert (∀ b', is_digit b' = false → b' ≠ dot → b' ∉ bytes_of (ipv4_string a b c d)) as H.
  { intros b' Hb' Hd. rewrite ipv4_string_bytes. repeat rewrite ?not_elem_of_app, ?not_elem_of_cons. auto 10. }
  split; [by apply H|]. split; by apply H.
Qed.
