(* ===== verification/EngineLoop.v ===== *)
(** * The life of the engine's loop (src/engine/engine.go, [Run])

    The cases of the select in [Run] belong to a goroutine that somebody starts
    and whose context somebody ends; everything else the engine does goes on
    without it.  Also the one-line summaries of the engine and the overlay. *)

From S2P Require Import Prelude Seen Stream EagerWire Batch Ordered OrderedSpec OrderedRun Overlay OverlaySpec Repair Engine EngineSpec EngineRun Netaddr.

(** The calls of [Run] that have not returned, each with whether its context has
    ended; whether [done] is closed; whether the process has panicked. *)
Record loop := mkLoop { lp_engine : GossipEngine; lp_runs : list bool; lp_done : bool; lp_panic : bool }.

Definition newLoop (g : GossipEngine) : loop := mkLoop g [] false false.

(** What can happen: [Run] is called, a context ends, a loop takes one of its
    three cases, something else happens to the engine. *)
Inductive loop_act :=
| LRun
| LCancel (i : nat)
| LReturn (i : nat)
| LLocal (i : nat) (ev : env)
| LTick (i : nat)
| LOther (a : engine_act).

(** Not a case of the select. *)
Definition outside (a : engine_act) : bool := match a with ALocal _ | ATick => false | _ => true end.

Section Loop.
Context `{HZ : Zstd}.

Definition act_on (l : loop) (a : engine_act) : option (loop * list DeliveredEntry) :=
  '(g, taken) ← do_engine (lp_engine l) a; Some (mkLoop g (lp_runs l) (lp_done l) (lp_panic l), taken).

(** [None]: not possible now.  Closing [done] a second time panics, after which
    nothing happens any more. *)
Definition do_loop (l : loop) (a : loop_act) : option (loop * list DeliveredEntry) :=
  if lp_panic l then None
  else
    match a with
    | LRun => Some (mkLoop (lp_engine l) (lp_runs l ++ [false]) (lp_done l) false, [])
    | LCancel i => _ ← lp_runs l !! i; Some (mkLoop (lp_engine l) (<[i := true]> (lp_runs l)) (lp_done l) false, [])
    | LReturn i =>
        ended ← lp_runs l !! i;
        if (ended : bool) then Some (mkLoop (lp_engine l) (delete i (lp_runs l)) true (lp_done l), []) else None
    | LLocal i ev => _ ← lp_runs l !! i; act_on l (ALocal ev)
    | LTick i => _ ← lp_runs l !! i; act_on l ATick
    | LOther a => if outside a then act_on l a else None
    end.

Fixpoint run_loop (l : loop) (acts : list loop_act) : option (loop * list DeliveredEntry) :=
  match acts with
  | [] => Some (l, [])
  | a :: acts' =>
      '(l1, taken) ← do_loop l a;
      '(l2, taken') ← run_loop l1 acts';
      Some (l2, taken ++ taken')
  end.

(** ** Summaries *)

Definition kib (n : Z) : string := Itoa (Z.quot n 1024).

Definition StatsString (g : GossipEngine) : string :=
  let s := Stats g in
  "eager(recv=" +:+ Itoa (s EagerRecv) +:+ " dup=" +:+ Itoa (s EagerDup) +:+ " send=" +:+ Itoa (s EagerSend)
    +:+ " fail=" +:+ Itoa (s EagerFail) +:+ " " +:+ kib (s EagerBytesSent)
    +:+ "KB) lazy(recv=" +:+ Itoa (s LazyRecv) +:+ " dup=" +:+ Itoa (s LazyDup) +:+ " send=" +:+ Itoa (s LazySend)
    +:+ " fail=" +:+ Itoa (s LazyFail) +:+ " " +:+ kib (s LazyBytesSent)
    +:+ "KB) local=" +:+ Itoa (s LocalEnqueue) +:+ " deliverDrop=" +:+ Itoa (s DeliverDrop)
    +:+ " recv=" +:+ kib (s BytesRecv) +:+ "KB".

(** ** The loop's runs are runs of the engine *)

(** What a step does to the engine. *)
Definition engine_part (a : loop_act) : option engine_act :=
  match a with
  | LRun | LCancel _ | LReturn _ => None
  | LLocal _ ev => Some (ALocal ev)
  | LTick _ => Some ATick
  | LOther a => Some a
  end.

Lemma act_on_engine l a l' taken :
  act_on l a = Some (l', taken) →
  do_engine (lp_engine l) a = Some (lp_engine l', taken) ∧ lp_runs l' = lp_runs l ∧ lp_done l' = lp_done l ∧ lp_panic l' = lp_panic l.
Proof. unfold act_on. destruct (do_engine _ a) as [[g t]|]; cbn; [|done]. by intros [= <- <-]. Qed.

Lemma do_loop_engine l a l' taken :
  do_loop l a = Some (l', taken) →
  match engine_part a with
  | Some b => do_engine (lp_engine l) b = Some (lp_engine l', taken)
  | None => lp_engine l' = lp_engine l ∧ taken = []
  end.
Proof.
  unfold do_loop. destruct (lp_panic l); [done|]. destruct a as [|i|i|i ev|i|b]; cbn [engine_part].
  - by intros [= <- <-].
  - destruct (lp_runs l !! i); cbn; [|done]. by intros [= <- <-].
  - destruct (lp_runs l !! i) as [[]|]; cbn; [|done..]. by intros [= <- <-].
  - destruct (lp_runs l !! i); cbn [mbind option_bind]; [|done]. by intros [? _]%act_on_engine.
  - destruct (lp_runs l !! i); cbn [mbind option_bind]; [|done]. by intros [? _]%act_on_engine.
  - destruct (outside b); [|done]. by intros [? _]%act_on_engine.
Qed.

Lemma run_loop_engine l acts l' taken :
  run_loop l acts = Some (l', taken) → run_engine (lp_engine l) (omap engine_part acts) = Some (lp_engine l', taken).
Proof.
  revert l taken. induction acts as [|a acts IH]; intros l taken; cbn [run_loop omap list_omap]; [by intros [= <- <-]|].
  destruct (do_loop l a) as [[l1 t1]|] eqn:E1; cbn; [|done]. destruct (run_loop l1 acts) as [[l2 t2]|] eqn:E2; cbn; [|done].
  intros [= <- <-]. specialize (IH l1 t2 E2). apply do_loop_engine in E1. destruct (engine_part a) as [b|]; cbn [run_engine omap list_omap].
  - rewrite E1. cbn. by rewrite IH.
  - destruct E1 as [<- ->]. done.
Qed.

(** ** After the loop *)

Definition loop_enqueued (a : loop_act) : option GossipEntry :=
  match a with LOther (AEnqueue t q p) => Some (mkEntry t q p) | _ => None end.

(** The queue never exceeds its capacity. *)
Lemma do_engine_queue g a g' taken :
  do_engine g a = Some (g', taken) → (length (localCh g) ≤ 256)%nat → (length (localCh g') ≤ 256)%nat.
Proof.
  intros Hdo Hle. apply do_engine_frame in Hdo. unfold queue_frame in Hdo. destruct a; try (congruence || naive_solver).
  - destruct Hdo as [[= _ ->] Hlt]. rewrite length_app. cbn. lia.
  - destruct Hdo as (_ & e & Hq). rewrite Hq in Hle. cbn in Hle. lia.
Qed.

Lemma run_engine_queue g acts g' taken :
  run_engine g acts = Some (g', taken) → (length (localCh g) ≤ 256)%nat → (length (localCh g') ≤ 256)%nat.
Proof.
  revert g taken. induction acts as [|a acts IH]; intros g taken; cbn [run_engine]; [by intros [= <- <-]|].
  destruct (do_engine g a) as [[g1 t1]|] eqn:E1; cbn; [|done]. destruct (run_engine g1 acts) as [[g2 t2]|] eqn:E2; cbn; [|done].
  intros [= <- <-] Hle. eapply IH; [exact E2|]. by eapply do_engine_queue.
Qed.

Lemma run_loop_queue l acts l' taken :
  run_loop l acts = Some (l', taken) → (length (localCh (lp_engine l)) ≤ 256)%nat → (length (localCh (lp_engine l')) ≤ 256)%nat.
Proof. intros Hrun. apply run_loop_engine in Hrun. by eapply run_engine_queue. Qed.

Lemma do_loop_queue l a l' taken :
  do_loop l a = Some (l', taken) → (length (localCh (lp_engine l)) ≤ 256)%nat → (length (localCh (lp_engine l')) ≤ 256)%nat.
Proof.
  intros Hdo. apply do_loop_engine in Hdo. destruct (engine_part a); [by eapply do_engine_queue|]. by destruct Hdo as [-> _].
Qed.

(** A step while no loop runs. *)
Lemma do_loop_stopped l a l' taken :
  lp_runs l = [] → a ≠ LRun → do_loop l a = Some (l', taken) →
  lp_runs l' = [] ∧ lp_panic l' = false ∧ localCh (lp_engine l') = localCh (lp_engine l) ++ option_list (loop_enqueued a).
Proof.
  intros Hr Hne Hdo. pose proof (do_loop_engine _ _ _ _ Hdo) as He. unfold do_loop in Hdo. destruct (lp_panic l) eqn:Hp; [done|].
  destruct a as [|i|i|i ev|i|b]; [done|rewrite Hr in Hdo; done..|]. destruct (outside b) eqn:Ho; [|done].
  apply act_on_engine in Hdo as (_ & -> & _ & ->). do 2 (split; [done|]). cbn [engine_part] in He. apply do_engine_frame in He.
  unfold queue_frame in He. destruct b; cbn [loop_enqueued option_list] in *; try done; rewrite ?app_nil_r; naive_solver congruence.
Qed.

Lemma run_loop_stopped l acts l' taken :
  lp_runs l = [] → lp_panic l = false → LRun ∉ acts → run_loop l acts = Some (l', taken) →
  lp_runs l' = [] ∧ lp_panic l' = false ∧ localCh (lp_engine l') = localCh (lp_engine l) ++ omap loop_enqueued acts.
Proof.
  revert l taken. induction acts as [|a acts IH]; intros l taken Hr Hp Hno; cbn [run_loop omap list_omap].
  { intros [= <- <-]. by rewrite app_nil_r. }
  apply not_elem_of_cons in Hno as [Hne Hno].
  destruct (do_loop l a) as [[l1 t1]|] eqn:E1; cbn; [|done]. destruct (run_loop l1 acts) as [[l2 t2]|] eqn:E2; cbn; [|done].
  intros [= <- <-]. destruct (do_loop_stopped _ _ _ _ Hr (not_eq_sym Hne) E1) as (R1 & P1 & L1).
  destruct (IH l1 t2 R1 P1 Hno E2) as (R2 & P2 & L2). do 2 (split; [done|]). rewrite L2, L1, <- app_assoc. by destruct (loop_enqueued a).
Qed.

(** Enqueue blocks on a full queue and only on it. *)
Lemma enqueue_blocks l t q p :
  lp_panic l = false → (length (localCh (lp_engine l)) ≤ 256)%nat →
  do_loop l (LOther (AEnqueue t q p)) = None ↔ length (localCh (lp_engine l)) = 256%nat.
Proof.
  intros Hp Hle. unfold do_loop. rewrite Hp. cbn [outside]. unfold act_on. cbn [do_engine]. unfold Enqueue.
  destruct (Nat.ltb_spec (length (localCh (lp_engine l))) 256); cbn; [|by split; [lia|]]. split; [done|lia].
Qed.

(** A running loop makes room. *)
Lemma local_makes_room l i ended ev :
  lp_panic l = false → lp_runs l !! i = Some ended → localCh (lp_engine l) ≠ [] →
  ∃ l1, do_loop l (LLocal i ev) = Some (l1, []) ∧ lp_panic l1 = false ∧
    localCh (lp_engine l1) = tail (localCh (lp_engine l)).
Proof.
  intros Hp Hi Hne. unfold do_loop. rewrite Hp, Hi. cbn [mbind option_bind]. unfold act_on.
  assert (∃ g', do_engine (lp_engine l) (ALocal ev) = Some (g', [])) as [g' Hg].
  { cbn [do_engine]. unfold run_local. destruct (localCh (lp_engine l)); [done|].
    destruct (handleLocal _ _ _) as [g' out]. by exists g'. }
  pose proof (do_engine_frame _ _ _ _ Hg) as (_ & e' & Hq'). rewrite Hg. cbn [mbind option_bind].
  eexists. split; [reflexivity|]. by rewrite Hq'.
Qed.

(** C33: Enqueue is back-pressured by the loop and without it blocks for ever.  In
    every state an engine reaches that has not panicked the local queue holds at
    most 256 entries, and Enqueue blocks exactly when it holds 256.  While a call
    of Run has not returned, its loop can take the oldest entry of a queue that is
    not empty, after which an Enqueue returns.  When no call of Run is left, then
    for as long as Run is not called again the queue only grows, by what is
    enqueued, in order, up to 256 entries, and from then on every Enqueue
    blocks: nothing but the loop reads the queue and Enqueue does not look at
    [done]. *)
Theorem enqueue_needs_the_loop o cfg acts0 l taken0 t q p
    (Hrun0 : run_loop (newLoop (Engine.New o cfg)) acts0 = Some (l, taken0)) (Hlive : lp_panic l = false) :
  let queue l := localCh (lp_engine l) in
  let Blocks l := do_loop l (LOther (AEnqueue t q p)) = None in
  ((length (queue l) ≤ 256)%nat ∧ (Blocks l ↔ length (queue l) = 256%nat)) ∧
  (∀ i ended ev, lp_runs l !! i = Some ended → queue l ≠ [] →
     ∃ l1, do_loop l (LLocal i ev) = Some (l1, []) ∧ queue l1 = tail (queue l) ∧ ¬ Blocks l1) ∧
  (lp_runs l = [] → ∀ acts l' taken, LRun ∉ acts → run_loop l acts = Some (l', taken) →
     queue l' = queue l ++ omap loop_enqueued acts ∧ (length (queue l') ≤ 256)%nat ∧
     (Blocks l' ↔ length (queue l') = 256%nat)).
Proof.
  intros queue Blocks. assert (length (queue l) ≤ 256)%nat as Hle by (eapply run_loop_queue; [exact Hrun0|cbn; lia]).
  split; [by split; [|apply enqueue_blocks]|]. split.
  - intros i ended ev Hi Hne. destruct (local_makes_room l i ended ev Hlive Hi Hne) as (l1 & Hdo & Hp & Hq).
    exists l1. split; [done|]. split; [done|]. unfold Blocks.
    assert (length (queue l1) < 256)%nat by (unfold queue in *; rewrite Hq; destruct (localCh (lp_engine l)); [done|cbn in *; lia]).
    unfold queue in *. rewrite enqueue_blocks by (done || lia). lia.
  - intros Hr acts l' taken Hno Hrun. destruct (run_loop_stopped _ _ _ _ Hr Hlive Hno Hrun) as (_ & Hp & Hq).
    assert (length (queue l') ≤ 256)%nat by (by eapply run_loop_queue). by split_and!; [..|apply enqueue_blocks].
Qed.

(** A step moves [done] and the panic only by a return. *)
Lemma do_loop_done l a l' taken :
  do_loop l a = Some (l', taken) →
  lp_panic l = false ∧
  match a with
  | LReturn _ => lp_done l' = true ∧ lp_panic l' = lp_done l
  | _ => lp_done l' = lp_done l ∧ lp_panic l' = false
  end.
Proof.
  unfold do_loop. destruct (lp_panic l) eqn:Hp; [done|]. intros Hdo. split; [done|]. destruct a as [|i|i|i ev|i|b].
  - by injection Hdo as <- <-.
  - destruct (lp_runs l !! i); cbn in Hdo; [|done]. by injection Hdo as <- <-.
  - destruct (lp_runs l !! i) as [[]|]; cbn in Hdo; [|done..]. by injection Hdo as <- <-.
  - destruct (lp_runs l !! i); cbn [mbind option_bind] in Hdo; [|done]. apply act_on_engine in Hdo. intuition congruence.
  - destruct (lp_runs l !! i); cbn [mbind option_bind] in Hdo; [|done]. apply act_on_engine in Hdo. intuition congruence.
  - destruct (outside b); [|done]. apply act_on_engine in Hdo. intuition congruence.
Qed.

(** How many loops have returned. *)
Fixpoint returned (acts : list loop_act) : nat :=
  match acts with [] => 0 | LReturn _ :: acts' => S (returned acts') | _ :: acts' => returned acts' end.

Lemma run_loop_returned l acts l' taken :
  run_loop l acts = Some (l', taken) → lp_panic l = false →
  let n := (returned acts + if lp_done l then 1 else 0)%nat in
  (n ≤ 2)%nat ∧ lp_done l' = (1 <=? n)%nat ∧ lp_panic l' = (2 <=? n)%nat.
Proof.
  revert l taken. induction acts as [|a acts IH]; intros l taken; cbn [run_loop returned].
  { intros [= <- <-] Hp. rewrite Hp. destruct (lp_done l); cbv zeta; split_and!; [lia|done|done|lia|done|done]. }
  destruct (do_loop l a) as [[l1 t1]|] eqn:E1; cbn; [|done]. destruct (run_loop l1 acts) as [[l2 t2]|] eqn:E2; cbn; [|done].
  intros [= <- <-] Hp. apply do_loop_done in E1 as [_ E1]. specialize (IH l1 t2 E2).
  destruct a; try (destruct E1 as [Hd Hp1]; rewrite Hd in IH; by apply IH).
  destruct E1 as [Hd Hp1]. rewrite Hd in IH. destruct (lp_done l).
  - destruct acts as [|a' acts]; cbn [run_loop] in E2; [injection E2 as <- <-; by rewrite Hd, Hp1|].
    unfold do_loop in E2. by rewrite Hp1 in E2.
  - specialize (IH Hp1). rewrite Nat.add_1_r in IH. by rewrite Nat.add_0_r.
Qed.

(** The loop's life.  Whatever calls of Run, ends of contexts and other actions
    interleave, what happens to the engine and what its consumer takes is a run
    of the engine; [done] is closed exactly when a call of Run has returned, and
    a second one that returns panics: the engine's Run works once. *)
Theorem loop_runs_once g acts l' taken (Hrun : run_loop (newLoop g) acts = Some (l', taken)) :
  run_engine g (omap engine_part acts) = Some (lp_engine l', taken) ∧
  (returned acts ≤ 2)%nat ∧ lp_done l' = (1 <=? returned acts)%nat ∧ lp_panic l' = (2 <=? returned acts)%nat.
Proof.
  split; [by apply (run_loop_engine (newLoop g))|].
  pose proof (run_loop_returned _ _ _ _ Hrun eq_refl) as H. cbn in H. by rewrite Nat.add_0_r in H.
Qed.
End Loop.

(** ** The overlay's summary *)

(** [%.0f] of a duration in milliseconds: the nearest integer, halves to even,
    which is what the division of two floats gives from 0 to 2^53 ns. *)
Definition round_ms (rtt : Z) : Z :=
  let q := rtt / 10 ^ 6 in
  let r := rtt mod 10 ^ 6 in
  if (r <? 500000) || (r =? 500000) && Z.even q then q else q + 1.

Definition summary_part (class : string) (p : OverlayPeer) : string :=
  op_NodeID p +:+ "(" +:+ class +:+ "," +:+ Itoa (round_ms (op_RTT p)) +:+ "ms)".

Definition Summary (o : Overlay) : string :=
  let parts := (summary_part "eager" <$> EagerPeers o) ++ (summary_part "lazy" <$> LazyPeers o) in
  match parts with
  | [] => "overlay: no peers"
  | _ => "overlay: eager=" +:+ Itoa (Z.of_nat (length (EagerPeers o))) +:+ " lazy=" +:+ Itoa (Z.of_nat (length (LazyPeers o)))
           +:+ " [" +:+ String.concat " " parts +:+ "]"
  end.

(** ** Witnesses *)

(** Two calls of Run, the first of which returns, then the second. *)
Definition loop_acts : list loop_act :=
  [LRun; LOther (AEnqueue 0 1 [x68]); LLocal 0 quiet_env; LRun; LCancel 0; LReturn 0; LTick 0; LCancel 0; LReturn 0].

Lemma loop_runs_once_witness :
  match run_loop (HZ := stored_zstd) (newLoop sample_new) loop_acts with
  | Some (l, _) => lp_done l = true ∧ lp_panic l = true ∧ localCh (lp_engine l) = []
  | None => False
  end.
Proof.
  pose proof (loop_runs_once (HZ := stored_zstd) sample_new loop_acts) as H.
  destruct (run_loop (HZ := stored_zstd) (newLoop sample_new) loop_acts) as [[l taken]|] eqn:E.
  - destruct (H l taken eq_refl) as (_ & _ & H3 & H4). split; [rewrite H3; reflexivity|]. split; [rewrite H4; reflexivity|].
    clear H H3 H4. vm_compute in E. injection E as <- _. reflexivity.
  - vm_compute in E. discriminate.
Defined.

(** Run returns, then 256 entries are enqueued and a mark is primed. *)
Definition stopped_acts : list loop_act := [LRun; LCancel 0; LReturn 0].
Definition fill_acts : list loop_act := replicate 256 (LOther (AEnqueue 0 1 [])) ++ [LOther (AInitial 0 3)].

Definition stopped_loop : loop :=
  default (newLoop sample_new) (fst <$> run_loop (HZ := stored_zstd) (newLoop sample_new) stopped_acts).
Definition full_loop : loop := default stopped_loop (fst <$> run_loop (HZ := stored_zstd) stopped_loop fill_acts).

Lemma enqueue_needs_the_loop_witness :
  lp_done full_loop = true ∧ do_loop (HZ := stored_zstd) full_loop (LOther (AEnqueue 0 2 [])) = None.
Proof.
  split; [vm_compute; reflexivity|].
  destruct (enqueue_needs_the_loop (HZ := stored_zstd) two_peers (mkEngineConfig 0 0 0 0) stopped_acts stopped_loop [] 0 2 [])
    as (_ & _ & H).
  - vm_compute. reflexivity.
  - vm_compute. reflexivity.
  - apply (H eq_refl fill_acts full_loop []).
    + unfold fill_acts. rewrite not_elem_of_app. split.
      * intros Hin. apply elem_of_replicate in Hin as [Hin _]. discriminate.
      * intros Hin. apply list_elem_of_singleton in Hin. discriminate.
    + vm_compute. reflexivity.
    + vm_compute. reflexivity.
Defined.

(** What the summaries look like. *)
Example StatsString_new :
  StatsString sample_new = "eager(recv=0 dup=0 send=0 fail=0 0KB) lazy(recv=0 dup=0 send=0 fail=0 0KB) local=0 deliverDrop=0 recv=0KB"%string.
Proof. vm_compute. reflexivity. Qed.

Example round_ms_halves : round_ms <$> [1499999; 1500000; 2500000; 2500001] = [1; 2; 2; 3].
Proof. vm_compute. reflexivity. Qed.
