(* ===== verification/Transport.v ===== *)
(** * Application transport (src/transport/transport.go, src/transport/dispatch.go)

    Two parts.  The handler registries and the dispatch of what arrives by its
    type byte: handlers are values of a type [H], and a dispatch says which
    handler is called with what.  The connection pool: connections are numbers;
    [getOrDial] is a state machine with one step per access to the shared map or
    to the state of a connection, so that several calls, inbound connections,
    failures and the shutdown interleave between any two of them.  Dialling and QUIC itself are outside;
    a step takes their outcome. *)

From S2P Require Import Prelude Stream EagerWire Repair Engine.

(** ** Handlers *)

Record Handlers (H : Type) := mkHandlers {
  onEagerGossip : option H;
  onLazyBatch : option H;
  onRepair : option H;
  bidiHandlers : gmap byte H;
  uniHandlers : gmap byte H;
  datagramHandlers : gmap byte H;
}.
Arguments mkHandlers {H}.
Arguments onEagerGossip {H}.
Arguments onLazyBatch {H}.
Arguments onRepair {H}.
Arguments bidiHandlers {H}.
Arguments uniHandlers {H}.
Arguments datagramHandlers {H}.

Section Dispatch.
Context {H : Type}.

Definition noHandlers : Handlers H := mkHandlers None None None ∅ ∅ ∅.

Definition SetHandlers (eager lazy repair : H) (t : Handlers H) : Handlers H :=
  mkHandlers (Some eager) (Some lazy) (Some repair) (bidiHandlers t) (uniHandlers t) (datagramHandlers t).

Definition RegisterBidiHandler (typeByte : byte) (h : H) (t : Handlers H) : Handlers H :=
  mkHandlers (onEagerGossip t) (onLazyBatch t) (onRepair t)
    (<[typeByte := h]> (bidiHandlers t)) (uniHandlers t) (datagramHandlers t).

Definition RegisterUniHandler (typeByte : byte) (h : H) (t : Handlers H) : Handlers H :=
  mkHandlers (onEagerGossip t) (onLazyBatch t) (onRepair t)
    (bidiHandlers t) (<[typeByte := h]> (uniHandlers t)) (datagramHandlers t).

Definition RegisterDatagramHandler (typeByte : byte) (h : H) (t : Handlers H) : Handlers H :=
  mkHandlers (onEagerGossip t) (onLazyBatch t) (onRepair t)
    (bidiHandlers t) (uniHandlers t) (<[typeByte := h]> (datagramHandlers t)).

(** The handler in force, read under the lock. *)
Definition getEagerGossip (t : Handlers H) : option H := onEagerGossip t.

Definition getLazyBatch (t : Handlers H) : option H := onLazyBatch t.

Definition getRepair (t : Handlers H) : option H := onRepair t.

(** ** Dispatch *)

(** One iteration of [receiveDatagrams]: the handler called, and its data. *)
Definition receiveDatagram (t : Handlers H) (msg : bytes) : option (H * bytes) :=
  match msg with
  | [] => None
  | b :: rest =>
      if decide (b = MsgTypeEagerGossip)
      then h ← getEagerGossip t; Some (h, rest)
      else h ← datagramHandlers t !! b; Some (h, rest)
  end.

(** What becomes of a bidirectional stream: handed over, read whole for a
    handler and closed, or closed. *)
Inductive bidi_outcome :=
| BidiStream (h : H) (r : reader)
| BidiData (h : H) (data : bytes)
| BidiClosed.

Definition dispatchBidiStream (t : Handlers H) (r : reader) : bidi_outcome :=
  match ReadFull r 1 with
  | Ok ([b], r1) =>
      if decide (b = StreamTypeRepair) then
        match getRepair t with Some h => BidiStream h r1 | None => BidiClosed end
      else if decide (b = MsgTypeEagerGossip) then
        match getEagerGossip t with
        | Some h => match ReadAll r1 with Ok data => BidiData h data | Err _ => BidiClosed end
        | None => BidiClosed
        end
      else match bidiHandlers t !! b with Some h => BidiStream h r1 | None => BidiClosed end
  | _ => BidiClosed
  end.

Definition dispatchUniStream (t : Handlers H) (r : reader) : option (H * reader) :=
  match ReadFull r 1 with
  | Ok ([b], r1) =>
      if decide (b = StreamTypeLazyBatch)
      then h ← getLazyBatch t; Some (h, r1)
      else h ← uniHandlers t !! b; Some (h, r1)
  | _ => None
  end.
End Dispatch.
Arguments bidi_outcome H : clear implicits.

(** ** The connection pool *)

Record Pool := mkPool {
  appConns : gmap string nat;
  dead : gset nat;           (** connections whose context has ended *)
  loops : list nat;          (** connections whose accept loops were started *)
  shut : bool;               (** [closed] *)
  gone : bool;               (** quic-go's transport is closed *)
  dialled : gmap nat string; (** ghost: the address of every connection made *)
}.

Definition newPool : Pool := mkPool ∅ ∅ [] false false ∅.

Definition set_conns (m : gmap string nat) (p : Pool) : Pool := mkPool m (dead p) (loops p) (shut p) (gone p) (dialled p).

(** The [Delete] and [Store] of the map. *)
Definition remove (addr : string) (p : Pool) : Pool := set_conns (delete addr (appConns p)) p.

Definition store (addr : string) (c : nat) (p : Pool) : Pool := set_conns (<[addr := c]> (appConns p)) p.

(** The context of [c] ends: [CloseWithError] here, or a failure outside. *)
Definition kill (c : nat) (p : Pool) : Pool := mkPool (appConns p) ({[c]} ∪ dead p) (loops p) (shut p) (gone p) (dialled p).

Definition startAcceptLoop (c : nat) (p : Pool) : Pool :=
  if shut p then p else mkPool (appConns p) (dead p) (loops p ++ [c]) (shut p) (gone p) (dialled p).

(** A connection comes to life for [addr]. *)
Definition connect (c : nat) (addr : string) (p : Pool) : Pool :=
  mkPool (appConns p) (dead p) (loops p) (shut p) (gone p) (<[c := addr]> (dialled p)).

(** [GetConnection], undisturbed. *)
Definition GetConnection (p : Pool) (addr : string) : option nat * Pool :=
  match appConns p !! addr with
  | None => (None, p)
  | Some c => if decide (c ∈ dead p) then (None, remove addr p) else (Some c, p)
  end.

(** Where a call of [getOrDial] stands: before which access. *)
Inductive dial_pc :=
| DLoad                      (** GetConnection: [Load] *)
| DCheck (c : nat)           (** [conn.Context().Err()] *)
| DDelete                    (** [Delete] after a dead connection *)
| DDial                      (** resolve and dial *)
| DStore (c : nat)           (** [LoadOrStore] *)
| DExisting (c e : nat)      (** [existing.Context().Err()] *)
| DReplace (c : nat)         (** [Store] *)
| DStart (c : nat)           (** [startAcceptLoop] *)
| DReturn (r : option nat).

(** One access.  [dial] is the outcome of resolving and dialling. *)
Definition dial_step (addr : string) (dial : option nat) (p : Pool) (pc : dial_pc) : Pool * dial_pc :=
  match pc with
  | DLoad =>
      match appConns p !! addr with
      | None => (p, DDial)
      | Some c => (p, DCheck c)
      end
  | DCheck c => if decide (c ∈ dead p) then (p, DDelete) else (p, DReturn (Some c))
  | DDelete => (remove addr p, DDial)
  | DDial =>
      match dial with
      | None => (p, DReturn None)
      | Some c => (connect c addr p, DStore c)
      end
  | DStore c =>
      match appConns p !! addr with
      | Some e => (p, DExisting c e)
      | None => (store addr c p, DStart c)
      end
  | DExisting c e => if decide (e ∈ dead p) then (p, DReplace c) else (kill c p, DReturn (Some e))
  | DReplace c => (store addr c p, DStart c)
  | DStart c => (startAcceptLoop c p, DReturn (Some c))
  | DReturn r => (p, DReturn r)
  end.

Fixpoint dial_steps (n : nat) (addr : string) (dial : option nat) (p : Pool) (pc : dial_pc) : Pool * dial_pc :=
  match n with
  | O => (p, pc)
  | S n' => let '(p', pc') := dial_step addr dial p pc in dial_steps n' addr dial p' pc'
  end.

(** An undisturbed call makes at most six accesses. *)
Definition getOrDial (p : Pool) (addr : string) (dial : option nat) : Pool * dial_pc :=
  dial_steps 6 addr dial p DLoad.

(** [CompareAndDelete]. *)
Definition remove_if (addr : string) (c : nat) (p : Pool) : Pool :=
  if decide (appConns p !! addr = Some c) then remove addr p else p.

(** A failed open evicts the connection it used. *)
Definition evict (addr : string) (c : nat) (p : Pool) : Pool := kill c (remove_if addr c p).

(** [OpenStream] and [OpenUniStream]: [opens] says whether the stream opens. *)
Definition OpenStream (p : Pool) (addr : string) (dial : option nat) (opens : nat → bool) : Pool * option nat :=
  match getOrDial p addr dial with
  | (p1, DReturn (Some c)) => if opens c then (p1, Some c) else (evict addr c p1, None)
  | (p1, _) => (p1, None)
  end.

(** [SendDatagram]: the connection the payload is given to. *)
Definition SendDatagram (p : Pool) (addr : string) (dial : option nat) : Pool * option nat :=
  match getOrDial p addr dial with
  | (p1, DReturn (Some c)) => (p1, Some c)
  | (p1, _) => (p1, None)
  end.

(** [AddConnection], and an accepted connection in [acceptLoop]: the last two
    accesses of a call that has made [c]. *)
Definition AddConnection (addr : string) (c : nat) (p : Pool) : Pool :=
  startAcceptLoop c (store addr c (connect c addr p)).

Definition set_closed (p : Pool) : Pool := mkPool (appConns p) (dead p) (loops p) true (gone p) (dialled p).

(** quic-go's Close of the transport ends all its connections, and no more can be
    dialled or accepted on it. *)
Definition close_transport (p : Pool) : Pool :=
  mkPool (appConns p) (dom (dialled p) ∪ dead p) (loops p) (shut p) true (dialled p).

(** [Shutdown], undisturbed: the [Range] closes and deletes every entry, then the
    transport is closed. *)
Definition Shutdown (p : Pool) : Pool :=
  close_transport (foldl (fun p kv => remove kv.1 (kill kv.2 p)) (set_closed p) (map_to_list (appConns p))).

(** Calls in progress next to the pool. *)
Record pool_state := mkPS { ps_pool : Pool; ps_calls : list (string * dial_pc) }.

(** [c] can be the next connection. *)
Definition unused (st : pool_state) (c : nat) : Prop := gone (ps_pool st) = false ∧ dialled (ps_pool st) !! c = None.

(** The accesses of calls, of inbound connections, of failed opens and of the
    shutdown, in any order.  A connection may end at any time. *)
Inductive pool_move : pool_state → pool_state → Prop :=
| pm_call st addr : pool_move st (mkPS (ps_pool st) (ps_calls st ++ [(addr, DLoad)]))
| pm_step st i addr pc dial p' pc' :
    ps_calls st !! i = Some (addr, pc) →
    (∀ c, dial = Some c → unused st c) →
    dial_step addr dial (ps_pool st) pc = (p', pc') →
    pool_move st (mkPS p' (<[i := (addr, pc')]> (ps_calls st)))
| pm_add st addr c :
    unused st c → pool_move st (mkPS (connect c addr (ps_pool st)) (ps_calls st ++ [(addr, DReplace c)]))
| pm_die st c : pool_move st (mkPS (kill c (ps_pool st)) (ps_calls st))
| pm_evict st addr c :
    (addr, DReturn (Some c)) ∈ ps_calls st →
    pool_move st (mkPS (remove_if addr c (ps_pool st)) (ps_calls st))
| pm_close st : pool_move st (mkPS (set_closed (ps_pool st)) (ps_calls st))
| pm_range st addr :
    shut (ps_pool st) = true → pool_move st (mkPS (remove addr (ps_pool st)) (ps_calls st))
| pm_transport st :
    shut (ps_pool st) = true → pool_move st (mkPS (close_transport (ps_pool st)) (ps_calls st)).

(** The undisturbed [Shutdown] is such a sequence. *)
Lemma Shutdown_moves p calls : rtc pool_move (mkPS p calls) (mkPS (Shutdown p) calls).
Proof.
  eapply rtc_l; [apply pm_close|]. unfold Shutdown. cbn [ps_pool ps_calls].
  assert (shut (set_closed p) = true) as Hs by done. revert Hs. generalize (set_closed p) as q.
  induction (map_to_list (appConns p)) as [|[a c] kvs IH]; intros q Hs; cbn [foldl].
  - apply rtc_once. by apply (pm_transport (mkPS q calls)).
  - eapply rtc_l; [apply (pm_die _ c)|]. eapply rtc_l; [by apply (pm_range _ a)|]. by apply IH.
Qed.

(** So is the undisturbed [AddConnection]. *)
Lemma AddConnection_moves p calls addr c :
  gone p = false → dialled p !! c = None →
  rtc pool_move (mkPS p calls) (mkPS (AddConnection addr c p) (calls ++ [(addr, DReturn (Some c))])).
Proof.
  intros Hg Hc. assert (∀ x y : string * dial_pc, <[length calls := y]> (calls ++ [x]) = calls ++ [y]) as Hins.
  { intros x y. replace (length calls) with (length calls + 0)%nat by lia. by rewrite insert_app_r. }
  eapply rtc_l; [by apply (pm_add _ addr c)|]. cbn [ps_pool ps_calls].
  eapply rtc_l; [apply (pm_step _ (length calls) addr (DReplace c) None); [by apply list_lookup_middle|done|reflexivity]|].
  cbn [ps_pool ps_calls]. rewrite Hins.
  eapply rtc_l; [apply (pm_step _ (length calls) addr (DStart c) None); [by apply list_lookup_middle|done|reflexivity]|].
  cbn [ps_pool ps_calls]. by rewrite Hins.
Qed.

(** ** The pool's invariant *)

(** The connection only this call knows, and the one it found in the pool. *)
Definition holds (pc : dial_pc) : option nat :=
  match pc with DStore c | DExisting c _ | DReplace c | DStart c => Some c | _ => None end.

Definition found (pc : dial_pc) : option nat :=
  match pc with DCheck c | DExisting _ c => Some c | DReturn r => r | _ => None end.

Record pool_inv (st : pool_state) : Prop := {
  pi_conns : ∀ addr c, appConns (ps_pool st) !! addr = Some c → dialled (ps_pool st) !! c = Some addr;
  pi_held : ∀ i addr pc c, ps_calls st !! i = Some (addr, pc) → holds pc = Some c →
    dialled (ps_pool st) !! c = Some addr ∧ (c ∉ loops (ps_pool st)) ∧
    ∀ j addr' pc', ps_calls st !! j = Some (addr', pc') → holds pc' = Some c → j = i;
  pi_seen : ∀ i addr pc c, ps_calls st !! i = Some (addr, pc) → found pc = Some c →
    dialled (ps_pool st) !! c = Some addr;
  pi_nodup : NoDup (loops (ps_pool st));
  pi_loops : ∀ c, c ∈ loops (ps_pool st) → is_Some (dialled (ps_pool st) !! c);
  pi_leak : ∀ c, is_Some (dialled (ps_pool st) !! c) →
    c ∈ loops (ps_pool st) ∨ c ∈ dead (ps_pool st) ∨ shut (ps_pool st) = true ∨
    ∃ i addr pc, ps_calls st !! i = Some (addr, pc) ∧ holds pc = Some c;
}.

(** The pool's map changes to other rightful entries, connections end, or the
    transport closes. *)
Lemma inv_pool p p' calls :
  pool_inv (mkPS p calls) → (∀ a c, appConns p' !! a = Some c → dialled p !! c = Some a) →
  dead p ⊆ dead p' → loops p' = loops p →
  (shut p = true → shut p' = true) → dialled p' = dialled p → pool_inv (mkPS p' calls).
Proof.
  intros [H1 H2 H3 H4 H5 H6] Hc Hd Hl Hs Hi. split; cbn in *; rewrite ?Hl, ?Hi; try done.
  intros c [Hin|[Hin|[Hin|Hin]]]%H6; auto.
Qed.

(** A call moves on, holding what it held. *)
Lemma inv_call p calls i addr pc pc' :
  pool_inv (mkPS p calls) → calls !! i = Some (addr, pc) → holds pc' = holds pc →
  (∀ c, found pc' = Some c → dialled p !! c = Some addr) →
  pool_inv (mkPS p (<[i := (addr, pc')]> calls)).
Proof.
  intros [H1 H2 H3 H4 H5 H6] Hi Hh Hseen. cbn in *.
  assert (∀ j a q c, <[i := (addr, pc')]> calls !! j = Some (a, q) → holds q = Some c →
    ∃ q', calls !! j = Some (a, q') ∧ holds q' = Some c) as Hback.
  { intros j a q c [(<- & [= <- <-] & _)|[_ Hj]]%list_lookup_insert_Some Hq; [|eauto]. exists pc. by rewrite <- Hh. }
  split; cbn; try done.
  - intros j a q c Hj Hq. destruct (Hback _ _ _ _ Hj Hq) as (q0 & Hj0 & Hq0).
    destruct (H2 _ _ _ _ Hj0 Hq0) as (? & ? & Huniq). split_and!; [done..|].
    intros j' a' q' Hj' Hq'. destruct (Hback _ _ _ _ Hj' Hq') as (q1 & Hj1 & Hq1). by eapply Huniq.
  - intros j a q c [(_ & [= <- <-] & _)|[_ Hj]]%list_lookup_insert_Some; [by apply Hseen|by eapply H3].
  - intros c [Hin|[Hin|[Hin|(j & a & q & Hj & Hq)]]]%H6; auto. right; right; right.
    destruct (decide (j = i)) as [->|Hne].
    + rewrite Hi in Hj. injection Hj as <- <-. exists i, addr, pc'. rewrite Hh. split; [|done].
      apply list_lookup_insert_eq. by eapply lookup_lt_Some.
    + exists j, a, q. by rewrite list_lookup_insert_ne.
Qed.

(** A new connection is only known to the call that made it. *)
Lemma inv_connect p calls i addr pc c :
  pool_inv (mkPS p calls) → calls !! i = Some (addr, DDial) → dialled p !! c = None →
  holds pc = Some c → found pc = None →
  pool_inv (mkPS (connect c addr p) (<[i := (addr, pc)]> calls)).
Proof.
  intros [H1 H2 H3 H4 H5 H6] Hi Hnew Hpc Hs. cbn in *.
  assert (∀ c' a, dialled p !! c' = Some a → <[c := addr]> (dialled p) !! c' = Some a) as Hold.
  { intros c' a Hc'. rewrite lookup_insert_ne; [done|]. intros <-. congruence. }
  assert (∀ j a q, calls !! j = Some (a, q) → holds q ≠ Some c) as Hno.
  { intros j a q Hj Hq. destruct (H2 _ _ _ _ Hj Hq) as [Hd _]. congruence. }
  split; cbn.
  - intros a c' Hc'. by apply Hold, H1.
  - intros j a q c' [(<- & [= <- <-] & _)|[Hne Hj]]%list_lookup_insert_Some Hq.
    + rewrite Hpc in Hq. injection Hq as <-. split_and!; [apply lookup_insert_eq| |].
      * intros Hin%H5. rewrite Hnew in Hin. by destruct Hin.
      * intros j' a' q' [(<- & _)|[_ Hj']]%list_lookup_insert_Some Hq'; [done|]. by destruct (Hno _ _ _ Hj').
    + destruct (H2 _ _ _ _ Hj Hq) as (? & ? & Huniq). split_and!; [by apply Hold|done|].
      intros j' a' q' [(<- & [= <- <-] & _)|[_ Hj']]%list_lookup_insert_Some Hq'; [|by eapply Huniq].
      rewrite Hpc in Hq'. injection Hq' as <-. by destruct (Hno _ _ _ Hj).
  - intros j a q c' [(_ & [= <- <-] & _)|[_ Hj]]%list_lookup_insert_Some Hq; [congruence|]. by eapply Hold, H3.
  - done.
  - intros c' Hin%H5. destruct Hin as [a Ha]. exists a. by apply Hold.
  - intros c' Hin. destruct (decide (c' = c)) as [->|Hne].
    + right; right; right. exists i, addr, pc. split; [|done]. apply list_lookup_insert_eq. by eapply lookup_lt_Some.
    + rewrite lookup_insert_ne in Hin by done. destruct (H6 _ Hin) as [?|[?|[?|(j & a & q & Hj & Hq)]]]; auto.
      right; right; right. exists j, a, q. rewrite list_lookup_insert_ne; [done|]. intros <-.
      rewrite Hi in Hj. injection Hj as <- <-. done.
Qed.

(** The call lets go of [c]: its loops are started, or it is closed. *)
Lemma inv_release p p' calls i addr pc c r :
  pool_inv (mkPS p calls) → calls !! i = Some (addr, pc) → holds pc = Some c →
  dialled p' = dialled p → dialled p !! r = Some addr → appConns p' = appConns p →
  dead p ⊆ dead p' → shut p' = shut p →
  (loops p' = loops p ∧ (c ∈ dead p' ∨ shut p' = true) ∨ loops p' = loops p ++ [c]) →
  pool_inv (mkPS p' (<[i := (addr, DReturn (Some r))]> calls)).
Proof.
  intros [H1 H2 H3 H4 H5 H6] Hi Hpc Hdi Hr Hconns Hdead Hshut Hloops.
  destruct (H2 _ _ _ _ Hi Hpc) as (Hc & Hnl & Huniq). cbn in *.
  assert (∀ c', c' ∈ loops p' → c' ∈ loops p ∨ c' = c) as Hin'.
  { destruct Hloops as [[-> _]| -> ]; intros c'; [by left|]. rewrite elem_of_app, list_elem_of_singleton. tauto. }
  assert (∀ c', c' ∈ loops p → c' ∈ loops p') as Hsub.
  { destruct Hloops as [[-> _]| -> ]; intros c'; [done|]. rewrite elem_of_app. tauto. }
  split; cbn; rewrite ?Hdi, ?Hconns; try done.
  - intros j a q c' [(_ & [= <- <-] & _)|[Hne Hj]]%list_lookup_insert_Some Hq; [done|].
    destruct (H2 _ _ _ _ Hj Hq) as (Hd & Hn & Hu). split_and!; [done| |].
    + intros [?| ->]%Hin'; [done|]. apply Hne. symmetry. by eapply Huniq.
    + intros j' a' q' [(_ & [= <- <-] & _)|[_ Hj']]%list_lookup_insert_Some Hq'; [done|by eapply Hu].
  - intros j a q c' [(_ & [= <- <-] & _)|[_ Hj]]%list_lookup_insert_Some; [by intros [= <-]|by eapply H3].
  - destruct Hloops as [[-> _]| -> ]; [done|]. apply NoDup_app. split_and!; [done| |apply NoDup_singleton].
    intros c' Hc' ->%list_elem_of_singleton. done.
  - intros c' [?%H5| ->]%Hin'; [done|by eexists].
  - intros c' Hin. destruct (H6 _ Hin) as [?|[?|[?|(j & a & q & Hj & Hq)]]]; [auto|auto|rewrite Hshut; auto|].
    destruct (decide (j = i)) as [->|Hne].
    + rewrite Hi in Hj. injection Hj as <- <-. rewrite Hpc in Hq. injection Hq as <-.
      destruct Hloops as [[_ [?|?]]|Hl]; [auto|auto|]. left. rewrite Hl. set_solver.
    + right; right; right. exists j, a, q. by rewrite list_lookup_insert_ne.
Qed.

Lemma inv_store p calls addr c :
  pool_inv (mkPS p calls) → dialled p !! c = Some addr → pool_inv (mkPS (store addr c p) calls).
Proof.
  intros Hinv Hc. eapply inv_pool; [exact Hinv| |done..].
  intros a c'. cbn. intros [[<- <-]|[_ Hac]]%lookup_insert_Some; [done|by apply (pi_conns _ Hinv)].
Qed.

Lemma inv_remove p calls addr : pool_inv (mkPS p calls) → pool_inv (mkPS (remove addr p) calls).
Proof.
  intros Hinv. eapply inv_pool; [exact Hinv| |done..].
  intros a c'. cbn. intros [_ Hac]%lookup_delete_Some. by apply (pi_conns _ Hinv).
Qed.

Lemma inv_step st i addr pc dial p' pc' :
  pool_inv st → ps_calls st !! i = Some (addr, pc) → (∀ c, dial = Some c → unused st c) →
  dial_step addr dial (ps_pool st) pc = (p', pc') →
  pool_inv (mkPS p' (<[i := (addr, pc')]> (ps_calls st))).
Proof.
  destruct st as [p calls]. cbn [ps_pool ps_calls]. intros Hinv Hi Hun Hstep.
  assert (∀ c, found pc = Some c → dialled p !! c = Some addr) as Hseen by (intros c0; by apply (pi_seen _ Hinv i)).
  destruct pc as [|c| | |c|c e|c|c|r]; cbn [dial_step] in Hstep.
  - destruct (appConns p !! addr) as [c|] eqn:E; injection Hstep as <- <-; (eapply inv_call; [done|exact Hi|done|]); [|done].
    intros c' [= <-]. by apply (pi_conns _ Hinv).
  - case_decide; injection Hstep as <- <-; (eapply inv_call; [done|exact Hi|done|]); [done|]. intros c' [= <-]. by apply Hseen.
  - injection Hstep as <- <-. eapply inv_call; [by apply inv_remove|exact Hi|done..].
  - destruct dial as [c|]; injection Hstep as <- <-; [|by eapply inv_call].
    eapply inv_connect; [done|exact Hi|by apply (Hun c)|done..].
  - destruct (pi_held _ Hinv _ _ _ c Hi eq_refl) as (Hc & _).
    destruct (appConns p !! addr) as [e|] eqn:E; injection Hstep as <- <-.
    + eapply inv_call; [done|exact Hi|done|]. intros c' [= <-]. by apply (pi_conns _ Hinv).
    + eapply inv_call; [by apply inv_store|exact Hi|done..].
  - case_decide; injection Hstep as <- <-; [by eapply inv_call|].
    eapply (inv_release p (kill c p) calls i addr _ c e); [done|exact Hi|done|done|by apply Hseen|done|cbn; set_solver|done|].
    left. split; [done|]. left. cbn. set_solver.
  - destruct (pi_held _ Hinv _ _ _ c Hi eq_refl) as (Hc & _). injection Hstep as <- <-.
    eapply inv_call; [by apply inv_store|exact Hi|done..].
  - destruct (pi_held _ Hinv _ _ _ c Hi eq_refl) as (Hc & _). injection Hstep as <- <-.
    eapply (inv_release p _ calls i addr _ c c); [done|exact Hi|done|..|]; unfold startAcceptLoop; destruct (shut p) eqn:E; cbn; auto.
  - injection Hstep as <- <-. by eapply inv_call.
Qed.

(** A call begins. *)
Lemma inv_append p calls addr pc :
  pool_inv (mkPS p calls) → holds pc = None → found pc = None → pool_inv (mkPS p (calls ++ [(addr, pc)])).
Proof.
  intros [H1 H2 H3 H4 H5 H6] Hs Hr.
  assert (∀ j a q, (calls ++ [(addr, pc)]) !! j = Some (a, q) → calls !! j = Some (a, q) ∨ q = pc) as Happ.
  { intros j a q [Hj|[_ Hj]]%lookup_app_Some; [by left|]. apply list_lookup_singleton_Some in Hj as [_ [= _ <-]]. by right. }
  split; cbn in *; try done.
  - intros j a q c' [Hj| ->]%Happ Hq; [|congruence].
    destruct (H2 _ _ _ _ Hj Hq) as (? & ? & Hu). split_and!; [done..|].
    intros j' a' q' [Hj'| ->]%Happ Hq'; [by eapply Hu|congruence].
  - intros j a q c' [Hj| ->]%Happ Hq; [by eapply H3|congruence].
  - intros c' [?|[?|[?|(j & a & q & Hj & Hq)]]]%H6; auto. right; right; right. exists j, a, q.
    split; [by apply lookup_app_l_Some|done].
Qed.

Lemma inv_add p calls addr c :
  pool_inv (mkPS p calls) → dialled p !! c = None →
  pool_inv (mkPS (connect c addr p) (calls ++ [(addr, DReplace c)])).
Proof.
  intros Hinv Hun.
  replace (calls ++ [(addr, DReplace c)]) with (<[length calls := (addr, DReplace c)]> (calls ++ [(addr, DDial)])).
  - apply inv_connect; [by apply inv_append|by apply list_lookup_middle|done..].
  - replace (length calls) with (length calls + 0)%nat by lia. by rewrite insert_app_r.
Qed.

Lemma pool_move_inv st st' : pool_inv st → pool_move st st' → pool_inv st'.
Proof.
  intros Hinv Hmove.
  destruct Hmove as [[p calls] addr| |[p calls] addr c [_ Hun]|[p calls] c|[p calls] addr c _|[p calls]|[p calls] addr _|[p calls] _].
  - by apply inv_append.
  - by eapply inv_step.
  - by apply inv_add.
  - eapply inv_pool; [exact Hinv|apply (pi_conns _ Hinv)|cbn; set_solver|done..].
  - cbn. unfold remove_if. case_decide; [by apply inv_remove|done].
  - eapply inv_pool; [exact Hinv|apply (pi_conns _ Hinv)|done..].
  - by apply inv_remove.
  - eapply inv_pool; [exact Hinv|apply (pi_conns _ Hinv)|cbn; set_solver|done..].
Qed.

(** Once the transport is closed every connection made has ended. *)
Definition all_ended (p : Pool) : Prop := gone p = true → ∀ c, is_Some (dialled p !! c) → c ∈ dead p.

Lemma all_ended_grow p p' : gone p' = gone p → dead p ⊆ dead p' → dialled p' = dialled p → all_ended p → all_ended p'.
Proof. intros Hg Hd Hi Hall Hg' c. rewrite Hi. intros Hc. apply Hd, Hall; [congruence|done]. Qed.

Lemma all_ended_connect p c addr : gone p = false → all_ended (connect c addr p).
Proof. intros Hg Hg'. cbn in Hg'. congruence. Qed.

Lemma dial_step_all_ended addr dial p pc p' pc' :
  (∀ c, dial = Some c → gone p = false) → dial_step addr dial p pc = (p', pc') → all_ended p → all_ended p'.
Proof.
  intros Hun Hstep Hall. destruct pc as [|c| | |c|c e|c|c|r]; cbn [dial_step] in Hstep;
    repeat (case_match || case_decide); injection Hstep as <- <-; try done.
  - apply all_ended_connect. by eapply Hun.
  - eapply all_ended_grow; [| | |exact Hall]; [done|cbn; set_solver|done].
  - unfold startAcceptLoop. by destruct (shut p).
Qed.

Lemma pool_move_all_ended st st' : all_ended (ps_pool st) → pool_move st st' → all_ended (ps_pool st').
Proof.
  intros Hall Hmove.
  destruct Hmove as [st addr|st i addr pc dial p' pc' _ Hun Hstep|st addr c Hun|st c|st addr c _|st|st addr _|st _]; cbn [ps_pool].
  - done.
  - eapply dial_step_all_ended; [|exact Hstep|done]. intros c Hc. apply (Hun c Hc).
  - apply all_ended_connect, Hun.
  - eapply all_ended_grow; [| | |exact Hall]; [done|cbn; set_solver|done].
  - unfold remove_if. by case_decide.
  - done.
  - done.
  - intros _ c Hc. cbn in *. apply elem_of_union_l, elem_of_dom, Hc.
Qed.

Lemma newPool_inv : pool_inv (mkPS newPool []).
Proof.
  split; cbn.
  - intros addr c. by rewrite lookup_empty.
  - intros i addr pc c. by rewrite lookup_nil.
  - intros i addr pc c. by rewrite lookup_nil.
  - constructor.
  - intros c ?%elem_of_nil. done.
  - intros c [a Ha]. by rewrite lookup_empty in Ha.
Qed.

(** ** Properties *)

(** C27: The pool neither leaks nor mixes up connections.  However calls of
    getOrDial, inbound connections, failures and the shutdown interleave: a
    call only returns a connection to the address it was given, accept loops
    are started at most once per connection, and every connection made is
    served by its loops, closed, or still held by the call that made it,
    until the transport is shut down; and once Shutdown has closed quic-go's
    transport every connection made has ended. *)
Theorem pool_no_leak st (Hrun : rtc pool_move (mkPS newPool []) st) :
  (∀ i addr c, ps_calls st !! i = Some (addr, DReturn (Some c)) → dialled (ps_pool st) !! c = Some addr) ∧
  NoDup (loops (ps_pool st)) ∧
  (shut (ps_pool st) = false → ∀ c, is_Some (dialled (ps_pool st) !! c) →
     c ∈ loops (ps_pool st) ∨ c ∈ dead (ps_pool st) ∨
     ∃ i addr pc, ps_calls st !! i = Some (addr, pc) ∧ holds pc = Some c) ∧
  (gone (ps_pool st) = true → ∀ c, is_Some (dialled (ps_pool st) !! c) → c ∈ dead (ps_pool st)).
Proof.
  assert (pool_inv st ∧ all_ended (ps_pool st)) as [[H1 H2 H3 H4 H5 H6] H7].
  { eapply (rtc_ind_r (fun st => pool_inv st ∧ all_ended (ps_pool st))); [by split; [apply newPool_inv|]| |exact Hrun].
    intros st1 st2 _ Hmove [Hinv Hall]. split; [by eapply pool_move_inv|by eapply pool_move_all_ended]. }
  split_and!; [by intros i addr c Hi; eapply H3|done| |done].
  intros Hshut c Hc. destruct (H6 c Hc) as [?|[?|[?|?]]]; [auto|auto|congruence|auto].
Qed.

(** An undisturbed call: it returns the live pooled connection if there is one,
    and otherwise the one it dials, which is then pooled and served. *)
Lemma getOrDial_spec p addr dial :
  shut p = false → (∀ c, dial = Some c → c ∉ dead p) →
  let '(p', pc) := getOrDial p addr dial in
  match (GetConnection p addr).1 with
  | Some c => pc = DReturn (Some c) ∧ p' = p
  | None => pc = DReturn dial ∧
      match dial with
      | Some c => appConns p' !! addr = Some c ∧ c ∈ loops p' ∧ dead p' = dead p ∧ shut p' = false
      | None => appConns p' !! addr = None ∧ dead p' = dead p ∧ shut p' = false
      end
  end.
Proof.
  intros Hshut Hlive. unfold getOrDial, GetConnection. cbn [dial_steps dial_step].
  destruct (appConns p !! addr) as [c|] eqn:E; cbn [dial_step]; [destruct (decide (c ∈ dead p)) as [Hd|Hd]|]; cbn [fst dial_step].
  - destruct dial as [c'|]; cbn [dial_step appConns connect remove set_conns]; rewrite lookup_delete_eq; [|done].
    cbn [dial_step]. unfold startAcceptLoop. cbn. rewrite Hshut. cbn. rewrite lookup_insert_eq. split_and!; [done|done|set_solver|done|done].
  - done.
  - destruct dial as [c'|]; cbn [dial_step appConns connect]; [|done]. rewrite E. cbn [dial_step].
    unfold startAcceptLoop. cbn. rewrite Hshut. cbn. rewrite lookup_insert_eq. split_and!; [done|done|set_solver|done|done].
Qed.

(** A failed open heals.  When a stream cannot be opened on the connection
    that was used, that connection is closed and removed, so the next
    OpenStream to the address dials again and succeeds on the new connection. *)
Theorem open_failure_redials p addr d1 c2 opens1 opens2
    (Hshut : shut p = false) (Hd1 : ∀ c, d1 = Some c → c ∉ dead p)
    (Hfail : (OpenStream p addr d1 opens1).2 = None)
    (Hfresh : (c2 ∉ dead p) ∧ d1 ≠ Some c2 ∧ appConns p !! addr ≠ Some c2)
    (Hopen : opens2 c2 = true) :
  let p1 := (OpenStream p addr d1 opens1).1 in
  (OpenStream p1 addr (Some c2) opens2).2 = Some c2 ∧
  appConns (OpenStream p1 addr (Some c2) opens2).1 !! addr = Some c2.
Proof.
  intros p1. destruct Hfresh as (Hnd & Hne & Hnc).
  assert (appConns p1 !! addr = None ∧ shut p1 = false ∧ (c2 ∉ dead p1)) as (Ha & Hs & Hn).
  { unfold p1, OpenStream in *. pose proof (getOrDial_spec p addr d1 Hshut Hd1) as Hspec.
    destruct (getOrDial p addr d1) as [p' pc].
    unfold GetConnection in Hspec. destruct (appConns p !! addr) as [c|] eqn:E.
    - destruct (decide (c ∈ dead p)) as [Hdc|Hdc]; cbn [fst] in Hspec.
      + destruct Hspec as [-> Hspec]. destruct d1 as [c'|]; cbn in *.
        * destruct Hspec as (Hp & _ & Hdd & Hsh). destruct (opens1 c'); [done|]. cbn. unfold evict, remove_if.
          rewrite decide_True by done. cbn. rewrite lookup_delete_eq, Hdd, Hsh. split_and!; [done|done|set_solver].
        * by destruct Hspec as (? & -> & ?).
      + destruct Hspec as [-> ->]. destruct (opens1 c); [done|]. cbn. unfold evict, remove_if.
        rewrite decide_True by done. cbn. rewrite lookup_delete_eq, Hshut. split_and!; [done|done|set_solver].
    - cbn [fst] in Hspec. destruct Hspec as [-> Hspec]. destruct d1 as [c'|]; cbn in *.
      + destruct Hspec as (Hp & _ & Hdd & Hsh). destruct (opens1 c'); [done|]. cbn. unfold evict, remove_if.
        rewrite decide_True by done. cbn. rewrite lookup_delete_eq, Hdd, Hsh. split_and!; [done|done|set_solver].
      + by destruct Hspec as (? & -> & ?). }
  pose proof (getOrDial_spec p1 addr (Some c2) Hs) as Hspec. unfold OpenStream.
  destruct (getOrDial p1 addr (Some c2)) as [p2 pc2]. unfold GetConnection in Hspec. rewrite Ha in Hspec. cbn [fst] in Hspec.
  destruct Hspec as (-> & Hp & _); [by intros c [= <-]|]. rewrite Hopen. done.
Qed.

Lemma open_failure_redials_witness :
  let p := AddConnection "a" 0 newPool in
  let p1 := (OpenStream p "a" None (fun _ => false)).1 in
  (OpenStream p1 "a" (Some 1%nat) (fun _ => true)).2 = Some 1%nat ∧
  appConns (OpenStream p1 "a" (Some 1%nat) (fun _ => true)).1 !! "a"%string = Some 1%nat.
Proof.
  intros p p1. apply (open_failure_redials p "a" None 1 (fun _ => false) (fun _ => true)).
  - reflexivity.
  - intros c. discriminate.
  - vm_compute. reflexivity.
  - split; [apply (bool_decide_unpack _); vm_compute; exact I|]. split; discriminate.
  - reflexivity.
Defined.

(** The steps of a schedule: which call moves, and what its dial gives. *)
Fixpoint run_calls (st : pool_state) (sched : list (nat * option nat)) : pool_state :=
  match sched with
  | [] => st
  | (i, dial) :: sched' =>
      match ps_calls st !! i with
      | None => run_calls st sched'
      | Some (addr, pc) =>
          let '(p', pc') := dial_step addr dial (ps_pool st) pc in
          run_calls (mkPS p' (<[i := (addr, pc')]> (ps_calls st))) sched'
      end
  end.

(** Fresh numbers at every dial of a schedule. *)
Fixpoint sched_ok (st : pool_state) (sched : list (nat * option nat)) : Prop :=
  match sched with
  | [] => True
  | (i, dial) :: sched' =>
      match dial with Some c => unused st c | None => True end ∧
      match ps_calls st !! i with
      | None => sched_ok st sched'
      | Some (addr, pc) =>
          let '(p', pc') := dial_step addr dial (ps_pool st) pc in
          sched_ok (mkPS p' (<[i := (addr, pc')]> (ps_calls st))) sched'
      end
  end.

Lemma run_calls_moves st sched : sched_ok st sched → rtc pool_move st (run_calls st sched).
Proof.
  revert st. induction sched as [|[i dial] sched IH]; intros st; cbn [sched_ok run_calls]; [done|]. intros [Hd Hs].
  destruct (ps_calls st !! i) as [[addr pc]|] eqn:Hi; [|by apply IH].
  destruct (dial_step addr dial (ps_pool st) pc) as [p' pc'] eqn:Hstep.
  eapply rtc_l; [|by apply IH]. eapply pm_step; [done| |done]. intros c ->. exact Hd.
Qed.

(** Two calls after connection 0 died: both find it dead; the second removes it,
    dials 1 and pools it; then the first one's Delete removes 1. *)
Definition raced_start : pool_state :=
  mkPS (kill 0 (AddConnection "a" 0 newPool))
    [("a"%string, DReturn (Some 0%nat)); ("a"%string, DLoad); ("a"%string, DLoad)].

Definition raced : pool_state :=
  run_calls raced_start
    [(1, None); (1, None); (2, None); (2, None); (2, None); (2, Some 1); (2, None); (2, None); (1, None)]%nat.

Lemma raced_reachable : rtc pool_move (mkPS newPool []) raced.
Proof.
  etrans; [by apply (AddConnection_moves _ _ "a" 0)|].
  eapply rtc_l; [apply (pm_die _ 0)|].
  eapply rtc_l; [apply (pm_call _ "a")|]. eapply rtc_l; [apply (pm_call _ "a")|].
  apply (run_calls_moves raced_start). vm_compute. by split_and!.
Qed.

(** GetConnection can drop a live connection.  It deletes whatever is pooled
    under the address after it saw a dead connection there, so between its two
    accesses another call can have pooled a new one: a state is reachable in
    which a connection is alive and served, was returned to its caller, and is
    missing from the pool, though nothing evicted it and no shutdown took
    place. *)
Theorem live_connection_dropped :
  rtc pool_move (mkPS newPool []) raced ∧
  ps_calls raced !! 2%nat = Some ("a"%string, DReturn (Some 1%nat)) ∧
  (1%nat ∈ loops (ps_pool raced)) ∧ (1%nat ∉ dead (ps_pool raced)) ∧ shut (ps_pool raced) = false ∧
  appConns (ps_pool raced) !! "a"%string = None.
Proof.
  split; [exact raced_reachable|].
  split_and!; [vm_compute; reflexivity| |apply (bool_decide_unpack _); vm_compute; exact I|vm_compute; reflexivity..].
    apply (bool_decide_unpack _). vm_compute. exact I.
Qed.

(** ** The engine's messages *)

(** What [engine.New] registers, and handlers of the application. *)
Inductive handler :=
| HEager | HLazy | HRepair | HEagerStream | HApp (n : nat).

Definition engine_handlers (t : Handlers handler) : Handlers handler :=
  RegisterUniHandler StreamTypeEagerStream HEagerStream (SetHandlers HEager HLazy HRepair t).

(** A registration by the application. *)
Inductive app_reg :=
| RBidi (b : byte) (n : nat)
| RUni (b : byte) (n : nat)
| RDatagram (b : byte) (n : nat).

Definition do_app (t : Handlers handler) (r : app_reg) : Handlers handler :=
  match r with
  | RBidi b n => RegisterBidiHandler b (HApp n) t
  | RUni b n => RegisterUniHandler b (HApp n) t
  | RDatagram b n => RegisterDatagramHandler b (HApp n) t
  end.

Definition keeps_eager_stream (r : app_reg) : Prop :=
  match r with RUni b _ => b ≠ StreamTypeEagerStream | _ => True end.

Lemma app_regs_keep t rs :
  Forall keeps_eager_stream rs →
  let t' := foldl do_app (engine_handlers t) rs in
  onEagerGossip t' = Some HEager ∧ onLazyBatch t' = Some HLazy ∧ onRepair t' = Some HRepair ∧
  uniHandlers t' !! StreamTypeEagerStream = Some HEagerStream.
Proof.
  induction rs as [|r rs IH] using rev_ind; intros Hrs.
  { cbn. by rewrite lookup_insert_eq. }
  apply Forall_app in Hrs as [Hrs Hr]. rewrite Forall_singleton in Hr. destruct (IH Hrs) as (H1 & H2 & H3 & H4).
  cbv zeta. rewrite foldl_app. cbn [foldl]. destruct r as [b n|b n|b n]; cbn in *; try done.
  rewrite lookup_insert_ne by done. done.
Qed.

Lemma ReadFull_one b data e : ReadFull (mkReader (b :: data) e) 1 = Ok ([b], mkReader data e).
Proof. exact (ReadFull_app [b] data e 1 eq_refl). Qed.

(** What the engine sends reaches the engine's handlers.  Whatever handlers
    the application has registered before or after (other than for the eager
    stream type), an eager message arriving as a datagram or as a bidirectional
    stream goes to the eager handler without its type byte, a lazy batch and an
    eager stream arriving as unidirectional streams go to their handlers, and a
    repair request goes to the repair handler. *)
Theorem engine_messages_dispatched t rs e body topic seq
    (Hrs : Forall keeps_eager_stream rs) :
  let t' := foldl do_app (engine_handlers t) rs in
  receiveDatagram t' (encodeEagerMessage e) = Some (HEager, drop 1 (encodeEagerMessage e)) ∧
  dispatchBidiStream t' (mkReader (encodeEagerMessage e) EOF) = BidiData HEager (drop 1 (encodeEagerMessage e)) ∧
  dispatchUniStream t' (mkReader (StreamTypeLazyBatch :: body) EOF) = Some (HLazy, mkReader body EOF) ∧
  dispatchUniStream t' (mkReader (StreamTypeEagerStream :: body) EOF) = Some (HEagerStream, mkReader body EOF) ∧
  dispatchBidiStream t' (mkReader (repair_request topic seq) EOF) =
    BidiStream HRepair (mkReader (be_put 2 topic ++ be_put 8 seq) EOF).
Proof.
  intros t'. destruct (app_regs_keep t rs Hrs) as (H1 & H2 & H3 & H4). fold t' in H1, H2, H3, H4.
  unfold receiveDatagram, dispatchBidiStream, dispatchUniStream, getEagerGossip, getLazyBatch, getRepair.
  unfold encodeEagerMessage, repair_request. cbn [app]. rewrite !ReadFull_one. cbn [drop skipn]. rewrite H1, H2, H3.
  split_and!; try reflexivity. rewrite decide_False by done. by rewrite H4.
Qed.

Lemma engine_messages_dispatched_witness :
  let t' := foldl do_app (engine_handlers noHandlers) [RDatagram MsgTypeEagerGossip 1; RUni x20 2] in
  receiveDatagram t' (encodeEagerMessage (mkEntry 1 7 [x61])) = Some (HEager, drop 1 (encodeEagerMessage (mkEntry 1 7 [x61]))).
Proof.
  intros t'.
  apply (engine_messages_dispatched noHandlers [RDatagram MsgTypeEagerGossip 1; RUni x20 2] (mkEntry 1 7 [x61]) [] 0 0).
  repeat constructor. discriminate.
Defined.

Lemma raced_shut_reachable : rtc pool_move (mkPS newPool []) (mkPS (Shutdown (ps_pool raced)) (ps_calls raced)).
Proof. etrans; [exact raced_reachable|]. apply (Shutdown_moves (ps_pool raced) (ps_calls raced)). Qed.

(** The connection that is missing from the pool is ended by the shutdown too. *)
Lemma pool_no_leak_witness :
  (shut (ps_pool raced) = false → ∀ c, is_Some (dialled (ps_pool raced) !! c) →
     c ∈ loops (ps_pool raced) ∨ c ∈ dead (ps_pool raced) ∨ ∃ i addr pc, ps_calls raced !! i = Some (addr, pc) ∧ holds pc = Some c) ∧
  (1%nat ∈ dead (Shutdown (ps_pool raced))).
Proof.
  split; [exact (proj1 (proj2 (proj2 (pool_no_leak raced raced_reachable))))|].
  apply (proj2 (proj2 (proj2 (pool_no_leak _ raced_shut_reachable)))); [vm_compute; reflexivity|].
  exists "a"%string. vm_compute. reflexivity.
Defined.
