(* ===== verification/Listener.v ===== *)
(** * Listening and serving connections (src/transport/transport.go)

    The start of the transport, its accept loop, and the three loops that serve
    a connection.  Sockets and QUIC are outside: a loop runs over what the
    library returns to it.  What a connection carries is turned into calls of
    the engine, so that everything proved about runs of the engine holds for
    what comes in over the network. *)

From S2P Require Import Prelude Netaddr Stream EagerWire Repair Engine EngineSpec EngineRun Transport.

(** ** Starting *)

Record transport_config := mkTransportCfg {
  tc_BindAddr : string;
  tc_BindPort : Z;
  tc_ALPN : string;
  tc_TLS : bool;                       (** whether one is given *)
  tc_MemberlistPool : option (list string);   (** the addresses it knows *)
}.

Record quic_config := mkQuicCfg {
  MaxIdleTimeout : Z;
  KeepAlivePeriod : Z;
  EnableDatagrams : bool;
  MaxIncomingStreams : Z;
  MaxIncomingUniStreams : Z;
}.

(** The parts that are open: the UDP socket, the QUIC listener, the goroutine of
    the accept loop. *)
Record sockets := mkSockets { so_udp : bool; so_listener : bool; so_accepting : bool }.

Inductive new_error := ErrTLSRequired | ErrListenUDP | ErrListenQUIC.

Record transport (H : Type) := mkTransport {
  t_protos : list string;
  t_listen : IP * Z;
  t_quic : quic_config;
  t_handlers : Handlers H;
  t_pool : Pool;
}.
Arguments mkTransport {H}.
Arguments t_protos {H}.
Arguments t_listen {H}.
Arguments t_quic {H}.
Arguments t_handlers {H}.
Arguments t_pool {H}.

Definition alpn (cfg : transport_config) : string :=
  if decide (tc_ALPN cfg = ""%string) then "gossip-mesh/1" else tc_ALPN cfg.

Definition quic_conf : quic_config := mkQuicCfg 30000000000 10000000000 true 100000 100000.

(** [New]: [udp] and [quic] say whether the socket and the listener come up. *)
Definition New {H} (cfg : transport_config) (udp quic : bool) : sockets * result new_error (transport H) :=
  if negb (tc_TLS cfg) then (mkSockets false false false, Err ErrTLSRequired)
  else if negb udp then (mkSockets false false false, Err ErrListenUDP)
  else if negb quic then (mkSockets false false false, Err ErrListenQUIC)
  else (mkSockets true true true,
        Ok (mkTransport [alpn cfg] (ParseIP (tc_BindAddr cfg), tc_BindPort cfg) quic_conf noHandlers newPool)).

(** ** Accepting connections *)

(** What [listener.Accept] returns: a connection, or an error, with whether the
    shutdown has begun by then. *)
Inductive accepted :=
| Inbound (addr : string) (c : nat)
| AcceptError (down : bool).

(** The pool, and whether the loop still runs. *)
Fixpoint acceptLoop (evs : list accepted) (p : Pool) : Pool * bool :=
  match evs with
  | [] => (p, true)
  | Inbound addr c :: evs' => acceptLoop evs' (AddConnection addr c p)
  | AcceptError down :: evs' => if down then (p, false) else acceptLoop evs' p
  end.

(** [StartAcceptLoopAll] ranges over the pool of memberlist and does nothing for
    each address. *)
Definition StartAcceptLoopAll (known : option (list string)) (p : Pool) : Pool :=
  match known with
  | None => p
  | Some addrs => foldl (fun p _ => p) p addrs
  end.

(** ** Serving a connection *)

(** A loop gets what arrives, each with the handlers registered by then, until an
    error ends it. *)
Fixpoint until_error {A} (arriving : list (option A)) : list A :=
  match arriving with Some a :: rest => a :: until_error rest | _ => [] end.

Definition acceptBidiStreams {H} (arriving : list (option (Handlers H * reader))) : list (bidi_outcome H) :=
  (fun '(t, r) => dispatchBidiStream t r) <$> until_error arriving.

Definition acceptUniStreams {H} (arriving : list (option (Handlers H * reader))) : list (H * reader) :=
  omap (fun '(t, r) => dispatchUniStream t r) (until_error arriving).

Definition receiveDatagrams {H} (arriving : list (option (Handlers H * bytes))) : list (H * bytes) :=
  omap (fun '(t, msg) => receiveDatagram t msg) (until_error arriving).

(** ** What the engine sees *)

(** Something that arrives on a connection. *)
Inductive arrival :=
| InDatagram (msg : bytes)
| InBidi (r : reader)
| InUni (r : reader).

(** The calls of the engine it causes; the handlers of the application and of the
    repair cache do not change the engine. *)
Definition engine_calls (ev : env) (t : Handlers handler) (from : string) (a : arrival) : list engine_act :=
  match a with
  | InDatagram msg => match receiveDatagram t msg with Some (HEager, data) => [AEager ev from data] | _ => [] end
  | InBidi r => match dispatchBidiStream t r with BidiData HEager data => [AEager ev from data] | _ => [] end
  | InUni r =>
      match dispatchUniStream t r with
      | Some (HLazy, r1) => [ALazy ev from r1]
      | Some (HEagerStream, r1) => AEager ev from <$> receiveEagerStream r1
      | _ => []
      end
  end.

(** ** Properties *)

(** What was accepted before the loop ended. *)
Fixpoint inbound (evs : list accepted) : list (string * nat) :=
  match evs with
  | Inbound addr c :: evs' => (addr, c) :: inbound evs'
  | AcceptError false :: evs' => inbound evs'
  | _ => []
  end.

(** The last of them from an address. *)
Definition latest (addr : string) (l : list (string * nat)) : option nat :=
  foldl (fun last '(a, c) => if decide (a = addr) then Some c else last) None l.

Lemma acceptLoop_pool evs p : (acceptLoop evs p).1 = foldl (fun p '(addr, c) => AddConnection addr c p) p (inbound evs).
Proof.
  revert p. induction evs as [|[addr c|[]] evs IH]; intros p; cbn [acceptLoop inbound foldl]; [done|apply IH|done|apply IH].
Qed.

Lemma AddConnections_serve l p :
  shut p = false →
  let p' := foldl (fun p '(addr, c) => AddConnection addr c p) p l in
  shut p' = false ∧ loops p' = loops p ++ l.*2 ∧
  ∀ addr, appConns p' !! addr = match latest addr l with Some c => Some c | None => appConns p !! addr end.
Proof.
  intros Hs. induction l as [|[a c] l IH] using rev_ind; cbv zeta in *; [by rewrite app_nil_r|].
  rewrite foldl_app. cbn [foldl]. destruct IH as (I1 & I2 & I3). unfold AddConnection, startAcceptLoop.
  set (q := foldl _ p l) in *. cbn [shut store connect set_conns]. rewrite I1. cbn [shut loops appConns store connect set_conns].
  rewrite I2, fmap_app, app_assoc. split_and!; [done|done|]. intros addr. rewrite lookup_insert, I3. unfold latest.
  rewrite foldl_app. cbn [foldl]. by case_decide.
Qed.

(** The accept loop ends only with the shutdown.  Errors that are not due to the
    shutdown leave it running; every connection that was accepted has its loops
    started, in order, and the last one from an address is the pooled one. *)
Theorem accept_loop_serves evs p (Hopen : shut p = false) :
  let '(p', runs) := acceptLoop evs p in
  (runs = true ↔ AcceptError true ∉ evs) ∧
  loops p' = loops p ++ (inbound evs).*2 ∧
  ∀ addr, appConns p' !! addr = match latest addr (inbound evs) with Some c => Some c | None => appConns p !! addr end.
Proof.
  pose proof (acceptLoop_pool evs p) as Hp. destruct (AddConnections_serve (inbound evs) p Hopen) as (_ & H2 & H3).
  rewrite <- Hp in H2, H3. assert ((acceptLoop evs p).2 = true ↔ AcceptError true ∉ evs) as Hr.
  { clear. revert p. induction evs as [|[addr c|[]] evs IH]; intros p; cbn [acceptLoop]; [set_solver| | |].
    - rewrite IH. set_solver.
    - split; [done|]. intros H. exfalso. apply H. left.
    - rewrite IH. set_solver. }
  destruct (acceptLoop evs p) as [p' runs]. done.
Qed.

Lemma accept_loop_serves_witness :
  let '(p', runs) := acceptLoop [Inbound "a:1" 0; AcceptError false; Inbound "a:1" 1] newPool in
  (runs = true ↔ AcceptError true ∉ [Inbound "a:1" 0; AcceptError false; Inbound "a:1" 1]) ∧ loops p' = [0; 1]%nat.
Proof.
  destruct (accept_loop_serves [Inbound "a:1" 0; AcceptError false; Inbound "a:1" 1] newPool) as (H1 & H2 & _).
  - reflexivity.
  - split; [exact H1|exact H2].
Defined.

(** The transport comes up whole or not at all, with no handlers and no
    connections, and never without a protocol name. *)
Theorem transport_all_or_nothing {H} (cfg : transport_config) (udp quic : bool) :
  match New (H := H) cfg udp quic with
  | (so, Err e) => so = mkSockets false false false ∧
      (e = ErrTLSRequired ↔ tc_TLS cfg = false)
  | (so, Ok t) => so = mkSockets true true true ∧ tc_TLS cfg = true ∧ t_protos t = [alpn cfg] ∧ alpn cfg ≠ ""%string ∧
      t_listen t = (ParseIP (tc_BindAddr cfg), tc_BindPort cfg) ∧ t_pool t = newPool ∧
      ∀ msg r, receiveDatagram (t_handlers t) msg = None ∧ dispatchUniStream (t_handlers t) r = None
  end.
Proof.
  unfold New. destruct (tc_TLS cfg), udp, quic; cbn [negb]; try (split; [done|]; by split).
  split_and!; try done. { unfold alpn. by case_decide. }
  intros msg r. unfold receiveDatagram, dispatchUniStream. cbn. split.
  - destruct msg as [|b rest]; [done|]. case_decide; [done|]. by rewrite lookup_empty.
  - destruct (ReadFull r 1) as [[[|b [|]] r1]|]; try done. case_decide; [done|]. by rewrite lookup_empty.
Qed.

(** Starting the loops for the connections memberlist made starts none. *)
Lemma StartAcceptLoopAll_nothing known p : StartAcceptLoopAll known p = p.
Proof. destruct known as [addrs|]; [|done]. cbn. by induction addrs. Qed.
