(* ===== verification/Cluster.v ===== *)
(** * A cluster of engines (src/engine, src/transport)

    Several nodes with their engines and transports, and what is on its way
    between them.  Nodes join and crash; any node may act; the network delays,
    repeats, reorders and loses what was sent, streams are cut off anywhere, and
    repair requests are answered from the caches of the nodes they reach.  A
    parcel is handed to the transport's dispatch, which calls the engine.

    The log of everything applications enqueued is the specification: nothing
    else is ever delivered anywhere. *)

From S2P Require Import Prelude Seen Stream EagerWire Batch Ordered OrderedSpec OrderedRun Overlay Repair Engine EngineSpec EngineRun.
From S2P Require Import EngineSound Transport Listener.

(** ** What is on its way *)

Inductive parcel :=
| PDatagram (msg : bytes)
| PStream (content : bytes).   (** a unidirectional stream *)

(** What of a parcel has arrived: of a stream a part, and how it ends. *)
Inductive arrives : parcel → arrival → Prop :=
| arr_datagram msg : arrives (PDatagram msg) (InDatagram msg)
| arr_stream content pre e : pre `prefix_of` content → arrives (PStream content) (InUni (mkReader pre e)).

(** The datagrams among what a handler sent; streams are in the writers. *)
Definition datagrams (out : list sent) : list (string * parcel) :=
  omap (fun s => match s with SentDatagram addr msg true => Some (addr, PDatagram msg) | _ => None end) out.

(** ** States *)

Record cluster_node := mkCNode {
  cn_engine : GossipEngine;
  cn_table : Handlers handler;
  cn_taken : list DeliveredEntry;   (** what its consumer has taken *)
}.

Record net := mkNet {
  nt_nodes : gmap string cluster_node;              (** by address *)
  nt_wire : list (string * parcel);                 (** destination, parcel *)
  nt_batches : list (string * string * LazyBatch);  (** goroutines of sendLazyBatch: node, destination *)
  nt_log : list GossipEntry;                        (** everything enqueued *)
}.

Definition emptyNet : net := mkNet ∅ [] [] [].

(** The types of [Enqueue]'s arguments, and messages of less than 4 GiB. *)
Definition sendable (e : GossipEntry) : Prop :=
  entry_ok e ∧ in_word 32 (Z.of_nat (length (encodeEagerMessage e))).

(** What the applications registered, on top of the engine. *)
Definition table (rs : list app_reg) : Handlers handler := foldl do_app (engine_handlers noHandlers) rs.

Section Moves.
Context `{HZ : Zstd}.

(** What an action sends at once. *)
Definition emits (g : GossipEngine) (a : engine_act) : list (string * parcel) :=
  match a with
  | ALocal ev => match run_local ev g with Some (_, out) => datagrams out | None => [] end
  | AEager ev from data => datagrams (onEagerReceive ev g from data).2
  | ALazy ev from r => datagrams (onLazyBatchReceive ev g from r).2
  | _ => []
  end.

(** The sends it starts. *)
Definition starts (g : GossipEngine) (a : engine_act) : list (string * LazyBatch) :=
  match a with ATick => (flushLazyBatches g).2 | _ => [] end.

Definition enqueues (a : engine_act) : list GossipEntry :=
  match a with AEnqueue t q p => [mkEntry t q p] | _ => [] end.

(** What a node writes in answer to the bytes of a repair request, when its writes
    of the status and of the payload fare as [w1] and [w2] say. *)
Definition answer (n : cluster_node) (w1 w2 : write_outcome) (req : bytes) : bytes :=
  match dispatchBidiStream (cn_table n) (mkReader req EOF) with
  | BidiStream HRepair r => HandleRequest (ge_repair (cn_engine n)) r w1 w2
  | _ => []
  end.

(** A stream to a peer reaches the node at its address; what that writes arrives in
    part.  A QUIC stream on which a write has failed was cancelled or belongs to
    a lost connection, and closing it sends no end of stream: the response ends
    regularly only when no write has failed and all has arrived. *)
Definition honest (nodes : gmap string cluster_node) (p : OverlayPeer) (conn : peer_conn) : Prop :=
  pc_open conn = true → ∃ n, nodes !! op_Addr p = Some n ∧
    ∀ req, ∃ w1 w2, rd_data (pc_response conn req) `prefix_of` answer n w1 w2 req ∧
      (rd_end (pc_response conn req) = EOF →
         write_ok w1 = true ∧ write_ok w2 = true ∧ rd_data (pc_response conn req) = answer n w1 w2 req).

(** When a node may do an action. *)
Definition allowed (st : net) (addr : string) (n : cluster_node) (a : engine_act) : Prop :=
  match a with
  | AEnqueue t q p => sendable (mkEntry t q p)
  | AEager ev from _ | ALazy ev from _ =>
      ∃ p arr, (addr, p) ∈ nt_wire st ∧ arrives p arr ∧ a ∈ engine_calls ev (cn_table n) from arr
  | ATimer _ conns => ∀ p, honest (nt_nodes st) p (conns p)
  | ABatchDone _ _ => False
  | _ => True
  end.

Inductive net_move : net → net → Prop :=
| nm_join st addr o cfg rs :
    nt_nodes st !! addr = None → Forall keeps_eager_stream rs →
    net_move st (mkNet (<[addr := mkCNode (Engine.New o cfg) (table rs) []]> (nt_nodes st)) (nt_wire st) (nt_batches st) (nt_log st))
| nm_crash st addr :
    net_move st (mkNet (delete addr (nt_nodes st)) (nt_wire st) (nt_batches st) (nt_log st))
| nm_act st addr n a g' taken :
    nt_nodes st !! addr = Some n → allowed st addr n a → do_engine (cn_engine n) a = Some (g', taken) →
    net_move st
      (mkNet (<[addr := mkCNode g' (cn_table n) (cn_taken n ++ taken)]> (nt_nodes st))
         (nt_wire st ++ emits (cn_engine n) a)
         (nt_batches st ++ ((fun '(to, b) => (addr, to, b)) <$> starts (cn_engine n) a))
         (nt_log st ++ enqueues a))
| nm_batch st k addr n to b o g' content :
    nt_batches st !! k = Some (addr, to, b) → nt_nodes st !! addr = Some n →
    in_word 32 (Z.of_nat (length (EncodeLazyBatch b))) →
    sendLazyBatch (cn_engine n) b o = (g', content) →
    net_move st
      (mkNet (<[addr := mkCNode g' (cn_table n) (cn_taken n)]> (nt_nodes st))
         (nt_wire st ++ ((fun c => (to, PStream c)) <$> option_list content))
         (delete k (nt_batches st)) (nt_log st))
| nm_stream st addr n to w c :
    nt_nodes st !! addr = Some n → eagerStreams (cn_engine n) !! to = Some w → c ∈ contents w →
    net_move st (mkNet (nt_nodes st) (nt_wire st ++ [(to, PStream c)]) (nt_batches st) (nt_log st)).
End Moves.

(** ** The dispatch *)

(** Only the engine's own types reach its handlers. *)
Lemma table_others rs :
  let t := table rs in
  (∀ b h, datagramHandlers t !! b = Some h → ∃ n, h = HApp n) ∧
  (∀ b h, uniHandlers t !! b = Some h → b = StreamTypeEagerStream ∨ ∃ n, h = HApp n).
Proof.
  unfold table. induction rs as [|r rs IH] using rev_ind.
  { cbn. split; [intros b h; by rewrite lookup_empty|]. intros b h [[<- _]|[_ Hl]]%lookup_insert_Some; [by left|].
    by rewrite lookup_empty in Hl. }
  cbv zeta in *. rewrite foldl_app. cbn [foldl]. destruct IH as [H1 H2]. destruct r as [b n|b n|b n]; cbn; [done| |].
  - split; [done|]. intros b' h [[<- <-]|[_ Hl]]%lookup_insert_Some; [eauto|by apply H2].
  - split; [|done]. intros b' h [[<- <-]|[_ Hl]]%lookup_insert_Some; [eauto|by eapply H1].
Qed.

Lemma calls_of_datagram ev rs from msg a :
  a ∈ engine_calls ev (table rs) from (InDatagram msg) →
  ∃ data, msg = MsgTypeEagerGossip :: data ∧ a = AEager ev from data.
Proof.
  destruct (table_others rs) as [H1 _]. cbn [engine_calls]. unfold receiveDatagram. destruct msg as [|b data]; [by intros ?%elem_of_nil|].
  destruct (decide (b = MsgTypeEagerGossip)) as [->|].
  - destruct (getEagerGossip (table rs)) as [[]|]; cbn; try (by intros ?%elem_of_nil).
    intros ->%list_elem_of_singleton. by exists data.
  - destruct (datagramHandlers (table rs) !! b) as [h|] eqn:E; cbn; [|by intros ?%elem_of_nil].
    destruct (H1 _ _ E) as [k ->]. by intros ?%elem_of_nil.
Qed.

Lemma calls_of_stream ev rs from content e a :
  Forall keeps_eager_stream rs →
  a ∈ engine_calls ev (table rs) from (InUni (mkReader content e)) →
  (∃ body, content = StreamTypeLazyBatch :: body ∧ a = ALazy ev from (mkReader body e)) ∨
  (∃ body data, content = StreamTypeEagerStream :: body ∧ data ∈ receiveEagerStream (mkReader body e) ∧ a = AEager ev from data).
Proof.
  intros Hrs. destruct (table_others rs) as [_ H2]. destruct (app_regs_keep noHandlers rs Hrs) as (_ & K2 & _ & K4).
  fold (table rs) in K2, K4. cbn [engine_calls]. unfold dispatchUniStream, getLazyBatch. destruct content as [|b body].
  { destruct (ReadFull_short (mkReader [] e) 1) as [e' ->]; [cbn; lia|]. by intros ?%elem_of_nil. }
  rewrite ReadFull_one. destruct (decide (b = StreamTypeLazyBatch)) as [->|].
  - rewrite K2. cbn. intros ->%list_elem_of_singleton. left. by exists body.
  - destruct (uniHandlers (table rs) !! b) as [h|] eqn:E; cbn; [|by intros ?%elem_of_nil].
    destruct (H2 _ _ E) as [->|[k ->]]; [|by intros ?%elem_of_nil]. rewrite K4 in E. injection E as <-.
    intros (data & -> & Hd)%list_elem_of_fmap. right. by exists body, data.
Qed.

(** ** The wire *)

(** Two splits at the same place. *)
Lemma prefix_split (a b c d : bytes) : length a = length b → a ++ c `prefix_of` b ++ d → a = b ∧ c `prefix_of` d.
Proof. intros Hl [k Hk]. rewrite <- app_assoc in Hk. apply app_inj_1 in Hk as [-> Hk]; [|done]. split; [done|]. by exists k. Qed.

(** Whatever part of a stream of frames arrives, only sent messages come out. *)
Lemma receive_loop_frames fuel es body err data :
  Forall sendable es → body `prefix_of` frames es → data ∈ receive_loop fuel (mkReader body err) →
  ∃ e, e ∈ es ∧ data = strip_type (encodeEagerMessage e).
Proof.
  intros Hes. revert fuel err body. induction Hes as [|e es [_ Hsize] Hes IH]; intros fuel err body Hpre.
  all: destruct fuel as [|fuel]; cbn [receive_loop]; [by intros ?%elem_of_nil|].
  - apply prefix_nil_inv in Hpre as ->. destruct (ReadFull_short (mkReader [] err) 4) as [e' ->]; [cbn; lia|]. by intros ?%elem_of_nil.
  - destruct (ReadFull (mkReader body err) 4) as [[hdr r1]|] eqn:E1; [|by intros ?%elem_of_nil].
    apply ReadFull_ok in E1 as (E1 & L1 & _). cbn [rd_data] in E1. subst body.
    unfold frames in Hpre. rewrite fmap_cons in Hpre. cbn [concat compose] in Hpre. fold (frames es) in Hpre. unfold frame in Hpre.
    rewrite <- app_assoc in Hpre. apply prefix_split in Hpre as [-> Hpre]; [|by rewrite length_be_put].
    rewrite (wrap_id 32), be_get_put_id by done. destruct (_ <? _); [by intros ?%elem_of_nil|]. rewrite Nat2Z.id.
    destruct (ReadFull r1 _) as [[msg r2]|] eqn:E2; [|by intros ?%elem_of_nil].
    apply ReadFull_ok in E2 as (E2 & L2 & _). rewrite E2 in Hpre. apply prefix_split in Hpre as [-> Hpre]; [|done].
    intros [->|Hd]%elem_of_cons; [exists e; split; [by left|done]|]. destruct r2 as [d2 e2].
    destruct (IH fuel e2 d2) as (e' & He' & ->); [done|done|]. exists e'. split; [by right|done].
Qed.

(** Decoding a batch whose count was cut to 16 bits gives some of its entries. *)
Lemma deserialize_serialize_take b b' :
  Forall wire_entry_ok (Entries b) → deserialize (serialize b) = Ok b' →
  Entries b' = take (count16 (length (Entries b))) (Entries b).
Proof.
  intros Hes. set (n := count16 (length (Entries b))). unfold deserialize, serialize. set (h1 := be_put 2 (u16 (Z.of_nat (length (Entries b))))).
  set (post := be_put 2 _ ++ _). assert (length h1 = 2%nat) as Hh1 by apply length_be_put.
  destruct (_ <? _)%nat; [done|].
  assert (slice (h1 ++ concat (put_entry <$> Entries b) ++ post) 0 2 = h1) as -> by (by apply (slice_app [])).
  assert (Z.to_nat (be_get h1) = n) as -> by apply be_get_count.
  assert (length (take n (Entries b)) = n) as Hn by (rewrite length_take; apply Nat.min_l, count16_le).
  pose proof (get_entries_put (take n (Entries b)) h1 (concat (put_entry <$> drop n (Entries b)) ++ post) 0 (Forall_take _ _ _ Hes)) as Hge.
  rewrite (app_assoc (concat _) (concat _)), <- concat_app, <- fmap_app, take_drop, Hn, Hh1 in Hge. rewrite Hge.
  intros ([es off] & [= <- _] & H)%bind_ok. revert H. destruct (_ <? _)%nat; [done|]. by intros (ms & _ & [= <-])%bind_ok.
Qed.

Section Net.
Context `{HZ : Zstd} `{HS : !ZstdSpec HZ}.

(** Whatever part of a batch arrives, only its entries come out. *)
Lemma ReadLazyBatch_part b body err b' r' :
  Forall wire_entry_ok (Entries b) → in_word 32 (Z.of_nat (length (EncodeLazyBatch b))) →
  body `prefix_of` WriteLazyBatch b → ReadLazyBatch (mkReader body err) = Ok (b', r') →
  ∀ e, e ∈ Entries b' → e ∈ Entries b.
Proof.
  intros Hes Hsize Hpre. unfold ReadLazyBatch. destruct (ReadFull (mkReader body err) 4) as [[hdr r1]|] eqn:E1; [|done].
  apply ReadFull_ok in E1 as (E1 & L1 & _). cbn [rd_data] in E1. subst body. unfold WriteLazyBatch in Hpre.
  apply prefix_split in Hpre as [-> Hpre]; [|by rewrite length_be_put].
  rewrite (wrap_id 32), be_get_put_id by done. destruct (_ <? _); [done|]. rewrite Nat2Z.id.
  destruct (ReadFull r1 _) as [[comp r2]|] eqn:E2; [|done]. apply ReadFull_ok in E2 as (E2 & L2 & _).
  rewrite E2 in Hpre. rewrite <- (app_nil_r (EncodeLazyBatch b)) in Hpre. apply prefix_split in Hpre as [-> _]; [|done].
  intros (b0 & Hb & [= <- <-])%bind_ok e. unfold DecodeLazyBatch, EncodeLazyBatch in Hb. rewrite DecodeAll_EncodeAll in Hb.
  rewrite (deserialize_serialize_take _ _ Hes Hb). intros (i & Hi & _)%elem_of_take. by eapply list_elem_of_lookup_2.
Qed.

(** ** Repair *)

Lemma answer_request n rs t x :
  cn_table n = table rs → Forall keeps_eager_stream rs → in_word 16 t → in_word 64 x →
  answer n WOk WOk (repair_request t x) =
    match cache (ge_repair (cn_engine n)) !! mkTopicSeq t x with Some p => x01 :: p | None => [x00] end.
Proof.
  intros Ht Hrs Hwt Hwx. unfold answer, repair_request, dispatchBidiStream, getRepair. cbn [app]. rewrite ReadFull_one, Ht.
  destruct (app_regs_keep noHandlers rs Hrs) as (_ & _ & K3 & _). fold (table rs) in K3. rewrite decide_True, K3 by done.
  unfold HandleRequest. rewrite <- (app_nil_r (be_put 8 x)), app_assoc.
  rewrite ReadFull_app by (rewrite length_app, !length_be_put; lia).
  rewrite take_app_length', drop_app_length', !be_get_put_id by (rewrite ?length_be_put; done). by destruct (cache _ !! _).
Qed.

(** An honest peer gives what its cache holds. *)
Lemma honest_pull nodes p conn t x e :
  honest nodes p conn → (∀ n, nodes !! op_Addr p = Some n → ∃ rs, Forall keeps_eager_stream rs ∧ cn_table n = table rs) →
  in_word 16 t → in_word 64 x → pullFromPeer conn t x = Ok (Some e) →
  ∃ n, nodes !! op_Addr p = Some n ∧ cache (ge_repair (cn_engine n)) !! mkTopicSeq t x = Some (Payload e) ∧ e = mkEntry t x (Payload e).
Proof.
  intros Hh Htab Ht Hx. unfold pullFromPeer. destruct (pc_open conn) eqn:Ho; cbn [negb]; [|done].
  destruct (Hh Ho) as (n & Hn & Hresp). destruct (Htab n Hn) as (rs & Hrs & Htn).
  destruct (pc_write conn) as [|k]; cbn [negb write_ok written]; [|done].
  specialize (Hresp (repair_request t x)). destruct (pc_response conn (repair_request t x)) as [data err]. cbn [rd_data rd_end] in Hresp.
  destruct Hresp as (w1 & w2 & _ & Heof).
  destruct (ReadFull (mkReader data err) 1) as [[status r1]|] eqn:E1; [|done]. apply ReadFull_ok in E1 as (E1 & L1 & R1).
  case_decide as Hs; [done|]. unfold ReadAll. case_decide as He; [|done]. intros [= <-]. cbn [rd_data rd_end Payload] in *.
  rewrite R1 in He. destruct (Heof He) as (Hw1 & Hw2 & Hall). destruct w1; [|done]. destruct w2; [|done].
  rewrite (answer_request n rs t x), E1 in Hall by done. exists n. split; [done|].
  destruct status as [|b [|]]; [done| |done]. cbn [app] in Hall. destruct (cache _ !! _) as [pl|]; injection Hall as -> ->; done.
Qed.

(** ** The invariant *)

Definition logged (st : net) (e : GossipEntry) : Prop := e ∈ nt_log st.

Definition parcel_ok (P : GossipEntry → Prop) (p : parcel) : Prop :=
  match p with
  | PDatagram msg => ∃ e, P e ∧ msg = encodeEagerMessage e
  | PStream c =>
      (∃ es, Forall P es ∧ c `prefix_of` StreamTypeEagerStream :: frames es) ∨
      (∃ b, Forall P (Entries b) ∧ in_word 32 (Z.of_nat (length (EncodeLazyBatch b))) ∧
         c `prefix_of` StreamTypeLazyBatch :: WriteLazyBatch b)
  end.

Record node_ok (P : GossipEntry → Prop) (n : cluster_node) : Prop := {
  no_sound : sound P (cn_engine n);
  no_taken : ∀ d, d ∈ cn_taken n → P (delivered_entry d);
  no_table : ∃ rs, Forall keeps_eager_stream rs ∧ cn_table n = table rs;
}.

Record net_ok (P : GossipEntry → Prop) (st : net) : Prop := {
  nk_nodes : ∀ addr n, nt_nodes st !! addr = Some n → node_ok P n;
  nk_wire : ∀ to p, (to, p) ∈ nt_wire st → parcel_ok P p;
  nk_batches : ∀ addr to b, (addr, to, b) ∈ nt_batches st → Forall P (Entries b);
}.

Lemma sound_mono (P Q : GossipEntry → Prop) g : (∀ e, P e → Q e) → sound P g → sound Q g.
Proof.
  intros HPQ [H1 H2 H3 H4 H5 H6 H7]. split; try (by eauto using Forall_impl).
  - intros t. destruct (H4 t) as [? ?]. split; eauto.
  - intros a w Hw. destruct (H7 a w Hw) as [C1 C2]. split.
    + intros c Hc. destruct (C1 c Hc) as (es & ? & ?). exists es. eauto using Forall_impl.
    + intros s Hs. destruct (C2 s Hs) as (es & ? & ?). exists es. eauto using Forall_impl.
Qed.

Lemma parcel_ok_mono (P Q : GossipEntry → Prop) p : (∀ e, P e → Q e) → parcel_ok P p → parcel_ok Q p.
Proof.
  intros HPQ. destruct p as [msg|c]; cbn; [naive_solver|].
  intros [(es & ? & ?)|(b & ? & ? & ?)]; [left; exists es|right; exists b]; eauto using Forall_impl.
Qed.

Lemma net_ok_mono (P Q : GossipEntry → Prop) st : (∀ e, P e → Q e) → net_ok P st → net_ok Q st.
Proof.
  intros HPQ [H1 H2 H3]. split.
  - intros a n Hn. destruct (H1 a n Hn) as [? ? ?]. split; eauto using sound_mono.
  - intros to p Hp. eauto using parcel_ok_mono.
  - intros a to b Hb. eauto using Forall_impl.
Qed.

(** ** What handlers send *)

Definition out_ok (P : GossipEntry → Prop) (out : list sent) : Prop :=
  ∀ s, s ∈ out → ∃ e, P e ∧ (sent_to s).2 = encodeEagerMessage e.

Lemma out_ok_sent (P : GossipEntry → Prop) e peers out :
  P e → sent_to <$> out = (fun p => (op_Addr p, encodeEagerMessage e)) <$> peers → out_ok P out.
Proof.
  intros He Ho s Hs. exists e. split; [done|]. apply (list_elem_of_fmap_2 sent_to) in Hs. rewrite Ho in Hs.
  by apply list_elem_of_fmap in Hs as (p & -> & _).
Qed.

Lemma out_ok_nil P : out_ok P [].
Proof. by intros s ?%elem_of_nil. Qed.

Lemma process_out (P : GossipEntry → Prop) ev recv dup from g e : P e → out_ok P (process ev recv dup from g e).2.
Proof.
  intros He. unfold process. destruct (ShouldProcess _ _ _) as [[] s']; [|apply out_ok_nil].
  eapply out_ok_sent; [exact He|apply (ac_out _ _ _ _ _ _ (accept_spec _ _ _ _))].
Qed.

Lemma process_all_out (P : GossipEntry → Prop) ev from g es : Forall P es → out_ok P (process_all ev from g es).2.
Proof.
  intros Hes. unfold process_all. assert (out_ok P (g, @nil sent).2) as H0 by apply out_ok_nil.
  revert H0. generalize (g, @nil sent) as acc. induction Hes as [|e es He _ IH]; intros [g0 out] H0; [done|]. cbn [foldl].
  apply IH. pose proof (process_out P ev LazyRecv LazyDup from g0 e He) as H1. destruct (process _ _ _ _ g0 e) as [g1 out1].
  cbn [snd] in *. intros s [?|?]%elem_of_app; auto.
Qed.

Lemma datagrams_ok (P : GossipEntry → Prop) out to p : out_ok P out → (to, p) ∈ datagrams out → parcel_ok P p.
Proof.
  intros Ho (s & Hs & Heq)%list_elem_of_omap. destruct (Ho s Hs) as (e & He & Hm).
  destruct s as [addr msg []|]; [|done..]. injection Heq as <- <-. by exists e.
Qed.

Lemma emits_ok (P : GossipEntry → Prop) g a to p : sound P g → act_sound P g a → (to, p) ∈ emits g a → parcel_ok P p.
Proof.
  intros Hg Ha. destruct a as [t q pl|ev| |ev from data|ev from r|i conns|t q|o| |b o]; cbn [emits]; try (by intros ?%elem_of_nil).
  - unfold run_local. destruct (localCh g) as [|e rest] eqn:E; [by intros ?%elem_of_nil|].
    pose proof (so_local _ _ Hg) as Hl. rewrite E in Hl. apply Forall_cons in Hl as [He _].
    pose proof (handleLocal_sent ev (set_localCh rest g) e) as Hs. destruct (handleLocal _ _ _) as [g1 out].
    apply datagrams_ok. by eapply out_ok_sent.
  - apply datagrams_ok. unfold onEagerReceive. cbn in Ha. destruct (decodeEagerMessage data) as [e|]; [|apply out_ok_nil].
    by apply process_out, Ha.
  - apply datagrams_ok. unfold onLazyBatchReceive. cbn in Ha. destruct (ReadLazyBatch r) as [[batch r']|]; [|apply out_ok_nil].
    by eapply process_all_out, Ha.
Qed.

Lemma sent_batch_prefix g b o content :
  (sendLazyBatch g b o).2 = Some content → content `prefix_of` StreamTypeLazyBatch :: WriteLazyBatch b.
Proof.
  unfold sendLazyBatch, WriteLazyBatch. destruct (bo_open o); [|done]. cbn [negb].
  destruct (bo_type o) as [|k]; cbn [negb write_ok written].
  2: { intros [= <-]. etrans; [apply (written_prefix (WFail k) [StreamTypeLazyBatch])|]. by eexists. }
  set (comp := EncodeLazyBatch b). generalize (be_put 4 (u32 (Z.of_nat (length comp)))) as hdr. intros hdr.
  destruct (bo_len o) as [|k]; cbn [negb write_ok written].
  2: { intros [= <-]. apply prefix_cons. etrans; [apply (written_prefix (WFail k) hdr)|]. by eexists. }
  destruct (bo_data o) as [|k]; cbn [negb write_ok written]; intros [= <-]; cbn [app]; [done|].
  apply prefix_cons, prefix_app. apply (written_prefix (WFail k) comp).
Qed.

(** ** What arrives *)

Lemma prefix_heads (b b' : byte) body l : b :: body `prefix_of` b' :: l → b = b' ∧ body `prefix_of` l.
Proof. intros H. split; [by eapply prefix_cons_inv_1|by eapply prefix_cons_inv_2]. Qed.

Lemma datagram_brings (P : GossipEntry → Prop) ev rs from msg a :
  (∀ e, P e → sendable e) → parcel_ok P (PDatagram msg) → a ∈ engine_calls ev (table rs) from (InDatagram msg) →
  ∀ g, act_sound P g a.
Proof.
  intros HP (e0 & He0 & Hmsg) (data & Hd & ->)%calls_of_datagram g e Hdec. destruct (HP e0 He0) as [Hok _].
  pose proof (decode_encode e0 Hok) as Hde. rewrite <- Hmsg, Hd in Hde. cbn [strip_type] in Hde.
  rewrite decide_True in Hde by done. congruence.
Qed.

Lemma stream_brings (P : GossipEntry → Prop) ev rs from content pre err a :
  (∀ e, P e → sendable e) → Forall keeps_eager_stream rs → parcel_ok P (PStream content) → pre `prefix_of` content →
  a ∈ engine_calls ev (table rs) from (InUni (mkReader pre err)) → ∀ g, act_sound P g a.
Proof.
  intros HP Hrs Hc Hpre Ha g. apply calls_of_stream in Ha; [|done].
  destruct Ha as [(body & -> & ->)|(body & data & -> & Hd & ->)]; destruct Hc as [(es & Hes & Hc)|(b & Hes & Hsz & Hc)];
    pose proof (prefix_heads _ _ _ _ (transitivity Hpre Hc)) as [Ht Hb]; try done.
  - intros b' r' Hr. apply Forall_forall. intros e He. eapply Forall_forall; [exact Hes|].
    eapply ReadLazyBatch_part; [|exact Hsz|exact Hb|exact Hr|exact He]. eapply Forall_impl; [exact Hes|].
    intros e1 [Hok Hlen]%HP. split; [done|]. revert Hlen. unfold encodeEagerMessage. rewrite !length_app. unfold in_word. lia.
  - intros e Hdec. destruct (receive_loop_frames (S (length body)) es body err data) as (e0 & He0 & ->);
      [eapply Forall_impl; [exact Hes|exact HP]|done|exact Hd|].
    assert (P e0) as H0 by (by eapply Forall_forall). destruct (HP e0 H0) as [Hok _].
    rewrite decode_encode in Hdec by done. congruence.
Qed.

Lemma repair_brings (P : GossipEntry → Prop) st g conns i :
  net_ok P st → (∀ p, honest (nt_nodes st) p (conns p)) → act_sound P g (ATimer i conns).
Proof.
  intros [Hn _ _] Hh t x pl Ht Hx Hhit. unfold first_hit in Hhit. apply head_Some_elem_of in Hhit.
  apply list_elem_of_omap in Hhit as (p & _ & Hp). destruct (pullFromPeer (conns p) t x) as [[e|]|] eqn:E; [|done..].
  injection Hp as <-. destruct (honest_pull (nt_nodes st) p (conns p) t x e) as (n & Hn' & Hc & _); [done| |done|done|done|].
  { intros n Hn'. apply (no_table _ _ (Hn _ _ Hn')). }
  exact (so_cache _ _ (no_sound _ _ (Hn _ _ Hn')) _ _ Hc).
Qed.

Lemma allowed_sound (P : GossipEntry → Prop) st addr n a :
  (∀ e, P e → sendable e) → net_ok P st → nt_nodes st !! addr = Some n → allowed st addr n a →
  (∀ e, e ∈ enqueues a → P e) → act_sound P (cn_engine n) a.
Proof.
  intros HP Hst Hn Hal Henq. destruct (no_table _ _ (nk_nodes _ _ Hst _ _ Hn)) as (rs & Hrs & Ht).
  assert (∀ ev from p arr a, (addr, p) ∈ nt_wire st → arrives p arr → a ∈ engine_calls ev (cn_table n) from arr →
    act_sound P (cn_engine n) a) as Hrecv.
  { intros ev from p arr a' Hp Harr Hin. rewrite Ht in Hin. pose proof (nk_wire _ _ Hst _ _ Hp) as Hpk.
    destruct Harr as [msg|content pre err Hpre]; [by eapply datagram_brings|by eapply stream_brings]. }
  destruct a as [t q pl|ev| |ev from data|ev from r|i conns|t q|o| |b o]; try done.
  - apply Henq. by left.
  - destruct Hal as (p & arr & H1 & H2 & H3). by eapply Hrecv.
  - destruct Hal as (p & arr & H1 & H2 & H3). by eapply Hrecv.
  - by eapply repair_brings.
Qed.

(** ** Every move keeps the invariant *)

Lemma put_node_ok (P : GossipEntry → Prop) st addr n wire batches log :
  net_ok P st → node_ok P n → (∀ to p, (to, p) ∈ wire → parcel_ok P p) →
  (∀ a to b, (a, to, b) ∈ batches → Forall P (Entries b)) →
  net_ok P (mkNet (<[addr := n]> (nt_nodes st)) wire batches log).
Proof.
  intros [H1 _ _] Hn Hw Hb. split; [|exact Hw|exact Hb]. cbn.
  intros a n' [[_ <-]|[_ ?]]%lookup_insert_Some; [done|by eapply H1].
Qed.

Lemma node_engine_ok (P : GossipEntry → Prop) n g taken :
  node_ok P n → sound P g → (∀ d, d ∈ taken → P (delivered_entry d)) →
  node_ok P (mkCNode g (cn_table n) (cn_taken n ++ taken)).
Proof. intros [_ H2 H3] Hg Ht. split; [done| |done]. cbn. intros d [?|?]%elem_of_app; auto. Qed.

Lemma act_ok (P : GossipEntry → Prop) st addr n a g' taken log :
  (∀ e, P e → sendable e) → net_ok P st → nt_nodes st !! addr = Some n → allowed st addr n a →
  (∀ e, e ∈ enqueues a → P e) → do_engine (cn_engine n) a = Some (g', taken) →
  net_ok P (mkNet (<[addr := mkCNode g' (cn_table n) (cn_taken n ++ taken)]> (nt_nodes st))
    (nt_wire st ++ emits (cn_engine n) a)
    (nt_batches st ++ ((fun '(to, b) => (addr, to, b)) <$> starts (cn_engine n) a)) log).
Proof.
  intros HP Hst Hn Hal Henq Hdo. pose proof (allowed_sound P st addr n a HP Hst Hn Hal Henq) as Hact.
  pose proof (nk_nodes _ _ Hst _ _ Hn) as Hnode. pose proof (no_sound _ _ Hnode) as Hs.
  destruct (do_engine_sound P (fun e He => proj1 (HP e He)) _ _ _ _ Hs Hact Hdo) as [Hg Ht].
  apply put_node_ok; [done|by apply node_engine_ok|..].
  - intros to p [?|Hp]%elem_of_app; [by eapply nk_wire|exact (emits_ok P _ _ _ _ Hs Hact Hp)].
  - intros a' to b [?|([to' b'] & [= -> -> ->] & Hb)%list_elem_of_fmap]%elem_of_app; [by eapply nk_batches|].
    destruct a; try (by apply elem_of_nil in Hb). cbn [starts] in Hb. by eapply (flush_sound P _ Hs).
Qed.

Lemma batch_ok (P : GossipEntry → Prop) st k addr n to b o g' content log :
  net_ok P st → nt_batches st !! k = Some (addr, to, b) → nt_nodes st !! addr = Some n →
  in_word 32 (Z.of_nat (length (EncodeLazyBatch b))) → sendLazyBatch (cn_engine n) b o = (g', content) →
  net_ok P (mkNet (<[addr := mkCNode g' (cn_table n) (cn_taken n)]> (nt_nodes st))
    (nt_wire st ++ ((fun c => (to, PStream c)) <$> option_list content)) (delete k (nt_batches st)) log).
Proof.
  intros Hst Hk Hn Hsz Hsend. destruct (nk_nodes _ _ Hst _ _ Hn) as [H1 H2 H3].
  assert (Forall P (Entries b)) as Hb by (eapply (nk_batches _ _ Hst); by eapply list_elem_of_lookup_2).
  apply put_node_ok; [done|..].
  - split; [|done|done]. cbn. revert Hsend. unfold sendLazyBatch. repeat case_match; intros [= <- _]; by repeat apply sound_stat.
  - intros to' p [?|(c & [= -> ->] & Hc)%list_elem_of_fmap]%elem_of_app; [by eapply nk_wire|].
    destruct content as [c'|]; [|by apply elem_of_nil in Hc]. apply list_elem_of_singleton in Hc as ->.
    right. exists b. split_and!; [done|done|]. eapply (sent_batch_prefix (cn_engine n) b o). by rewrite Hsend.
  - intros a' to' b' Hin. eapply (nk_batches _ _ Hst). eapply elem_of_submseteq; [exact Hin|].
    apply sublist_submseteq, sublist_delete.
Qed.

Lemma writer_parcel_ok (P : GossipEntry → Prop) w c : writer_sound P w → c ∈ contents w → parcel_ok P (PStream c).
Proof.
  intros [H1 H2] [Hc|Hc]%elem_of_app; left; [by apply H1|]. destruct (stream w) as [s|]; [|by apply elem_of_nil in Hc].
  apply list_elem_of_singleton in Hc as ->. destruct (H2 s eq_refl) as (es & ? & ->). by exists es.
Qed.

Lemma enqueues_sendable st addr n a : allowed st addr n a → Forall sendable (enqueues a).
Proof. destruct a as [t q p| | | | | | | | |]; cbn; intros Ha; constructor; [exact Ha|constructor]. Qed.

Lemma net_move_ok st st' :
  Forall sendable (nt_log st) ∧ net_ok (logged st) st → net_move st st' →
  Forall sendable (nt_log st') ∧ net_ok (logged st') st'.
Proof.
  intros [Hlog Hst] Hmove. destruct Hmove as [st addr o cfg rs _ Hrs|st addr|st addr n a g' taken Hn Hal Hdo|
    st k addr n to b o g' content Hk Hn Hsz Hsend|st addr n to w c Hn Hw Hc].
  - split; [done|]. apply put_node_ok; [exact Hst| |apply (nk_wire _ _ Hst)|apply (nk_batches _ _ Hst)].
    split; [apply New_sound|by intros d ?%elem_of_nil|by exists rs].
  - split; [done|]. destruct Hst as [H1 H2 H3]. split; [|done|done]. cbn. intros a n [_ ?]%lookup_delete_Some. by eapply H1.
  - assert (Forall sendable (nt_log st ++ enqueues a)) as Hlog' by (apply Forall_app_2; [done|by eapply enqueues_sendable]).
    split; [done|]. eapply (act_ok _ st addr n a); try done.
    + intros e He. by eapply Forall_forall.
    + eapply net_ok_mono; [|exact Hst]. intros e He. apply elem_of_app. by left.
    + intros e He. apply elem_of_app. by right.
  - split; [done|]. by eapply batch_ok.
  - split; [done|]. destruct Hst as [H1 H2 H3]. split; [done| |done]. cbn.
    intros to' p [?|[= -> ->]%list_elem_of_singleton]%elem_of_app; [by eapply H2|].
    eapply writer_parcel_ok; [|exact Hc]. by eapply (so_streams _ _ (no_sound _ _ (H1 _ _ Hn))).
Qed.

(** ** Theorems *)

(** C1: Nothing is made up.  In a cluster in which nodes join and crash at any time,
    and in which the network repeats, reorders, loses and cuts off what was sent
    as it likes, everything that any consumer takes, and everything that waits
    for one, was enqueued by an application on some node, with that topic,
    number and payload. *)
Theorem gossip_integrity st addr n
    (Hrun : rtc net_move emptyNet st) (Hn : nt_nodes st !! addr = Some n) :
  ∀ d, d ∈ cn_taken n ++ deliverCh (cn_engine n) → delivered_entry d ∈ nt_log st.
Proof.
  assert (Forall sendable (nt_log st) ∧ net_ok (logged st) st) as [_ Hst].
  { eapply (rtc_ind_r (fun st => Forall sendable (nt_log st) ∧ net_ok (logged st) st)); [| |exact Hrun].
    - split; [constructor|]. split; [|by intros ? ? ?%elem_of_nil|by intros ? ? ? ?%elem_of_nil].
      intros a n'. cbn. by rewrite lookup_empty.
    - intros st1 st2 _ Hmove Hok. by eapply net_move_ok. }
  destruct (nk_nodes _ _ Hst _ _ Hn) as [Hs Ht _]. intros d [?|?]%elem_of_app; [by apply Ht|by apply (so_deliver _ _ Hs)].
Qed.

End Net.

(** ** A run *)

Inductive command :=
| KJoin (addr : string) (o : Overlay)
| KAct (addr : string) (a : engine_act)
| KReceive (addr : string) (k : nat) (ev : env) (from : string).   (** the [k]-th parcel, a datagram *)

Section Play.
Context `{HZ : Zstd}.

Definition act_at (st : net) (addr : string) (a : engine_act) : net :=
  match nt_nodes st !! addr with
  | None => st
  | Some n =>
      match do_engine (cn_engine n) a with
      | None => st
      | Some (g', taken) =>
          mkNet (<[addr := mkCNode g' (cn_table n) (cn_taken n ++ taken)]> (nt_nodes st))
            (nt_wire st ++ emits (cn_engine n) a)
            (nt_batches st ++ ((fun '(to, b) => (addr, to, b)) <$> starts (cn_engine n) a))
            (nt_log st ++ enqueues a)
      end
  end.

Definition play_one (st : net) (c : command) : net :=
  match c with
  | KJoin addr o =>
      match nt_nodes st !! addr with
      | Some _ => st
      | None =>
          mkNet (<[addr := mkCNode (Engine.New o (mkEngineConfig 0 0 0 0)) (table []) []]> (nt_nodes st))
            (nt_wire st) (nt_batches st) (nt_log st)
      end
  | KAct addr a => act_at st addr a
  | KReceive addr k ev from =>
      match nt_wire st !! k, nt_nodes st !! addr with
      | Some (to, PDatagram msg), Some n =>
          if decide (to = addr) then
            match engine_calls ev (cn_table n) from (InDatagram msg) with
            | AEager ev' from' data :: _ =>
                if decide (from' = from) then act_at st addr (AEager ev from data) else st
            | _ => st
            end
          else st
      | _, _ => st
      end
  end.

Definition command_ok (c : command) : Prop :=
  match c with
  | KAct _ (AEnqueue t q p) => sendable (mkEntry t q p)
  | KAct _ (AEager _ _ _) | KAct _ (ALazy _ _ _) | KAct _ (ATimer _ _) | KAct _ (ABatchDone _ _) => False
  | _ => True
  end.

Lemma act_at_moves st addr a :
  (∀ n, nt_nodes st !! addr = Some n → allowed st addr n a) → rtc net_move st (act_at st addr a).
Proof.
  intros Hal. unfold act_at. destruct (nt_nodes st !! addr) as [n|] eqn:Hn; [|done].
  destruct (do_engine (cn_engine n) a) as [[g' taken]|] eqn:Hdo; [|done]. apply rtc_once, nm_act; [done|by apply Hal|done].
Qed.

Lemma play_moves st cs : Forall command_ok cs → rtc net_move st (foldl play_one st cs).
Proof.
  intros Hcs. revert st. induction Hcs as [|c cs Hc _ IH]; intros st; [done|]. cbn [foldl]. etrans; [|apply IH].
  destruct c as [addr o|addr a|addr k ev from]; cbn [play_one].
  - destruct (nt_nodes st !! addr) eqn:E; [done|]. by apply rtc_once, nm_join.
  - apply act_at_moves. intros n _. by destruct a.
  - destruct (nt_wire st !! k) as [[to [msg|]]|] eqn:Hk; [|done..]. destruct (nt_nodes st !! addr) as [n|] eqn:Hn; [|done].
    destruct (decide (to = addr)) as [->|]; [|done].
    destruct (engine_calls ev (cn_table n) from (InDatagram msg)) as [|[| | |ev' from' data| | | | | |] l] eqn:E; try done.
    destruct (decide (from' = from)) as [->|]; [|done]. apply act_at_moves. intros n' Hn'. assert (n' = n) as -> by congruence.
    exists (PDatagram msg), (InDatagram msg). split_and!; [by eapply list_elem_of_lookup_2|constructor|].
    cbn [engine_calls] in *. destruct (receiveDatagram (cn_table n) msg) as [[[] d]|]; try done.
    injection E as _ -> _. by left.
Qed.
End Play.

(** One node enqueues an entry, another takes it. *)
Definition two_nodes : net :=
  foldl (play_one (HZ := stored_zstd)) emptyNet
    [KJoin "c:1" two_peers; KJoin "a:1" (Overlay.New "a" (mkOverlayConfig 0 0 0 0)); KAct "a:1" (AInitial 1 6);
     KAct "c:1" (AEnqueue 1 7 [x61]); KAct "c:1" (ALocal quiet_env); KReceive "a:1" 0 quiet_env "c:1"; KAct "a:1" AConsume].

Lemma two_nodes_reachable : rtc (net_move (HZ := stored_zstd)) emptyNet two_nodes.
Proof. apply play_moves. repeat constructor; vm_compute; discriminate. Qed.

Definition receiver : cluster_node :=
  default (mkCNode two_peer_engine (table []) []) (nt_nodes two_nodes !! "a:1"%string).

Lemma receiver_joined : nt_nodes two_nodes !! "a:1"%string = Some receiver.
Proof.
  assert (match nt_nodes two_nodes !! "a:1"%string with Some _ => true | None => false end = true) as H by (vm_compute; reflexivity).
  unfold receiver. by destruct (nt_nodes two_nodes !! "a:1"%string).
Qed.

Lemma gossip_integrity_witness :
  cn_taken receiver = [mkDelivered 1 7 [x61]] ∧ (mkEntry 1 7 [x61] ∈ nt_log two_nodes).
Proof.
  split; [vm_compute; reflexivity|].
  refine (gossip_integrity (HZ := stored_zstd) two_nodes "a:1" receiver two_nodes_reachable receiver_joined (mkDelivered 1 7 [x61]) _).
  vm_compute. left.
Defined.
