(* ===== verification/Spread.v ===== *)
(** * Eventual dissemination over the eager links of a cluster

    Runs of [Cluster] in which nobody crashes, the overlays are settled and the
    sends succeed, over a network that still delays, reorders and repeats.  Such
    a run is fair when every datagram on its way to a node is handled there at
    some time and every node whose application has enqueued something gets to
    process it.  Then every entry reaches every node that a path of eager links
    leads to: the node's high-water mark of the topic gets to the entry's number,
    so it has processed that entry or a later one of the topic.

    The argument is the invariant [announced]: a node's mark is on its way to all
    its eager peers, or has been. *)

From S2P Require Import Prelude Seen Stream EagerWire Batch Ordered OrderedSpec OrderedRun Overlay Repair Engine EngineSpec EngineRun.
From S2P Require Import EngineSound Transport Listener Cluster.

(** ** What forwarding puts on the wire *)

Definition small (e : GossipEntry) : Prop := (length (encodeEagerMessage e) ≤ maxDatagramPayload)%nat.

Definition sends_succeed (ev : env) : Prop := ∀ p e, ev_datagram ev p e = true.

Definition announcement (e : GossipEntry) (p : OverlayPeer) : string * parcel :=
  (op_Addr p, PDatagram (encodeEagerMessage e)).

Lemma datagrams_app out1 out2 : datagrams (out1 ++ out2) = datagrams out1 ++ datagrams out2.
Proof. apply omap_app. Qed.

Lemma eagerForward_datagrams ev g e excl :
  small e → sends_succeed ev →
  datagrams (eagerForward ev g e excl).2 = announcement e <$> others excl (EagerPeers (ge_overlay g)).
Proof.
  intros Hs Hok. unfold eagerForward. generalize (EagerPeers (ge_overlay g)) as peers.
  induction peers as [|p peers IH] using rev_ind; [done|].
  rewrite foldl_app. cbn [foldl]. unfold others in *. rewrite filter_app, fmap_app, <- IH.
  destruct (foldl _ _ peers) as [g1 out]. cbn [fst snd forward_to]. rewrite filter_cons, filter_nil.
  destruct (decide (op_NodeID p = excl)) as [He|He].
  - rewrite decide_False by naive_solver. by rewrite app_nil_r.
  - rewrite decide_True by done. unfold small in Hs. rewrite (proj2 (Nat.ltb_ge _ _)) by done.
    cbn [snd]. by rewrite datagrams_app, Hok.
Qed.

Lemma accept_datagrams ev g from e :
  small e → sends_succeed ev →
  datagrams (accept ev g from e).2 = announcement e <$> others from (EagerPeers (ge_overlay g)).
Proof.
  intros Hs Hok. unfold accept. rewrite applier_receive_repair.
  pose proof (with_applier_performed g (Receive (ge_applier g) (Topic e) (Seq e) (Payload e))) as [_ _ R].
  fold (applier_receive g e) in R. injection R as Ro _ _ _ _ _ _.
  pose proof (eagerForward_datagrams ev (set_repair (CacheEntry (ev_first ev e) (ge_repair g) e) (applier_receive g e)) e from Hs Hok) as Hd.
  destruct (eagerForward _ _ _ _) as [g3 out]. cbn [snd] in *. rewrite Hd. cbn [ge_overlay set_repair]. by rewrite Ro.
Qed.

Lemma others_all excl peers p : excl ∉ op_NodeID <$> peers → p ∈ peers → p ∈ others excl peers.
Proof.
  intros Hx Hp. apply list_elem_of_filter. split; [|done]. intros <-. apply Hx, list_elem_of_fmap. eauto.
Qed.

(** ** Marks are announced *)

(** From [g] to [g'] with [wire] sent: the mark of [t] only rises, and a new mark
    is announced to every eager peer. *)
Record announces (P : GossipEntry → Prop) (t : Z) (g g' : GossipEngine) (wire : list (string * parcel)) : Prop := {
  an_overlay : ge_overlay g' = ge_overlay g;
  an_mono : CurrentSeq (ge_seen g) t ≤ CurrentSeq (ge_seen g') t;
  an_news : CurrentSeq (ge_seen g') t = CurrentSeq (ge_seen g) t ∨
    ∃ e, P e ∧ Topic e = t ∧ Seq e = CurrentSeq (ge_seen g') t ∧
      ∀ p, p ∈ EagerPeers (ge_overlay g) → announcement e p ∈ wire;
}.

Lemma announces_same (P : GossipEntry → Prop) t g g' wire :
  ge_overlay g' = ge_overlay g → ge_seen g' = ge_seen g → announces P t g g' wire.
Proof. intros Ho Hs. split; rewrite ?Hs; [done|lia|by left]. Qed.

Lemma announces_trans (P : GossipEntry → Prop) t g g1 g2 w1 w2 :
  announces P t g g1 w1 → announces P t g1 g2 w2 → announces P t g g2 (w1 ++ w2).
Proof.
  intros [O1 M1 N1] [O2 M2 N2]. split; [congruence|lia|].
  destruct N2 as [E2|(e & He & Ht & Hq & Hw)].
  - destruct N1 as [E1|(e & He & Ht & Hq & Hw)]; [left; congruence|right].
    exists e. split_and!; [done|done|congruence|]. intros p Hp. apply elem_of_app. left. by apply Hw.
  - right. exists e. split_and!; [done..|]. intros p Hp. apply elem_of_app. right. apply Hw. by rewrite O1.
Qed.

Lemma announces_from (P : GossipEntry → Prop) t g g0 g' wire :
  ge_overlay g0 = ge_overlay g → ge_seen g0 = ge_seen g → announces P t g0 g' wire → announces P t g g' wire.
Proof. intros Ho Hs H. apply (announces_trans P t g g0 g' [] wire); [by apply announces_same|done]. Qed.

Section Acts.
Context `{HZ : Zstd}.
Context (P : GossipEntry → Prop) (t : Z) (Hsmall : ∀ e, P e → Topic e = t → small e).

Lemma process_announces ev recv dup from g e :
  P e → sends_succeed ev → from ∉ op_NodeID <$> EagerPeers (ge_overlay g) →
  announces P t g (process ev recv dup from g e).1 (datagrams (process ev recv dup from g e).2).
Proof.
  intros He Hok Hf. pose proof (process_seen ev recv dup from g e t) as Hm.
  pose proof (process_frame ev recv dup from g e) as [= Ho _].
  split; [done|rewrite Hm; case_decide; subst; lia|].
  destruct (decide (Topic e = t)) as [Ht|]; [|left; done].
  destruct (decide (CurrentSeq (ge_seen g) (Topic e) < Seq e)) as [Hlt|]; [|left; rewrite Hm; subst; lia].
  right. exists e. rewrite process_fresh, accept_datagrams by auto. split_and!; [done|done| |].
  - rewrite process_fresh in Hm by done. rewrite Hm. lia.
  - intros p Hp. apply list_elem_of_fmap. exists p. split; [done|]. cbn. by apply others_all.
Qed.

Lemma process_all_announces ev from g es :
  Forall P es → sends_succeed ev → from ∉ op_NodeID <$> EagerPeers (ge_overlay g) →
  announces P t g (process_all ev from g es).1 (datagrams (process_all ev from g es).2).
Proof.
  intros Hes Hok Hf. unfold process_all.
  assert (announces P t g (g, @nil sent).1 (datagrams (g, @nil sent).2)) as H0 by (by apply announces_same).
  revert H0. generalize (g, @nil sent) as acc. induction Hes as [|e es He _ IH]; intros [g0 out] H0; [done|].
  cbn [foldl]. apply IH. pose proof (process_announces ev LazyRecv LazyDup from g0 e He Hok) as H1.
  destruct (process _ _ _ _ g0 e) as [g1 out1]. cbn [fst snd] in *. rewrite datagrams_app.
  eapply announces_trans; [exact H0|apply H1]. by rewrite (an_overlay _ _ _ _ _ H0).
Qed.

Lemma handleLocal_announces ev g e :
  P e → sends_succeed ev → ""%string ∉ op_NodeID <$> EagerPeers (ge_overlay g) →
  announces P t g (handleLocal ev g e).1 (datagrams (handleLocal ev g e).2) ∧
  Seq e ≤ CurrentSeq (ge_seen (handleLocal ev g e).1) (Topic e).
Proof.
  intros He Hok Hf. unfold handleLocal. set (g3 := set_repair _ _).
  pose proof (eagerForward_spec ev g3 e "") as [Fc _ _ _ _ _].
  pose proof (fun Hs => eagerForward_datagrams ev g3 e "" Hs Hok) as Hd.
  destruct (eagerForward ev g3 e "") as [g4 out]. cbn [fst snd] in *. injection Fc as Co Cs _ _ _ _ _ _.
  pose proof (CurrentSeq_ShouldProcess (ge_seen g) (Topic e) (Seq e)) as Hm.
  cbn [enqueueForLazy set_lazyBuffers ge_seen] in *. rewrite Cs. cbn [g3 set_repair ge_seen set_seen add_stat].
  split; [|rewrite Hm, decide_True by done; lia]. split.
  - by rewrite <- Co.
  - cbn [enqueueForLazy set_lazyBuffers ge_seen]. rewrite Cs. cbn [g3 set_repair ge_seen set_seen add_stat].
    rewrite Hm. case_decide; subst; lia.
  - cbn [enqueueForLazy set_lazyBuffers ge_seen]. rewrite Cs. cbn [g3 set_repair ge_seen set_seen add_stat].
    rewrite Hm. case_decide as Ht; [|by left].
    destruct (decide (CurrentSeq (ge_seen g) (Topic e) < Seq e)); [right|left; subst; lia].
    exists e. split_and!; [done|done|lia|]. intros p Hp. rewrite Hd by auto. apply list_elem_of_fmap. exists p.
    split; [done|]. by apply others_all.
Qed.

(** What a node in a settled cluster does: no reset of the topic, no change of
    the overlay, successful sends; a sender is named by its address, which is
    nobody's node ID, so nobody is left out. *)
Definition calm (g : GossipEngine) (a : engine_act) : Prop :=
  match a with
  | AOverlay _ => False
  | AInitial t' _ => t' ≠ t
  | ALocal ev => sends_succeed ev ∧ ""%string ∉ op_NodeID <$> EagerPeers (ge_overlay g)
  | AEager ev from _ | ALazy ev from _ => sends_succeed ev ∧ from ∉ op_NodeID <$> EagerPeers (ge_overlay g)
  | _ => True
  end.

(** The queue grows at its end, or its head has been processed. *)
Definition queue_moves (g g' : GossipEngine) : Prop :=
  (∃ l, localCh g' = localCh g ++ l) ∨
  (∃ e, localCh g = e :: localCh g' ∧ Seq e ≤ CurrentSeq (ge_seen g') (Topic e)).

Lemma act_announces g a g' taken :
  sound P g → act_sound P g a → calm g a → do_engine g a = Some (g', taken) →
  announces P t g g' (emits g a) ∧ queue_moves g g'.
Proof.
  intros Hs Ha Hc Hdo. pose proof (do_engine_frame _ _ _ _ Hdo) as Hf.
  assert (queue_frame g' = queue_frame g → queue_moves g g') as Hq.
  { intros [= _ E]. left. exists []. by rewrite app_nil_r. }
  destruct a as [t' q p|ev| |ev from data|ev from r|i conns|t' q|o| |b o]; cbn [do_engine emits] in *.
  - destruct Hf as [[= Ho Hl] _]. unfold Enqueue in Hdo. destruct (_ <? _)%nat; cbn in Hdo; [|done]. injection Hdo as <- <-.
    split; [by apply announces_same|]. left. by eexists.
  - destruct Hc as [Hok Hid]. unfold run_local in *. pose proof (so_local _ _ Hs) as Hl.
    destruct (localCh g) as [|e rest] eqn:E; cbn in Hdo; [done|]. apply Forall_cons in Hl as [He _].
    destruct (handleLocal_announces ev (set_localCh rest g) e He Hok Hid) as [[H1 H2 H3] Hm].
    destruct (handleLocal ev (set_localCh rest g) e) as [g1 out]. cbn [fst snd] in *. cbn in Hdo. injection Hdo as <- <-.
    split; [by split|]. right. destruct Hf as [_ (e' & [= <- Hr])]. exists e. by rewrite E, Hr.
  - injection Hdo as <- <-. split; [|by apply Hq]. unfold flushLazyBatches in *. destruct (foldl _ _ _); cbn in *.
    by apply announces_same.
  - injection Hdo as <- <-. split; [|by apply Hq]. destruct Hc as [Hok Hid]. unfold onEagerReceive. cbn in Ha.
    destruct (decodeEagerMessage data) as [e|]; [|by apply announces_same].
    eapply announces_from; [..|apply process_announces; auto]; done.
  - injection Hdo as <- <-. split; [|by apply Hq]. destruct Hc as [Hok Hid]. unfold onLazyBatchReceive. cbn in Ha.
    destruct (ReadLazyBatch r) as [[batch r']|]; [|by apply announces_same].
    eapply announces_from; [..|apply process_all_announces; [by eapply Ha|done|]];
      by destruct (lazyBuffers g !! from).
  - split; [|by apply Hq]. destruct (gap_timer g i conns) as [g1|] eqn:E; cbn in Hdo; [|done]. injection Hdo as <- <-.
    unfold gap_timer in E. destruct (ge_timers g !! i) as [[t' x]|]; cbn in E; [|done]. injection E as <-.
    pose proof (pf_rest _ _ _ _ (with_applier_performed (set_timers (delete i (ge_timers g)) g)
      (gapTimer (Some (RequestRepair (ge_overlay g) conns)) (ge_applier g) t' x))) as [= Ro Rs _ _ _ _ _].
    by apply announces_same.
  - injection Hdo as <- <-. split; [|by apply Hq].
    assert (CurrentSeq (ge_seen (SetInitialSeq g t' q)) t = CurrentSeq (ge_seen g) t) as Hm.
    { cbn. unfold SetTopicSeq. case_match; autorewrite with seen; by rewrite decide_False. }
    split; rewrite ?Hm; [done|lia|by left].
  - done.
  - unfold consume in Hdo. destruct (deliverCh g); cbn in Hdo; [done|]. injection Hdo as <- <-. split; [by apply announces_same|by apply Hq].
  - injection Hdo as <- <-. split; [|by apply Hq]. unfold sendLazyBatch. apply announces_same; by repeat case_match.
Qed.
End Acts.

(** ** Settled clusters *)

Definition mark (n : cluster_node) (t : Z) : Z := CurrentSeq (ge_seen (cn_engine n)) t.

Definition eager_links (n : cluster_node) : list OverlayPeer := EagerPeers (ge_overlay (cn_engine n)).

Section Settled.
Context `{HZ : Zstd} `{HS : !ZstdSpec HZ} (t : Z).

(** A move of [Cluster] that is neither a crash nor an action that is not calm,
    or no move. *)
Inductive steady : net → net → Prop :=
| sm_stay st : steady st st
| sm_join st addr o cfg rs :
    nt_nodes st !! addr = None → Forall keeps_eager_stream rs →
    steady st (mkNet (<[addr := mkCNode (Engine.New o cfg) (table rs) []]> (nt_nodes st)) (nt_wire st) (nt_batches st) (nt_log st))
| sm_act st addr n a :
    nt_nodes st !! addr = Some n → allowed st addr n a → calm t (cn_engine n) a → steady st (act_at st addr a)
| sm_batch st k addr n to b o g' content :
    nt_batches st !! k = Some (addr, to, b) → nt_nodes st !! addr = Some n →
    in_word 32 (Z.of_nat (length (EncodeLazyBatch b))) →
    sendLazyBatch (cn_engine n) b o = (g', content) →
    steady st
      (mkNet (<[addr := mkCNode g' (cn_table n) (cn_taken n)]> (nt_nodes st))
         (nt_wire st ++ ((fun c => (to, PStream c)) <$> option_list content))
         (delete k (nt_batches st)) (nt_log st))
| sm_stream st addr n to w c :
    nt_nodes st !! addr = Some n → eagerStreams (cn_engine n) !! to = Some w → c ∈ contents w →
    steady st (mkNet (nt_nodes st) (nt_wire st ++ [(to, PStream c)]) (nt_batches st) (nt_log st)).

Lemma steady_moves st st' : steady st st' → rtc net_move st st'.
Proof.
  intros [st0|st0 addr o cfg rs H1 H2|st0 addr n a Hn Hal _|st0 k addr n to b o g' content H1 H2 H3 H4|st0 addr n to w c H1 H2 H3].
  - done.
  - by apply rtc_once, nm_join.
  - apply act_at_moves. intros n' Hn'. by simplify_eq.
  - apply rtc_once. by eapply nm_batch.
  - apply rtc_once. by eapply nm_stream.
Qed.

(** Every mark is on its way to every eager peer, or was. *)
Definition marks_announced (st : net) : Prop :=
  ∀ addr n, nt_nodes st !! addr = Some n → 0 < mark n t →
  ∃ e, e ∈ nt_log st ∧ Topic e = t ∧ Seq e = mark n t ∧ ∀ p, p ∈ eager_links n → announcement e p ∈ nt_wire st.

Definition good (st : net) : Prop :=
  Forall sendable (nt_log st) ∧ net_ok (logged st) st.

Lemma rtc_good st st' : good st → rtc net_move st st' → good st'.
Proof. intros Hg Hr. induction Hr as [|x y z Hxy _ IH]; [done|]. apply IH. by eapply net_move_ok. Qed.

(** What a steady move leaves of a node, of the wire and of the log. *)
Record keeps (st st' : net) : Prop := {
  kp_nodes : ∀ addr n, nt_nodes st !! addr = Some n →
    ∃ n', nt_nodes st' !! addr = Some n' ∧ eager_links n' = eager_links n ∧ mark n t ≤ mark n' t ∧
      queue_moves (cn_engine n) (cn_engine n');
  kp_wire : ∀ x, x ∈ nt_wire st → x ∈ nt_wire st';
  kp_log : ∀ e, e ∈ nt_log st → e ∈ nt_log st';
}.

Lemma queue_moves_refl g : queue_moves g g.
Proof. left. exists []. by rewrite app_nil_r. Qed.

(** One node changes, and the rest grows. *)
Lemma keeps_update st addr n n' wire batches log :
  nt_nodes st !! addr = Some n → eager_links n' = eager_links n → mark n t ≤ mark n' t →
  queue_moves (cn_engine n) (cn_engine n') →
  keeps st (mkNet (<[addr := n']> (nt_nodes st)) (nt_wire st ++ wire) batches (nt_log st ++ log)).
Proof.
  intros Hn Hl Hm Hq. split; cbn; [|intros; apply elem_of_app; by left..].
  intros a n0 Hn0. destruct (decide (a = addr)) as [->|Hne].
  - simplify_eq. exists n'. by rewrite lookup_insert_eq.
  - exists n0. rewrite lookup_insert_ne by done. split_and!; [done|done|lia|apply queue_moves_refl].
Qed.

(** The announcements of a state are kept where the marks are. *)
Lemma announced_update st addr n n' wire batches log :
  marks_announced st → nt_nodes st !! addr = Some n → eager_links n' = eager_links n →
  (mark n' t = mark n t ∨ ∃ e, e ∈ nt_log st ++ log ∧ Topic e = t ∧ Seq e = mark n' t ∧
     ∀ p, p ∈ eager_links n → announcement e p ∈ wire) →
  marks_announced (mkNet (<[addr := n']> (nt_nodes st)) (nt_wire st ++ wire) batches (nt_log st ++ log)).
Proof.
  intros Hinv Hn Hl Hnews a n0 Hn0 Hpos. cbn in *.
  assert (∀ n1, nt_nodes st !! a = Some n1 → mark n1 t = mark n0 t → eager_links n0 = eager_links n1 → ∃ e,
    e ∈ nt_log st ++ log ∧ Topic e = t ∧ Seq e = mark n0 t ∧
    ∀ p, p ∈ eager_links n0 → announcement e p ∈ nt_wire st ++ wire) as Hold.
  { intros n1 Hn1 Hm Hl1. destruct (Hinv a n1 Hn1) as (e & He & Ht & Hq & Hw); [lia|].
    exists e. split_and!; [apply elem_of_app; by left|done|lia|]. intros p Hp. apply elem_of_app. left. apply Hw. by rewrite <- Hl1. }
  apply lookup_insert_Some in Hn0 as [[<- <-]|[_ Hn0]]; [|by eapply Hold].
  destruct Hnews as [Hm|(e & He & Ht & Hq & Hw)]; [by eapply Hold|].
  exists e. split_and!; [done..|]. intros p Hp. apply elem_of_app. right. apply Hw. by rewrite <- Hl.
Qed.

Lemma keeps_refl st : keeps st st.
Proof. split; [|done..]. intros a n Hn. exists n. split_and!; [done|done|lia|apply queue_moves_refl]. Qed.

Lemma act_keeps st addr n a :
  good st → nt_nodes st !! addr = Some n → allowed st addr n a → calm t (cn_engine n) a →
  (∀ e, e ∈ nt_log (act_at st addr a) → Topic e = t → small e) →
  keeps st (act_at st addr a) ∧ (marks_announced st → marks_announced (act_at st addr a)).
Proof.
  intros [Hlog Hok] Hn Hal Hc Hsm. unfold act_at in *. rewrite Hn in *.
  destruct (do_engine (cn_engine n) a) as [[g' taken]|] eqn:Hdo; [|split; [apply keeps_refl|done]]. cbn [nt_log] in Hsm.
  set (P := fun e => e ∈ nt_log st ++ enqueues a).
  assert (Forall sendable (nt_log st ++ enqueues a)) as Hlog' by (apply Forall_app_2; [done|by eapply enqueues_sendable]).
  assert (net_ok P st) as Hok'.
  { eapply net_ok_mono; [|exact Hok]. intros e He. apply elem_of_app. by left. }
  assert (act_sound P (cn_engine n) a) as Ha.
  { eapply allowed_sound; try done; [intros e He; by eapply Forall_forall|]. intros e He. apply elem_of_app. by right. }
  destruct (act_announces P t Hsm (cn_engine n) a g' taken (no_sound _ _ (nk_nodes _ _ Hok' _ _ Hn)) Ha Hc Hdo)
    as [[Ho Hm Hnews] Hq].
  assert (eager_links (mkCNode g' (cn_table n) (cn_taken n ++ taken)) = eager_links n) as Hl
    by (unfold eager_links; cbn; by rewrite Ho).
  split; [by apply (keeps_update st addr n)|]. intros Hinv. apply (announced_update st addr n); [done|done|done|].
  destruct Hnews as [E|(e & He & Ht & Hs & Hw)]; [by left|right]. by exists e.
Qed.

Lemma steady_keeps st st' :
  good st → steady st st' → (∀ e, e ∈ nt_log st' → Topic e = t → small e) →
  keeps st st' ∧ (marks_announced st → marks_announced st').
Proof.
  intros Hg Hst Hsm.
  destruct Hst as [st|st addr o cfg rs H1 H2|st addr n a Hn Hal Hc|st k addr n to b o g' content H1 Hn H3 Hs|st addr n to w c H1 H2 H3].
  - split; [apply keeps_refl|done].
  - split.
    + split; [|done..]. intros a n Hn. exists n. cbn. rewrite lookup_insert_ne by congruence.
      split_and!; [done|done|lia|apply queue_moves_refl].
    + intros Hinv a n0 Hn0 Hpos. cbn in Hn0.
      apply lookup_insert_Some in Hn0 as [[<- <-]|[_ Hn0]]; [|by apply (Hinv a n0)].
      change (0 < CurrentSeq emptySeen t) in Hpos. rewrite CurrentSeq_empty in Hpos. lia.
  - by apply act_keeps with n.
  - assert (ge_overlay g' = ge_overlay (cn_engine n) ∧ ge_seen g' = ge_seen (cn_engine n) ∧ localCh g' = localCh (cn_engine n)) as (Ho & He & Hl).
    { revert Hs. unfold sendLazyBatch. repeat case_match; by intros [= <- _]. }
    rewrite <- (app_nil_r (nt_log st)). split.
    + apply (keeps_update st addr n); [done|unfold eager_links; cbn; by rewrite Ho|unfold mark; cbn; rewrite He; lia|].
      left. exists []. cbn. by rewrite app_nil_r.
    + intros Hinv. apply (announced_update st addr n); [done|done|unfold eager_links; cbn; by rewrite Ho|].
      left. unfold mark. cbn. by rewrite He.
  - split.
    + split; [|cbn; intros; apply elem_of_app; by left|done]. intros a n0 Hn0. exists n0.
      split_and!; [done|done|lia|apply queue_moves_refl].
    + intros Hinv a n0 Hn0 Hpos. destruct (Hinv a n0 Hn0 Hpos) as (e & He & Ht & Hs & Hw). exists e.
      split_and!; [done..|]. intros p Hp. cbn. apply elem_of_app. left. by apply Hw.
Qed.

(** ** Fair runs *)

(** At step [k] the node at [to] handles the datagram [msg]. *)
Definition handled_at (ex : nat → net) (k : nat) (to : string) (msg : bytes) : Prop :=
  ∃ ev from data n, msg = MsgTypeEagerGossip :: data ∧ nt_nodes (ex k) !! to = Some n ∧
    ex (S k) = act_at (ex k) to (AEager ev from data).

(** A run of a settled cluster from the beginning.  Entries of the topic fit in
    a datagram; what is sent to a node is handled there at some time, in any
    order and any number of times; a node with a local entry gets to process
    its queue. *)
Record fair_run (ex : nat → net) : Prop := {
  fr_start : ex 0%nat = emptyNet;
  fr_steps : ∀ k, steady (ex k) (ex (S k));
  fr_small : ∀ k e, e ∈ nt_log (ex k) → Topic e = t → small e;
  fr_handled : ∀ k to msg, (to, PDatagram msg) ∈ nt_wire (ex k) → is_Some (nt_nodes (ex k) !! to) →
    ∃ k', handled_at ex k' to msg;
  fr_local : ∀ k a n, nt_nodes (ex k) !! a = Some n → localCh (cn_engine n) ≠ [] →
    ∃ k' ev, (k ≤ k')%nat ∧ ex (S k') = act_at (ex k') a (ALocal ev);
}.

(** A path of eager links between nodes. *)
Definition link (st : net) (a b : string) : Prop :=
  ∃ n p, nt_nodes st !! a = Some n ∧ p ∈ eager_links n ∧ op_Addr p = b ∧ is_Some (nt_nodes st !! b).

Section Fair.
Context (ex : nat → net) (Hex : fair_run ex).

Lemma run_good k : good (ex k) ∧ marks_announced (ex k).
Proof.
  induction k as [|k [IH1 IH2]].
  - rewrite (fr_start _ Hex). split.
    + split; [constructor|]. split; [|by intros ? ? ?%elem_of_nil|by intros ? ? ? ?%elem_of_nil].
      intros a n. cbn. by rewrite lookup_empty.
    + intros a n. cbn. by rewrite lookup_empty.
  - split; [eapply rtc_good, steady_moves, (fr_steps _ Hex k); exact IH1|].
    by apply (steady_keeps _ _ IH1 (fr_steps _ Hex k) (fr_small _ Hex (S k))).
Qed.

Lemma run_keeps k : keeps (ex k) (ex (S k)).
Proof. apply (steady_keeps _ _ (proj1 (run_good k)) (fr_steps _ Hex k) (fr_small _ Hex (S k))). Qed.

(** What a node is at a later time. *)
Lemma later_node k j a n :
  nt_nodes (ex k) !! a = Some n → (k ≤ j)%nat →
  ∃ n', nt_nodes (ex j) !! a = Some n' ∧ eager_links n' = eager_links n ∧ mark n t ≤ mark n' t.
Proof.
  intros Hn Hle. induction Hle as [|j _ (n1 & Hn1 & Hl1 & Hm1)]; [exists n; by split_and!|].
  destruct (kp_nodes _ _ (run_keeps j) _ _ Hn1) as (n2 & Hn2 & Hl2 & Hm2 & _).
  exists n2. split_and!; [done|congruence|lia].
Qed.

Lemma later_wire k j x : x ∈ nt_wire (ex k) → (k ≤ j)%nat → x ∈ nt_wire (ex j).
Proof. intros Hx Hle. induction Hle as [|j _ IH]; [done|]. by apply (kp_wire _ _ (run_keeps j)). Qed.

(** Handling an entry's datagram raises the mark to it. *)
Lemma handled_marks k to e :
  entry_ok e → Topic e = t → handled_at ex k to (encodeEagerMessage e) →
  ∃ n, nt_nodes (ex (S k)) !! to = Some n ∧ Seq e ≤ mark n t.
Proof.
  intros He Ht (ev & from & data & n & Hmsg & Hn & Hst). rewrite Hst. unfold act_at. rewrite Hn. cbn [do_engine].
  eexists. cbn. rewrite lookup_insert_eq. split; [done|]. unfold mark. cbn.
  pose proof (decode_encode e He) as Hdec. rewrite Hmsg in Hdec. cbn [strip_type] in Hdec. rewrite decide_True in Hdec by done.
  unfold onEagerReceive. rewrite Hdec, process_seen, decide_True by done. lia.
Qed.

(** One link: the neighbour's mark gets to the node's. *)
Lemma link_catches_up k a b n q :
  nt_nodes (ex k) !! a = Some n → 0 < q ≤ mark n t → link (ex k) a b →
  ∃ j n', (k ≤ j)%nat ∧ nt_nodes (ex j) !! b = Some n' ∧ q ≤ mark n' t.
Proof.
  intros Hn Hq (n0 & p & Hn0 & Hp & <- & Hb). simplify_eq.
  destruct (run_good k) as [[Hlog _] Hann]. destruct (Hann a n Hn) as (e & He & Ht & Hs & Hw); [lia|].
  assert (entry_ok e) as Hok by (rewrite Forall_forall in Hlog; by apply Hlog).
  destruct (fr_handled _ Hex k (op_Addr p) (encodeEagerMessage e)) as [k' Hk']; [by apply Hw|done|].
  destruct (handled_marks k' (op_Addr p) e Hok Ht Hk') as (n1 & Hn1 & Hm).
  destruct (later_node (S k') (k + S k') _ _ Hn1 ltac:(lia)) as (n2 & Hn2 & _ & Hm2).
  exists (k + S k')%nat, n2. split_and!; [lia|done|lia].
Qed.

Lemma later_link k j a b : link (ex k) a b → (k ≤ j)%nat → link (ex j) a b.
Proof.
  intros (n & p & Hn & Hp & Ha & [nb Hb]) Hle.
  destruct (later_node _ _ _ _ Hn Hle) as (n' & Hn' & Hl & _). destruct (later_node _ _ _ _ Hb Hle) as (nb' & Hb' & _).
  exists n', p. split_and!; [done|by rewrite Hl|done|by eexists].
Qed.

Lemma path_catches_up k a b :
  rtc (link (ex k)) a b → ∀ j n q, (k ≤ j)%nat → nt_nodes (ex j) !! a = Some n → 0 < q ≤ mark n t →
  ∃ i n', (j ≤ i)%nat ∧ nt_nodes (ex i) !! b = Some n' ∧ q ≤ mark n' t.
Proof.
  induction 1 as [a|a b c Hab _ IH]; intros j n q Hj Hn Hq; [exists j, n; split_and!; [lia|done|lia]|].
  destruct (link_catches_up j a b n q Hn Hq) as (j1 & n1 & Hj1 & Hn1 & Hq1); [by eapply later_link|].
  destruct (IH j1 n1 q) as (i & n' & Hi & Hn' & Hq'); [lia|done|lia|]. exists i, n'. split_and!; [lia|done|done].
Qed.

(** An entry in a node's queue moves up, or has been processed. *)
Lemma later_queue k j a n i e :
  nt_nodes (ex k) !! a = Some n → localCh (cn_engine n) !! i = Some e → Topic e = t → (k ≤ j)%nat →
  ∃ n', nt_nodes (ex j) !! a = Some n' ∧
    (Seq e ≤ mark n' t ∨ ∃ i', (i' ≤ i)%nat ∧ localCh (cn_engine n') !! i' = Some e).
Proof.
  intros Hn Hi Ht Hle. induction Hle as [|j _ (n1 & Hn1 & IH)]; [exists n; split; [done|right; by exists i]|].
  destruct (kp_nodes _ _ (run_keeps j) _ _ Hn1) as (n2 & Hn2 & _ & Hm2 & Hq). exists n2. split; [done|].
  destruct IH as [Hm|(i' & Hi' & Hlk)]; [left; lia|].
  destruct Hq as [[l Hl]|(e0 & He0 & Hm0)].
  - right. exists i'. split; [done|]. rewrite Hl. by apply lookup_app_l_Some.
  - rewrite He0 in Hlk. destruct i' as [|i']; cbn in Hlk.
    + simplify_eq. left. unfold mark. by rewrite <- Ht.
    + right. exists i'. split; [lia|done].
Qed.

(** Processing the queue takes its head. *)
Lemma local_pops k a ev n :
  nt_nodes (ex k) !! a = Some n → localCh (cn_engine n) ≠ [] → ex (S k) = act_at (ex k) a (ALocal ev) →
  ∃ n', nt_nodes (ex (S k)) !! a = Some n' ∧ ∃ e, localCh (cn_engine n) = e :: localCh (cn_engine n').
Proof.
  intros Hn Hne Hst. rewrite Hst. unfold act_at. rewrite Hn.
  destruct (do_engine (cn_engine n) (ALocal ev)) as [[g' taken]|] eqn:Hdo.
  - eexists. cbn. rewrite lookup_insert_eq. split; [done|]. by apply (do_engine_frame _ _ _ _ Hdo).
  - cbn in Hdo. unfold run_local in Hdo. destruct (localCh (cn_engine n)); [done|]. by destruct (handleLocal _ _ _).
Qed.

Lemma queued_processed i : ∀ k a n e,
  nt_nodes (ex k) !! a = Some n → localCh (cn_engine n) !! i = Some e → Topic e = t →
  ∃ j n', (k ≤ j)%nat ∧ nt_nodes (ex j) !! a = Some n' ∧ Seq e ≤ mark n' t.
Proof.
  induction (lt_wf i) as [i _ IH]. intros k a n e Hn Hi Ht.
  destruct (fr_local _ Hex k a n Hn) as (k' & ev & Hk' & Hst); [by intros E; rewrite E in Hi|].
  destruct (later_queue k k' a n i e Hn Hi Ht Hk') as (n1 & Hn1 & [Hm|(i1 & Hi1 & Hlk)]); [by exists k', n1|].
  destruct (local_pops k' a ev n1 Hn1) as (n2 & Hn2 & e0 & He0); [by intros E; rewrite E in Hlk|done|].
  destruct i1 as [|i1]; rewrite He0 in Hlk; cbn in Hlk.
  - simplify_eq. destruct (kp_nodes _ _ (run_keeps k') _ _ Hn1) as (n3 & Hn3 & _ & _ & [[l Hl]|(e1 & He1 & Hm1)]).
    + exfalso. simplify_eq. apply (f_equal length) in Hl. rewrite He0, length_app in Hl. cbn in Hl. lia.
    + simplify_eq. rewrite He0 in He1. injection He1 as <-. exists (S k'), n2. split_and!; [lia|done|]. unfold mark. by rewrite <- Ht.
  - destruct (IH i1 ltac:(lia) (S k') a n2 e Hn2 Hlk Ht) as (j & n' & Hj & Hn' & Hm). exists j, n'. split_and!; [lia|done|done].
Qed.
End Fair.

(** C2: Everything reaches everyone.  In a fair run of a settled cluster, in which
    the network delays, reorders and repeats what is sent, an entry that an
    application has enqueued on a node is processed by that node, and every node
    to which a path of eager links leads gets to the entry's number on its
    topic: it has processed the entry, or a later one of the topic. *)
Theorem enqueued_reaches_everyone (ex : nat → net) (k : nat) (a b : string) (n : cluster_node) (e : GossipEntry)
    (Hfair : fair_run ex) (Hn : nt_nodes (ex k) !! a = Some n) (Hq : e ∈ localCh (cn_engine n))
    (Ht : Topic e = t) (Hpos : 0 < Seq e) (Hpath : rtc (link (ex k)) a b) :
  ∃ j n', (k ≤ j)%nat ∧ nt_nodes (ex j) !! b = Some n' ∧ Seq e ≤ mark n' t.
Proof.
  apply list_elem_of_lookup in Hq as [i Hi].
  destruct (queued_processed ex Hfair i k a n e Hn Hi Ht) as (j & n1 & Hj & Hn1 & Hm).
  destruct (path_catches_up ex Hfair k a b Hpath j n1 (Seq e) Hj Hn1) as (i' & n' & Hi' & Hn' & Hm'); [lia|].
  exists i', n'. split_and!; [lia|done|done].
Qed.
End Settled.

(** ** A run *)

(** Nobody among the eager peers of the node at [addr] is called [from]. *)
Definition nobody_named (st : net) (addr from : string) : bool :=
  match nt_nodes st !! addr with
  | Some n => bool_decide (from ∉ op_NodeID <$> eager_links n)
  | None => true
  end.

Definition steady_command (st : net) (c : command) : bool :=
  match c with
  | KJoin _ _ => true
  | KAct addr (AEnqueue t q p) => bool_decide (in_word 16 t ∧ in_word 64 q ∧ (length p < 1000)%nat)
  | KAct addr (ALocal _) => nobody_named st addr ""
  | KAct _ _ => false
  | KReceive addr _ _ from => nobody_named st addr from
  end.

Section Commands.
Context `{HZ : Zstd} (t : Z).

Lemma play_steady st c :
  (∀ ev, match c with KAct _ (ALocal ev') | KReceive _ _ ev' _ => ev = ev' | _ => False end → sends_succeed ev) →
  steady_command st c = true → steady t st (play_one st c).
Proof.
  intros Hev Hc. destruct c as [addr o|addr a|addr k ev from]; cbn [play_one steady_command] in *.
  - destruct (nt_nodes st !! addr) eqn:E; [apply sm_stay|]. by apply sm_join.
  - destruct (nt_nodes st !! addr) as [n|] eqn:Hn; [|unfold act_at; rewrite Hn; apply sm_stay].
    destruct a as [t' q p|ev| |ev from data|ev from r|i conns|t' q|o| |b o]; try done; apply sm_act with n; try done.
    + apply bool_decide_eq_true in Hc as (Ht & Hq & Hl). split; [done|]. unfold encodeEagerMessage, in_word.
      rewrite !length_app, !length_be_put. cbn. lia.
    + unfold nobody_named in Hc. rewrite Hn in Hc. apply bool_decide_eq_true in Hc. split; [by apply Hev|done].
  - destruct (nt_wire st !! k) as [[to [msg|]]|] eqn:Hk; [|apply sm_stay..].
    destruct (nt_nodes st !! addr) as [n|] eqn:Hn; [|apply sm_stay].
    destruct (decide (to = addr)) as [->|]; [|apply sm_stay].
    destruct (engine_calls ev (cn_table n) from (InDatagram msg)) as [|[| | |ev' from' data| | | | | |] l] eqn:E; try apply sm_stay.
    destruct (decide (from' = from)) as [->|]; [|apply sm_stay]. apply sm_act with n; [done| |].
    + exists (PDatagram msg), (InDatagram msg). split_and!; [by eapply list_elem_of_lookup_2|constructor|].
      cbn [engine_calls] in *. destruct (receiveDatagram (cn_table n) msg) as [[[] d]|]; try done.
      injection E as _ -> _. by left.
    + unfold nobody_named in Hc. rewrite Hn in Hc. apply bool_decide_eq_true in Hc. split; [by apply Hev|done].
Qed.
End Commands.

(** Three nodes in a line: the first enqueues, the last is two links away. *)
Definition to_peer (id addr : string) : Overlay :=
  mkOverlay (Overlay.withDefaults (mkOverlayConfig 0 0 0 0)) "self" [classify (mkPeer id addr 5) true] [].

Definition line_commands : list command :=
  [KJoin "a:1" (to_peer "b" "b:1"); KJoin "b:1" (to_peer "c" "c:1"); KJoin "c:1" (Overlay.New "c" (mkOverlayConfig 0 0 0 0));
   KAct "a:1" (AEnqueue 1 7 [x61]); KAct "a:1" (ALocal quiet_env);
   KReceive "b:1" 0 quiet_env "a:1"; KReceive "c:1" 1 quiet_env "b:1"].

Definition line_run (k : nat) : net := foldl (play_one (HZ := stored_zstd)) emptyNet (take k line_commands).

Lemma line_run_late k : (7 ≤ k)%nat → line_run k = line_run 7.
Proof. intros Hk. unfold line_run. by rewrite !take_ge by (cbn; lia). Qed.

(** A property of all states of the run is checked on the first eight. *)
Lemma line_run_all (Q : nat → net → Prop) :
  (∀ k, (k < 7)%nat → Q k (line_run k)) → (∀ k, (7 ≤ k)%nat → Q k (line_run 7)) → ∀ k, Q k (line_run k).
Proof.
  intros H1 H2 k. destruct (decide (k < 7)%nat); [auto|]. rewrite line_run_late by lia. apply H2. lia.
Qed.

Definition line_msg : bytes := encodeEagerMessage (mkEntry 1 7 [x61]).

Definition waiting (st : net) : list string :=
  omap (fun kn => if (length (localCh (cn_engine kn.2)) =? 0)%nat then None else Some kn.1) (map_to_list (nt_nodes st)).

Lemma waiting_spec st a n : nt_nodes st !! a = Some n → localCh (cn_engine n) ≠ [] → a ∈ waiting st.
Proof.
  intros Hn Hne. apply list_elem_of_omap. exists (a, n). rewrite elem_of_map_to_list. split; [done|]. cbn.
  by destruct (localCh (cn_engine n)).
Qed.

(** The wire, the log and the waiting nodes of each state. *)
Definition line_state (k : nat) (st : net) : Prop :=
  nt_wire st = take (k - 5 + 1) (if decide (k < 5)%nat then [] else [("b:1"%string, PDatagram line_msg); ("c:1"%string, PDatagram line_msg)]) ∧
  nt_log st = (if decide (k < 4)%nat then [] else [mkEntry 1 7 [x61]]) ∧
  waiting st = (if decide (k = 4)%nat then ["a:1"%string] else []).

Lemma line_states k : line_state k (line_run k).
Proof.
  revert k. apply line_run_all.
  - intros k Hk. do 7 (destruct k as [|k]; [vm_compute; split_and!; reflexivity|]). lia.
  - intros k Hk. unfold line_state. rewrite !decide_False by lia. rewrite take_ge by (cbn; lia).
    vm_compute. split_and!; reflexivity.
Qed.

Lemma line_steps k : steady (HZ := stored_zstd) 1 (line_run k) (line_run (S k)).
Proof.
  destruct (decide (7 ≤ k)%nat) as [Hk|Hk]; [rewrite (line_run_late k), (line_run_late (S k)) by lia; apply sm_stay|].
  destruct (line_commands !! k) as [c|] eqn:Hc; [|apply lookup_ge_None in Hc; cbn in Hc; lia].
  unfold line_run. rewrite (take_S_r _ _ _ Hc), foldl_app. cbn [foldl]. apply play_steady.
  - do 7 (destruct k as [|k]; [injection Hc as <-; intros ev ?; by subst|]). done.
  - do 7 (destruct k as [|k]; [injection Hc as <-; vm_compute; reflexivity|]). done.
Qed.

(** The node at [addr] after [k] commands. *)
Definition line_node (k : nat) (addr : string) : cluster_node :=
  default (mkCNode two_peer_engine (table []) []) (nt_nodes (line_run k) !! addr).

Lemma line_node_there k addr :
  match nt_nodes (line_run k) !! addr with Some _ => true | None => false end = true →
  nt_nodes (line_run k) !! addr = Some (line_node k addr).
Proof. unfold line_node. by destruct (nt_nodes (line_run k) !! addr). Qed.

Lemma line_handled k i to from :
  line_commands !! k = Some (KReceive to i quiet_env from) →
  nt_wire (line_run k) !! i = Some (to, PDatagram line_msg) →
  nt_nodes (line_run k) !! to = Some (line_node k to) →
  engine_calls quiet_env (cn_table (line_node k to)) from (InDatagram line_msg) =
    [AEager quiet_env from (drop 1 line_msg)] →
  handled_at (HZ := stored_zstd) line_run k to line_msg.
Proof.
  intros Hc Hw Hn He. exists quiet_env, from, (drop 1 line_msg), (line_node k to). split_and!; [done|done|].
  unfold line_run at 1. rewrite (take_S_r _ _ _ Hc), foldl_app. cbn [foldl]. fold (line_run k).
  cbn [play_one]. by rewrite Hw, Hn, decide_True, He, decide_True.
Qed.

Lemma line_fair : fair_run (HZ := stored_zstd) 1 line_run.
Proof.
  split.
  - reflexivity.
  - apply line_steps.
  - intros k e He _. destruct (line_states k) as (_ & Hl & _). rewrite Hl in He. case_decide; [by apply elem_of_nil in He|].
    apply list_elem_of_singleton in He as ->. apply Nat.leb_le. vm_compute. reflexivity.
  - intros k to msg Hw _. destruct (line_states k) as (Hl & _ & _). rewrite Hl in Hw.
    apply elem_of_take in Hw as (i & Hi & _). case_decide; [done|].
    destruct i as [|[|i]]; cbn in Hi; [..|done]; injection Hi as <- <-.
    + exists 5%nat. apply (line_handled 5 0 _ "a:1"); [reflexivity|vm_compute; reflexivity| |vm_compute; reflexivity].
      apply line_node_there. vm_compute. reflexivity.
    + exists 6%nat. apply (line_handled 6 1 _ "b:1"); [reflexivity|vm_compute; reflexivity| |vm_compute; reflexivity].
      apply line_node_there. vm_compute. reflexivity.
  - intros k a n Hn Hne. pose proof (waiting_spec _ _ _ Hn Hne) as Hw. destruct (line_states k) as (_ & _ & Hl).
    rewrite Hl in Hw. case_decide as Hk; [|by apply elem_of_nil in Hw]. subst k.
    apply list_elem_of_singleton in Hw as ->. exists 4%nat, quiet_env. split; [lia|]. reflexivity.
Qed.

Lemma enqueued_reaches_everyone_witness :
  ∃ j n', (4 ≤ j)%nat ∧ nt_nodes (line_run j) !! "c:1"%string = Some n' ∧ 7 ≤ mark n' 1.
Proof.
  refine (enqueued_reaches_everyone (HZ := stored_zstd) 1 line_run 4 "a:1" "c:1" (line_node 4 "a:1") (mkEntry 1 7 [x61])
            line_fair _ _ _ _ _).
  - apply line_node_there. vm_compute. reflexivity.
  - vm_compute. left.
  - reflexivity.
  - reflexivity.
  - eapply rtc_l with "b:1"%string; [|eapply rtc_once].
    + exists (line_node 4 "a:1"), (classify (mkPeer "b" "b:1" 5) true).
      split_and!; [apply line_node_there; vm_compute; reflexivity|vm_compute; left|reflexivity|].
      eexists. apply line_node_there. vm_compute. reflexivity.
    + exists (line_node 4 "b:1"), (classify (mkPeer "c" "c:1" 5) true).
      split_and!; [apply line_node_there; vm_compute; reflexivity|vm_compute; left|reflexivity|].
      eexists. apply line_node_there. vm_compute. reflexivity.
Defined.
