(* ===== verification/Json.v ===== *)
(** * encoding/json as an interface

    What the code relies on: marshalling a value that JSON can represent (its
    strings are valid UTF-8, its numbers finite) succeeds and unmarshalling
    restores it, and the empty input is an error.  [bits_json] is a concrete codec with that law for witnesses. *)

From S2P Require Import Prelude.

Class JSON (A : Type) := {
  Marshal : A → option bytes;
  Unmarshal : bytes → option A;
}.

Class JSONSpec (A : Type) `{JSON A} := {
  json_ok : A → Prop;
  Unmarshal_Marshal : ∀ a, json_ok a → ∃ b, Marshal a = Some b ∧ Unmarshal b = Some a;
  Unmarshal_nil : Unmarshal [] = None;
}.

(** ** A codec: a brace and the bits of a value's number *)

Fixpoint bits_of (p : positive) : bytes :=
  match p with xH => [] | xO q => x00 :: bits_of q | xI q => x01 :: bits_of q end.

Fixpoint of_bits (b : bytes) : positive :=
  match b with [] => xH | x00 :: b' => xO (of_bits b') | _ :: b' => xI (of_bits b') end.

Lemma of_bits_of p : of_bits (bits_of p) = p.
Proof. induction p as [p IH|p IH|]; cbn; by rewrite ?IH. Qed.

#[export] Instance bits_json {A} `{Countable A} : JSON A | 100 :=
  {| Marshal := fun r => Some (x7b :: bits_of (encode r));
     Unmarshal := fun b => match b with [] => None | _ :: b' => decode (of_bits b') end |}.

#[export] Instance bits_json_spec {A} `{Countable A} : JSONSpec A | 100.
Proof.
  refine {| json_ok := fun _ => True |}; [|done].
  intros r _. eexists. split; [done|]. cbn. by rewrite of_bits_of, decode_encode.
Defined.
