(* ===== verification/Objstore.v ===== *)
(** * Object storage (src/objstore/objstore.go, src/objstore/memstore.go)

    The Go interface [ObjectStore] is the class [ObjectStore], and what its
    users may rely on is the class [ObjectStoreSpec]: conditional writes, reads
    and listings in terms of the stored contents.  [MemoryObjectStore] is the
    implementation in the repository; it is proved to satisfy the
    specification.  The specification is that of a store whose calls fail only
    for a precondition or an absent key, as those of the memory store do; the
    comments of the Go interface do not rule out other failures, such as those of
    a store behind a network, and nothing is shown of runs with them.  The clock
    is an argument of [Put]. *)

From stdpp Require Import pretty.
From S2P Require Import Prelude.

(** ** The interface *)

Inductive store_error :=
| ErrNotFound
| ErrPreconditionFailed
| ErrStore (code : Z).

#[export] Instance store_error_eq_dec : EqDecision store_error.
Proof. solve_decision. Defined.

Record ObjectInfo := mkInfo { Size : Z; ETag : string; LastModified : Z }.

(** A [PutOption] is a function that sets a field of the options. *)
Record putOptions := mkOpts { ifNoneMatch : bool; ifMatch : string }.

Definition PutOption : Type := putOptions → putOptions.

Definition IfNoneMatch : PutOption := fun o => mkOpts true (ifMatch o).

Definition IfMatch (etag : string) : PutOption := fun o => mkOpts (ifNoneMatch o) etag.

Definition resolvePutOptions (opts : list PutOption) : putOptions :=
  foldl (fun o fn => fn o) (mkOpts false "") opts.

Class ObjectStore (S : Type) := {
  Put : S → Z → string → bytes → list PutOption → result store_error ObjectInfo * S;
  Get : S → string → result store_error (bytes * ObjectInfo);
  List : S → string → result store_error (list string);
  Delete : S → string → result store_error unit * S;
}.

(** ** The specification *)

(** Why a conditional write to a key with this current object is refused. *)
Definition refusal (o : putOptions) (current : option (bytes * string)) : option store_error :=
  if ifNoneMatch o && bool_decide (is_Some current) then Some ErrPreconditionFailed
  else if decide (ifMatch o = ""%string) then None
  else match current with
       | None => Some ErrNotFound
       | Some (_, etag) => if decide (etag = ifMatch o) then None else Some ErrPreconditionFailed
       end.

(** The contents: what is stored under each key, with its ETag. *)
Class ObjectStoreSpec (S : Type) `{ObjectStore S} := {
  contents : S → gmap string (bytes * string);
  Put_law : ∀ s now key data opts,
    match refusal (resolvePutOptions opts) (contents s !! key) with
    | Some e => Put s now key data opts = (Err e, s)
    | None => ∃ info s', Put s now key data opts = (Ok info, s') ∧
        contents s' = <[key := (data, ETag info)]> (contents s)
    end;
  Get_law : ∀ s key,
    match contents s !! key with
    | None => Get s key = Err ErrNotFound
    | Some (data, etag) => ∃ info, Get s key = Ok (data, info) ∧ ETag info = etag
    end;
  List_law : ∀ s pre, ∃ keys, List s pre = Ok keys ∧ StronglySorted String.le keys ∧ NoDup keys ∧
    ∀ key, key ∈ keys ↔ String.prefix pre key = true ∧ is_Some (contents s !! key);
  Delete_law : ∀ s key, ∃ s', Delete s key = (Ok (), s') ∧ contents s' = delete key (contents s);
}.

Section StoreLaws.
Context {S : Type} `{HS : ObjectStore S} `{HSp : !ObjectStoreSpec S}.

(** An unconditional write. *)
Lemma put_plain (s : S) now key data :
  ∃ info s', Put s now key data [] = (Ok info, s') ∧ contents s' = <[key := (data, ETag info)]> (contents s).
Proof. exact (Put_law s now key data []). Qed.
End StoreLaws.

Lemma string_prefix_app p k : String.prefix p k = true ↔ ∃ r, k = p +:+ r.
Proof.
  split.
  - revert k. induction p as [|a p IH]; intros k; [by exists k|]. destruct k as [|b k]; [done|]. cbn.
    destruct (Ascii.ascii_dec a b) as [<-|]; [|done]. intros (r & ->)%IH. by exists r.
  - intros (r & ->). induction p as [|a p IH]; [by destruct r|]. change (String a p +:+ r) with (String a (p +:+ r)). cbn. destruct (Ascii.ascii_dec a a) as [_|Hn]; [exact IH|by destruct Hn].
Qed.

(** ** The memory store *)

Record memObject := mkObject { mo_data : bytes; mo_etag : string; mo_lastModified : Z }.

Record MemoryObjectStore := mkStore {
  objects : gmap string memObject;
  version : Z;
}.

Definition NewMemoryObjectStore : MemoryObjectStore := mkStore ∅ 0.

(** [fmt.Sprintf("v%d", s.version)], then [s.version++]. *)
Definition etag_of (v : Z) : string := "v" +:+ pretty v.

Definition nextETag (s : MemoryObjectStore) : string * MemoryObjectStore :=
  (etag_of (version s), mkStore (objects s) (version s +64 1)%word).

Definition mem_Put (s : MemoryObjectStore) (now : Z) (key : string) (data : bytes) (opts : list PutOption) :
    result store_error ObjectInfo * MemoryObjectStore :=
  let o := resolvePutOptions opts in
  let existing := objects s !! key in
  if ifNoneMatch o && bool_decide (is_Some existing) then (Err ErrPreconditionFailed, s)
  else
    let store :=
      let '(etag, s1) := nextETag s in
      (Ok (mkInfo (Z.of_nat (length data)) etag 0),
       mkStore (<[key := mkObject data etag now]> (objects s1)) (version s1)) in
    if decide (ifMatch o = ""%string) then store
    else match existing with
         | None => (Err ErrNotFound, s)
         | Some obj => if decide (mo_etag obj = ifMatch o) then store else (Err ErrPreconditionFailed, s)
         end.

Definition mem_Get (s : MemoryObjectStore) (key : string) : result store_error (bytes * ObjectInfo) :=
  match objects s !! key with
  | None => Err ErrNotFound
  | Some obj => Ok (mo_data obj, mkInfo (Z.of_nat (length (mo_data obj))) (mo_etag obj) (mo_lastModified obj))
  end.

Definition mem_List (s : MemoryObjectStore) (pre : string) : result store_error (list string) :=
  Ok (merge_sort String.le (filter (fun k => String.prefix pre k = true) (map_to_list (objects s)).*1)).

Definition mem_Delete (s : MemoryObjectStore) (key : string) : result store_error unit * MemoryObjectStore :=
  (Ok (), mkStore (delete key (objects s)) (version s)).

#[export] Instance MemoryObjectStore_store : ObjectStore MemoryObjectStore :=
  {| Put := mem_Put; Get := mem_Get; List := mem_List; Delete := mem_Delete |}.

(** ** The memory store meets the specification *)

Definition object_view (obj : memObject) : bytes * string := (mo_data obj, mo_etag obj).

Lemma mem_Put_law s now key data opts :
  match refusal (resolvePutOptions opts) ((object_view <$> objects s) !! key) with
  | Some e => mem_Put s now key data opts = (Err e, s)
  | None => ∃ info s', mem_Put s now key data opts = (Ok info, s') ∧
      object_view <$> objects s' = <[key := (data, ETag info)]> (object_view <$> objects s)
  end.
Proof.
  unfold refusal, mem_Put. cbv zeta. rewrite lookup_fmap.
  set (o := resolvePutOptions opts).
  rewrite (bool_decide_ext (is_Some (object_view <$> objects s !! key)) (is_Some (objects s !! key))) by apply fmap_is_Some.
  assert (object_view <$> <[key := mkObject data (etag_of (version s)) now]> (objects s) =
          <[key := (data, etag_of (version s))]> (object_view <$> objects s)) as Hins by (by rewrite fmap_insert).
  destruct (ifNoneMatch o && bool_decide (is_Some (objects s !! key))); [done|].
  destruct (decide (ifMatch o = ""%string)); [by eexists _, _|].
  destruct (objects s !! key) as [obj|]; cbn; [|done].
  destruct (decide (mo_etag obj = ifMatch o)); [by eexists _, _|done].
Qed.

Lemma mem_List_law s pre :
  ∃ keys, mem_List s pre = Ok keys ∧ StronglySorted String.le keys ∧ NoDup keys ∧
    ∀ key, key ∈ keys ↔ String.prefix pre key = true ∧ is_Some ((object_view <$> objects s) !! key).
Proof.
  eexists. split; [done|]. split_and!.
  - apply StronglySorted_merge_sort; apply _.
  - rewrite merge_sort_Permutation. apply NoDup_filter, NoDup_fst_map_to_list.
  - intros key. rewrite merge_sort_Permutation, list_elem_of_filter, lookup_fmap, fmap_is_Some.
    rewrite list_elem_of_fmap. split.
    + intros (Hp & [k obj] & -> & Hk%elem_of_map_to_list). by eauto.
    + intros (Hp & obj & Hk). split; [done|]. exists (key, obj). by rewrite elem_of_map_to_list.
Qed.

#[export] Instance MemoryObjectStore_spec : ObjectStoreSpec MemoryObjectStore.
Proof.
  refine {| contents := fun s => object_view <$> objects s |}.
  - apply mem_Put_law.
  - intros s key. rewrite lookup_fmap. cbn [Get MemoryObjectStore_store]. unfold mem_Get.
    destruct (objects s !! key) as [obj|]; cbn; [by eexists|done].
  - apply mem_List_law.
  - intros s key. eexists. split; [done|]. cbn. by rewrite fmap_delete.
Defined.

(** ** Versions *)

Inductive store_op :=
| OpPut (now : Z) (key : string) (data : bytes) (opts : list PutOption)
| OpDelete (key : string).

Definition do_op (s : MemoryObjectStore) (op : store_op) : MemoryObjectStore :=
  match op with
  | OpPut now key data opts => (Put s now key data opts).2
  | OpDelete key => (Delete s key).2
  end.

Definition run_ops (s : MemoryObjectStore) (ops : list store_op) : MemoryObjectStore := foldl do_op s ops.

(** Every stored object carries the ETag of a version already used, and no two
    objects carry the same. *)
Record etags_ok (s : MemoryObjectStore) : Prop := {
  eo_version : 0 ≤ version s;
  eo_used : ∀ k obj, objects s !! k = Some obj → ∃ v, 0 ≤ v < version s ∧ mo_etag obj = etag_of v;
  eo_inj : ∀ k k' obj obj', objects s !! k = Some obj → objects s !! k' = Some obj' →
    mo_etag obj = mo_etag obj' → k = k';
}.

Lemma etag_of_inj v v' : etag_of v = etag_of v' → v = v'.
Proof. unfold etag_of. intros H. apply (inj _) in H. by apply (inj pretty) in H. Qed.

Lemma etag_of_nonempty v : etag_of v ≠ ""%string.
Proof. done. Qed.

(** One operation: the store is unchanged, or loses a key, or gets an object
    with a new version. *)
Lemma do_op_cases s op :
  do_op s op = s ∨
  (∃ key, do_op s op = mkStore (delete key (objects s)) (version s)) ∨
  (∃ key data now, do_op s op =
     mkStore (<[key := mkObject data (etag_of (version s)) now]> (objects s)) (version s +64 1)%word).
Proof.
  destruct op as [now key data opts|key]; cbn [do_op Put Delete MemoryObjectStore_store]; [|right; left; by exists key].
  unfold mem_Put. cbv zeta. cbn [nextETag].
  repeat case_match; cbn; first [by left|right; right; by eexists _, _, _].
Qed.

Lemma do_op_etags s op :
  etags_ok s → version s + 1 < 2 ^ 64 → etags_ok (do_op s op) ∧ version s ≤ version (do_op s op) ≤ version s + 1.
Proof.
  intros [Hv Hu Hi] Hb. destruct (do_op_cases s op) as [->|[(key & ->)|(key & data & now & ->)]]; cbn [version objects].
  - split; [by split|lia].
  - split; [|lia]. split; cbn.
    + done.
    + intros k obj [_ Hk]%lookup_delete_Some. eauto.
    + intros k k' obj obj' [_ Hk]%lookup_delete_Some [_ Hk']%lookup_delete_Some. eauto.
  - assert ((version s +64 1)%word = version s + 1) as -> by (apply wrap_id; unfold in_word; lia).
    split; [|lia].
    assert (∀ k obj, objects s !! k = Some obj → mo_etag obj ≠ etag_of (version s)) as Hnew.
    { intros k obj (v & Hvr & ->)%Hu Heq%etag_of_inj. lia. }
    split; cbn.
    + lia.
    + intros k obj [[<- <-]|[_ Hk]]%lookup_insert_Some; [exists (version s); cbn; split; [lia|done]|].
      destruct (Hu _ _ Hk) as (v & ? & ?). exists v. split; [lia|done].
    + intros k k' obj obj' [[<- <-]|[Hne Hk]]%lookup_insert_Some [[<- <-]|[Hne' Hk']]%lookup_insert_Some Heq; cbn in *.
      * done.
      * exfalso. by eapply Hnew.
      * exfalso. by eapply Hnew.
      * eauto.
Qed.

(** An object that is still under its ETag has not been written since. *)
Definition unchanged_since (s s' : MemoryObjectStore) : Prop :=
  ∀ k obj k' obj', objects s !! k = Some obj → objects s' !! k' = Some obj' →
    mo_etag obj' = mo_etag obj → k' = k ∧ obj' = obj.

Lemma run_ops_unchanged s ops :
  etags_ok s → version s + Z.of_nat (length ops) < 2 ^ 64 →
  etags_ok (run_ops s ops) ∧ version s ≤ version (run_ops s ops) ≤ version s + Z.of_nat (length ops) ∧
  unchanged_since s (run_ops s ops).
Proof.
  intros Hok Hb. induction ops as [|op ops IH] using rev_ind.
  { cbn. split_and!; [done|lia|lia|]. intros k obj k' obj' Hk Hk' He. destruct Hok as [_ _ Hi].
    assert (k' = k) as -> by (by eapply Hi). split; [done|congruence]. }
  rewrite length_app in *. cbn [length] in *. destruct IH as (IH1 & IH2 & IH3); [lia|].
  unfold run_ops in *. rewrite foldl_app. cbn [foldl]. set (s1 := foldl do_op s ops) in *.
  destruct (do_op_etags s1 op IH1) as [H1 H2]; [lia|]. split_and!; [done|lia|lia|].
  intros k obj k' obj' Hk Hk' He.
  destruct (do_op_cases s1 op) as [Ed|[(key & Ed)|(key & data & now & Ed)]]; rewrite Ed in Hk'; cbn in Hk'.
  - by eapply IH3.
  - apply lookup_delete_Some in Hk' as [_ Hk']. by eapply IH3.
  - apply lookup_insert_Some in Hk' as [[<- <-]|[_ Hk']]; [|by eapply IH3].
    destruct (eo_used _ Hok _ _ Hk) as (v & Hv & Hev). cbn in He. rewrite Hev in He. apply etag_of_inj in He. lia.
Qed.

Lemma new_etags_ok : etags_ok NewMemoryObjectStore.
Proof. split; cbn; [lia|intros k obj|intros k k' obj obj']; by rewrite lookup_empty. Qed.

(** Optimistic writes are safe.  Whatever puts and deletes happen after an
    object was read (fewer than the 64-bit version counter holds), a Put
    conditioned on the ETag that was read succeeds exactly when the key still
    holds that very object: an ETag is never reused for another write. *)
Theorem if_match_detects_change s ops now key data obj
    (Hok : etags_ok s) (Hobj : objects s !! key = Some obj)
    (Hb : version s + Z.of_nat (length ops) < 2 ^ 64) :
  let s' := run_ops s ops in
  is_ok (Put s' now key data [IfMatch (mo_etag obj)]).1 = true ↔ objects s' !! key = Some obj.
Proof.
  intros s'. destruct (run_ops_unchanged s ops Hok Hb) as (_ & _ & Hun). fold s' in Hun.
  cbn [Put MemoryObjectStore_store]. unfold mem_Put. cbn [resolvePutOptions foldl IfMatch ifNoneMatch ifMatch andb].
  destruct (eo_used _ Hok _ _ Hobj) as (v & _ & Hev). rewrite Hev, decide_False by apply etag_of_nonempty.
  destruct (objects s' !! key) as [obj'|] eqn:E; [|by split].
  case_decide as He; cbn; (split; [|try done]).
  - intros _. f_equal. eapply Hun; [exact Hobj|exact E|congruence].
  - done.
  - intros [= ->]. congruence.
Qed.

Lemma if_match_detects_change_witness :
  let s := run_ops NewMemoryObjectStore [OpPut 0 "k" [x61] []] in
  let s' := run_ops s [OpPut 1 "other" [x62] []] in
  is_ok (Put s' 2 "k" [x63] [IfMatch "v0"]).1 = true ↔ objects s' !! "k"%string = Some (mkObject [x61] "v0" 0).
Proof.
  intros s s'. apply (if_match_detects_change s [OpPut 1 "other" [x62] []] 2 "k" [x63] (mkObject [x61] "v0" 0)).
  - apply (run_ops_unchanged NewMemoryObjectStore [OpPut 0 "k" [x61] []] new_etags_ok). vm_compute. reflexivity.
  - reflexivity.
  - vm_compute. reflexivity.
Defined.
