(* ===== verification/Bootstrap.v ===== *)
(** * Bootstrap over an object store (src/bootstrap/registry.go, src/bootstrap/tls.go)

    The registry of nodes and the shared certificate authority, both proved
    against the interface of [Objstore], for every store that meets it.
    encoding/json is the class of [Json].

    [getOrCreateCA] is a state machine whose steps are its calls to the store,
    so that runs of several nodes interleave between any two calls; the pairs
    that tlsutil.GenerateCA may return are a parameter. *)

From S2P Require Import Prelude Json Objstore.

(** ** Registry *)

Definition nodePrefix : string := "nodes/".

Record NodeRegistration := mkReg {
  NodeID : string;
  Addrs : list string;
  PublicAddr : string;
  IsRelay : bool;
  RegisteredAt : Z;  (** 0 is the zero time *)
}.

#[export] Instance NodeRegistration_eq_dec : EqDecision NodeRegistration.
Proof. solve_decision. Defined.

Inductive boot_error :=
| ErrMarshal
| ErrObject (e : store_error)
| ErrGenerate.

Section Registry.
Context {S : Type} `{HS : ObjectStore S} `{HJ : JSON NodeRegistration}.

(** The registration with its time filled in. *)
Definition stamped (now : Z) (reg : NodeRegistration) : NodeRegistration :=
  if RegisteredAt reg =? 0
  then mkReg (NodeID reg) (Addrs reg) (PublicAddr reg) (IsRelay reg) now
  else reg.

Definition Register (store : S) (now : Z) (reg : NodeRegistration) : result boot_error unit * S :=
  let reg := stamped now reg in
  match Marshal reg with
  | None => (Err ErrMarshal, store)
  | Some data =>
      match Put store now (nodePrefix +:+ NodeID reg) data [] with
      | (Err e, s') => (Err (ErrObject e), s')
      | (Ok _, s') => (Ok (), s')
      end
  end.

Definition Deregister (store : S) (nodeID : string) : result store_error unit * S :=
  Delete store (nodePrefix +:+ nodeID).

Fixpoint discover_loop (store : S) (keys : list string) : result boot_error (list NodeRegistration) :=
  match keys with
  | [] => Ok []
  | key :: keys' =>
      match Get store key with
      | Err ErrNotFound => discover_loop store keys'
      | Err e => Err (ErrObject e)
      | Ok (data, _) =>
          match Unmarshal data with
          | None => discover_loop store keys'
          | Some reg => peers ← discover_loop store keys'; Ok (reg :: peers)
          end
      end
  end.

Definition DiscoverPeers (store : S) : result boot_error (list NodeRegistration) :=
  match List store nodePrefix with
  | Err e => Err (ErrObject e)
  | Ok keys => discover_loop store keys
  end.
End Registry.

(** ** The cluster CA *)

Definition caKeyPath : string := "ca/key.pem".

Definition caCertPath : string := "ca/cert.pem".

(** Where a call of [getOrCreateCA] stands. *)
Inductive ca_pc :=
| CGetCert
| CGetKey (cert : bytes)
| CGenerate
| CPutCert (cert key : bytes)
| CPutKey (cert key : bytes)
| CDone (r : result boot_error (bytes * bytes)).

Section CA.
Context {S : Type} `{HS : ObjectStore S}.

(** One call to the store, or to GenerateCA with outcome [gen]. *)
Definition ca_step (now : Z) (gen : option (bytes * bytes)) (s : S) (p : ca_pc) : S * ca_pc :=
  match p with
  | CGetCert =>
      match Get s caCertPath with
      | Ok (cert, _) => (s, CGetKey cert)
      | Err ErrNotFound => (s, CGenerate)
      | Err e => (s, CDone (Err (ErrObject e)))
      end
  | CGetKey cert =>
      match Get s caKeyPath with
      | Ok (key, _) => (s, CDone (Ok (cert, key)))
      | Err ErrNotFound => (s, CGenerate)
      | Err e => (s, CDone (Err (ErrObject e)))
      end
  | CGenerate =>
      match gen with
      | Some (cert, key) => (s, CPutCert cert key)
      | None => (s, CDone (Err ErrGenerate))
      end
  | CPutCert cert key =>
      match Put s now caCertPath cert [IfNoneMatch] with
      | (Ok _, s') => (s', CPutKey cert key)
      | (Err ErrPreconditionFailed, s') => (s', CGetCert)
      | (Err e, s') => (s', CDone (Err (ErrObject e)))
      end
  | CPutKey cert key =>
      match Put s now caKeyPath key [IfNoneMatch] with
      | (Ok _, s') => (s', CDone (Ok (cert, key)))
      | (Err ErrPreconditionFailed, s') => (s', CGetCert)
      | (Err e, s') => (s', CDone (Err (ErrObject e)))
      end
  | CDone r => (s, CDone r)
  end.

(** A call that runs alone for [fuel] store accesses, with the [n]-th generated
    pair [gens n]. *)
Fixpoint run_ca (fuel : nat) (now : Z) (gens : nat → option (bytes * bytes)) (s : S) (p : ca_pc) : S * ca_pc :=
  match fuel with
  | O => (s, p)
  | Datatypes.S fuel' => let '(s', p') := ca_step now (gens fuel') s p in run_ca fuel' now gens s' p'
  end.

Definition getOrCreateCA (fuel : nat) (now : Z) (gens : nat → option (bytes * bytes)) (s : S) : S * ca_pc :=
  run_ca fuel now gens s CGetCert.

(** Several nodes: any of them makes its next access, or crashes for good. *)
Record cluster := mkCluster { cl_store : S; cl_nodes : list (option ca_pc) }.

Inductive ca_move (pairs : bytes → bytes → Prop) : cluster → cluster → Prop :=
| ca_access s nodes i p now gen s' p' :
    nodes !! i = Some (Some p) →
    (∀ c k, gen = Some (c, k) → pairs c k) →
    ca_step now gen s p = (s', p') →
    ca_move pairs (mkCluster s nodes) (mkCluster s' (<[i := Some p']> nodes))
| ca_crash s nodes i p :
    nodes !! i = Some (Some p) →
    ca_move pairs (mkCluster s nodes) (mkCluster s (<[i := None]> nodes)).
End CA.
Arguments cluster S : clear implicits.

(** ** Lemmas: the store *)

Section StoreLemmas.
Context {S : Type} `{HS : ObjectStore S} `{HSp : !ObjectStoreSpec S}.

Lemma put_if_none (s : S) now key data :
  match contents s !! key with
  | Some _ => Put s now key data [IfNoneMatch] = (Err ErrPreconditionFailed, s)
  | None => ∃ info s', Put s now key data [IfNoneMatch] = (Ok info, s') ∧
      contents s' = <[key := (data, ETag info)]> (contents s)
  end.
Proof. pose proof (Put_law s now key data [IfNoneMatch]) as H. by destruct (contents s !! key). Qed.
End StoreLemmas.

(** ** Agreement on the CA *)

Section Agreement.
Context {S : Type} `{HS : ObjectStore S} `{HSp : !ObjectStoreSpec S} (pairs : bytes → bytes → Prop).

Definition stored (s : S) (key : string) : option bytes := fst <$> contents s !! key.

(** What a node's position says about the store. *)
Definition node_ok (s : S) (p : ca_pc) : Prop :=
  match p with
  | CGetCert | CGenerate | CDone (Err _) => True
  | CGetKey c => stored s caCertPath = Some c
  | CPutCert c k => pairs c k
  | CPutKey c k => pairs c k ∧ stored s caCertPath = Some c ∧ stored s caKeyPath = None
  | CDone (Ok (c, k)) => stored s caCertPath = Some c ∧ stored s caKeyPath = Some k
  end.

Definition putting_key (p : ca_pc) : Prop := match p with CPutKey _ _ => True | _ => False end.

Record ca_inv (cl : cluster S) : Prop := {
  ci_shape : match stored (cl_store cl) caCertPath, stored (cl_store cl) caKeyPath with
             | None, Some _ => False
             | Some c, Some k => pairs c k
             | _, None => True
             end;
  ci_node : ∀ i p, cl_nodes cl !! i = Some (Some p) → node_ok (cl_store cl) p;
  ci_one : ∀ i j p q, cl_nodes cl !! i = Some (Some p) → cl_nodes cl !! j = Some (Some q) →
    putting_key p → putting_key q → i = j;
}.

Lemma stored_get (s : S) key :
  match stored s key with
  | None => Get s key = Err ErrNotFound
  | Some data => ∃ info, Get s key = Ok (data, info)
  end.
Proof.
  unfold stored. pose proof (Get_law s key) as H. destruct (contents s !! key) as [[data etag]|]; cbn; [|done].
  destruct H as (info & ? & _). by eexists.
Qed.

Lemma stored_put (s : S) now key data :
  match stored s key with
  | Some _ => Put s now key data [IfNoneMatch] = (Err ErrPreconditionFailed, s)
  | None => ∃ info s', Put s now key data [IfNoneMatch] = (Ok info, s') ∧
      ∀ key', stored s' key' = if decide (key = key') then Some data else stored s key'
  end.
Proof.
  unfold stored. pose proof (put_if_none s now key data) as H. destruct (contents s !! key); cbn; [done|].
  destruct H as (info & s' & Hp & Hc). exists info, s'. split; [done|]. intros key'.
  rewrite Hc, lookup_insert. by case_decide.
Qed.

(** A node moves without writing. *)
Lemma inv_move s nodes i p p' :
  ca_inv (mkCluster s nodes) → nodes !! i = Some (Some p) →
  node_ok s p' → ¬ putting_key p' → ca_inv (mkCluster s (<[i := Some p']> nodes)).
Proof.
  intros [Hsh Hn Ho] Hi Hp' Hnp. split; cbn in *; [done|..].
  - intros j q [[<- Hq]|[_ Hj]]%list_lookup_insert_Some; [by destruct Hq as [[= <-] _]|by eapply Hn].
  - intros j j' q q' [[<- Hq]|[_ Hj]]%list_lookup_insert_Some [[<- Hq']|[_ Hj']]%list_lookup_insert_Some Hpq Hpq'.
    + done.
    + by destruct Hq as [[= <-] _].
    + by destruct Hq' as [[= <-] _].
    + by eapply Ho.
Qed.

(** The winner of the certificate: nobody else had got past it. *)
Lemma inv_put_cert s s' nodes i c k :
  ca_inv (mkCluster s nodes) → nodes !! i = Some (Some (CPutCert c k)) →
  stored s caCertPath = None →
  (∀ key, stored s' key = if decide (caCertPath = key) then Some c else stored s key) →
  ca_inv (mkCluster s' (<[i := Some (CPutKey c k)]> nodes)).
Proof.
  intros [Hsh Hn Ho] Hi Hnone Hs'. cbn [cl_store cl_nodes] in *. pose proof (Hn _ _ Hi) as Hpair. cbn [node_ok] in Hpair.
  rewrite Hnone in Hsh. assert (stored s caKeyPath = None) as Hk by (by destruct (stored s caKeyPath)).
  assert (stored s' caCertPath = Some c) as Hc' by (by rewrite Hs').
  assert (stored s' caKeyPath = None) as Hk' by (by rewrite Hs').
  assert (∀ j q, nodes !! j = Some (Some q) → node_ok s' q ∧ ¬ putting_key q) as Hothers.
  { intros j q Hj%Hn. destruct q as [|c'| |c' k'|c' k'|[[c' k']|e]]; cbn [node_ok putting_key] in *; try tauto.
    - congruence.
    - destruct Hj as (_ & ? & _). congruence.
    - destruct Hj as [? _]. congruence. }
  split; cbn.
  - by rewrite Hc', Hk'.
  - intros j q [(<- & [= <-] & _)|[_ Hj]]%list_lookup_insert_Some; [done|by eapply Hothers].
  - intros j j' q q' [(<- & _)|[_ Hj]]%list_lookup_insert_Some [(<- & _)|[_ Hj']]%list_lookup_insert_Some Hq Hq'.
    + done.
    + by apply Hothers in Hj' as [_ ?].
    + by apply Hothers in Hj as [_ ?].
    + by apply Hothers in Hj as [_ ?].
Qed.

(** The winner stores its key: the pair is complete. *)
Lemma inv_put_key s s' nodes i c k :
  ca_inv (mkCluster s nodes) → nodes !! i = Some (Some (CPutKey c k)) →
  (∀ key, stored s' key = if decide (caKeyPath = key) then Some k else stored s key) →
  ca_inv (mkCluster s' (<[i := Some (CDone (Ok (c, k)))]> nodes)).
Proof.
  intros [Hsh Hn Ho] Hi Hs'. cbn [cl_store cl_nodes] in *. pose proof (Hn _ _ Hi) as (Hpair & Hc & Hk).
  assert (stored s' caCertPath = Some c) as Hc' by (by rewrite Hs').
  assert (stored s' caKeyPath = Some k) as Hk' by (by rewrite Hs').
  assert (∀ j q, j ≠ i → nodes !! j = Some (Some q) → node_ok s' q ∧ ¬ putting_key q) as Hothers.
  { intros j q Hne Hj. pose proof (Hn _ _ Hj) as Hq. destruct q as [|c'| |c' k'|c' k'|[[c' k']|e]]; cbn [node_ok putting_key] in *; try tauto.
    - split; [|tauto]. congruence.
    - exfalso. apply Hne. by eapply Ho.
    - destruct Hq as [_ ?]. congruence. }
  split; cbn.
  - by rewrite Hc', Hk'.
  - intros j q [(<- & [= <-] & _)|[Hne Hj]]%list_lookup_insert_Some; [done|by eapply Hothers].
  - intros j j' q q' [(<- & [= <-] & _)|[Hne Hj]]%list_lookup_insert_Some [(<- & [= <-] & _)|[Hne' Hj']]%list_lookup_insert_Some Hq Hq'.
    + done.
    + done.
    + done.
    + exfalso. by eapply (Hothers j q).
Qed.

Ltac move_node :=
  eapply inv_move; [eassumption|eassumption|cbn [node_ok]; try done|cbn [putting_key]; tauto].

Lemma ca_move_inv cl cl' : ca_inv cl → ca_move pairs cl cl' → ca_inv cl'.
Proof.
  intros Hinv Hmove. destruct Hmove as [s nodes i p now gen s' p' Hi Hgen Hstep|s nodes i p Hi].
  - pose proof (ci_node _ Hinv _ _ Hi) as Hp. cbn in Hp. destruct p as [|c| |c k|c k|r]; cbn [ca_step] in Hstep.
    + pose proof (stored_get s caCertPath) as Hg. destruct (stored s caCertPath) as [c|] eqn:E.
      * destruct Hg as [info Hg]. rewrite Hg in Hstep. injection Hstep as <- <-. move_node.
      * rewrite Hg in Hstep. injection Hstep as <- <-. move_node.
    + pose proof (stored_get s caKeyPath) as Hg. destruct (stored s caKeyPath) as [k|] eqn:E.
      * destruct Hg as [info Hg]. rewrite Hg in Hstep. injection Hstep as <- <-. move_node.
      * rewrite Hg in Hstep. injection Hstep as <- <-. move_node.
    + destruct gen as [[c k]|]; injection Hstep as <- <-; move_node. by apply Hgen.
    + pose proof (stored_put s now caCertPath c) as Hput. destruct (stored s caCertPath) as [c0|] eqn:E.
      * rewrite Hput in Hstep. injection Hstep as <- <-. move_node.
      * destruct Hput as (info & s1 & Hput & Hs1). rewrite Hput in Hstep. injection Hstep as <- <-.
        by eapply inv_put_cert.
    + pose proof (stored_put s now caKeyPath k) as Hput. destruct Hp as (Hpair & Hc & Hk). rewrite Hk in Hput.
      destruct Hput as (info & s1 & Hput & Hs1). rewrite Hput in Hstep. injection Hstep as <- <-.
      by eapply inv_put_key.
    + injection Hstep as <- <-. move_node.
  - destruct Hinv as [Hsh Hn Ho]. split; cbn in *; [done|..].
    + intros j q [(_ & ? & _)|[_ Hj]]%list_lookup_insert_Some; [done|by eapply Hn].
    + intros j j' q q' [(_ & ? & _)|[_ Hj]]%list_lookup_insert_Some [(_ & ? & _)|[_ Hj']]%list_lookup_insert_Some; try done.
      by eapply Ho.
Qed.

(** A store in which nobody has started, or someone has finished. *)
Definition ca_start (s : S) : Prop :=
  match stored s caCertPath, stored s caKeyPath with
  | None, None => True
  | Some c, Some k => pairs c k
  | _, _ => False
  end.

Lemma start_inv s n : ca_start s → ca_inv (mkCluster s (replicate n (Some CGetCert))).
Proof.
  intros Hst. split; cbn.
  - unfold ca_start in Hst. by repeat case_match.
  - intros i p [[= ->] _]%lookup_replicate. done.
  - intros i j p q [[= ->] _]%lookup_replicate. done.
Qed.

(** What a call returns is what the store holds. *)
Lemma returned_stored s n cl i r :
  ca_start s → rtc (ca_move pairs) (mkCluster s (replicate n (Some CGetCert))) cl →
  cl_nodes cl !! i = Some (Some (CDone (Ok r))) →
  pairs r.1 r.2 ∧ stored (cl_store cl) caCertPath = Some r.1 ∧ stored (cl_store cl) caKeyPath = Some r.2.
Proof.
  intros Hstart Hrun Hret. assert (ca_inv cl) as [Hsh Hn _].
  { eapply (rtc_ind_r (fun cl => ca_inv cl)); [by apply start_inv| |exact Hrun].
    intros cl1 cl2 _ Hmove Hinv. by eapply ca_move_inv. }
  pose proof (Hn _ _ Hret) as Hr. destruct r as [c k]. destruct Hr as [Hc Hk]. cbn [fst snd].
  by rewrite Hc, Hk in Hsh.
Qed.

(** C15: All nodes get the same CA.  However the store accesses of any number of
    nodes interleave, and whichever of them crash, starting from a store that
    holds no CA or a complete one: every node that returns gets the same
    certificate and key, they are the ones in the store, and they were
    generated together. *)
Theorem ca_agreement s n cl i r
    (Hstart : ca_start s)
    (Hrun : rtc (ca_move pairs) (mkCluster s (replicate n (Some CGetCert))) cl)
    (Hret : cl_nodes cl !! i = Some (Some (CDone (Ok r)))) :
  pairs r.1 r.2 ∧ stored (cl_store cl) caCertPath = Some r.1 ∧ stored (cl_store cl) caKeyPath = Some r.2 ∧
  ∀ j r', cl_nodes cl !! j = Some (Some (CDone (Ok r'))) → r' = r.
Proof.
  destruct (returned_stored s n cl i r Hstart Hrun Hret) as (Hp & Hc & Hk). split_and!; [done..|].
  intros j r' Hj. destruct (returned_stored s n cl j r' Hstart Hrun Hj) as (_ & Hc' & Hk').
  destruct r, r'. cbn [fst snd] in *. congruence.
Qed.

(** A call that runs alone returns.  On a store with no CA it stores the pair it
    generates and returns it; on a store with a complete CA it returns that one
    and writes nothing; both within four accesses. *)
Theorem ca_alone_returns now gens (s : S)
    (Hgens : ∀ n, ∃ c k, gens n = Some (c, k) ∧ pairs c k) (Hstart : ca_start s) :
  let '(s', p) := getOrCreateCA 4 now gens s in
  ∃ c k, p = CDone (Ok (c, k)) ∧ pairs c k ∧
    stored s' caCertPath = Some c ∧ stored s' caKeyPath = Some k ∧
    (is_Some (stored s caCertPath) → s' = s).
Proof.
  unfold ca_start in Hstart. unfold getOrCreateCA. cbn [run_ca ca_step].
  pose proof (stored_get s caCertPath) as Gc. pose proof (stored_get s caKeyPath) as Gk.
  destruct (stored s caCertPath) as [c|] eqn:Ec, (stored s caKeyPath) as [k|] eqn:Ek; try done.
  - destruct Gc as [ic ->]. cbn [run_ca ca_step]. destruct Gk as [ik ->]. cbn [run_ca ca_step].
    exists c, k. by split_and!.
  - rewrite Gc. cbn [run_ca ca_step]. destruct (Hgens 2%nat) as (c & k & -> & Hp). cbn [run_ca ca_step].
    pose proof (stored_put s now caCertPath c) as Pc. rewrite Ec in Pc. destruct Pc as (ic & s1 & -> & Hs1).
    cbn [run_ca ca_step]. pose proof (stored_put s1 now caKeyPath k) as Pk.
    assert (stored s1 caKeyPath = None) as E1 by (by rewrite Hs1). rewrite E1 in Pk.
    destruct Pk as (ik & s2 & -> & Hs2).
    exists c, k. split_and!; [done|done|by rewrite Hs2, Hs1|by rewrite Hs2|by intros [? ?]].
Qed.

(** A position of a call that finds the certificate but no key. *)
Definition circling (p : ca_pc) : Prop :=
  match p with CGetCert | CGetKey _ | CGenerate | CPutCert _ _ => True | _ => False end.

(** A certificate without a key blocks everybody.  If the node that stored the
    certificate stops before it stores the key, every later call of
    getOrCreateCA goes round for ever: after any number of accesses it has
    neither returned nor failed, and has not changed the store. *)
Theorem ca_cert_without_key_blocks now gens (s : S) c
    (Hgens : ∀ n, is_Some (gens n))
    (Hc : stored s caCertPath = Some c) (Hk : stored s caKeyPath = None) :
  ∀ fuel, (getOrCreateCA fuel now gens s).1 = s ∧ ∀ r, (getOrCreateCA fuel now gens s).2 ≠ CDone r.
Proof.
  intros fuel. enough (∀ p, circling p → (run_ca fuel now gens s p).1 = s ∧ circling (run_ca fuel now gens s p).2) as Hloop.
  { destruct (Hloop CGetCert I) as [H1 H2]. split; [done|]. intros r Hr. unfold getOrCreateCA in Hr. by rewrite Hr in H2. }
  pose proof (stored_get s caCertPath) as Gc. pose proof (stored_get s caKeyPath) as Gk. rewrite Hc in Gc. rewrite Hk in Gk.
  destruct Gc as [ic Gc]. induction fuel as [|fuel IH]; intros p Hp; [done|]. cbn [run_ca].
  destruct p as [|c'| |c' k'|c' k'|r]; cbn [ca_step]; try done.
  - rewrite Gc. by apply IH.
  - rewrite Gk. by apply IH.
  - destruct (Hgens fuel) as [[c1 k1] ->]. by apply IH.
  - pose proof (stored_put s now caCertPath c') as Pc. rewrite Hc in Pc. rewrite Pc. by apply IH.
Qed.

(** A key without a certificate yields a CA that does not fit.  A call then
    stores its own certificate, fails to store its key, and returns its
    certificate together with the key that was there. *)
Theorem ca_key_without_cert_mismatch now gens (s : S) c k k0
    (Hgens : ∀ n, gens n = Some (c, k))
    (Hc : stored s caCertPath = None) (Hk : stored s caKeyPath = Some k0) :
  (getOrCreateCA 6 now gens s).2 = CDone (Ok (c, k0)).
Proof.
  unfold getOrCreateCA. cbn [run_ca ca_step].
  pose proof (stored_get s caCertPath) as Gc. rewrite Hc in Gc. rewrite Gc. cbn [run_ca ca_step].
  rewrite Hgens. cbn [run_ca ca_step].
  pose proof (stored_put s now caCertPath c) as Pc. rewrite Hc in Pc. destruct Pc as (ic & s1 & -> & Hs1). cbn [run_ca ca_step].
  assert (stored s1 caCertPath = Some c) as E1 by (by rewrite Hs1).
  assert (stored s1 caKeyPath = Some k0) as E2 by (by rewrite Hs1).
  pose proof (stored_put s1 now caKeyPath k) as Pk. rewrite E2 in Pk. rewrite Pk. cbn [run_ca ca_step].
  pose proof (stored_get s1 caCertPath) as Gc1. rewrite E1 in Gc1. destruct Gc1 as [i1 ->]. cbn [run_ca ca_step].
  pose proof (stored_get s1 caKeyPath) as Gk1. rewrite E2 in Gk1. destruct Gk1 as [i2 ->]. done.
Qed.
End Agreement.

(** ** Witnesses on the memory store *)

Definition any_pair (c k : bytes) : Prop := c = k.

Definition one_gen : nat → option (bytes * bytes) := fun n => Some ([byte_of_Z (Z.of_nat n)], [byte_of_Z (Z.of_nat n)]).

(** Two nodes: both find nothing, the second wins, the first reads its CA. *)
Lemma two_nodes_one_ca :
  ∃ cl, rtc (ca_move any_pair) (mkCluster NewMemoryObjectStore (replicate 2 (Some CGetCert))) cl ∧
    cl_nodes cl = [Some (CDone (Ok ([x62], [x62]))); Some (CDone (Ok ([x62], [x62])))].
Proof.
  eexists. split.
  - eapply rtc_l; [apply (ca_access _ _ _ 0 CGetCert 0 None); [done|done|vm_compute; reflexivity]|].
    eapply rtc_l; [apply (ca_access _ _ _ 1 CGetCert 0 None); [done|done|vm_compute; reflexivity]|].
    eapply rtc_l; [apply (ca_access _ _ _ 0 CGenerate 0 (Some ([x61], [x61]))); [done|by intros c k [= <- <-]|vm_compute; reflexivity]|].
    eapply rtc_l; [apply (ca_access _ _ _ 1 CGenerate 0 (Some ([x62], [x62]))); [done|by intros c k [= <- <-]|vm_compute; reflexivity]|].
    eapply rtc_l; [eapply (ca_access _ _ _ 1 _ 0 None); [done|done|vm_compute; reflexivity]|].
    eapply rtc_l; [eapply (ca_access _ _ _ 0 _ 0 None); [done|done|vm_compute; reflexivity]|].
    eapply rtc_l; [eapply (ca_access _ _ _ 1 _ 0 None); [done|done|vm_compute; reflexivity]|].
    eapply rtc_l; [eapply (ca_access _ _ _ 0 _ 0 None); [done|done|vm_compute; reflexivity]|].
    eapply rtc_l; [eapply (ca_access _ _ _ 0 _ 0 None); [done|done|vm_compute; reflexivity]|].
    apply rtc_refl.
  - reflexivity.
Qed.

Lemma ca_agreement_witness :
  ∃ cl, rtc (ca_move any_pair) (mkCluster NewMemoryObjectStore (replicate 2 (Some CGetCert))) cl ∧
    cl_nodes cl = [Some (CDone (Ok ([x62], [x62]))); Some (CDone (Ok ([x62], [x62])))] ∧
    any_pair [x62] [x62].
Proof.
  destruct two_nodes_one_ca as (cl & Hrun & Hn). exists cl. split; [exact Hrun|]. split; [exact Hn|].
  refine (proj1 (ca_agreement any_pair NewMemoryObjectStore 2 cl 0 ([x62], [x62]) I Hrun _)).
  rewrite Hn. reflexivity.
Defined.

Lemma ca_alone_returns_witness :
  let '(s', p) := getOrCreateCA 4 0 one_gen NewMemoryObjectStore in
  ∃ c k, p = CDone (Ok (c, k)) ∧ any_pair c k ∧ stored s' caCertPath = Some c ∧ stored s' caKeyPath = Some k.
Proof.
  pose proof (ca_alone_returns any_pair 0 one_gen NewMemoryObjectStore) as H.
  destruct (getOrCreateCA 4 0 one_gen NewMemoryObjectStore) as [s' p].
  destruct H as (c & k & H1 & H2 & H3 & H4 & _).
  - intros n. eexists _, _. split; reflexivity.
  - exact I.
  - exists c, k. repeat split; assumption.
Defined.

(** A node has stored its certificate and stopped. *)
Definition cert_only : MemoryObjectStore := (Put NewMemoryObjectStore 0 caCertPath [x61] [IfNoneMatch]).2.

Lemma ca_cert_without_key_blocks_witness :
  stored cert_only caKeyPath = None ∧
  ∀ fuel, (getOrCreateCA fuel 0 one_gen cert_only).1 = cert_only ∧
    ∀ r, (getOrCreateCA fuel 0 one_gen cert_only).2 ≠ CDone r.
Proof.
  split; [vm_compute; reflexivity|].
  apply (ca_cert_without_key_blocks 0 one_gen cert_only [x61]).
  - intros n. eexists. reflexivity.
  - vm_compute. reflexivity.
  - vm_compute. reflexivity.
Defined.

Lemma ca_key_without_cert_mismatch_witness :
  (getOrCreateCA 6 0 (fun _ => Some ([x61], [x61])) (Put NewMemoryObjectStore 0 caKeyPath [x7a] []).2).2 =
  CDone (Ok ([x61], [x7a])).
Proof.
  apply (ca_key_without_cert_mismatch 0 (fun _ => Some ([x61], [x61])) _ [x61] [x61] [x7a]).
  - reflexivity.
  - vm_compute. reflexivity.
  - vm_compute. reflexivity.
Defined.

(** ** The registry as a map *)

Section RegistrySpec.
Context {S : Type} `{HS : ObjectStore S} `{HSp : !ObjectStoreSpec S}.
Context `{HJ : JSON NodeRegistration} `{HJp : !JSONSpec NodeRegistration}.

Inductive reg_op :=
| ORegister (now : Z) (reg : NodeRegistration)
| ODeregister (nodeID : string).

Definition do_reg (s : S) (op : reg_op) : S :=
  match op with
  | ORegister now reg => (Register s now reg).2
  | ODeregister id => (Deregister s id).2
  end.

(** What the registry should hold: the last registration of each node. *)
Definition reg_model (m : gmap string NodeRegistration) (op : reg_op) : gmap string NodeRegistration :=
  match op with
  | ORegister now reg => <[NodeID reg := stamped now reg]> m
  | ODeregister id => delete id m
  end.

Definition op_ok (op : reg_op) : Prop :=
  match op with ORegister now reg => json_ok (stamped now reg) | ODeregister _ => True end.

(** The object of a node decodes to its registration. *)
Definition holds_reg (obj : option (bytes * string)) (id : string) (r : option NodeRegistration) : Prop :=
  match r with
  | Some reg => ∃ data etag, obj = Some (data, etag) ∧ Unmarshal data = Some reg ∧ NodeID reg = id
  | None => obj = None
  end.

Definition reg_inv (s : S) (m : gmap string NodeRegistration) : Prop :=
  ∀ id, holds_reg (contents s !! (nodePrefix +:+ id)) id (m !! id).

Lemma NodeID_stamped now reg : NodeID (stamped now reg) = NodeID reg.
Proof. unfold stamped. by destruct (_ =? 0). Qed.

Lemma do_reg_inv s m op : op_ok op → reg_inv s m → reg_inv (do_reg s op) (reg_model m op).
Proof.
  intros Hop Hinv id. destruct op as [now reg|id']; cbn [do_reg reg_model].
  - unfold Register. cbv zeta. destruct (Unmarshal_Marshal _ Hop) as (data & Hm & Hu). rewrite Hm, NodeID_stamped.
    destruct (put_plain s now (nodePrefix +:+ NodeID reg) data) as (info & s' & Hp & Hc). rewrite Hp. cbn [snd]. rewrite Hc.
    destruct (decide (NodeID reg = id)) as [<-|Hne].
    + rewrite !lookup_insert_eq. eexists _, _. by rewrite NodeID_stamped.
    + rewrite !lookup_insert_ne by (try done; intros Heq; by apply (inj _) in Heq). apply Hinv.
  - unfold Deregister. destruct (Delete_law s (nodePrefix +:+ id')) as (s' & Hd & Hc). rewrite Hd. cbn [snd]. rewrite Hc.
    destruct (decide (id' = id)) as [<-|Hne].
    + by rewrite !lookup_delete_eq.
    + rewrite !lookup_delete_ne by (try done; intros Heq; by apply (inj _) in Heq). apply Hinv.
Qed.

Lemma discover_loop_spec s m keys :
  reg_inv s m → Forall (fun key => ∃ id, key = nodePrefix +:+ id ∧ is_Some (m !! id)) keys →
  ∃ peers, discover_loop s keys = Ok peers ∧
    Forall2 (fun key reg => key = nodePrefix +:+ NodeID reg ∧ m !! NodeID reg = Some reg) keys peers.
Proof.
  intros Hinv. induction 1 as [|key keys (id & -> & reg & Hreg) _ (peers & IH & Hall)]; cbn [discover_loop].
  { exists []. split; [done|constructor]. }
  specialize (Hinv id). rewrite Hreg in Hinv. destruct Hinv as (data & etag & Hobj & Hu & Hid).
  pose proof (Get_law s (nodePrefix +:+ id)) as Hg. rewrite Hobj in Hg. destruct Hg as (info & Hg & _).
  rewrite Hg, Hu, IH. cbn. exists (reg :: peers). split; [done|]. constructor; [|done]. by rewrite Hid.
Qed.

(** A store that represents [m] is read as [m]. *)
Lemma discover_exact s m :
  reg_inv s m →
  ∃ peers, DiscoverPeers s = Ok peers ∧ NoDup (NodeID <$> peers) ∧ ∀ reg, reg ∈ peers ↔ m !! NodeID reg = Some reg.
Proof.
  intros Hinv. destruct (List_law s nodePrefix) as (keys & Hl & _ & Hnd & Hin). unfold DiscoverPeers. rewrite Hl.
  assert (∀ id, is_Some (m !! id) ↔ (nodePrefix +:+ id) ∈ keys) as Hkeys.
  { intros id. rewrite Hin. specialize (Hinv id). split.
    - intros [reg Hreg]. rewrite Hreg in Hinv. destruct Hinv as (data & etag & Hobj & _).
      split; [apply string_prefix_app; by exists id|by eexists].
    - intros [_ [x Hx]]. destruct (m !! id) as [reg|]; [by eexists|]. cbn in Hinv. congruence. }
  destruct (discover_loop_spec s m keys Hinv) as (peers & Hd & Hall).
  { apply Forall_forall. intros key Hk. pose proof Hk as (Hp & _)%Hin. apply string_prefix_app in Hp as (id & ->).
    exists id. split; [done|]. by apply Hkeys. }
  exists peers. split_and!; [done| |].
  - apply (NoDup_fmap_1 (fun id => nodePrefix +:+ id)). rewrite <- list_fmap_compose.
    replace ((fun id => nodePrefix +:+ id) ∘ NodeID <$> peers) with keys; [done|].
    clear -Hall. induction Hall as [|k r ks rs [-> _] _ IH]; [done|]. cbn. by rewrite <- IH.
  - intros reg. split.
    + intros (j & Hj)%list_elem_of_lookup. by destruct (Forall2_lookup_r _ _ _ _ _ Hall Hj) as (? & _ & _ & ?).
    + intros Hreg. assert ((nodePrefix +:+ NodeID reg) ∈ keys) as Hk by (apply Hkeys; by eexists).
      apply list_elem_of_lookup in Hk as (j & Hj). destruct (Forall2_lookup_l _ _ _ _ _ Hall Hj) as (reg' & Hr & Heq & Hm').
      apply (inj _) in Heq. rewrite Heq in Hreg. assert (reg' = reg) as <- by congruence. by eapply list_elem_of_lookup_2.
Qed.

Lemma reg_inv_ops s0 m0 ops : reg_inv s0 m0 → Forall op_ok ops → reg_inv (foldl do_reg s0 ops) (foldl reg_model m0 ops).
Proof.
  intros H0 Hops. revert s0 m0 H0. induction Hops as [|op ops Hop _ IH]; intros s0 m0 H0; [done|]. cbn [foldl].
  apply IH. by apply do_reg_inv.
Qed.

Lemma reg_inv_empty s0 : (∀ id, contents s0 !! (nodePrefix +:+ id) = None) → reg_inv s0 ∅.
Proof. intros Hempty id. by rewrite lookup_empty, Hempty. Qed.

(** C39: The registry is a map from node to registration.  After any sequence of
    Register and Deregister calls on a store that held no node, by whatever
    nodes, DiscoverPeers returns exactly the last registration of every node
    that has one, each once. *)
Theorem registry_exact s0 ops
    (Hempty : ∀ id, contents s0 !! (nodePrefix +:+ id) = None) (Hops : Forall op_ok ops) :
  let m := foldl reg_model ∅ ops in
  ∃ peers, DiscoverPeers (foldl do_reg s0 ops) = Ok peers ∧ NoDup (NodeID <$> peers) ∧
    ∀ reg, reg ∈ peers ↔ m !! NodeID reg = Some reg.
Proof. intros m. apply discover_exact, reg_inv_ops; [by apply reg_inv_empty|done]. Qed.
End RegistrySpec.

#[export] Instance NodeRegistration_countable : Countable NodeRegistration.
Proof.
  apply (inj_countable' (fun r => (NodeID r, Addrs r, PublicAddr r, IsRelay r, RegisteredAt r))
    (fun '(a, b, c, d, e) => mkReg a b c d e)). by intros [].
Defined.

Lemma registry_exact_witness :
  let ops := [ORegister 5 (mkReg "a" ["10.0.0.1:1"] "" false 0); ORegister 6 (mkReg "b" [] "" true 0);
              ODeregister "b"] in
  ∃ peers, DiscoverPeers (foldl do_reg NewMemoryObjectStore ops) = Ok peers ∧ NoDup (NodeID <$> peers) ∧
    mkReg "a" ["10.0.0.1:1"%string] "" false 5 ∈ peers.
Proof.
  intros ops. destruct (registry_exact NewMemoryObjectStore ops) as (peers & H1 & H2 & H3).
  - intros id. cbn. by rewrite fmap_empty, lookup_empty.
  - repeat constructor.
  - exists peers. split; [exact H1|]. split; [exact H2|]. apply H3. vm_compute. reflexivity.
Defined.
