(* ===== verification/Tls.v ===== *)
(** * Cluster TLS (src/bootstrap/tls.go)

    [SetupClusterTLS] on top of the shared CA: a node certificate signed by the
    CA, and a configuration that presents it and trusts the CA.  Certificates and
    configurations come from memberlist-quic/tlsutil, the class [TLSUtil]; what
    its documentation promises is [TLSUtilSpec]. *)

From S2P Require Import Prelude Netaddr Objstore Bootstrap.

(** Generating a certificate draws on the clock and on random numbers, the first
    argument. *)
Class TLSUtil (T : Type) := {
  GenerateNodeCertWithIPs : Z → bytes → bytes → string → list IP → Z → option (bytes * bytes);
  MutualTLSConfig : bytes → bytes → bytes → option T;
}.

(** A node certificate is signed by the CA it was generated with; a configuration
    presents its certificate and trusts its CA. *)
Class TLSUtilSpec (T : Type) `{TLSUtil T} (pairs : bytes → bytes → Prop) := {
  signed_by : bytes → bytes → string → Prop;
  presents : T → bytes → Prop;
  trusts : T → bytes → Prop;
  node_cert_signed : ∀ seed ca key id ips validity c k, pairs ca key →
    GenerateNodeCertWithIPs seed ca key id ips validity = Some (c, k) → signed_by c ca id;
  config_trusts : ∀ c k ca cfg, MutualTLSConfig c k ca = Some cfg → presents cfg c ∧ trusts cfg ca;
}.

(** In nanoseconds: 10 years and 1 year. *)
Definition caValidity : Z := 10 * 365 * 24 * 3600 * 10 ^ 9.

Definition nodeValidity : Z := 365 * 24 * 3600 * 10 ^ 9.

Inductive tls_error := ErrNoStore | ErrCA (e : boot_error) | ErrNodeCert | ErrTLSConfig | ErrCAPending.

Section Setup.
Context {T : Type} `{HT : TLSUtil T}.

(** The part after getOrCreateCA has returned [r]. *)
Definition finish_tls (seed : Z) (r : result boot_error (bytes * bytes)) (nodeID : string) (ips : list IP) : result tls_error T :=
  match r with
  | Err e => Err (ErrCA e)
  | Ok (caCert, caKey) =>
      match GenerateNodeCertWithIPs seed caCert caKey nodeID ips nodeValidity with
      | None => Err ErrNodeCert
      | Some (nodeCert, nodeKey) =>
          match MutualTLSConfig nodeCert nodeKey caCert with
          | None => Err ErrTLSConfig
          | Some cfg => Ok cfg
          end
      end
  end.

(** A call that runs alone; [None] is a nil store.  [ErrCAPending] stands for a
    call that has not returned after [fuel] accesses. *)
Definition SetupClusterTLS {S} `{ObjectStore S} (fuel : nat) (now seed : Z) (gens : nat → option (bytes * bytes))
    (store : option S) (nodeID : string) (ips : list IP) : option S * result tls_error T :=
  match store with
  | None => (None, Err ErrNoStore)
  | Some s =>
      match getOrCreateCA fuel now gens s with
      | (s', CDone r) => (Some s', finish_tls seed r nodeID ips)
      | (s', _) => (Some s', Err ErrCAPending)
      end
  end.
End Setup.

(** [GetCACert] is [getOrCreateCA]. *)
Definition GetCACert {S} `{ObjectStore S} (fuel : nat) (now : Z) (gens : nat → option (bytes * bytes)) (s : S) : S * ca_pc :=
  getOrCreateCA fuel now gens s.

Section Mutual.
Context {S : Type} `{HS : ObjectStore S} `{HSp : !ObjectStoreSpec S} (pairs : bytes → bytes → Prop).
Context {T : Type} `{HT : TLSUtil T} `{HTp : !TLSUtilSpec T pairs}.

Lemma finish_tls_ok seed r id ips cfg :
  (∀ ca key, r = Ok (ca, key) → pairs ca key) → finish_tls seed r id ips = Ok cfg →
  ∃ ca key c, r = Ok (ca, key) ∧ presents cfg c ∧ trusts cfg ca ∧ signed_by c ca id.
Proof.
  unfold finish_tls. destruct r as [[ca key]|]; [|done]. intros Hp.
  destruct (GenerateNodeCertWithIPs _ _ _ _ _ _) as [[c k]|] eqn:Eg; [|done].
  destruct (MutualTLSConfig c k ca) as [cfg'|] eqn:Em; [|done]. intros [= <-].
  destruct (config_trusts _ _ _ _ Em) as [H1 H2]. exists ca, key, c. split_and!; [done|done|done|].
  eapply node_cert_signed; [|exact Eg]. by apply Hp.
Qed.

(** C17: Nodes of a cluster authenticate each other.  However the store accesses of
    the nodes interleave and whichever of them crash while the CA is made, the
    certificate any node ends up presenting carries its ID and is signed by the
    CA that every other node trusts. *)
Theorem cluster_mutual_tls s n cl i j ri rj seedi seedj idi idj ipsi ipsj cfgi cfgj
    (Hstart : ca_start pairs s)
    (Hrun : rtc (ca_move pairs) (mkCluster s (replicate n (Some CGetCert))) cl)
    (Hi : cl_nodes cl !! i = Some (Some (CDone ri))) (Hj : cl_nodes cl !! j = Some (Some (CDone rj)))
    (Hcfgi : finish_tls seedi ri idi ipsi = Ok cfgi) (Hcfgj : finish_tls seedj rj idj ipsj = Ok cfgj) :
  ∃ ca cert, presents cfgi cert ∧ signed_by cert ca idi ∧ trusts cfgj ca.
Proof.
  assert (∀ k r, cl_nodes cl !! k = Some (Some (CDone (Ok r))) → pairs r.1 r.2 ∧ stored (cl_store cl) caCertPath = Some r.1) as Hret.
  { intros k r Hk. destruct (returned_stored pairs s n cl k r Hstart Hrun Hk) as (? & ? & _). done. }
  destruct (finish_tls_ok seedi ri idi ipsi cfgi) as (ca & key & c & -> & H1 & _ & H3); [|done|].
  { intros ca key ->. apply (Hret i (ca, key) Hi). }
  destruct (finish_tls_ok seedj rj idj ipsj cfgj) as (ca' & key' & c' & -> & _ & H2 & _); [|done|].
  { intros ca' key' ->. apply (Hret j (ca', key') Hj). }
  destruct (Hret i _ Hi) as [_ Hc]. destruct (Hret j _ Hj) as [_ Hc']. cbn in Hc, Hc'.
  assert (ca' = ca) as -> by congruence. by exists ca, c.
Qed.
End Mutual.

(** ** A TLS library in which a certificate is its issuer and its subject *)

#[export] Instance plain_tls : TLSUtil (bytes * bytes) | 100 := {|
  GenerateNodeCertWithIPs := fun _ ca key id _ _ => Some (ca ++ bytes_of id, key);
  MutualTLSConfig := fun c _ ca => Some (c, ca);
|}.

#[export] Instance plain_tls_spec pairs : TLSUtilSpec (bytes * bytes) pairs | 100.
Proof.
  refine {| signed_by := fun c ca id => c = ca ++ bytes_of id; presents := fun cfg c => cfg.1 = c; trusts := fun cfg ca => cfg.2 = ca |}.
  - by intros seed ca key id ips validity c k _ [= <- <-].
  - by intros c k ca cfg [= <-].
Defined.

Lemma cluster_mutual_tls_witness :
  ∃ cl ri rj, rtc (ca_move any_pair) (mkCluster NewMemoryObjectStore (replicate 2 (Some CGetCert))) cl ∧
    cl_nodes cl = [Some (CDone ri); Some (CDone rj)] ∧
    ∃ ca cert, signed_by (T := bytes * bytes) (pairs := any_pair) cert ca "a" ∧ trusts (T := bytes * bytes) (pairs := any_pair) ([x62; x62], [x62]) ca.
Proof.
  destruct two_nodes_one_ca as (cl & Hrun & Hn).
  exists cl, (Ok ([x62], [x62])), (Ok ([x62], [x62])). split; [exact Hrun|]. split; [exact Hn|].
  destruct (cluster_mutual_tls any_pair NewMemoryObjectStore 2 cl 0 1 (Ok ([x62], [x62])) (Ok ([x62], [x62])) 0 0 "a" "b" [] []
    ([x62; x61], [x62]) ([x62; x62], [x62])) as (ca & cert & _ & H2 & H3).
  - exact I.
  - exact Hrun.
  - rewrite Hn. reflexivity.
  - rewrite Hn. reflexivity.
  - reflexivity.
  - reflexivity.
  - exists ca, cert. split; [exact H2|exact H3].
Defined.
