(* ===== verification/Natutil.v ===== *)
(** * Address detection (src/natutil/detect.go, src/natutil/reflect.go)

    [DetectNAT] compares the bind address with the one a peer observed; the
    addresses of the local interfaces are an argument.

    Address reflection: a node asks a peer by a datagram, the peer answers with
    the sender's address as it sees it.  The closures the code registers for the
    message type are the values of [reflect_handler]; the result channel of a
    call of [RequestReflection], which holds one string, is a number.  Datagrams
    that are handed to the transport are returned with their destination. *)

From S2P Require Import Prelude Netaddr Stream EagerWire Repair Engine Transport.

(** ** NAT status *)

Record NATStatus := mkNAT { PublicAddress : string; IsNATed : bool; CanRelay : bool }.

(** [net.InterfaceAddrs]: an error, or the addresses, [None] for one that is not
    a [*net.IPNet]. *)
Definition isLocalIP (ifaces : option (list (option IP))) (ip : IP) : bool :=
  match ip with
  | [] => false
  | _ =>
      match ifaces with
      | None => false
      | Some addrs => existsb (fun a => match a with Some x => ip_equal x ip | None => false end) addrs
      end
  end.

Definition DetectNAT (ifaces : option (list (option IP))) (bindAddr reflectedAddr : string) : NATStatus :=
  if decide (reflectedAddr = ""%string) then mkNAT "" false false
  else
    let bindIP := ParseIP (splitHost bindAddr) in
    let reflectedIP := ParseIP (splitHost reflectedAddr) in
    if negb (bool_decide (bindIP = [])) && IsUnspecified bindIP then
      mkNAT reflectedAddr (negb (isLocalIP ifaces reflectedIP)) (isLocalIP ifaces reflectedIP)
    else
      let natted := negb (ip_equal bindIP reflectedIP) in
      mkNAT reflectedAddr natted (negb natted).

(** ** Reflection *)

Definition MsgTypeAddrReflect : byte := x30.
Definition reflectRequest : byte := x00.
Definition reflectResponse : byte := x01.

Inductive reflect_handler :=
| HRespond                (** of [RegisterReflectHandler] *)
| HRequest (ch : nat)     (** of a call of [RequestReflection] *)
| HForeign (n : nat).     (** of another component *)

Record reflector := mkReflector {
  rf_handlers : Handlers reflect_handler;
  rf_chans : list (option string);   (** the result channels, of capacity one *)
}.

Definition RegisterReflectHandler (n : reflector) : reflector :=
  mkReflector (RegisterDatagramHandler MsgTypeAddrReflect HRespond (rf_handlers n)) (rf_chans n).

(** The answer to a request: the observed address of the sender. *)
Definition reflect_response (from : string) : bytes :=
  MsgTypeAddrReflect :: reflectResponse :: bytes_of from.

Definition reflect_request : bytes := [MsgTypeAddrReflect; reflectRequest].

(** [select { case resultCh <- addr: default: }] *)
Definition try_send (ch : nat) (addr : string) (chans : list (option string)) : list (option string) :=
  match chans !! ch with
  | Some None => <[ch := Some addr]> chans
  | _ => chans
  end.

(** A handler called with the data after the type byte; the datagrams it sends. *)
Definition run_reflect (h : reflect_handler) (from : string) (data : bytes) (chans : list (option string)) :
    list (option string) * list (string * bytes) :=
  match data with
  | [] => (chans, [])
  | b :: rest =>
      match h with
      | HRespond => (chans, if decide (b = reflectRequest) then [(from, reflect_response from)] else [])
      | HRequest ch =>
          if decide (b = reflectRequest) then (chans, [(from, reflect_response from)])
          else if decide (b = reflectResponse) then (try_send ch (string_of rest) chans, [])
          else (chans, [])
      | HForeign _ => (chans, [])
      end
  end.

(** A datagram arrives. *)
Definition on_datagram (n : reflector) (from : string) (msg : bytes) : reflector * list (string * bytes) :=
  match receiveDatagram (rf_handlers n) msg with
  | None => (n, [])
  | Some (h, data) =>
      let '(chans, out) := run_reflect h from data (rf_chans n) in (mkReflector (rf_handlers n) chans, out)
  end.

Inductive reflect_error := ErrSendReflect | ErrContext | ErrTimeout.

(** [RequestReflection] up to its wait: make the channel, register the handler,
    send the request ([sent] is whether that succeeds). *)
Definition request_begin (n : reflector) (peerAddr : string) (sent : bool) :
    reflector * result reflect_error nat * list (string * bytes) :=
  let ch := length (rf_chans n) in
  let n1 := mkReflector (RegisterDatagramHandler MsgTypeAddrReflect (HRequest ch) (rf_handlers n))
              (rf_chans n ++ [None]) in
  if sent then (n1, Ok ch, [(peerAddr, reflect_request)]) else (n1, Err ErrSendReflect, []).

(** What ends the wait. *)
Inductive wake := WResult | WContext | WTimeout.

(** The wait: [None] while the chosen case is not ready. *)
Definition request_end (n : reflector) (ch : nat) (w : wake) : option (result reflect_error string) :=
  match w with
  | WResult => match rf_chans n !! ch with Some (Some addr) => Some (Ok addr) | _ => None end
  | WContext => Some (Err ErrContext)
  | WTimeout => Some (Err ErrTimeout)
  end.

(** How long the wait lasts at most, in nanoseconds, when the context has
    [remaining] time left. *)
Definition reflect_timeout (remaining : option Z) : Z :=
  let timeout := 5 * 10 ^ 9 in
  match remaining with
  | Some r => if r <? timeout then r else timeout
  | None => timeout
  end.

(** Datagrams that arrive one after the other. *)
Fixpoint on_datagrams (n : reflector) (ds : list (string * bytes)) : reflector * list (string * bytes) :=
  match ds with
  | [] => (n, [])
  | (from, msg) :: ds' =>
      let '(n1, out1) := on_datagram n from msg in
      let '(n2, out2) := on_datagrams n1 ds' in
      (n2, out1 ++ out2)
  end.

(** ** Properties of the detection *)

Lemma ip_equal_16 (ip x : IP) : length ip = length x → ip_equal ip x = bool_decide (ip = x).
Proof. intros H. unfold ip_equal. by rewrite H, Nat.eqb_refl. Qed.

Lemma ip_equal_v4 (l1 l2 : bytes) :
  length l1 = length l2 → ip_equal (v4InV6Prefix ++ l1) (v4InV6Prefix ++ l2) = bool_decide (l1 = l2).
Proof.
  intros Hl. rewrite ip_equal_16 by (rewrite !length_app; lia). apply bool_decide_ext.
  split; [by intros ?%app_inv_head|congruence].
Qed.

Lemma splitHost_ipv4 a b c d p : plain_port p → splitHost (JoinHostPort (ipv4_string a b c d) p) = ipv4_string a b c d.
Proof.
  intros Hp. unfold splitHost. by rewrite split_join_host_port by (done || apply ipv4_string_plain).
Qed.

(** The last byte of a joined address is never reached by an empty one. *)
Lemma JoinHostPort_nonempty h p : JoinHostPort h p ≠ ""%string.
Proof. unfold JoinHostPort. destruct (index_byte _ _); [done|]. by destruct h. Qed.

Lemma isLocalIP_spec ifaces ip :
  isLocalIP ifaces ip = true ↔ ip ≠ [] ∧ ∃ addrs x, ifaces = Some addrs ∧ Some x ∈ addrs ∧ ip_equal x ip = true.
Proof.
  destruct ip as [|b ip]; [naive_solver|]. cbn. destruct ifaces as [addrs|]; [|naive_solver].
  rewrite existsb_exists. split.
  - intros ([x|] & Hin & Hx); [|done]. split; [done|]. exists addrs, x. split_and!; [done|by apply list_elem_of_In|done].
  - intros (_ & ? & x & [= <-] & Hin & Hx). exists (Some x). split; [by apply list_elem_of_In|done].
Qed.

(** The decision on IPv4 addresses.  A node whose bind address is given is
    taken to be behind a NAT exactly when the observed host differs, whatever
    the ports; one bound to 0.0.0.0 exactly when the observed host is none of
    the local interfaces' addresses; it can relay exactly when it is not behind
    a NAT, and the public address is the observed one. *)
Theorem detect_nat_decides ifaces (a b c d e f g h : byte) (p q : string) :
  plain_port p → plain_port q →
  let bind := JoinHostPort (ipv4_string a b c d) p in
  let seen := JoinHostPort (ipv4_string e f g h) q in
  let st := DetectNAT ifaces bind seen in
  PublicAddress st = seen ∧ CanRelay st = negb (IsNATed st) ∧
  (CanRelay st = true ↔
    if decide ([a; b; c; d] = [x00; x00; x00; x00])
    then ∃ addrs x, ifaces = Some addrs ∧ Some x ∈ addrs ∧ ip_equal x (v4InV6Prefix ++ [e; f; g; h]) = true
    else [a; b; c; d] = [e; f; g; h]).
Proof.
  intros Hp Hq bind seen st. unfold st, DetectNAT.
  destruct (decide (seen = ""%string)) as [Hs|_]; [by apply JoinHostPort_nonempty in Hs|]. unfold bind, seen.
  rewrite (splitHost_ipv4 a b c d p Hp), (splitHost_ipv4 e f g h q Hq), (ParseIP_ipv4_string a b c d), (ParseIP_ipv4_string e f g h).
  unfold IsUnspecified, IPv4zero. rewrite !ip_equal_v4 by done. cbn [replicate].
  replace (ip_equal (v4InV6Prefix ++ [a; b; c; d]) IPv6unspecified) with false by (vm_compute; by destruct a).
  rewrite orb_false_r. rewrite bool_decide_false by done. cbn [negb andb].
  destruct (decide ([a; b; c; d] = [x00; x00; x00; x00])) as [E|E].
  - rewrite bool_decide_true by done. cbn [PublicAddress CanRelay IsNATed]. rewrite negb_involutive.
    split_and!; [done..|]. rewrite isLocalIP_spec. split; [tauto|]. by split.
  - rewrite bool_decide_false by done. cbn [PublicAddress CanRelay IsNATed].
    split_and!; [done..|]. rewrite negb_involutive. apply bool_decide_eq_true.
Qed.

Lemma detect_nat_decides_witness :
  let st := DetectNAT None (JoinHostPort (ipv4_string x0a x00 x00 x01) "7947")
              (JoinHostPort (ipv4_string xc0 x00 x02 x07) "40001") in
  PublicAddress st = "192.0.2.7:40001"%string ∧ IsNATed st = true ∧ CanRelay st = false.
Proof.
  destruct (detect_nat_decides None x0a x00 x00 x01 xc0 x00 x02 x07 "7947" "40001") as (H1 & H2 & H3).
  - apply (bool_decide_unpack _). vm_compute. exact I.
  - apply (bool_decide_unpack _). vm_compute. exact I.
  - cbv zeta. rewrite H1, H2. split; [vm_compute; reflexivity|]. split; vm_compute; reflexivity.
Defined.

(** Two hosts that are not IP addresses count as equal: such a node is said to
    have a public address and to be able to relay. *)
Theorem detect_nat_unparsed_is_relay ifaces (bind seen : string) :
  seen ≠ ""%string → ParseIP (splitHost bind) = [] → ParseIP (splitHost seen) = [] →
  DetectNAT ifaces bind seen = mkNAT seen false true.
Proof. intros Hs Hb Hr. unfold DetectNAT. by rewrite decide_False, Hb, Hr by done. Qed.

Lemma detect_nat_unparsed_is_relay_witness :
  DetectNAT None "localhost:7947" "[fe80::1%25en0]:7947" = mkNAT "[fe80::1%25en0]:7947" false true.
Proof.
  apply detect_nat_unparsed_is_relay; [discriminate|vm_compute; reflexivity|vm_compute; reflexivity].
Defined.

(** ** Properties of the reflection *)

Definition reflect_entry (n : reflector) : option reflect_handler :=
  datagramHandlers (rf_handlers n) !! MsgTypeAddrReflect.

(** The address in a response, and whether a message is a request. *)
Definition response_of (msg : bytes) : option string :=
  match msg with
  | t :: b :: rest => if decide (t = MsgTypeAddrReflect ∧ b = reflectResponse) then Some (string_of rest) else None
  | _ => None
  end.

Definition is_request (msg : bytes) : bool :=
  match msg with
  | t :: b :: _ => bool_decide (t = MsgTypeAddrReflect ∧ b = reflectRequest)
  | _ => false
  end.

Definition answers (ds : list (string * bytes)) : list (string * bytes) :=
  (fun d => (d.1, reflect_response d.1)) <$> filter (fun d => is_request d.2 = true) ds.

Definition foreign (h : reflect_handler) : Prop := match h with HForeign _ => True | _ => False end.

(** The reflection handlers are registered for their message type only. *)
Record reflect_ok (n : reflector) : Prop := {
  ro_others : ∀ b h, b ≠ MsgTypeAddrReflect → datagramHandlers (rf_handlers n) !! b = Some h → foreign h;
  ro_eager : ∀ h, onEagerGossip (rf_handlers n) = Some h → foreign h;
}.

Lemma request_begin_ok n peer sent : reflect_ok n → reflect_ok (request_begin n peer sent).1.1.
Proof.
  intros [H1 H2]. unfold request_begin. destruct sent; (split; cbn; [|exact H2]);
    intros b h Hb; rewrite lookup_insert_ne by done; by apply H1.
Qed.

(** The channels after a datagram, and the answers it gets. *)
Definition deliver_response (h : reflect_handler) (msg : bytes) (chans : list (option string)) :
    list (option string) :=
  match h, response_of msg with
  | HRequest ch, Some addr => try_send ch addr chans
  | _, _ => chans
  end.

Definition answer (h : reflect_handler) (d : string * bytes) : list (string * bytes) :=
  match h with
  | HForeign _ => []
  | _ => if is_request d.2 then [(d.1, reflect_response d.1)] else []
  end.

Lemma run_reflect_spec h from data chans :
  run_reflect h from data chans =
  (deliver_response h (MsgTypeAddrReflect :: data) chans, answer h (from, MsgTypeAddrReflect :: data)).
Proof.
  destruct data as [|b rest]; [by destruct h|]. unfold run_reflect, deliver_response, answer, response_of, is_request.
  cbn [fst snd]. assert (reflectRequest ≠ reflectResponse) by done.
  destruct (decide (b = reflectRequest)) as [->|Hb].
  - rewrite bool_decide_true, decide_False by (done || tauto). by destruct h.
  - rewrite bool_decide_false by tauto. destruct (decide (b = reflectResponse)) as [->|Hb'].
    + rewrite !decide_True by done. by destruct h.
    + rewrite !decide_False by tauto. by destruct h.
Qed.

Lemma on_datagram_spec n from msg h :
  reflect_ok n → reflect_entry n = Some h →
  on_datagram n from msg = (mkReflector (rf_handlers n) (deliver_response h msg (rf_chans n)), answer h (from, msg)).
Proof.
  intros [Ho He] Hh. unfold on_datagram, receiveDatagram. destruct n as [hs chans]. cbn [rf_handlers rf_chans] in *.
  destruct msg as [|t data]; [by destruct h|]. destruct (decide (t = MsgTypeAddrReflect)) as [->|Ht].
  - unfold reflect_entry in Hh. cbn in Hh. rewrite decide_False, Hh by done. cbn [mbind option_bind].
    by rewrite run_reflect_spec.
  - assert (deliver_response h (t :: data) chans = chans ∧ answer h (from, t :: data) = []) as [-> ->].
    { unfold deliver_response, answer, response_of, is_request. destruct data as [|b rest]; [by destruct h|].
      cbn [fst snd]. rewrite bool_decide_false, decide_False by tauto. by destruct h. }
    assert (∀ h', foreign h' → run_reflect h' from data chans = (chans, [])) as Hf.
    { intros [| |k]; try done. by destruct data. }
    destruct (decide (t = MsgTypeEagerGossip)) as [->|].
    + unfold getEagerGossip. destruct (onEagerGossip hs) as [h'|] eqn:E; [|done]. cbn. by rewrite Hf by (by apply He).
    + destruct (datagramHandlers hs !! t) as [h'|] eqn:E; [|done]. cbn. by rewrite Hf by (by eapply Ho).
Qed.

(** A series of datagrams: the handlers stay, every request is answered, and the
    channel of the registered call gets the first response. *)
Lemma on_datagrams_spec n ds h :
  reflect_ok n → reflect_entry n = Some h →
  on_datagrams n ds =
    (mkReflector (rf_handlers n) (foldl (fun cs d => deliver_response h d.2 cs) (rf_chans n) ds), ds ≫= answer h).
Proof.
  revert n. induction ds as [|[from msg] ds IH]; intros n Hok Hh; [by destruct n|].
  cbn [on_datagrams]. rewrite (on_datagram_spec n from msg h Hok Hh).
  rewrite IH; [done| |exact Hh]. destruct Hok as [H1 H2]. by split.
Qed.

Lemma deliver_responses_first ch ds cs :
  cs !! ch = Some None →
  foldl (fun cs d => deliver_response (HRequest ch) d.2 cs) cs ds =
  match head (omap (fun d : string * bytes => response_of d.2) ds) with
  | Some addr => <[ch := Some addr]> cs
  | None => cs
  end.
Proof.
  assert (∀ l cs' addr, cs' !! ch = Some (Some addr) →
    foldl (fun cs (d : string * bytes) => deliver_response (HRequest ch) d.2 cs) cs' l = cs') as Hfull.
  { induction l as [|d l IH]; intros cs' addr Hcs; [done|]. cbn [foldl]. unfold deliver_response at 2.
    destruct (response_of d.2); [unfold try_send; rewrite Hcs|]; by eapply IH. }
  induction ds as [|d ds IH]; intros Hcs; [done|]. cbn [foldl omap list_omap]. unfold deliver_response at 2.
  destruct (response_of d.2) as [addr|]; [|by apply IH]. cbn [head]. unfold try_send. rewrite Hcs.
  apply (Hfull _ _ addr). apply list_lookup_insert_eq. by eapply lookup_lt_Some.
Qed.

Lemma request_begin_entry n peer sent :
  reflect_entry (request_begin n peer sent).1.1 = Some (HRequest (length (rf_chans n))).
Proof. unfold request_begin, reflect_entry. destruct sent; cbn; apply lookup_insert_eq. Qed.

(** What the waiting call of a node finds after any datagrams. *)
Lemma request_end_spec n peer ds :
  reflect_ok n →
  request_end (on_datagrams (request_begin n peer true).1.1 ds).1 (length (rf_chans n)) WResult =
  Ok <$> head (omap (fun d => response_of d.2) ds).
Proof.
  intros Hok. rewrite (on_datagrams_spec _ ds _ (request_begin_ok n peer true Hok) (request_begin_entry n peer true)).
  assert ((rf_chans n ++ [None]) !! length (rf_chans n) = Some None) as Hl by (by apply list_lookup_middle).
  cbn [fst request_end rf_chans request_begin]. rewrite deliver_responses_first by exact Hl.
  destruct (head _) as [addr|]; [by rewrite list_lookup_insert_eq by (by eapply lookup_lt_Some)|by rewrite Hl].
Qed.

Lemma response_of_response from : response_of (reflect_response from) = Some from.
Proof. unfold response_of, reflect_response. rewrite decide_True by done. by rewrite string_of_bytes. Qed.

Lemma head_omap_none {A B} (f : A → option B) l x y :
  Forall (fun a => f a = None) l → f x = Some y → head (omap f (l ++ [x])) = Some y.
Proof. induction 1 as [|a l Ha _ IH]; cbn; intros Hx; [by rewrite Hx|]. rewrite Ha. by apply IH. Qed.

(** C30: A round trip: a peer [b] on which a reflection handler is registered
    answers a request with the address [seen] it came from; whatever [a] receives
    before the answer other than responses, its call then returns [seen]. *)
Theorem reflection_roundtrip (a b : reflector) (peer seen : string) (ds : list (string * bytes)) (hb : reflect_handler)
    (Ha : reflect_ok a) (Hb : reflect_ok b) (Hreg : reflect_entry b = Some hb ∧ ~ foreign hb)
    (Hds : Forall (fun d => response_of d.2 = None) ds) :
  let a1 := (request_begin a peer true).1.1 in
  let ch := length (rf_chans a) in
  let resp := reflect_response seen in
  (request_begin a peer true).1.2 = Ok ch ∧
  (on_datagram b seen reflect_request).2 = [(seen, resp)] ∧
  request_end (on_datagrams a1 ds).1 ch WResult = None ∧
  request_end (on_datagrams a1 (ds ++ [(peer, resp)])).1 ch WResult = Some (Ok seen).
Proof.
  destruct Hreg as [Hh Hf]. intros a1 ch resp.
  split_and!; [done| | |].
  - rewrite (on_datagram_spec b seen _ hb Hb Hh). cbn [snd]. by destruct hb.
  - unfold a1, ch. rewrite request_end_spec by done. replace (omap _ ds) with (@nil string); [done|].
    clear -Hds. induction Hds as [|d ds Hd _ IH]; [done|]. cbn. by rewrite Hd.
  - unfold a1, ch. rewrite request_end_spec by done. rewrite (head_omap_none _ _ _ seen); [done|done|apply response_of_response].
Qed.

(** A node that asks while it still waits for another answer loses that one: the
    second call replaces the handler, so no datagram ever reaches the channel of
    the first, which can only end by its context or its timeout. *)
Theorem second_request_starves_first (n : reflector) (peer1 peer2 : string) (ds : list (string * bytes))
    (Hok : reflect_ok n) :
  let n1 := (request_begin n peer1 true).1.1 in
  let n2 := (request_begin n1 peer2 true).1.1 in
  let n3 := (on_datagrams n2 ds).1 in
  request_end n3 (length (rf_chans n)) WResult = None ∧
  request_end n3 (length (rf_chans n1)) WResult = Ok <$> head (omap (fun d => response_of d.2) ds).
Proof.
  intros n1 n2 n3. pose proof (request_begin_ok n peer1 true Hok) as Hok1.
  split; [|by apply request_end_spec]. unfold n3, n2.
  rewrite (on_datagrams_spec _ ds _ (request_begin_ok n1 peer2 true Hok1) (request_begin_entry n1 peer2 true)).
  cbn [fst request_end rf_chans]. set (ch := length (rf_chans n1)). change (rf_chans (request_begin n1 peer2 true).1.1)
    with ((rf_chans n ++ [None]) ++ [None]).
  rewrite deliver_responses_first by (by apply list_lookup_middle).
  assert (((rf_chans n ++ [None]) ++ [None]) !! length (rf_chans n) = Some None) as Hl.
  { rewrite <- app_assoc. by apply list_lookup_middle. }
  destruct (head _) as [addr|]; [|by rewrite Hl]. rewrite list_lookup_insert_ne; [by rewrite Hl|].
  unfold ch, n1. cbn. rewrite length_app. cbn. lia.
Qed.

(** A node with nothing registered but foreign handlers. *)
Definition quiet : reflector :=
  mkReflector (RegisterDatagramHandler x20 (HForeign 1) (SetHandlers (HForeign 2) (HForeign 3) (HForeign 4) noHandlers)) [].

Lemma quiet_ok : reflect_ok quiet.
Proof.
  split; cbn.
  - intros b h Hb. rewrite lookup_insert_Some. intros [[_ <-]|[_ H]]; [done|]. by rewrite lookup_empty in H.
  - by intros h [= <-].
Qed.

Lemma reflection_roundtrip_witness :
  request_end (on_datagrams (request_begin quiet "192.0.2.1:7947" true).1.1
    [("10.0.0.9:7947"%string, reflect_request); ("192.0.2.1:7947"%string, reflect_response "203.0.113.5:40001")]).1
    0%nat WResult = Some (Ok "203.0.113.5:40001"%string).
Proof.
  destruct (reflection_roundtrip quiet (RegisterReflectHandler quiet) "192.0.2.1:7947" "203.0.113.5:40001"
    [("10.0.0.9:7947"%string, reflect_request)] HRespond) as (_ & _ & _ & H).
  - exact quiet_ok.
  - destruct quiet_ok as [H1 H2]. split; [|exact H2]. intros b h Hb. cbn. rewrite lookup_insert_ne by done. by apply H1.
  - split; [reflexivity|]. intros [].
  - constructor; [reflexivity|constructor].
  - exact H.
Defined.

Lemma second_request_starves_first_witness :
  let n2 := (request_begin (request_begin quiet "a:1" true).1.1 "b:1" true).1.1 in
  let n3 := (on_datagrams n2 [("a:1"%string, reflect_response "x:9"); ("b:1"%string, reflect_response "y:9")]).1 in
  request_end n3 0%nat WResult = None ∧ request_end n3 1%nat WResult = Some (Ok "x:9"%string).
Proof.
  exact (second_request_starves_first quiet "a:1" "b:1"
    [("a:1"%string, reflect_response "x:9"); ("b:1"%string, reflect_response "y:9")] quiet_ok).
Defined.
