(* ===== verification/Holepunch.v ===== *)
(** * Hole punching (src/holepunch/signal.go, src/holepunch/punch.go)

    The signals two nodes exchange through the object store, proved against the
    interfaces of [Objstore] and [Json].  [AttemptHolePunch] is a state machine
    with one step per access to the store: attempts of any number of nodes,
    crashes and the other users of the store interleave between any two
    accesses.  Dialling is outside; a step takes its outcome. *)

From S2P Require Import Prelude Netaddr Json Objstore.

(** ** Signals and their keys *)

Record Signal := mkSignal { SigNodeID : string; SigAddr : string; SigNonce : string; SigTime : Z }.

#[export] Instance Signal_eq_dec : EqDecision Signal.
Proof. solve_decision. Defined.

#[export] Instance Signal_countable : Countable Signal.
Proof.
  apply (inj_countable' (fun r => (SigNodeID r, SigAddr r, SigNonce r, SigTime r))
    (fun '(a, b, c, d) => mkSignal a b c d)). by intros [].
Defined.

(** [lower, higher]: swapped when [id1 > id2], comparing bytes. *)
Definition ordered (id1 id2 : string) : string * string :=
  if String.ltb id2 id1 then (id2, id1) else (id1, id2).

Definition signalPrefix (id1 id2 : string) : string :=
  let '(lower, higher) := ordered id1 id2 in "signal/" +:+ lower +:+ "/" +:+ higher +:+ "/".

Definition signalKey (id1 id2 writerID : string) : string :=
  let '(lower, higher) := ordered id1 id2 in "signal/" +:+ lower +:+ "/" +:+ higher +:+ "/" +:+ writerID.

Inductive signal_error :=
| ErrMarshalSignal
| ErrSignalStore (e : store_error).

Section Signals.
Context {S : Type} `{HS : ObjectStore S} `{HJ : JSON Signal}.

Definition put_signal (store : S) (now : Z) (key : string) (sig : Signal) : result signal_error unit * S :=
  match Marshal (mkSignal (SigNodeID sig) (SigAddr sig) (SigNonce sig) now) with
  | None => (Err ErrMarshalSignal, store)
  | Some data =>
      match Put store now key data [] with
      | (Err e, s') => (Err (ErrSignalStore e), s')
      | (Ok _, s') => (Ok (), s')
      end
  end.

Definition WriteSignal (store : S) (now : Z) (sig : Signal) : result signal_error unit * S :=
  put_signal store now (signalKey (SigNodeID sig) (SigAddr sig) (SigNodeID sig)) sig.

Definition WriteSignalForPeer (store : S) (now : Z) (selfID targetID : string) (sig : Signal) :
    result signal_error unit * S :=
  put_signal store now (signalKey selfID targetID selfID) sig.

(** The signals found so far: the own one and the peer's. *)
Definition found : Type := option Signal * option Signal.

(** What one object does to them. *)
Definition sort_signal (selfID targetID : string) (data : bytes) (f : found) : found :=
  match Unmarshal data with
  | None => f
  | Some sig =>
      if decide (SigNodeID sig = selfID) then (Some sig, f.2)
      else if decide (SigNodeID sig = targetID) then (f.1, Some sig)
      else f
  end.

(** The loop of [ReadSignals] over the listed keys. *)
Fixpoint read_loop (store : S) (selfID targetID : string) (keys : list string) (f : found) :
    result signal_error found :=
  match keys with
  | [] => Ok f
  | key :: keys' =>
      match Get store key with
      | Err ErrNotFound => read_loop store selfID targetID keys' f
      | Err e => Err (ErrSignalStore e)
      | Ok (data, _) => read_loop store selfID targetID keys' (sort_signal selfID targetID data f)
      end
  end.

Definition ReadSignals (store : S) (selfID targetID : string) : result signal_error found :=
  match List store (signalPrefix selfID targetID) with
  | Err e => Err (ErrSignalStore e)
  | Ok keys => read_loop store selfID targetID keys (None, None)
  end.

Definition delete_all (store : S) (keys : list string) : S :=
  foldl (fun s key => (Delete s key).2) store keys.

Definition CleanupSignal (store : S) (selfID targetID : string) : result signal_error unit * S :=
  match List store (signalPrefix selfID targetID) with
  | Err e => (Err (ErrSignalStore e), store)
  | Ok keys => (Ok (), delete_all store keys)
  end.

(** ** Punching *)

(** The parameters of an attempt that matter to the signalling. *)
Record PunchParams := mkPunch { SelfID : string; TargetID : string; SelfAddr : string }.

Inductive punch_error :=
| ErrNonce
| ErrWriteSignal (e : signal_error)
| ErrPunchTimeout
| ErrResolvePeer
| ErrPunchDial.

(** Where an attempt stands; [PConn addr]: connected to [addr]. *)
Inductive punch_pc :=
| PWrite
| PPoll
| PRead (keys : list string) (f : found)
| PDial (sig : Signal)
| PCleanList (r : result punch_error string)
| PCleanDelete (keys : list string) (r : result punch_error string)
| PDone (r : result punch_error string).

(** What the outside contributes to a step: the clock, the random nonce, whether
    the deadline is what ends the wait, and the outcome of resolving and
    dialling. *)
Record punch_input := mkInput {
  in_now : Z;
  in_nonce : option string;
  in_deadline : bool;
  in_resolves : bool;
  in_dials : bool;
}.

(** One access of [AttemptHolePunch]. *)
Definition punch_step (a : PunchParams) (inp : punch_input) (s : S) (p : punch_pc) : S * punch_pc :=
  match p with
  | PWrite =>
      match in_nonce inp with
      | None => (s, PDone (Err ErrNonce))
      | Some nonce =>
          match WriteSignalForPeer s (in_now inp) (SelfID a) (TargetID a) (mkSignal (SelfID a) (SelfAddr a) nonce 0) with
          | (Err e, s') => (s', PDone (Err (ErrWriteSignal e)))
          | (Ok _, s') => (s', PPoll)
          end
      end
  | PPoll =>
      if in_deadline inp then (s, PCleanList (Err ErrPunchTimeout))
      else match List s (signalPrefix (SelfID a) (TargetID a)) with
           | Err _ => (s, PPoll)
           | Ok keys => (s, PRead keys (None, None))
           end
  | PRead [] (_, peer) => match peer with Some sig => (s, PDial sig) | None => (s, PPoll) end
  | PRead (key :: keys) f =>
      match Get s key with
      | Err ErrNotFound => (s, PRead keys f)
      | Err _ => (s, PPoll)
      | Ok (data, _) => (s, PRead keys (sort_signal (SelfID a) (TargetID a) data f))
      end
  | PDial sig =>
      if in_resolves inp then
        if in_dials inp then (s, PCleanList (Ok (SigAddr sig))) else (s, PCleanList (Err ErrPunchDial))
      else (s, PCleanList (Err ErrResolvePeer))
  | PCleanList r =>
      match List s (signalPrefix (SelfID a) (TargetID a)) with
      | Err _ => (s, PDone r)
      | Ok keys => (s, PCleanDelete keys r)
      end
  | PCleanDelete [] r => (s, PDone r)
  | PCleanDelete (key :: keys) r => ((Delete s key).2, PCleanDelete keys r)
  | PDone r => (s, PDone r)
  end.

(** The defaults: 500 ms between polls, 10 s for the attempt. *)
Definition punch_defaults (pollInterval timeout : Z) : Z * Z :=
  (if pollInterval =? 0 then 500 * 10 ^ 6 else pollInterval, if timeout =? 0 then 10 * 10 ^ 9 else timeout).
End Signals.

(** ** Keys *)

Definition slash : byte := x2f.

(** Node IDs are meant not to contain a slash. *)
Definition plain_id (id : string) : Prop := slash ∉ bytes_of id.

#[export] Instance plain_id_dec id : Decision (plain_id id).
Proof. unfold plain_id. apply _. Defined.

Lemma ordered_comm id1 id2 : ordered id1 id2 = ordered id2 id1.
Proof.
  unfold ordered, String.ltb. rewrite (String.compare_antisym id2 id1).
  destruct (String.compare id1 id2) eqn:E; cbn; [|done..].
  by apply String.compare_eq_iff in E as ->.
Qed.

Lemma signalPrefix_comm id1 id2 : signalPrefix id1 id2 = signalPrefix id2 id1.
Proof. unfold signalPrefix. by rewrite ordered_comm. Qed.

Lemma signalKey_comm id1 id2 w : signalKey id1 id2 w = signalKey id2 id1 w.
Proof. unfold signalKey. by rewrite ordered_comm. Qed.

Lemma string_app_assoc s1 s2 s3 : (s1 +:+ s2) +:+ s3 = s1 +:+ s2 +:+ s3.
Proof. apply (inj bytes_of). by rewrite !bytes_of_app, app_assoc. Qed.

Lemma signalKey_prefix id1 id2 w : signalKey id1 id2 w = signalPrefix id1 id2 +:+ w.
Proof. unfold signalKey, signalPrefix. destruct (ordered id1 id2). by rewrite !string_app_assoc. Qed.

(** The part up to the first separator is determined. *)
Lemma split_at_first {A} (x : A) (l1 l2 r1 r2 : list A) :
  x ∉ l1 → x ∉ l2 → l1 ++ x :: r1 = l2 ++ x :: r2 → l1 = l2 ∧ r1 = r2.
Proof.
  revert l2. induction l1 as [|a l1 IH]; intros [|b l2] H1 H2; cbn; [naive_solver|..].
  - intros [= <- _]. set_solver.
  - intros [= -> _]. set_solver.
  - intros [= <- Heq]. destruct (IH l2) as [-> ->]; [set_solver..|done|done].
Qed.

Lemma slash_split (s1 s2 r1 r2 : string) :
  plain_id s1 → plain_id s2 → s1 +:+ "/" +:+ r1 = s2 +:+ "/" +:+ r2 → s1 = s2 ∧ r1 = r2.
Proof.
  intros H1 H2 Heq. apply (f_equal bytes_of) in Heq. rewrite !bytes_of_app in Heq.
  change (bytes_of "/") with [slash] in Heq.
  apply split_at_first in Heq as [?%(inj bytes_of) ?%(inj bytes_of)]; done.
Qed.

Lemma ordered_plain id1 id2 : plain_id id1 → plain_id id2 → plain_id (ordered id1 id2).1 ∧ plain_id (ordered id1 id2).2.
Proof. intros H1 H2. unfold ordered. by destruct (String.ltb id2 id1). Qed.

(** A key lies under the prefix of one pair only. *)
Lemma signalKey_pair a b w c d r :
  plain_id a → plain_id b → plain_id c → plain_id d →
  signalKey a b w = signalPrefix c d +:+ r → ordered a b = ordered c d ∧ r = w.
Proof.
  intros Ha Hb Hc Hd. rewrite signalKey_prefix. unfold signalPrefix.
  destruct (ordered_plain a b Ha Hb) as [Hl Hh]. destruct (ordered_plain c d Hc Hd) as [Hl' Hh'].
  destruct (ordered a b) as [l h], (ordered c d) as [l' h']. cbn in *. rewrite !string_app_assoc.
  intros Heq%(inj _). apply slash_split in Heq as [-> Heq]; [|done..]. apply slash_split in Heq as [-> ->]; done.
Qed.

Lemma ordered_same a b c d : ordered a b = ordered c d → (a = c ∧ b = d) ∨ (a = d ∧ b = c).
Proof.
  unfold ordered. destruct (String.ltb b a), (String.ltb d c); intros [= -> ->]; auto.
Qed.

Lemma signalKey_inj a b w c d w' :
  plain_id a → plain_id b → plain_id c → plain_id d →
  signalKey a b w = signalKey c d w' → ordered a b = ordered c d ∧ w = w'.
Proof.
  intros Ha Hb Hc Hd Heq. rewrite (signalKey_prefix c d) in Heq.
  destruct (signalKey_pair a b w c d w' Ha Hb Hc Hd Heq). auto.
Qed.

Definition signal_root (key : string) : Prop := ∃ r, key = "signal/" +:+ r.

Lemma signalPrefix_root c d r : signal_root (signalPrefix c d +:+ r).
Proof. unfold signalPrefix. destruct (ordered c d). eexists. by rewrite !string_app_assoc. Qed.

(** ** Attempts of several nodes *)

Section Attempts.
Context {S : Type} `{HS : ObjectStore S} `{HSp : !ObjectStoreSpec S}.
Context `{HJ : JSON Signal} `{HJp : !JSONSpec Signal}.

(** The store, the attempts ([None]: crashed), and, as a ghost, who signalled
    which address to whom. *)
Record punch_sys := mkSys {
  hp_store : S;
  hp_attempts : list (PunchParams * option punch_pc);
  hp_log : list (string * string * string);
}.

(** The signal of an attempt can be encoded. *)
Definition attempt_ok (a : PunchParams) : Prop := ∀ nonce t, json_ok (mkSignal (SelfID a) (SelfAddr a) nonce t).

Definition written (a : PunchParams) (p p' : punch_pc) : list (string * string * string) :=
  match p, p' with PWrite, PPoll => [(SelfID a, TargetID a, SelfAddr a)] | _, _ => [] end.

Inductive punch_move : punch_sys → punch_sys → Prop :=
| hp_begin s ats log a :
    attempt_ok a → punch_move (mkSys s ats log) (mkSys s (ats ++ [(a, Some PWrite)]) log)
| hp_access s ats log i a p inp s' p' :
    ats !! i = Some (a, Some p) → punch_step a inp s p = (s', p') →
    punch_move (mkSys s ats log) (mkSys s' (<[i := (a, Some p')]> ats) (log ++ written a p p'))
| hp_crash s ats log i a p :
    ats !! i = Some (a, Some p) → punch_move (mkSys s ats log) (mkSys s (<[i := (a, None)]> ats) log)
| hp_other s ats log s' :
    (∀ key, signal_root key → contents s' !! key = contents s !! key) →
    punch_move (mkSys s ats log) (mkSys s' ats log).

(** Systems in which no ID contains a slash and no node punches to itself. *)
Definition plain_attempt (a : PunchParams) : Prop :=
  plain_id (SelfID a) ∧ plain_id (TargetID a) ∧ SelfID a ≠ TargetID a.

Definition plain_sys (st : punch_sys) : Prop := ∀ i a q, hp_attempts st !! i = Some (a, q) → plain_attempt a.

(** ** What the store holds *)

Definition no_signals (s : S) : Prop := ∀ key, signal_root key → contents s !! key = None.

(** The key an attempt writes. *)
Definition own_key (a : PunchParams) : string := signalKey (SelfID a) (TargetID a) (SelfID a).

Lemma put_signal_spec s now key sig :
  json_ok (mkSignal (SigNodeID sig) (SigAddr sig) (SigNonce sig) now) →
  ∃ s' data etag, put_signal s now key sig = (Ok (), s') ∧ contents s' = <[key := (data, etag)]> (contents s) ∧
    Unmarshal data = Some (mkSignal (SigNodeID sig) (SigAddr sig) (SigNonce sig) now).
Proof.
  intros (data & Hm & Hu)%Unmarshal_Marshal. unfold put_signal. rewrite Hm.
  destruct (put_plain s now key data) as (info & s' & -> & Hc). by exists s', data, (ETag info).
Qed.

(** A step changes the store in two ways: it writes the attempt's own signal, or it
    deletes. *)
Lemma step_store a inp s p s' p' key obj :
  attempt_ok a → punch_step a inp s p = (s', p') → contents s' !! key = Some obj →
  contents s !! key = Some obj ∨
  (p = PWrite ∧ p' = PPoll ∧ key = own_key a ∧
   ∃ sig, Unmarshal obj.1 = Some sig ∧ SigNodeID sig = SelfID a ∧ SigAddr sig = SelfAddr a).
Proof.
  intros Hj Hstep Hk. destruct p as [| |[|k keys] f|sig|r|[|k keys] r|r]; cbn [punch_step] in Hstep.
  - destruct (in_nonce inp) as [nonce|]; [|injection Hstep as <- _; by left]. unfold WriteSignalForPeer in Hstep.
    destruct (put_signal_spec s (in_now inp) (own_key a) (mkSignal (SelfID a) (SelfAddr a) nonce 0) (Hj _ _))
      as (s1 & data & etag & Hp & Hc & Hu). unfold own_key in *. rewrite Hp in Hstep. injection Hstep as <- <-.
    rewrite Hc in Hk. apply lookup_insert_Some in Hk as [[<- <-]|[_ Hk]]; [|by left]. right. cbn in Hu. split_and!; [done..|]. by eexists.
  - left. destruct (in_deadline inp); [by injection Hstep as <- _|]. by destruct (List s _); injection Hstep as <- _.
  - left. destruct f as [f1 [sig|]]; by injection Hstep as <- _.
  - left. by destruct (Get s k) as [[data info]|[]]; injection Hstep as <- _.
  - left. by destruct (in_resolves inp), (in_dials inp); injection Hstep as <- _.
  - left. by destruct (List s _); injection Hstep as <- _.
  - left. by injection Hstep as <- _.
  - left. injection Hstep as <- _. destruct (Delete_law s k) as (s1 & Hd & Hc). rewrite Hd in Hk. cbn in Hk. rewrite Hc in Hk.
    by apply lookup_delete_Some in Hk as [_ ?].
  - left. by injection Hstep as <- _.
Qed.

(** Every signal was logged by the node it names. *)
Definition authentic (s : S) (log : list (string * string * string)) : Prop :=
  ∀ key obj, signal_root key → contents s !! key = Some obj →
  ∃ sig to, Unmarshal obj.1 = Some sig ∧ (SigNodeID sig, to, SigAddr sig) ∈ log.

(** Without slashes every signal lies under the key of its pair and writer. *)
Definition signals_inv (s : S) (log : list (string * string * string)) : Prop :=
  ∀ key obj, signal_root key → contents s !! key = Some obj →
  ∃ a b sig, plain_id a ∧ plain_id b ∧ a ≠ b ∧ key = signalKey a b a ∧
    Unmarshal obj.1 = Some sig ∧ SigNodeID sig = a ∧ (a, b, SigAddr sig) ∈ log.

Lemma elem_of_log_old (x : string * string * string) log new : x ∈ log → x ∈ log ++ new.
Proof. intros Hx. apply elem_of_app. by left. Qed.

Lemma step_authentic a inp s p s' p' log :
  attempt_ok a → authentic s log → punch_step a inp s p = (s', p') → authentic s' (log ++ written a p p').
Proof.
  intros Ha Hinv Hstep key obj Hr Hk. destruct (step_store a inp s p s' p' key obj Ha Hstep Hk) as [Hold|(-> & -> & -> & sig & Hu & Hid & Haddr)].
  - destruct (Hinv key obj Hr Hold) as (sig & to & Hu & Hin). exists sig, to. split; [done|by apply elem_of_log_old].
  - exists sig, (TargetID a). split; [done|]. apply elem_of_app. right. cbn. rewrite Hid, Haddr. by apply list_elem_of_singleton.
Qed.

Lemma step_signals a inp s p s' p' log :
  attempt_ok a → plain_attempt a → signals_inv s log → punch_step a inp s p = (s', p') → signals_inv s' (log ++ written a p p').
Proof.
  intros Ha (Hs & Ht & Hne) Hinv Hstep key obj Hr Hk.
  destruct (step_store a inp s p s' p' key obj Ha Hstep Hk) as [Hold|(-> & -> & -> & sig & Hu & Hid & Haddr)].
  - destruct (Hinv key obj Hr Hold) as (c & d & sig & ? & ? & ? & ? & ? & ? & Hin). exists c, d, sig.
    split_and!; [done..|by apply elem_of_log_old].
  - exists (SelfID a), (TargetID a), sig. split_and!; [done..|]. apply elem_of_app. right. cbn. rewrite Haddr. by apply list_elem_of_singleton.
Qed.

(** An object under the prefix of a pair is a signal of that pair. *)
Lemma signal_under_prefix s log a b key obj :
  signals_inv s log → plain_id a → plain_id b →
  (∃ r, key = signalPrefix a b +:+ r) → contents s !! key = Some obj →
  ∃ sig, Unmarshal obj.1 = Some sig ∧ key = signalKey a b (SigNodeID sig) ∧
    ((SigNodeID sig = a ∧ (a, b, SigAddr sig) ∈ log) ∨ (SigNodeID sig = b ∧ (b, a, SigAddr sig) ∈ log)).
Proof.
  intros Hinv Ha Hb (r & ->) Hk.
  destruct (Hinv _ obj (signalPrefix_root a b r) Hk) as (c & d & sig & Hc & Hd & Hcd & Hkey & Hu & <- & Hin).
  symmetry in Hkey. destruct (signalKey_pair _ _ _ _ _ _ Hc Hd Ha Hb Hkey) as [Ho ->].
  exists sig. split; [done|]. split; [by rewrite signalKey_prefix|].
  destruct (ordered_same _ _ _ _ Ho) as [[Hx ->]|[Hx ->]]; rewrite Hx in *; auto.
Qed.

(** ** Whom an attempt dials *)

Definition result_ok (P : string → Prop) (r : result punch_error string) : Prop :=
  match r with Ok addr => P addr | Err _ => True end.

(** Every address the attempt has in view is a good one. *)
Definition pc_ok (a : PunchParams) (good : string → Prop) (p : punch_pc) : Prop :=
  match p with
  | PRead keys f =>
      Forall (fun key => ∃ r, key = signalPrefix (SelfID a) (TargetID a) +:+ r) keys ∧
      ∀ sig, f.2 = Some sig → good (SigAddr sig)
  | PDial sig => good (SigAddr sig)
  | PCleanList r | PCleanDelete _ r | PDone r => result_ok good r
  | PWrite | PPoll => True
  end.

Lemma pc_ok_mono a (good good' : string → Prop) p : (∀ x, good x → good' x) → pc_ok a good p → pc_ok a good' p.
Proof.
  intros Hs. unfold pc_ok, result_ok. destruct p as [| | | |r|? r|r]; try naive_solver; destruct r; naive_solver.
Qed.

(** The peer's signal that an object adds names the target. *)
Lemma sort_signal_peer self target data f sig :
  (sort_signal self target data f).2 = Some sig → f.2 = Some sig ∨ (Unmarshal data = Some sig ∧ SigNodeID sig = target).
Proof.
  unfold sort_signal. destruct (Unmarshal data) as [sig'|]; [|auto]. case_decide; [cbn; auto|]. case_decide; cbn; [|auto].
  intros [= <-]. auto.
Qed.

(** What the target signalled: to somebody, or to this attempt's node. *)
Definition authored (a : PunchParams) (log : list (string * string * string)) (addr : string) : Prop :=
  ∃ to, (TargetID a, to, addr) ∈ log.

Definition signalled (a : PunchParams) (log : list (string * string * string)) (addr : string) : Prop :=
  (TargetID a, SelfID a, addr) ∈ log.

(** The outcome of the store's reads in a step. *)
Lemma Get_cases (s : S) key :
  match contents s !! key with
  | None => Get s key = Err ErrNotFound
  | Some (data, _) => ∃ info, Get s key = Ok (data, info)
  end.
Proof. pose proof (Get_law s key) as H. destruct (contents s !! key) as [[data etag]|]; [|done]. naive_solver. Qed.

Lemma List_keys (s : S) c d : ∃ keys, List s (signalPrefix c d) = Ok keys ∧
  Forall (fun key => ∃ r, key = signalPrefix c d +:+ r) keys ∧ NoDup keys ∧
  ∀ key, key ∈ keys ↔ (∃ r, key = signalPrefix c d +:+ r) ∧ is_Some (contents s !! key).
Proof.
  destruct (List_law s (signalPrefix c d)) as (keys & Hl & _ & Hnd & Hin). exists keys. split_and!; [done| |done|].
  - apply Forall_forall. intros key Hk. by apply string_prefix_app, Hin.
  - intros key. by rewrite Hin, string_prefix_app.
Qed.

(** A step keeps the addresses in view good, when the target's signals in the store
    under the pair's prefix are. *)
Lemma step_pc_ok a inp s p s' p' (good : string → Prop) :
  (∀ key data etag sig, (∃ r, key = signalPrefix (SelfID a) (TargetID a) +:+ r) → contents s !! key = Some (data, etag) →
     Unmarshal data = Some sig → SigNodeID sig = TargetID a → good (SigAddr sig)) →
  pc_ok a good p → punch_step a inp s p = (s', p') → pc_ok a good p'.
Proof.
  intros Hgood Hp Hstep. destruct p as [| |[|key keys] f|sig|r|[|key keys] r|r]; cbn [punch_step] in *.
  - destruct (in_nonce inp); [|by injection Hstep as _ <-]. by destruct (WriteSignalForPeer _ _ _ _ _) as [[]]; injection Hstep as _ <-.
  - destruct (in_deadline inp); [by injection Hstep as _ <-|].
    destruct (List_keys s (SelfID a) (TargetID a)) as (keys & Hl & Hall & _). rewrite Hl in Hstep. by injection Hstep as _ <-.
  - destruct f as [f1 [sig|]]; injection Hstep as _ <-; [|done]. by apply Hp.
  - destruct Hp as [Hkeys Hf]. apply Forall_cons in Hkeys as [Hkey Hkeys].
    pose proof (Get_cases s key) as Hg. destruct (contents s !! key) as [[data etag]|] eqn:E.
    + destruct Hg as [info Hg]. rewrite Hg in Hstep. injection Hstep as _ <-. split; [done|].
      intros sig [?|[Hu Hid]]%sort_signal_peer; [auto|]. by eapply Hgood.
    + rewrite Hg in Hstep. by injection Hstep as _ <-.
  - by destruct (in_resolves inp), (in_dials inp); injection Hstep as _ <-.
  - destruct (List s _); by injection Hstep as _ <-.
  - by injection Hstep as _ <-.
  - by injection Hstep as _ <-.
  - by injection Hstep as _ <-.
Qed.

(** ** The invariants *)

(** Of any system, and of one without slashes. *)
Record sys_ok (st : punch_sys) : Prop := {
  so_signals : authentic (hp_store st) (hp_log st);
  so_attempts : ∀ i a q, hp_attempts st !! i = Some (a, q) → attempt_ok a;
  so_pcs : ∀ i a p, hp_attempts st !! i = Some (a, Some p) → pc_ok a (authored a (hp_log st)) p;
}.

Record plain_ok (st : punch_sys) : Prop := {
  po_signals : signals_inv (hp_store st) (hp_log st);
  po_pcs : ∀ i a p, hp_attempts st !! i = Some (a, Some p) → pc_ok a (signalled a (hp_log st)) p;
}.

(** A move keeps what every step of an attempt keeps. *)
Lemma pcs_move st st' (good : PunchParams → list (string * string * string) → string → Prop) :
  (∀ a log log' addr, (∀ x, x ∈ log → x ∈ log') → good a log addr → good a log' addr) →
  (∀ i a key data etag sig, is_Some (hp_attempts st !! i) → (∃ q, hp_attempts st !! i = Some (a, q)) →
     (∃ r, key = signalPrefix (SelfID a) (TargetID a) +:+ r) → contents (hp_store st) !! key = Some (data, etag) →
     Unmarshal data = Some sig → SigNodeID sig = TargetID a → good a (hp_log st) (SigAddr sig)) →
  (∀ i a p, hp_attempts st !! i = Some (a, Some p) → pc_ok a (good a (hp_log st)) p) →
  punch_move st st' → ∀ i a p, hp_attempts st' !! i = Some (a, Some p) → pc_ok a (good a (hp_log st')) p.
Proof.
  intros Hmono Hgood Hpcs Hmove.
  destruct Hmove as [s ats log a Ha|s ats log i a p inp s' p' Hi Hstep|s ats log i a p Hi|s ats log s' Heq]; cbn in *; [| | |done].
  - intros i a' p [Hi|[_ Hi]]%lookup_app_Some; [by eapply Hpcs|]. by apply list_lookup_singleton_Some in Hi as [_ [= _ <-]].
  - intros j a' q [(_ & [= <- <-] & _)|[_ Hj]]%list_lookup_insert_Some.
    + eapply pc_ok_mono; [intros addr; apply Hmono; intros x; apply elem_of_log_old|].
      eapply step_pc_ok; [|by apply (Hpcs i)|exact Hstep]. intros key data etag sig Hr Hk Hu Hid.
      eapply (Hgood i a); try done; by rewrite Hi; eauto.
    + eapply pc_ok_mono; [intros addr; apply Hmono; intros x; apply elem_of_log_old|by apply (Hpcs j)].
  - intros j a' q [(_ & ? & _)|[_ Hj]]%list_lookup_insert_Some; [done|by apply (Hpcs j)].
Qed.

Lemma sys_ok_move st st' : sys_ok st → punch_move st st' → sys_ok st'.
Proof.
  intros [H1 H2 H3] Hmove. split.
  - destruct Hmove as [s ats log a Ha|s ats log i a p inp s' p' Hi Hstep|s ats log i a p Hi|s ats log s' Heq]; cbn in *; [done| |done|].
    + by eapply step_authentic; [by eapply H2| |exact Hstep].
    + intros key obj Hr. rewrite Heq by done. by apply H1.
  - destruct Hmove as [s ats log a Ha|s ats log i a p inp s' p' Hi Hstep|s ats log i a p Hi|s ats log s' Heq]; cbn in *; [| | |done].
    + intros i a' q [Hi|[_ Hi]]%lookup_app_Some; [by eapply H2|]. by apply list_lookup_singleton_Some in Hi as [_ [= <- _]].
    + intros j a' q [(_ & [= <- _] & _)|[_ Hj]]%list_lookup_insert_Some; by eapply H2.
    + intros j a' q [(_ & [= <- _] & _)|[_ Hj]]%list_lookup_insert_Some; by eapply H2.
  - eapply (pcs_move st st' authored); [| |exact H3|exact Hmove].
    + intros a log log' addr Hs [to Hto]. exists to. auto.
    + intros i a key data etag sig _ _ [r ->] Hk Hu Hid. destruct (H1 _ _ (signalPrefix_root _ _ r) Hk) as (sig' & to & Hu' & Hin).
      cbn in Hu'. rewrite Hu in Hu'. injection Hu' as <-. exists to. by rewrite <- Hid.
Qed.

Lemma reachable_sys_ok s0 st : no_signals s0 → rtc punch_move (mkSys s0 [] []) st → sys_ok st.
Proof.
  intros H0 Hrun. eapply (rtc_ind_r (fun st => sys_ok st)); [| |exact Hrun].
  - split; cbn; [|intros i a q; by rewrite lookup_nil|intros i a p; by rewrite lookup_nil].
    intros key obj Hr. by rewrite H0.
  - intros st1 st2 _ Hmove Hok. by eapply sys_ok_move.
Qed.

(** Attempts stay in the system, so a plain one was plain before. *)
Lemma plain_sys_before st st' : punch_move st st' → plain_sys st' → plain_sys st.
Proof.
  intros Hmove Hpl i a q Hi.
  destruct Hmove as [s ats log a0 Ha|s ats log j a0 p inp s' p' Hj Hstep|s ats log j a0 p Hj|s ats log s' Heq]; cbn in *.
  - eapply (Hpl i). by apply lookup_app_l_Some.
  - destruct (decide (j = i)) as [->|Hne]; [|eapply (Hpl i); cbn; by rewrite list_lookup_insert_ne].
    rewrite Hi in Hj. injection Hj as <- ->. eapply (Hpl i). cbn. by apply list_lookup_insert_eq, (lookup_lt_Some _ _ _ Hi).
  - destruct (decide (j = i)) as [->|Hne]; [|eapply (Hpl i); cbn; by rewrite list_lookup_insert_ne].
    rewrite Hi in Hj. injection Hj as <- ->. eapply (Hpl i). cbn. by apply list_lookup_insert_eq, (lookup_lt_Some _ _ _ Hi).
  - by eapply Hpl.
Qed.

Lemma plain_ok_move st st' : sys_ok st → plain_sys st → plain_ok st → punch_move st st' → plain_ok st'.
Proof.
  intros Hok Hpl [H1 H3] Hmove. split.
  - destruct Hmove as [s ats log a Ha|s ats log i a p inp s' p' Hi Hstep|s ats log i a p Hi|s ats log s' Heq]; cbn in *; [done| |done|].
    + eapply step_signals; [by eapply (so_attempts _ Hok)|by eapply Hpl|exact H1|exact Hstep].
    + intros key obj Hr. rewrite Heq by done. by apply H1.
  - eapply (pcs_move st st' signalled); [| |exact H3|exact Hmove].
    + intros a log log' addr Hs. apply Hs.
    + intros i a key data etag sig _ [q Hi] Hr Hk Hu Hid. destruct (Hpl _ _ _ Hi) as (Hs & Ht & Hne).
      destruct (signal_under_prefix _ _ _ _ key _ H1 Hs Ht Hr Hk) as (sig' & Hu' & _ & Hwho). cbn in Hu'.
      rewrite Hu in Hu'. injection Hu' as <-. destruct Hwho as [[? _]|[_ ?]]; [congruence|done].
Qed.

Lemma reachable_plain_ok s0 st : no_signals s0 → rtc punch_move (mkSys s0 [] []) st → plain_sys st → plain_ok st.
Proof.
  intros H0 Hrun. eapply (rtc_ind_r (fun st => plain_sys st → plain_ok st)); [| |exact Hrun].
  - intros _. split; cbn; [|intros i a p; by rewrite lookup_nil]. intros key obj Hr. by rewrite H0.
  - intros st1 st2 Hrun1 Hmove IH Hpl. pose proof (plain_sys_before _ _ Hmove Hpl) as Hpl1.
    eapply plain_ok_move; [by eapply reachable_sys_ok|done|by apply IH|done].
Qed.

(** C16: However the attempts of any number of nodes, crashes and other users of
    the store interleave: an attempt only dials, and only connects to, an
    address that its target itself signalled; and, in a system whose IDs contain
    no slash and in which no node punches to itself, one that the target
    signalled to this attempt's own node. *)
Theorem punch_dials_signalled s0 st i a p
    (H0 : no_signals s0) (Hrun : rtc punch_move (mkSys s0 [] []) st)
    (Hi : hp_attempts st !! i = Some (a, Some p)) :
  let dialled addr := (∃ sig, p = PDial sig ∧ SigAddr sig = addr) ∨ p = PDone (Ok addr) in
  ∀ addr, dialled addr →
    (∃ to, (TargetID a, to, addr) ∈ hp_log st) ∧
    (plain_sys st → (TargetID a, SelfID a, addr) ∈ hp_log st).
Proof.
  intros dialled addr Hd. pose proof (so_pcs _ (reachable_sys_ok s0 st H0 Hrun) _ _ _ Hi) as Hp.
  split; [by destruct Hd as [(sig & -> & <-)| ->]|]. intros Hpl.
  pose proof (po_pcs _ (reachable_plain_ok s0 st H0 Hrun Hpl) _ _ _ Hi) as Hp'. by destruct Hd as [(sig & -> & <-)| ->].
Qed.

(** ** Clean-up *)

(** The attempt will still delete [key], if it goes on. *)
Definition will_clean (key : string) (p : punch_pc) : Prop :=
  match p with
  | PWrite | PDone _ => False
  | PPoll | PRead _ _ | PDial _ | PCleanList _ => True
  | PCleanDelete keys _ => key ∈ keys
  end.

Definition owned (ats : list (PunchParams * option punch_pc)) (key : string) : Prop :=
  ∃ i a q, ats !! i = Some (a, q) ∧ key = own_key a ∧ match q with Some p => will_clean key p | None => True end.

Definition all_owned (st : punch_sys) : Prop :=
  ∀ key, signal_root key → is_Some (contents (hp_store st) !! key) → owned (hp_attempts st) key.

(** One step keeps the own key in view: it is written to be cleaned, stays to be
    cleaned, or is gone. *)
Lemma step_cleans a inp s p s' p' :
  attempt_ok a → punch_step a inp s p = (s', p') →
  (∀ key, is_Some (contents s' !! key) →
     (is_Some (contents s !! key) ∧ (key = own_key a → will_clean key p → will_clean key p')) ∨
     (key = own_key a ∧ will_clean key p')).
Proof.
  intros Ha Hstep key [obj Hk].
  destruct (step_store a inp s p s' p' key obj Ha Hstep Hk) as [Hold|(-> & -> & -> & _)]; [|by right].
  left. split; [by eexists|]. intros -> Hw. destruct p as [| |[|k keys] f|sig|r|[|k keys] r|r]; cbn [punch_step will_clean] in *; try done.
  - destruct (in_deadline inp); [by injection Hstep as <- <-|]. by destruct (List s _); injection Hstep as <- <-.
  - destruct f as [f1 [sig|]]; by injection Hstep as <- <-.
  - by destruct (Get s k) as [[data info]|[]]; injection Hstep as <- <-.
  - by destruct (in_resolves inp), (in_dials inp); injection Hstep as <- <-.
  - destruct (List_keys s (SelfID a) (TargetID a)) as (keys & Hl & _ & _ & Hin). rewrite Hl in Hstep. injection Hstep as <- <-.
    cbn. apply Hin. split; [|by eexists]. unfold own_key. rewrite signalKey_prefix. by eexists.
  - by apply elem_of_nil in Hw.
  - injection Hstep as <- <-. cbn. apply elem_of_cons in Hw as [Hw|?]; [|done]. subst k.
    destruct (Delete_law s (own_key a)) as (s1 & Hd & Hc). rewrite Hd in Hk. cbn in Hk. rewrite Hc in Hk.
    by rewrite lookup_delete_eq in Hk.
Qed.

Lemma owned_insert ats i a q q' key :
  ats !! i = Some (a, q) → owned ats key →
  (key = own_key a → match q with Some p => will_clean key p | None => True end →
     match q' with Some p => will_clean key p | None => True end) →
  owned (<[i := (a, q')]> ats) key.
Proof.
  intros Hi (j & a' & q0 & Hj & Hkey & Hw) Himp. destruct (decide (j = i)) as [->|Hne].
  - rewrite Hi in Hj. injection Hj as <- <-. exists i, a, q'. split_and!; [|done|by apply Himp].
    apply list_lookup_insert_eq. by eapply lookup_lt_Some.
  - exists j, a', q0. by rewrite list_lookup_insert_ne.
Qed.

Lemma all_owned_move st st' : sys_ok st → all_owned st → punch_move st st' → all_owned st'.
Proof.
  intros [_ H2 _] Hown Hmove. destruct Hmove as [s ats log a Ha|s ats log i a p inp s' p' Hi Hstep|s ats log i a p Hi|s ats log s' Heq];
    intros key Hr Hk; cbn in *.
  - destruct (Hown key Hr Hk) as (i & a' & q & Hi & ? & ?). exists i, a', q. split; [by apply lookup_app_l_Some|done].
  - destruct (step_cleans a inp s p s' p' (H2 _ _ _ Hi) Hstep key Hk) as [[Hold Himp]|[Hkey Hw]].
    + eapply owned_insert; [exact Hi|by apply Hown|exact Himp].
    + exists i, a, (Some p'). split_and!; [|done|done]. apply list_lookup_insert_eq. by eapply lookup_lt_Some.
  - eapply owned_insert; [exact Hi|by apply Hown|done].
  - rewrite Heq in Hk by done. by apply Hown.
Qed.

(** Attempts clean up after themselves: in every run, when every attempt has
    returned or crashed, each signal left in the store is that of a crashed
    attempt; without crashes none is left. *)
Theorem signals_cleaned s0 st
    (H0 : no_signals s0) (Hrun : rtc punch_move (mkSys s0 [] []) st)
    (Hend : ∀ i a p, hp_attempts st !! i = Some (a, Some p) → ∃ r, p = PDone r) :
  ∀ key, signal_root key → is_Some (contents (hp_store st) !! key) →
  ∃ i a, hp_attempts st !! i = Some (a, None) ∧ key = own_key a.
Proof.
  assert (all_owned st) as Hown.
  { enough (sys_ok st ∧ all_owned st) by tauto.
    eapply (rtc_ind_r (fun st => sys_ok st ∧ all_owned st)); [| |exact Hrun].
    - split; [apply (reachable_sys_ok s0); [done|constructor]|]. intros key Hr [obj Hk]. cbn in Hk. by rewrite H0 in Hk.
    - intros st1 st2 _ Hmove [Hok Ho]. split; [by eapply sys_ok_move|by eapply all_owned_move]. }
  intros key Hr Hk. destruct (Hown key Hr Hk) as (i & a & [p|] & Hi & Hkey & Hw); [|eauto].
  destruct (Hend i a p Hi) as [r ->]. done.
Qed.

(** ** Reading *)

(** The signal [w] wrote for the pair. *)
Definition signal_of (s : S) (a b w : string) : option Signal :=
  contents s !! signalKey a b w ≫= fun obj => Unmarshal obj.1.

Lemma read_loop_spec s log a b keys f :
  signals_inv s log → plain_id a → plain_id b → a ≠ b → NoDup keys →
  (∀ key, key ∈ keys → (∃ r, key = signalPrefix a b +:+ r) ∧ is_Some (contents s !! key)) →
  read_loop s a b keys f =
  Ok (if decide (signalKey a b a ∈ keys) then signal_of s a b a else f.1,
      if decide (signalKey a b b ∈ keys) then signal_of s a b b else f.2).
Proof.
  intros Hinv Ha Hb Hab. revert f. induction keys as [|key keys IH]; intros f Hnd Hall.
  { cbn. rewrite !decide_False by (by intros ?%elem_of_nil). by destruct f. }
  apply NoDup_cons in Hnd as [Hnew Hnd]. destruct (Hall key ltac:(apply elem_of_cons; by left)) as [Hpre [[data etag] Hk]].
  destruct (signal_under_prefix s log a b key _ Hinv Ha Hb Hpre Hk) as (sig & Hu & Hkey & Hwho). cbn in Hu.
  cbn [read_loop]. pose proof (Get_cases s key) as Hg. rewrite Hk in Hg. destruct Hg as [info ->].
  rewrite IH; [|done|intros k Hin; apply Hall, elem_of_cons; by right].
  assert (∀ w, key = signalKey a b w → signal_of s a b w = Some sig) as Hof.
  { intros w ->. unfold signal_of. by rewrite Hk. }
  assert (∀ w, key = signalKey a b w → w = SigNodeID sig) as Hw.
  { intros w ->. by apply signalKey_inj in Hkey as [_ ->]. }
  unfold sort_signal. rewrite Hu. do 2 f_equal.
  - destruct (decide (SigNodeID sig = a)) as [E|E].
    + rewrite E in Hkey. rewrite (decide_True _ _ (P := signalKey a b a ∈ key :: keys)) by (rewrite <- Hkey; set_solver).
      rewrite decide_False by (by rewrite <- Hkey). cbn. by rewrite Hof.
    + rewrite !(decide_ext (signalKey a b a ∈ key :: keys) (signalKey a b a ∈ keys)).
      * by repeat case_decide.
      * rewrite elem_of_cons. split; [|tauto]. intros [Heq|?]; [|done]. by rewrite (Hw a) in E.
  - destruct Hwho as [[E _]|[E _]].
    + rewrite (decide_True _ _ (P := SigNodeID sig = a)) by done. cbn [fst snd]. rewrite (decide_ext (signalKey a b b ∈ key :: keys) (signalKey a b b ∈ keys)); [done|].
      rewrite elem_of_cons. split; [|tauto]. intros [Heq|?]; [|done]. rewrite <- E, (Hw b) in Hab by done. done.
    + rewrite (decide_False _ _ (P := SigNodeID sig = a)), (decide_True _ _ (P := SigNodeID sig = b)) by congruence.
      cbn [fst snd]. rewrite E in Hkey.
      rewrite (decide_True _ _ (P := signalKey a b b ∈ key :: keys)) by (rewrite <- Hkey; set_solver).
      rewrite decide_False by (by rewrite <- Hkey). by rewrite Hof.
Qed.

(** Listing and scanning a pair's prefix is looking up two keys: in every
    reachable store of a system without slashes in its IDs [ReadSignals] returns
    exactly the signal each of the two nodes has stored for the other, and none
    of any other node. *)
Theorem read_signals_exact s0 st a b
    (H0 : no_signals s0) (Hrun : rtc punch_move (mkSys s0 [] []) st) (Hplain : plain_sys st)
    (Hids : plain_id a ∧ plain_id b ∧ a ≠ b) :
  ReadSignals (hp_store st) a b = Ok (signal_of (hp_store st) a b a, signal_of (hp_store st) a b b).
Proof.
  destruct Hids as (Ha & Hb & Hab). pose proof (po_signals _ (reachable_plain_ok s0 st H0 Hrun Hplain)) as Hinv.
  unfold ReadSignals. destruct (List_keys (hp_store st) a b) as (keys & -> & _ & Hnd & Hin).
  rewrite (read_loop_spec _ _ a b keys (None, None) Hinv Ha Hb Hab Hnd) by (intros key; apply Hin).
  assert (∀ w, (if decide (signalKey a b w ∈ keys) then signal_of (hp_store st) a b w else None) =
    signal_of (hp_store st) a b w) as Hw; [|by rewrite !Hw].
  intros w. case_decide as Hk; [done|]. unfold signal_of.
  destruct (contents (hp_store st) !! signalKey a b w) as [obj|] eqn:E; [|done]. destruct Hk. apply Hin.
  split; [rewrite signalKey_prefix; by eexists|by eexists].
Qed.

(** ** The peer that comes too late *)

(** No attempt of [a]'s target for [a] is about to write. *)
Definition no_writer (a : PunchParams) (ats : list (PunchParams * option punch_pc)) : Prop :=
  ∀ j a' p, ats !! j = Some (a', Some p) → SelfID a' = TargetID a → TargetID a' = SelfID a → p ≠ PWrite.

Definition not_connecting (p : punch_pc) : Prop :=
  match p with
  | PPoll => True
  | PRead _ f => f.2 = None
  | PCleanList (Err _) | PCleanDelete _ (Err _) | PDone (Err _) => True
  | _ => False
  end.

Record starved (i : nat) (a : PunchParams) (st : punch_sys) : Prop := {
  sv_pc : ∃ p, hp_attempts st !! i = Some (a, Some p) ∧ not_connecting p ∨ hp_attempts st !! i = Some (a, None);
  sv_gone : contents (hp_store st) !! signalKey (TargetID a) (SelfID a) (TargetID a) = None;
  sv_writer : no_writer a (hp_attempts st);
}.

Lemma step_keeps_starving a inp s p s' p' log :
  plain_attempt a → signals_inv s log → pc_ok a (signalled a log) p →
  contents s !! signalKey (TargetID a) (SelfID a) (TargetID a) = None →
  not_connecting p → punch_step a inp s p = (s', p') → not_connecting p'.
Proof.
  intros (Hs & Ht & Hne) Hinv Hp Hgone Hn Hstep.
  destruct p as [| |[|key keys] f|sig|r|[|key keys] r|r]; cbn [punch_step] in *; try done.
  - destruct (in_deadline inp); [by injection Hstep as <- <-|]. destruct (List s _); by injection Hstep as <- <-.
  - destruct f as [f1 [sig|]]; [done|]. by injection Hstep as <- <-.
  - destruct Hp as [Hkeys _]. apply Forall_cons in Hkeys as [Hkey _].
    pose proof (Get_cases s key) as Hg. destruct (contents s !! key) as [[data etag]|] eqn:E.
    + destruct Hg as [info Hg]. rewrite Hg in Hstep. injection Hstep as <- <-. cbn in *.
      destruct (signal_under_prefix s log _ _ key _ Hinv Hs Ht Hkey E) as (sig & Hu & -> & _). cbn in Hu.
      unfold sort_signal. rewrite Hu. case_decide; [done|]. case_decide as Et; [|done].
      rewrite Et, signalKey_comm in E. congruence.
    + rewrite Hg in Hstep. by injection Hstep as <- <-.
  - destruct r as [|]; [done|]. destruct (List s _); by injection Hstep as <- <-.
  - destruct r as [|]; [done|]. by injection Hstep as <- <-.
  - destruct r as [|]; [done|]. by injection Hstep as <- <-.
  - destruct r as [|]; [done|]. by injection Hstep as <- <-.
Qed.

(** A step that does not write leaves an absent signal absent. *)
Lemma step_no_write a inp s p s' p' key :
  p ≠ PWrite → contents s !! key = None → punch_step a inp s p = (s', p') → contents s' !! key = None.
Proof.
  intros Hp Hk Hstep. destruct p as [| |[|k keys] f|sig|r|[|k keys] r|r]; cbn [punch_step] in *; try done.
  all: try (by (repeat case_match); injection Hstep as <- _).
  injection Hstep as <- _. destruct (Delete_law s k) as (s1 & -> & Hc). cbn. rewrite Hc. apply lookup_delete_None. by right.
Qed.

Lemma step_write_own a inp s s' p' key :
  attempt_ok a → key ≠ own_key a → punch_step a inp s PWrite = (s', p') → contents s' !! key = contents s !! key.
Proof.
  intros Hj Hkey Hstep. cbn in Hstep. destruct (in_nonce inp) as [nonce|]; [|by injection Hstep as <- _].
  unfold WriteSignalForPeer in Hstep. destruct (put_signal_spec s (in_now inp) (own_key a) (mkSignal (SelfID a) (SelfAddr a) nonce 0)) as (s1 & data & etag & Hp & Hc & _); [apply Hj|].
  unfold own_key in *. rewrite Hp in Hstep. injection Hstep as <- _. by rewrite Hc, lookup_insert_ne.
Qed.

Lemma step_not_PWrite a inp s p s' p' : p ≠ PWrite → punch_step a inp s p = (s', p') → p' ≠ PWrite.
Proof.
  intros Hp Hstep ->. destruct p as [| |[|k keys] f|sig|r|[|k keys] r|r]; cbn [punch_step] in *; try done;
    by (repeat case_match); simplify_eq.
Qed.

Lemma own_key_target a a' :
  plain_attempt a → plain_attempt a' → signalKey (TargetID a) (SelfID a) (TargetID a) = own_key a' →
  SelfID a' = TargetID a ∧ TargetID a' = SelfID a.
Proof.
  intros (Hs & Ht & Hne) (Hs' & Ht' & Hne') Heq. unfold own_key in Heq.
  apply signalKey_inj in Heq as [Ho Hw]; [|done..]. apply ordered_same in Ho as [[? ?]|[? ?]]; split; congruence.
Qed.

(** A move that starts no attempt. *)
Definition late_move (st st' : punch_sys) : Prop :=
  punch_move st st' ∧ length (hp_attempts st') = length (hp_attempts st).

Lemma late_move_plain st st' : plain_sys st → late_move st st' → plain_sys st'.
Proof.
  intros Hpl [Hmove Hlen] i a q Hi.
  destruct Hmove as [s ats log a0 Ha|s ats log j a0 p inp s' p' Hj Hstep|s ats log j a0 p Hj|s ats log s' Heq]; cbn in *.
  - rewrite length_app in Hlen. cbn in Hlen. lia.
  - apply list_lookup_insert_Some in Hi as [(_ & [= <- _] & _)|[_ Hi]]; by eapply Hpl.
  - apply list_lookup_insert_Some in Hi as [(_ & [= <- _] & _)|[_ Hi]]; by eapply Hpl.
  - by eapply Hpl.
Qed.

Lemma starved_move i a st st' : sys_ok st → plain_sys st → plain_ok st → starved i a st → late_move st st' → starved i a st'.
Proof.
  intros [_ H2 _] Hpl [H1 H3] [(p & Hpc) Hgone Hwr] [Hmove Hlen].
  assert (plain_attempt a) as Ha by (destruct Hpc as [[? _]|?]; by eapply Hpl).
  destruct Hmove as [s ats log a' Ha'|s ats log j a' p' inp s' p'' Hj Hstep|s ats log j a' p' Hj|s ats log s' Heq]; cbn in *.
  - rewrite length_app in Hlen. cbn in Hlen. lia.
  - split; cbn.
    + destruct (decide (j = i)) as [->|Hne]; [|exists p; by rewrite list_lookup_insert_ne].
      exists p''. left. destruct Hpc as [[Hi Hn]|Hi]; rewrite Hi in Hj; [|done]. injection Hj as <- <-.
      split; [apply list_lookup_insert_eq; by eapply lookup_lt_Some|].
      eapply (step_keeps_starving a inp s p s' p'' log); try done. by eapply H3.
    + assert (p' = PWrite ∨ p' ≠ PWrite) as [->|Hp] by (destruct p'; auto); [|by eapply step_no_write].
      erewrite step_write_own; [exact Hgone|by eapply H2| |exact Hstep].
      intros Heq. destruct (own_key_target a a' Ha (Hpl _ _ _ Hj) Heq). by eapply (Hwr j).
    + intros k a0 p0 [(_ & [= <- <-] & _)|[_ Hk]]%list_lookup_insert_Some Hs Ht; [|by eapply Hwr].
      eapply step_not_PWrite; [|exact Hstep]. by eapply (Hwr j).
  - split; cbn; [|done|].
    + destruct (decide (j = i)) as [->|Hne]; [|exists p; by rewrite list_lookup_insert_ne].
      exists p. right. destruct Hpc as [[Hi _]|Hi]; rewrite Hi in Hj; [|done]. injection Hj as <- <-.
      apply list_lookup_insert_eq. by eapply lookup_lt_Some.
    + intros k a0 p0 [(_ & ? & _)|[_ Hk]]%list_lookup_insert_Some; [done|by eapply Hwr].
  - split; cbn; [by exists p| |done]. rewrite Heq; [done|]. rewrite signalKey_prefix. apply signalPrefix_root.
Qed.

(** The one that finishes first takes the other's chance.  Clean-up deletes both
    signals of the pair, so an attempt that still polls when the signal of its
    target is gone, with no attempt of the target about to write one, never
    connects however the run goes on, unless the target starts another attempt:
    it can only fail.  (IDs contain no slash.) *)
Theorem late_peer_never_connects s0 st i a
    (H0 : no_signals s0) (Hrun : rtc punch_move (mkSys s0 [] []) st) (Hplain : plain_sys st)
    (Hi : hp_attempts st !! i = Some (a, Some PPoll))
    (Hgone : contents (hp_store st) !! signalKey (TargetID a) (SelfID a) (TargetID a) = None)
    (Hwr : no_writer a (hp_attempts st)) :
  ∀ st' p, rtc late_move st st' → hp_attempts st' !! i = Some (a, Some p) →
  (∀ sig, p ≠ PDial sig) ∧ (∀ addr, p ≠ PDone (Ok addr)).
Proof.
  intros st' p Hlate Hp.
  assert (sys_ok st' ∧ plain_sys st' ∧ plain_ok st' ∧ starved i a st') as (_ & _ & _ & [(p0 & [[Hi' Hn]|Hi']) _ _]).
  { eapply (rtc_ind_r (fun st => sys_ok st ∧ plain_sys st ∧ plain_ok st ∧ starved i a st)); [| |exact Hlate].
    - split_and!; [by eapply reachable_sys_ok|done|by eapply reachable_plain_ok|]. split; [exists PPoll; by left|done|done].
    - intros st1 st2 _ Hmove (Hok & Hpl & Hpo & Hst). pose proof Hmove as [Hm _].
      split_and!; [by eapply sys_ok_move|by eapply late_move_plain|by eapply plain_ok_move|by eapply starved_move]. }
  - rewrite Hi' in Hp. injection Hp as ->. split; intros ? ->; done.
  - rewrite Hi' in Hp. done.
Qed.

(** ** WriteSignal *)

(** [WriteSignal] uses the address where the pair needs the target's ID: the
    signal it stores is never found by a target with another name, neither by
    reading nor by cleaning up. *)
Theorem write_signal_unread (s : S) now sig target
    (H0 : no_signals s) (Hids : plain_id (SigNodeID sig) ∧ plain_id (SigAddr sig) ∧ plain_id target)
    (Hname : SigAddr sig ≠ target ∧ SigNodeID sig ≠ target)
    (Hj : json_ok (mkSignal (SigNodeID sig) (SigAddr sig) (SigNonce sig) now)) :
  ∃ s', WriteSignal s now sig = (Ok (), s') ∧
    is_Some (contents s' !! signalKey (SigNodeID sig) (SigAddr sig) (SigNodeID sig)) ∧
    ReadSignals s' target (SigNodeID sig) = Ok (None, None) ∧
    CleanupSignal s' target (SigNodeID sig) = (Ok (), s').
Proof.
  destruct Hids as (Hn & Ha & Ht). destruct Hname as [Hat Hnt]. unfold WriteSignal.
  destruct (put_signal_spec s now (signalKey (SigNodeID sig) (SigAddr sig) (SigNodeID sig)) sig Hj)
    as (s' & data & etag & Hw & Hc & _).
  assert (List s' (signalPrefix target (SigNodeID sig)) = Ok []) as Hl.
  { destruct (List_keys s' target (SigNodeID sig)) as ([|key keys] & Hl & _ & _ & Hin); [done|]. exfalso.
    destruct (proj1 (Hin key) ltac:(apply elem_of_cons; by left)) as [(r & ->) [obj Hk]].
    rewrite Hc in Hk. apply lookup_insert_Some in Hk as [[Heq _]|[_ Hk]]; [|by rewrite H0 in Hk by apply signalPrefix_root].
    apply signalKey_pair in Heq as [Ho _]; [|done..]. apply ordered_same in Ho as [[? ?]|[? ?]]; congruence. }
  exists s'. rewrite Hc, lookup_insert_eq. unfold ReadSignals, CleanupSignal. rewrite Hl. split_and!; [done|by eexists|done..].
Qed.
End Attempts.
Arguments punch_sys S : clear implicits.

(** ** Concrete runs on the memory store *)

(** The accesses of a schedule: which attempt moves, and with what input. *)
Fixpoint run_punch (st : punch_sys MemoryObjectStore) (sched : list (nat * punch_input)) : punch_sys MemoryObjectStore :=
  match sched with
  | [] => st
  | (i, inp) :: sched' =>
      match hp_attempts st !! i with
      | Some (a, Some p) =>
          let '(s', p') := punch_step a inp (hp_store st) p in
          run_punch (mkSys s' (<[i := (a, Some p')]> (hp_attempts st)) (hp_log st ++ written a p p')) sched'
      | _ => run_punch st sched'
      end
  end.

Lemma run_punch_moves st sched : rtc late_move st (run_punch st sched).
Proof.
  revert st. induction sched as [|[i inp] sched IH]; intros [s ats log]; cbn [run_punch hp_attempts hp_store hp_log]; [done|].
  destruct (ats !! i) as [[a [p|]]|] eqn:Hi; [|apply IH..].
  destruct (punch_step a inp s p) as [s' p'] eqn:Hstep. eapply rtc_l; [|apply IH]. split; [by eapply hp_access|].
  cbn. apply length_insert.
Qed.

Lemma run_punch_reachable st0 st sched : rtc punch_move st0 st → rtc punch_move st0 (run_punch st sched).
Proof.
  intros H0. etrans; [exact H0|]. eapply (rtc_subrel late_move); [by intros ? ? [? _]|apply run_punch_moves].
Qed.

Lemma run_punch_plain st sched : plain_sys st → plain_sys (run_punch st sched).
Proof.
  intros Hpl. eapply (rtc_ind_r plain_sys); [exact Hpl| |apply run_punch_moves]. intros st1 st2 _ Hmove Hst. by eapply late_move_plain.
Qed.

Definition tick : punch_input := mkInput 7 (Some "n"%string) false true true.

Definition punch_a : PunchParams := mkPunch "a" "b" "192.0.2.1:7947".
Definition punch_b : PunchParams := mkPunch "b" "a" "198.51.100.2:7947".

Definition both_started : punch_sys MemoryObjectStore :=
  mkSys NewMemoryObjectStore [(punch_a, Some PWrite); (punch_b, Some PWrite)] [].

Lemma punch_ab_ok : attempt_ok punch_a ∧ attempt_ok punch_b.
Proof. done. Qed.

Lemma punch_ab_plain : plain_attempt punch_a ∧ plain_attempt punch_b.
Proof. split; (split_and!; [apply (bool_decide_unpack _); vm_compute; exact I..|done]). Qed.

Lemma memory_no_signals : no_signals NewMemoryObjectStore.
Proof. intros key _. cbn. by rewrite fmap_empty, lookup_empty. Qed.

Lemma both_started_reachable sched :
  rtc punch_move (mkSys NewMemoryObjectStore [] []) (run_punch both_started sched).
Proof.
  destruct punch_ab_ok as [Ha Hb]. eapply rtc_l; [apply (hp_begin _ _ _ punch_a Ha)|].
  eapply rtc_l; [apply (hp_begin _ _ _ punch_b Hb)|]. by apply run_punch_reachable.
Qed.

Lemma both_started_plain sched : plain_sys (run_punch both_started sched).
Proof.
  apply run_punch_plain. destruct punch_ab_plain as [Ha Hb]. intros [|[|i]] a q Hi; cbn in Hi; by simplify_eq.
Qed.

(** Both write; [a] polls, reads both signals, dials [b] and cleans up, all
    before [b] polls for the first time. *)
Definition a_first : punch_sys MemoryObjectStore :=
  run_punch both_started ([(0, tick); (1, tick)] ++ replicate 9 (0, tick))%nat.

Lemma a_first_reachable : rtc punch_move (mkSys NewMemoryObjectStore [] []) a_first.
Proof. unfold a_first. apply both_started_reachable. Qed.

Lemma punch_dials_signalled_witness :
  hp_attempts a_first !! 0%nat = Some (punch_a, Some (PDone (Ok "198.51.100.2:7947"%string))) ∧
  ("b"%string, "a"%string, "198.51.100.2:7947"%string) ∈ hp_log a_first.
Proof.
  assert (hp_attempts a_first !! 0%nat = Some (punch_a, Some (PDone (Ok "198.51.100.2:7947"%string)))) as Hi
    by (vm_compute; reflexivity).
  split; [exact Hi|].
  refine (proj2 (punch_dials_signalled NewMemoryObjectStore a_first 0 punch_a _ memory_no_signals
    (both_started_reachable _) Hi "198.51.100.2:7947" (or_intror eq_refl)) _). exact (both_started_plain _).
Defined.

Lemma late_peer_never_connects_witness :
  hp_attempts a_first !! 0%nat = Some (punch_a, Some (PDone (Ok "198.51.100.2:7947"%string))) ∧
  ∀ p, hp_attempts (run_punch a_first (replicate 5 (1%nat, tick))) !! 1%nat = Some (punch_b, Some p) →
  ∀ addr, p ≠ PDone (Ok addr).
Proof.
  split; [vm_compute; reflexivity|]. intros p Hp.
  refine (proj2 (late_peer_never_connects NewMemoryObjectStore a_first 1 punch_b memory_no_signals
    (both_started_reachable _) (both_started_plain _) _ _ _ _ p (run_punch_moves a_first (replicate 5 (1%nat, tick))) Hp)).
  - vm_compute. reflexivity.
  - vm_compute. reflexivity.
  - intros j a' p0 Hj Hs Ht ->. do 2 (destruct j as [|j]; [vm_compute in Hj; discriminate|]). vm_compute in Hj. discriminate.
Defined.

(** Two signals are stored; each side reads its own and the other's. *)
Definition both_written : punch_sys MemoryObjectStore := run_punch both_started [(0, tick); (1, tick)]%nat.

Lemma read_signals_exact_witness :
  ReadSignals (hp_store both_written) "a" "b" =
  Ok (Some (mkSignal "a" "192.0.2.1:7947" "n" 7), Some (mkSignal "b" "198.51.100.2:7947" "n" 7)).
Proof.
  rewrite (read_signals_exact NewMemoryObjectStore both_written "a" "b" memory_no_signals (both_started_reachable _) (both_started_plain _)).
  - vm_compute. reflexivity.
  - split_and!; [apply (bool_decide_unpack _); vm_compute; exact I..|discriminate].
Defined.

Lemma signals_cleaned_witness :
  let timeout := mkInput 9 None true true true in
  let st := run_punch a_first (replicate 3 (1%nat, timeout)) in
  (∀ i a p, hp_attempts st !! i = Some (a, Some p) → ∃ r, p = PDone r) ∧
  ∀ key, signal_root key → is_Some (contents (hp_store st) !! key) →
  ∃ i a, hp_attempts st !! i = Some (a, None) ∧ key = own_key a.
Proof.
  intros timeout st.
  assert (∀ i a p, hp_attempts st !! i = Some (a, Some p) → ∃ r, p = PDone r) as Hend.
  { intros i a p Hi. do 2 (destruct i as [|i]; [vm_compute in Hi; injection Hi as _ <-; eexists; reflexivity|]).
    vm_compute in Hi. discriminate. }
  assert (rtc punch_move (mkSys NewMemoryObjectStore [] []) st) as Hrun
    by exact (run_punch_reachable _ a_first (replicate 3 (1%nat, timeout)) a_first_reachable).
  clearbody st. split; [exact Hend|]. exact (signals_cleaned NewMemoryObjectStore st memory_no_signals Hrun Hend).
Defined.

Lemma write_signal_unread_witness :
  ∃ s', WriteSignal NewMemoryObjectStore 7 (mkSignal "a" "192.0.2.1:7947" "n" 0) = (Ok (), s') ∧
    ReadSignals s' "b" "a" = Ok (None, None).
Proof.
  destruct (write_signal_unread NewMemoryObjectStore 7 (mkSignal "a" "192.0.2.1:7947" "n" 0) "b" memory_no_signals)
    as (s' & H1 & _ & H2 & _).
  - split_and!; apply (bool_decide_unpack _); vm_compute; exact I.
  - split; discriminate.
  - exact I.
  - exists s'. split; [exact H1|exact H2].
Defined.

(** IDs with a slash mix up pairs: the signal "a" has for "b/c" is read as its
    signal for "b", and cleaning up the pair of "a" and "b" deletes it. *)
Lemma slash_ids_collide :
  let s := (WriteSignalForPeer NewMemoryObjectStore 7 "a" "b/c" (mkSignal "a" "192.0.2.1:7947" "n" 0)).2 in
  is_Some (contents s !! signalKey "a" "b/c" "a") ∧
  ReadSignals s "b" "a" = Ok (None, Some (mkSignal "a" "192.0.2.1:7947" "n" 7)) ∧
  contents (CleanupSignal s "a" "b").2 !! signalKey "a" "b/c" "a" = None.
Proof. split_and!; [eexists; vm_compute; reflexivity|vm_compute; reflexivity..]. Qed.
