(* ===== verification/Relay.v ===== *)
(** * The relay (src/relay/relay.go, src/relay/client.go)

    [handleRelay] up to the bridge is a function of the stream's bytes, the
    connection pool and the outcomes of opening and writing; the lookup of a
    node's address is a parameter of it, of which [findAddrForNode] is the
    code's.  The bridge is a step relation: its two copying goroutines, the two
    endpoints and failures interleave. *)

From S2P Require Import Prelude Netaddr Stream EagerWire Repair Engine Transport.

Definition StreamTypeRelay : byte := x40.

(** ** The client *)

(** [StreamTypeRelay], the length in one byte, the ID. *)
Definition relay_header (id : string) : bytes :=
  StreamTypeRelay :: byte_of_Z (Z.of_nat (length (bytes_of id))) :: bytes_of id.

Inductive relay_dial_error := ErrOpenRelay | ErrWriteHeader.

(** [DialViaRelay]: the pool afterwards, the connection of the stream, and what
    was written on it.  A stream whose header is not written is closed. *)
Definition DialViaRelay (p : Pool) (relayAddr targetNodeID : string)
    (dial : option nat) (opens : nat → bool) (w : write_outcome) : Pool * result relay_dial_error (nat * bytes) :=
  match OpenStream p relayAddr dial opens with
  | (p1, None) => (p1, Err ErrOpenRelay)
  | (p1, Some c) =>
      if write_ok w then (p1, Ok (c, Stream.written w (relay_header targetNodeID))) else (p1, Err ErrWriteHeader)
  end.

(** [StreamConn], a stream as a net.Conn.  The stream is quic-go's: what its
    methods do is the class [QuicStream], a deadline call may fail. *)
Class QuicStream (Q : Type) := {
  qs_Read : Q → nat → Q * result io_error bytes;
  qs_Write : Q → bytes → Q * result io_error nat;
  qs_CancelRead : Q → Q;
  qs_Close : Q → Q * result io_error unit;
  qs_SetReadDeadline : Q → Z → Q * result io_error unit;
  qs_SetWriteDeadline : Q → Z → Q * result io_error unit;
}.

Record StreamConn (Q : Type) := mkStreamConn { Stream : Q; LocalAddr_ : string; RemoteAddr_ : string }.
Arguments mkStreamConn {Q}.
Arguments Stream {Q}.
Arguments LocalAddr_ {Q}.
Arguments RemoteAddr_ {Q}.

Section StreamConn.
Context {Q : Type} `{HQ : QuicStream Q}.

(** A method of the stream, called through the wrapper. *)
Definition on_stream {A} (c : StreamConn Q) (r : Q * A) : StreamConn Q * A :=
  (mkStreamConn r.1 (LocalAddr_ c) (RemoteAddr_ c), r.2).

Definition StreamConn_Read (c : StreamConn Q) (n : nat) : StreamConn Q * result io_error bytes :=
  on_stream c (qs_Read (Stream c) n).

Definition StreamConn_Write (c : StreamConn Q) (b : bytes) : StreamConn Q * result io_error nat :=
  on_stream c (qs_Write (Stream c) b).

Definition StreamConn_Close (c : StreamConn Q) : StreamConn Q * result io_error unit :=
  on_stream c (qs_Close (qs_CancelRead (Stream c))).

Definition SetReadDeadline (c : StreamConn Q) (d : Z) : StreamConn Q * result io_error unit :=
  on_stream c (qs_SetReadDeadline (Stream c) d).

Definition SetWriteDeadline (c : StreamConn Q) (d : Z) : StreamConn Q * result io_error unit :=
  on_stream c (qs_SetWriteDeadline (Stream c) d).

(** The read deadline first; its error is returned before the other is set. *)
Definition SetDeadline (c : StreamConn Q) (d : Z) : StreamConn Q * result io_error unit :=
  match SetReadDeadline c d with
  | (c1, Err e) => (c1, Err e)
  | (c1, Ok _) => SetWriteDeadline c1 d
  end.
End StreamConn.

(** ** The server *)

(** [NewServer] registers the handler for relay streams. *)
Definition NewServer {H} (handle : H) (t : Handlers H) : Handlers H := RegisterBidiHandler StreamTypeRelay handle t.

Inductive relay_outcome :=
| RelayBadLength
| RelayBadID
| RelayNoConnection (target : string)
| RelayOpenFailed (target : string)
| RelayHeaderFailed (target : string)
| RelayBridge (target : string) (c : nat) (header : bytes) (rest : reader).

(** [handleRelay] on what the client still sends after the type byte. *)
Definition handleRelay (find : string → string) (p : Pool) (from : string) (r : reader)
    (opens : nat → bool) (w : write_outcome) : Pool * relay_outcome :=
  match ReadFull r 1 with
  | Ok ([b], r1) =>
      let idLen := Z.to_nat (byte_to_Z b) in
      if ((idLen =? 0) || (255 <? idLen))%nat then (p, RelayBadLength)
      else
        match ReadFull r1 idLen with
        | Err _ => (p, RelayBadID)
        | Ok (idBuf, r2) =>
            let target := string_of idBuf in
            match GetConnection p (find target) with
            | (None, p1) => (p1, RelayNoConnection target)
            | (Some c, p1) =>
                if opens c then
                  if write_ok w then (p1, RelayBridge target c (Stream.written w (relay_header from)) r2)
                  else (p1, RelayHeaderFailed target)
                else (p1, RelayOpenFailed target)
            end
        end
  | _ => (p, RelayBadLength)
  end.

Definition findAddrForNode (nodeID : string) : string := "".

(** ** The bridge *)

(** One direction: what its sender sent and finished, what arrived unread,
    whether reading was cancelled, what the goroutine that copies has read and
    not written (lost once it has ended), what it wrote, and whether it runs. *)
Record half := mkHalf {
  h_sent : bytes;
  h_in : bytes;
  h_fin : bool;
  h_cancel : bool;
  h_buf : bytes;
  h_out : bytes;
  h_run : bool;
}.

(** From the client to the target, and back. *)
Record bridge := mkBridge { b_up : half; b_down : half }.

Definition new_half (arrived : bytes) : half := mkHalf arrived arrived false false [] [] true.

(** [rest] has arrived with the header. *)
Definition new_bridge (rest : bytes) : bridge := mkBridge (new_half rest) (new_half []).

Definition side (up : bool) (b : bridge) : half := if up then b_up b else b_down b.

Definition put_side (up : bool) (h : half) (b : bridge) : bridge :=
  if up then mkBridge h (b_down b) else mkBridge (b_up b) h.

(** The endpoint that sends, and the end of what it sends. *)
Definition half_send (data : bytes) (h : half) : half :=
  mkHalf (h_sent h ++ data) (h_in h ++ data) (h_fin h) (h_cancel h) (h_buf h) (h_out h) (h_run h).
Definition half_fin (h : half) : half :=
  mkHalf (h_sent h) (h_in h) true (h_cancel h) (h_buf h) (h_out h) (h_run h).

(** io.Copy reads up to 32 KiB into its buffer, and writes all of it, or a prefix
    when the write fails. *)
Definition copyBuffer : Z := 32 * 1024.
Definition half_read (n : nat) (h : half) : half :=
  mkHalf (h_sent h) (drop n (h_in h)) (h_fin h) (h_cancel h) (take n (h_in h)) (h_out h) (h_run h).
Definition half_write (n : nat) (h : half) : half :=
  mkHalf (h_sent h) (h_in h) (h_fin h) (h_cancel h) (drop n (h_buf h)) (h_out h ++ take n (h_buf h)) (h_run h).

Definition cancel_read (h : half) : half :=
  mkHalf (h_sent h) (h_in h) (h_fin h) true (h_buf h) (h_out h) (h_run h).
Definition half_end (h : half) : half :=
  mkHalf (h_sent h) (h_in h) (h_fin h) (h_cancel h) (h_buf h) (h_out h) false.

(** A copy ends: the goroutine cancels the reads of the stream it wrote to, which
    the other direction reads from. *)
Definition copy_ends (up : bool) (b : bridge) : bridge :=
  let b1 := put_side up (half_end (side up b)) b in
  put_side (negb up) (cancel_read (side (negb up) b1)) b1.

(** A Read that fails, because it was cancelled, the peer reset the stream or the
    connection is gone, ends the copy as the end of the stream does; so does a
    Write that fails, and what it did not write is lost. *)
Inductive bridge_step : bridge → bridge → Prop :=
| bs_send b up data :
    h_fin (side up b) = false →
    bridge_step b (put_side up (half_send data (side up b)) b)
| bs_fin b up :
    bridge_step b (put_side up (half_fin (side up b)) b)
| bs_read b up n :
    h_run (side up b) = true → h_buf (side up b) = [] → h_cancel (side up b) = false →
    (0 < n ≤ length (h_in (side up b)))%nat → Z.of_nat n ≤ copyBuffer →
    bridge_step b (put_side up (half_read n (side up b)) b)
| bs_write b up :
    h_run (side up b) = true → h_buf (side up b) ≠ [] →
    bridge_step b (put_side up (half_write (length (h_buf (side up b))) (side up b)) b)
| bs_write_fails b up n :
    h_run (side up b) = true → (n < length (h_buf (side up b)))%nat →
    bridge_step b (copy_ends up (put_side up (half_write n (side up b)) b))
| bs_eof b up :
    h_run (side up b) = true → h_buf (side up b) = [] → h_cancel (side up b) = false →
    h_in (side up b) = [] → h_fin (side up b) = true →
    bridge_step b (copy_ends up b)
| bs_read_fails b up :
    h_run (side up b) = true → h_buf (side up b) = [] →
    bridge_step b (copy_ends up b).

(** ** Requests *)

(** What the server makes of any request: the length byte is the ID's length
    modulo 256. *)
Lemma handleRelay_header find p from id payload e opens w :
  let k := (length (bytes_of id) mod 256)%nat in
  let r := mkReader (drop 1 (relay_header id) ++ payload) e in
  handleRelay find p from r opens w =
  if (k =? 0)%nat then (p, RelayBadLength)
  else
    let target := string_of (take k (bytes_of id)) in
    match GetConnection p (find target) with
    | (None, p1) => (p1, RelayNoConnection target)
    | (Some c, p1) =>
        if opens c then
          if write_ok w
          then (p1, RelayBridge target c (relay_header from) (mkReader (drop k (bytes_of id) ++ payload) e))
          else (p1, RelayHeaderFailed target)
        else (p1, RelayOpenFailed target)
    end.
Proof.
  intros k r. unfold handleRelay, r, relay_header. cbn [drop app].
  change (byte_of_Z (Z.of_nat (length (bytes_of id))) :: bytes_of id ++ payload)
    with ([byte_of_Z (Z.of_nat (length (bytes_of id)))] ++ bytes_of id ++ payload).
  rewrite (ReadFull_app [byte_of_Z _]) by done. rewrite byte_to_of_Z.
  assert (Z.to_nat (u8 (Z.of_nat (length (bytes_of id)))) = k) as ->.
  { unfold wrap, k. change (2 ^ 8) with (Z.of_nat 256). rewrite <- Nat2Z.inj_mod. apply Nat2Z.id. }
  assert (k < 256)%nat as Hk by (apply Nat.mod_upper_bound; lia).
  rewrite (proj2 (Nat.ltb_ge 255 k)) by lia. rewrite orb_false_r. destruct (Nat.eqb_spec k 0) as [|Hk0]; [done|].
  rewrite <- (take_drop k (bytes_of id)) at 1. rewrite <- app_assoc.
  rewrite ReadFull_app by (rewrite length_take; pose proof (Nat.Div0.mod_le (length (bytes_of id)) 256); unfold k; lia).
  destruct (GetConnection p _) as [[c|] p1]; [|done]. destruct (opens c); [|done]. by destruct w.
Qed.

(** A request arrives as it was sent: when a server is registered on the transport
    and it holds a live connection to the target, a stream that DialViaRelay opened
    for a node ID of 1 to 255 bytes is bridged to that very node, the target is
    told where it came from, and what the client sends after the header is
    relayed from its first byte on. *)
Theorem relay_request_roundtrip {H} (t : Handlers H) (h : H) find p p1 from id payload e opens c
    (Hlen : (0 < length (bytes_of id) < 256)%nat)
    (Hconn : GetConnection p (find id) = (Some c, p1)) (Hopen : opens c = true) :
  ∃ r, dispatchBidiStream (NewServer h t) (mkReader (relay_header id ++ payload) e) = BidiStream h r ∧
    handleRelay find p from r opens WOk = (p1, RelayBridge id c (relay_header from) (mkReader payload e)).
Proof.
  exists (mkReader (drop 1 (relay_header id) ++ payload) e). split.
  - unfold dispatchBidiStream, relay_header. cbn [app drop]. rewrite ReadFull_one.
    rewrite !decide_False by done. cbn. by rewrite lookup_insert_eq.
  - rewrite handleRelay_header. rewrite Nat.mod_small by lia. rewrite (proj2 (Nat.eqb_neq _ 0)) by lia.
    rewrite firstn_all, skipn_all. cbn [app]. by rewrite string_of_bytes, Hconn, Hopen.
Qed.

(** An ID of more than 255 bytes names another node: the server looks for the
    node whose ID is the first [length mod 256] bytes, and relays the rest of
    the ID to it as data; a multiple of 256 is refused. *)
Theorem relay_long_id_misdirected find p p1 from id payload e opens c
    (Hlen : (256 ≤ length (bytes_of id))%nat) :
  let k := (length (bytes_of id) mod 256)%nat in
  let other := string_of (take k (bytes_of id)) in
  GetConnection p (find other) = (Some c, p1) → opens c = true →
  other ≠ id ∧
  handleRelay find p from (mkReader (drop 1 (relay_header id) ++ payload) e) opens WOk =
  if (k =? 0)%nat then (p, RelayBadLength)
  else (p1, RelayBridge other c (relay_header from) (mkReader (drop k (bytes_of id) ++ payload) e)).
Proof.
  intros k other Hconn Hopen. split.
  - unfold other. intros Heq%(f_equal (fun s => length (bytes_of s))). rewrite bytes_of_string, length_take in Heq.
    assert (k < 256)%nat by (apply Nat.mod_upper_bound; lia). lia.
  - rewrite handleRelay_header. cbv zeta. fold k. destruct (k =? 0)%nat; [done|]. fold other. by rewrite Hconn, Hopen.
Qed.

(** The server never relays anything: with the code's lookup, which knows no
    address, no request of any kind reaches a target, as long as no connection
    is pooled under the empty address. *)
Theorem relay_never_bridges p from r opens w
    (Hempty : appConns p !! ""%string = None) :
  ∃ o, handleRelay findAddrForNode p from r opens w = (p, o) ∧
    match o with RelayBadLength | RelayBadID | RelayNoConnection _ => True | _ => False end.
Proof.
  unfold handleRelay. destruct (ReadFull r 1) as [[[|b [|]] r1]|]; try (by eexists).
  destruct (_ || _)%nat; [by eexists|]. destruct (ReadFull r1 _) as [[idBuf r2]|]; [|by eexists].
  unfold findAddrForNode, GetConnection. rewrite Hempty. by eexists.
Qed.

(** ** The bridge *)

(** Bytes are only moved along, and the reads of a direction are cancelled exactly
    when the copy in the other one has ended. *)
Record bridge_inv (b : bridge) : Prop := {
  bi_data : ∀ up, h_out (side up b) ++ h_buf (side up b) ++ h_in (side up b) = h_sent (side up b);
  bi_cancel : ∀ up, h_cancel (side up b) = negb (h_run (side (negb up) b));
}.

(** A change of one direction that keeps its data and its goroutine. *)
Lemma bridge_inv_put up h b :
  bridge_inv b → h_out h ++ h_buf h ++ h_in h = h_sent h → h_cancel h = h_cancel (side up b) →
  h_run h = h_run (side up b) → bridge_inv (put_side up h b).
Proof.
  intros [H1 H2] Hd Hc Hr. split.
  - intros up'. specialize (H1 up'). by destruct up, up'.
  - intros up'. specialize (H2 up'). destruct up, up'; cbn in *; congruence.
Qed.

Lemma bridge_inv_ends up b : bridge_inv b → bridge_inv (copy_ends up b).
Proof.
  intros [H1 H2]. split; intros up'; specialize (H1 up'); specialize (H2 up'); destruct up, up'; cbn in *; auto.
Qed.

Lemma half_write_data n h :
  h_out h ++ h_buf h ++ h_in h = h_sent h →
  h_out (half_write n h) ++ h_buf (half_write n h) ++ h_in (half_write n h) = h_sent (half_write n h).
Proof. intros Hd. cbn. by rewrite <- app_assoc, (app_assoc (take n _)), take_drop. Qed.

Lemma bridge_inv_step b b' : bridge_inv b → bridge_step b b' → bridge_inv b'.
Proof.
  intros Hinv Hstep. pose proof (bi_data _ Hinv) as Hd.
  destruct Hstep as [b up data _|b up|b up n _ Hb _ _ _|b up _ _|b up n _ _|b up _ _ _ _ _|b up _ _];
    try apply bridge_inv_ends; try done; (apply bridge_inv_put; [done| |done|done]); specialize (Hd up).
  - cbn. by rewrite <- Hd, !app_assoc.
  - done.
  - cbn. rewrite Hb in Hd. by rewrite take_drop.
  - by apply half_write_data.
  - by apply half_write_data.
Qed.

Lemma bridge_inv_run rest b : rtc bridge_step (new_bridge rest) b → bridge_inv b.
Proof.
  intros Hrun. eapply (rtc_ind_r bridge_inv); [| |exact Hrun].
  - split; by intros [].
  - intros b1 b2 _ Hstep Hinv. by eapply bridge_inv_step.
Qed.

(** Once one copy has ended the other goroutine can only write what it holds. *)
Definition cut (up : bool) (out held : bytes) (b : bridge) : Prop :=
  h_run (side up b) = false ∧ h_cancel (side (negb up) b) = true ∧
  ∃ w, h_out (side (negb up) b) = out ++ w ∧ w ++ h_buf (side (negb up) b) = held.

Lemma cut_write out held h n :
  (∃ w, h_out h = out ++ w ∧ w ++ h_buf h = held) →
  ∃ w, h_out (half_write n h) = out ++ w ∧ w ++ h_buf (half_write n h) = held.
Proof.
  intros (w & Ho & Hw). exists (w ++ take n (h_buf h)). cbn. by rewrite Ho, <- !app_assoc, take_drop.
Qed.

Lemma cut_step up out held b b' : cut up out held b → bridge_step b b' → cut up out held b'.
Proof.
  intros (Hr & Hc & Ho) Hstep.
  destruct Hstep as [b up' data _|b up'|b up' n Hr' _ Hc' _ _|b up' Hr' _|b up' n Hr' _|b up' Hr' _ _ _ _|b up' Hr' _];
    destruct up, up'; cbn [side negb put_side b_up b_down copy_ends] in *; try congruence; split_and!; try done;
    by apply cut_write.
Qed.

Lemma cut_run up out held b b' : cut up out held b → rtc bridge_step b b' → cut up out held b'.
Proof.
  intros Hcut Hrun. eapply (rtc_ind_r (cut up out held)); [exact Hcut| |exact Hrun].
  intros ? ? _ ? ?. by eapply cut_step.
Qed.

(** A goroutine that runs and is not cancelled can empty its direction, whatever
    the other one does. *)
Lemma drain_in up b k :
  length (h_in (side up b)) = k →
  h_run (side up b) = true → h_cancel (side up b) = false → h_buf (side up b) = [] →
  ∃ h, rtc bridge_step b (put_side up h b) ∧ h_buf h = [] ∧ h_in h = [] ∧ h_sent h = h_sent (side up b).
Proof.
  revert b. induction k as [|k IH]; intros b Hk Hr Hc Hb.
  - exists (side up b). replace (put_side up (side up b) b) with b by (by destruct b, up).
    split; [apply rtc_refl|]. by apply length_zero_iff_nil in Hk.
  - destruct (h_in (side up b)) as [|x l] eqn:Hin; [done|].
    set (b1 := put_side up (half_read 1 (side up b)) b).
    set (b2 := put_side up (half_write 1 (side up b1)) b1).
    assert (side up b1 = half_read 1 (side up b)) as E1 by (by destruct up).
    assert (side up b2 = half_write 1 (half_read 1 (side up b))) as E2 by (subst b2; rewrite E1; by destruct up).
    destruct (IH b2) as (h & Hrun & H1 & H2 & H3); [rewrite E2; cbn; rewrite ?Hin; naive_solver..|].
    exists h. split.
    + eapply rtc_l; [apply (bs_read b up 1); rewrite ?Hin; cbn; unfold copyBuffer; [done|done|done|lia|lia]|].
      eapply rtc_l; [apply (bs_write b1 up); rewrite E1; cbn; [done|by rewrite Hin]|].
      assert (length (h_buf (side up b1)) = 1%nat) as -> by (rewrite E1; cbn; by rewrite Hin).
      fold b2. replace (put_side up h b) with (put_side up h b2); [exact Hrun|]. subst b1 b2. by destruct up.
    + rewrite H1, H2, H3, E2. done.
Qed.

Lemma drain_half up b :
  bridge_inv b → h_run (side up b) = true → h_cancel (side up b) = false →
  ∃ h, rtc bridge_step b (put_side up h b) ∧ h_out h = h_sent h ∧ h_sent h = h_sent (side up b).
Proof.
  intros Hinv Hr Hc.
  assert (∃ b1 h1, b1 = put_side up h1 b ∧ rtc bridge_step b b1 ∧ h_run h1 = true ∧ h_cancel h1 = false ∧ h_buf h1 = [] ∧
    h_sent h1 = h_sent (side up b)) as (b1 & h1 & -> & Hrun1 & Hr1 & Hc1 & Hb1 & Hs1).
  { destruct (decide (h_buf (side up b) = [])) as [Hb|Hb].
    - exists b, (side up b). split; [by destruct b, up|]. by split; [apply rtc_refl|].
    - eexists _, (half_write (length (h_buf (side up b))) (side up b)). split; [reflexivity|].
      split; [apply rtc_once; by apply bs_write|]. cbn. by rewrite drop_all. }
  destruct (drain_in up (put_side up h1 b) _ eq_refl) as (h & Hrun & Hb & Hi & Hs); [by destruct up..|].
  exists h. replace (put_side up h (put_side up h1 b)) with (put_side up h b) in Hrun by (by destruct up).
  assert (rtc bridge_step b (put_side up h b)) as Hall by (by etransitivity).
  assert (bridge_inv (put_side up h b)) as Hinv'.
  { eapply (rtc_ind_r bridge_inv); [exact Hinv| |exact Hall]. intros ? ? _ ? ?. by eapply bridge_inv_step. }
  split; [done|]. split; [|rewrite Hs, <- Hs1; by destruct up].
  pose proof (bi_data _ Hinv' up) as Hd. destruct up; cbn in Hd; by rewrite Hb, Hi, !app_nil_r in Hd.
Qed.

(** C29: The bridge relays both ways until one copy ends, and then stops both.  In
    every state it can reach, with any interleaving of the goroutines, the
    endpoints and failures, what one side sent is what was written to the other,
    then what the goroutine holds, then what it has not read, in order.  While
    both goroutines run no read is cancelled, and whatever has been sent both ways
    can still be written in full.  Once the copy in one direction has ended, for
    whatever reason, the other goroutine reads nothing more: all that still comes
    out of it, in every later state, is a prefix of what it held, and nothing if
    it held nothing. *)
Theorem bridge_relays_until_closed rest b (Hrun : rtc bridge_step (new_bridge rest) b) :
  (∀ up, h_sent (side up b) = h_out (side up b) ++ h_buf (side up b) ++ h_in (side up b)) ∧
  ((∀ up, h_run (side up b) = true) →
   ∃ b', rtc bridge_step b b' ∧
     ∀ up, h_cancel (side up b) = false ∧ h_out (side up b') = h_sent (side up b)) ∧
  (∀ up, h_run (side up b) = false → ∀ b2, rtc bridge_step b b2 →
   ∃ w, h_out (side (negb up) b2) = h_out (side (negb up) b) ++ w ∧ w `prefix_of` h_buf (side (negb up) b)).
Proof.
  pose proof (bridge_inv_run rest b Hrun) as Hinv. split; [|split].
  - intros up. symmetry. apply (bi_data _ Hinv).
  - intros Hr. assert (∀ up, h_cancel (side up b) = false) as Hc by (intros up; by rewrite (bi_cancel _ Hinv), Hr).
    destruct (drain_half true b Hinv (Hr true) (Hc true)) as (h1 & Hrun1 & Ho1 & Hs1).
    destruct (drain_half false (put_side true h1 b)) as (h2 & Hrun2 & Ho2 & Hs2);
      [apply (bridge_inv_run rest); by etransitivity|apply (Hr false)|apply (Hc false)|].
    exists (put_side false h2 (put_side true h1 b)). split; [by etransitivity|].
    intros up. split; [apply Hc|]. destruct up; cbn in *; congruence.
  - intros up Hr b2 H2.
    destruct (cut_run up (h_out (side (negb up) b)) (h_buf (side (negb up) b)) b b2) as (_ & _ & w & Ho & Hw); [|done|].
    { split; [done|]. split; [by rewrite (bi_cancel _ Hinv), negb_involutive, Hr|]. exists []. by rewrite app_nil_r. }
    exists w. split; [done|]. rewrite <- Hw. by apply prefix_app_r.
Qed.

(** A half-closed stream loses the answer: as soon as one side has finished
    sending and all of it is copied, the copy can end, and then whatever the other
    side sends, and whatever it had sent that was not yet read, never arrives. *)
Theorem relay_half_close_cuts_reply rest b up
    (Hrun : rtc bridge_step (new_bridge rest) b)
    (Hcopy : h_run (side up b) = true ∧ h_cancel (side up b) = false ∧ h_buf (side (negb up) b) = [])
    (Hfin : h_fin (side up b) = true ∧ h_in (side up b) = [] ∧ h_buf (side up b) = []) :
  let b1 := copy_ends up b in
  bridge_step b b1 ∧ h_out (side up b1) = h_sent (side up b1) ∧
  ∀ b2, rtc bridge_step b1 b2 → h_out (side (negb up) b2) = h_out (side (negb up) b).
Proof.
  intros b1. destruct Hcopy as (Hr & Hc & Hn). destruct Hfin as (Hf & Hi & Hb). split; [by apply bs_eof|]. split.
  - pose proof (bi_data _ (bridge_inv_run rest b Hrun) up) as Hd. rewrite Hi, Hb, !app_nil_r in Hd. by destruct up.
  - intros b2 H2. destruct (cut_run up (h_out (side (negb up) b)) [] b1 b2) as (_ & _ & w & Ho & Hw); [|done|].
    + split; [by destruct up|]. split; [by destruct up|]. exists []. subst b1. destruct up; cbn in *; by rewrite Hn, app_nil_r.
    + apply app_nil in Hw as [-> _]. by rewrite app_nil_r in Ho.
Qed.

(** ** Witnesses *)

Definition relay_pool : Pool := AddConnection "10.0.0.2:7947" 3 newPool.

Lemma relay_request_roundtrip_witness :
  ∃ r, dispatchBidiStream (NewServer tt noHandlers)
         (mkReader (relay_header "node-b" ++ [x01; x02]) EOF) = BidiStream tt r ∧
    handleRelay (fun _ => "10.0.0.2:7947"%string) relay_pool "10.0.0.9:7947" r (fun _ => true) WOk =
    (relay_pool, RelayBridge "node-b" 3 (relay_header "10.0.0.9:7947") (mkReader [x01; x02] EOF)).
Proof.
  apply (relay_request_roundtrip noHandlers tt).
  - vm_compute. lia.
  - vm_compute. reflexivity.
  - reflexivity.
Defined.

Lemma relay_never_bridges_witness :
  ∃ o, handleRelay findAddrForNode relay_pool "10.0.0.9:7947"
         (mkReader (drop 1 (relay_header "node-b")) EOF) (fun _ => true) WOk = (relay_pool, o) ∧
    o = RelayNoConnection "node-b".
Proof.
  destruct (relay_never_bridges relay_pool "10.0.0.9:7947" (mkReader (drop 1 (relay_header "node-b")) EOF) (fun _ => true) WOk)
    as (o & H1 & _); [vm_compute; reflexivity|].
  exists o. split; [exact H1|]. vm_compute in H1. injection H1 as <-. reflexivity.
Defined.

(** 300 bytes of "x": the relay looks for the node with 44 of them. *)
Definition long_id : string := string_of (replicate 300 x78).

Lemma relay_long_id_misdirected_witness :
  handleRelay (fun _ => "10.0.0.2:7947"%string) relay_pool "10.0.0.9:7947"
    (mkReader (drop 1 (relay_header long_id) ++ []) EOF) (fun _ => true) WOk =
  (relay_pool, RelayBridge (string_of (replicate 44 x78)) 3 (relay_header "10.0.0.9:7947")
     (mkReader (replicate 256 x78) EOF)).
Proof.
  destruct (relay_long_id_misdirected (fun _ => "10.0.0.2:7947"%string) relay_pool relay_pool "10.0.0.9:7947" long_id [] EOF
    (fun _ => true) 3) as [_ H].
  - vm_compute. lia.
  - vm_compute. reflexivity.
  - reflexivity.
  - rewrite H. vm_compute. reflexivity.
Defined.

(** A request with an end: it is copied, while three bytes of a reply arrive and
    one of them is read. *)
Definition asked : bridge :=
  mkBridge (mkHalf [x41] [] true false [] [x41] true) (mkHalf [x01; x02; x03] [x02; x03] false false [x01] [] true).

Lemma asked_reachable : rtc bridge_step (new_bridge [x41]) asked.
Proof.
  eapply rtc_l; [apply (bs_fin _ true)|].
  eapply rtc_l; [apply (bs_read _ true 1); cbn; unfold copyBuffer; [done|done|done|lia|lia]|].
  eapply rtc_l; [apply (bs_write _ true); cbn; done|].
  eapply rtc_l; [apply (bs_send _ false [x01; x02; x03]); cbn; done|].
  eapply rtc_l; [apply (bs_read _ false 1); cbn; unfold copyBuffer; [done|done|done|lia|lia]|]. apply rtc_refl.
Qed.

(** The request's copy ends. *)
Lemma asked_ended_reachable : rtc bridge_step (new_bridge [x41]) (copy_ends true asked).
Proof. eapply rtc_r; [exact asked_reachable|]. by apply bs_eof. Qed.

(** Before the end the whole reply can still come; after it, only the byte in
    hand. *)
Lemma bridge_relays_until_closed_witness :
  (∃ b', rtc bridge_step asked b' ∧ h_out (b_down b') = [x01; x02; x03]) ∧
  (∀ b2, rtc bridge_step (copy_ends true asked) b2 → h_out (b_down b2) = [] ∨ h_out (b_down b2) = [x01]).
Proof.
  destruct (bridge_relays_until_closed [x41] asked asked_reachable) as (_ & H1 & _).
  destruct (bridge_relays_until_closed [x41] (copy_ends true asked) asked_ended_reachable) as (_ & _ & H2). split.
  - destruct H1 as (b' & Hrun & Hb'); [by intros []|]. exists b'. split; [exact Hrun|]. exact (proj2 (Hb' false)).
  - intros b2 Hrun. destruct (H2 true eq_refl b2 Hrun) as (w & Hw & Hp). cbn in Hw, Hp. rewrite Hw.
    destruct w as [|x w]; [by left|]. right. apply prefix_cons_inv_1 in Hp as Hx. apply prefix_cons_inv_2 in Hp.
    apply prefix_nil_inv in Hp. congruence.
Defined.

(** A request with an end, all copied, and no reply yet. *)
Definition asked_only : bridge :=
  mkBridge (mkHalf [x41] [] true false [] [x41] true) (new_half []).

Lemma asked_only_reachable : rtc bridge_step (new_bridge [x41]) asked_only.
Proof.
  eapply rtc_l; [apply (bs_fin _ true)|].
  eapply rtc_l; [apply (bs_read _ true 1); cbn; unfold copyBuffer; [done|done|done|lia|lia]|].
  eapply rtc_l; [apply (bs_write _ true); cbn; done|]. apply rtc_refl.
Qed.

Lemma relay_half_close_cuts_reply_witness :
  h_out (side true (copy_ends true asked_only)) = [x41] ∧
  ∀ b2, rtc bridge_step (copy_ends true asked_only) b2 → h_out (b_down b2) = [].
Proof.
  destruct (relay_half_close_cuts_reply [x41] asked_only true asked_only_reachable) as (_ & H1 & H2).
  - split_and!; reflexivity.
  - split_and!; reflexivity.
  - split; [exact H1|exact H2].
Defined.
