(* ===== verification/Membership.v ===== *)
(** * Cluster membership (src/membership)

    The peer table and its callbacks, the node metadata, and the start and stop
    of the layer.  memberlist calls the delegates; what it passes is an argument
    and what it returns the outcome of a call.  The Vivaldi library is the class
    [Vivaldi] of its operations; metadata is encoded through [Json].  Ranging
    over a map yields its entries in some order, the class [MapOrder].  A
    callback invocation is returned as data. *)

From S2P Require Import Prelude Netaddr Json.

(** ** Outside *)

(** github.com/wjordan/vivaldi: clients [V] and coordinates [C]. *)
Class Vivaldi (V C : Type) := {
  NewClient : option V;
  GetCoordinate : V → C;
  DistanceTo : V → C → Z;
  UpdateCoord : V → string → C → Z → option V;
  ForgetNode : V → string → V;
  IsValid : C → bool;
}.

(** The order in which a range statement yields the entries of a map. *)
Class MapOrder := range_order : ∀ {A}, list A → list A.

Class MapOrderSpec `{MapOrder} := range_order_perm : ∀ A (l : list A), range_order l ≡ₚ l.

(** What memberlist passes to the delegates. *)
Record Node := mkNode { n_Name : string; n_Addr : string; n_Meta : bytes }.

(** ** Data *)

Record NodeMeta (C : Type) := mkMeta {
  MetaNodeID : string;
  VivaldiCoord : option C;
  QUICAddr : string;
  QUICPort : Z;
  AppData : option bytes;
}.
Arguments mkMeta {C}.
Arguments MetaNodeID {C}.
Arguments VivaldiCoord {C}.
Arguments QUICAddr {C}.
Arguments QUICPort {C}.
Arguments AppData {C}.

Record PeerInfo (C : Type) := mkPeerInfo {
  PeerID : string;
  PeerAddr : string;
  Meta : NodeMeta C;
  RTT : Z;
  Alive : bool;
}.
Arguments mkPeerInfo {C}.
Arguments PeerID {C}.
Arguments PeerAddr {C}.
Arguments Meta {C}.
Arguments RTT {C}.
Arguments Alive {C}.

Record Membership (V C : Type) := mkMembership {
  m_meta : NodeMeta C;
  m_vivaldi : V;
  m_peers : gmap string (PeerInfo C);
  m_onChange : bool;   (** whether a callback is set *)
  m_onLeave : bool;
}.
Arguments mkMembership {V C}.
Arguments m_meta {V C}.
Arguments m_vivaldi {V C}.
Arguments m_peers {V C}.
Arguments m_onChange {V C}.
Arguments m_onLeave {V C}.

(** A callback that is called. *)
Inductive callback (C : Type) :=
| CbChange (peers : list (PeerInfo C))
| CbLeave (nodeID : string).
Arguments CbChange {C}.
Arguments CbLeave {C}.

Section Operations.
Context {V C : Type} `{HV : Vivaldi V C} `{HM : JSON (NodeMeta C)} `{HC : JSON C} `{HO : MapOrder}.

Definition Encode (m : NodeMeta C) : option bytes := Marshal m.

Definition DecodeMeta (data : bytes) : option (NodeMeta C) := Unmarshal data.

(** [delegate.NodeMeta]; the empty list is nil. *)
Definition delegate_NodeMeta (m : Membership V C) (limit : Z) : bytes :=
  match Encode (m_meta m) with
  | None => []
  | Some data => if limit <? Z.of_nat (length data) then [] else data
  end.

(** ** The peer table *)

Definition LivePeers (m : Membership V C) : list (PeerInfo C) :=
  filter (fun p => Alive p = true) (range_order (map_to_list (m_peers m)).*2).

Definition notifyChange (m : Membership V C) : list (callback C) :=
  if m_onChange m then [CbChange (LivePeers m)] else [].

Definition set_peers (m : Membership V C) (peers : gmap string (PeerInfo C)) : Membership V C :=
  mkMembership (m_meta m) (m_vivaldi m) peers (m_onChange m) (m_onLeave m).

(** The round-trip time a coordinate gives, 0 without a valid one. *)
Definition rtt_of (v : V) (meta : NodeMeta C) : Z :=
  match VivaldiCoord meta with
  | Some coord => if IsValid coord then DistanceTo v coord else 0
  | None => 0
  end.

Definition NotifyJoin (m : Membership V C) (node : Node) : Membership V C * list (callback C) :=
  match DecodeMeta (n_Meta node) with
  | None => (m, [])
  | Some meta =>
      let info := mkPeerInfo (n_Name node) (n_Addr node) meta (rtt_of (m_vivaldi m) meta) true in
      let m1 := set_peers m (<[n_Name node := info]> (m_peers m)) in
      (m1, notifyChange m1)
  end.

Definition NotifyUpdate (m : Membership V C) (node : Node) : Membership V C * list (callback C) :=
  match DecodeMeta (n_Meta node) with
  | None => (m, [])
  | Some meta =>
      let info := mkPeerInfo (n_Name node) (n_Addr node) meta (rtt_of (m_vivaldi m) meta) true in
      let m1 := set_peers m (<[n_Name node := info]> (m_peers m)) in
      (m1, notifyChange m1)
  end.

Definition NotifyLeave (m : Membership V C) (node : Node) : Membership V C * list (callback C) :=
  let m1 := mkMembership (m_meta m) (ForgetNode (m_vivaldi m) (n_Name node)) (delete (n_Name node) (m_peers m))
              (m_onChange m) (m_onLeave m) in
  (m1, (if m_onLeave m then [CbLeave (n_Name node)] else []) ++ notifyChange m1).

Definition SetOnChange (m : Membership V C) : Membership V C :=
  mkMembership (m_meta m) (m_vivaldi m) (m_peers m) true (m_onLeave m).

Definition SetOnLeave (m : Membership V C) : Membership V C :=
  mkMembership (m_meta m) (m_vivaldi m) (m_peers m) (m_onChange m) true.

Definition IsAlive (m : Membership V C) (nodeID : string) : bool :=
  match m_peers m !! nodeID with Some p => Alive p | None => false end.

Definition AddrForNode (m : Membership V C) (nodeID : string) : string :=
  match m_peers m !! nodeID with
  | Some p => if Alive p then JoinHostPort (QUICAddr (Meta p)) (Itoa (QUICPort (Meta p))) else ""
  | None => ""
  end.

(** ** Metadata and pings *)

(** [UpdateMeta], undisturbed; the broadcast that follows is memberlist's. *)
Definition UpdateMeta (m : Membership V C) (fn : NodeMeta C → NodeMeta C) : Membership V C :=
  mkMembership (fn (m_meta m)) (m_vivaldi m) (m_peers m) (m_onChange m) (m_onLeave m).

Definition set_coord (coord : C) (meta : NodeMeta C) : NodeMeta C :=
  mkMeta (MetaNodeID meta) (Some coord) (QUICAddr meta) (QUICPort meta) (AppData meta).

Definition AckPayload (m : Membership V C) : bytes := default [] (Marshal (GetCoordinate (m_vivaldi m))).

Definition NotifyPingComplete (m : Membership V C) (other : string) (rtt : Z) (payload : bytes) : Membership V C :=
  match Unmarshal payload with
  | None => m
  | Some coord =>
      if IsValid coord then
        match UpdateCoord (m_vivaldi m) other coord rtt with
        | None => m
        | Some v =>
            UpdateMeta (mkMembership (m_meta m) v (m_peers m) (m_onChange m) (m_onLeave m)) (set_coord (GetCoordinate v))
        end
      else m
  end.
End Operations.

(** ** Start and stop *)

Record MembershipConfig (C : Type) := mkMemCfg {
  mc_NodeID : string;
  mc_BindAddr : string;
  mc_BindPort : Z;
  mc_AdvertiseAddr : string;
  mc_AdvertisePort : Z;
  mc_SeedAddrs : list string;
  ProbeInterval : Z;
  ProbeTimeout : Z;
  SuspicionMult : Z;
  mc_Meta : NodeMeta C;
  mc_TLS : bool;   (** whether one is given *)
}.
Arguments mkMemCfg {C}.
Arguments mc_NodeID {C}.
Arguments mc_BindAddr {C}.
Arguments mc_BindPort {C}.
Arguments mc_AdvertiseAddr {C}.
Arguments mc_AdvertisePort {C}.
Arguments mc_SeedAddrs {C}.
Arguments ProbeInterval {C}.
Arguments ProbeTimeout {C}.
Arguments SuspicionMult {C}.
Arguments mc_Meta {C}.
Arguments mc_TLS {C}.

(** The fields of memberlist's configuration that [Start] sets. *)
Record ListConfig := mkListCfg {
  ml_Name : string;
  ml_AdvertiseAddr : string;
  ml_AdvertisePort : Z;
  ml_ProbeInterval : Z;
  ml_ProbeTimeout : Z;
  ml_SuspicionMult : Z;
  ml_DisableTcpPings : bool;
}.

Inductive start_error := ErrVivaldi | ErrNoTLS | ErrQUIC | ErrCreate.

(** The handles: [None] is nil, [Some true] in use, [Some false] after its
    [Shutdown] was called. *)
Record handles := mkHandles { h_list : option bool; h_quic : option bool }.

Definition any_open (h : handles) : bool := default false (h_list h) || default false (h_quic h).

(** How memberlist behaves to [Start]: whether the transport and the list come up. *)
Record start_env := mkStartEnv { se_quic : bool; se_create : bool }.

Section StartStop.
Context {V C : Type} `{HV : Vivaldi V C}.

Definition probe_defaults (cfg : MembershipConfig C) : MembershipConfig C :=
  mkMemCfg (mc_NodeID cfg) (mc_BindAddr cfg) (mc_BindPort cfg) (mc_AdvertiseAddr cfg) (mc_AdvertisePort cfg)
    (mc_SeedAddrs cfg)
    (if ProbeInterval cfg =? 0 then 1000 * 10 ^ 6 else ProbeInterval cfg)
    (if ProbeTimeout cfg =? 0 then 500 * 10 ^ 6 else ProbeTimeout cfg)
    (if SuspicionMult cfg =? 0 then 3 else SuspicionMult cfg)
    (mc_Meta cfg) (mc_TLS cfg).

(** The metadata the node starts with. *)
Definition seed_meta (cfg : MembershipConfig C) (v : V) : NodeMeta C :=
  mkMeta (mc_NodeID cfg) (Some (GetCoordinate v)) (QUICAddr (mc_Meta cfg)) (QUICPort (mc_Meta cfg)) (AppData (mc_Meta cfg)).

Definition list_config (cfg : MembershipConfig C) : ListConfig :=
  mkListCfg (mc_NodeID cfg) (mc_AdvertiseAddr cfg) (mc_AdvertisePort cfg)
    (ProbeInterval cfg) (ProbeTimeout cfg) (SuspicionMult cfg) true.

(** What [Start] returns: the membership, memberlist's configuration, and the
    seeds joined in the background. *)
Definition Start (cfg0 : MembershipConfig C) (env : start_env) :
    handles * result start_error (Membership V C * ListConfig * list string) :=
  let cfg := probe_defaults cfg0 in
  match NewClient with
  | None => (mkHandles None None, Err ErrVivaldi)
  | Some v =>
      let m := mkMembership (seed_meta cfg v) v ∅ false false in
      if mc_TLS cfg then
        if se_quic env then
          if se_create env then (mkHandles (Some true) (Some true), Ok (m, list_config cfg, mc_SeedAddrs cfg))
          else (mkHandles None (Some false), Err ErrCreate)
        else (mkHandles None None, Err ErrQUIC)
      else (mkHandles None None, Err ErrNoTLS)
  end.
End StartStop.

Inductive stop_error := ErrLeave | ErrShutdown | ErrTransport.

(** How memberlist answers [Leave] and [Shutdown] and the transport its
    [Shutdown]. *)
Record stop_env := mkStopEnv { st_leave : bool; st_shutdown : bool; st_quic : bool }.

Definition leave_timeout (leaveTimeout : Z) : Z := if leaveTimeout <=? 0 then 1 * 10 ^ 9 else leaveTimeout.

Definition shut_quic (h : handles) (env : stop_env) : handles * result stop_error unit :=
  match h_quic h with
  | None => (h, Ok ())
  | Some _ => (mkHandles (h_list h) (Some false), if st_quic env then Ok () else Err ErrTransport)
  end.

Definition StopWithTimeout (h : handles) (env : stop_env) : handles * result stop_error unit :=
  match h_list h with
  | Some _ =>
      if st_leave env then
        let h1 := mkHandles (Some false) (h_quic h) in
        if st_shutdown env then shut_quic h1 env else (h1, Err ErrShutdown)
      else (h, Err ErrLeave)
  | None => shut_quic h env
  end.

Definition Stop (h : handles) (env : stop_env) : handles * result stop_error unit := StopWithTimeout h env.

(** [Join] and [InjectConnection]: [joined] is what memberlist's Join returns. *)
Definition Join (h : handles) (joined : option Z) : option Z := match h_list h with None => None | Some _ => joined end.

(** [ConnPool]: nil before the transport is up. *)
Definition ConnPool {P} (h : handles) (pool : P) : option P := match h_quic h with None => None | Some _ => Some pool end.

Definition InjectConnection (h : handles) (joined : option Z) : bool :=
  match ConnPool h () with None => false | Some _ => bool_decide (is_Some joined) end.

(** [LocalAddr]: [node] is the address and port of memberlist's LocalNode. *)
Definition LocalAddr (h : handles) (node : string * Z) : string :=
  match h_list h with None => ""%string | Some _ => JoinHostPort node.1 (Itoa node.2) end.

(** ** Events one after the other *)

(** memberlist calls the delegates one at a time. *)
Inductive mem_event :=
| EvJoin (node : Node)
| EvUpdate (node : Node)
| EvLeave (node : Node)
| EvPing (other : string) (rtt : Z) (payload : bytes).

Section Events.
Context {V C : Type} `{HV : Vivaldi V C} `{HM : JSON (NodeMeta C)} `{HC : JSON C} `{HO : MapOrder}.

Definition do_event (m : Membership V C) (e : mem_event) : Membership V C * list (callback C) :=
  match e with
  | EvJoin node => NotifyJoin m node
  | EvUpdate node => NotifyUpdate m node
  | EvLeave node => NotifyLeave m node
  | EvPing other rtt payload => (NotifyPingComplete m other rtt payload, [])
  end.

Fixpoint do_events (m : Membership V C) (es : list mem_event) : Membership V C * list (callback C) :=
  match es with
  | [] => (m, [])
  | e :: es' =>
      let '(m1, c1) := do_event m e in
      let '(m2, c2) := do_events m1 es' in
      (m2, c1 ++ c2)
  end.

(** ** The table's invariant *)

Definition table_ok (m : Membership V C) : Prop :=
  ∀ id p, m_peers m !! id = Some p → PeerID p = id ∧ Alive p = true.

Lemma table_ok_insert m id p :
  table_ok m → PeerID p = id → Alive p = true → table_ok (set_peers m (<[id := p]> (m_peers m))).
Proof. intros Hok Hid Ha id' p'. cbn. intros [[<- <-]|[_ ?]]%lookup_insert_Some; [done|by apply Hok]. Qed.

Lemma do_event_ok m e : table_ok m → table_ok (do_event m e).1.
Proof.
  intros Hok. destruct e as [node|node|node|other rtt payload]; cbn [do_event].
  - unfold NotifyJoin. destruct (DecodeMeta (n_Meta node)); [|done]. by apply table_ok_insert.
  - unfold NotifyUpdate. destruct (DecodeMeta (n_Meta node)); [|done]. by apply table_ok_insert.
  - intros id p. cbn. intros [_ Hp]%lookup_delete_Some. by apply Hok.
  - unfold NotifyPingComplete. cbn [fst]. destruct (Unmarshal payload) as [coord|]; [|done].
    destruct (IsValid coord); [|done]. by destruct (UpdateCoord _ _ _ _).
Qed.

Lemma do_events_ok m es : table_ok m → table_ok (do_events m es).1.
Proof.
  revert m. induction es as [|e es IH]; intros m Hok; [done|]. cbn [do_events].
  pose proof (do_event_ok m e Hok) as H1. destruct (do_event m e) as [m1 c1].
  specialize (IH m1 H1). by destruct (do_events m1 es).
Qed.

Context `{HOp : !MapOrderSpec}.

Lemma elem_of_LivePeers m p : table_ok m → p ∈ LivePeers m ↔ m_peers m !! PeerID p = Some p.
Proof.
  intros Hok. unfold LivePeers. rewrite list_elem_of_filter, range_order_perm, list_elem_of_fmap. split.
  - intros (_ & [id p'] & -> & Hin%elem_of_map_to_list). cbn. by destruct (Hok _ _ Hin) as [-> _].
  - intros Hp. destruct (Hok _ _ Hp) as [_ Ha]. split; [done|]. exists (PeerID p, p). split; [done|].
    by apply elem_of_map_to_list.
Qed.

Lemma LivePeers_NoDup m : table_ok m → NoDup (PeerID <$> LivePeers m).
Proof.
  intros Hok. unfold LivePeers.
  assert (NoDup (PeerID <$> (map_to_list (m_peers m)).*2)) as Hnd.
  { replace (PeerID <$> (map_to_list (m_peers m)).*2) with (map_to_list (m_peers m)).*1; [apply NoDup_fst_map_to_list|].
    rewrite <- list_fmap_compose. apply list_fmap_ext. intros i [id p] Hi. cbn. symmetry. apply (Hok id p).
    apply elem_of_map_to_list. by eapply list_elem_of_lookup_2. }
  rewrite <- (range_order_perm _ (map_to_list (m_peers m)).*2) in Hnd. revert Hnd.
  generalize (range_order (map_to_list (m_peers m)).*2) as l. clear. induction l as [|p l IH]; intros Hnd; [constructor|].
  cbn in Hnd. apply NoDup_cons in Hnd as [Hp Hnd]. rewrite filter_cons. case_decide; [|by apply IH]. cbn.
  apply NoDup_cons. split; [|by apply IH]. intros (q & Heq & [_ Hq]%list_elem_of_filter)%list_elem_of_fmap.
  apply Hp. rewrite Heq. by apply list_elem_of_fmap_2.
Qed.

(** The views of the peer table agree.  After any events LivePeers lists every
    known peer once; IsAlive holds for exactly the listed IDs, and for exactly
    those AddrForNode is not empty and is the advertised application address. *)
Theorem membership_views_agree (m0 : Membership V C) (es : list mem_event) (H0 : m_peers m0 = ∅) :
  let m := (do_events m0 es).1 in
  NoDup (PeerID <$> LivePeers m) ∧
  ∀ id, (IsAlive m id = true ↔ id ∈ PeerID <$> LivePeers m) ∧
    (IsAlive m id = true ↔ AddrForNode m id ≠ ""%string) ∧
    ∀ p, p ∈ LivePeers m → PeerID p = id →
      AddrForNode m id = JoinHostPort (QUICAddr (Meta p)) (Itoa (QUICPort (Meta p))).
Proof.
  intros m. assert (table_ok m) as Hok by (apply do_events_ok; intros id p; by rewrite H0, lookup_empty).
  split; [by apply LivePeers_NoDup|]. intros id. unfold IsAlive, AddrForNode.
  assert (∀ h p, JoinHostPort h p ≠ ""%string) as Hne.
  { intros h p. unfold JoinHostPort. destruct (index_byte _ _); [done|]. by destruct h. }
  split_and!.
  - rewrite list_elem_of_fmap. split.
    + destruct (m_peers m !! id) as [p|] eqn:E; [|done]. intros _. destruct (Hok _ _ E) as [<- _].
      exists p. split; [done|]. by apply elem_of_LivePeers.
    + intros (p & -> & Hp%elem_of_LivePeers); [|done]. rewrite Hp. by destruct (Hok _ _ Hp).
  - destruct (m_peers m !! id) as [p|] eqn:E; [|done]. destruct (Hok _ _ E) as [_ ->]. split; [intros _; apply Hne|done].
  - intros p Hp%elem_of_LivePeers <-; [|done]. rewrite Hp. by destruct (Hok _ _ Hp) as [_ ->].
Qed.

(** ** Callbacks *)

Fixpoint last_change (cs : list (callback C)) (d : option (list (PeerInfo C))) : option (list (PeerInfo C)) :=
  match cs with
  | [] => d
  | CbChange ps :: cs' => last_change cs' (Some ps)
  | CbLeave _ :: cs' => last_change cs' d
  end.

Lemma last_change_app cs1 cs2 d : last_change (cs1 ++ cs2) d = last_change cs2 (last_change cs1 d).
Proof. revert d. induction cs1 as [|[ps|id] cs1 IH]; intros d; [done|apply IH..]. Qed.

(** An event reports the table it leaves, or leaves it as it was. *)
Lemma do_event_reports m e :
  m_onChange m = true →
  let '(m1, cs) := do_event m e in
  m_onChange m1 = true ∧
  ((∀ d, last_change cs d = Some (LivePeers m1)) ∨ (m_peers m1 = m_peers m ∧ cs = [])).
Proof.
  intros Hc. destruct e as [node|node|node|other rtt payload]; cbn [do_event].
  - unfold NotifyJoin. destruct (DecodeMeta (n_Meta node)); [|auto]. split; [done|]. left. intros d.
    unfold notifyChange. cbn [m_onChange set_peers]. by rewrite Hc.
  - unfold NotifyUpdate. destruct (DecodeMeta (n_Meta node)); [|auto]. split; [done|]. left. intros d.
    unfold notifyChange. cbn [m_onChange set_peers]. by rewrite Hc.
  - split; [done|]. left. intros d. rewrite last_change_app. unfold notifyChange. cbn [m_onChange]. by rewrite Hc.
  - unfold NotifyPingComplete. destruct (Unmarshal payload) as [coord|]; [|auto]. destruct (IsValid coord); [|auto].
    destruct (UpdateCoord _ _ _ _); auto.
Qed.

(** Whoever watches the callback is never behind: after any events the last
    reported snapshot is the current list of live peers; if nothing was reported
    the table has not changed. *)
Theorem change_callback_current (m : Membership V C) (es : list mem_event) (Hc : m_onChange m = true) :
  let '(m1, cs) := do_events m es in
  match last_change cs None with
  | Some ps => ps = LivePeers m1
  | None => m_peers m1 = m_peers m
  end.
Proof.
  enough (∀ d, let '(m1, cs) := do_events m es in
    last_change cs d = Some (LivePeers m1) ∨ (last_change cs d = d ∧ m_peers m1 = m_peers m)) as Hgen.
  { specialize (Hgen None). destruct (do_events m es) as [m1 cs]. destruct Hgen as [->|[-> ->]]; done. }
  revert m Hc. induction es as [|e es IH]; intros m Hc d; cbn [do_events]; [by right|].
  pose proof (do_event_reports m e Hc) as He. destruct (do_event m e) as [m1 c1]. destruct He as [Hc1 He].
  specialize (IH m1 Hc1 (last_change c1 d)). destruct (do_events m1 es) as [m2 c2]. rewrite last_change_app.
  destruct IH as [IH|[IH Hp]]; [by left|]. rewrite IH. destruct He as [He|[He ->]].
  - left. rewrite He. unfold LivePeers. by rewrite Hp.
  - right. split; [done|congruence].
Qed.
End Events.

(** ** Metadata from node to node *)

Section Metadata.
Context {V C : Type} `{HV : Vivaldi V C} `{HM : JSON (NodeMeta C)} `{HMp : !JSONSpec (NodeMeta C)}.
Context `{HC : JSON C} `{HCp : !JSONSpec C} `{HO : MapOrder}.

(** C28: What a node advertises reaches its peers: when its metadata fits the limit,
    a peer that memberlist tells of it has it in its table with that metadata,
    is told to answer with its application address, and times it by its
    coordinate. *)
Theorem metadata_roundtrip (sender m : Membership V C) (name addr : string) (limit : Z) (data : bytes)
    (Hj : json_ok (m_meta sender)) (Henc : Encode (m_meta sender) = Some data)
    (Hfit : Z.of_nat (length data) ≤ limit) :
  let m1 := (NotifyJoin m (mkNode name addr (delegate_NodeMeta sender limit))).1 in
  m_peers m1 !! name = Some (mkPeerInfo name addr (m_meta sender) (rtt_of (m_vivaldi m) (m_meta sender)) true) ∧
  IsAlive m1 name = true ∧
  AddrForNode m1 name = JoinHostPort (QUICAddr (m_meta sender)) (Itoa (QUICPort (m_meta sender))) ∧
  ∀ other, other ≠ name → m_peers m1 !! other = m_peers m !! other.
Proof.
  intros m1. unfold m1, NotifyJoin, delegate_NodeMeta. cbn [n_Meta n_Name n_Addr].
  destruct (Unmarshal_Marshal _ Hj) as (b & Hb & Hu). unfold Encode in *. rewrite Hb in *. injection Henc as ->.
  rewrite (proj2 (Z.ltb_ge _ _)) by lia. unfold DecodeMeta. rewrite Hu. cbn [fst].
  unfold IsAlive, AddrForNode. cbn [m_peers set_peers]. rewrite !lookup_insert_eq. split_and!; [done..|].
  intros other Hne. by rewrite lookup_insert_ne.
Qed.

(** Metadata that does not fit hides the node: it advertises nothing, and a peer
    that memberlist tells of it refuses it, so the node stays unknown, gets no
    messages and no callback is called. *)
Theorem oversized_metadata_hides_node (sender m : Membership V C) (name addr : string) (limit : Z) (data : bytes)
    (Henc : Encode (m_meta sender) = Some data) (Hbig : limit < Z.of_nat (length data)) :
  delegate_NodeMeta sender limit = [] ∧
  NotifyJoin m (mkNode name addr (delegate_NodeMeta sender limit)) = (m, []) ∧
  NotifyUpdate m (mkNode name addr (delegate_NodeMeta sender limit)) = (m, []).
Proof.
  assert (delegate_NodeMeta sender limit = []) as ->.
  { unfold delegate_NodeMeta. rewrite Henc. by rewrite (proj2 (Z.ltb_lt _ _)). }
  unfold NotifyJoin, NotifyUpdate, DecodeMeta. cbn [n_Meta]. by rewrite Unmarshal_nil.
Qed.

(** A ping moves the own coordinate: when a peer answers with its coordinate, the
    client is updated with it, and the advertised metadata carries the client's
    new coordinate and is otherwise the same; an answer that cannot be used
    changes nothing. *)
Theorem ping_refreshes_coordinate (m other : Membership V C) (name : string) (rtt : Z)
    (Hj : json_ok (GetCoordinate (m_vivaldi other))) :
  let coord := GetCoordinate (m_vivaldi other) in
  let m1 := NotifyPingComplete m name rtt (AckPayload other) in
  match (if IsValid coord then UpdateCoord (m_vivaldi m) name coord rtt else None) with
  | Some v => m_vivaldi m1 = v ∧ m_meta m1 = set_coord (GetCoordinate v) (m_meta m) ∧ m_peers m1 = m_peers m
  | None => m1 = m
  end.
Proof.
  intros coord m1. unfold m1, NotifyPingComplete, AckPayload. destruct (Unmarshal_Marshal _ Hj) as (b & -> & Hu).
  cbn [default]. cbn. rewrite Hu. fold coord. destruct (IsValid coord); [|done]. by destruct (UpdateCoord _ _ _ _).
Qed.
End Metadata.

(** ** Start and stop *)

Lemma start_fields {V C} `{HV : Vivaldi V C} (cfg : MembershipConfig C) (env : start_env) :
  match (Start (V := V) cfg env).2 with Ok (m, _, _) => m_peers m = ∅ | Err _ => True end.
Proof.
  unfold Start. destruct NewClient as [v|]; [|done]. destruct (mc_TLS _), (se_quic env), (se_create env); done.
Qed.

Lemma start_handles {V C} `{HV : Vivaldi V C} (cfg : MembershipConfig C) (env : start_env) :
  match Start (V := V) cfg env with
  | (h, Ok _) => h = mkHandles (Some true) (Some true)
  | (h, Err _) => any_open h = false
  end.
Proof.
  unfold Start. destruct NewClient as [v|]; [|done]. destruct (mc_TLS _), (se_quic env), (se_create env); done.
Qed.

(** Start leaves nothing running when it fails; when it succeeds the node
    advertises its own ID and the client's coordinate, whatever the
    configuration says, and the table is empty with no callback set. *)
Theorem start_all_or_nothing {V C} `{HV : Vivaldi V C} (cfg : MembershipConfig C) (env : start_env) :
  match Start (V := V) cfg env with
  | (h, Err _) => any_open h = false
  | (h, Ok (m, ml, seeds)) =>
      h = mkHandles (Some true) (Some true) ∧ mc_TLS cfg = true ∧
      MetaNodeID (m_meta m) = mc_NodeID cfg ∧ VivaldiCoord (m_meta m) = Some (GetCoordinate (m_vivaldi m)) ∧
      QUICAddr (m_meta m) = QUICAddr (mc_Meta cfg) ∧ m_peers m = ∅ ∧ m_onChange m = false ∧
      seeds = mc_SeedAddrs cfg ∧ ml_Name ml = mc_NodeID cfg
  end.
Proof.
  unfold Start. destruct NewClient as [v|]; [|done]. cbn [mc_TLS probe_defaults].
  destruct (mc_TLS cfg) eqn:Et; [|done]. destruct (se_quic env); [|done]. destruct (se_create env); [|done]. by split_and!.
Qed.

(** A failed leave leaks: if memberlist's Leave fails, as on a timeout, Stop
    returns with the list and the transport still running; otherwise both are
    shut down unless memberlist's Shutdown fails. *)
Theorem stop_leave_failure_leaks (env : stop_env) :
  let h := mkHandles (Some true) (Some true) in
  Stop h env = if st_leave env
    then if st_shutdown env then (mkHandles (Some false) (Some false), if st_quic env then Ok () else Err ErrTransport)
         else (mkHandles (Some false) (Some true), Err ErrShutdown)
    else (h, Err ErrLeave).
Proof. unfold Stop, StopWithTimeout. cbn. by destruct (st_leave env), (st_shutdown env). Qed.

(** ** UpdateMeta under concurrency *)

(** The compare-and-swap loop of several calls.  A pointer is the number of the
    value allocated; [up_metas] are the values, [up_cur] the pointer stored. *)
Section Cas.
Context {C : Type}.

Inductive up_pc :=
| ULoad
| UCas (old : nat) (updated : NodeMeta C)
| UDone.

Record up_state := mkUp {
  up_metas : list (NodeMeta C);
  up_cur : nat;
  up_calls : list ((NodeMeta C → NodeMeta C) * up_pc);
  up_order : list nat;   (** ghost: the calls that have swapped, in order *)
}.

Definition current (st : up_state) : option (NodeMeta C) := up_metas st !! up_cur st.

(** The next access of call [i]: load and apply, or swap, which allocates. *)
Definition up_step (st : up_state) (i : nat) : option up_state :=
  match up_calls st !! i with
  | None => None
  | Some (fn, ULoad) =>
      match current st with
      | None => None
      | Some old => Some (mkUp (up_metas st) (up_cur st) (<[i := (fn, UCas (up_cur st) (fn old))]> (up_calls st)) (up_order st))
      end
  | Some (fn, UCas old updated) =>
      if decide (up_cur st = old)
      then Some (mkUp (up_metas st ++ [updated]) (length (up_metas st)) (<[i := (fn, UDone)]> (up_calls st)) (up_order st ++ [i]))
      else Some (mkUp (up_metas st) (up_cur st) (<[i := (fn, ULoad)]> (up_calls st)) (up_order st))
  | Some (fn, UDone) => None
  end.

Inductive up_move : up_state → up_state → Prop :=
| um_call st fn : up_move st (mkUp (up_metas st) (up_cur st) (up_calls st ++ [(fn, ULoad)]) (up_order st))
| um_step st i st' : up_step st i = Some st' → up_move st st'.

Definition up_start (m0 : NodeMeta C) : up_state := mkUp [m0] 0 [] [].

(** The updates of the calls in [order], one after the other. *)
Definition apply_calls (calls : list ((NodeMeta C → NodeMeta C) * up_pc)) (order : list nat) (m : NodeMeta C) : NodeMeta C :=
  foldl (fun m i => match calls !! i with Some (fn, _) => fn m | None => m end) m order.

#[local] Arguments apply_calls : simpl never.

Record up_inv (m0 : NodeMeta C) (st : up_state) : Prop := {
  ui_cur : current st = Some (apply_calls (up_calls st) (up_order st) m0);
  ui_old : ∀ i fn old upd, up_calls st !! i = Some (fn, UCas old upd) →
    ∃ m, up_metas st !! old = Some m ∧ upd = fn m;
  ui_nodup : NoDup (up_order st);
  ui_done : ∀ i, i ∈ up_order st ↔ ∃ fn, up_calls st !! i = Some (fn, UDone);
}.

Lemma apply_calls_ext calls calls' order m :
  (∀ i, i ∈ order → fst <$> calls' !! i = fst <$> calls !! i) → apply_calls calls' order m = apply_calls calls order m.
Proof.
  unfold apply_calls. revert m. induction order as [|i order IH]; intros m Heq; [done|]. cbn [foldl].
  rewrite IH by (intros j Hj; apply Heq, elem_of_cons; by right). f_equal.
  specialize (Heq i ltac:(apply elem_of_cons; by left)).
  destruct (calls' !! i) as [[fn' q']|], (calls !! i) as [[fn q]|]; cbn in Heq; congruence.
Qed.

(** A call that keeps its function. *)
Lemma fst_insert_call (calls : list ((NodeMeta C → NodeMeta C) * up_pc)) i fn q q' j :
  calls !! i = Some (fn, q) → fst <$> <[i := (fn, q')]> calls !! j = fst <$> calls !! j.
Proof.
  intros Hi. destruct (decide (i = j)) as [->|Hne]; [|by rewrite list_lookup_insert_ne].
  rewrite Hi, list_lookup_insert_eq by (by eapply lookup_lt_Some). done.
Qed.

Lemma up_inv_call m0 st fn :
  up_inv m0 st → up_inv m0 (mkUp (up_metas st) (up_cur st) (up_calls st ++ [(fn, ULoad)]) (up_order st)).
Proof.
  intros [H1 H2 H3 H4]. assert (∀ i fn' q, up_calls st !! i = Some (fn', q) → (up_calls st ++ [(fn, ULoad)]) !! i = Some (fn', q)) as Hl.
  { intros i fn' q. apply lookup_app_l_Some. }
  assert (∀ i fn' q, q ≠ ULoad → (up_calls st ++ [(fn, ULoad)]) !! i = Some (fn', q) → up_calls st !! i = Some (fn', q)) as Hb.
  { intros i fn' q Hq [?|[_ Hx]]%lookup_app_Some; [done|]. by apply list_lookup_singleton_Some in Hx as [_ [= _ <-]]. }
  split; cbn; [| |done|].
  - rewrite (apply_calls_ext (up_calls st)); [exact H1|]. intros i [fn' Hi]%H4. by rewrite (Hl _ _ _ Hi), Hi.
  - intros i fn' old upd Hi%Hb; [|done]. by eapply H2.
  - intros i. rewrite H4. split; intros [fn' Hi]; exists fn'; [by apply Hl|by apply Hb].
Qed.

(** A call moves on without swapping. *)
Lemma up_inv_local m0 st i fn q q' :
  up_inv m0 st → up_calls st !! i = Some (fn, q) → q ≠ UDone → q' ≠ UDone →
  (∀ old upd, q' = UCas old upd → ∃ m, up_metas st !! old = Some m ∧ upd = fn m) →
  up_inv m0 (mkUp (up_metas st) (up_cur st) (<[i := (fn, q')]> (up_calls st)) (up_order st)).
Proof.
  intros [H1 H2 H3 H4] Hi Hq Hq' Hupd. split; cbn; [| |done|].
  - rewrite (apply_calls_ext (up_calls st)); [exact H1|]. intros j _. by eapply fst_insert_call.
  - intros j fn' old upd [(_ & [= <- ->] & _)|[_ Hj]]%list_lookup_insert_Some; [by apply Hupd|by eapply H2].
  - intros j. rewrite H4. split; intros [fn' Hj].
    + exists fn'. rewrite list_lookup_insert_ne; [done|]. intros ->. congruence.
    + apply list_lookup_insert_Some in Hj as [(_ & [= _ ->] & _)|[_ Hj]]; [done|by exists fn'].
Qed.

(** A swap: the stored value is still the one the update was computed from. *)
Lemma up_inv_swap m0 st i fn upd :
  up_inv m0 st → up_calls st !! i = Some (fn, UCas (up_cur st) upd) →
  up_inv m0 (mkUp (up_metas st ++ [upd]) (length (up_metas st)) (<[i := (fn, UDone)]> (up_calls st)) (up_order st ++ [i])).
Proof.
  intros [H1 H2 H3 H4] Hi. destruct (H2 _ _ _ _ Hi) as (m & Hm & ->). unfold current in *. rewrite H1 in Hm. injection Hm as <-.
  assert (i ∉ up_order st) as Hnew by (intros [fn' Hd]%H4; congruence).
  split; cbn.
  - unfold current. cbn. rewrite list_lookup_middle by done. unfold apply_calls at 2. rewrite foldl_app. cbn [foldl].
    rewrite list_lookup_insert_eq by (by eapply lookup_lt_Some). do 2 f_equal. symmetry.
    apply apply_calls_ext. intros j _. by eapply fst_insert_call.
  - intros j fn' old upd [(_ & ? & _)|[_ Hj]]%list_lookup_insert_Some; [done|].
    destruct (H2 _ _ _ _ Hj) as (m & Hm & ->). exists m. split; [by apply lookup_app_l_Some|done].
  - apply NoDup_app. split_and!; [done| |apply NoDup_singleton]. intros j Hj ->%list_elem_of_singleton. done.
  - intros j. rewrite elem_of_app, list_elem_of_singleton, H4. split.
    + intros [[fn' Hj]| ->].
      * exists fn'. rewrite list_lookup_insert_ne; [done|]. intros ->. congruence.
      * exists fn. apply list_lookup_insert_eq. by eapply lookup_lt_Some.
    + intros [fn' [(-> & _)|[_ Hj]]%list_lookup_insert_Some]; [by right|left; by exists fn'].
Qed.

Lemma up_inv_move m0 st st' : up_inv m0 st → up_move st st' → up_inv m0 st'.
Proof.
  intros Hinv Hmove. destruct Hmove as [st1 fn|st1 i st2 Hstep]; [by apply up_inv_call|]. unfold up_step in Hstep.
  destruct (up_calls st1 !! i) as [[fn [|old upd|]]|] eqn:Hi; [| |done..].
  - destruct (current st1) as [m|] eqn:Hm; [|done]. injection Hstep as <-. eapply up_inv_local; [done|exact Hi|done|done|].
    intros old upd [= <- <-]. by exists m.
  - case_decide as Hc; injection Hstep as <-; [subst old; by apply up_inv_swap|]. by eapply up_inv_local.
Qed.

(** C18: No update of the metadata is lost.  However any number of UpdateMeta calls
    interleave, the metadata is the initial one with the updates of exactly the
    calls that have returned applied to it, each once, in the order of their
    swaps. *)
Theorem update_meta_linearizable m0 st (Hrun : rtc up_move (up_start m0) st) :
  current st = Some (apply_calls (up_calls st) (up_order st) m0) ∧ NoDup (up_order st) ∧
  ∀ i, i ∈ up_order st ↔ ∃ fn, up_calls st !! i = Some (fn, UDone).
Proof.
  assert (up_inv m0 st) as [H1 _ H3 H4]; [|done].
  eapply (rtc_ind_r (up_inv m0)); [| |exact Hrun].
  - split; cbn; [done| |constructor|]; [intros i fn old upd; by rewrite lookup_nil|]. intros i. split; [by intros ?%elem_of_nil|].
    intros [fn Hi]. by rewrite lookup_nil in Hi.
  - intros st1 st2 _ Hmove Hinv. by eapply up_inv_move.
Qed.
End Cas.
Arguments up_pc C : clear implicits.
Arguments up_state C : clear implicits.

(** ** Witnesses: coordinates on a line *)

#[export] Instance line_vivaldi : Vivaldi Z Z | 100 := {|
  NewClient := Some 0;
  GetCoordinate := fun v => v;
  DistanceTo := fun v c => Z.abs (v - c);
  UpdateCoord := fun v _ c rtt => if rtt <? 0 then None else Some (v + (c - v) / 2);
  ForgetNode := fun v _ => v;
  IsValid := fun c => c <? 2 ^ 40;
|}.

#[export] Instance list_order : MapOrder | 100 := fun A l => l.

#[export] Instance list_order_spec : MapOrderSpec | 100.
Proof. by intros A l. Qed.

#[export] Instance NodeMeta_eq_dec : EqDecision (NodeMeta Z).
Proof. solve_decision. Defined.

#[export] Instance NodeMeta_countable : Countable (NodeMeta Z).
Proof.
  apply (inj_countable' (fun r => (MetaNodeID r, VivaldiCoord r, QUICAddr r, QUICPort r, AppData r))
    (fun '(a, b, c, d, e) => mkMeta a b c d e)). by intros [].
Defined.

Definition meta_at (name : string) (c : Z) : NodeMeta Z := mkMeta name (Some c) "10.0.0.7" 7947 None.

Definition member (name : string) : Membership Z Z := mkMembership (meta_at name 5) 5 ∅ true true.

Definition node_of (name : string) (c : Z) : Node :=
  mkNode name "10.0.0.7" (delegate_NodeMeta (mkMembership (meta_at name c) c ∅ false false) 4096).

Lemma membership_views_agree_witness :
  let m := (do_events (member "self") [EvJoin (node_of "a" 9); EvJoin (node_of "b" 12); EvLeave (node_of "a" 9)]).1 in
  IsAlive m "b" = true ∧ ("b"%string ∈ PeerID <$> LivePeers m) ∧ IsAlive m "a" = false.
Proof.
  destruct (membership_views_agree (member "self") [EvJoin (node_of "a" 9); EvJoin (node_of "b" 12); EvLeave (node_of "a" 9)])
    as [_ H]; [reflexivity|].
  assert (IsAlive (do_events (member "self") [EvJoin (node_of "a" 9); EvJoin (node_of "b" 12); EvLeave (node_of "a" 9)]).1 "b" = true)
    as Hb by (vm_compute; reflexivity).
  split; [exact Hb|]. split; [|vm_compute; reflexivity]. apply (proj1 (H "b"%string)). exact Hb.
Defined.

Lemma change_callback_current_witness :
  let '(m1, cs) := do_events (member "self") [EvJoin (node_of "a" 9); EvPing "a" 4 [x00]] in
  match last_change cs None with Some ps => ps = LivePeers m1 | None => m_peers m1 = ∅ end.
Proof. apply (change_callback_current (member "self") [EvJoin (node_of "a" 9); EvPing "a" 4 [x00]]). reflexivity. Defined.

Lemma metadata_roundtrip_witness :
  AddrForNode (NotifyJoin (member "self") (mkNode "a" "10.0.0.7" (delegate_NodeMeta (member "a") 4096))).1 "a" =
  "10.0.0.7:7947"%string.
Proof.
  destruct (metadata_roundtrip (member "a") (member "self") "a" "10.0.0.7" 4096 (delegate_NodeMeta (member "a") 4096))
    as (_ & _ & H & _).
  - exact I.
  - vm_compute. reflexivity.
  - vm_compute. discriminate.
  - rewrite H. vm_compute. reflexivity.
Defined.

Lemma oversized_metadata_hides_node_witness :
  NotifyJoin (member "self") (mkNode "a" "10.0.0.7" (delegate_NodeMeta (member "a") 64)) = (member "self", []).
Proof.
  apply (oversized_metadata_hides_node (member "a") (member "self") "a" "10.0.0.7" 64 (delegate_NodeMeta (member "a") 4096)).
  - vm_compute. reflexivity.
  - vm_compute. reflexivity.
Defined.

Lemma ping_refreshes_coordinate_witness :
  let far := mkMembership (meta_at "b" 21) 21 ∅ false false in
  m_meta (NotifyPingComplete (member "self") "b" 16 (AckPayload far)) = set_coord 13 (meta_at "self" 5).
Proof.
  pose proof (ping_refreshes_coordinate (member "self") (mkMembership (meta_at "b" 21) 21 ∅ false false) "b" 16 I) as H.
  exact (proj1 (proj2 H)).
Defined.

(** A schedule: which call makes the next access. *)
Definition run_updates (st : up_state Z) (sched : list nat) : up_state Z :=
  foldl (fun st i => default st (up_step st i)) st sched.

Lemma run_updates_moves st sched : rtc up_move st (run_updates st sched).
Proof.
  revert st. induction sched as [|i sched IH]; intros st; [done|]. unfold run_updates. cbn [foldl].
  destruct (up_step st i) as [st1|] eqn:E; cbn [default]; [|apply IH].
  eapply rtc_l; [by eapply um_step|apply IH].
Qed.

Definition append_name (s : string) (m : NodeMeta Z) : NodeMeta Z :=
  mkMeta (MetaNodeID m +:+ s) (VivaldiCoord m) (QUICAddr m) (QUICPort m) (AppData m).

(** Two calls load the same value; the second swaps first, the first starts over. *)
Definition raced_updates : up_state Z :=
  run_updates (mkUp [meta_at "n" 1] 0 [(append_name "x", ULoad); (append_name "y", ULoad)] []) [0; 1; 1; 0; 0; 0]%nat.

Lemma update_meta_linearizable_witness :
  current raced_updates = Some (meta_at "nyx" 1) ∧ NoDup (up_order raced_updates).
Proof.
  split; [vm_compute; reflexivity|].
  assert (rtc up_move (up_start (meta_at "n" 1)) raced_updates) as Hrun.
  { eapply rtc_l; [apply (um_call _ (append_name "x"))|]. eapply rtc_l; [apply (um_call _ (append_name "y"))|].
    apply run_updates_moves. }
  exact (proj1 (proj2 (update_meta_linearizable (meta_at "n" 1) raced_updates Hrun))).
Defined.
