(* ===== verification/Mesh.v ===== *)
(** * The mesh: how the parts are put together (src/mesh/mesh.go)

    [Join] starts the parts one after the other and releases them when a later
    one fails; [Leave] stops them.  memberlist may report members from the moment
    the membership has started, so Join has the events of that time as arguments.
    A running node is the membership and the engine with its overlay, joined by
    the callback that reclassifies the peers; [live_node] has the engine's loop
    as well. *)

From S2P Require Import Prelude Netaddr Json Seen Stream EagerWire Batch Ordered OrderedSpec OrderedRun.
From S2P Require Import Overlay OverlaySpec Repair Engine EngineSpec EngineRun EngineLoop Membership Objstore Holepunch.

(** ** Node IDs *)

(** The two hexadecimal digits of [%x]. *)
Definition hex_digit (z : Z) : byte := byte_of_Z (if z <? 10 then 48 + z else 87 + z).

Definition hex_byte (b : byte) : bytes := [hex_digit (byte_to_Z b / 16); hex_digit (byte_to_Z b mod 16)].

(** [byte(time.Now().UnixNano() >> (i * 8))] for each of the eight bytes, the
    clock read anew every time. *)
Definition id_bytes (clock : nat → Z) : bytes :=
  (fun i => byte_of_Z (Z.shiftr (clock i) (8 * Z.of_nat i))) <$> seq 0 8.

Definition generateNodeID (clock : nat → Z) : string := "node-" +:+ string_of (id_bytes clock ≫= hex_byte).

(** [withDefaults]: an ID is generated when none is given. *)
Definition node_id (clock : nat → Z) (configured : string) : string :=
  if decide (configured = ""%string) then generateNodeID clock else configured.

(** ** A running node *)

(** A node: its membership and its engine, which has the overlay. *)
Record Mesh (V C : Type) := mkMesh { me_members : Membership V C; me_engine : GossipEngine }.
Arguments mkMesh {V C}.
Arguments me_members {V C}.
Arguments me_engine {V C}.

(** The conversion in the callback. *)
Definition overlay_peer {C} (p : Membership.PeerInfo C) : Overlay.PeerInfo :=
  mkPeer (PeerID p) (JoinHostPort (QUICAddr (Meta p)) (Itoa (QUICPort (Meta p)))) (RTT p).

Inductive mesh_act :=
| MEvent (e : mem_event)
| MEngine (a : engine_act).

Section Running.
Context {V C : Type} `{HV : Vivaldi V C} `{HM : JSON (NodeMeta C)} `{HC : JSON C} `{HO : MapOrder}.
Context `{SS : SortSlice}.

(** The callback set by Join; leave notices are for the extension. *)
Definition on_callback (g : GossipEngine) (cb : callback C) : GossipEngine :=
  match cb with
  | CbChange ps => set_overlay (Reclassify (ge_overlay g) (overlay_peer <$> ps)) g
  | CbLeave _ => g
  end.

(** memberlist reports something. *)
Definition deliver_event (n : Mesh V C) (e : mem_event) : Mesh V C :=
  let '(m, cbs) := do_event (me_members n) e in mkMesh m (foldl on_callback (me_engine n) cbs).

Context `{HZ : Zstd}.

Definition do_mesh (n : Mesh V C) (a : mesh_act) : option (Mesh V C) :=
  match a with
  | MEvent e => Some (deliver_event n e)
  | MEngine a => '(g, _) ← do_engine (me_engine n) a; Some (mkMesh (me_members n) g)
  end.

Fixpoint run_mesh (n : Mesh V C) (acts : list mesh_act) : option (Mesh V C) :=
  match acts with
  | [] => Some n
  | a :: acts' => n1 ← do_mesh n a; run_mesh n1 acts'
  end.
End Running.

(** The overlay is only replaced through the callback. *)
Definition through_callback (a : mesh_act) : Prop := match a with MEngine (AOverlay _) => False | _ => True end.

(** ** Join and Leave *)

(** What is running: the handles of the membership, the application transport,
    the discovery extension, whether the context is still alive, and the calls of
    Engine.Run, each with whether its context has ended. *)
Record running := mkRunning {
  r_members : handles;
  r_transport : bool;
  r_discovery : bool;
  r_context : bool;
  r_loops : list bool;
}.

Inductive join_error := ErrMeshTLS | ErrStartMembership (e : start_error) | ErrStartTransport | ErrDiscovery.

(** How the parts answer: the transport's socket, the discovery extension
    ([None]: not configured), and the membership when it has to be stopped; and
    what memberlist reports before the callback is set, and between that and the
    start of the extension. *)
Record join_env := mkJoinEnv {
  je_start : start_env;
  je_early : list mem_event;
  je_transport : bool;
  je_during : list mem_event;
  je_discovery : option bool;
  je_stop : stop_env;
}.

Record mesh_config (C : Type) := mkMeshCfg {
  cfg_members : MembershipConfig C;
  cfg_overlay : OverlayConfig;
  cfg_engine : EngineConfig;
}.
Arguments mkMeshCfg {C}.
Arguments cfg_members {C}.
Arguments cfg_overlay {C}.
Arguments cfg_engine {C}.

Section JoinLeave.
Context {V C : Type} `{HV : Vivaldi V C} `{HM : JSON (NodeMeta C)} `{HC : JSON C} `{HO : MapOrder}.
Context `{SS : SortSlice}.

(** [Join] after the defaults.  No call of Engine.Run is among what it starts.
    The extension cancels its own context when its start fails. *)
Definition Join (cfg : mesh_config C) (env : join_env) : running * result join_error (Mesh V C) :=
  let mc := cfg_members cfg in
  if mc_TLS mc then
    match Start (V := V) mc (je_start env) with
    | (h, Err e) => (mkRunning h false false false [], Err (ErrStartMembership e))
    | (h, Ok (m, _, _)) =>
        if je_transport env then
          let g := Engine.New (Overlay.New (mc_NodeID mc) (cfg_overlay cfg)) (cfg_engine cfg) in
          let m1 := (do_events m (je_early env)).1 in
          let node := foldl deliver_event (mkMesh (SetOnChange m1) g) (je_during env) in
          match je_discovery env with
          | Some false => (mkRunning (Stop h (je_stop env)).1 false false false [], Err ErrDiscovery)
          | Some true => (mkRunning h true true true [], Ok node)
          | None => (mkRunning h true false true [], Ok node)
          end
        else (mkRunning (Stop h (je_stop env)).1 false false false [], Err ErrStartTransport)
    end
  else (mkRunning (mkHandles None None) false false false [], Err ErrMeshTLS).

(** [Leave] ends the context of what Join started. *)
Definition Leave (r : running) (env : stop_env) : running * result stop_error unit :=
  let '(h, res) := Stop (r_members r) env in (mkRunning h false false false ((fun _ => true) <$> r_loops r), res).
End JoinLeave.

(** ** A node with its loop *)

(** The membership, and the engine with the calls of Run. *)
Record live_node (V C : Type) := mkLive { ln_members : Membership V C; ln_loop : loop }.
Arguments mkLive {V C}.
Arguments ln_members {V C}.
Arguments ln_loop {V C}.

Inductive live_act :=
| VEvent (e : mem_event)
| VLoop (a : loop_act).

Section Live.
Context {V C : Type} `{HV : Vivaldi V C} `{HM : JSON (NodeMeta C)} `{HC : JSON C} `{HO : MapOrder}.
Context `{SS : SortSlice} `{HZ : Zstd}.

(** What Join has started and returned. *)
Definition started (r : running) (n : Mesh V C) : live_node V C :=
  mkLive (me_members n) (mkLoop (me_engine n) (r_loops r) false false).

(** After a panic nothing happens. *)
Definition do_live (n : live_node V C) (a : live_act) : option (live_node V C) :=
  let l := ln_loop n in
  match a with
  | VEvent e =>
      if lp_panic l then None
      else
        let n1 := deliver_event (mkMesh (ln_members n) (lp_engine l)) e in
        Some (mkLive (me_members n1) (mkLoop (me_engine n1) (lp_runs l) (lp_done l) (lp_panic l)))
  | VLoop a => '(l1, _) ← do_loop l a; Some (mkLive (ln_members n) l1)
  end.

Fixpoint run_live (n : live_node V C) (acts : list live_act) : option (live_node V C) :=
  match acts with
  | [] => Some n
  | a :: acts' => n1 ← do_live n a; run_live n1 acts'
  end.
End Live.

(** ** The overlay follows the membership *)

Section Tracking.
Context {V C : Type} `{HV : Vivaldi V C} `{HM : JSON (NodeMeta C)} `{HC : JSON C} `{HO : MapOrder} `{HOp : !MapOrderSpec}.
Context `{HZ : Zstd} `{SS : SortSlice} `{SSS : !SortSliceSpec SS}.

Definition current_overlay (o0 : Overlay) (m : Membership V C) : Overlay := Reclassify o0 (overlay_peer <$> LivePeers m).

(** Only the configuration and the own ID of the old overlay matter. *)
Lemma Reclassify_again o0 ps ps' : Reclassify (Reclassify o0 ps) ps' = Reclassify o0 ps'.
Proof. unfold Reclassify at 2. by case_decide. Qed.

Lemma Reclassify_new self cfg : Reclassify (Overlay.New self cfg) [] = Overlay.New self cfg.
Proof. unfold Reclassify. by rewrite decide_True. Qed.

Lemma LivePeers_empty (m : Membership V C) : m_peers m = ∅ → LivePeers m = [].
Proof.
  intros Hm. unfold LivePeers. rewrite Hm, map_to_list_empty. cbn.
  pose proof (range_order_perm _ (@nil (Membership.PeerInfo C))) as Hp. symmetry in Hp. apply Permutation_nil in Hp. by rewrite Hp.
Qed.

Lemma on_callbacks_overlay g (cbs : list (callback C)) :
  foldl on_callback g cbs =
  match last_change cbs None with
  | Some ps => set_overlay (Reclassify (ge_overlay g) (overlay_peer <$> ps)) g
  | None => g
  end.
Proof.
  assert (∀ o (ps : list (Membership.PeerInfo C)) cbs g', ge_overlay g' = Reclassify o (overlay_peer <$> ps) →
    foldl on_callback (set_overlay (ge_overlay g') g) cbs =
    match last_change cbs (Some ps) with Some ps' => set_overlay (Reclassify o (overlay_peer <$> ps')) g | None => g end) as Hgen.
  { intros o ps cbs0. revert ps. induction cbs0 as [|[ps'|id] cbs0 IH]; intros ps g' Hg; cbn [foldl last_change on_callback].
    - by rewrite Hg.
    - rewrite Hg. cbn [ge_overlay set_overlay]. rewrite Reclassify_again.
      apply (IH ps' (set_overlay (Reclassify o (overlay_peer <$> ps')) g)). done.
    - by apply IH. }
  induction cbs as [|[ps|id] cbs IH]; [done| |exact IH]. cbn [foldl on_callback last_change].
  by apply (Hgen (ge_overlay g) ps cbs (set_overlay (Reclassify (ge_overlay g) (overlay_peer <$> ps)) g)).
Qed.

(** An event that changes the table and is reported when a callback is set. *)
Definition reports (e : mem_event) : bool :=
  match e with
  | EvJoin node | EvUpdate node => match DecodeMeta (C := C) (n_Meta node) with Some _ => true | None => false end
  | EvLeave _ => true
  | EvPing _ _ _ => false
  end.

Definition events_of (acts : list mesh_act) : list mem_event :=
  omap (fun a => match a with MEvent e => Some e | MEngine _ => None end) acts.

Lemma ping_peers (m : Membership V C) other rtt payload : m_peers (NotifyPingComplete m other rtt payload) = m_peers m.
Proof.
  unfold NotifyPingComplete. destruct (Unmarshal payload) as [coord|]; [|done]. destruct (IsValid coord); [|done].
  by destruct (UpdateCoord _ _ _ _).
Qed.

Lemma do_event_silent (m : Membership V C) e :
  reports e = false → m_peers (do_event m e).1 = m_peers m ∧ (do_event m e).2 = [].
Proof.
  destruct e as [node|node|node|other rtt payload]; cbn [reports do_event]; [| |done|].
  - unfold NotifyJoin. by destruct (DecodeMeta (n_Meta node)).
  - unfold NotifyUpdate. by destruct (DecodeMeta (n_Meta node)).
  - intros _. split; [apply ping_peers|done].
Qed.

Lemma do_event_loud (m : Membership V C) e :
  m_onChange m = true → reports e = true → ∀ d, last_change (do_event m e).2 d = Some (LivePeers (do_event m e).1).
Proof.
  intros Hc. destruct e as [node|node|node|other rtt payload]; cbn [reports do_event]; [| | |done].
  - unfold NotifyJoin. destruct (DecodeMeta (n_Meta node)); [|done]. intros _ d. unfold notifyChange. cbn [fst snd m_onChange set_peers]. by rewrite Hc.
  - unfold NotifyUpdate. destruct (DecodeMeta (n_Meta node)); [|done]. intros _ d. unfold notifyChange. cbn [fst snd m_onChange set_peers]. by rewrite Hc.
  - intros _ d. unfold NotifyLeave. cbn [fst snd]. rewrite last_change_app. unfold notifyChange. cbn [m_onChange]. by rewrite Hc.
Qed.

Lemma do_events_silent (m : Membership V C) es :
  existsb reports es = false → m_peers (do_events m es).1 = m_peers m.
Proof.
  revert m. induction es as [|e es IH]; intros m; cbn [existsb do_events]; [done|]. intros [He Hes]%orb_false_iff.
  destruct (do_event_silent m e He) as [Hp _]. destruct (do_event m e) as [m1 c1]. specialize (IH m1 Hes).
  destruct (do_events m1 es). cbn in *. congruence.
Qed.

(** The link between the two halves of a node: [seen] says that the overlay has
    been told of the table.  Until then it is as it was created. *)
Record linked (o0 : Overlay) (seen : bool) (n : Mesh V C) : Prop := {
  lk_table : table_ok (me_members n);
  lk_callback : m_onChange (me_members n) = true;
  lk_overlay : ge_overlay (me_engine n) = if seen then current_overlay o0 (me_members n) else o0;
}.

Lemma deliver_linked o0 seen n e :
  linked o0 seen n → linked o0 (seen || reports e) (deliver_event n e).
Proof.
  intros [H1 H2 H3]. unfold deliver_event. pose proof (do_event_ok (me_members n) e H1) as Hok.
  pose proof (do_event_reports (me_members n) e H2) as Hrep. pose proof (do_event_loud (me_members n) e H2) as Hloud.
  pose proof (do_event_silent (me_members n) e) as Hsil. destruct (do_event (me_members n) e) as [m cbs]. destruct Hrep as [Hc _].
  cbn [fst snd] in *. split; cbn [me_members me_engine]; [done|done|]. rewrite on_callbacks_overlay. destruct (reports e) eqn:He.
  - rewrite Hloud by done. rewrite orb_true_r. cbn [ge_overlay set_overlay]. rewrite H3. unfold current_overlay.
    destruct seen; [apply Reclassify_again|done].
  - destruct Hsil as [Hp ->]; [done|]. cbn [last_change]. rewrite H3, orb_false_r. unfold current_overlay, LivePeers. by rewrite Hp.
Qed.

Lemma delivers_linked o0 seen n es :
  linked o0 seen n → linked o0 (seen || existsb reports es) (foldl deliver_event n es).
Proof.
  revert seen n. induction es as [|e es IH]; intros seen n Hn; cbn [foldl existsb]; [by rewrite orb_false_r|].
  rewrite orb_assoc. by apply IH, deliver_linked.
Qed.

Lemma do_mesh_linked o0 seen n a n' :
  linked o0 seen n → through_callback a → do_mesh n a = Some n' → linked o0 (seen || existsb reports (events_of [a])) n'.
Proof.
  intros Hn Ha Hdo. destruct a as [e|a]; cbn [do_mesh events_of omap list_omap existsb] in *; rewrite orb_false_r.
  - injection Hdo as <-. by apply deliver_linked.
  - destruct Hn as [H1 H2 H3]. destruct (do_engine (me_engine n) a) as [[g taken]|] eqn:E; cbn in Hdo; [|done]. injection Hdo as <-.
    split; cbn [me_members me_engine]; [done|done|]. rewrite <- H3. pose proof (do_engine_frame _ _ _ _ E) as Hf.
    destruct a; cbn in Ha; try done; unfold queue_frame in Hf; (congruence || naive_solver).
Qed.

Lemma run_mesh_linked o0 seen n acts n' :
  linked o0 seen n → Forall through_callback acts → run_mesh n acts = Some n' →
  linked o0 (seen || existsb reports (events_of acts)) n'.
Proof.
  intros Hn Hacts. revert seen n Hn. induction Hacts as [|a acts Ha _ IH]; intros seen n Hn; cbn [run_mesh].
  { intros [= <-]. by rewrite orb_false_r. }
  destruct (do_mesh n a) as [n1|] eqn:E; cbn [mbind option_bind]; [|done]. intros Hrun.
  pose proof (IH _ n1 (do_mesh_linked _ _ _ _ _ Hn Ha E) Hrun) as H.
  replace (existsb reports (events_of (a :: acts))) with (existsb reports (events_of [a]) || existsb reports (events_of acts));
    [by rewrite orb_assoc|]. destruct a; [cbn; by rewrite orb_false_r|done].
Qed.

(** What Join returns. *)
Lemma Join_node (cfg : mesh_config C) env r n :
  Join (V := V) cfg env = (r, Ok n) →
  r_loops r = [] ∧
  ∃ h m ml seeds, Start (V := V) (cfg_members cfg) (je_start env) = (h, Ok (m, ml, seeds)) ∧
    n = foldl deliver_event (mkMesh (SetOnChange (do_events m (je_early env)).1)
          (Engine.New (Overlay.New (mc_NodeID (cfg_members cfg)) (cfg_overlay cfg)) (cfg_engine cfg))) (je_during env).
Proof.
  unfold Join. destruct (mc_TLS _); [|done].
  destruct (Start (V := V) (cfg_members cfg) (je_start env)) as [h [[[m ml] seeds]|e]]; [|done].
  destruct (je_transport env); [|done].
  destruct (je_discovery env) as [[]|]; [|done|]; intros [= <- <-]; (split; [done|by exists h, m, ml, seeds]).
Qed.

(** It is linked; the overlay has seen the table if it was still empty when the
    callback was set, or if something was reported since. *)
Lemma Join_linked (cfg : mesh_config C) env r n :
  Join (V := V) cfg env = (r, Ok n) →
  let o0 := Overlay.New (mc_NodeID (cfg_members cfg)) (cfg_overlay cfg) in
  linked o0 (existsb reports (je_during env)) n ∧
  (existsb reports (je_early env) = false → linked o0 true n).
Proof.
  intros (_ & h & m & ml & seeds & Hs & ->)%Join_node o0.
  pose proof (start_fields (V := V) (cfg_members cfg) (je_start env)) as Hp. rewrite Hs in Hp.
  set (n0 := mkMesh (SetOnChange _) _).
  assert (table_ok (me_members n0)) as Hok.
  { apply (do_events_ok m (je_early env)). intros id p. by rewrite Hp, lookup_empty. }
  split; [by apply (delivers_linked o0 false n0)|]. intros He. apply (delivers_linked o0 true n0). split; [done|done|].
  cbn. unfold current_overlay. rewrite LivePeers_empty; [symmetry; apply Reclassify_new|].
  cbn [m_peers SetOnChange]. by rewrite do_events_silent, Hp.
Qed.

Lemma others_length self (ps : list (Membership.PeerInfo C)) :
  length (filter (fun p => pi_NodeID p ≠ self) (overlay_peer <$> ps)) = length (filter (fun p => PeerID p ≠ self) ps).
Proof.
  induction ps as [|q ps IH]; [done|]. cbn [fmap list_fmap]. rewrite !filter_cons. cbn [pi_NodeID overlay_peer].
  case_decide; cbn [length]; by rewrite IH.
Qed.

(** Where a linked node sends to: the live members, at the addresses they advertise. *)
Lemma linked_targets self ocfg seen n p :
  linked (Overlay.New self ocfg) seen n → p ∈ AllPeers (ge_overlay (me_engine n)) →
  op_NodeID p ≠ self ∧ IsAlive (me_members n) (op_NodeID p) = true ∧
  op_Addr p = AddrForNode (me_members n) (op_NodeID p).
Proof.
  set (o0 := Overlay.New self ocfg). intros [H1 _ H3] Hp. destruct seen; [|by rewrite H3 in Hp; apply elem_of_nil in Hp].
  destruct (reclassify_selects o0 (overlay_peer <$> LivePeers (me_members n)) (withDefaults_ok _)) as (Hsub & _ & _).
  fold (current_overlay o0 (me_members n)) in Hsub. rewrite <- H3 in Hsub.
  assert (unclassify p ∈ filter (fun q => pi_NodeID q ≠ ov_self o0) (overlay_peer <$> LivePeers (me_members n))) as Hin.
  { eapply elem_of_submseteq; [|exact Hsub]. by apply list_elem_of_fmap_2. }
  apply list_elem_of_filter in Hin as [Hself (q & Hq & Hlive)%list_elem_of_fmap].
  apply elem_of_LivePeers in Hlive; [|done]. destruct (H1 _ _ Hlive) as [_ Ha].
  assert (op_NodeID p = PeerID q ∧ op_Addr p = pi_Addr (overlay_peer q)) as [Hid Haddr].
  { split; [exact (f_equal pi_NodeID Hq)|exact (f_equal pi_Addr Hq)]. }
  split; [exact Hself|]. unfold IsAlive, AddrForNode. rewrite Hid, Hlive, Ha. by rewrite Haddr.
Qed.

(** How many peers a node that has seen the table has. *)
Lemma linked_count self ocfg n :
  linked (Overlay.New self ocfg) true n →
  let o := ge_overlay (me_engine n) in
  Z.of_nat (PeerCount o) =
  Z.min (Z.of_nat (length (filter (fun p => PeerID p ≠ self) (LivePeers (me_members n))))) (MaxEagerPeers (ov_cfg o) + MaxLazyPeers (ov_cfg o)).
Proof.
  intros [_ _ H3] o. set (o0 := Overlay.New self ocfg) in *. fold o in H3.
  destruct (reclassify_selects o0 (overlay_peer <$> LivePeers (me_members n)) (withDefaults_ok _)) as (_ & Hn & _).
  fold (current_overlay o0 (me_members n)) in Hn. rewrite <- H3 in Hn.
  assert (ov_cfg o = ov_cfg o0) as -> by (rewrite H3; apply Reclassify_cfg). rewrite Hn. f_equal. f_equal.
  apply others_length.
Qed.

(** C12: The engine only talks to live members.  On a node that joined, whatever
    membership events came while it joined and whatever events, messages, timers
    and calls follow, every peer the engine's overlay knows is a member that is
    alive now, at the application address it advertises now, and is not the node
    itself.  Once memberlist has reported a member that joined, left or changed
    since Join set its callback, or if none was reported before that, the overlay
    has as many peers as there are other members, up to its budget; as long as
    none has been reported since, the overlay is empty, even when members were
    reported before. *)
Theorem gossip_targets_alive (cfg : mesh_config C) env r n acts n'
    (Hjoin : Join (V := V) cfg env = (r, Ok n))
    (Hacts : Forall through_callback acts) (Hrun : run_mesh n acts = Some n') :
  let o := ge_overlay (me_engine n') in
  let m := me_members n' in
  let self := mc_NodeID (cfg_members cfg) in
  let others := filter (fun p => PeerID p ≠ self) (LivePeers m) in
  let since := je_during env ++ events_of acts in
  (∀ p, p ∈ AllPeers o →
    op_NodeID p ≠ self ∧ IsAlive m (op_NodeID p) = true ∧ op_Addr p = AddrForNode m (op_NodeID p)) ∧
  (existsb reports since = true ∨ existsb reports (je_early env) = false →
    Z.of_nat (PeerCount o) = Z.min (Z.of_nat (length others)) (MaxEagerPeers (ov_cfg o) + MaxLazyPeers (ov_cfg o))) ∧
  (existsb reports since = false → AllPeers o = []).
Proof.
  intros o m self others since. destruct (Join_linked cfg env r n Hjoin) as [Hl Hl']. set (o0 := Overlay.New _ _) in *.
  pose proof (run_mesh_linked o0 _ n acts n' Hl Hacts Hrun) as Hlk.
  assert (existsb reports since = existsb reports (je_during env) || existsb reports (events_of acts)) as Hsince
    by apply existsb_app.
  rewrite <- Hsince in Hlk. split; [intros p; by apply (linked_targets _ _ _ _ _ Hlk)|]. split.
  - intros Hseen. apply (linked_count self (cfg_overlay cfg) n'). destruct Hseen as [Hs|He]; [by rewrite Hs in Hlk|].
    exact (run_mesh_linked o0 true n acts n' (Hl' He) Hacts Hrun).
  - intros Hs. rewrite Hs in Hlk. destruct Hlk as [_ _ H3]. subst o. by rewrite H3.
Qed.

(** ** Unset metadata *)

(** No event changes the address in the metadata. *)
Lemma do_event_addr (m : Membership V C) e :
  QUICAddr (m_meta (do_event m e).1) = QUICAddr (m_meta m) ∧ QUICPort (m_meta (do_event m e).1) = QUICPort (m_meta m).
Proof.
  destruct e as [node|node|node|other rtt payload]; cbn [do_event].
  - unfold NotifyJoin. by destruct (DecodeMeta (n_Meta node)).
  - unfold NotifyUpdate. by destruct (DecodeMeta (n_Meta node)).
  - done.
  - cbn [fst]. unfold NotifyPingComplete. destruct (Unmarshal payload) as [coord|]; [|done]. destruct (IsValid coord); [|done].
    by destruct (UpdateCoord _ _ _ _).
Qed.

Lemma do_events_addr (m : Membership V C) es :
  QUICAddr (m_meta (do_events m es).1) = QUICAddr (m_meta m) ∧ QUICPort (m_meta (do_events m es).1) = QUICPort (m_meta m).
Proof.
  revert m. induction es as [|e es IH]; intros m; [done|]. cbn [do_events]. pose proof (do_event_addr m e) as [Ha Hb].
  destruct (do_event m e) as [m1 c1]. specialize (IH m1) as [Ha' Hb']. destruct (do_events m1 es). cbn in *. by rewrite Ha', Hb', Ha, Hb.
Qed.

Lemma delivers_addr (n : Mesh V C) es :
  QUICAddr (m_meta (me_members (foldl deliver_event n es))) = QUICAddr (m_meta (me_members n)) ∧
  QUICPort (m_meta (me_members (foldl deliver_event n es))) = QUICPort (m_meta (me_members n)).
Proof.
  revert n. induction es as [|e es IH]; intros n; [done|]. cbn [foldl]. destruct (IH (deliver_event n e)) as [-> ->].
  pose proof (do_event_addr (me_members n) e) as H. unfold deliver_event. by destruct (do_event (me_members n) e).
Qed.

(** The metadata of a node that joined has the address its configuration says. *)
Lemma Join_meta (cfg : mesh_config C) env r n :
  Join (V := V) cfg env = (r, Ok n) →
  QUICAddr (m_meta (me_members n)) = QUICAddr (mc_Meta (cfg_members cfg)) ∧
  QUICPort (m_meta (me_members n)) = QUICPort (mc_Meta (cfg_members cfg)).
Proof.
  intros (_ & h & m & ml & seeds & Hs & ->)%Join_node. destruct (delivers_addr (mkMesh (SetOnChange (do_events m (je_early env)).1)
    (Engine.New (Overlay.New (mc_NodeID (cfg_members cfg)) (cfg_overlay cfg)) (cfg_engine cfg))) (je_during env)) as [-> ->].
  cbn [me_members m_meta SetOnChange]. destruct (do_events_addr m (je_early env)) as [-> ->].
  unfold Start in Hs. destruct NewClient as [v|]; [|done]. destruct (mc_TLS _); [|done]. destruct (se_quic _); [|done].
  destruct (se_create _); [|done]. by injection Hs as _ <- _ _.
Qed.

(** C35: Nobody can reach a node that does not set its own metadata.  [Join] fills
    neither of the two address fields of the metadata from the address it binds:
    when the configuration leaves them zero, every member that is told of the
    node sends its gossip for it to the address ":0". *)
Theorem unset_metadata_unroutable `{HMp : !JSONSpec (NodeMeta C)}
    (cfgS cfg : mesh_config C) envS env rS r (sender n : Mesh V C) acts n' n'' name addr limit data
    (HjoinS : Join (V := V) cfgS envS = (rS, Ok sender))
    (Haddr : QUICAddr (mc_Meta (cfg_members cfgS)) = ""%string) (Hport : QUICPort (mc_Meta (cfg_members cfgS)) = 0)
    (Hj : json_ok (m_meta (me_members sender))) (Henc : Encode (m_meta (me_members sender)) = Some data)
    (Hfit : Z.of_nat (length data) ≤ limit)
    (Hjoin : Join (V := V) cfg env = (r, Ok n)) (Hacts : Forall through_callback acts) (Hrun : run_mesh n acts = Some n')
    (Htold : do_mesh n' (MEvent (EvJoin (mkNode name addr (delegate_NodeMeta (me_members sender) limit)))) = Some n'') :
  ∀ p, p ∈ AllPeers (ge_overlay (me_engine n'')) → op_NodeID p = name → op_Addr p = ":0"%string.
Proof.
  intros p Hp Hid. pose proof (run_mesh_linked _ _ n acts n' (proj1 (Join_linked cfg env r n Hjoin)) Hacts Hrun) as Hlk.
  pose proof (do_mesh_linked _ _ n' (MEvent _) n'' Hlk I Htold) as Hlk'.
  destruct (linked_targets _ _ _ n'' p Hlk' Hp) as (_ & _ & ->). rewrite Hid.
  destruct (Join_meta _ _ _ _ HjoinS) as [Ha Hb]. rewrite Haddr in Ha. rewrite Hport in Hb.
  cbn [do_mesh] in Htold. unfold deliver_event in Htold. cbn [do_event] in Htold. unfold NotifyJoin, delegate_NodeMeta in Htold. cbn [n_Meta n_Name n_Addr] in Htold.
  destruct (Unmarshal_Marshal _ Hj) as (b & Hb' & Hu). unfold Encode in *. rewrite Hb' in *. injection Henc as ->.
  rewrite (proj2 (Z.ltb_ge _ _)) in Htold by lia. unfold DecodeMeta in Htold. rewrite Hu in Htold. injection Htold as <-.
  unfold AddrForNode. cbn [me_members m_peers set_peers]. rewrite lookup_insert_eq. cbn [Alive Meta]. by rewrite Ha, Hb.
Qed.

(** ** Before the callback is set *)

(** Actions that do not change the peer table. *)
Definition no_news (a : mesh_act) : Prop :=
  match a with MEvent (EvPing _ _ _) => True | MEvent _ => False | _ => through_callback a end.

Lemma run_mesh_peers n acts n' :
  existsb reports (events_of acts) = false → run_mesh n acts = Some n' → m_peers (me_members n') = m_peers (me_members n).
Proof.
  revert n. induction acts as [|[e|a] acts IH]; intros n; cbn [run_mesh events_of omap list_omap existsb do_mesh mbind option_bind].
  - by intros _ [= <-].
  - intros [He Hes]%orb_false_iff Hrun. rewrite (IH _ Hes Hrun). destruct (do_event_silent (me_members n) e He) as [Hp _].
    unfold deliver_event. by destruct (do_event (me_members n) e).
  - intros Hes. destruct (do_engine (me_engine n) a) as [[g taken]|]; cbn [mbind option_bind]; [|done]. intros Hrun.
    by rewrite (IH _ Hes Hrun).
Qed.

(** Peers that come early are not noticed.  Seeds are joined in the background
    before Join sets the callback: whoever memberlist reports in between is in
    the table, but the overlay stays empty, so the node gossips with nobody,
    until some later event changes the table. *)
Theorem early_joins_unnoticed (cfg : mesh_config C) env r n acts n'
    (Hjoin : Join (V := V) cfg env = (r, Ok n)) (Hduring : je_during env = [])
    (Hacts : Forall no_news acts) (Hrun : run_mesh n acts = Some n') :
  AllPeers (ge_overlay (me_engine n')) = [] ∧ m_peers (me_members n') = m_peers (me_members n) ∧
  ∃ h m ml seeds, Start (V := V) (cfg_members cfg) (je_start env) = (h, Ok (m, ml, seeds)) ∧
    m_peers (me_members n) = m_peers (do_events m (je_early env)).1.
Proof.
  assert (existsb reports (events_of acts) = false ∧ Forall through_callback acts) as [Hs Hthr].
  { clear Hrun. induction Hacts as [|[[]|] acts Ha _ [IH1 IH2]]; cbn in *; try done; (split; [done|by constructor]). }
  destruct (Join_linked cfg env r n Hjoin) as [Hl _]. rewrite Hduring in Hl.
  pose proof (run_mesh_linked _ _ n acts n' Hl Hthr Hrun) as [_ _ H3]. rewrite Hs in H3. cbn in H3. rewrite H3.
  split; [done|]. split; [by eapply run_mesh_peers|].
  destruct (Join_node cfg env r n Hjoin) as (_ & h & m & ml & seeds & Hst & ->). rewrite Hduring. by exists h, m, ml, seeds.
Qed.

(** ** The loop that nobody starts *)

Definition live_enqueued (a : live_act) : option GossipEntry :=
  match a with VLoop a => loop_enqueued a | VEvent _ => None end.

Lemma deliver_queue (n : Mesh V C) e : localCh (me_engine (deliver_event n e)) = localCh (me_engine n).
Proof.
  unfold deliver_event. destruct (do_event (me_members n) e) as [m cbs]. cbn [me_engine]. rewrite on_callbacks_overlay.
  by destruct (last_change cbs None).
Qed.

Lemma delivers_queue (n : Mesh V C) es : localCh (me_engine (foldl deliver_event n es)) = localCh (me_engine n).
Proof. revert n. induction es as [|e es IH]; intros n; cbn [foldl]; [done|]. by rewrite IH, deliver_queue. Qed.

(** A step of a node on which no call of Run is left. *)
Lemma do_live_stopped (n : live_node V C) a n' :
  lp_runs (ln_loop n) = [] → lp_panic (ln_loop n) = false → (length (localCh (lp_engine (ln_loop n))) ≤ 256)%nat →
  a ≠ VLoop LRun → do_live n a = Some n' →
  (lp_runs (ln_loop n') = [] ∧ lp_panic (ln_loop n') = false ∧ (length (localCh (lp_engine (ln_loop n'))) ≤ 256)%nat) ∧
  localCh (lp_engine (ln_loop n')) = localCh (lp_engine (ln_loop n)) ++ option_list (live_enqueued a).
Proof.
  intros Hr Hp Hle Hne Hdo. destruct a as [e|a]; cbn [do_live live_enqueued] in *.
  - rewrite Hp in Hdo. injection Hdo as <-. cbn [ln_loop lp_runs lp_panic lp_engine option_list]. rewrite deliver_queue, app_nil_r. done.
  - destruct (do_loop (ln_loop n) a) as [[l1 t]|] eqn:E; cbn [mbind option_bind] in Hdo; [|done]. injection Hdo as <-. cbn [ln_loop].
    destruct (do_loop_stopped _ a l1 t Hr ltac:(congruence) E) as (R & P & L). split; [|done]. split_and!; [done|done|].
    by eapply do_loop_queue.
Qed.

Lemma run_live_stopped (n : live_node V C) acts n' :
  lp_runs (ln_loop n) = [] → lp_panic (ln_loop n) = false → (length (localCh (lp_engine (ln_loop n))) ≤ 256)%nat →
  VLoop LRun ∉ acts → run_live n acts = Some n' →
  (lp_runs (ln_loop n') = [] ∧ lp_panic (ln_loop n') = false ∧ (length (localCh (lp_engine (ln_loop n'))) ≤ 256)%nat) ∧
  localCh (lp_engine (ln_loop n')) = localCh (lp_engine (ln_loop n)) ++ omap live_enqueued acts.
Proof.
  revert n. induction acts as [|a acts IH]; intros n Hr Hp Hle Hno; cbn [run_live omap list_omap].
  { intros [= <-]. by rewrite app_nil_r. }
  apply not_elem_of_cons in Hno as [Hne Hno]. destruct (do_live n a) as [n1|] eqn:E; cbn [mbind option_bind]; [|done]. intros Hrun.
  destruct (do_live_stopped n a n1 Hr Hp Hle (not_eq_sym Hne) E) as [(R & P & B) L].
  destruct (IH n1 R P B Hno Hrun) as [H1 H2]. split; [done|]. rewrite H2, L, <- app_assoc. by destruct (live_enqueued a).
Qed.

(** C38: Nothing that is enqueued leaves the queue unless the application calls Run
    itself, which neither Join nor the quick start does.  Join starts no call of
    Engine.Run; so on what it returns, whatever membership events, messages,
    timers and calls other than Run follow, every entry passed to Enqueue stays
    in the engine's queue, in order; no local entry is handled and no batch is
    flushed; and Enqueue returns at most 256 times and blocks from then on. *)
Theorem enqueued_stays_queued (cfg : mesh_config C) env r n acts n'
    (Hjoin : Join (V := V) cfg env = (r, Ok n))
    (Hno : VLoop LRun ∉ acts) (Hrun : run_live (started r n) acts = Some n') :
  let queue := localCh (lp_engine (ln_loop n')) in
  queue = omap live_enqueued acts ∧ (length queue ≤ 256)%nat ∧
  (∀ t q p, do_live n' (VLoop (LOther (AEnqueue t q p))) = None ↔ length queue = 256%nat) ∧
  (∀ i ev, do_live n' (VLoop (LLocal i ev)) = None ∧ do_live n' (VLoop (LTick i)) = None).
Proof.
  intros queue. destruct (Join_node cfg env r n Hjoin) as (Hloops & h & m & ml & seeds & _ & Hn).
  assert (localCh (lp_engine (ln_loop (started r n))) = []) as H0 by (cbn; rewrite Hn; apply delivers_queue).
  destruct (run_live_stopped (started r n) acts n') as [(R & P & B) L]; [done|done|rewrite H0; cbn; lia|done|done|].
  split; [by rewrite H0 in L|]. split; [done|]. split.
  - intros t q p. pose proof (enqueue_blocks (ln_loop n') t q p P B) as Hb. cbn [do_live].
    destruct (do_loop _ _) as [[l1 t1]|]; cbn [mbind option_bind]; naive_solver.
  - intros i ev. cbn [do_live]. unfold do_loop. by rewrite P, R.
Qed.
End Tracking.

(** ** Join and Leave *)

(** A failed Join leaves nothing behind: neither the transport nor the extension
    nor the context, nor the membership, unless memberlist fails to leave or to shut down when it
    is stopped; a successful Join followed by Leave neither. *)
Theorem join_releases {V C} `{HV : Vivaldi V C} `{HM : JSON (NodeMeta C)} `{HC : JSON C} `{HO : MapOrder} `{SS : SortSlice} (cfg : mesh_config C) (env : join_env) (env' : stop_env)
    (Hstop : st_leave (je_stop env) = true ∧ st_shutdown (je_stop env) = true)
    (Hstop' : st_leave env' = true ∧ st_shutdown env' = true) :
  let released r := any_open (r_members r) = false ∧ r_transport r = false ∧ r_discovery r = false ∧ r_context r = false ∧ r_loops r = [] in
  match Join (V := V) cfg env with
  | (r, Err _) => released r
  | (r, Ok _) => r = mkRunning (mkHandles (Some true) (Some true)) true (bool_decide (je_discovery env = Some true)) true [] ∧ released (Leave r env').1
  end.
Proof.
  intros released. unfold Join. destruct (mc_TLS _); [|done].
  pose proof (start_handles (V := V) (cfg_members cfg) (je_start env)) as Hs.
  destruct (Start (V := V) (cfg_members cfg) (je_start env)) as [h [[[m ml] seeds]|e]]; [|done]. cbn in Hs. subst h.
  assert (∀ e, st_leave e = true ∧ st_shutdown e = true →
    any_open (Stop (mkHandles (Some true) (Some true)) e).1 = false) as Hst.
  { intros e [Hl Hd]. unfold Stop, StopWithTimeout. cbn. by rewrite Hl, Hd. }
  unfold released, Leave. destruct (je_transport env); [|split_and!; [by apply Hst|done..]].
  pose proof (Hst env' Hstop') as Hl. destruct (je_discovery env) as [[]|]; [|split_and!; [by apply Hst|done..]|].
  all: split; [reflexivity|cbn [r_members]; destruct (Stop _ env') as [h' res]; cbn in *; split_and!; done].
Qed.

(** ** Generated IDs *)

Lemma hex_byte_plain b : slash ∉ hex_byte b.
Proof. destruct b; vm_compute; intros H; repeat (apply elem_of_cons in H as [H|H]; [discriminate|]); by apply elem_of_nil in H. Qed.

Lemma hex_byte_length b : length (hex_byte b) = 2%nat.
Proof. done. Qed.

Lemma hex_byte_inj b b' : hex_byte b = hex_byte b' → b = b'.
Proof.
  set (unhex := fun l => byte_of_Z (match l with [x; y] => 16 * default 0 (hex_val x) + default 0 (hex_val y) | _ => 0 end)).
  assert (∀ c, unhex (hex_byte c) = c) as Hu by (intros []; vm_compute; reflexivity).
  intros H. by rewrite <- (Hu b), <- (Hu b'), H.
Qed.

Lemma hex_bytes_inj (l l' : bytes) : l ≫= hex_byte = l' ≫= hex_byte → l = l'.
Proof.
  revert l'. induction l as [|b l IH]; intros [|b' l'] H; [done|done|done|].
  change (hex_byte b ++ (l ≫= hex_byte) = hex_byte b' ++ (l' ≫= hex_byte)) in H.
  apply app_inj_1 in H as [H1 H2]; [|done].
  by rewrite (hex_byte_inj _ _ H1), (IH _ H2).
Qed.

(** With a clock that stands still the bytes are those of the time, the lowest
    first. *)
Lemma id_bytes_still clock : (∀ i, clock i = clock 0%nat) → id_bytes clock = reverse (be_put 8 (clock 0%nat)).
Proof.
  intros Hc. unfold id_bytes. cbn [seq fmap list_fmap]. rewrite (Hc 1%nat), (Hc 2%nat), (Hc 3%nat), (Hc 4%nat), (Hc 5%nat), (Hc 6%nat), (Hc 7%nat).
  reflexivity.
Qed.

(** Generated IDs are fit for use: 21 bytes, so that a relay request can carry
    one, and no slash, so that signal keys do not collide; and two nodes whose
    clock does not move while they start get the same ID only if they start in
    the same nanosecond. *)
Theorem generated_id_sound (c1 c2 : nat → Z) :
  length (bytes_of (generateNodeID c1)) = 21%nat ∧ plain_id (generateNodeID c1) ∧
  ((∀ i, c1 i = c1 0%nat) → (∀ i, c2 i = c2 0%nat) → in_word 64 (c1 0%nat) → in_word 64 (c2 0%nat) →
   generateNodeID c1 = generateNodeID c2 → c1 0%nat = c2 0%nat).
Proof.
  unfold generateNodeID, plain_id. rewrite bytes_of_app, bytes_of_string. split_and!.
  - done.
  - rewrite not_elem_of_app. split; [apply (bool_decide_unpack _); vm_compute; exact I|].
    intros (b & Hb & _)%list_elem_of_bind. by apply hex_byte_plain in Hb.
  - intros H1 H2 B1 B2 Heq. apply (inj _) in Heq. apply (inj string_of), hex_bytes_inj in Heq.
    rewrite !id_bytes_still in Heq by done. apply (inj reverse), (f_equal be_get) in Heq.
    by rewrite !be_get_put_id in Heq.
Qed.

(** ** Witnesses *)

Definition sample_mesh : mesh_config Z :=
  mkMeshCfg (mkMemCfg "self" "0.0.0.0" 7946 "" 0 ["10.0.0.1:7946"%string] 0 0 0 (meta_at "self" 0) true)
    (mkOverlayConfig 0 0 0 0) (mkEngineConfig 0 0 0 0).

Definition all_well : join_env := mkJoinEnv (mkStartEnv true true) [] true [] None (mkStopEnv true true true).

Definition joined : Mesh Z Z :=
  match (Join (V := Z) sample_mesh all_well).2 with Ok n => n | Err _ => mkMesh (member "") (Engine.New (Overlay.New "" (mkOverlayConfig 0 0 0 0)) (mkEngineConfig 0 0 0 0)) end.

Lemma joined_ok : Join (V := Z) sample_mesh all_well = (mkRunning (mkHandles (Some true) (Some true)) true false true [], Ok joined).
Proof. vm_compute. reflexivity. Qed.

(** Two peers join, one leaves, and a message is enqueued. *)
Definition mesh_acts : list mesh_act :=
  [MEvent (EvJoin (node_of "a" 9)); MEvent (EvJoin (node_of "b" 12)); MEngine (AEnqueue 0 1 [x68]);
   MEvent (EvLeave (node_of "a" 9))].

Definition after_acts : Mesh Z Z := default joined (run_mesh (HZ := stored_zstd) joined mesh_acts).

Lemma after_acts_ok : run_mesh (HZ := stored_zstd) joined mesh_acts = Some after_acts.
Proof. vm_compute. reflexivity. Qed.

(** A node whose configuration leaves the metadata empty, and one it is told to. *)
Definition plain_mesh : mesh_config Z :=
  mkMeshCfg (mkMemCfg "node-1" "0.0.0.0" 7946 "" 0 ["10.0.0.1:7946"%string] 0 0 0 (mkMeta "" None "" 0 None) true)
    (mkOverlayConfig 0 0 0 0) (mkEngineConfig 0 0 0 0).

Definition plain_node : Mesh Z Z :=
  match (Join (V := Z) plain_mesh all_well).2 with Ok n => n | Err _ => joined end.

Definition told_of_plain : Mesh Z Z :=
  default joined (do_mesh (HZ := stored_zstd) joined (MEvent (EvJoin (mkNode "node-1" "10.0.0.9:7946" (delegate_NodeMeta (me_members plain_node) 4096))))).

Lemma unset_metadata_unroutable_witness :
  op_NodeID <$> AllPeers (ge_overlay (me_engine told_of_plain)) = ["node-1"%string] ∧
  ∀ p, p ∈ AllPeers (ge_overlay (me_engine told_of_plain)) → op_NodeID p = "node-1"%string → op_Addr p = ":0"%string.
Proof.
  split; [vm_compute; reflexivity|].
  refine (unset_metadata_unroutable (HZ := stored_zstd) plain_mesh sample_mesh all_well all_well
            (mkRunning (mkHandles (Some true) (Some true)) true false true [])
            (mkRunning (mkHandles (Some true) (Some true)) true false true [])
            plain_node joined [] joined told_of_plain "node-1" "10.0.0.9:7946" 4096
            (default [] (Encode (m_meta (me_members plain_node)))) _ _ _ _ _ _ _ _ _ _).
  - vm_compute. reflexivity.
  - reflexivity.
  - reflexivity.
  - exact I.
  - vm_compute. reflexivity.
  - vm_compute. discriminate.
  - exact joined_ok.
  - constructor.
  - reflexivity.
  - vm_compute. reflexivity.
Defined.

(** A seed is reported before the callback is set. *)
Definition seed_first : join_env :=
  mkJoinEnv (mkStartEnv true true) [EvJoin (node_of "seed" 9)] true [] None (mkStopEnv true true true).

Definition joined_late : Mesh Z Z := match (Join (V := Z) sample_mesh seed_first).2 with Ok n => n | Err _ => joined end.

Lemma joined_late_ok :
  Join (V := Z) sample_mesh seed_first = (mkRunning (mkHandles (Some true) (Some true)) true false true [], Ok joined_late).
Proof. vm_compute. reflexivity. Qed.

Definition late_acts : Mesh Z Z := default joined (run_mesh (HZ := stored_zstd) joined_late mesh_acts).

Lemma late_acts_ok : run_mesh (HZ := stored_zstd) joined_late mesh_acts = Some late_acts.
Proof. vm_compute. reflexivity. Qed.

(** The seed is known and gets nothing at first; after the next event it does. *)
Lemma gossip_targets_alive_witness :
  PeerID <$> LivePeers (me_members joined_late) = ["seed"%string] ∧ AllPeers (ge_overlay (me_engine joined_late)) = [] ∧
  let o := ge_overlay (me_engine late_acts) in
  Z.of_nat (PeerCount o) = Z.min 2 (MaxEagerPeers (ov_cfg o) + MaxLazyPeers (ov_cfg o)) ∧
  ∀ p, p ∈ AllPeers o → IsAlive (me_members late_acts) (op_NodeID p) = true.
Proof.
  split; [vm_compute; reflexivity|]. split.
  - destruct (gossip_targets_alive (HZ := stored_zstd) sample_mesh seed_first _ joined_late [] joined_late joined_late_ok) as (_ & _ & H).
    + constructor.
    + reflexivity.
    + exact (H eq_refl).
  - intros o. destruct (gossip_targets_alive (HZ := stored_zstd) sample_mesh seed_first _ joined_late mesh_acts late_acts joined_late_ok) as (H1 & H2 & _).
    + repeat constructor.
    + exact late_acts_ok.
    + split; [|intros p Hp; apply (H1 p Hp)]. apply H2. left. vm_compute. reflexivity.
Defined.

(** A peer joins and two messages are enqueued. *)
Definition live_acts : list live_act :=
  [VEvent (EvJoin (node_of "a" 9)); VLoop (LOther (AEnqueue 0 1 [x68])); VLoop (LOther (AInitial 3 7)); VLoop (LOther (AEnqueue 0 2 [x69]))].

Definition joined_run : running := mkRunning (mkHandles (Some true) (Some true)) true false true [].

Definition after_live : live_node Z Z :=
  default (started joined_run joined) (run_live (HZ := stored_zstd) (started joined_run joined) live_acts).

Lemma enqueued_stays_queued_witness :
  PeerCount (ge_overlay (lp_engine (ln_loop after_live))) = 1%nat ∧
  localCh (lp_engine (ln_loop after_live)) = [mkEntry 0 1 [x68]; mkEntry 0 2 [x69]] ∧
  do_live (HZ := stored_zstd) after_live (VLoop (LTick 0)) = None.
Proof.
  split; [vm_compute; reflexivity|].
  destruct (enqueued_stays_queued (HZ := stored_zstd) sample_mesh all_well joined_run joined live_acts after_live joined_ok) as (H1 & _ & _ & H4).
  - unfold live_acts. intros Hin. repeat (apply elem_of_cons in Hin as [Hin|Hin]; [discriminate|]). by apply elem_of_nil in Hin.
  - vm_compute. reflexivity.
  - split; [exact H1|exact (proj2 (H4 0%nat quiet_env))].
Defined.

Lemma early_joins_unnoticed_witness :
  PeerID <$> LivePeers (me_members joined_late) = ["seed"%string] ∧
  ∀ n', run_mesh (HZ := stored_zstd) joined_late [MEvent (EvPing "seed" 4 [x00]); MEngine (AEnqueue 0 1 [])] = Some n' →
  AllPeers (ge_overlay (me_engine n')) = [].
Proof.
  split; [vm_compute; reflexivity|]. intros n' Hn'.
  refine (proj1 (early_joins_unnoticed (HZ := stored_zstd) sample_mesh seed_first _ joined_late _ n' joined_late_ok eq_refl _ Hn')).
  repeat constructor.
Defined.

Lemma join_releases_witness :
  let env := mkJoinEnv (mkStartEnv true true) [] true [] (Some false) (mkStopEnv true true true) in
  any_open (r_members (Join (V := Z) sample_mesh env).1) = false.
Proof.
  intros env. pose proof (join_releases (V := Z) sample_mesh env (mkStopEnv true true true)) as H.
  destruct (Join (V := Z) sample_mesh env) as [r [n|e]] eqn:E; [vm_compute in E; discriminate|].
  apply H; split; reflexivity.
Defined.
