(* ===== verification/S3nat.v ===== *)
(** * The discovery extension (src/s3nat/s3nat.go)

    What the extension does on top of a node: it registers the node, tries to
    reach every registered peer that the membership does not know (join, then
    hole punch, then relay), and removes the registration of a node that the
    membership reports as gone.  What it does to reach a peer is returned as
    data; the outcomes are arguments.  Everything is proved for every store that
    meets the interface of [Objstore]. *)

From S2P Require Import Prelude Netaddr Json Objstore Bootstrap Natutil Membership.

(** The parts of mesh.Config the extension reads. *)
Record node_config := mkNodeCfg { nc_NodeID : string; nc_BindAddr : string; nc_BindPort : Z }.

Definition bind_addr (c : node_config) : string := JoinHostPort (nc_BindAddr c) (Itoa (nc_BindPort c)).

(** The application transport listens one port above. *)
Definition app_addr (c : node_config) : string := JoinHostPort (nc_BindAddr c) (Itoa (nc_BindPort c + 1)).

(** The registration [Start] writes. *)
Definition own_registration (c : node_config) : NodeRegistration :=
  mkReg (nc_NodeID c) [bind_addr c; app_addr c] "" false 0.

(** The default of PollInterval; 60 s. *)
Definition poll_interval (configured : Z) : Z := if configured =? 0 then 60 * 10 ^ 9 else configured.

(** ** Reaching a peer *)

(** What the extension does to reach a peer: [Adopt] hands the punched connection,
    with its remote address, to the transport (AddConnection) and to the
    membership (InjectConnection). *)
Inductive attempt :=
| TryJoin (nodeID addr : string)
| TryPunch (nodeID selfAddr : string)
| Adopt (nodeID addr : string) (conn : nat)
| TryRelay (relayAddr nodeID : string).

#[export] Instance attempt_eq_dec : EqDecision attempt.
Proof. solve_decision. Defined.

(** The extension's own fields: the registration, and whether the context is
    live ([None]: Start was not called). *)
Record Extension := mkExt { e_reg : option NodeRegistration; e_live : option bool }.

Definition New : Extension := mkExt None None.

Section Extension.
Context {S : Type} `{HS : ObjectStore S} `{HJ : JSON NodeRegistration}.

(** How the outside answers: whom SWIM knows, which attempts succeed (a relay is
    named by its node; a punched connection comes with its remote address), and
    the store when the relays for a target are looked up. *)
Record nat_env := mkNatEnv {
  ne_alive : string → bool;
  ne_join : string → bool;
  ne_punch : string → option (string * nat);
  ne_relay : string → string → bool;
  ne_store : string → S;
}.

Definition tryMemberlistJoin (env : nat_env) (peer : NodeRegistration) : bool * list attempt :=
  match Addrs peer with
  | [] => (false, [])
  | addr :: _ => (ne_join env (NodeID peer), [TryJoin (NodeID peer) addr])
  end.

Definition tryHolePunch (env : nat_env) (peer : NodeRegistration) (selfAddr : string) : bool * list attempt :=
  if decide (PublicAddr peer = ""%string) then (false, [])
  else
    match ne_punch env (NodeID peer) with
    | Some (addr, conn) => (true, [TryPunch (NodeID peer) selfAddr; Adopt (NodeID peer) addr conn])
    | None => (false, [TryPunch (NodeID peer) selfAddr])
    end.

(** The address a relay is dialled at; empty: none. *)
Definition relay_addr (p : NodeRegistration) : string :=
  if decide (PublicAddr p = ""%string) then default ""%string (head (Addrs p)) else PublicAddr p.

(** The loop of [tryRelay] over the registered nodes, up to the first success. *)
Fixpoint relay_loop (env : nat_env) (nodeID : string) (target : NodeRegistration) (peers : list NodeRegistration) :
    list attempt :=
  match peers with
  | [] => []
  | p :: peers' =>
      if negb (IsRelay p) || bool_decide (NodeID p = nodeID) || bool_decide (NodeID p = NodeID target)
      then relay_loop env nodeID target peers'
      else if decide (relay_addr p = ""%string) then relay_loop env nodeID target peers'
      else
        TryRelay (relay_addr p) (NodeID target) ::
        if ne_relay env (NodeID p) (NodeID target) then [] else relay_loop env nodeID target peers'
  end.

Definition tryRelay (env : nat_env) (nodeID : string) (target : NodeRegistration) : list attempt :=
  if IsRelay target then []
  else match DiscoverPeers (ne_store env (NodeID target)) with
       | Err _ => []
       | Ok peers => relay_loop env nodeID target peers
       end.

(** One peer: skipped, or tried by the three ways in turn. *)
Definition connect_peer (env : nat_env) (nodeID appAddr : string) (peer : NodeRegistration) : list attempt :=
  if decide (NodeID peer = nodeID) then []
  else if ne_alive env (NodeID peer) then []
  else
    let '(ok1, a1) := tryMemberlistJoin env peer in
    if ok1 then a1
    else
      let '(ok2, a2) := tryHolePunch env peer appAddr in
      if ok2 then a1 ++ a2 else a1 ++ a2 ++ tryRelay env nodeID peer.

Definition discoverAndConnect (s : S) (env : nat_env) (nodeID appAddr : string) : list attempt :=
  match DiscoverPeers s with
  | Err _ => []
  | Ok peers => peers ≫= connect_peer env nodeID appAddr
  end.

(** What [pollLoop] sees: a tick, with the store and the outside of that moment,
    or the end of the context. *)
Inductive poll_event :=
| Tick (s : S) (env : nat_env)
| CtxDone.

Fixpoint pollLoop (evs : list poll_event) (nodeID appAddr : string) : list attempt :=
  match evs with
  | [] | CtxDone :: _ => []
  | Tick s env :: evs' => discoverAndConnect s env nodeID appAddr ++ pollLoop evs' nodeID appAddr
  end.

(** ** Start, the leave hook and Stop *)

(** [Start]: the store, the extension, and on success the attempts of the first
    discovery; [m] and [r] are the membership and the transport's datagram
    handlers, which get the leave hook and the reflection handler. *)
Definition Start {V C} (s : S) (now : Z) (env : nat_env) (c : node_config) (m : Membership V C) (r : reflector) :
    S * Extension * Membership V C * reflector * result boot_error (list attempt) :=
  let r1 := RegisterReflectHandler r in
  match Register s now (own_registration c) with
  | (Err e, s') => (s', mkExt None (Some false), m, r1, Err e)
  | (Ok _, s') =>
      (s', mkExt (Some (own_registration c)) (Some true), SetOnLeave m, r1,
       Ok (discoverAndConnect s' env (nc_NodeID c) (app_addr c)))
  end.

(** The callback of [SetOnLeave]; an error is logged. *)
Definition on_leave (s : S) (nodeID : string) : S := (Deregister s nodeID).2.

Definition Stop (s : S) (e : Extension) : S * Extension :=
  (match e_reg e with Some reg => (Deregister s (NodeID reg)).2 | None => s end,
   mkExt (e_reg e) (match e_live e with Some _ => Some false | None => None end)).

(** The callbacks of the membership, as the extension sees them. *)
Definition on_callbacks {C} (s : S) (cbs : list (callback C)) : S :=
  foldl (fun s cb => match cb with CbLeave id => on_leave s id | CbChange _ => s end) s cbs.
End Extension.

(** ** Properties *)

Section Discovery.
Context {S : Type} `{HS : ObjectStore S} `{HSp : !ObjectStoreSpec S}.
Context `{HJ : JSON NodeRegistration} `{HJp : !JSONSpec NodeRegistration}.

Lemma elem_of_relay_loop (env : nat_env) self target peers a :
  a ∈ relay_loop (S := S) env self target peers →
  ∃ p, p ∈ peers ∧ IsRelay p = true ∧ a = TryRelay (relay_addr p) (NodeID target).
Proof.
  induction peers as [|p peers IH]; cbn [relay_loop]; [by intros ?%elem_of_nil|].
  assert (a ∈ relay_loop env self target peers →
    ∃ q, q ∈ p :: peers ∧ IsRelay q = true ∧ a = TryRelay (relay_addr q) (NodeID target)) as Hrest.
  { intros (q & Hq & Hr)%IH. exists q. split; [apply elem_of_cons; by right|done]. }
  destruct (IsRelay p) eqn:Er; cbn [negb orb]; [|done]. destruct (_ || _); [done|]. case_decide; [done|].
  intros [->|Hin]%elem_of_cons; [exists p; split; [apply elem_of_cons; by left|done]|].
  destruct (ne_relay env _ _); [by apply elem_of_nil in Hin|by apply Hrest].
Qed.

Lemma elem_of_tryRelay env self target a :
  a ∈ tryRelay (S := S) env self target →
  IsRelay target = false ∧ ∃ p peers, DiscoverPeers (ne_store env (NodeID target)) = Ok peers ∧ p ∈ peers ∧
    IsRelay p = true ∧ a = TryRelay (relay_addr p) (NodeID target).
Proof.
  unfold tryRelay. destruct (IsRelay target); [by intros ?%elem_of_nil|].
  destruct (DiscoverPeers _) as [peers|]; [|by intros ?%elem_of_nil].
  intros (p & ? & ? & ?)%elem_of_relay_loop. split; [done|]. by exists p, peers.
Qed.

(** That the peer was not joined, and that no hole to it was punched. *)
Definition not_joined (env : nat_env) (peer : NodeRegistration) : Prop :=
  Addrs peer = [] ∨ ne_join (S := S) env (NodeID peer) = false.

Definition not_punched (env : nat_env) (peer : NodeRegistration) : Prop :=
  PublicAddr peer = ""%string ∨ ne_punch (S := S) env (NodeID peer) = None.

(** Whom an attempt is for, and what it presupposes. *)
Definition justified (env : nat_env (S := S)) (appAddr : string) (peer : NodeRegistration) (a : attempt) : Prop :=
  match a with
  | TryJoin id addr => id = NodeID peer ∧ head (Addrs peer) = Some addr
  | TryPunch id self => id = NodeID peer ∧ self = appAddr ∧ not_joined env peer ∧ PublicAddr peer ≠ ""%string
  | Adopt id addr conn =>
      id = NodeID peer ∧ not_joined env peer ∧ PublicAddr peer ≠ ""%string ∧ ne_punch env id = Some (addr, conn)
  | TryRelay addr id =>
      id = NodeID peer ∧ not_joined env peer ∧ not_punched env peer ∧
      ∃ relay peers, DiscoverPeers (ne_store env id) = Ok peers ∧ relay ∈ peers ∧ IsRelay relay = true ∧ addr = relay_addr relay
  end.

Lemma elem_of_connect_peer env self appAddr peer a :
  a ∈ connect_peer (S := S) env self appAddr peer →
  NodeID peer ≠ self ∧ ne_alive env (NodeID peer) = false ∧ justified env appAddr peer a.
Proof.
  unfold connect_peer. case_decide as Hs; [by intros ?%elem_of_nil|].
  destruct (ne_alive env (NodeID peer)) eqn:Ha; [by intros ?%elem_of_nil|]. intros Hin. split; [done|]. split; [done|].
  assert (not_joined env peer → not_punched env peer → a ∈ tryRelay env self peer → justified env appAddr peer a) as Hrelay.
  { intros Hj Hp (_ & relay & peers & Hd & Hin' & Hr & ->)%elem_of_tryRelay. cbn. naive_solver. }
  unfold not_joined, not_punched in Hrelay.
  unfold tryMemberlistJoin, tryHolePunch in Hin. destruct (Addrs peer) as [|addr addrs] eqn:Hadd; cbn [app] in *;
    [|destruct (ne_join env (NodeID peer)) eqn:Hj; [apply list_elem_of_singleton in Hin; subst; cbn; by rewrite Hadd|]].
  all: case_decide; [|destruct (ne_punch env (NodeID peer)) as [[]|] eqn:Hpu]; cbn [app] in Hin; set_unfold in Hin;
    destruct_or? Hin; subst; try done; try (by cbn; unfold not_joined; rewrite ?Hadd; auto); by apply Hrelay; auto.
Qed.

(** A peer with an address is tried first by joining it. *)
Lemma connect_peer_joins env self appAddr peer addr :
  NodeID peer ≠ self → ne_alive env (NodeID peer) = false → head (Addrs peer) = Some addr →
  TryJoin (NodeID peer) addr ∈ connect_peer (S := S) env self appAddr peer.
Proof.
  intros Hs Ha Hh. unfold connect_peer. rewrite decide_False, Ha by done. unfold tryMemberlistJoin.
  destruct (Addrs peer) as [|addr' addrs]; [done|]. injection Hh as ->.
  destruct (ne_join env (NodeID peer)); [by apply list_elem_of_singleton|].
  destruct (tryHolePunch env peer appAddr) as [[] a2]; apply elem_of_app; left; by apply list_elem_of_singleton.
Qed.

(** An attempt of a round comes from one registered peer. *)
Lemma elem_of_discover s m env self appAddr a :
  reg_inv s m →
  a ∈ discoverAndConnect s env self appAddr ↔ ∃ reg, m !! NodeID reg = Some reg ∧ a ∈ connect_peer env self appAddr reg.
Proof.
  intros (peers & Hd & _ & Hin)%discover_exact. unfold discoverAndConnect. rewrite Hd, list_elem_of_bind.
  split; [intros (r & Ha & Hr%Hin)|intros (r & Hr%Hin & Ha)]; by exists r.
Qed.

(** C20: Discovery tries exactly the strangers, in the order join, punch, relay.
    After any registrations and deregistrations, one round of discovery joins
    the first address of every registered node that is neither this one nor
    known to the membership, and makes no attempt for any other node; a hole is
    only punched to a node with a public address that was not joined, a
    connection only adopted after a successful punch, and a relay only asked, at
    the address it registered, for a node that was neither joined nor punched. *)
Theorem discovery_tries_strangers s0 ops (env : nat_env) (c : node_config)
    (Hempty : ∀ id, contents s0 !! (nodePrefix +:+ id) = None) (Hops : Forall op_ok ops) :
  let m := foldl reg_model ∅ ops in
  let attempts := discoverAndConnect (foldl do_reg s0 ops) env (nc_NodeID c) (app_addr c) in
  let stranger := fun id reg => id ≠ nc_NodeID c ∧ ne_alive env id = false ∧ m !! id = Some reg in
  (∀ id addr, TryJoin id addr ∈ attempts ↔ ∃ reg, stranger id reg ∧ NodeID reg = id ∧ head (Addrs reg) = Some addr) ∧
  (∀ id self, TryPunch id self ∈ attempts →
     self = app_addr c ∧ ∃ reg, stranger id reg ∧ not_joined env reg ∧ PublicAddr reg ≠ ""%string) ∧
  (∀ id addr conn, Adopt id addr conn ∈ attempts →
     ne_punch env id = Some (addr, conn) ∧ ∃ reg, stranger id reg ∧ not_joined env reg ∧ PublicAddr reg ≠ ""%string) ∧
  (∀ addr id, TryRelay addr id ∈ attempts →
     ∃ reg relay peers, stranger id reg ∧ not_joined env reg ∧ not_punched env reg ∧
       DiscoverPeers (ne_store env id) = Ok peers ∧ relay ∈ peers ∧ IsRelay relay = true ∧ addr = relay_addr relay).
Proof.
  intros m attempts stranger.
  assert (∀ a, a ∈ attempts ↔ _) as Hat by (intros a; apply elem_of_discover, reg_inv_ops; [by apply reg_inv_empty|done]).
  split_and!.
  - intros id addr. rewrite Hat. split.
    + intros (reg & Hreg & (H1 & H2 & -> & Hh)%elem_of_connect_peer). by exists reg.
    + intros (reg & (H1 & H2 & Hreg) & <- & Hh). exists reg. split; [done|by apply connect_peer_joins].
  - intros id self (reg & Hreg & (H1 & H2 & -> & -> & Hj)%elem_of_connect_peer)%Hat. split; [done|]. by exists reg.
  - intros id addr conn (reg & Hreg & (H1 & H2 & -> & Hj & Hp & Hc)%elem_of_connect_peer)%Hat. split; [done|]. by exists reg.
  - intros addr id (reg & Hreg & (H1 & H2 & -> & Hj & Hp & relay & peers & Hr)%elem_of_connect_peer)%Hat. by exists reg, relay, peers.
Qed.

(** ** Nobody punches *)

(** The operations of extensions: a start, a stop, a leave notice. *)
Inductive by_extension : reg_op → Prop :=
| be_start now c : by_extension (ORegister now (own_registration c))
| be_stop id : by_extension (ODeregister id).

Lemma by_extension_plain ops id reg :
  Forall by_extension ops → foldl reg_model ∅ ops !! id = Some reg → PublicAddr reg = ""%string ∧ IsRelay reg = false.
Proof.
  intros Hops. assert (map_Forall (fun _ reg => PublicAddr reg = ""%string ∧ IsRelay reg = false) (foldl reg_model ∅ ops)) as Hall.
  { assert (map_Forall (fun (_ : string) reg => PublicAddr reg = ""%string ∧ IsRelay reg = false) (∅ : gmap string NodeRegistration)) as H0
      by apply map_Forall_empty.
    revert H0. generalize (∅ : gmap string NodeRegistration) as m.
    induction Hops as [|op ops Hop _ IH]; intros m Hm; [done|]. cbn [foldl]. apply IH.
    destruct Hop as [now c|id']; cbn [reg_model]; [by apply map_Forall_insert_2|by apply map_Forall_delete]. }
  apply Hall.
Qed.

(** A store that only extensions have written to, and the events of poll loops
    over such stores. *)
Definition ext_store (s0 s : S) : Prop := ∃ ops, Forall op_ok ops ∧ Forall by_extension ops ∧ s = foldl do_reg s0 ops.

Definition ext_event (s0 : S) (ev : poll_event) : Prop :=
  match ev with Tick s env => ext_store s0 s ∧ ∀ id, ext_store s0 (ne_store env id) | CtxDone => True end.

Lemma ext_store_plain s0 s :
  (∀ id, contents s0 !! (nodePrefix +:+ id) = None) → ext_store s0 s →
  ∃ m, reg_inv s m ∧ ∀ id reg, m !! id = Some reg → PublicAddr reg = ""%string ∧ IsRelay reg = false.
Proof.
  intros Hempty (ops & Hok & Hext & ->). exists (foldl reg_model ∅ ops).
  split; [apply reg_inv_ops; [by apply reg_inv_empty|done]|]. intros id reg. by apply by_extension_plain.
Qed.

(** A round over such stores only joins. *)
Lemma discover_only_joins s0 s env self appAddr a :
  (∀ id, contents s0 !! (nodePrefix +:+ id) = None) → ext_event s0 (Tick s env) →
  a ∈ discoverAndConnect s env self appAddr → ∃ id addr, a = TryJoin id addr.
Proof.
  intros Hempty [Hs Hlater] Ha. destruct (ext_store_plain s0 s Hempty Hs) as (m & Hm & Hplain).
  destruct (proj1 (elem_of_discover _ m _ _ _ _ Hm) Ha) as (peer & Hp & Hc). destruct (Hplain _ _ Hp) as [Hpub _].
  destruct (elem_of_connect_peer _ _ _ _ _ Hc) as (_ & _ & Hj). destruct a as [id addr|id self'|id addr k|addr id];
    cbn [justified] in Hj; [by exists id, addr|naive_solver..|].
  destruct Hj as (-> & _ & _ & p & peers & Hd & Hp' & Hrel & _).
  destruct (ext_store_plain s0 _ Hempty (Hlater (NodeID peer))) as (m2 & Hm2 & Hplain2).
  destruct (discover_exact _ _ Hm2) as (peers2 & Hd2 & _ & Hin2). rewrite Hd2 in Hd. injection Hd as ->.
  apply Hin2, Hplain2 in Hp' as [_ Hno]. congruence.
Qed.

(** C37: The other two ways are never taken.  When every registration comes from this
    extension, on whatever nodes, no round of the poll loop punches a hole or
    asks a relay, however many joins fail: Start registers neither a public
    address nor the ability to relay, and nothing else writes them. *)
Theorem never_escalates s0 (c : node_config) (evs : list poll_event)
    (Hempty : ∀ id, contents s0 !! (nodePrefix +:+ id) = None) (Hevs : Forall (ext_event s0) evs) :
  ∀ a, a ∈ pollLoop evs (nc_NodeID c) (app_addr c) → ∃ id addr, a = TryJoin id addr.
Proof.
  induction Hevs as [|[s env|] evs Hev _ IH]; intros a; cbn [pollLoop]; [by intros ?%elem_of_nil| |by intros ?%elem_of_nil].
  intros [Ha|Ha]%elem_of_app; [by eapply discover_only_joins|by apply IH].
Qed.

(** ** The registry follows the membership *)

(** What a store is read as. *)
Definition discovers (s : S) (listed : NodeRegistration → Prop) : Prop :=
  ∃ peers, DiscoverPeers s = Ok peers ∧ NoDup (NodeID <$> peers) ∧ ∀ reg, reg ∈ peers ↔ listed reg.

Lemma reg_inv_discovers s m (listed : NodeRegistration → Prop) :
  reg_inv s m → (∀ reg, m !! NodeID reg = Some reg ↔ listed reg) → discovers s listed.
Proof.
  intros (peers & Hd & Hnd & Hin)%discover_exact Hl. exists peers. split_and!; [done|done|]. intros reg. by rewrite Hin, Hl.
Qed.

(** The nodes that were reported as gone. *)
Definition left_ids (es : list mem_event) : list string :=
  es ≫= fun e => match e with EvLeave node => [n_Name node] | _ => [] end.

Lemma elem_of_delete_all {A} (ids : list string) (m : gmap string A) id x :
  foldl (fun m id => delete id m) m ids !! id = Some x ↔ m !! id = Some x ∧ id ∉ ids.
Proof.
  revert m. induction ids as [|i ids IH]; intros m; cbn [foldl]; [set_solver|].
  rewrite IH, lookup_delete_Some. set_solver.
Qed.

Context {V C : Type} `{HV : Vivaldi V C} `{HM : JSON (NodeMeta C)} `{HC : JSON C} `{HO : MapOrder}.

Lemma on_callbacks_app s (cs1 cs2 : list (callback C)) : on_callbacks s (cs1 ++ cs2) = on_callbacks (on_callbacks s cs1) cs2.
Proof. apply foldl_app. Qed.

Lemma on_callbacks_event s (m : Membership V C) e :
  m_onLeave m = true →
  m_onLeave (do_event m e).1 = true ∧ on_callbacks s (do_event m e).2 = foldl on_leave s (left_ids [e]).
Proof.
  intros Hl. assert (∀ (m' : Membership V C) (s' : S), on_callbacks s' (notifyChange m') = s') as Hn.
  { intros m' s'. unfold notifyChange. by destruct (m_onChange m'). }
  destruct e as [node|node|node|other rtt payload]; cbn [do_event].
  - unfold NotifyJoin. destruct (DecodeMeta _); cbn [fst snd]; [|done]. by rewrite Hn.
  - unfold NotifyUpdate. destruct (DecodeMeta _); cbn [fst snd]; [|done]. by rewrite Hn.
  - unfold NotifyLeave. rewrite Hl. cbn [fst snd]. by rewrite on_callbacks_app, Hn.
  - unfold NotifyPingComplete. split; [|done]. cbn [fst]. destruct (Unmarshal payload) as [coord|]; [|done].
    destruct (IsValid coord); [|done]. by destruct (UpdateCoord _ _ _ _).
Qed.

Lemma on_callbacks_events (m : Membership V C) es s :
  m_onLeave m = true → on_callbacks s (do_events m es).2 = foldl on_leave s (left_ids es).
Proof.
  revert m s. induction es as [|e es IH]; intros m s Hl; [done|]. cbn [do_events].
  destruct (on_callbacks_event s m e Hl) as [H1 H2]. destruct (do_event m e) as [m1 c1]. specialize (IH m1 (on_callbacks s c1) H1).
  destruct (do_events m1 es) as [m2 c2]. cbn [snd] in *. rewrite on_callbacks_app, IH, H2.
  change (e :: es) with ([e] ++ es). unfold left_ids. by rewrite bind_app, foldl_app.
Qed.

Lemma reg_inv_leaves s m ids : reg_inv s m → reg_inv (foldl on_leave s ids) (foldl (fun m id => delete id m) m ids).
Proof.
  revert s m. induction ids as [|id ids IH]; intros s m Hm; [done|]. cbn [foldl]. apply IH.
  by apply (do_reg_inv s m (ODeregister id)).
Qed.

(** Start succeeds when the registration can be encoded. *)
Lemma start_registers s m now env c (mem : Membership V C) r :
  reg_inv s m → json_ok (stamped now (own_registration c)) →
  ∃ s1, Start s now env c mem r = (s1, mkExt (Some (own_registration c)) (Some true), SetOnLeave mem, RegisterReflectHandler r,
      Ok (discoverAndConnect s1 env (nc_NodeID c) (app_addr c))) ∧
    reg_inv s1 (<[nc_NodeID c := stamped now (own_registration c)]> m).
Proof.
  intros Hm Hj. pose proof (do_reg_inv s m (ORegister now (own_registration c)) Hj Hm) as H. cbn [do_reg reg_model] in H.
  unfold Start. unfold Register in *. cbv zeta in *. destruct (Unmarshal_Marshal _ Hj) as (data & Hd & _). rewrite Hd in *.
  destruct (put_plain s now (nodePrefix +:+ NodeID (stamped now (own_registration c))) data) as (info & s' & Hp & _).
  rewrite Hp in *. cbn [snd] in H. by exists s'.
Qed.

(** The registry follows the membership.  A node that starts on a store that
    holds any registrations is registered under both its addresses, next to the
    others; whatever the membership then reports, the registrations of exactly
    the nodes that were reported as gone are removed; and after Stop its own is
    gone too. *)
Theorem registry_follows_membership s0 ops now env c (mem : Membership V C) r es
    (Hempty : ∀ id, contents s0 !! (nodePrefix +:+ id) = None) (Hops : Forall op_ok ops)
    (Hjson : json_ok (stamped now (own_registration c))) :
  let m := foldl reg_model ∅ ops in
  let own := stamped now (own_registration c) in
  let before := fun reg => reg = own ∨ NodeID reg ≠ nc_NodeID c ∧ m !! NodeID reg = Some reg in
  let '(s1, e, mem1, _, res) := Start (foldl do_reg s0 ops) now env c mem r in
  let s2 := on_callbacks s1 (do_events mem1 es).2 in
  res = Ok (discoverAndConnect s1 env (nc_NodeID c) (app_addr c)) ∧
  discovers s1 before ∧
  discovers s2 (fun reg => before reg ∧ NodeID reg ∉ left_ids es) ∧
  discovers (Stop s2 e).1 (fun reg => NodeID reg ≠ nc_NodeID c ∧ m !! NodeID reg = Some reg ∧ NodeID reg ∉ left_ids es).
Proof.
  intros m own before.
  destruct (start_registers (foldl do_reg s0 ops) m now env c mem r) as (s1 & -> & Hs1);
    [apply reg_inv_ops; [by apply reg_inv_empty|done]|done|].
  assert (∀ reg, <[nc_NodeID c := stamped now (own_registration c)]> m !! NodeID reg = Some reg ↔ before reg) as Hbefore.
  { intros reg. rewrite lookup_insert_Some. unfold before. split; [naive_solver|]. intros [->|[? ?]]; [left|by right].
    unfold own. by rewrite NodeID_stamped. }
  rewrite on_callbacks_events by done. pose proof (reg_inv_leaves s1 _ (left_ids es) Hs1) as Hs2.
  split_and!; [done|by eapply reg_inv_discovers|..].
  - eapply reg_inv_discovers; [exact Hs2|]. intros reg. by rewrite elem_of_delete_all, Hbefore.
  - eapply reg_inv_discovers; [by apply (do_reg_inv _ _ (ODeregister (nc_NodeID c)) I Hs2)|]. intros reg. cbn [reg_model].
    rewrite lookup_delete_Some, elem_of_delete_all, lookup_insert_Some. naive_solver.
Qed.

(** A node suspected once stays unregistered.  A node that was reported as gone
    and came back is alive again for the membership, but its registration stays
    removed: no later node finds it in the store, since a node registers itself
    only when it starts. *)
Theorem suspected_node_forgotten s0 ops now env c (mem : Membership V C) r es id
    (Hempty : ∀ id, contents s0 !! (nodePrefix +:+ id) = None) (Hops : Forall op_ok ops)
    (Hjson : json_ok (stamped now (own_registration c)))
    (Hleft : id ∈ left_ids es) (Hback : IsAlive (do_events (SetOnLeave mem) es).1 id = true) :
  let '(s1, _, mem1, _, _) := Start (foldl do_reg s0 ops) now env c mem r in
  let s2 := on_callbacks s1 (do_events mem1 es).2 in
  IsAlive (do_events mem1 es).1 id = true ∧
  (∃ peers, DiscoverPeers s2 = Ok peers ∧ ∀ reg, reg ∈ peers → NodeID reg ≠ id) ∧
  ∀ env' self appAddr addr, TryJoin id addr ∉ discoverAndConnect s2 env' self appAddr.
Proof.
  destruct (start_registers (foldl do_reg s0 ops) (foldl reg_model ∅ ops) now env c mem r) as (s1 & -> & Hs1);
    [apply reg_inv_ops; [by apply reg_inv_empty|done]|done|].
  rewrite on_callbacks_events by done. pose proof (reg_inv_leaves s1 _ (left_ids es) Hs1) as Hs2.
  assert (∀ reg, foldl (fun m id => delete id m) (<[nc_NodeID c := stamped now (own_registration c)]> (foldl reg_model ∅ ops))
    (left_ids es) !! NodeID reg = Some reg → NodeID reg ≠ id) as Hno by (intros reg [_ ?]%elem_of_delete_all Heq; congruence).
  split_and!; [done| |].
  - destruct (discover_exact _ _ Hs2) as (peers & Hd & _ & Hin). exists peers. split; [done|]. intros reg Hreg%Hin. by apply Hno.
  - intros env' self appAddr addr (reg & Hreg%Hno & Hc)%(elem_of_discover _ _ _ _ _ _ Hs2).
    destruct (elem_of_connect_peer _ _ _ _ _ Hc) as (_ & _ & -> & _). done.
Qed.
End Discovery.

(** ** Witnesses on the memory store *)

Definition conf (name : string) : node_config := mkNodeCfg name "10.0.0.7" 7946.

(** Nobody is known, and only punching succeeds. *)
Definition punching : nat_env (S := MemoryObjectStore) :=
  mkNatEnv (fun _ => false) (fun _ => false) (fun _ => Some ("203.0.113.5:9"%string, 3%nat)) (fun _ _ => false) (fun _ => NewMemoryObjectStore).

Lemma new_store_empty (id : string) : contents NewMemoryObjectStore !! (nodePrefix +:+ id) = None.
Proof. cbn. by rewrite fmap_empty, lookup_empty. Qed.

Lemma discovery_tries_strangers_witness :
  let ops := [ORegister 5 (mkReg "a" ["10.0.0.1:1"] "203.0.113.5:9" false 0); ORegister 6 (mkReg "self" ["10.0.0.7:7946"] "" false 0)] in
  let attempts := discoverAndConnect (foldl do_reg NewMemoryObjectStore ops) punching "self" "10.0.0.7:7947" in
  attempts = [TryJoin "a" "10.0.0.1:1"; TryPunch "a" "10.0.0.7:7947"; Adopt "a" "203.0.113.5:9" 3] ∧
  ne_punch punching "a" = Some ("203.0.113.5:9"%string, 3%nat).
Proof.
  intros ops attempts.
  destruct (discovery_tries_strangers NewMemoryObjectStore ops punching (conf "self")) as (_ & _ & H & _).
  - exact new_store_empty.
  - repeat constructor.
  - split; [vm_compute; reflexivity|]. apply (H "a"%string "203.0.113.5:9"%string 3%nat). vm_compute. right. right. left.
Defined.

Lemma never_escalates_witness :
  let s := foldl do_reg NewMemoryObjectStore [ORegister 5 (own_registration (conf "a"))] in
  pollLoop [Tick s punching; CtxDone] "b" (app_addr (conf "b")) = [TryJoin "a" "10.0.0.7:7946"] ∧
  ∃ id addr, TryJoin "a" "10.0.0.7:7946" = TryJoin id addr.
Proof.
  intros s. split; [vm_compute; reflexivity|].
  apply (never_escalates NewMemoryObjectStore (conf "b") [Tick s punching; CtxDone]).
  - exact new_store_empty.
  - constructor; [|constructor; [exact I|constructor]]. split.
    + exists [ORegister 5 (own_registration (conf "a"))]. split; [repeat constructor|]. split; [|reflexivity].
      constructor; [apply be_start|constructor].
    + intros id. exists []. split; [constructor|]. split; [constructor|reflexivity].
  - vm_compute. left.
Defined.


Lemma registry_follows_membership_witness :
  let s := foldl do_reg NewMemoryObjectStore [ORegister 5 (own_registration (conf "a"))] in
  let '(s1, e, mem1, _, _) := Start s 6 punching (conf "b") (member "b") quiet in
  let s2 := on_callbacks s1 (do_events mem1 [EvLeave (node_of "a" 9)]).2 in
  discovers (Stop s2 e).1 (fun reg => NodeID reg ≠ "b"%string ∧
    foldl reg_model ∅ [ORegister 5 (own_registration (conf "a"))] !! NodeID reg = Some reg ∧ NodeID reg ∉ ["a"%string]).
Proof.
  destruct (registry_follows_membership NewMemoryObjectStore [ORegister 5 (own_registration (conf "a"))] 6 punching (conf "b")
    (member "b") quiet [EvLeave (node_of "a" 9)]) as (_ & _ & _ & H).
  - exact new_store_empty.
  - repeat constructor.
  - exact I.
  - exact H.
Defined.

Lemma suspected_node_forgotten_witness :
  let s := foldl do_reg NewMemoryObjectStore [ORegister 5 (own_registration (conf "a"))] in
  let '(s1, _, mem1, _, _) := Start s 6 punching (conf "b") (member "b") quiet in
  let es := [EvLeave (node_of "a" 9); EvJoin (node_of "a" 9)] in
  IsAlive (do_events mem1 es).1 "a" = true ∧
  (TryJoin "a" "10.0.0.7:7946" ∈ discoverAndConnect s1 punching "b" (app_addr (conf "b"))) ∧
  (TryJoin "a" "10.0.0.7:7946" ∉ discoverAndConnect (on_callbacks s1 (do_events mem1 es).2) punching "b" (app_addr (conf "b"))).
Proof.
  pose proof (suspected_node_forgotten NewMemoryObjectStore [ORegister 5 (own_registration (conf "a"))] 6 punching (conf "b")
    (member "b") quiet [EvLeave (node_of "a" 9); EvJoin (node_of "a" 9)] "a") as H.
  destruct H as (H1 & _ & H3).
  - exact new_store_empty.
  - repeat constructor.
  - exact I.
  - vm_compute. left.
  - vm_compute. reflexivity.
  - split; [exact H1|]. split; [vm_compute; left|]. apply H3.
Defined.
