(* ===== verification/Discovery.v ===== *)
(** * The mesh with its discovery extension (src/mesh/mesh.go with src/s3nat/s3nat.go)

    The Go interface DiscoveryExtension as a class that [Join] and [Leave] are
    written against, and the extension of [S3nat] as its instance.  [Mesh] has
    Join with the outcome of the extension as an argument; here the extension
    itself runs, with its store. *)

From S2P Require Import Prelude Json Batch Overlay OverlaySpec Engine EngineRun Objstore Bootstrap Natutil Membership Mesh S3nat.

(** ** The interface *)

(** [dx_Start] gets the configuration, the membership and the transport's
    handlers of the node, of which it may change the last two, and says whether
    it succeeded.  [X] is the extension with all it works on. *)
Class DiscoveryExtension (V C X : Type) := {
  dx_Start : X → node_config → Membership V C → reflector → X * Membership V C * reflector * bool;
  dx_Stop : X → X;
}.

(** What the mesh relies on: starting and stopping an extension changes nothing of
    the membership but its leave hook. *)
Class DiscoverySpec (V C X : Type) `{DiscoveryExtension V C X} := {
  dx_Start_members x c m r : let '(_, m', _, _) := dx_Start x c m r in m_peers m' = m_peers m ∧ m_onChange m' = m_onChange m;
}.

Section Composed.
Context {V C : Type} `{HV : Vivaldi V C} `{HM : JSON (NodeMeta C)} `{HC : JSON C} `{HO : MapOrder} `{SS : SortSlice}.
Context {X : Type} `{HD : DiscoveryExtension V C X}.

(** The configuration the extension asks the mesh for. *)
Definition config_of (cfg : mesh_config C) : node_config :=
  let mc := cfg_members cfg in mkNodeCfg (mc_NodeID mc) (mc_BindAddr mc) (mc_BindPort mc).

Definition without_discovery (env : join_env) (d : option bool) : join_env :=
  mkJoinEnv (je_start env) (je_early env) (je_transport env) (je_during env) d (je_stop env).

(** [Join] with an extension, which is started last; when it fails the parts
    are stopped again. *)
Definition JoinWith (cfg : mesh_config C) (env : join_env) (x : X) (r : reflector) :
    running * X * result join_error (Mesh V C * reflector) :=
  match Mesh.Join (V := V) cfg (without_discovery env None) with
  | (rn, Err e) => (rn, x, Err e)
  | (rn, Ok node) =>
      let '(x1, m1, r1, ok) := dx_Start x (config_of cfg) (me_members node) r in
      if ok then (mkRunning (r_members rn) (r_transport rn) true (r_context rn) (r_loops rn), x1, Ok (mkMesh m1 (me_engine node), r1))
      else (mkRunning (Membership.Stop (r_members rn) (je_stop env)).1 false false false [], x1, Err ErrDiscovery)
  end.

(** [Leave] stops the extension first. *)
Definition LeaveWith (rn : running) (env : stop_env) (x : X) : running * X * result stop_error unit :=
  let x1 := if r_discovery rn then dx_Stop x else x in
  let '(rn1, res) := Leave rn env in (rn1, x1, res).

(** What runs and which error there is, is what [Join] says for the outcome of
    the extension. *)
Lemma JoinWith_Join cfg env x r :
  let '(rn, x', res) := JoinWith cfg env x r in
  ∃ ok, let '(rn0, res0) := Mesh.Join (V := V) cfg (without_discovery env (Some ok)) in
    rn = rn0 ∧
    match res, res0 with
    | Ok (node, _), Ok node0 => me_engine node = me_engine node0
    | Err e, Err e0 => e = e0
    | _, _ => False
    end.
Proof.
  unfold JoinWith, Mesh.Join. cbn [without_discovery je_start je_early je_transport je_during je_stop je_discovery].
  destruct (mc_TLS _); [|by exists true].
  destruct (Membership.Start (V := V) (cfg_members cfg) (je_start env)) as [h [[[m ml] seeds]|e]]; [|by exists true].
  destruct (je_transport env); [|by exists true].
  destruct (dx_Start x (config_of cfg) (me_members _) r) as [[[x1 m1] r1] []]; [by exists true|by exists false].
Qed.
End Composed.

(** ** The extension as an instance *)

(** The extension, its store, and what the outside contributes to its start; the
    attempts of its first round are kept. *)
Record s3nat_ext (S : Type) := mkS3 {
  x_store : S;
  x_ext : Extension;
  x_now : Z;
  x_env : nat_env (S := S);
  x_tried : list attempt;
}.
Arguments mkS3 {S}.
Arguments x_store {S}.
Arguments x_ext {S}.
Arguments x_now {S}.
Arguments x_env {S}.
Arguments x_tried {S}.

Section Instances.
Context {S : Type} `{HS : ObjectStore S} `{HJ : JSON NodeRegistration}.
Context {V C : Type}.

#[export] Instance s3nat_discovery : DiscoveryExtension V C (s3nat_ext S) := {
  dx_Start x c m r :=
    let '(s, e, m', r', res) := S3nat.Start (x_store x) (x_now x) (x_env x) c m r in
    match res with
    | Ok tried => (mkS3 s e (x_now x) (x_env x) tried, m', r', true)
    | Err _ => (mkS3 s e (x_now x) (x_env x) [], m', r', false)
    end;
  dx_Stop x := let '(s, e) := S3nat.Stop (x_store x) (x_ext x) in mkS3 s e (x_now x) (x_env x) (x_tried x);
}.

#[export] Instance s3nat_discovery_spec : DiscoverySpec V C (s3nat_ext S).
Proof.
  constructor. intros x c m r. cbn. unfold S3nat.Start. destruct (Register _ _ _) as [[]]; done.
Qed.
End Instances.

(** ** A node with its extension *)

(** Any extension that keeps the promise leaves the node as linked as [Join]. *)
Lemma JoinWith_linked {V C X} `{HV : Vivaldi V C} `{HM : JSON (NodeMeta C)} `{HC : JSON C} `{HO : MapOrder} `{HOp : !MapOrderSpec}
    `{SS : SortSlice} `{HD : DiscoveryExtension V C X} `{HDp : !DiscoverySpec V C X} cfg env (x : X) r rn x1 node r1 :
  JoinWith (V := V) cfg env x r = (rn, x1, Ok (node, r1)) →
  r_loops rn = [] ∧
  linked (Overlay.New (mc_NodeID (cfg_members cfg)) (cfg_overlay cfg)) (existsb (reports (C := C)) (je_during env)) node.
Proof.
  unfold JoinWith. destruct (Mesh.Join cfg _) as [rn0 [node0|e]] eqn:E; [|done].
  pose proof (proj1 (Join_node _ _ _ _ E)) as Hloops. apply Join_linked in E as [[H1 H2 H3] _].
  pose proof (dx_Start_members x (config_of cfg) (me_members node0) r) as Hs.
  destruct (dx_Start x (config_of cfg) (me_members node0) r) as [[[x2 m2] r2] []]; [|done]. destruct Hs as [Hp Hc].
  intros [= <- <- <- <-]. split; [done|]. split; cbn [me_members me_engine].
  - intros id p. rewrite Hp. apply H1.
  - by rewrite Hc.
  - rewrite H3. unfold current_overlay, LivePeers. by rewrite Hp.
Qed.

(** What happens on a node and around it: what [Mesh] has, and what other nodes do
    to the registry. *)
Inductive node_act :=
| NMesh (a : mesh_act)
| NOther (op : reg_op).

Section Nodes.
Context {S : Type} `{HS : ObjectStore S} `{HSp : !ObjectStoreSpec S}.
Context `{HJ : JSON NodeRegistration} `{HJp : !JSONSpec NodeRegistration}.
Context {V C : Type} `{HV : Vivaldi V C} `{HM : JSON (NodeMeta C)} `{HC : JSON C} `{HO : MapOrder} `{HOp : !MapOrderSpec}.
Context `{HZ : Zstd} `{SS : SortSlice} `{SSS : !SortSliceSpec SS}.

(** The callbacks of an event go to the overlay and to the extension. *)
Definition do_node (st : Mesh V C * S) (a : node_act) : option (Mesh V C * S) :=
  let '(n, s) := st in
  match a with
  | NMesh (MEvent e) => n1 ← do_mesh n (MEvent e); Some (n1, on_callbacks s (do_event (me_members n) e).2)
  | NMesh a => n1 ← do_mesh n a; Some (n1, s)
  | NOther op => Some (n, do_reg s op)
  end.

Fixpoint run_node (st : Mesh V C * S) (acts : list node_act) : option (Mesh V C * S) :=
  match acts with
  | [] => Some st
  | a :: acts' => st1 ← do_node st a; run_node st1 acts'
  end.

Definition node_act_ok (a : node_act) : Prop :=
  match a with NMesh a => through_callback a | NOther op => op_ok op end.

(** What the registry should hold. *)
Definition node_model (m : gmap string NodeRegistration) (a : node_act) : gmap string NodeRegistration :=
  match a with
  | NMesh (MEvent (EvLeave node)) => delete (n_Name node) m
  | NMesh _ => m
  | NOther op => reg_model m op
  end.

Record consistent (o0 : Overlay) (m : gmap string NodeRegistration) (st : Mesh V C * S) : Prop := {
  co_linked : ∃ seen, linked o0 seen st.1;
  co_hook : m_onLeave (me_members st.1) = true;
  co_registry : reg_inv st.2 m;
}.

Lemma do_node_consistent o0 m st a st' :
  consistent o0 m st → node_act_ok a → do_node st a = Some st' → consistent o0 (node_model m a) st'.
Proof.
  intros [[seen H1] H2 H3] Ha Hdo. destruct st as [n s], st' as [n' s']. cbn [fst snd] in *.
  destruct a as [[e|a]|op]; cbn [do_node node_act_ok] in *.
  - destruct (do_mesh n (MEvent e)) as [n1|] eqn:E; cbn [mbind option_bind] in Hdo; [|done]. injection Hdo as <- <-.
    pose proof (on_callbacks_event s (me_members n) e H2) as [Hh ->].
    split; cbn [fst snd]; [eexists; by eapply do_mesh_linked| |].
    + cbn [do_mesh] in E. unfold deliver_event in E. destruct (do_event (me_members n) e) as [m1 cbs]. by injection E as <-.
    + pose proof (reg_inv_leaves s m (left_ids [e]) H3) as Hr. by destruct e.
  - destruct (do_mesh n (MEngine a)) as [n1|] eqn:E; cbn [mbind option_bind] in Hdo; [|done]. injection Hdo as <- <-.
    split; cbn [fst snd]; [eexists; by eapply do_mesh_linked| |done].
    cbn [do_mesh] in E. destruct (do_engine _ _) as [[g t]|]; cbn in E; [|done]. by injection E as <-.
  - injection Hdo as <- <-. split; cbn [fst snd]; [by exists seen|done|by apply do_reg_inv].
Qed.

Lemma run_node_consistent o0 m st acts st' :
  consistent o0 m st → Forall node_act_ok acts → run_node st acts = Some st' → consistent o0 (foldl node_model m acts) st'.
Proof.
  intros Hc Hacts. revert m st Hc. induction Hacts as [|a acts Ha _ IH]; intros m st Hc; cbn [run_node foldl]; [by intros [= <-]|].
  destruct (do_node st a) as [st1|] eqn:E; cbn [mbind option_bind]; [|done]. apply IH. by eapply do_node_consistent.
Qed.

(** What Join does to the registry: it adds the node when it succeeds, and leaves
    the registry alone when it fails. *)
Lemma JoinWith_registers cfg env (x : s3nat_ext S) r m :
  reg_inv (x_store x) m → json_ok (stamped (x_now x) (own_registration (config_of cfg))) →
  let '(rn, x1, res) := JoinWith (V := V) cfg env x r in
  match res with
  | Err _ => x1 = x
  | Ok (node, _) =>
      r_discovery rn = true ∧ r_members rn = mkHandles (Some true) (Some true) ∧ m_onLeave (me_members node) = true ∧
      e_reg (x_ext x1) = Some (own_registration (config_of cfg)) ∧
      reg_inv (x_store x1) (<[mc_NodeID (cfg_members cfg) := stamped (x_now x) (own_registration (config_of cfg))]> m)
  end.
Proof.
  intros Hm Hj. unfold JoinWith. destruct (Mesh.Join cfg _) as [rn [node|e]] eqn:E; [|done]. cbn [dx_Start s3nat_discovery].
  destruct (start_registers (x_store x) m (x_now x) (x_env x) (config_of cfg) (me_members node) r Hm Hj) as (s1 & -> & Hs1).
  split_and!; try done. cbn. unfold Mesh.Join in E. cbn [without_discovery je_start je_early je_transport je_during je_discovery] in E.
  destruct (mc_TLS _); [|done]. pose proof (start_handles (V := V) (cfg_members cfg) (je_start env)) as Hh.
  destruct (Membership.Start _ _) as [h [[[m0 ml] seeds]|e]]; [|done]. destruct (je_transport env); [|done]. by injection E as <- _.
Qed.

Lemma stop_closes senv :
  st_leave senv = true → st_shutdown senv = true →
  (Membership.Stop (mkHandles (Some true) (Some true)) senv).1 = mkHandles (Some false) (Some false).
Proof. intros Hl Hs. unfold Membership.Stop, StopWithTimeout, shut_quic. cbn [h_list h_quic]. by rewrite Hl, Hs. Qed.

(** C19: A node and its registration live and die together.  On a store that holds
    any registrations: when Join fails the registry is as before; when it
    succeeds, then whatever membership events, messages and timers follow on the
    node and whatever other nodes do to the registry, the registry holds the
    node, the registrations there were and those made since, less the nodes that
    were deregistered or reported as gone, while the engine talks to live
    members only, at their advertised addresses.  Leave always takes the node out
    of the registry and stops the extension, the context and the application
    transport; it also leaves the memberlist and its transport closed, provided
    that memberlist's own Leave and Shutdown succeed. *)
Theorem node_and_registration cfg env (x : s3nat_ext S) r ops s0
    (Hempty : ∀ id, contents s0 !! (nodePrefix +:+ id) = None) (Hops : Forall op_ok ops) (Hx : x_store x = foldl do_reg s0 ops)
    (Hjson : json_ok (stamped (x_now x) (own_registration (config_of cfg)))) :
  let m := foldl reg_model ∅ ops in
  let self := mc_NodeID (cfg_members cfg) in
  let '(rn, x1, res) := JoinWith (V := V) cfg env x r in
  match res with
  | Err _ => x_store x1 = x_store x
  | Ok (node, _) => ∀ acts n s,
      Forall node_act_ok acts → run_node (node, x_store x1) acts = Some (n, s) →
      let m' := foldl node_model (<[self := stamped (x_now x) (own_registration (config_of cfg))]> m) acts in
      discovers s (fun reg => m' !! NodeID reg = Some reg) ∧
      (∀ p, p ∈ AllPeers (ge_overlay (me_engine n)) →
         op_NodeID p ≠ self ∧ IsAlive (me_members n) (op_NodeID p) = true ∧ op_Addr p = AddrForNode (me_members n) (op_NodeID p)) ∧
      ∀ senv,
        let '(rn', x', _) := LeaveWith (V := V) (C := C) rn senv (mkS3 s (x_ext x1) (x_now x1) (x_env x1) (x_tried x1)) in
        discovers (x_store x') (fun reg => NodeID reg ≠ self ∧ m' !! NodeID reg = Some reg) ∧
        (∃ h, rn' = mkRunning h false false false []) ∧
        (st_leave senv = true → st_shutdown senv = true → r_members rn' = mkHandles (Some false) (Some false))
  end.
Proof.
  intros m self. assert (reg_inv (x_store x) m) as Hm by (rewrite Hx; apply reg_inv_ops; [by apply reg_inv_empty|done]).
  pose proof (JoinWith_registers cfg env x r m Hm Hjson) as HJ'.
  destruct (JoinWith cfg env x r) as [[rn x1] [[node r1]|e]] eqn:E; [|by subst].
  destruct HJ' as (Hd & Hh & Hl & He & Hr). apply JoinWith_linked in E as [Hloops E]. set (o0 := Overlay.New _ _) in E.
  intros acts n s Hacts Hrun m'.
  destruct (run_node_consistent o0 _ (node, x_store x1) acts (n, s) ltac:(split; [by eexists|done|done]) Hacts Hrun) as [[seen L1] _ L3].
  cbn [fst snd] in *.
  split_and!; [by eapply reg_inv_discovers|intros p; by apply (linked_targets _ _ _ n p L1)|].
  intros senv. unfold LeaveWith, Leave. rewrite Hd, Hh, Hloops. cbn [dx_Stop s3nat_discovery x_store x_ext]. unfold S3nat.Stop. rewrite He.
  pose proof (stop_closes senv) as Hc. destruct (Membership.Stop _ senv) as [h res]. cbn [x_store fst] in *.
  split_and!; [|by exists h|done]. eapply reg_inv_discovers; [exact (do_reg_inv _ _ (ODeregister self) I L3)|]. intros reg. cbn [reg_model].
  rewrite lookup_delete_Some. naive_solver.
Qed.
End Nodes.

(** ** Witness *)

(** "a" is registered; "self" joins, "b" registers, "a" is reported as gone. *)
Definition registered_a : s3nat_ext MemoryObjectStore :=
  mkS3 (foldl do_reg NewMemoryObjectStore [ORegister 5 (own_registration (conf "a"))]) New 6 punching [].

Definition with_a : running * s3nat_ext MemoryObjectStore * result join_error (Mesh Z Z * reflector) :=
  JoinWith (V := Z) sample_mesh all_well registered_a quiet.

Definition joined_node : Mesh Z Z := match with_a.2 with Ok (node, _) => node | Err _ => joined end.

Definition joined_handlers : reflector := match with_a.2 with Ok (_, r) => r | Err _ => quiet end.

Lemma with_a_ok : with_a = (with_a.1.1, with_a.1.2, Ok (joined_node, joined_handlers)).
Proof. vm_compute. reflexivity. Qed.

Definition node_acts : list node_act :=
  [NMesh (MEvent (EvJoin (node_of "a" 9))); NMesh (MEvent (EvJoin (node_of "b" 12))); NOther (ORegister 7 (own_registration (conf "b")));
   NMesh (MEvent (EvLeave (node_of "a" 9)))].

Definition after_node_acts : Mesh Z Z * MemoryObjectStore :=
  default (joined, NewMemoryObjectStore) (run_node (HZ := stored_zstd) (joined_node, x_store with_a.1.2) node_acts).

Lemma after_node_acts_ok :
  run_node (HZ := stored_zstd) (joined_node, x_store with_a.1.2) node_acts = Some (after_node_acts.1, after_node_acts.2).
Proof. vm_compute. reflexivity. Qed.

Lemma node_and_registration_witness :
  op_NodeID <$> AllPeers (ge_overlay (me_engine after_node_acts.1)) = ["b"%string] ∧
  discovers after_node_acts.2 (fun reg => foldl node_model
    (<["self"%string := stamped 6 (own_registration (config_of sample_mesh))]>
       (foldl reg_model ∅ [ORegister 5 (own_registration (conf "a"))])) node_acts !! NodeID reg = Some reg).
Proof.
  split; [vm_compute; reflexivity|].
  pose proof (node_and_registration (HZ := stored_zstd) (V := Z) sample_mesh all_well registered_a quiet
    [ORegister 5 (own_registration (conf "a"))] NewMemoryObjectStore new_store_empty ltac:(repeat constructor) eq_refl I) as H.
  cbv zeta in H. fold with_a in H. rewrite with_a_ok in H.
  exact (proj1 (H node_acts after_node_acts.1 after_node_acts.2 ltac:(repeat constructor) after_node_acts_ok)).
Defined.
