(* ===== verification/Traverse.v ===== *)
(** * What discovery does to a node (src/s3nat/s3nat.go with holepunch, relay and transport)

    [S3nat] returns what a round of discovery attempts; here the attempts act on
    the node.  A punched connection is the end of an attempt of [Holepunch], of
    which those of all nodes interleave on the shared store; it goes into the
    pool of [Transport] and to the membership.  A relay is dialled through the
    same pool. *)

From S2P Require Import Prelude Netaddr Json Objstore Bootstrap Tls Stream Transport Holepunch Relay Membership S3nat.

(** [SetupTLS]: the extension's store is handed on. *)
Definition SetupTLS {T S} `{TLSUtil T} `{ObjectStore S} (fuel : nat) (now seed : Z)
    (gens : nat → option (bytes * bytes)) (store : option S) (nodeID : string) (ips : list IP) :
    option S * result tls_error T :=
  SetupClusterTLS fuel now seed gens store nodeID ips.

(** The parameters of a punch. *)
Definition punch_params (c : node_config) (targetID : string) : PunchParams :=
  mkPunch (nc_NodeID c) targetID (app_addr c).

(** How a relay answers: the dial, the stream, the header. *)
Record relay_answer := mkAnswer { ra_dial : option nat; ra_opens : nat → bool; ra_write : write_outcome }.

(** What the attempts act on: the pool, and the connections that memberlist was
    given, each joined at its address. *)
Record reach := mkReach { re_pool : Pool; re_injected : list (nat * string) }.

(** [InjectConnection] does nothing before the membership is started. *)
Definition inject (h : handles) (c : nat) (addr : string) (l : list (nat * string)) : list (nat * string) :=
  match ConnPool h () with None => l | Some _ => l ++ [(c, addr)] end.

Definition do_attempt (h : handles) (out : string → string → relay_answer) (st : reach) (a : attempt) : reach :=
  match a with
  | TryJoin _ _ | TryPunch _ _ => st
  | Adopt _ addr c => mkReach (AddConnection addr c (re_pool st)) (inject h c addr (re_injected st))
  | TryRelay relayAddr target =>
      let r := out relayAddr target in
      mkReach (DialViaRelay (re_pool st) relayAddr target (ra_dial r) (ra_opens r) (ra_write r)).1 (re_injected st)
  end.

Definition do_attempts (h : handles) (out : string → string → relay_answer) (st : reach) (l : list attempt) : reach :=
  foldl (do_attempt h out) st l.

(** ** The pool after an attempt *)

(** Where a pooled connection comes from. *)
Definition pooled_by (out : string → string → relay_answer) (l : list attempt) (addr : string) (c : nat) : Prop :=
  (∃ id, Adopt id addr c ∈ l) ∨ ∃ id, TryRelay addr id ∈ l ∧ ra_dial (out addr id) = Some c.

(** Nothing is un-served, and what is new under an address was dialled for it. *)
Definition grown (p p' : Pool) (new : string → nat → Prop) : Prop :=
  shut p' = shut p ∧ (∀ c, c ∈ loops p → c ∈ loops p') ∧
  ∀ addr c, appConns p' !! addr = Some c → appConns p !! addr = Some c ∨ new addr c.

Lemma grown_refl p new : grown p p new.
Proof. split_and!; auto. Qed.

Lemma grown_trans p p1 p2 new1 new2 :
  grown p p1 new1 → grown p1 p2 new2 → grown p p2 (fun addr c => new1 addr c ∨ new2 addr c).
Proof.
  intros (H1 & H2 & H3) (K1 & K2 & K3). split_and!; [congruence|auto|].
  intros addr c [Hc|Hc]%K3; [|by right; right]. apply H3 in Hc as [?|?]; [by left|by right; left].
Qed.

Lemma grown_weaken p p' (new new' : string → nat → Prop) :
  (∀ addr c, new addr c → new' addr c) → grown p p' new → grown p p' new'.
Proof. intros Hw (H1 & H2 & H3). split_and!; [done|done|]. intros addr c [?|?]%H3; [by left|right; by apply Hw]. Qed.

Lemma grown_remove p addr new : grown p (remove addr p) new.
Proof. split_and!; [done|done|]. intros a c. cbn. intros [_ ?]%lookup_delete_Some. by left. Qed.

Lemma grown_kill p c new : grown p (kill c p) new.
Proof. split_and!; [done|done|]. by left. Qed.

Lemma grown_connect p addr c new : grown p (connect c addr p) new.
Proof. split_and!; [done|done|]. by left. Qed.

Lemma grown_store p addr c (new : string → nat → Prop) : new addr c → grown p (store addr c p) new.
Proof.
  intros Hnew. split_and!; [done|done|]. intros a k. cbn. intros [[-> ->]|[_ ?]]%lookup_insert_Some; [by right|by left].
Qed.

Lemma grown_startAcceptLoop p c new : grown p (startAcceptLoop c p) new.
Proof.
  unfold startAcceptLoop. destruct (shut p) eqn:E; [apply grown_refl|]. split_and!; [by rewrite E| |by left].
  intros k Hk. cbn. apply elem_of_app. by left.
Qed.

(** A step of a call pools nothing but what it dialled, which it holds. *)
Definition holds_dialled (dial : option nat) (pc : dial_pc) : Prop :=
  match pc with DStore c | DExisting c _ | DReplace c | DStart c => dial = Some c | _ => True end.

Lemma dial_step_grown addr dial p pc :
  holds_dialled dial pc →
  let '(p', pc') := dial_step addr dial p pc in
  holds_dialled dial pc' ∧ grown p p' (fun a c => a = addr ∧ dial = Some c).
Proof.
  intros Hd. destruct pc as [|c| | |c|c e|c|c|r]; cbn [dial_step]; repeat case_match; simplify_eq/=;
    split; auto using grown_refl, grown_remove, grown_kill, grown_connect, grown_store, grown_startAcceptLoop.
Qed.

Lemma dial_steps_grown n addr dial p pc :
  holds_dialled dial pc → grown p (dial_steps n addr dial p pc).1 (fun a c => a = addr ∧ dial = Some c).
Proof.
  revert p pc. induction n as [|n IH]; intros p pc Hd; cbn [dial_steps]; [apply grown_refl|].
  pose proof (dial_step_grown addr dial p pc Hd) as Hs. destruct (dial_step addr dial p pc) as [p1 pc1].
  destruct Hs as [Hd1 Hg]. eapply grown_weaken; [|eapply grown_trans; [exact Hg|by apply IH]]. cbv beta. tauto.
Qed.

Lemma evict_grown addr c p new : grown p (evict addr c p) new.
Proof.
  unfold evict, remove_if. eapply grown_weaken; [|eapply grown_trans; [|apply grown_kill]].
  - intros a k [Hn|Hn]; exact Hn.
  - case_decide; [apply grown_remove|apply grown_refl].
Qed.

Lemma DialViaRelay_grown p addr target dial opens w :
  grown p (DialViaRelay p addr target dial opens w).1 (fun a c => a = addr ∧ dial = Some c).
Proof.
  unfold DialViaRelay, OpenStream, getOrDial.
  pose proof (dial_steps_grown 6 addr dial p DLoad I) as Hg. destruct (dial_steps 6 addr dial p DLoad) as [p1 pc].
  destruct pc as [| | | | | | | |[c|]]; try exact Hg. destruct (opens c); [by destruct (write_ok w)|].
  eapply grown_weaken; [|eapply grown_trans; [exact Hg|apply (evict_grown _ _ _ (fun _ _ => False))]]. cbv beta. tauto.
Qed.

Lemma AddConnection_grown p addr c (new : string → nat → Prop) : new addr c → grown p (AddConnection addr c p) new.
Proof.
  intros Hnew. unfold AddConnection. eapply grown_weaken; [|eapply grown_trans; [|apply grown_startAcceptLoop]].
  - intros a k [Hn|Hn]; exact Hn.
  - eapply grown_weaken; [|eapply grown_trans; [apply grown_connect|by apply (grown_store _ _ _ new)]]. intros a k [Hn|Hn]; exact Hn.
Qed.

Lemma AddConnection_loops p addr c : shut p = false → c ∈ loops (AddConnection addr c p).
Proof. intros Hs. unfold AddConnection, startAcceptLoop. cbn. rewrite Hs. cbn. apply elem_of_app. right. by apply list_elem_of_singleton. Qed.

Lemma do_attempt_grown h out st a : grown (re_pool st) (re_pool (do_attempt h out st a)) (pooled_by out [a]).
Proof.
  destruct a as [id addr|id self|id addr c|addr id]; cbn [do_attempt re_pool]; [apply grown_refl..| |].
  - apply AddConnection_grown. left. exists id. by apply list_elem_of_singleton.
  - eapply grown_weaken; [|apply DialViaRelay_grown]. intros a c [-> Hc]. right. exists id. split; [by apply list_elem_of_singleton|done].
Qed.

Lemma pooled_by_app out l1 l2 addr c : pooled_by out (l1 ++ l2) addr c ↔ pooled_by out l1 addr c ∨ pooled_by out l2 addr c.
Proof. unfold pooled_by. setoid_rewrite elem_of_app. naive_solver. Qed.

(** A round serves what it adopts, and pools nothing else but relays. *)
Lemma do_attempts_grown h out st l :
  let st' := do_attempts h out st l in
  grown (re_pool st) (re_pool st') (pooled_by out l) ∧
  (∀ x, x ∈ re_injected st → x ∈ re_injected st') ∧
  (shut (re_pool st) = false → is_Some (h_quic h) →
   ∀ id addr c, Adopt id addr c ∈ l → c ∈ loops (re_pool st') ∧ (c, addr) ∈ re_injected st').
Proof.
  induction l as [|a l IH] using rev_ind; cbv zeta in *.
  - split_and!; [apply grown_refl|done|]. by intros _ _ id addr c ?%elem_of_nil.
  - unfold do_attempts in *. rewrite foldl_app. cbn [foldl]. set (st1 := foldl _ st l) in *. destruct IH as (I1 & I2 & I3).
    pose proof (do_attempt_grown h out st1 a) as Hg.
    assert (∀ x, x ∈ re_injected st1 → x ∈ re_injected (do_attempt h out st1 a)) as Hinj.
    { intros x Hx. destruct a; cbn [do_attempt re_injected]; [done..| |done]. unfold inject.
      destruct (ConnPool h ()); [apply elem_of_app; by left|done]. }
    split_and!; [|by intros x ?%I2%Hinj|].
    + eapply grown_weaken; [|eapply grown_trans; [exact I1|exact Hg]]. intros addr c. by rewrite pooled_by_app.
    + intros Hs Hq id addr c [Hin|Heq%list_elem_of_singleton]%elem_of_app.
      * destruct (I3 Hs Hq id addr c Hin) as [H1 H2]. split; [by apply Hg|by apply Hinj].
      * subst a. destruct I1 as (Hs1 & _). cbn [do_attempt re_pool re_injected]. unfold inject, ConnPool. destruct Hq as [q ->].
        split; [apply AddConnection_loops; by rewrite Hs1|]. apply elem_of_app. right. by apply list_elem_of_singleton.
Qed.

(** ** Punching, end to end *)

Section Punched.
Context {S : Type} `{HS : ObjectStore S} `{HSp : !ObjectStoreSpec S}.
Context `{HJ : JSON NodeRegistration} `{HJp : !JSONSpec NodeRegistration}.
Context `{HJs : JSON Signal} `{HJsp : !JSONSpec Signal}.

(** net.ResolveUDPAddr and the remote address of a connection dialled to it. *)
Context (resolve : string → option string).

(** Who signalled an address: an attempt to reach the other side. *)
Definition logged_by (st : punch_sys S) : Prop :=
  ∀ from to addr, (from, to, addr) ∈ hp_log st →
  ∃ i a q, hp_attempts st !! i = Some (a, q) ∧ SelfID a = from ∧ TargetID a = to ∧ SelfAddr a = addr.

Lemma attempts_stay (ats : list (PunchParams * option punch_pc)) i a q q' j b r :
  ats !! i = Some (a, q) → ats !! j = Some (b, r) → ∃ r', <[i := (a, q')]> ats !! j = Some (b, r').
Proof.
  intros Hi Hj. destruct (decide (i = j)) as [->|Hne].
  - rewrite Hi in Hj. injection Hj as -> _. exists q'. by apply list_lookup_insert_eq, (lookup_lt_Some _ _ _ Hi).
  - exists r. by rewrite list_lookup_insert_ne.
Qed.

Lemma logged_by_move st st' : logged_by st → punch_move st st' → logged_by st'.
Proof.
  intros Hlog Hmove from to addr.
  destruct Hmove as [s ats log a Ha|s ats log i a p inp s' p' Hi Hstep|s ats log i a p Hi|s ats log s' Heq]; cbn.
  - intros (j & b & q & Hj & Hb)%Hlog. exists j, b, q. split; [by apply lookup_app_l_Some|done].
  - intros [(j & b & q & Hj & Hb)%Hlog|Hw]%elem_of_app.
    + destruct (attempts_stay ats i a (Some p) (Some p') j b q Hi Hj) as [r' Hr]. by exists j, b, r'.
    + exists i, a, (Some p'). split; [by apply list_lookup_insert_eq, (lookup_lt_Some _ _ _ Hi)|].
      destruct p, p'; cbn in Hw; try (by apply elem_of_nil in Hw). apply list_elem_of_singleton in Hw. by simplify_eq.
  - intros (j & b & q & Hj & Hb)%Hlog. destruct (attempts_stay ats i a (Some p) None j b q Hi Hj) as [r' Hr]. by exists j, b, r'.
  - apply Hlog.
Qed.

Lemma reachable_logged_by s0 st : rtc punch_move (mkSys s0 [] []) st → logged_by st.
Proof.
  intros Hrun. eapply (rtc_ind_r logged_by); [| |exact Hrun].
  - by intros from to addr ?%elem_of_nil.
  - intros st1 st2 _ Hmove Hlog. by eapply logged_by_move.
Qed.

(** A punched connection is the end of an attempt with the parameters of
    [tryHolePunch]. *)
Definition punched (c : node_config) (st : punch_sys S) (env : nat_env (S := S)) : Prop :=
  ∀ id addr k, ne_punch env id = Some (addr, k) →
  ∃ i sigAddr, hp_attempts st !! i = Some (punch_params c id, Some (PDone (Ok sigAddr))) ∧ resolve sigAddr = Some addr.

(** The end of an attempt is at an address that the target itself signalled, and to
    us when no ID contains a slash. *)
Lemma punched_signaller s0 st i a addr :
  no_signals s0 → rtc punch_move (mkSys s0 [] []) st →
  hp_attempts st !! i = Some (a, Some (PDone (Ok addr))) →
  (∃ j b q, hp_attempts st !! j = Some (b, q) ∧ SelfID b = TargetID a ∧ SelfAddr b = addr) ∧
  (plain_sys st → ∃ j b q, hp_attempts st !! j = Some (b, q) ∧ SelfID b = TargetID a ∧ TargetID b = SelfID a ∧ SelfAddr b = addr).
Proof.
  intros H0 Hrun Hi. pose proof (reachable_logged_by s0 st Hrun) as Hlog. split.
  - destruct (so_pcs _ (reachable_sys_ok s0 st H0 Hrun) i a _ Hi) as [to Hto].
    destruct (Hlog _ _ _ Hto) as (j & b & q & Hj & ? & _ & ?). by exists j, b, q.
  - intros Hpl. apply Hlog. exact (po_pcs _ (reachable_plain_ok s0 st H0 Hrun Hpl) i a _ Hi).
Qed.

(** C21: A punched connection reaches the peer's own address and is served.  After any
    interleaving of the attempts of all nodes, crashes included, one round of
    discovery adopts a connection only to a registered stranger with a public
    address, at an address that the stranger's own attempt signalled, at this
    very node when no ID contains a slash; on an open transport the connection's
    accept loops run and memberlist gets it to join at that address; and whatever
    else the round adds to the pool was dialled to a registered relay. *)
Theorem adopted_connections_served s0 st s1 ops env (c : node_config) h out p
    (H0 : no_signals s0) (Hrun : rtc punch_move (mkSys s0 [] []) st)
    (Hempty : ∀ id, contents s1 !! (nodePrefix +:+ id) = None) (Hops : Forall op_ok ops)
    (Hpunch : punched c st env) (Hopen : shut p = false) (Hquic : is_Some (h_quic h)) :
  let attempts := discoverAndConnect (foldl do_reg s1 ops) env (nc_NodeID c) (app_addr c) in
  let st' := do_attempts h out (mkReach p []) attempts in
  (∀ id addr k, Adopt id addr k ∈ attempts →
     k ∈ loops (re_pool st') ∧ (k, addr) ∈ re_injected st' ∧
     (∃ reg, foldl reg_model ∅ ops !! id = Some reg ∧ PublicAddr reg ≠ ""%string ∧ id ≠ nc_NodeID c ∧ ne_alive env id = false) ∧
     (∃ i a q, hp_attempts st !! i = Some (a, q) ∧ SelfID a = id ∧ resolve (SelfAddr a) = Some addr) ∧
     (plain_sys st → ∃ i a q, hp_attempts st !! i = Some (a, q) ∧ SelfID a = id ∧ TargetID a = nc_NodeID c ∧ resolve (SelfAddr a) = Some addr)) ∧
  (∀ addr k, appConns (re_pool st') !! addr = Some k →
     appConns p !! addr = Some k ∨ (∃ id, Adopt id addr k ∈ attempts) ∨
     ∃ id relay peers, DiscoverPeers (ne_store env id) = Ok peers ∧ relay ∈ peers ∧ IsRelay relay = true ∧
       addr = relay_addr relay ∧ ra_dial (out addr id) = Some k).
Proof.
  intros attempts st'.
  destruct (do_attempts_grown h out (mkReach p []) attempts) as ((_ & _ & Hnew) & _ & Hserved).
  assert (∀ a, a ∈ attempts → ∃ reg, foldl reg_model ∅ ops !! NodeID reg = Some reg ∧ a ∈ connect_peer env (nc_NodeID c) (app_addr c) reg) as Hat.
  { intros a. apply elem_of_discover, reg_inv_ops; [by apply reg_inv_empty|done]. }
  split.
  - intros id addr k Ha. destruct (Hserved Hopen Hquic id addr k Ha) as [H1 H2].
    destruct (Hat _ Ha) as (reg & Hreg & (Hself & Hal & -> & _ & Hpub & Hp)%elem_of_connect_peer).
    destruct (Hpunch _ _ _ Hp) as (i & sigAddr & Hi & Hres).
    destruct (punched_signaller s0 st i _ _ H0 Hrun Hi) as [(j & a & q & Hj & ? & <-) Hpl].
    split_and!; [done|done|by exists reg|by exists j, a, q|].
    intros (j' & a' & q' & Hj' & ? & ? & Heq)%Hpl. exists j', a', q'. by rewrite Heq.
  - intros addr k [?|[?|(id & Hr & Hd)]]%Hnew; [by left|by right; left|]. right. right. exists id.
    destruct (Hat _ Hr) as (reg & _ & (_ & _ & -> & _ & _ & relay & peers & ? & ? & ? & ?)%elem_of_connect_peer). by exists relay, peers.
Qed.

(** C36: Punching never uses a public address.  When every attempt in the system is
    made by the extension of some node, with whatever public addresses the nodes
    registered, what an attempt dials is the address its target is bound to, the
    port above the bind port: for a node bound to all interfaces that address is
    "0.0.0.0:7947", the dialling host's own. *)
Theorem punching_dials_bind_address s0 st (conf : string → node_config) i a pc
    (H0 : no_signals s0) (Hrun : rtc punch_move (mkSys s0 [] []) st)
    (Hext : ∀ j b q, hp_attempts st !! j = Some (b, q) →
       nc_NodeID (conf (SelfID b)) = SelfID b ∧ b = punch_params (conf (SelfID b)) (TargetID b))
    (Hi : hp_attempts st !! i = Some (a, Some pc)) :
  let target := app_addr (conf (TargetID a)) in
  (∀ sig, pc = PDial sig → SigAddr sig = target) ∧ (∀ addr, pc = PDone (Ok addr) → addr = target).
Proof.
  assert (∀ addr, authored a (hp_log st) addr → addr = app_addr (conf (TargetID a))) as Hown.
  { intros addr [to (j & b & q & Hj & <- & _ & <-)%(reachable_logged_by s0 st Hrun)].
    destruct (Hext j b q Hj) as [_ Hb]. by rewrite Hb at 1. }
  pose proof (so_pcs _ (reachable_sys_ok s0 st H0 Hrun) i a pc Hi) as Hpc.
  split; [intros sig ->|intros addr ->]; by apply Hown.
Qed.
End Punched.

(** ** Witnesses *)

(** Two nodes behind a NAT, bound to all interfaces, punch to each other. *)
Definition bound (id : string) : node_config := mkNodeCfg id "0.0.0.0" 7946.

Definition two_extensions : punch_sys MemoryObjectStore :=
  mkSys NewMemoryObjectStore [(punch_params (bound "a") "b", Some PWrite); (punch_params (bound "b") "a", Some PWrite)] [].

Definition extensions_met : punch_sys MemoryObjectStore :=
  run_punch two_extensions ([(0, tick); (1, tick)] ++ replicate 9 (0, tick))%nat.

Lemma extensions_met_reachable : rtc punch_move (mkSys NewMemoryObjectStore [] []) extensions_met.
Proof.
  apply run_punch_reachable.
  assert (attempt_ok (punch_params (bound "a") "b") ∧ attempt_ok (punch_params (bound "b") "a")) as [Ha Hb].
  { done. }
  eapply rtc_l; [apply (hp_begin _ _ _ _ Ha)|]. eapply rtc_l; [apply (hp_begin _ _ _ _ Hb)|]. apply rtc_refl.
Qed.

Lemma punching_dials_bind_address_witness :
  hp_attempts extensions_met !! 0%nat = Some (punch_params (bound "a") "b", Some (PDone (Ok "0.0.0.0:7947"%string))) ∧
  app_addr (bound "b") = "0.0.0.0:7947"%string.
Proof.
  assert (hp_attempts extensions_met !! 0%nat = Some (punch_params (bound "a") "b", Some (PDone (Ok "0.0.0.0:7947"%string)))) as Hi
    by (vm_compute; reflexivity).
  split; [exact Hi|].
  destruct (punching_dials_bind_address NewMemoryObjectStore extensions_met bound 0%nat (punch_params (bound "a") "b")
    (PDone (Ok "0.0.0.0:7947"%string)) memory_no_signals extensions_met_reachable) as [_ H]; [|exact Hi|].
  - intros j b q Hj. destruct j as [|[|j]]; vm_compute in Hj; [injection Hj as <- <-; split; reflexivity..|discriminate].
  - symmetry. exact (H _ eq_refl).
Defined.

(** A round of "a" that finds "b" in the registry and adopts what was punched. *)
Definition met : nat_env (S := MemoryObjectStore) :=
  mkNatEnv (fun _ => false) (fun _ => false) (fun id => if decide (id = "b"%string) then Some ("0.0.0.0:7947"%string, 3%nat) else None)
    (fun _ _ => false) (fun _ => NewMemoryObjectStore).

Lemma adopted_connections_served_witness :
  let ops := [ORegister 5 (mkReg "b" ["10.0.0.1:7946"] "203.0.113.5:9" false 0)] in
  let attempts := discoverAndConnect (foldl do_reg NewMemoryObjectStore ops) met "a" (app_addr (bound "a")) in
  let st' := do_attempts (mkHandles (Some true) (Some true)) (fun _ _ => mkAnswer None (fun _ => false) WOk) (mkReach newPool []) attempts in
  attempts = [TryJoin "b" "10.0.0.1:7946"; TryPunch "b" "0.0.0.0:7947"; Adopt "b" "0.0.0.0:7947" 3] ∧
  3%nat ∈ loops (re_pool st') ∧ (3%nat, "0.0.0.0:7947"%string) ∈ re_injected st'.
Proof.
  intros ops attempts st'. split; [vm_compute; reflexivity|].
  destruct (adopted_connections_served Some NewMemoryObjectStore extensions_met NewMemoryObjectStore ops met (bound "a")
    (mkHandles (Some true) (Some true)) (fun _ _ => mkAnswer None (fun _ => false) WOk) newPool) as [H _].
  - exact memory_no_signals.
  - exact extensions_met_reachable.
  - exact new_store_empty.
  - repeat constructor.
  - intros id addr k. unfold met. cbn [ne_punch]. case_decide as Hd; [|discriminate]. intros [= <- <-]. subst id.
    exists 0%nat, "0.0.0.0:7947"%string. split; [vm_compute; reflexivity|reflexivity].
  - reflexivity.
  - eexists. reflexivity.
  - destruct (H "b"%string "0.0.0.0:7947"%string 3%nat) as (H1 & H2 & _); [vm_compute; right; right; left|]. split; [exact H1|exact H2].
Defined.
